(* ===== verification/_CoqProject ===== *)
-Q . S2P
Prelude.v
Bytes.v
Utf8.v
Maps.v
Heap.v
Hash.v
Sketch.v
Snapshot.v
F64.v
Table.v
CountMin.v
CountSketch.v
MisraGries.v
SpaceSaving.v
Hll.v
HllMap.v
Event.v
Kll.v
Ir.v
Yaml.v
QueryState.v
Planner.v
Emit.v
Window.v
Engine.v
Sharded.v
WindowSpec.v
Guarantees.v
Restore.v
Sliding.v
EngineSpec.v
PlanRuns.v
ShardedSpec.v
Lanes.v
LaneReports.v
LanesSpec.v
Barrier.v
Checkpoints.v
Shipping.v
Batch.v
Gateway.v
GatewaySpec.v
Cluster.v
AgentConfig.v
Startup.v
Published.v
Exposition.v
MetricsPages.v
GatewayPage.v
Http.v
GatewayHttp.v
PushDelivery.v
AgentHttp.v
Otlp.v
Packet.v
Pcap.v
Ebpf.v
Replay.v
MergeTool.v
