(* ===== verification/Prelude.v ===== *)
(** * FlowSketch: a verification library

    FlowSketch answers streaming queries about network traffic with sketches.
    An agent turns captured packets into flow events and feeds them to a query
    engine; the engine keeps, for each query, a ring of time buckets of sketch
    state and closes windows as event time advances; agents push the sketch
    snapshots of their open windows to a gateway, which merges the windows of
    all nodes and serves the result.  This library models that path, from the
    bytes of a packet to the answer of the gateway, and proves what each part
    promises to the next.

    ** The parts, the files and the source

    Source paths are relative to [src/crates/].  A component has a file with its
    data and operations, named as in the source, and its first theorems; a file
    ending in [Spec], or one listed after it here, holds what is proved of it.

    Shared: [Prelude] (machine integers, fallible code, vectors, loops, state
    passing), [Bytes], [Utf8] (what the code uses of [str]), [Maps], [Heap],
    [F64] (binary64 on [SpecFloat]).

    Core and sketches, [flowsketch-core] and [flowsketch-algos]: [Hash]
    (hash.rs), [Sketch] (sketch.rs and error.rs, the trait as the classes
    [Sketch] and [LawfulSketch]), [Snapshot] (snapshot.rs), [Event] (event.rs
    and field.rs), [Table], [CountMin], [CountSketch], [MisraGries],
    [SpaceSaving], [Hll], [HllMap], [Kll] (the files of their names).

    Queries: [Ir] (flowsketch-ir/src/logical.rs, physical.rs), [Yaml]
    (yaml.rs), [Planner] (flowsketch-planner/src/lib.rs), [PlanRuns] (planned
    queries run).

    Runtime, flowsketch-runtime/src/lib.rs: [QueryState] (the sketches of one
    window, and the classes [WindowSketch] and [LawfulWindow] that the windowed
    runtime is written and proved against), [Emit] (estimates), [Window] (the
    bucket ring) with [WindowSpec] and [Sliding], [Engine] with [EngineSpec],
    [Guarantees], [Sharded] with [ShardedSpec], [Restore] (windows rebuilt from
    snapshots).

    Agent, flowsketch-agent/src: [Lanes] (direct_runtime.rs, and [offer_event] of
    lib.rs) with [LaneReports], [LanesSpec], [Barrier] and [Checkpoints].

    Shipping and gateway: [Shipping] (export on one node, restore on another),
    [Batch] (flowsketch-gateway/src/batch.rs), [Gateway] (state.rs) with
    [GatewaySpec] and [Cluster].

    Capture: [Packet] (flowsketch-pcap/src/parse.rs), [Pcap] (lib.rs and
    writer.rs), [Ebpf] (flowsketch-ebpf/src/lib.rs and bpf/flowsketch_tc.bpf.c).

    ** How the code is modelled

    A machine integer is a [Z] within its width, with wrapping written [+ʷ], [-ʷ],
    [*ʷ] and saturation [sat_add64] and the like: the release profile leaves
    overflow checks off.  A byte is a [Z] below 256 and a [Vec<u8>] a [list Z]; a
    [String] is a [string] of its UTF-8 bytes.  A fallible function returns
    [outcome E A]: [Ok], [Err], or [Panic] for an index out of range, a failed
    [expect] and the like, so that "never panics" is a theorem and not a
    convention.  A [&mut self] method is a function in the state monad [stm]; on
    an error the state it leaves behind is part of the result.  A [HashMap] is a
    [gmap] (the code never lets its iteration order show, which is proved where
    it iterates), a [BTreeMap] a [gmap] read in key order.  A struct is a
    [Record] and an enum an [Inductive] with the source's names.

    ** What the theorems show

    - Sketches.  For any history of updates and merges: the error bounds of
      SpaceSaving, Count-Min, Misra-Gries and KLL; CountSketch depends only on
      net frequencies; HyperLogLog is a function of the set of hashes; the keyed
      map evicts within its bound.  The heap and arena of SpaceSaving refine a
      finite map.  Merging is the sketch of the union.  Snapshots round trip,
      and arbitrary bytes are rejected or restored well-formed.
    - Queries.  The YAML reader accepts exactly a declarative description of the
      language; an accepted and planned query is one the engine runs.
    - Windows.  A running query refines an abstract machine, a log of events and
      a list of closed windows; every closed window is exactly the sliding
      window of its end, none with events is skipped, memory is bounded, and
      draining always unblocks.  The engine's operations are all-or-nothing.
      Shards keep the single engine's guarantees.
    - The queue-local runtime.  Over all interleavings of capture, workers and
      coordinator: the two-phase barrier fails only when an engine is out of
      room; what is published is the merge of all lanes at one watermark and no
      accepted event is missing at the end; a checkpoint ends.
    - Gateway.  The store's invariant in every reachable state, the outcome of a
      push on every branch, the merge cache is invisible, and a complete merge
      answers for the events of all nodes with each sketch's error bounds.
    - Formats.  The packet parser accepts exactly the frames of an independent
      layout relation; the kernel program agrees with it but for one class of
      packets; capture files, batches and snapshots round trip and their readers
      are safe on any input.

    ** Parameters, fuel and bounds

    Code outside the repository is a parameter: the platform's [ln], [log2] and
    [exp] and the formatting of floats ([show], [show_fixed]) and of debug
    strings ([debug]); serde_yaml's deserializer; the allocator's footprint of a
    sketch ([Footprint], and the lanes' memory figure); the thread pool of the
    sharded engine (a relation that admits every order); clock readings; the
    kernel's helpers.  Theorems hold for every value of these, or name what
    they assume of them.

    The HyperLogLog estimator iterates on floats until a fixed point.  It takes
    fuel, and running out is [Panic]; the keyed map is proved under the
    hypothesis that the estimator converges within the fuel, and no other
    theorem depends on it.  Every other loop is structural or takes as fuel a
    measure that its lemma shows to be enough: the sifting loops the size of the
    heap, compaction the number of stored items, the pcap reader the length of
    its input, advancing a window the number of its slots.

    ** Not modelled

    Sockets, HTTP, TLS, files and command-line parsing; starting, pinning and
    joining threads, and the shutdown sent when a runtime is dropped; packet
    rings and the loading and polling of eBPF programs; the OpenTelemetry client
    and its generated protobuf types; the benchmark harness, the trace
    synthesizer and the exact counter they compare against: they only perform
    I/O, or call what is modelled.  The agent's other loops and the text of its
    HTTP pages are not modelled.
*)
From Stdlib Require Export ZArith Lia.
From stdpp Require Export base tactics option list list_numbers sorting gmap strings.
#[export] Set Default Proof Using "Type".
#[export] Set Default Goal Selector "!".
#[global] Open Scope Z_scope.
#[export] Unset Suggest Proof Using.

(** ** Machine integers

    A [u64] (and a [usize], on the 64-bit targets the code ships for) is a [Z]
    in [[0, 2^64)]; an [i64] is a [Z] in [[-2^63, 2^63)].  The crates are built
    with the release profile, which leaves overflow checks off, so [+], [-] and
    [*] wrap exactly like the explicit [wrapping_*] calls. *)

Declare Scope word_scope.
Delimit Scope word_scope with word.

Abbreviation u64_mod := 18446744073709551616.
Abbreviation u64_max := 18446744073709551615.
Abbreviation i64_half := 9223372036854775808.

Definition u64_ok (x : Z) : Prop := 0 <= x < u64_mod.
Definition u32_ok (x : Z) : Prop := 0 <= x < 4294967296.
Definition u16_ok (x : Z) : Prop := 0 <= x < 65536.
Definition u8_ok (x : Z) : Prop := 0 <= x < 256.
Definition i64_ok (x : Z) : Prop := - i64_half <= x < i64_half.

Definition wrap64 (x : Z) : Z := x mod u64_mod.
Definition wadd64 (a b : Z) : Z := wrap64 (a + b).
Definition wsub64 (a b : Z) : Z := wrap64 (a - b).
Definition wmul64 (a b : Z) : Z := wrap64 (a * b).
Definition iwrap64 (x : Z) : Z := (x + i64_half) mod u64_mod - i64_half.

(** [+] and [*] on [i64] *)
Definition iadd64 (a b : Z) : Z := iwrap64 (a + b).
Definition imul64 (a b : Z) : Z := iwrap64 (a * b).

(** [x as u32], [x as u16], [x as u8], [x as i64] *)
Definition as_u32 (x : Z) : Z := x mod 4294967296.
Definition as_u16 (x : Z) : Z := x mod 65536.
Definition as_u8 (x : Z) : Z := x mod 256.
Definition as_i64 (x : Z) : Z := iwrap64 x.

(** [x.saturating_sub(y)], [x.saturating_add(y)] on [u64]/[usize]. *)
Definition sat_sub64 (a b : Z) : Z := Z.max 0 (a - b).
Definition sat_add64 (a b : Z) : Z := Z.min u64_max (a + b).

(** [x << k], [x >> k], rotations and [leading_zeros] on [u64]. *)
Definition shl64 (x k : Z) : Z := wrap64 (Z.shiftl x (k mod 64)).
Definition shr64 (x k : Z) : Z := Z.shiftr x (k mod 64).
Definition rotl64 (x k : Z) : Z :=
  Z.lor (shl64 x k) (Z.shiftr x ((64 - k mod 64))).
Definition rotr64 (x k : Z) : Z :=
  Z.lor (shr64 x k) (wrap64 (Z.shiftl x (64 - k mod 64))).
Definition leading_zeros64 (x : Z) : Z :=
  if x =? 0 then 64 else 63 - Z.log2 x.

Notation "a +ʷ b" := (wadd64 a b) (at level 50, left associativity) : word_scope.
Notation "a -ʷ b" := (wsub64 a b) (at level 50, left associativity) : word_scope.
Notation "a *ʷ b" := (wmul64 a b) (at level 40, left associativity) : word_scope.
#[global] Open Scope word_scope.

Create HintDb word discriminated.
#[export] Hint Unfold u64_ok u32_ok u16_ok u8_ok i64_ok : word.

(** Unfold every range predicate and decide the goal by linear arithmetic. *)
Ltac word_lia := unfold u64_ok, u32_ok, u16_ok, u8_ok, i64_ok in *; lia.

(** Closed range facts, by evaluation. *)
Ltac range_tac :=
  repeat match goal with
  | |- _ ∧ _ => split
  | |- u64_ok _ => split
  | |- u32_ok _ => split
  | |- u16_ok _ => split
  | |- u8_ok _ => split
  | |- i64_ok _ => split
  | |- (_ <= _ < _)%Z => split
  | |- (_ <= _)%Z => vm_compute; discriminate
  | |- (_ < _)%Z => vm_compute; reflexivity
  | |- _ = _ => vm_compute; reflexivity
  end.

Lemma wrap64_range x : u64_ok (wrap64 x).
Proof. apply Z.mod_pos_bound. lia. Qed.

Lemma wrap64_small x : u64_ok x → wrap64 x = x.
Proof. apply Z.mod_small. Qed.

Lemma wrap64_idemp x : wrap64 (wrap64 x) = wrap64 x.
Proof. apply wrap64_small, wrap64_range. Qed.

Lemma wadd64_range a b : u64_ok (a +ʷ b).
Proof. apply wrap64_range. Qed.

Lemma wadd64_small a b : u64_ok (a + b) → a +ʷ b = a + b.
Proof. apply wrap64_small. Qed.

Lemma wsub64_small a b : u64_ok (a - b) → a -ʷ b = a - b.
Proof. apply wrap64_small. Qed.

Lemma wmul64_small a b : u64_ok (a * b) → a *ʷ b = a * b.
Proof. apply wrap64_small. Qed.

Lemma wadd64_wrap_l a b : wrap64 a +ʷ b = wrap64 (a + b).
Proof. unfold wadd64, wrap64. apply Zplus_mod_idemp_l. Qed.

Lemma wadd64_wrap_r a b : a +ʷ wrap64 b = wrap64 (a + b).
Proof. unfold wadd64, wrap64. apply Zplus_mod_idemp_r. Qed.

Lemma wadd64_wrap a b : wrap64 a +ʷ wrap64 b = wrap64 (a + b).
Proof.
  rewrite wadd64_wrap_l. unfold wrap64. by rewrite Zplus_mod_idemp_r.
Qed.

Lemma wadd64_comm a b : a +ʷ b = b +ʷ a.
Proof. unfold wadd64. f_equal. lia. Qed.

Lemma wadd64_assoc a b c : a +ʷ (b +ʷ c) = (a +ʷ b) +ʷ c.
Proof.
  unfold wadd64, wrap64. rewrite Zplus_mod_idemp_l, Zplus_mod_idemp_r.
  f_equal. lia.
Qed.

#[export] Instance wadd64_Comm : Comm (=) wadd64.
Proof. intros a b. apply wadd64_comm. Qed.
#[export] Instance wadd64_Assoc : Assoc (=) wadd64.
Proof. intros a b c. apply wadd64_assoc. Qed.

Lemma iwrap64_range x : i64_ok (iwrap64 x).
Proof.
  unfold iwrap64, i64_ok. pose proof (Z.mod_pos_bound (x + i64_half) u64_mod). lia.
Qed.

Lemma iwrap64_small x : i64_ok x → iwrap64 x = x.
Proof. intros H. unfold iwrap64, i64_ok in *. rewrite Z.mod_small; lia. Qed.

(** Two integers congruent modulo [2^64] are the same [i64]. *)
Lemma iwrap64_cong x y : x mod u64_mod = y mod u64_mod → iwrap64 x = iwrap64 y.
Proof.
  intros H. unfold iwrap64. rewrite (Zplus_mod x), (Zplus_mod y), H. done.
Qed.

Lemma iwrap64_mod x : iwrap64 x mod u64_mod = x mod u64_mod.
Proof.
  unfold iwrap64. rewrite Zminus_mod_idemp_l. f_equal. lia.
Qed.

Lemma iwrap64_add_l x y : iwrap64 (iwrap64 x + y) = iwrap64 (x + y).
Proof.
  apply iwrap64_cong. rewrite Zplus_mod, iwrap64_mod, <- Zplus_mod. done.
Qed.

Lemma iwrap64_add_r x y : iwrap64 (x + iwrap64 y) = iwrap64 (x + y).
Proof. rewrite Z.add_comm, iwrap64_add_l. f_equal. lia. Qed.

Lemma iadd64_wrap a b : iadd64 (iwrap64 a) (iwrap64 b) = iwrap64 (a + b).
Proof. unfold iadd64. by rewrite iwrap64_add_l, iwrap64_add_r. Qed.

Lemma iwrap64_wrap64 x : iwrap64 (wrap64 x) = iwrap64 x.
Proof. apply iwrap64_cong. unfold wrap64. by rewrite Z.mod_mod. Qed.

Lemma wrap64_iwrap64 x : wrap64 (iwrap64 x) = wrap64 x.
Proof. apply iwrap64_mod. Qed.

Lemma testbit_high x i : u64_ok x → 64 <= i → Z.testbit x i = false.
Proof.
  intros [H0 H1] Hi. destruct (decide (x = 0)) as [->|]; [apply Z.bits_0|].
  apply Z.bits_above_log2; [done|].
  enough (Z.log2 x < 64) by lia. apply Z.log2_lt_pow2; lia.
Qed.

Lemma u64_of_bits x :
  0 <= x → (∀ i, 64 <= i → Z.testbit x i = false) → u64_ok x.
Proof.
  intros H0 H. split; [done|].
  destruct (decide (x = 0)) as [->|Hx]; [lia|].
  destruct (decide (x < u64_mod)) as [|Hge]; [done|]. exfalso.
  assert (Hb : Z.testbit x (Z.log2 x) = true) by (apply Z.bit_log2; lia).
  rewrite H in Hb; [done|].
  change 64 with (Z.log2 u64_mod). apply Z.log2_le_mono. lia.
Qed.

Lemma lxor_u64 a b : u64_ok a → u64_ok b → u64_ok (Z.lxor a b).
Proof.
  intros Ha Hb. apply u64_of_bits.
  - apply Z.lxor_nonneg. word_lia.
  - intros i Hi. by rewrite Z.lxor_spec, !testbit_high.
Qed.

Lemma lor_u64 a b : u64_ok a → u64_ok b → u64_ok (Z.lor a b).
Proof.
  intros Ha Hb. apply u64_of_bits.
  - apply Z.lor_nonneg. word_lia.
  - intros i Hi. by rewrite Z.lor_spec, !testbit_high.
Qed.

Lemma shiftr_u64 a k : u64_ok a → 0 <= k → u64_ok (Z.shiftr a k).
Proof.
  intros [H0 H1] Hk. split; [by apply Z.shiftr_nonneg|].
  rewrite Z.shiftr_div_pow2 by done.
  pose proof (Z.pow_pos_nonneg 2 k ltac:(lia) Hk).
  apply Z.le_lt_trans with a; [|done].
  apply Z.div_le_upper_bound; nia.
Qed.

#[export] Hint Resolve wrap64_range wadd64_range iwrap64_range lxor_u64 lor_u64 : word.

(** ** Results, errors and panics

    [outcome E A] is what a Rust function that returns [Result<A, E>] may do:
    return, return an error, or panic (an index out of range, an [expect] on
    [None]).  The monad's notations are stdpp's ([x ← m; k]). *)
Inductive outcome (E A : Type) : Type :=
  | Ok (a : A)
  | Err (e : E)
  | Panic.
Arguments Ok {E A} _.
Arguments Err {E A} _.
Arguments Panic {E A}.

#[export] Instance outcome_eq_dec `{EqDecision E, EqDecision A} : EqDecision (outcome E A).
Proof. solve_decision. Defined.

#[export] Instance outcome_ret E : MRet (outcome E) := λ A a, Ok a.
#[export] Instance outcome_bind E : MBind (outcome E) := λ A B f m,
  match m with Ok a => f a | Err e => Err e | Panic => Panic end.

Definition is_ok {E A} (m : outcome E A) : bool :=
  match m with Ok _ => true | _ => false end.
Definition no_panic {E A} (m : outcome E A) : Prop := m ≠ Panic.

(** [o.ok_or(e)] and [o.expect(..)] *)
Definition ok_or {E A} (o : option A) (e : E) : outcome E A :=
  match o with Some a => Ok a | None => Err e end.
Definition expect {E A} (o : option A) : outcome E A :=
  match o with Some a => Ok a | None => Panic end.
(** [r.map_err(f)] and [r.ok()] *)
Definition map_err {E F A} (f : E → F) (m : outcome E A) : outcome F A :=
  match m with Ok a => Ok a | Err e => Err (f e) | Panic => Panic end.

(** An early [return Err(e)] guarded by [b]. *)
Definition fail_if {E} (b : bool) (e : E) : outcome E unit :=
  if b then Err e else Ok tt.

(** [injection] normalises both sides; this does not. *)
Lemma ok_inj {E A} (a b : A) : Ok (E := E) a = Ok b → a = b.
Proof. congruence. Qed.

Lemma bind_ok {E A B} (m : outcome E A) (f : A → outcome E B) b :
  (m ≫= f) = Ok b ↔ ∃ a, m = Ok a ∧ f a = Ok b.
Proof.
  destruct m; simpl; (split; [intros ?; eauto; discriminate|]);
    intros (? & ? & ?); congruence.
Qed.

Lemma bind_no_panic {E A B} (m : outcome E A) (f : A → outcome E B) :
  no_panic m → (∀ a, m = Ok a → no_panic (f a)) → no_panic (m ≫= f).
Proof. unfold no_panic. destruct m; simpl; eauto. Qed.

Lemma no_panic_ok {E A} (a : A) : no_panic (E := E) (Ok a).
Proof. done. Qed.
Lemma no_panic_err {E A} (e : E) : no_panic (A := A) (Err e).
Proof. done. Qed.
Lemma no_panic_fail_if {E} b (e : E) : no_panic (fail_if b e).
Proof. by destruct b. Qed.
Lemma no_panic_ok_or {E A} (o : option A) (e : E) : no_panic (ok_or o e).
Proof. by destruct o. Qed.

Lemma fail_if_ok {E} b (e : E) : fail_if b e = Ok tt ↔ b = false.
Proof. destruct b; simpl; naive_solver. Qed.

Create HintDb outcome discriminated.
#[export] Hint Resolve no_panic_ok no_panic_err no_panic_fail_if no_panic_ok_or
  : outcome.

(** One step of the monad: reduce binds and guards, nothing else. *)
Ltac ostep :=
  cbn [mbind option_bind outcome_bind mret outcome_ret fail_if ok_or expect map_err negb].

(** Reduce a map over an option that is known. *)
Ltac ofmap := cbn [fmap option_fmap option_map].

(** Take apart every hypothesis [m ≫= f = Ok b]. *)
Ltac bind_inv :=
  repeat match goal with
  | H : (_ ≫= _) = Ok _ |- _ =>
      apply bind_ok in H; destruct H as (? & ? & H)
  | H : fail_if _ _ = Ok ?u |- _ =>
      destruct u; apply fail_if_ok in H
  | H : (if ?b then Err _ else _) = Ok _ |- _ =>
      let Hb := fresh "Hb" in destruct b eqn:Hb; [discriminate H|]
  end.

(** Push [no_panic] through binds and branches. *)
Ltac no_panic_tac :=
  repeat first
    [ progress auto with outcome
    | apply bind_no_panic; [|intros ? ?]
    | progress simpl
    | match goal with
      | |- no_panic (let '(_, _) := ?p in _) => destruct p
      | |- no_panic (match ?x with _ => _ end) => destruct x
      | |- no_panic (if ?x then _ else _) => destruct x
      end ].

(** [for b in l { a = f(a, b)? }] *)
Fixpoint foldM {E A B} (f : A → B → outcome E A) (a : A) (l : list B)
    : outcome E A :=
  match l with
  | [] => Ok a
  | b :: l => a' ← f a b; foldM f a' l
  end.

Section foldM.
Context {E A B : Type}.
Implicit Types (f : A → B → outcome E A) (l : list B).

Lemma foldM_app f a l1 l2 :
  foldM f a (l1 ++ l2) = (a' ← foldM f a l1; foldM f a' l2).
Proof.
  revert a. induction l1 as [|b l1 IH]; intros a; [done|]. simpl.
  destruct (f a b); simpl; auto.
Qed.

Lemma foldM_Ok f (g : A → B → A) a l :
  (∀ a b, b ∈ l → f a b = Ok (g a b)) → foldM f a l = Ok (foldl g a l).
Proof.
  revert a. induction l as [|b l IH]; intros a H; [done|]. simpl.
  rewrite H by set_solver. simpl. apply IH. set_solver.
Qed.

(** The loop rule: an invariant over the processed prefix. *)
Lemma foldM_inv (I : list B → A → Prop) f a l :
  I [] a →
  (∀ done b rest a, l = done ++ b :: rest → I done a →
    ∃ a', f a b = Ok a' ∧ I (done ++ [b]) a') →
  ∃ a', foldM f a l = Ok a' ∧ I l a'.
Proof.
  intros H0 Hs.
  enough (∀ l1 l2 a, l = l1 ++ l2 → I l1 a →
    ∃ a', foldM f a l2 = Ok a' ∧ I l a') as H by (by apply (H [] l)).
  clear a H0. intros l1 l2. revert l1.
  induction l2 as [|b l2 IH]; intros l1 a -> HI; simpl.
  - rewrite app_nil_r. eauto.
  - destruct (Hs l1 b l2 a) as (a' & -> & HI'); [done|done|]. simpl.
    destruct (IH (l1 ++ [b]) a') as (a'' & Hf & HI''); [|done|].
    + by rewrite <- app_assoc.
    + by exists a''.
Qed.

Lemma foldM_no_panic f a l :
  (∀ a b, b ∈ l → no_panic (f a b)) → no_panic (foldM f a l).
Proof.
  revert a. induction l as [|b l IH]; intros a H; simpl; [done|].
  apply bind_no_panic; [apply H; set_solver|]. intros a' _. apply IH.
  set_solver.
Qed.

(** A property of the accumulator that every successful step keeps. *)
Lemma foldM_preserve (P : A → Prop) f a a' l :
  P a → (∀ a b a', b ∈ l → P a → f a b = Ok a' → P a') →
  foldM f a l = Ok a' → P a'.
Proof.
  revert a. induction l as [|b l IH]; intros a HP Hs Hf; simpl in Hf.
  - by simplify_eq.
  - bind_inv. eapply IH; [|set_solver|done]. eapply Hs; [|done|done]. set_solver.
Qed.
End foldM.

(** A loop that pushes one element per iteration is a map. *)
Lemma foldl_snoc {A B} (f : A → B) l acc :
  foldl (λ acc x, acc ++ [f x]) acc l = acc ++ (f <$> l).
Proof.
  revert acc. induction l as [|x l IH]; intros acc; simpl; [by rewrite app_nil_r|].
  rewrite IH, <- app_assoc. done.
Qed.

(** The value of a computation that returns; samples are built with it. *)
Definition run_or {E A} (d : A) (m : outcome E A) : A := match m with Ok a => a | _ => d end.

(** ** Stateful computations

    A [&mut self] method that returns [Result<A, E>]: what it did to [self]
    before an error stays done. *)
Definition stm (S E A : Type) : Type := S → outcome E A * S.
#[export] Instance stm_ret S E : MRet (stm S E) := λ A a s, (Ok a, s).
#[export] Instance stm_bind S E : MBind (stm S E) := λ A B f m s,
  match m s with
  | (Ok a, s) => f a s
  | (Err e, s) => (Err e, s)
  | (Panic, s) => (Panic, s)
  end.

(** Reading the state, changing it, and running a computation that does not touch it. *)
Definition gets {S E A} (f : S → A) : stm S E A := λ s, (Ok (f s), s).
Definition modify {S E} (f : S → S) : stm S E unit := λ s, (Ok tt, f s).
Definition lift {S E A} (m : outcome E A) : stm S E A := λ s, (m, s).
Definition asks {S E A} (f : S → outcome E A) : stm S E A := λ s, (f s, s).

(** [for q in &mut v { f(q)?; }]: the loop stops at the first error. *)
Fixpoint for_each {S E} (f : stm S E unit) (l : list S) : outcome E unit * list S :=
  match l with
  | [] => (Ok tt, [])
  | s :: l =>
      match f s with
      | (Ok _, s) => let '(r, l) := for_each f l in (r, s :: l)
      | (Err e, s) => (Err e, s :: l)
      | (Panic, s) => (Panic, s :: l)
      end
  end.
(** [for q in &v { f(q)?; }] *)
Definition check_all {S E} (f : S → outcome E unit) (l : list S) : outcome E unit :=
  foldM (λ _ s, f s) tt l.

Section stm.
Context {S E : Type}.

Lemma stm_bind_eq {A B} (m : stm S E A) (f : A → stm S E B) s :
  (m ≫= f) s = match m s with
               | (Ok a, s) => f a s
               | (Err e, s) => (Err e, s)
               | (Panic, s) => (Panic, s)
               end.
Proof. done. Qed.

Lemma stm_ret_eq {A} (a : A) (s : S) : (mret a : stm S E A) s = (Ok a, s).
Proof. done. Qed.

Lemma check_all_cons (f : S → outcome E unit) s l :
  check_all f (s :: l) = (_ ← f s; check_all f l).
Proof. unfold check_all. cbn [foldM]. by destruct (f s) as [[]|e|]. Qed.

End stm.

(** Reduce a stateful computation on a known state. *)
Ltac stm_simpl :=
  repeat (rewrite ?stm_bind_eq, ?stm_ret_eq; cbn [gets asks lift modify fst snd]).

(** ** Filters *)

Lemma filter_none {A} (P : A → Prop) `{!∀ x, Decision (P x)} (l : list A) :
  Forall (λ x, ¬ P x) l → base.filter P l = [].
Proof. induction 1 as [|x l Hx _ IH]; [done|]. by rewrite filter_cons_False. Qed.

Lemma filter_all {A} (P : A → Prop) `{!∀ x, Decision (P x)} (l : list A) : Forall P l → base.filter P l = l.
Proof. induction 1 as [|x l Hx _ IH]; [done|]. rewrite filter_cons_True by done. by f_equal. Qed.

Lemma filter_agree {A} (P Q : A → Prop) `{!∀ x, Decision (P x), !∀ x, Decision (Q x)} (l : list A) :
  (∀ x, x ∈ l → P x ↔ Q x) → base.filter P l = base.filter Q l.
Proof.
  induction l as [|x l IH]; intros Hpq; [done|]. rewrite !filter_cons, IH by (intros; apply Hpq; by right).
  pose proof (Hpq x ltac:(left)). destruct (decide (P x)), (decide (Q x)); tauto || done.
Qed.

Lemma concat_snoc {A} (l : list (list A)) x : concat (l ++ [x]) = concat l ++ x.
Proof. by rewrite concat_app; cbn; rewrite app_nil_r. Qed.

(** ** Vectors

    [v[i]] panics out of range. *)
Definition vec_get {E A} (v : list A) (i : Z) : outcome E A :=
  if 0 <=? i then expect (v !! Z.to_nat i) else Panic.
Definition vec_set {E A} (v : list A) (i : Z) (x : A) : outcome E (list A) :=
  if (0 <=? i) && (i <? Z.of_nat (length v)) then Ok (<[Z.to_nat i := x]> v)
  else Panic.
Definition zlen {A} (v : list A) : Z := Z.of_nat (length v).

Lemma zlen_nonneg {A} (v : list A) : 0 <= zlen v.
Proof. unfold zlen. lia. Qed.
Lemma zlen_app {A} (v w : list A) : zlen (v ++ w) = zlen v + zlen w.
Proof. unfold zlen. rewrite length_app. lia. Qed.
Lemma zlen_cons {A} (x : A) v : zlen (x :: v) = 1 + zlen v.
Proof. unfold zlen. simpl. lia. Qed.
Lemma zlen_nil {A} : zlen (@nil A) = 0.
Proof. done. Qed.

Lemma take_zlen_app {A} (v w : list A) : take (Z.to_nat (zlen v)) (v ++ w) = v.
Proof. unfold zlen. by rewrite Nat2Z.id, take_app_length. Qed.
Lemma drop_zlen_app {A} (v w : list A) : drop (Z.to_nat (zlen v)) (v ++ w) = w.
Proof. unfold zlen. by rewrite Nat2Z.id, drop_app_length. Qed.

Lemma vec_get_ok {E A} (v : list A) i :
  0 <= i < zlen v → ∃ x, vec_get (E := E) v i = Ok x ∧ v !! Z.to_nat i = Some x.
Proof.
  unfold vec_get, zlen. intros Hi. rewrite (proj2 (Z.leb_le _ _)) by lia.
  destruct (lookup_lt_is_Some_2 v (Z.to_nat i)) as [x Hx]; [lia|].
  exists x. by rewrite Hx.
Qed.

Lemma vec_get_Some {E A} (v : list A) i x :
  0 <= i → v !! Z.to_nat i = Some x → vec_get (E := E) v i = Ok x.
Proof.
  unfold vec_get. intros Hi Hx. rewrite (proj2 (Z.leb_le _ _)) by lia.
  by rewrite Hx.
Qed.

Lemma vec_get_inv {E A} (v : list A) i x :
  vec_get (E := E) v i = Ok x → 0 <= i ∧ v !! Z.to_nat i = Some x.
Proof.
  unfold vec_get. destruct (Z.leb_spec 0 i); [|done].
  destruct (v !! Z.to_nat i); simpl; naive_solver.
Qed.

Lemma vec_set_ok {E A} (v : list A) i x :
  0 <= i < zlen v → vec_set (E := E) v i x = Ok (<[Z.to_nat i := x]> v).
Proof.
  unfold vec_set, zlen. intros Hi.
  rewrite (proj2 (Z.leb_le _ _)), (proj2 (Z.ltb_lt _ _)) by lia. done.
Qed.

Lemma vec_set_inv {E A} (v w : list A) i x :
  vec_set (E := E) v i x = Ok w →
  0 <= i < zlen v ∧ w = <[Z.to_nat i := x]> v.
Proof.
  unfold vec_set, zlen.
  destruct (Z.leb_spec 0 i), (Z.ltb_spec i (Z.of_nat (length v))); simpl; naive_solver.
Qed.

(** ** Sketch histories

    Sketches are fed by updates on many nodes, then merged.  [built init upd mrg
    s l] says that [s] results from some such history whose updates, in merge
    order, are [l]; properties of sketches are proved by induction on it. *)
Inductive built {S U : Type} (init : S → Prop) (upd : S → U → S → Prop)
    (mrg : S → S → S → Prop) : S → list U → Prop :=
  | built_init s : init s → built init upd mrg s []
  | built_upd s l u s' :
      built init upd mrg s l → upd s u s' → built init upd mrg s' (l ++ [u])
  | built_mrg s l t m s' :
      built init upd mrg s l → built init upd mrg t m → mrg s t s' →
      built init upd mrg s' (l ++ m).

(** A history of a state is a history of each of its parts. *)
Lemma built_project {S T U V : Type} (part : S → option T) (f : U → V)
    {init : S → Prop} {upd : S → U → S → Prop} {mrg : S → S → S → Prop}
    {init' : T → Prop} {upd' : T → V → T → Prop} {mrg' : T → T → T → Prop} :
  (∀ s, init s → ∃ t, part s = Some t ∧ init' t) →
  (∀ s t u s', part s = Some t → upd s u s' → ∃ t', part s' = Some t' ∧ upd' t (f u) t') →
  (∀ s1 t1 s2 t2 s', part s1 = Some t1 → part s2 = Some t2 → mrg s1 s2 s' →
     ∃ t', part s' = Some t' ∧ mrg' t1 t2 t') →
  ∀ s l, built init upd mrg s l → ∃ t, part s = Some t ∧ built init' upd' mrg' t (f <$> l).
Proof.
  intros Hi Hu Hm s l.
  induction 1 as [s Hs|s l u s' _ (t & Ht & Hb) Hs|s l t m s' _ (s1 & Hs1 & Hb) _ (t1 & Ht1 & Hb1) Hs].
  - destruct (Hi s Hs) as (t & Ht & Hb). exists t. split; [done|]. by constructor.
  - destruct (Hu s t u s' Ht Hs) as (t' & Ht' & Hs'). exists t'. split; [done|].
    rewrite fmap_app. by eapply built_upd.
  - destruct (Hm _ _ _ _ _ Hs1 Ht1 Hs) as (t' & Ht' & Hs'). exists t'. split; [done|].
    rewrite fmap_app. by eapply built_mrg.
Qed.

(** ** Weighted streams *)

(** A stream of [(key, weight)] updates: its total weight and one key's weight. *)
Definition total_of {K} (l : list (K * Z)) : Z := foldr (λ p acc, p.2 + acc) 0 l.
Definition weight_of `{EqDecision K} (k : K) (l : list (K * Z)) : Z :=
  foldr (λ p acc, (if decide (p.1 = k) then p.2 else 0) + acc) 0 l.
Definition weights_ok {K} (l : list (K * Z)) : Prop := Forall (λ p, u64_ok p.2) l.

Section streams.
Context `{EqDecision K}.
Implicit Types (l m : list (K * Z)) (k : K).

Lemma total_of_app l m : total_of (l ++ m) = total_of l + total_of m.
Proof. induction l; simpl; lia. Qed.
Lemma weight_of_app k l m : weight_of k (l ++ m) = weight_of k l + weight_of k m.
Proof. induction l; simpl; lia. Qed.
Lemma weight_of_nonneg k l : weights_ok l → 0 <= weight_of k l.
Proof.
  induction 1 as [|p l Hp _ IH]; simpl; [done|]. case_decide; word_lia.
Qed.
Lemma total_of_nonneg l : weights_ok l → 0 <= total_of l.
Proof. induction 1 as [|p l Hp _ IH]; simpl; [done|]. word_lia. Qed.
Lemma weight_of_le_total k l : weights_ok l → weight_of k l <= total_of l.
Proof.
  induction 1 as [|p l Hp _ IH]; simpl; [done|]. case_decide; word_lia.
Qed.
Lemma weights_ok_app l m : weights_ok (l ++ m) ↔ weights_ok l ∧ weights_ok m.
Proof. apply Forall_app. Qed.
Lemma total_of_Permutation l m : l ≡ₚ m → total_of l = total_of m.
Proof. induction 1; simpl; lia. Qed.
Lemma weight_of_Permutation k l m : l ≡ₚ m → weight_of k l = weight_of k m.
Proof. induction 1; simpl; lia. Qed.
End streams.
