(* ===== verification/Bytes.v ===== *)
(** * Byte strings, little-endian integers and comparison functions

    A byte is a [Z] in [[0, 256)], a [Vec<u8>] or [&[u8]] a [list Z].  Rust
    [String]s are [string]s whose characters are their UTF-8 bytes.  The file
    also holds the comparison functions behind [Ord::cmp], [then_with] and
    [sort_by], with the facts the sorted outputs of the sketches rely on. *)
From S2P Require Import Prelude.

Abbreviation bytes := (list Z).

Definition bytes_ok (l : list Z) : Prop := Forall u8_ok l.

#[export] Instance u8_ok_dec x : Decision (u8_ok x).
Proof. unfold u8_ok. apply _. Defined.
#[export] Instance u64_ok_dec x : Decision (u64_ok x).
Proof. unfold u64_ok. apply _. Defined.
#[export] Instance bytes_ok_dec l : Decision (bytes_ok l).
Proof. unfold bytes_ok. apply _. Defined.

(** ** [to_le_bytes] and [from_le_bytes] *)

Fixpoint le_bytes (n : nat) (v : Z) : list Z :=
  match n with
  | O => []
  | S n => v mod 256 :: le_bytes n (v / 256)
  end.

Fixpoint le_val (l : list Z) : Z :=
  match l with
  | [] => 0
  | b :: l => b + 256 * le_val l
  end.

(** [to_be_bytes], [from_be_bytes]. *)
Definition be_bytes (n : nat) (v : Z) : list Z := reverse (le_bytes n v).
Definition be_val (l : list Z) : Z := le_val (reverse l).

Lemma length_le_bytes n v : length (le_bytes n v) = n.
Proof. revert v. induction n; simpl; auto. Qed.

Lemma le_bytes_ok n v : bytes_ok (le_bytes n v).
Proof.
  revert v. induction n; intros v; simpl; constructor; [|apply IHn].
  apply Z.mod_pos_bound. lia.
Qed.

Lemma pow256_S n : 256 ^ Z.of_nat (S n) = 256 * 256 ^ Z.of_nat n.
Proof. rewrite Nat2Z.inj_succ, Z.pow_succ_r; lia. Qed.

Lemma le_val_le_bytes n v : le_val (le_bytes n v) = v mod 256 ^ Z.of_nat n.
Proof.
  revert v. induction n as [|n IH]; intros v.
  - simpl. by rewrite Z.mod_1_r.
  - cbn [le_bytes le_val]. rewrite IH, pow256_S.
    rewrite Z.rem_mul_r by lia. lia.
Qed.

Lemma le_val_le_bytes_id n v :
  0 <= v < 256 ^ Z.of_nat n → le_val (le_bytes n v) = v.
Proof. intros H. by rewrite le_val_le_bytes, Z.mod_small. Qed.

Lemma le_val_range l : bytes_ok l → 0 <= le_val l < 256 ^ zlen l.
Proof.
  induction 1 as [|b l Hb _ IH]; [done|].
  unfold zlen in *. cbn [length]. rewrite pow256_S. cbn [le_val]. word_lia.
Qed.

Lemma le_bytes_le_val l n : bytes_ok l → length l = n → le_bytes n (le_val l) = l.
Proof.
  intros Hl. revert n. induction Hl as [|b l Hb Hl IH]; intros n <-; [done|].
  cbn [length le_bytes le_val]. unfold u8_ok in Hb.
  rewrite (Z.mul_comm 256), Z.mod_add, Z.div_add by lia.
  rewrite Z.mod_small, Z.div_small by lia. f_equal. by apply IH.
Qed.

Lemma be_val_be_bytes n v :
  0 <= v < 256 ^ Z.of_nat n → be_val (be_bytes n v) = v.
Proof.
  intros H. unfold be_val, be_bytes. rewrite reverse_involutive.
  by apply le_val_le_bytes_id.
Qed.

(** ** Strings *)

Definition bytes_of_string (s : string) : list Z :=
  (λ c, Z.of_N (Ascii.N_of_ascii c)) <$> String.list_ascii_of_string s.
Definition string_of_bytes (l : list Z) : string :=
  String.string_of_list_ascii ((λ b, Ascii.ascii_of_N (Z.to_N b)) <$> l).

Lemma string_of_bytes_of_string s : string_of_bytes (bytes_of_string s) = s.
Proof.
  unfold string_of_bytes, bytes_of_string. rewrite <- list_fmap_compose.
  rewrite <- (String.string_of_list_ascii_of_string s) at 2. f_equal.
  rewrite <- (list_fmap_id (String.list_ascii_of_string s)) at 2.
  apply list_fmap_ext. intros i c _. simpl.
  by rewrite N2Z.id, Ascii.ascii_N_embedding.
Qed.

Lemma bytes_of_string_ok s : bytes_ok (bytes_of_string s).
Proof.
  unfold bytes_of_string, bytes_ok. apply Forall_fmap, Forall_forall.
  intros c _. unfold u8_ok. simpl.
  pose proof (Ascii.N_ascii_bounded c). lia.
Qed.

Lemma bytes_of_string_of_bytes l :
  bytes_ok l → bytes_of_string (string_of_bytes l) = l.
Proof.
  intros Hl. unfold string_of_bytes, bytes_of_string.
  rewrite String.list_ascii_of_string_of_list_ascii, <- list_fmap_compose.
  induction Hl as [|b l Hb _ IH]; [done|]. simpl. f_equal; [|done].
  unfold u8_ok in Hb. rewrite Ascii.N_ascii_embedding by lia. lia.
Qed.

Lemma bytes_of_string_inj s t : bytes_of_string s = bytes_of_string t → s = t.
Proof.
  intros H. rewrite <- (string_of_bytes_of_string s), H.
  apply string_of_bytes_of_string.
Qed.

(** ** Comparison functions *)

(** What [Ord::cmp] promises: a total preorder. *)
Class CmpOrd {A} (c : A → A → comparison) : Prop := {
  cmp_opp : ∀ x y, c y x = CompOpp (c x y);
  cmp_le_trans : ∀ x y z, c x y ≠ Gt → c y z ≠ Gt → c x z ≠ Gt;
}.

Arguments cmp_opp {_} _ {_} _ _.
Arguments cmp_le_trans {_} _ {_} _ _ _ _ _.

(** [a.cmp(b).then_with(|| ...)] *)
Definition then_with (r s : comparison) : comparison :=
  match r with Eq => s | _ => r end.

(** [x.cmp(y)] on vectors of integers: lexicographic. *)
Fixpoint bytes_cmp (a b : list Z) : comparison :=
  match a, b with
  | [], [] => Eq
  | [], _ :: _ => Lt
  | _ :: _, [] => Gt
  | x :: a, y :: b => then_with (x ?= y) (bytes_cmp a b)
  end.

Section cmp.
Context {A : Type} (c : A → A → comparison) `{!CmpOrd c}.

Lemma cmp_refl x : c x x = Eq.
Proof using All. pose proof (cmp_opp c x x) as H. by destruct (c x x). Qed.

Lemma cmp_eq_sym x y : c x y = Eq → c y x = Eq.
Proof using All. intros H. by rewrite cmp_opp, H. Qed.

Lemma cmp_total x y : c x y ≠ Gt ∨ c y x ≠ Gt.
Proof using All. rewrite (cmp_opp c x y). destruct (c x y); simpl; auto. Qed.

Lemma cmp_eq_trans x y z : c x y = Eq → c y z = Eq → c x z = Eq.
Proof using All.
  intros H1 H2. pose proof (cmp_le_trans c x y z) as L1.
  pose proof (cmp_le_trans c z y x) as L2.
  rewrite (cmp_opp c y z), (cmp_opp c x y), (cmp_opp c x z), H1, H2 in L2.
  rewrite H1, H2 in L1. simpl in L2.
  destruct (c x z); [done|..]; exfalso; [by apply L2|by apply L1].
Qed.

Lemma cmp_lt_le_trans x y z : c x y = Lt → c y z ≠ Gt → c x z = Lt.
Proof using All.
  intros H1 H2. destruct (c x z) eqn:Hz; [|done|].
  - exfalso. pose proof (cmp_le_trans c y z x H2) as L.
    rewrite (cmp_opp c x z), Hz, (cmp_opp c x y), H1 in L. by apply L.
  - exfalso. apply (cmp_le_trans c x y z); [by rewrite H1|done|done].
Qed.

Lemma cmp_le_lt_trans x y z : c x y ≠ Gt → c y z = Lt → c x z = Lt.
Proof using All.
  intros H1 H2. destruct (c x z) eqn:Hz; [|done|].
  - exfalso. pose proof (cmp_le_trans c z x y) as L.
    rewrite (cmp_opp c x z), Hz, (cmp_opp c y z), H2 in L. by apply L.
  - exfalso. apply (cmp_le_trans c x y z); [done|by rewrite H2|done].
Qed.
End cmp.

#[export] Instance Zcmp_ord : CmpOrd Z.compare.
Proof.
  split.
  - intros x y. apply Z.compare_antisym.
  - intros x y z. rewrite !Z.compare_le_iff. lia.
Qed.

(** Sorting on a key, in ascending or descending order. *)
#[export] Instance cmp_on {A B} (f : A → B) c `{!CmpOrd c} :
  CmpOrd (λ x y, c (f x) (f y)).
Proof. split; intros; [by apply (cmp_opp c)|by eapply (cmp_le_trans c)]. Qed.

Lemma cmp_flip {A} (c : A → A → comparison) :
  CmpOrd c → CmpOrd (λ x y, c y x).
Proof. intros H. split; intros; [by apply (cmp_opp c)|by eapply (cmp_le_trans c)]. Qed.

#[export] Instance cmp_then {A} (c1 c2 : A → A → comparison) :
  CmpOrd c1 → CmpOrd c2 → CmpOrd (λ x y, then_with (c1 x y) (c2 x y)).
Proof.
  intros H1 H2. split.
  - intros x y. rewrite (cmp_opp c1 x y), (cmp_opp c2 x y).
    by destruct (c1 x y), (c2 x y).
  - intros x y z Hxy Hyz.
    destruct (c1 x y) eqn:E1, (c1 y z) eqn:E2; simpl in *; try done.
    + rewrite (cmp_eq_trans c1 x y z) by done. simpl. by eapply (cmp_le_trans c2).
    + rewrite (cmp_le_lt_trans c1 x y z) by (done || by rewrite E1). done.
    + rewrite (cmp_lt_le_trans c1 x y z) by (done || by rewrite E2). done.
    + rewrite (cmp_lt_le_trans c1 x y z) by (done || by rewrite E2). done.
Qed.

#[export] Instance bytes_cmp_ord : CmpOrd bytes_cmp.
Proof.
  split.
  - induction x as [|x a IH]; intros [|y b]; simpl; try done.
    rewrite IH, (Z.compare_antisym x y). by destruct (x ?= y), (bytes_cmp a b).
  - intros a b. revert a. induction b as [|y b IH]; intros [|x a] [|z d]; simpl; try done.
    specialize (IH a d). intros H1 H2.
    destruct (Z.compare_spec x y), (Z.compare_spec y z); simpl in *; try done; subst.
    + by rewrite Z.compare_refl; simpl; apply IH.
    + by rewrite (proj2 (Z.compare_lt_iff _ _)).
    + by rewrite (proj2 (Z.compare_lt_iff _ _)).
    + rewrite (proj2 (Z.compare_lt_iff _ _)) by lia. done.
Qed.

Lemma bytes_cmp_eq a b : bytes_cmp a b = Eq → a = b.
Proof.
  revert b. induction a as [|x a IH]; intros [|y b]; simpl; try done.
  destruct (Z.compare_spec x y); simpl; try done. intros. f_equal; auto.
Qed.

(** ** [sort_by] and [sort_unstable]

    stdpp's merge sort on the comparison; the orders the code sorts with are
    total on the elements it sorts, so stability never shows. *)
Definition cmp_le {A} (c : A → A → comparison) (x y : A) : Prop := c x y ≠ Gt.
#[export] Instance cmp_le_dec {A} (c : A → A → comparison) x y :
  Decision (cmp_le c x y).
Proof. unfold cmp_le. apply _. Defined.

Definition sort_by {A} (c : A → A → comparison) (l : list A) : list A :=
  merge_sort (cmp_le c) l.
Definition sort_unstable (l : list Z) : list Z := sort_by Z.compare l.

Section sort.
Context {A : Type} (c : A → A → comparison) `{!CmpOrd c}.

#[export] Instance cmp_le_total : Total (cmp_le c).
Proof using All. intros x y. by apply cmp_total. Qed.
#[export] Instance cmp_le_transitive : Transitive (cmp_le c).
Proof using All. intros x y z. apply (cmp_le_trans c). Qed.

Lemma sort_by_Permutation l : sort_by c l ≡ₚ l.
Proof. apply merge_sort_Permutation. Qed.

Lemma sort_by_sorted l : StronglySorted (cmp_le c) (sort_by c l).
Proof using All. apply StronglySorted_merge_sort; apply _. Qed.

Lemma length_sort_by l : length (sort_by c l) = length l.
Proof. by rewrite sort_by_Permutation. Qed.

Lemma elem_of_sort_by l x : x ∈ sort_by c l ↔ x ∈ l.
Proof. by rewrite sort_by_Permutation. Qed.
End sort.

Lemma length_sort_unstable l : length (sort_unstable l) = length l.
Proof. apply length_sort_by. Qed.

#[global] Arguments le_bytes : simpl never.
#[global] Arguments le_val : simpl never.
#[global] Arguments be_bytes : simpl never.
#[global] Arguments be_val : simpl never.

(** ** Order statistics *)

Section order_statistics.
Implicit Types l : list Z.

Lemma sort_unstable_lookup_le l i j x y :
  (i <= j)%nat → sort_unstable l !! i = Some x → sort_unstable l !! j = Some y → x <= y.
Proof.
  intros Hij Hx Hy. destruct (decide (i = j)) as [->|]; [naive_solver lia|].
  pose proof (sort_by_sorted Z.compare l) as Hs. fold (sort_unstable l) in Hs.
  rewrite <- (take_drop j (sort_unstable l)) in Hs.
  apply (StronglySorted_app_1_elem_of _ _ _ x y) in Hs.
  - unfold cmp_le in Hs. by apply Z.compare_le_iff.
  - apply list_elem_of_lookup. exists i. rewrite lookup_take_lt by lia. done.
  - apply list_elem_of_lookup. exists 0%nat. rewrite lookup_drop, Nat.add_0_r. done.
Qed.

(** How many elements satisfy a predicate. *)
Definition count_if (P : Z → Prop) `{!∀ x, Decision (P x)} l : nat :=
  length (filter P l).

Context (P : Z → Prop) {HP : ∀ x, Decision (P x)}.

Lemma count_if_app l1 l2 : count_if P (l1 ++ l2) = (count_if P l1 + count_if P l2)%nat.
Proof. unfold count_if. by rewrite filter_app, length_app. Qed.
Lemma count_if_le l : (count_if P l <= length l)%nat.
Proof. apply length_filter. Qed.
Lemma count_if_compl l :
  (count_if P l + count_if (λ x, ¬ P x) l)%nat = length l.
Proof.
  unfold count_if. induction l as [|x l IH]; [done|].
  rewrite !filter_cons. do 2 case_decide; try tauto; cbn [length]; lia.
Qed.
Lemma count_if_pos l x : x ∈ l → P x → (0 < count_if P l)%nat.
Proof.
  intros Hx Hp. unfold count_if. assert (x ∈ filter P l) as Hf by by apply list_elem_of_filter.
  destruct (filter P l); [by apply elem_of_nil in Hf|cbn; lia].
Qed.
Lemma count_if_none l : (∀ x, x ∈ l → ¬ P x) → count_if P l = 0%nat.
Proof.
  intros H. unfold count_if. destruct (filter P l) as [|x l'] eqn:E; [done|].
  assert (x ∈ filter P l) as Hx by (rewrite E; by left).
  apply list_elem_of_filter in Hx as [? ?]. exfalso. by apply (H x).
Qed.
Lemma count_if_sort l : count_if P (sort_unstable l) = count_if P l.
Proof. unfold count_if. by rewrite (sort_by_Permutation Z.compare l). Qed.

(** If no element up to (from) index [i] of the sorted list counts, the rest
    bounds the count. *)
Lemma count_if_below l i :
  (∀ j x, (j <= i)%nat → sort_unstable l !! j = Some x → ¬ P x) →
  (i < length l)%nat → (count_if P l + i < length l)%nat.
Proof.
  intros H Hi. rewrite <- (count_if_sort l), <- (take_drop (S i) (sort_unstable l)).
  rewrite count_if_app, (count_if_none (take _ _)).
  - pose proof (count_if_le (drop (S i) (sort_unstable l))) as Hc.
    rewrite length_drop in Hc. rewrite (length_sort_unstable l) in Hc. lia.
  - intros x [j Hx]%list_elem_of_lookup.
    assert (j < S i)%nat by (apply lookup_lt_Some in Hx; rewrite length_take in Hx; lia).
    rewrite lookup_take_lt in Hx by done. apply (H j); [lia|done].
Qed.
Lemma count_if_above l i :
  (∀ j x, (i <= j)%nat → sort_unstable l !! j = Some x → ¬ P x) →
  (count_if P l <= i)%nat.
Proof.
  intros H. rewrite <- (count_if_sort l), <- (take_drop i (sort_unstable l)).
  rewrite count_if_app, (count_if_none (drop _ _)).
  - pose proof (count_if_le (take i (sort_unstable l))) as Hc.
    rewrite length_take in Hc. lia.
  - intros x [j Hx]%list_elem_of_lookup. rewrite lookup_drop in Hx.
    apply (H (i + j)%nat); [lia|done].
Qed.
End order_statistics.

(** A middle element of a list most of which lies in [[a, b]] lies there too. *)
Lemma middle_in_interval (l : list Z) (a b : Z) (i : nat) (x : Z) :
  sort_unstable l !! i = Some x →
  (length l < 2 * count_if (λ y, (a <= y <= b)%Z) l)%nat →
  (length l <= 2 * i + 2)%nat → (2 * i <= length l)%nat → a <= x <= b.
Proof.
  intros Hx Hc Hlo Hhi. set (P := λ y, (a <= y <= b)%Z) in *.
  assert (i < length l)%nat as Hi.
  { apply lookup_lt_Some in Hx. by rewrite length_sort_unstable in Hx. }
  destruct (decide (a <= x)) as [Ha|Ha]; [destruct (decide (x <= b)) as [Hb|Hb]; [done|]|].
  - exfalso. assert (count_if P l <= i)%nat; [|lia].
    apply count_if_above. intros j y Hj Hy. unfold P.
    pose proof (sort_unstable_lookup_le l i j x y Hj Hx Hy). lia.
  - exfalso. assert (count_if P l + i < length l)%nat; [|lia].
    apply count_if_below; [|done]. intros j y Hj Hy. unfold P.
    pose proof (sort_unstable_lookup_le l j i y x Hj Hy Hx). lia.
Qed.
