(* ===== verification/Utf8.v ===== *)
(** * Text  (the Rust standard library)

    A Rust [String] is valid UTF-8.  What the crates use of [str] beyond its
    bytes is written out here: the characters of a string, [String::from_utf8],
    [str::trim] and [str::parse::<u64>]. *)
From S2P Require Import Prelude Bytes.

(** ** UTF-8 *)

Definition continuation (b : Z) : bool := (128 <=? b) && (b <=? 191).
Definition in_range (lo hi x : Z) : bool := (lo <=? x) && (x <=? hi).

(** The scalar values a byte string encodes: the well-formed byte sequences of
    the Unicode standard, which are the ones [String::from_utf8] accepts. *)
Fixpoint utf8_chars (l : list Z) : option (list Z) :=
  match l with
  | [] => Some []
  | a :: l1 =>
      if a <? 128 then cons a <$> utf8_chars l1
      else match l1 with
      | [] => None
      | b :: l2 =>
          if in_range 194 223 a && continuation b
          then cons ((a - 192) * 64 + (b - 128)) <$> utf8_chars l2
          else match l2 with
          | [] => None
          | c :: l3 =>
              if (in_range 224 239 a && continuation b && continuation c) &&
                 implb (a =? 224) (160 <=? b) && implb (a =? 237) (b <=? 159)
              then cons ((a - 224) * 4096 + (b - 128) * 64 + (c - 128)) <$> utf8_chars l3
              else match l3 with
              | [] => None
              | d :: l4 =>
                  if (in_range 240 244 a && continuation b && continuation c && continuation d) &&
                     implb (a =? 240) (144 <=? b) && implb (a =? 244) (b <=? 143)
                  then cons ((a - 240) * 262144 + (b - 128) * 4096 + (c - 128) * 64 + (d - 128))
                         <$> utf8_chars l4
                  else None
              end
          end
      end
  end.

(** [char::is_whitespace]: the characters [str::trim] removes. *)
Definition is_whitespace (c : Z) : bool :=
  in_range 9 13 c || (c =? 32) || (c =? 133) || (c =? 160) || (c =? 5760) ||
  in_range 8192 8202 c || (c =? 8232) || (c =? 8233) || (c =? 8239) || (c =? 8287) || (c =? 12288).

(** [value.trim().is_empty()] *)
Definition is_blank (chars : list Z) : bool := forallb is_whitespace chars.

(** [s.chars()]; the bytes themselves where they are not UTF-8, which a [str]
    never holds. *)
Definition str_chars (s : string) : list Z :=
  let b := bytes_of_string s in default b (utf8_chars b).

(** [char::encode_utf8] *)
Definition encode_char (c : Z) : bytes :=
  if c <? 128 then [c]
  else if c <? 2048 then [192 + c / 64; 128 + c mod 64]
  else if c <? 65536 then [224 + c / 4096; 128 + c / 64 mod 64; 128 + c mod 64]
  else [240 + c / 262144; 128 + c / 4096 mod 64; 128 + c / 64 mod 64; 128 + c mod 64].
Definition of_chars (cs : list Z) : string := string_of_bytes (concat (encode_char <$> cs)).

(** [str::trim], on characters *)
Fixpoint trim_start (cs : list Z) : list Z :=
  match cs with
  | c :: rest => if is_whitespace c then trim_start rest else cs
  | [] => []
  end.
Definition trim_end (cs : list Z) : list Z := reverse (trim_start (reverse cs)).
Definition trim (cs : list Z) : list Z := trim_end (trim_start cs).

(** ** Numbers *)

Definition is_ascii_digit (c : Z) : bool := in_range 48 57 c.

(** The characters before the first that is not a digit, and the rest. *)
Fixpoint split_digits (cs : list Z) : list Z * list Z :=
  match cs with
  | c :: rest => if is_ascii_digit c then let '(d, r) := split_digits rest in (c :: d, r) else ([], cs)
  | [] => ([], [])
  end.

(** [str::parse::<u64>] of digits: at least one, no overflow. *)
Definition u64_digit (acc : option Z) (c : Z) : option Z :=
  n ← acc;
  if is_ascii_digit c
  then let n := n * 10 + (c - 48) in if n <? u64_mod then Some n else None
  else None.
Definition parse_u64 (digits : list Z) : option Z :=
  match digits with [] => None | _ => foldl u64_digit (Some 0) digits end.

(** The number that digits write. *)
Definition digits_val (digits : list Z) : Z := foldl (λ n c, n * 10 + (c - 48)) 0 digits.

(** ** Encoding inverts decoding *)

Lemma in_range_iff lo hi x : in_range lo hi x = true ↔ lo <= x <= hi.
Proof. unfold in_range. rewrite andb_true_iff, !Z.leb_le. done. Qed.
Lemma continuation_iff b : continuation b = true ↔ 128 <= b <= 191.
Proof. apply (in_range_iff 128 191). Qed.

Ltac div_lia := Z.to_euclidean_division_equations; lia.

(** A string is the concatenation of the encodings of its characters. *)
Lemma encode_utf8_chars b cs :
  bytes_ok b → utf8_chars b = Some cs → concat (encode_char <$> cs) = b.
Proof.
  remember (length b) as n eqn:Hn. revert b cs Hn.
  induction n as [n IH] using lt_wf_ind. intros b cs -> Hb H.
  assert (∀ b' pre c cs' , length b' < length b → bytes_ok b' → b = pre ++ b' →
    encode_char c = pre → utf8_chars b' = Some cs' → concat (encode_char <$> c :: cs') = b)%nat as Hstep.
  { intros b' pre c cs' Hlt Hb' Hp He Hc. cbn [fmap list_fmap concat]. rewrite He.
    fold (encode_char <$> cs'). by rewrite (IH (length b') Hlt b' cs' eq_refl Hb' Hc). }
  destruct b as [|a b1]; [by injection H as <-|]. apply Forall_cons in Hb as [Ha Hb1]. cbn [utf8_chars] in H.
  unfold u8_ok in Ha.
  destruct (Z.ltb_spec a 128).
  { destruct (utf8_chars b1) eqn:E; [|done]. injection H as <-. apply (Hstep b1 [a] a); try done; [cbn; lia|].
    unfold encode_char. by rewrite (proj2 (Z.ltb_lt _ _)) by lia. }
  destruct b1 as [|b b2]; [done|]. apply Forall_cons in Hb1 as [Hb Hb2].
  destruct (in_range 194 223 a && continuation b) eqn:E2.
  { apply andb_true_iff in E2 as [?%in_range_iff ?%continuation_iff].
    destruct (utf8_chars b2) eqn:E; [|done]. injection H as <-. apply (Hstep b2 [a; b]); try done; [cbn; lia|].
    unfold encode_char. rewrite (proj2 (Z.ltb_ge _ _)), (proj2 (Z.ltb_lt _ _)) by lia. repeat f_equal; div_lia. }
  clear E2. destruct b2 as [|c b3]; [done|]. apply Forall_cons in Hb2 as [Hc Hb3].
  destruct (in_range 224 239 a && continuation b && continuation c && implb (a =? 224) (160 <=? b) && implb (a =? 237) (b <=? 159)) eqn:E3.
  { rewrite !andb_true_iff, !continuation_iff, in_range_iff in E3. destruct E3 as [[[[? ?] ?] H224] _].
    assert (a = 224 → 160 <= b) by (intros ->; by apply Z.leb_le).
    destruct (utf8_chars b3) eqn:E; [|done]. injection H as <-. apply (Hstep b3 [a; b; c]); try done; [cbn; lia|].
    unfold encode_char. rewrite !(proj2 (Z.ltb_ge _ _)), (proj2 (Z.ltb_lt _ _)) by lia. repeat f_equal; div_lia. }
  clear E3. destruct b3 as [|d b4]; [done|]. apply Forall_cons in Hb3 as [Hd Hb4].
  match type of H with (if ?x then _ else _) = _ => destruct x eqn:E4; [|done] end.
  rewrite !andb_true_iff, !continuation_iff, in_range_iff in E4. destruct E4 as [[[[[? ?] ?] ?] H240] _].
  assert (a = 240 → 144 <= b) by (intros ->; by apply Z.leb_le).
  destruct (utf8_chars b4) eqn:E; [|done]. injection H as <-. apply (Hstep b4 [a; b; c; d]); try done; [cbn; lia|].
  unfold encode_char. rewrite !(proj2 (Z.ltb_ge _ _)) by lia. repeat f_equal; div_lia.
Qed.

Lemma of_str_chars s cs : utf8_chars (bytes_of_string s) = Some cs → of_chars cs = s.
Proof.
  intros H. unfold of_chars. rewrite (encode_utf8_chars _ _ (bytes_of_string_ok s) H).
  apply string_of_bytes_of_string.
Qed.

(** ASCII text is its own character list. *)
Lemma utf8_ascii b : Forall (λ x, 0 <= x < 128) b → utf8_chars b = Some b.
Proof.
  induction 1 as [|a b Ha _ IH]; [done|]. cbn [utf8_chars].
  rewrite (proj2 (Z.ltb_lt _ _)) by lia. by rewrite IH.
Qed.

(** ** Trimming *)

Definition blank (cs : list Z) : Prop := Forall (λ c, is_whitespace c = true) cs.
(** No whitespace at either end. *)
Definition trimmed (cs : list Z) : Prop :=
  (∀ c, head cs = Some c → is_whitespace c = false) ∧
  (∀ c, last cs = Some c → is_whitespace c = false).

Lemma is_blank_iff cs : is_blank cs = true ↔ blank cs.
Proof. unfold is_blank, blank. rewrite forallb_forall, Forall_forall. by setoid_rewrite list_elem_of_In. Qed.

Lemma blank_reverse cs : blank (reverse cs) ↔ blank cs.
Proof. unfold blank. by rewrite reverse_Permutation. Qed.

Lemma trim_start_spec cs :
  ∃ pre, cs = pre ++ trim_start cs ∧ blank pre ∧
    ∀ c, head (trim_start cs) = Some c → is_whitespace c = false.
Proof.
  induction cs as [|c cs (pre & Hp & Hb & Hh)]; [exists []; split; [done|]; split; [constructor|done]|]. cbn [trim_start].
  destruct (is_whitespace c) eqn:E.
  - exists (c :: pre). split; [by rewrite Hp at 1|]. split; [by constructor|done].
  - exists []. split; [done|]. split; [by constructor|]. intros d [= <-]. done.
Qed.

Lemma trim_start_app pre cs :
  blank pre → (∀ c, head cs = Some c → is_whitespace c = false) → trim_start (pre ++ cs) = cs.
Proof.
  intros Hp Hh. induction Hp as [|c pre Hc _ IH]; cbn [app trim_start]; [|by rewrite Hc].
  destruct cs as [|c cs]; [done|]. cbn [trim_start]. by rewrite (Hh c).
Qed.

Lemma trim_app pre cs post :
  blank pre → blank post → trimmed cs → cs ≠ [] → trim (pre ++ cs ++ post) = cs.
Proof.
  intros Hp Hq [Hh Hl] Hne. unfold trim, trim_end. rewrite trim_start_app; [|done|].
  - rewrite reverse_app, trim_start_app; [apply reverse_involutive|by apply blank_reverse|].
    intros c. rewrite head_reverse. apply Hl.
  - intros c. destruct cs; [done|]. apply Hh.
Qed.

Lemma str_trim_spec cs :
  ∃ pre post, cs = pre ++ trim cs ++ post ∧ blank pre ∧ blank post ∧ trimmed (trim cs).
Proof.
  destruct (trim_start_spec cs) as (pre & Hp & Hb & Hh).
  destruct (trim_start_spec (reverse (trim_start cs))) as (post & Hp' & Hb' & Hh').
  exists pre, (reverse post). unfold trim, trim_end.
  assert (trim_start cs = reverse (trim_start (reverse (trim_start cs))) ++ reverse post) as Hsplit.
  { rewrite <- reverse_app, <- Hp'. by rewrite reverse_involutive. }
  split; [by rewrite <- Hsplit|]. split; [done|]. split; [by apply blank_reverse|]. split.
  - intros c Hc. apply Hh. rewrite Hsplit.
    destruct (reverse (trim_start (reverse (trim_start cs)))); [discriminate Hc|exact Hc].
  - intros c Hc. apply Hh'. by rewrite <- head_reverse, reverse_involutive in Hc.
Qed.

(** ** Splitting a number from its unit *)

Definition digits (cs : list Z) : Prop := Forall (λ c, is_ascii_digit c = true) cs.

Lemma split_digits_spec cs :
  let '(d, r) := split_digits cs in
  cs = d ++ r ∧ digits d ∧ ∀ c, head r = Some c → is_ascii_digit c = false.
Proof.
  induction cs as [|c cs IH]; [by repeat split; try constructor|]. cbn [split_digits].
  destruct (is_ascii_digit c) eqn:E.
  - destruct (split_digits cs) as [d r]. destruct IH as (-> & Hd & Hr). split; [done|]. split; [by constructor|done].
  - split; [done|]. split; [by constructor|]. by intros d [= <-].
Qed.

Lemma split_digits_app d r :
  digits d → (∀ c, head r = Some c → is_ascii_digit c = false) → split_digits (d ++ r) = (d, r).
Proof.
  intros Hd Hr. induction Hd as [|c d Hc _ IH]; cbn [app split_digits].
  - destruct r as [|c r]; [done|]. cbn [split_digits]. by rewrite (Hr c).
  - by rewrite Hc, IH.
Qed.

Lemma digits_val_from n d : 0 <= n → digits d → n <= foldl (λ n c, n * 10 + (c - 48)) n d.
Proof.
  intros Hn Hd. revert n Hn. induction Hd as [|c d Hc _ IH]; intros n Hn; cbn [foldl]; [lia|].
  apply in_range_iff in Hc. etrans; [|apply IH]; lia.
Qed.

Lemma parse_u64_from n d : 0 <= n < u64_mod → digits d →
  foldl u64_digit (Some n) d =
    let v := foldl (λ n c, n * 10 + (c - 48)) n d in if v <? u64_mod then Some v else None.
Proof.
  intros Hn Hd. revert n Hn. induction Hd as [|c d Hc Hd IH]; intros n Hn; cbn [foldl].
  - by rewrite (proj2 (Z.ltb_lt _ _)) by lia.
  - change (u64_digit (Some n) c) with (if is_ascii_digit c then let n := n * 10 + (c - 48) in
      if n <? u64_mod then Some n else None else None). rewrite Hc. cbv zeta. apply in_range_iff in Hc.
    destruct (Z.ltb_spec (n * 10 + (c - 48)) u64_mod); [apply IH; lia|].
    pose proof (digits_val_from (n * 10 + (c - 48)) d ltac:(lia) Hd). rewrite (proj2 (Z.ltb_ge _ _)) by lia.
    clear. by induction d.
Qed.

(** Digits parse to the number they write, unless it does not fit. *)
Lemma parse_u64_spec d v : digits d → parse_u64 d = Some v ↔ d ≠ [] ∧ v = digits_val d ∧ v < u64_mod.
Proof.
  intros Hd. destruct d as [|c d]; [by split; [|intros []]|]. unfold parse_u64, digits_val.
  rewrite parse_u64_from by (done || lia). cbv zeta. case_match eqn:E; rewrite ?Z.ltb_lt, ?Z.ltb_ge in E; split.
  - by intros [= <-].
  - by intros (_ & -> & _).
  - done.
  - intros (_ & -> & ?). lia.
Qed.

Lemma digits_val_snoc d c : digits_val (d ++ [c]) = digits_val d * 10 + (c - 48).
Proof. unfold digits_val. by rewrite foldl_app. Qed.

Lemma digit_not_space c : is_ascii_digit c = true → is_whitespace c = false.
Proof.
  intros H%in_range_iff.
  assert (Forall (λ c, is_whitespace c = false) (seqZ 48 10)) as Hf by (apply (bool_decide_unpack _); vm_compute; exact I).
  rewrite Forall_forall in Hf. apply Hf, elem_of_seqZ. lia.
Qed.
