(* ===== verification/Maps.v ===== *)
(** * Sums over finite maps

    The hash maps of the code are [gmap]s; the summaries' error bounds and the
    gateway's memory accounting are statements about sums over their entries. *)
From S2P Require Import Prelude Bytes.

Definition lsum (l : list Z) : Z := foldr Z.add 0 l.

Lemma lsum_app l m : lsum (l ++ m) = lsum l + lsum m.
Proof. induction l; simpl; lia. Qed.
Lemma lsum_fmap_cons {A} (f : A → Z) x l :
  lsum (f <$> x :: l) = f x + lsum (f <$> l).
Proof. done. Qed.
Lemma lsum_Permutation l m : l ≡ₚ m → lsum l = lsum m.
Proof. induction 1; simpl; lia. Qed.
Lemma lsum_nonneg l : Forall (λ x, 0 <= x) l → 0 <= lsum l.
Proof. induction 1; simpl; lia. Qed.

Section msum.
Context `{Countable K} {A : Type}.
Implicit Types (m : gmap K A) (f g : K → A → Z).

Definition msum f m : Z := lsum ((λ p, f p.1 p.2) <$> map_to_list m).
Definition values m : list A := (map_to_list m).*2.

Lemma msum_empty f : msum f ∅ = 0.
Proof. unfold msum. by rewrite map_to_list_empty. Qed.

Lemma msum_insert_new f m k x :
  m !! k = None → msum f (<[k := x]> m) = f k x + msum f m.
Proof.
  intros Hk. unfold msum.
  rewrite (lsum_Permutation _ ((λ p, f p.1 p.2) <$> (k, x) :: map_to_list m)); [done|].
  by rewrite map_to_list_insert.
Qed.

Lemma msum_delete f m k x :
  m !! k = Some x → msum f m = f k x + msum f (delete k m).
Proof.
  intros Hk. rewrite <- (insert_delete_id m k x) at 1 by done.
  by rewrite msum_insert_new by apply lookup_delete_eq.
Qed.

Lemma msum_insert f m k x y :
  m !! k = Some x → msum f (<[k := y]> m) = msum f m - f k x + f k y.
Proof.
  intros Hk. rewrite (msum_delete f m k x Hk).
  rewrite <- (insert_delete_eq m k y), msum_insert_new by apply lookup_delete_eq. lia.
Qed.

Lemma msum_le f g m :
  (∀ k x, m !! k = Some x → f k x <= g k x) → msum f m <= msum g m.
Proof.
  induction m as [|k x m Hk IH] using map_ind; intros Hle; [by rewrite !msum_empty|].
  rewrite !msum_insert_new by done.
  pose proof (Hle k x (lookup_insert_eq _ _ _)) as Hkx.
  assert (msum f m <= msum g m); [|lia]. apply IH. intros k' x' Hk'.
  apply Hle. rewrite lookup_insert_ne; [done|congruence].
Qed.

Lemma msum_ext f g m :
  (∀ k x, m !! k = Some x → f k x = g k x) → msum f m = msum g m.
Proof.
  intros He. apply Z.le_antisymm; apply msum_le; intros k x Hk; by rewrite (He k x Hk).
Qed.

Lemma msum_nonneg f m : (∀ k x, m !! k = Some x → 0 <= f k x) → 0 <= msum f m.
Proof.
  intros Hle. rewrite <- (Z.add_0_l 0).
  replace (0 + 0) with (msum (λ _ _, 0) m); [by apply msum_le|].
  clear. induction m as [|k x m Hk IH] using map_ind; [done|].
  by rewrite msum_insert_new, IH.
Qed.

Lemma msum_elem_le f m k x :
  (∀ k x, m !! k = Some x → 0 <= f k x) → m !! k = Some x → f k x <= msum f m.
Proof.
  intros Hpos Hk. rewrite (msum_delete f m k x Hk).
  assert (0 <= msum f (delete k m)); [|lia]. apply msum_nonneg.
  intros k' x' [_ Hk']%lookup_delete_Some. eauto.
Qed.

Lemma msum_const a m : msum (λ _ _, a) m = a * Z.of_nat (size m).
Proof.
  induction m as [|k x m Hk IH] using map_ind; [rewrite map_size_empty, msum_empty; lia|].
  rewrite msum_insert_new, IH, map_size_insert_None by done. lia.
Qed.

Lemma msum_add f g m : msum (λ k x, f k x + g k x) m = msum f m + msum g m.
Proof.
  induction m as [|k x m Hk IH] using map_ind; [by rewrite !msum_empty|].
  rewrite !msum_insert_new, IH by done. lia.
Qed.

Lemma msum_sub f g m : msum (λ k x, f k x - g k x) m = msum f m - msum g m.
Proof.
  induction m as [|k x m Hk IH] using map_ind; [by rewrite !msum_empty|].
  rewrite !msum_insert_new, IH by done. lia.
Qed.

(** Summing what [m] says about the keys of [t] gives at most what it says about
    its own. *)
Lemma msum_keys_le {B} (h : A → Z) m (t : gmap K B) :
  (∀ k x, m !! k = Some x → 0 <= h x) →
  lsum ((λ p, match m !! p.1 with Some x => h x | None => 0 end) <$> map_to_list t)
    <= msum (λ _ x, h x) m.
Proof.
  revert m. induction t as [|k y t Hk IH] using map_ind; intros m Hpos.
  - rewrite map_to_list_empty. by apply msum_nonneg.
  - rewrite (lsum_Permutation _ _ (fmap_Permutation _ _ _ (map_to_list_insert t k y Hk))).
    rewrite lsum_fmap_cons. cbn [fst]. destruct (m !! k) as [x|] eqn:Hm; [|by apply IH].
    rewrite (msum_delete _ m k x Hm). apply Z.add_le_mono_l.
    etransitivity; [|apply (IH (delete k m))].
    + apply Z.eq_le_incl. f_equal. apply list_fmap_ext. intros i [k' y'] Hi.
      assert (t !! k' = Some y') as Hk'.
      { apply elem_of_map_to_list, list_elem_of_lookup. eauto. }
      cbn. rewrite lookup_delete_ne; [done|congruence].
    + intros k' x' [_ Hx]%lookup_delete_Some. eauto.
Qed.

Lemma msum_filter (P : K * A → Prop) `{!∀ x, Decision (P x)} f m :
  (∀ k x, m !! k = Some x → ¬ P (k, x) → f k x = 0) → msum f (base.filter P m) = msum f m.
Proof.
  induction m as [|k x m Hk IH] using map_ind; intros Hf; [by rewrite map_filter_empty|].
  assert (msum f (base.filter P m) = msum f m) as E.
  { apply IH. intros k' x' Hk'. apply Hf. rewrite lookup_insert_ne; [done|congruence]. }
  rewrite msum_insert_new by done. destruct (decide (P (k, x))) as [Hp|Hp].
  - rewrite map_filter_insert_True by done. rewrite msum_insert_new, E; [done|].
    by apply map_lookup_filter_None_2; left.
  - rewrite map_filter_insert_False by done. rewrite delete_id by done.
    rewrite E, (Hf k x); [done|apply lookup_insert_eq|done].
Qed.

Lemma elem_of_values m x : x ∈ values m ↔ ∃ k, m !! k = Some x.
Proof.
  unfold values. rewrite list_elem_of_fmap. split.
  - intros ([k y] & -> & Hk%elem_of_map_to_list). eauto.
  - intros [k Hk]. exists (k, x). by rewrite elem_of_map_to_list.
Qed.

Lemma length_values m : length (values m) = size m.
Proof. unfold values. by rewrite length_fmap, length_map_to_list. Qed.
End msum.

(** ** [HashMap::retain] on counters

    Replace every counter [c] by [f c] and keep the positive ones. *)
Section retain.
Context `{Countable K}.
Implicit Types (m : gmap K Z).

Definition retain_pos (f : Z → Z) m : gmap K Z :=
  omap (λ c, let c := f c in if 0 <? c then Some c else None) m.

Lemma lookup_retain_pos f m k :
  retain_pos f m !! k = c ← m !! k; if 0 <? f c then Some (f c) else None.
Proof. apply lookup_omap. Qed.

(** As a total function, with absent keys at zero. *)
Lemma default_retain_pos f m k :
  (∀ c, m !! k = Some c → 0 <= f c) → 0 <= f 0 →
  default 0 (retain_pos f m !! k) =
    match m !! k with Some c => f c | None => 0 end.
Proof.
  intros Hpos _. rewrite lookup_retain_pos. destruct (m !! k) as [c|] eqn:Hk; [|done].
  ostep. specialize (Hpos c eq_refl). cbn. destruct (Z.ltb_spec 0 (f c)); cbn; lia.
Qed.

Lemma msum_retain_pos f m :
  (∀ k c, m !! k = Some c → 0 <= f c) →
  msum (λ _ c, c) (retain_pos f m) = msum (λ _ c, f c) m.
Proof.
  unfold retain_pos.
  induction m as [|k c m Hk IH] using map_ind; intros Hpos.
  - by rewrite omap_empty, !msum_empty.
  - rewrite msum_insert_new by done.
    pose proof (Hpos k c (lookup_insert_eq _ _ _)) as Hc.
    assert (∀ k c, m !! k = Some c → 0 <= f c) as Hm.
    { intros k' c' Hk'. apply (Hpos k'). rewrite lookup_insert_ne; [done|congruence]. }
    rewrite omap_insert. cbv zeta. destruct (Z.ltb_spec 0 (f c)).
    + rewrite msum_insert_new, IH; [done|done|]. by rewrite lookup_omap, Hk.
    + rewrite delete_id by (by rewrite lookup_omap, Hk). rewrite IH by done. lia.
Qed.

Lemma size_retain_pos f m :
  size (retain_pos f m) = count_if (λ c, 0 < f c) (values m).
Proof.
  unfold retain_pos, values, count_if.
  induction m as [|k c m Hk IH] using map_ind; [done|].
  assert (filter (λ c, 0 < f c) (map_to_list (<[k:=c]> m)).*2 ≡ₚ
    filter (λ c, 0 < f c) (((k, c) :: map_to_list m).*2)) as ->
    by (by rewrite map_to_list_insert).
  rewrite omap_insert. cbn [fmap list_fmap snd]. rewrite filter_cons.
  destruct (Z.ltb_spec 0 (f c)).
  - rewrite decide_True by done. rewrite map_size_insert_None by (by rewrite lookup_omap, Hk).
    cbn [length]. by f_equal.
  - rewrite decide_False by lia. rewrite delete_id by (by rewrite lookup_omap, Hk). done.
Qed.

Lemma msum_indicator (P : Z → Prop) `{!∀ x, Decision (P x)} a m :
  msum (λ _ c, if decide (P c) then a else 0) m = a * Z.of_nat (count_if P (values m)).
Proof.
  unfold values, count_if.
  induction m as [|k c m Hk IH] using map_ind.
  - rewrite msum_empty, map_to_list_empty. cbn. lia.
  - rewrite msum_insert_new, IH by done.
    assert (filter P (map_to_list (<[k:=c]> m)).*2 ≡ₚ
      filter P (((k, c) :: map_to_list m).*2)) as -> by (by rewrite map_to_list_insert).
    cbn [fmap list_fmap snd]. rewrite filter_cons. case_decide; cbn [length]; lia.
Qed.

(** [*self.entry(k).or_insert(0) += c] for every entry of [t]. *)
Definition add_all m t : gmap K Z := union_with (λ a b, Some (a +ʷ b)) m t.

Lemma default_add_all m t k :
  (∀ a b, m !! k = Some a → t !! k = Some b → u64_ok (a + b)) →
  default 0 (add_all m t !! k) = default 0 (m !! k) + default 0 (t !! k).
Proof.
  intros Hok. unfold add_all. rewrite lookup_union_with.
  destruct (m !! k) as [a|] eqn:Ha, (t !! k) as [b|] eqn:Hb; cbn; try lia.
  rewrite wadd64_small; [done|by apply Hok].
Qed.

Lemma msum_add_all m t :
  (∀ k a b, m !! k = Some a → t !! k = Some b → u64_ok (a + b)) →
  msum (λ _ c, c) (add_all m t) = msum (λ _ c, c) m + msum (λ _ c, c) t.
Proof.
  unfold add_all. revert m. induction t as [|k c t Hk IH] using map_ind; intros m Hok.
  - rewrite msum_empty, (right_id_L ∅ (union_with _)). lia.
  - assert (∀ k a b, m !! k = Some a → t !! k = Some b → u64_ok (a + b)) as Ht.
    { intros k' a b Ha Hb. apply (Hok k'); [done|].
      rewrite lookup_insert_ne; [done|congruence]. }
    assert (union_with (λ a b, Some (a +ʷ b)) m (<[k:=c]> t) =
      <[k := match m !! k with Some a => a +ʷ c | None => c end]>
        (union_with (λ a b, Some (a +ʷ b)) m t)) as ->.
    { apply map_eq. intros k'. rewrite lookup_union_with.
      destruct (decide (k = k')) as [<-|Hne].
      - rewrite !lookup_insert_eq. by destruct (m !! k).
      - by rewrite !lookup_insert_ne, lookup_union_with by done. }
    specialize (IH m Ht). rewrite (msum_insert_new _ t k c) by done.
    destruct (m !! k) as [a|] eqn:Ha.
    + rewrite (msum_insert _ _ k a), IH.
      * rewrite wadd64_small; [lia|]. apply (Hok k); [done|by rewrite lookup_insert_eq].
      * by rewrite lookup_union_with, Ha, Hk.
    + rewrite msum_insert_new, IH; [lia|]. by rewrite lookup_union_with, Ha, Hk.
Qed.
End retain.

(** ** Maps listed in key order and rebuilt by inserting *)

Definition insert_all {A} (l : list (bytes * A)) : gmap bytes A :=
  foldl (λ m p, <[p.1 := p.2]> m) ∅ l.

(** The entries in key order, as snapshots list them. *)
Definition sorted_entries {A} (m : gmap bytes A) : list (bytes * A) :=
  sort_by (λ a b, bytes_cmp a.1 b.1) (map_to_list m).

Section entries.
Context {A : Type}.
Implicit Types (m : gmap bytes A) (l : list (bytes * A)).

Lemma insert_all_snoc l p : insert_all (l ++ [p]) = <[p.1 := p.2]> (insert_all l).
Proof. unfold insert_all. by rewrite foldl_app. Qed.

Lemma lookup_insert_all l k :
  insert_all l !! k = None ∨ ∃ x, insert_all l !! k = Some x ∧ (k, x) ∈ l.
Proof.
  induction l as [|p l IH] using rev_ind; [by left|]. rewrite insert_all_snoc.
  destruct (decide (p.1 = k)) as [<-|Hne].
  - right. exists p.2. rewrite lookup_insert_eq. split; [done|]. destruct p. set_solver.
  - rewrite lookup_insert_ne by done. destruct IH as [IH|(x & Hx & Hin)]; [by left|].
    right. exists x. set_solver.
Qed.

Lemma size_insert_all l : (size (insert_all l) <= length l)%nat.
Proof.
  induction l as [|p l IH] using rev_ind; [done|].
  rewrite insert_all_snoc, length_app, map_size_insert. cbn. case_match; cbn; lia.
Qed.

Lemma insert_all_list_to_map l : insert_all l = list_to_map (reverse l).
Proof.
  induction l as [|[k x] l IH] using rev_ind; [done|].
  rewrite insert_all_snoc, reverse_snoc. cbn. by rewrite IH.
Qed.

Lemma insert_all_sorted_entries m : insert_all (sorted_entries m) = m.
Proof.
  rewrite insert_all_list_to_map. rewrite <- (list_to_map_to_list m) at 2.
  symmetry. apply list_to_map_proper; [apply NoDup_fst_map_to_list|].
  unfold sorted_entries. by rewrite reverse_Permutation, sort_by_Permutation.
Qed.

Lemma length_sorted_entries m : length (sorted_entries m) = size m.
Proof. unfold sorted_entries. by rewrite length_sort_by, length_map_to_list. Qed.

Lemma elem_of_sorted_entries m k x : (k, x) ∈ sorted_entries m ↔ m !! k = Some x.
Proof. unfold sorted_entries. by rewrite elem_of_sort_by, elem_of_map_to_list. Qed.

Lemma lsum_sorted_entries f m :
  lsum ((λ p, f p.1 p.2) <$> sorted_entries m) = msum f m.
Proof.
  unfold msum. apply lsum_Permutation. unfold sorted_entries.
  by rewrite sort_by_Permutation.
Qed.
End entries.

(** ** [BTreeMap]s keyed by strings

    Iteration is by key, as byte strings. *)
Definition key_cmp {A} (a b : string * A) : comparison :=
  bytes_cmp (bytes_of_string a.1) (bytes_of_string b.1).
Definition in_order {A} (m : gmap string A) : list (string * A) := sort_by key_cmp (map_to_list m).

#[export] Instance key_cmp_ord {A} : CmpOrd (key_cmp (A := A)).
Proof. apply (cmp_on (λ a : string * A, bytes_of_string a.1) bytes_cmp). Qed.

Section in_order.
Context {A : Type}.
Implicit Types (m : gmap string A) (l : list (string * A)).

Lemma in_order_Permutation m : in_order m ≡ₚ map_to_list m.
Proof. apply sort_by_Permutation. Qed.
Lemma elem_of_in_order m k x : (k, x) ∈ in_order m ↔ m !! k = Some x.
Proof. unfold in_order. by rewrite elem_of_sort_by, elem_of_map_to_list. Qed.
Lemma length_in_order m : length (in_order m) = size m.
Proof. by rewrite in_order_Permutation, length_map_to_list. Qed.
Lemma NoDup_in_order m : NoDup (in_order m).*1.
Proof. rewrite in_order_Permutation. apply NoDup_fst_map_to_list. Qed.
Lemma list_to_map_in_order m : list_to_map (in_order m) = m.
Proof.
  rewrite <- (list_to_map_to_list m) at 2.
  apply list_to_map_proper; [apply NoDup_in_order|apply in_order_Permutation].
Qed.

(** A list of the entries in key order is the only one. *)
Lemma in_order_unique l m :
  l ≡ₚ map_to_list m → StronglySorted (cmp_le key_cmp) l → in_order m = l.
Proof.
  intros Hp Hl. eapply StronglySorted_unique_strong;
    [|exact (sort_by_sorted (key_cmp (A := A)) _)|exact Hl|by rewrite in_order_Permutation].
  intros [k x] [k' y] Hx%elem_of_in_order Hy H1 H2. unfold cmp_le in *.
  assert (m !! k' = Some y) as Hy' by by rewrite <- elem_of_map_to_list, <- Hp.
  assert (k = k') as ->; [|congruence].
  rewrite (cmp_opp key_cmp) in H2. unfold key_cmp in *. cbn [fst] in *.
  apply bytes_of_string_inj, bytes_cmp_eq. by destruct (bytes_cmp _ _).
Qed.

Lemma StronglySorted_fmap_keys {B} (f : A → B) l :
  StronglySorted (cmp_le key_cmp) l → StronglySorted (cmp_le key_cmp) (prod_map id f <$> l).
Proof.
  induction 1 as [|x l Hl IH Hx]; cbn; constructor; [done|]. by apply Forall_fmap.
Qed.

Lemma StronglySorted_filter {B} (R : B → B → Prop) (P : B → Prop) `{!∀ x, Decision (P x)} (l : list B) :
  StronglySorted R l → StronglySorted R (base.filter P l).
Proof.
  induction 1 as [|x l Hl IH Hx]; [constructor|]. rewrite filter_cons. case_decide; [|done].
  constructor; [done|]. rewrite Forall_forall in *. intros y [_ Hy]%list_elem_of_filter. by apply Hx.
Qed.

Lemma in_order_filter (P : string * A → Prop) `{!∀ x, Decision (P x)} m :
  in_order (base.filter P m) = base.filter P (in_order m).
Proof.
  apply in_order_unique; [|apply StronglySorted_filter, (sort_by_sorted key_cmp)].
  rewrite in_order_Permutation.
  apply NoDup_Permutation; [apply NoDup_filter, NoDup_map_to_list|apply NoDup_map_to_list|].
  intros [k x]. rewrite list_elem_of_filter, !elem_of_map_to_list, map_lookup_filter_Some. naive_solver.
Qed.
End in_order.

Lemma in_order_fmap {A B} (f : A → B) (m : gmap string A) : in_order (f <$> m) = prod_map id f <$> in_order m.
Proof.
  apply in_order_unique; [by rewrite in_order_Permutation, map_to_list_fmap|].
  apply StronglySorted_fmap_keys, (sort_by_sorted key_cmp).
Qed.
