(* ===== verification/Heap.v ===== *)
(** * Array binary heaps

    The order theory behind the sifting loops: a heap is a function [f] from the
    positions [0..n) to ranks, an exchange of two positions a pointwise update.
    [up_ok] and [down_ok] are the loop invariants of sifting up and down. *)
From S2P Require Import Prelude Bytes.

Definition parent (i : nat) : nat := ((i - 1) / 2)%nat.

Lemma parent_lt i : (0 < i)%nat → (parent i < i)%nat.
Proof. intros. unfold parent. apply Nat.Div0.div_lt_upper_bound. lia. Qed.

Lemma parent_child i k : (0 < i)%nat → parent i = k ↔ i = (2 * k + 1)%nat ∨ i = (2 * k + 2)%nat.
Proof.
  intros Hi. unfold parent.
  pose proof (Nat.div_mod (i - 1) 2 ltac:(lia)).
  pose proof (Nat.mod_upper_bound (i - 1) 2 ltac:(lia)). lia.
Qed.

(** Exchange two positions. *)
Definition swapf {R} (f : nat → R) (p q : nat) : nat → R :=
  λ i, if decide (i = p) then f q else if decide (i = q) then f p else f i.

Section heap.
Context {R : Type} (c : R → R → comparison) `{!CmpOrd c}.
Implicit Types (f g : nat → R) (n i k : nat).

#[local] Abbreviation le := (cmp_le c).

Definition heap_ok n f : Prop :=
  ∀ i, (0 < i < n)%nat → le (f (parent i)) (f i).
(** Only position [k] may be smaller than its parent. *)
Definition up_ok n f k : Prop :=
  (∀ i, (0 < i < n)%nat → i ≠ k → le (f (parent i)) (f i)) ∧
  (∀ i, (0 < i < n)%nat → parent i = k → (0 < k)%nat → le (f (parent k)) (f i)).
(** Only position [k] may be greater than its children. *)
Definition down_ok n f k : Prop :=
  (∀ i, (0 < i < n)%nat → parent i ≠ k → le (f (parent i)) (f i)) ∧
  (∀ i, (0 < i < n)%nat → parent i = k → (0 < k)%nat → le (f (parent k)) (f i)).

Lemma lt_le x y : c x y = Lt → le x y.
Proof. unfold cmp_le. by intros ->. Qed.
Lemma nlt_le x y : c x y ≠ Lt → le y x.
Proof using All. unfold cmp_le. rewrite (cmp_opp c x y). by destruct (c x y). Qed.
Lemma le_trans x y z : le x y → le y z → le x z.
Proof using All. apply (cmp_le_trans c). Qed.
Lemma le_refl x : le x x.
Proof using All. unfold cmp_le. by rewrite (cmp_refl c). Qed.

Lemma heap_ok_ext n f g : (∀ i, (i < n)%nat → f i = g i) → heap_ok n f → heap_ok n g.
Proof.
  intros He H i Hi. pose proof (parent_lt i ltac:(lia)).
  rewrite <- !He by lia. by apply H.
Qed.

(** The root is a minimum. *)
Lemma heap_min n f i : heap_ok n f → (i < n)%nat → le (f 0%nat) (f i).
Proof using All.
  intros H. induction (lt_wf i) as [i _ IH]. intros Hi.
  destruct (decide (i = 0%nat)) as [->|]; [apply le_refl|].
  pose proof (parent_lt i ltac:(lia)).
  eapply le_trans; [apply (IH (parent i)); lia|apply H; lia].
Qed.

Lemma up_step n f k :
  (0 < k < n)%nat → up_ok n f k → c (f k) (f (parent k)) = Lt →
  up_ok n (swapf f k (parent k)) (parent k).
Proof using All.
  intros Hk [H1 H2] Hlt%lt_le. pose proof (parent_lt k ltac:(lia)).
  unfold swapf. split.
  - intros i Hi Hne. pose proof (parent_lt i ltac:(lia)).
    destruct (decide (i = k)) as [->|Hik].
    + rewrite (decide_False (P := parent k = k)) by lia.
      by rewrite (decide_True (P := parent k = parent k)) by done.
    + rewrite (decide_False (P := i = parent k)) by done.
      destruct (decide (parent i = k)) as [Hpk|]; [apply H2; [done|done|lia]|].
      destruct (decide (parent i = parent k)) as [Hpp|]; [|by apply H1].
      eapply le_trans; [exact Hlt|]. rewrite <- Hpp. by apply H1.
  - intros i Hi Hp Hpk. pose proof (parent_lt (parent k) Hpk).
    rewrite (decide_False (P := parent (parent k) = k)) by lia.
    rewrite (decide_False (P := parent (parent k) = parent k)) by lia.
    assert (le (f (parent (parent k))) (f (parent k))) as Hpp by (apply H1; lia).
    destruct (decide (i = k)) as [->|Hik]; [done|].
    rewrite (decide_False (P := i = parent k)).
    + eapply le_trans; [exact Hpp|]. rewrite <- Hp. by apply H1.
    + intros ->. lia.
Qed.

Lemma up_done n f k :
  up_ok n f k → (k = 0%nat ∨ c (f k) (f (parent k)) ≠ Lt) → heap_ok n f.
Proof using All.
  intros [H1 _] Hd i Hi. destruct (decide (i = k)) as [->|]; [|by apply H1].
  destruct Hd as [->|Hd]; [lia|]. by apply nlt_le.
Qed.

Lemma up_push n f g :
  heap_ok n f → (∀ i, (i < n)%nat → g i = f i) → up_ok (S n) g n.
Proof using All.
  intros H He. split.
  - intros i Hi Hne. pose proof (parent_lt i ltac:(lia)).
    rewrite !He by lia. apply H. lia.
  - intros i Hi Hp _. pose proof (parent_lt i ltac:(lia)). lia.
Qed.

(** [ch] is the lesser child of [k]. *)
Definition lesser_child n f k ch : Prop :=
  (0 < ch < n)%nat ∧ parent ch = k ∧
  ∀ i, (0 < i < n)%nat → parent i = k → le (f ch) (f i).

Lemma down_step n f k ch :
  down_ok n f k → lesser_child n f k ch → c (f ch) (f k) = Lt →
  down_ok n (swapf f k ch) ch.
Proof using All.
  intros [H1 H2] (Hch & Hp & Hmin) Hlt%lt_le.
  pose proof (parent_lt ch ltac:(lia)) as Hpl. unfold swapf. split.
  - intros i Hi Hne. pose proof (parent_lt i ltac:(lia)).
    destruct (decide (i = ch)) as [->|Hic].
    + rewrite (decide_False (P := ch = k)) by lia. by rewrite decide_True.
    + rewrite (decide_False (P := parent i = ch)) by done.
      destruct (decide (parent i = k)) as [Hpk|Hpk].
      * rewrite (decide_False (P := i = k)) by lia. by apply Hmin.
      * destruct (decide (i = k)) as [->|]; [|by apply H1].
        apply H2; [done|done|lia].
  - intros i Hi Hpi Hc0. pose proof (parent_lt i ltac:(lia)).
    rewrite (decide_True (P := parent ch = k)) by done.
    rewrite (decide_False (P := i = k)), (decide_False (P := i = ch)) by lia.
    rewrite <- Hpi at 1. apply H1; [done|]. rewrite Hpi. lia.
Qed.

Lemma down_done n f k :
  down_ok n f k →
  (∀ i, (0 < i < n)%nat → parent i = k → le (f k) (f i)) → heap_ok n f.
Proof.
  intros [H1 _] Hd i Hi. destruct (decide (parent i = k)) as [Hp|]; [|by apply H1].
  rewrite Hp. by apply Hd.
Qed.

(** Raising one rank leaves everything but its children in order. *)
Lemma down_raise n f g k :
  heap_ok n f → (∀ i, (i < n)%nat → i ≠ k → g i = f i) →
  ((k < n)%nat → le (f k) (g k)) → down_ok n g k.
Proof using All.
  intros H He Hk. split.
  - intros i Hi Hp. pose proof (parent_lt i ltac:(lia)).
    rewrite (He (parent i)) by lia. eapply le_trans; [by apply H|].
    destruct (decide (i = k)) as [->|]; [apply Hk; lia|rewrite He by lia; apply le_refl].
  - intros i Hi Hp H0. pose proof (parent_lt i ltac:(lia)). pose proof (parent_lt k H0).
    rewrite !He by lia. eapply le_trans; [apply (H k); lia|].
    rewrite <- Hp. by apply H.
Qed.

(** At the root nothing needs to be known of the new rank. *)
Lemma down_root n f g :
  heap_ok n f → (∀ i, (0 < i < n)%nat → g i = f i) → down_ok n g 0%nat.
Proof.
  intros H He. split; [|lia]. intros i Hi Hp.
  pose proof (parent_lt i ltac:(lia)). rewrite !He by lia. by apply H.
Qed.
End heap.
