(* ===== verification/Hash.v ===== *)
(** * The [fsk1] hash family  (crates/flowsketch-core/src/hash.rs)

    SplitMix64, the seeded FNV-1a byte hash [hash64], the hash configuration
    [HashSpec] and the row hashes of the multi-row sketches.  Every function is
    executable on [Z]; the lemmas give the ranges of the results, which keep
    the column of a row inside its table. *)
From S2P Require Import Prelude Bytes.

Definition HASH_VERSION : Z := 2.

Inductive HashFamily : Set := Fsk1.
#[export] Instance HashFamily_eq_dec : EqDecision HashFamily.
Proof. solve_decision. Defined.

Definition HashFamily_name (f : HashFamily) : string :=
  match f with Fsk1 => "fsk1" end.

Record HashSpec := mkHashSpec {
  family : HashFamily;
  seed : Z;
  version : Z;
}.
#[export] Instance HashSpec_eq_dec : EqDecision HashSpec.
Proof. solve_decision. Defined.

Definition HashSpec_new (s : Z) : HashSpec :=
  {| family := Fsk1; seed := s; version := HASH_VERSION |}.
Definition HashSpec_default : HashSpec := HashSpec_new 0.

Definition hash_spec_ok (h : HashSpec) : Prop :=
  u64_ok (seed h) ∧ u16_ok (version h).

(** SplitMix64 finalizer/mixer. *)
Definition splitmix64 (x : Z) : Z :=
  let x := x +ʷ 0x9E3779B97F4A7C15 in
  let x := Z.lxor x (shr64 x 30) *ʷ 0xBF58476D1CE4E5B9 in
  let x := Z.lxor x (shr64 x 27) *ʷ 0x94D049BB133111EB in
  Z.lxor x (shr64 x 31).

Definition FNV_OFFSET : Z := 0xCBF29CE484222325.
Definition FNV_PRIME : Z := 0x00000100000001B3.

(** Seeded FNV-1a core with a SplitMix64 finalizer. *)
Definition hash64 (b : bytes) (s : Z) : Z :=
  splitmix64
    (foldl (λ h x, Z.lxor h x *ʷ FNV_PRIME)
       (Z.lxor FNV_OFFSET (splitmix64 s)) b).

Definition HashSpec_hash64 (h : HashSpec) (b : bytes) : Z := hash64 b (seed h).

(** The SplitMix64 stream ([SplitMixRng] holds its state word). *)
Definition SplitMixRng_new (s : Z) : Z := s.
Definition next_u64 (state : Z) : Z * Z :=
  let state := state +ʷ 0x9E3779B97F4A7C15 in (splitmix64 state, state).

(** Per-row derived hashes for multi-row sketches. *)
Record RowHashes := mkRowHashes { rh_h1 : Z; rh_h2 : Z }.

Definition RowHashes_new (spec : HashSpec) (key : bytes) : RowHashes :=
  let h1 := hash64 key (seed spec) in
  let h2 := Z.lor (hash64 key (Z.lxor (seed spec) 0xA5A5A5A55A5A5A5A)) 1 in
  {| rh_h1 := h1; rh_h2 := h2 |}.

(** Column index for [row] in a table of [width] columns. *)
Definition index (rh : RowHashes) (row width : Z) : Z :=
  let domain := splitmix64 (Z.lxor row 0xD6E8FEB86659FD93) in
  let h := splitmix64
    (Z.lxor (Z.lxor (rh_h1 rh) (rotl64 (rh_h2 rh) (as_u32 row mod 63 + 1))) domain) in
  h mod width.

(** A [+1]/[-1] sign for [row]. *)
Definition sign (rh : RowHashes) (row : Z) : Z :=
  let domain := splitmix64 (Z.lxor row 0xA4093822299F31D0) in
  let s := splitmix64
    (Z.lxor (Z.lxor (rh_h1 rh) (rotr64 (rh_h2 rh) (as_u32 row mod 63 + 1))) domain) in
  if Z.land s 1 =? 1 then 1 else -1.

Definition raw (rh : RowHashes) : Z := rh_h1 rh.

(** ** Ranges *)

Lemma splitmix64_u64 x : u64_ok (splitmix64 x).
Proof.
  unfold splitmix64. cbv zeta. apply lxor_u64; [apply wrap64_range|].
  unfold shr64. apply shiftr_u64; [apply wrap64_range|done].
Qed.

Lemma hash64_u64 b s : u64_ok (hash64 b s).
Proof. apply splitmix64_u64. Qed.

Lemma index_range rh row width : 0 < width → 0 <= index rh row width < width.
Proof. intros H. unfold index. apply Z.mod_pos_bound. lia. Qed.

Lemma sign_cases rh row : sign rh row = 1 ∨ sign rh row = -1.
Proof. unfold sign. case_match; auto. Qed.

Lemma sign_sq rh row : sign rh row * sign rh row = 1.
Proof. by destruct (sign_cases rh row) as [-> | ->]. Qed.

#[export] Hint Resolve splitmix64_u64 hash64_u64 : word.

(** Appending a byte to the hashed string is one more FNV-1a step, so the hash
    can be computed incrementally. *)
Definition fnv_state (b : bytes) (s : Z) : Z :=
  foldl (λ h x, Z.lxor h x *ʷ FNV_PRIME) (Z.lxor FNV_OFFSET (splitmix64 s)) b.

Lemma hash64_fnv b s : hash64 b s = splitmix64 (fnv_state b s).
Proof. done. Qed.

Lemma fnv_state_app a b s :
  fnv_state (a ++ b) s =
    foldl (λ h x, Z.lxor h x *ʷ FNV_PRIME) (fnv_state a s) b.
Proof. apply foldl_app. Qed.

Example hash64_test : hash64 (bytes_of_string "flowsketch") 0 ≠
  hash64 (bytes_of_string "flowsketch") 1.
Proof. by vm_compute. Qed.

#[global] Arguments hash64 : simpl never.
#[global] Arguments splitmix64 : simpl never.
#[global] Arguments index : simpl never.
#[global] Arguments sign : simpl never.
