(* ===== verification/Sketch.v ===== *)
(** * Errors, merge compatibility and the sketch interface
    (crates/flowsketch-core/src/error.rs and sketch.rs)

    The [Sketch] trait becomes two type classes: [Sketch] holds the operations,
    [LawfulSketch] the laws every implementation promises to the runtime, which
    drives all sketches through this interface. *)
From S2P Require Import Prelude Bytes Hash.

(** The payload is the message's text with the interpolated values left out. *)
Inductive SketchError :=
  | InvalidParam (msg : string)
  | IncompatibleMerge (msg : string)
  | SnapshotError (msg : string)
  | Backpressure (msg : string).
#[export] Instance SketchError_eq_dec : EqDecision SketchError.
Proof. solve_decision. Defined.

Abbreviation res := (outcome SketchError).

Record SketchCompatibility := mkCompat {
  sc_algorithm : string;
  sc_version : Z;
  sc_hash : HashSpec;
  sc_params_hash : Z;
}.
#[export] Instance SketchCompatibility_eq_dec : EqDecision SketchCompatibility.
Proof. solve_decision. Defined.

Definition ensure_matches (a b : SketchCompatibility) : res unit :=
  if decide (a ≠ b)
  then Err (IncompatibleMerge "sketches are not merge-compatible")
  else Ok tt.

Lemma ensure_matches_ok a b : ensure_matches a b = Ok tt ↔ a = b.
Proof. unfold ensure_matches. case_decide; naive_solver. Qed.

Lemma ensure_matches_refl a : ensure_matches a a = Ok tt.
Proof. by apply ensure_matches_ok. Qed.

Lemma ensure_matches_no_panic a b : no_panic (ensure_matches a b).
Proof. unfold ensure_matches. by case_decide. Qed.
#[export] Hint Resolve ensure_matches_no_panic : outcome.

(** The sketch operations the runtime uses: an update with a key and a weight,
    a merge, a reset and the two descriptors. *)
Class Sketch (S : Type) := {
  sk_update : S → bytes → Z → res S;
  sk_merge_from : S → S → res S;
  sk_reset : S → S;
  sk_update_count : S → Z;
  sk_compatibility : S → SketchCompatibility;
}.

(** What the windowed, sharded runtime relies on: on sketches that satisfy the
    implementation's invariant, updates and compatible merges return, keep the
    invariant and the descriptors, and count themselves. *)
Class LawfulSketch (S : Type) `{!Sketch S} (inv : S → Prop) : Prop := {
  sk_update_ok s k v :
    inv s → u64_ok v →
    ∃ s', sk_update s k v = Ok s' ∧ inv s' ∧
      sk_compatibility s' = sk_compatibility s ∧
      sk_update_count s' = sk_update_count s +ʷ 1;
  sk_merge_ok s t :
    inv s → inv t → sk_compatibility s = sk_compatibility t →
    ∃ s', sk_merge_from s t = Ok s' ∧ inv s' ∧
      sk_compatibility s' = sk_compatibility s ∧
      sk_update_count s' = sk_update_count s +ʷ sk_update_count t;
  sk_merge_incompatible s t :
    sk_compatibility s ≠ sk_compatibility t →
    sk_merge_from s t =
      Err (IncompatibleMerge "sketches are not merge-compatible");
  sk_reset_ok s :
    inv s → inv (sk_reset s) ∧ sk_update_count (sk_reset s) = 0 ∧
      sk_compatibility (sk_reset s) = sk_compatibility s;
}.
