(* ===== verification/Snapshot.v ===== *)
(** * The [FSK1] snapshot format  (crates/flowsketch-core/src/snapshot.rs)

    [Writer] appends little-endian fields to a buffer, [Reader] consumes them
    from a buffer with a position.  [write_snapshot] and [read_snapshot] are
    inverse on every header with in-range fields; [read_snapshot] accepts
    nothing but a checksummed prefix of that form, and never panics. *)
From S2P Require Import Prelude Bytes Hash Sketch.

Definition MAGIC : list Z := bytes_of_string "FSK1".
Definition SNAPSHOT_VERSION : Z := 2.

Definition COUNT_MIN : Z := 1.
Definition COUNT_SKETCH : Z := 2.
Definition HYPER_LOG_LOG : Z := 3.
Definition SPACE_SAVING : Z := 4.
Definition MISRA_GRIES : Z := 5.
Definition HLL_MAP : Z := 6.
Definition EXACT : Z := 7.
Definition KLL : Z := 8.

Record SnapshotHeader := mkHeader {
  sh_version : Z;
  sh_algorithm_id : Z;
  sh_hash : HashSpec;
  sh_window_start_nanos : Z;
  sh_window_end_nanos : Z;
}.
#[export] Instance SnapshotHeader_eq_dec : EqDecision SnapshotHeader.
Proof. solve_decision. Defined.

(** ** Writer *)

(** [Writer { buf }]: the buffer itself. *)
Definition Writer := list Z.
Definition Writer_new : Writer := [].
Definition w_u8 (w : Writer) (v : Z) : Writer := w ++ [as_u8 v].
Definition w_u16 (w : Writer) (v : Z) : Writer := w ++ le_bytes 2 v.
Definition w_u32 (w : Writer) (v : Z) : Writer := w ++ le_bytes 4 v.
Definition w_u64 (w : Writer) (v : Z) : Writer := w ++ le_bytes 8 v.
Definition w_i64 (w : Writer) (v : Z) : Writer := w ++ le_bytes 8 (wrap64 v).
Definition w_bytes (w : Writer) (v : list Z) : Writer := w ++ v.
Definition w_lp_bytes (w : Writer) (v : list Z) : Writer :=
  w_bytes (w_u32 w (as_u32 (zlen v))) v.

(** ** Reader *)

Record Reader := mkReader { r_buf : list Z; r_pos : Z }.
Definition Reader_new (b : list Z) : Reader := {| r_buf := b; r_pos := 0 |}.
Definition remaining (r : Reader) : Z := zlen (r_buf r) - r_pos r.

Definition r_take (n : Z) (r : Reader) : res (list Z * Reader) :=
  if remaining r <? n then Err (SnapshotError "unexpected end of snapshot")
  else Ok (take (Z.to_nat n) (drop (Z.to_nat (r_pos r)) (r_buf r)),
           {| r_buf := r_buf r; r_pos := r_pos r + n |}).

Definition r_u8 (r : Reader) : res (Z * Reader) :=
  '(b, r) ← r_take 1 r; v ← vec_get b 0; Ok (v, r).
Definition r_u16 (r : Reader) : res (Z * Reader) :=
  '(b, r) ← r_take 2 r; Ok (le_val b, r).
Definition r_u32 (r : Reader) : res (Z * Reader) :=
  '(b, r) ← r_take 4 r; Ok (le_val b, r).
Definition r_u64 (r : Reader) : res (Z * Reader) :=
  '(b, r) ← r_take 8 r; Ok (le_val b, r).
Definition r_i64 (r : Reader) : res (Z * Reader) :=
  '(b, r) ← r_take 8 r; Ok (iwrap64 (le_val b), r).
Definition r_lp_bytes (r : Reader) : res (list Z * Reader) :=
  '(n, r) ← r_u32 r; r_take n r.

(** A declared element count against the bytes actually left. *)
Definition check_count (r : Reader) (count min_bytes_each : Z) : res unit :=
  fail_if (remaining r / Z.max min_bytes_each 1 <? count)
    (SnapshotError "declared count cannot fit in the bytes remaining").

(** [for _ in 0..n { v.push(f(&mut r)?) }] *)
Fixpoint read_n {A} (n : nat) (f : Reader → res (A * Reader)) (r : Reader)
    : res (list A * Reader) :=
  match n with
  | O => Ok ([], r)
  | S n => '(x, r) ← f r; '(xs, r) ← read_n n f r; Ok (x :: xs, r)
  end.

(** ** Snapshots *)

Definition hash_family_id (f : HashFamily) : Z := match f with Fsk1 => 0 end.

Definition snapshot_body (header : SnapshotHeader) (params payload : list Z)
    : Writer :=
  let w := Writer_new in
  let w := w_bytes w MAGIC in
  let w := w_u16 w (sh_version header) in
  let w := w_u16 w (sh_algorithm_id header) in
  let w := w_u8 w (hash_family_id (family (sh_hash header))) in
  let w := w_u64 w (seed (sh_hash header)) in
  let w := w_u16 w (version (sh_hash header)) in
  let w := w_u64 w (sh_window_start_nanos header) in
  let w := w_u64 w (sh_window_end_nanos header) in
  let w := w_u32 w (as_u32 (zlen params)) in
  let w := w_bytes w params in
  let w := w_u32 w (as_u32 (zlen payload)) in
  w_bytes w payload.

Definition write_snapshot (header : SnapshotHeader) (params payload : list Z)
    : list Z :=
  let w := snapshot_body header params payload in
  w_u64 w (hash64 w 0).

Definition read_snapshot (b : list Z) : res (SnapshotHeader * list Z * list Z) :=
  _ ← fail_if (zlen b <? 4 + 2 + 2 + 11 + 16 + 8 + 8)
        (SnapshotError "snapshot too short");
  let body := take (length b - 8) b in
  let tail := drop (length b - 8) b in
  let expected := le_val tail in
  _ ← fail_if (negb (hash64 body 0 =? expected))
        (SnapshotError "checksum mismatch");
  let r := Reader_new body in
  '(magic, r) ← r_take 4 r;
  _ ← fail_if (negb (bool_decide (magic = MAGIC)))
        (SnapshotError "bad magic (expected FSK1)");
  '(version, r) ← r_u16 r;
  _ ← fail_if (negb (version =? SNAPSHOT_VERSION))
        (SnapshotError "unsupported snapshot version");
  '(algorithm_id, r) ← r_u16 r;
  '(family_id, r) ← r_u8 r;
  family ← (if family_id =? 0 then Ok Fsk1
            else Err (SnapshotError "unknown hash family id"));
  '(seed, r) ← r_u64 r;
  '(hash_version, r) ← r_u16 r;
  '(window_start_nanos, r) ← r_u64 r;
  '(window_end_nanos, r) ← r_u64 r;
  '(params_len, r) ← r_u32 r;
  '(params, r) ← r_take params_len r;
  '(payload_len, r) ← r_u32 r;
  '(payload, r) ← r_take payload_len r;
  Ok ({| sh_version := version; sh_algorithm_id := algorithm_id;
         sh_hash := {| family := family; seed := seed;
                       version := hash_version |};
         sh_window_start_nanos := window_start_nanos;
         sh_window_end_nanos := window_end_nanos |},
      params, payload).

(** ** Reader lemmas

    [rd pre suf] is a reader that has consumed [pre] and has [suf] left. *)
Definition rd (pre suf : list Z) : Reader :=
  {| r_buf := pre ++ suf; r_pos := zlen pre |}.

Lemma Reader_new_rd b : Reader_new b = rd [] b.
Proof. done. Qed.

Lemma remaining_rd pre suf : remaining (rd pre suf) = zlen suf.
Proof. unfold remaining, rd. simpl. rewrite zlen_app. lia. Qed.

Lemma r_take_rd n pre a suf :
  zlen a = n → r_take n (rd pre (a ++ suf)) = Ok (a, rd (pre ++ a) suf).
Proof.
  intros <-. unfold r_take. rewrite remaining_rd, zlen_app.
  rewrite (proj2 (Z.ltb_ge _ _)) by (pose proof (zlen_nonneg suf); lia).
  unfold rd. simpl.
  rewrite drop_zlen_app, take_zlen_app, <- app_assoc, zlen_app. done.
Qed.

Lemma r_take_inv n pre suf a r :
  0 <= n → r_take n (rd pre suf) = Ok (a, r) →
  ∃ suf', suf = a ++ suf' ∧ zlen a = n ∧ r = rd (pre ++ a) suf'.
Proof.
  intros Hn. unfold r_take. rewrite remaining_rd.
  destruct (Z.ltb_spec (zlen suf) n) as [|Hlen]; [done|]. intros [= <- <-].
  simpl. rewrite drop_zlen_app. exists (drop (Z.to_nat n) suf).
  assert (zlen (take (Z.to_nat n) suf) = n) as Ht.
  { unfold zlen in *. rewrite length_take. lia. }
  split_and!; [by rewrite take_drop|done|].
  unfold rd. by rewrite <- app_assoc, take_drop, zlen_app, Ht.
Qed.

Lemma r_take_no_panic n r : no_panic (r_take n r).
Proof. unfold r_take. by case_match. Qed.
#[export] Hint Resolve r_take_no_panic : outcome.

(** A little-endian field of [k] bytes. *)
Definition r_le (k : nat) (r : Reader) : res (Z * Reader) :=
  '(b, r) ← r_take (Z.of_nat k) r; Ok (le_val b, r).

Lemma r_le_rd k v pre suf :
  0 <= v < 256 ^ Z.of_nat k →
  r_le k (rd pre (le_bytes k v ++ suf)) = Ok (v, rd (pre ++ le_bytes k v) suf).
Proof.
  intros Hv. unfold r_le. rewrite r_take_rd; simpl.
  - by rewrite le_val_le_bytes_id.
  - unfold zlen. by rewrite length_le_bytes.
Qed.

Lemma r_le_inv k pre suf v r :
  bytes_ok suf → r_le k (rd pre suf) = Ok (v, r) →
  ∃ suf', suf = le_bytes k v ++ suf' ∧ bytes_ok suf' ∧
    r = rd (pre ++ le_bytes k v) suf' ∧ 0 <= v < 256 ^ Z.of_nat k.
Proof.
  intros Hs H. unfold r_le in H. bind_inv. destruct x as [a r'].
  injection H as <- <-.
  apply r_take_inv in H0 as (suf' & -> & Hl & ->); [|lia].
  apply Forall_app in Hs as [Ha Hs'].
  exists suf'. rewrite le_bytes_le_val by (done || unfold zlen in Hl; lia).
  split_and!; try done; pose proof (le_val_range a Ha); rewrite Hl in *; lia.
Qed.

Lemma r_u8_rd v pre suf :
  u8_ok v → r_u8 (rd pre (v :: suf)) = Ok (v, rd (pre ++ [v]) suf).
Proof.
  intros _. unfold r_u8. change (v :: suf) with ([v] ++ suf).
  by rewrite r_take_rd.
Qed.

Lemma r_u8_inv pre suf v r :
  bytes_ok suf → r_u8 (rd pre suf) = Ok (v, r) →
  ∃ suf', suf = v :: suf' ∧ bytes_ok suf' ∧ r = rd (pre ++ [v]) suf' ∧ u8_ok v.
Proof.
  intros Hs H. unfold r_u8 in H. bind_inv. destruct x as [a r'].
  bind_inv. injection H as <- <-.
  apply r_take_inv in H0 as (suf' & -> & Hl & ->); [|lia].
  apply vec_get_inv in H1 as [_ H1]. unfold zlen in Hl.
  destruct a as [|b [|c a]]; simpl in *; try lia. simplify_eq.
  apply Forall_cons in Hs as [Hb Hs]. eauto.
Qed.

Lemma r_u8_no_panic pre suf : no_panic (r_u8 (rd pre suf)).
Proof.
  unfold r_u8. apply bind_no_panic; [auto with outcome|]. intros [a r] H.
  apply r_take_inv in H as (suf' & -> & Hl & ->); [|lia]. unfold zlen in Hl.
  destruct a as [|b [|c a]]; simpl in *; try lia. done.
Qed.

Lemma r_u16_le r : r_u16 r = r_le 2 r. Proof. done. Qed.
Lemma r_u32_le r : r_u32 r = r_le 4 r. Proof. done. Qed.
Lemma r_u64_le r : r_u64 r = r_le 8 r. Proof. done. Qed.

Lemma r_u16_rd v pre suf :
  u16_ok v → r_u16 (rd pre (le_bytes 2 v ++ suf)) = Ok (v, rd (pre ++ le_bytes 2 v) suf).
Proof. apply (r_le_rd 2). Qed.
Lemma r_u32_rd v pre suf :
  u32_ok v → r_u32 (rd pre (le_bytes 4 v ++ suf)) = Ok (v, rd (pre ++ le_bytes 4 v) suf).
Proof. apply (r_le_rd 4). Qed.
Lemma r_u64_rd v pre suf :
  u64_ok v → r_u64 (rd pre (le_bytes 8 v ++ suf)) = Ok (v, rd (pre ++ le_bytes 8 v) suf).
Proof. apply (r_le_rd 8). Qed.
Lemma r_i64_rd v pre suf :
  i64_ok v →
  r_i64 (rd pre (le_bytes 8 (wrap64 v) ++ suf)) =
    Ok (v, rd (pre ++ le_bytes 8 (wrap64 v)) suf).
Proof.
  intros Hv. unfold r_i64.
  rewrite r_take_rd by (unfold zlen; by rewrite length_le_bytes). simpl.
  rewrite le_val_le_bytes_id by apply wrap64_range.
  rewrite (iwrap64_cong _ v); [|by unfold wrap64; rewrite Z.mod_mod].
  by rewrite iwrap64_small.
Qed.
Lemma r_lp_bytes_rd a pre suf :
  u32_ok (zlen a) →
  r_lp_bytes (rd pre (le_bytes 4 (zlen a) ++ a ++ suf)) =
    Ok (a, rd ((pre ++ le_bytes 4 (zlen a)) ++ a) suf).
Proof.
  intros Ha. unfold r_lp_bytes. rewrite r_u32_rd by done. simpl.
  by rewrite r_take_rd.
Qed.

Lemma r_u16_inv pre suf v r :
  bytes_ok suf → r_u16 (rd pre suf) = Ok (v, r) →
  ∃ suf', suf = le_bytes 2 v ++ suf' ∧ bytes_ok suf' ∧
    r = rd (pre ++ le_bytes 2 v) suf' ∧ u16_ok v.
Proof. apply (r_le_inv 2). Qed.
Lemma r_u32_inv pre suf v r :
  bytes_ok suf → r_u32 (rd pre suf) = Ok (v, r) →
  ∃ suf', suf = le_bytes 4 v ++ suf' ∧ bytes_ok suf' ∧
    r = rd (pre ++ le_bytes 4 v) suf' ∧ u32_ok v.
Proof. apply (r_le_inv 4). Qed.
Lemma r_u64_inv pre suf v r :
  bytes_ok suf → r_u64 (rd pre suf) = Ok (v, r) →
  ∃ suf', suf = le_bytes 8 v ++ suf' ∧ bytes_ok suf' ∧
    r = rd (pre ++ le_bytes 8 v) suf' ∧ u64_ok v.
Proof. apply (r_le_inv 8). Qed.
Lemma r_i64_inv pre suf v r :
  bytes_ok suf → r_i64 (rd pre suf) = Ok (v, r) →
  ∃ suf', suf = le_bytes 8 (wrap64 v) ++ suf' ∧ bytes_ok suf' ∧
    r = rd (pre ++ le_bytes 8 (wrap64 v)) suf' ∧ i64_ok v.
Proof.
  intros Hs H. unfold r_i64 in H. apply bind_ok in H as ([a r'] & Ha & H).
  injection H as <- <-.
  destruct (r_u64_inv pre suf (le_val a) r' Hs) as (suf' & -> & Hs' & -> & Hv).
  { unfold r_u64. by rewrite Ha. }
  rewrite wrap64_iwrap64, wrap64_small by done.
  exists suf'. split_and!; [done..|apply iwrap64_range].
Qed.
Lemma r_lp_bytes_inv pre suf a r :
  bytes_ok suf → r_lp_bytes (rd pre suf) = Ok (a, r) →
  ∃ suf', suf = le_bytes 4 (zlen a) ++ a ++ suf' ∧ bytes_ok suf' ∧ bytes_ok a ∧
    r = rd ((pre ++ le_bytes 4 (zlen a)) ++ a) suf' ∧ u32_ok (zlen a).
Proof.
  intros Hs H. unfold r_lp_bytes in H. bind_inv. destruct x as [n r'].
  apply r_u32_inv in H0 as (suf1 & -> & Hs1 & -> & Hn); [|done].
  apply r_take_inv in H as (suf2 & -> & <- & ->); [|word_lia].
  apply Forall_app in Hs1 as [Ha Hs2]. eauto 10.
Qed.

Lemma r_u16_no_panic r : no_panic (r_u16 r).
Proof. unfold r_u16. no_panic_tac. Qed.
Lemma r_u32_no_panic r : no_panic (r_u32 r).
Proof. unfold r_u32. no_panic_tac. Qed.
Lemma r_u64_no_panic r : no_panic (r_u64 r).
Proof. unfold r_u64. no_panic_tac. Qed.
Lemma r_i64_no_panic r : no_panic (r_i64 r).
Proof. unfold r_i64. no_panic_tac. Qed.
#[export] Hint Resolve r_u8_no_panic r_u16_no_panic r_u32_no_panic
  r_u64_no_panic r_i64_no_panic : outcome.
Lemma r_lp_bytes_no_panic r : no_panic (r_lp_bytes r).
Proof. unfold r_lp_bytes. no_panic_tac. Qed.
#[export] Hint Resolve r_lp_bytes_no_panic : outcome.
Lemma check_count_no_panic r n m : no_panic (check_count r n m).
Proof. apply no_panic_fail_if. Qed.
#[export] Hint Resolve check_count_no_panic : outcome.

Lemma check_count_rd pre suf n m :
  check_count (rd pre suf) n m = Ok tt ↔ n <= zlen suf / Z.max m 1.
Proof.
  unfold check_count. rewrite fail_if_ok, remaining_rd, Z.ltb_ge. done.
Qed.

(** Take a well-formed reader apart after a successful read. *)
Ltac read_inv :=
  repeat match goal with
  | H : (_ ≫= _) = Ok _ |- _ => apply bind_ok in H; destruct H as (? & ? & H)
  | H : fail_if _ _ = Ok ?u |- _ => destruct u; apply fail_if_ok in H
  | x : (_ * Reader)%type |- _ => destruct x
  | H : r_u8 (rd _ _) = Ok _ |- _ =>
      apply r_u8_inv in H as (? & ? & ? & ? & ?); [|done]; subst
  | H : r_u16 (rd _ _) = Ok _ |- _ =>
      apply r_u16_inv in H as (? & ? & ? & ? & ?); [|done]; subst
  | H : r_u32 (rd _ _) = Ok _ |- _ =>
      apply r_u32_inv in H as (? & ? & ? & ? & ?); [|done]; subst
  | H : r_u64 (rd _ _) = Ok _ |- _ =>
      apply r_u64_inv in H as (? & ? & ? & ? & ?); [|done]; subst
  | H : r_i64 (rd _ _) = Ok _ |- _ =>
      apply r_i64_inv in H as (? & ? & ? & ? & ?); [|done]; subst
  | H : r_lp_bytes (rd _ _) = Ok _ |- _ =>
      apply r_lp_bytes_inv in H as (? & ? & ? & ? & ? & ?); [|done]; subst
  | Hn : u32_ok ?n, H : r_take ?n (rd _ ?suf) = Ok _, Hs : bytes_ok ?suf |- _ =>
      let Ha := fresh in
      apply r_take_inv in H as (? & ? & Ha & ?); [|exact (proj1 Hn)]; subst;
      apply Forall_app in Hs as [? ?]
  end.

(** ** Round trip and soundness *)

Definition header_ok (h : SnapshotHeader) : Prop :=
  sh_version h = SNAPSHOT_VERSION ∧ u16_ok (sh_algorithm_id h) ∧
  hash_spec_ok (sh_hash h) ∧
  u64_ok (sh_window_start_nanos h) ∧ u64_ok (sh_window_end_nanos h).

(** The checksum trailer that closes an [FSK1] (or [FSKB]) buffer. *)
Definition seal (body : list Z) : list Z := body ++ le_bytes 8 (hash64 body 0).

Lemma write_snapshot_seal h p pl : write_snapshot h p pl = seal (snapshot_body h p pl).
Proof. done. Qed.

Lemma snapshot_body_eq h p pl :
  u32_ok (zlen p) → u32_ok (zlen pl) →
  snapshot_body h p pl =
    MAGIC ++ le_bytes 2 (sh_version h) ++ le_bytes 2 (sh_algorithm_id h) ++
    hash_family_id (family (sh_hash h)) ::
    le_bytes 8 (seed (sh_hash h)) ++ le_bytes 2 (version (sh_hash h)) ++
    le_bytes 8 (sh_window_start_nanos h) ++ le_bytes 8 (sh_window_end_nanos h) ++
    le_bytes 4 (zlen p) ++ p ++ le_bytes 4 (zlen pl) ++ pl.
Proof.
  intros Hp Hpl.
  unfold snapshot_body, w_bytes, w_u16, w_u64, w_u32, w_u8, Writer_new, as_u32.
  rewrite !Z.mod_small by word_lia.
  destruct h as [? ? [[] ? ?] ? ?]. cbn [app family hash_family_id sh_hash].
  by rewrite <- !app_assoc.
Qed.

Lemma take_seal body : take (length (seal body) - 8) (seal body) = body.
Proof.
  unfold seal. rewrite length_app, length_le_bytes.
  replace (length body + 8 - 8)%nat with (length body) by lia.
  apply take_app_length.
Qed.

Lemma drop_seal body :
  drop (length (seal body) - 8) (seal body) = le_bytes 8 (hash64 body 0).
Proof.
  unfold seal. rewrite length_app, length_le_bytes.
  replace (length body + 8 - 8)%nat with (length body) by lia.
  apply drop_app_length.
Qed.

Lemma seal_checksum body : le_val (le_bytes 8 (hash64 body 0)) = hash64 body 0.
Proof. apply le_val_le_bytes_id, hash64_u64. Qed.

(** Any buffer of at least eight bytes whose checksum verifies is a [seal]. *)
Lemma seal_of_checksum b :
  bytes_ok b → 8 <= zlen b →
  hash64 (take (length b - 8) b) 0 = le_val (drop (length b - 8) b) →
  b = seal (take (length b - 8) b).
Proof.
  intros Hb Hlen H. unfold seal. rewrite H. unfold zlen in Hlen.
  rewrite le_bytes_le_val; [by rewrite take_drop|by apply Forall_drop|].
  rewrite length_drop. lia.
Qed.

Lemma zlen_seal body : zlen (seal body) = zlen body + 8.
Proof. unfold seal, zlen. rewrite length_app, length_le_bytes. lia. Qed.

Lemma zlen_le_bytes n v : zlen (le_bytes n v) = Z.of_nat n.
Proof. unfold zlen. by rewrite length_le_bytes. Qed.

Lemma zlen_snapshot_body h p pl :
  u32_ok (zlen p) → u32_ok (zlen pl) →
  zlen (snapshot_body h p pl) = 43 + zlen p + zlen pl.
Proof.
  intros Hp Hpl. rewrite snapshot_body_eq by done.
  rewrite !zlen_app, zlen_cons, !zlen_app, !zlen_le_bytes.
  change (zlen MAGIC) with 4. lia.
Qed.

(** Reading a sealed snapshot gives back what was written, whatever follows the
    payload inside the checksummed body. *)
Lemma read_sealed_snapshot h p pl trailing :
  header_ok h → u32_ok (zlen p) → u32_ok (zlen pl) →
  read_snapshot (seal (snapshot_body h p pl ++ trailing)) = Ok (h, p, pl).
Proof.
  intros (Hv & Ha & (Hs & Hhv) & Hws & Hwe) Hp Hpl. unfold read_snapshot.
  rewrite zlen_seal, zlen_app, zlen_snapshot_body by done.
  pose proof (zlen_nonneg p). pose proof (zlen_nonneg pl).
  pose proof (zlen_nonneg trailing).
  rewrite (proj2 (Z.ltb_ge _ _)) by lia. ostep.
  rewrite take_seal, drop_seal, seal_checksum, Z.eqb_refl. ostep.
  rewrite snapshot_body_eq by done. rewrite Reader_new_rd, <- !app_assoc.
  destruct h as [ver aid [fam sd hv] ws we].
  cbn [sh_version sh_algorithm_id sh_hash family seed version
    sh_window_start_nanos sh_window_end_nanos] in *. subst ver. destruct fam.
  rewrite r_take_rd by done. ostep. rewrite bool_decide_true by done. ostep.
  repeat (rewrite ?app_comm_cons, <- ?app_assoc; first
    [rewrite r_u16_rd by done|rewrite r_u64_rd by done|rewrite r_u32_rd by done
    |rewrite <- app_comm_cons, r_u8_rd by done|rewrite r_take_rd by done]; ostep).
  done.
Qed.

Lemma snapshot_body_head h p pl :
  ∃ rest, snapshot_body h p pl =
    MAGIC ++ le_bytes 2 (sh_version h) ++ le_bytes 2 (sh_algorithm_id h) ++
    hash_family_id (family (sh_hash h)) ::
    le_bytes 8 (seed (sh_hash h)) ++ le_bytes 2 (version (sh_hash h)) ++
    le_bytes 8 (sh_window_start_nanos h) ++ le_bytes 8 (sh_window_end_nanos h) ++ rest.
Proof.
  eexists. unfold snapshot_body, w_bytes, w_u16, w_u64, w_u32, w_u8, Writer_new.
  destruct h as [? ? [[] ? ?] ? ?]. cbn [app family hash_family_id sh_hash].
  by rewrite <- !app_assoc.
Qed.

(** The header is read back whatever the sizes of the blocks. *)
Lemma written_header h p pl h' p' pl' :
  header_ok h → read_snapshot (write_snapshot h p pl) = Ok (h', p', pl') → h' = h.
Proof.
  intros (Hv & Ha & (Hs & Hhv) & Hws & Hwe) H. rewrite write_snapshot_seal in H.
  unfold read_snapshot in H. apply bind_ok in H as ([] & _ & H).
  rewrite take_seal, drop_seal, seal_checksum, Z.eqb_refl in H. revert H. ostep.
  destruct (snapshot_body_head h p pl) as [rest ->]. rewrite Reader_new_rd.
  destruct h as [ver aid [fam sd hv] ws we].
  cbn [sh_version sh_algorithm_id sh_hash family seed version
    sh_window_start_nanos sh_window_end_nanos] in *. subst ver. destruct fam.
  rewrite r_take_rd by done. ostep. rewrite bool_decide_true by done. ostep.
  repeat (rewrite ?app_comm_cons, <- ?app_assoc; first
    [rewrite r_u16_rd by done|rewrite r_u64_rd by done
    |rewrite <- app_comm_cons, r_u8_rd by done]; ostep).
  intros H. do 2 (apply bind_ok in H as ([] & _ & H)).
  repeat (apply bind_ok in H as ([? ?] & _ & H)). apply ok_inj in H. congruence.
Qed.

Lemma read_write_snapshot h params payload :
  header_ok h → u32_ok (zlen params) → u32_ok (zlen payload) →
  read_snapshot (write_snapshot h params payload) = Ok (h, params, payload).
Proof.
  intros. rewrite write_snapshot_seal, <- (app_nil_r (snapshot_body _ _ _)).
  by apply read_sealed_snapshot.
Qed.

(** Round trip of the snapshot format: for every header whose fields are in
    range and every parameter and payload block below 4 GiB, [read_snapshot]
    of [write_snapshot] returns exactly the header, the parameters and the
    payload that were written. *)
Lemma snapshot_round_trip h params payload :
  header_ok h → u32_ok (zlen params) → u32_ok (zlen payload) →
  read_snapshot (write_snapshot h params payload) = Ok (h, params, payload).
Proof. apply read_write_snapshot. Qed.

Definition sample_header : SnapshotHeader :=
  {| sh_version := 2; sh_algorithm_id := COUNT_MIN; sh_hash := HashSpec_new 99;
     sh_window_start_nanos := 1000; sh_window_end_nanos := 61000 |}.

Lemma sample_header_ok : header_ok sample_header.
Proof. unfold header_ok, hash_spec_ok, u64_ok, u16_ok. by range_tac. Qed.

Lemma snapshot_round_trip_witness :
  read_snapshot (write_snapshot sample_header [1; 2; 3] [9; 9]) =
    Ok (sample_header, [1; 2; 3], [9; 9]).
Proof.
  apply (snapshot_round_trip sample_header [1; 2; 3] [9; 9]);
    [apply sample_header_ok|vm_compute; by split|vm_compute; by split].
Defined.

(** The form of an accepted buffer. *)
Lemma accepted_form b h params payload :
  bytes_ok b → read_snapshot b = Ok (h, params, payload) →
  ∃ trailing, b = seal (snapshot_body h params payload ++ trailing) ∧
    header_ok h ∧ bytes_ok params ∧ bytes_ok payload ∧
    u32_ok (zlen params) ∧ u32_ok (zlen payload).
Proof.
  intros Hb H. unfold read_snapshot in H.
  apply bind_ok in H as ([] & Hl%fail_if_ok%Z.ltb_ge & H).
  apply bind_ok in H as ([] & Hc%fail_if_ok%negb_false_iff%Z.eqb_eq & H).
  rewrite (seal_of_checksum b Hb ltac:(lia) Hc).
  assert (bytes_ok (take (length b - 8) b)) as Hbody by by apply Forall_take.
  revert H Hbody. generalize (take (length b - 8) b). clear Hc Hl Hb.
  intros body H Hbody. rewrite Reader_new_rd in H.
  apply bind_ok in H as ([magic r] & Hm & H).
  apply r_take_inv in Hm as (body' & -> & _ & ->); [|lia].
  apply Forall_app in Hbody as [_ Hbody]. read_inv.
  repeat match goal with
  | H : negb (bool_decide _) = false |- _ =>
      apply negb_false_iff, bool_decide_eq_true in H
  | H : negb (_ =? _) = false |- _ => apply negb_false_iff, Z.eqb_eq in H
  | H : (if ?b then Ok _ else Err _) = Ok _ |- _ =>
      destruct b eqn:?; [|done]; injection H as <-
  | H : (_ =? 0) = true |- _ => apply Z.eqb_eq in H
  end.
  match goal with
  | H : Ok (_, _, ?pl) = Ok _ |- context [le_bytes 4 (zlen ?pl) ++ ?pl ++ ?t] =>
      injection H as <- <- <-; exists t
  end. subst.
  rewrite snapshot_body_eq by done. cbn [sh_version sh_algorithm_id sh_hash family
    seed version sh_window_start_nanos sh_window_end_nanos hash_family_id].
  split; [f_equal; rewrite <- ?app_assoc, <- ?app_comm_cons, <- ?app_assoc; done|].
  split; [|done]. unfold header_ok, hash_spec_ok. simpl. done.
Qed.

(** Soundness of the parser on untrusted bytes: whatever byte string
    [read_snapshot] accepts is the encoding of the header, parameters and
    payload it returns, followed by ignored body bytes and the checksum of all
    of it; the header it returns has the supported version and in-range
    fields. *)
Lemma read_snapshot_sound b h params payload :
  bytes_ok b → read_snapshot b = Ok (h, params, payload) →
  ∃ trailing, b = seal (snapshot_body h params payload ++ trailing) ∧
    header_ok h ∧ bytes_ok params ∧ bytes_ok payload.
Proof.
  intros Hb H. destruct (accepted_form b h params payload Hb H) as (t & ? & ? & ? & ? & _).
  eauto.
Qed.

Lemma read_snapshot_sound_witness :
  ∃ trailing, write_snapshot sample_header [1; 2; 3] [9; 9] =
      seal (snapshot_body sample_header [1; 2; 3] [9; 9] ++ trailing) ∧
    header_ok sample_header ∧ bytes_ok [1; 2; 3] ∧ bytes_ok [9; 9].
Proof.
  apply (read_snapshot_sound (write_snapshot sample_header [1; 2; 3] [9; 9])).
  - apply (bool_decide_unpack _). vm_compute. exact I.
  - vm_compute. reflexivity.
Defined.

(** Follow the reads of a parser, keeping the reader in [rd] form. *)
Ltac no_panic_read :=
  repeat match goal with
  | |- no_panic (Ok _) => apply no_panic_ok
  | |- no_panic (Err _) => apply no_panic_err
  | |- no_panic (fail_if _ _) => apply no_panic_fail_if
  | |- no_panic (if ?b then _ else _) => destruct b eqn:?
  | |- no_panic (_ ≫= _) =>
      apply bind_no_panic; [auto with outcome|intros ? ?; read_inv; cbv beta iota]
  end; auto with outcome.

Lemma parse_no_panic b : bytes_ok b → no_panic (read_snapshot b).
Proof.
  intros Hb. unfold read_snapshot.
  assert (bytes_ok (take (length b - 8) b)) as Hbody by by apply Forall_take.
  apply bind_no_panic; [auto with outcome|intros _ _].
  apply bind_no_panic; [auto with outcome|intros _ _].
  rewrite Reader_new_rd.
  apply bind_no_panic; [auto with outcome|]. intros [magic r] Hm.
  apply r_take_inv in Hm as (body' & Heq & _ & ->); [|lia]. rewrite Heq in Hbody.
  apply Forall_app in Hbody as [_ Hbody]. change (Forall u8_ok) with bytes_ok in Hbody.
  no_panic_read.
Qed.

(** Parsing an untrusted snapshot never panics: every byte string is either
    accepted or answered with an error. *)
Lemma read_snapshot_no_panic b : bytes_ok b → no_panic (read_snapshot b).
Proof. apply parse_no_panic. Qed.

Lemma read_snapshot_no_panic_witness : no_panic (read_snapshot [70; 83; 75; 49]).
Proof.
  apply (read_snapshot_no_panic [70; 83; 75; 49]).
  apply (bool_decide_unpack _). vm_compute. exact I.
Defined.

(** ** Sequences of fields *)

(** The bytes a loop of writes appends. *)
Definition encode_all {A} (enc : A → list Z) (xs : list A) : list Z :=
  concat (enc <$> xs).

Lemma encode_all_cons {A} (enc : A → list Z) x xs :
  encode_all enc (x :: xs) = enc x ++ encode_all enc xs.
Proof. done. Qed.

Lemma foldl_write {A} (wr : Writer → A → Writer) (enc : A → list Z) (xs : list A) w :
  (∀ w x, wr w x = w ++ enc x) → foldl wr w xs = w ++ encode_all enc xs.
Proof.
  intros He. revert w. induction xs as [|x xs IH]; intros w; simpl.
  - by rewrite app_nil_r.
  - rewrite He, IH, encode_all_cons. by rewrite <- app_assoc.
Qed.

Lemma zlen_encode_all {A} (enc : A → list Z) n xs :
  (∀ x, x ∈ xs → zlen (enc x) = n) → zlen (encode_all enc xs) = n * zlen xs.
Proof.
  induction xs as [|x xs IH]; intros H; [unfold zlen; simpl; lia|].
  rewrite encode_all_cons, zlen_app, zlen_cons, IH by set_solver.
  rewrite (H x) by set_solver. lia.
Qed.

Lemma read_n_rd {A} (f : Reader → res (A * Reader)) (enc : A → list Z) xs pre suf :
  (∀ x pre suf, x ∈ xs → f (rd pre (enc x ++ suf)) = Ok (x, rd (pre ++ enc x) suf)) →
  read_n (length xs) f (rd pre (encode_all enc xs ++ suf)) =
    Ok (xs, rd (pre ++ encode_all enc xs) suf).
Proof.
  revert pre. induction xs as [|x xs IH]; intros pre H.
  - cbn. by rewrite app_nil_r.
  - rewrite encode_all_cons, <- app_assoc. cbn [length read_n].
    rewrite H by set_solver. ostep. rewrite IH by set_solver. ostep.
    by rewrite app_assoc.
Qed.

(** What a loop of reads of one kind of field yields. *)
Lemma read_n_inv {A} (f : Reader → res (A * Reader)) (enc : A → list Z) (P : A → Prop)
    n pre suf xs r :
  (∀ pre suf x r, bytes_ok suf → f (rd pre suf) = Ok (x, r) →
    ∃ suf', suf = enc x ++ suf' ∧ bytes_ok suf' ∧ r = rd (pre ++ enc x) suf' ∧ P x) →
  bytes_ok suf → read_n n f (rd pre suf) = Ok (xs, r) →
  ∃ suf', suf = encode_all enc xs ++ suf' ∧ bytes_ok suf' ∧
    r = rd (pre ++ encode_all enc xs) suf' ∧ length xs = n ∧ Forall P xs.
Proof.
  intros Hf. revert pre suf xs r. induction n as [|n IH]; intros pre suf xs r Hs H.
  - injection H as <- <-. exists suf. cbn. rewrite app_nil_r. done.
  - cbn [read_n] in H. apply bind_ok in H as ([x r1] & Hx & H).
    apply Hf in Hx as (suf1 & -> & Hs1 & -> & HP); [|done].
    apply bind_ok in H as ([ys r2] & Hys & H). injection H as <- <-.
    apply IH in Hys as (suf2 & -> & Hs2 & -> & Hl & HPs); [|done].
    exists suf2. rewrite encode_all_cons, <- !app_assoc. simpl.
    split_and!; auto.
Qed.

Lemma read_n_no_panic {A} (f : Reader → res (A * Reader)) n pre suf :
  (∀ pre suf, bytes_ok suf → no_panic (f (rd pre suf))) →
  (∀ pre suf x r, bytes_ok suf → f (rd pre suf) = Ok (x, r) →
    ∃ pre' suf', r = rd pre' suf' ∧ bytes_ok suf') →
  bytes_ok suf → no_panic (read_n n f (rd pre suf)).
Proof.
  intros Hp Hf. revert pre suf. induction n as [|n IH]; intros pre suf Hs; [done|].
  cbn [read_n]. apply bind_no_panic; [by apply Hp|]. intros [x r] Hx.
  apply Hf in Hx as (pre' & suf' & -> & Hs'); [|done].
  apply bind_no_panic; [by apply IH|]. intros [ys r] _. done.
Qed.

Lemma read_u64s_rd xs pre suf :
  Forall u64_ok xs →
  read_n (length xs) r_u64 (rd pre (encode_all (le_bytes 8) xs ++ suf)) =
    Ok (xs, rd (pre ++ encode_all (le_bytes 8) xs) suf).
Proof.
  intros H. apply read_n_rd. intros x p q Hx. apply r_u64_rd.
  rewrite Forall_forall in H. auto.
Qed.

Lemma read_u64s_inv n pre suf xs r :
  bytes_ok suf → read_n n r_u64 (rd pre suf) = Ok (xs, r) →
  ∃ suf', suf = encode_all (le_bytes 8) xs ++ suf' ∧ bytes_ok suf' ∧
    r = rd (pre ++ encode_all (le_bytes 8) xs) suf' ∧ length xs = n ∧ Forall u64_ok xs.
Proof. apply read_n_inv. intros. by apply r_u64_inv. Qed.

Lemma read_u64s_no_panic n pre suf :
  bytes_ok suf → no_panic (read_n n r_u64 (rd pre suf)).
Proof.
  apply read_n_no_panic; [auto with outcome|]. intros p q x r Hq H.
  apply r_u64_inv in H as (q' & -> & ? & -> & _); eauto.
Qed.

(** The same for signed fields. *)
Abbreviation i64_bytes := (λ v, le_bytes 8 (wrap64 v)).

Lemma read_i64s_rd xs pre suf :
  Forall i64_ok xs →
  read_n (length xs) r_i64 (rd pre (encode_all i64_bytes xs ++ suf)) =
    Ok (xs, rd (pre ++ encode_all i64_bytes xs) suf).
Proof.
  intros H. apply (read_n_rd r_i64 i64_bytes). intros x p q Hx. apply r_i64_rd.
  rewrite Forall_forall in H. auto.
Qed.

Lemma read_i64s_inv n pre suf xs r :
  bytes_ok suf → read_n n r_i64 (rd pre suf) = Ok (xs, r) →
  ∃ suf', suf = encode_all i64_bytes xs ++ suf' ∧ bytes_ok suf' ∧
    r = rd (pre ++ encode_all i64_bytes xs) suf' ∧ length xs = n ∧ Forall i64_ok xs.
Proof. apply (read_n_inv r_i64 i64_bytes). intros. by apply r_i64_inv. Qed.

Lemma read_i64s_no_panic n pre suf :
  bytes_ok suf → no_panic (read_n n r_i64 (rd pre suf)).
Proof.
  apply read_n_no_panic; [auto with outcome|]. intros p q x r Hq H.
  apply r_i64_inv in H as (q' & -> & ? & -> & _); eauto.
Qed.

(** An accepted buffer is longer than its parts. *)
Lemma accepted_parts b h params payload :
  bytes_ok b → read_snapshot b = Ok (h, params, payload) →
  header_ok h ∧ bytes_ok params ∧ bytes_ok payload ∧
  zlen params + zlen payload <= zlen b.
Proof.
  intros Hb H.
  destruct (accepted_form b h params payload Hb H) as (tl & -> & Hh & Hp & Hpl & Hlp & Hlpl).
  split_and!; try done. rewrite zlen_seal, zlen_app, zlen_snapshot_body by done.
  pose proof (zlen_nonneg tl). lia.
Qed.

(** A loop of reads keeps a property of readers and establishes one of values. *)
Lemma read_n_preserve {A} (f : Reader → res (A * Reader)) (R : Reader → Prop) (P : A → Prop)
    n r xs r' :
  (∀ r x r', R r → f r = Ok (x, r') → R r' ∧ P x) →
  R r → read_n n f r = Ok (xs, r') → R r' ∧ Forall P xs ∧ length xs = n.
Proof.
  intros Hf. revert r xs. induction n as [|n IH]; intros r xs Hr H.
  - by injection H as <- <-.
  - cbn [read_n] in H. apply bind_ok in H as ([x r1] & Hx & H).
    apply bind_ok in H as ([ys r2] & Hys & H). injection H as <- <-.
    destruct (Hf _ _ _ Hr Hx) as [Hr1 Hp]. destruct (IH _ _ Hr1 Hys) as (H1 & H2 & H3).
    split; [done|]. split; [by constructor|cbn; by rewrite H3].
Qed.
