(* ===== verification/F64.v ===== *)
(** * Binary64 arithmetic

    Rust's [f64] operators are the correctly rounded IEEE 754 operations, which
    the standard library's [SpecFloat] defines without axioms; [f64] is its
    [spec_float] at precision 53 and maximal exponent 1024.  Decimal literals
    are quotients of two exactly representable integers, so the division rounds
    them like the compiler does. *)
From Stdlib Require Export Floats.SpecFloat.
From S2P Require Import Prelude Bytes.

Definition f64 := spec_float.

(** [x as f64] *)
Definition f64_of_Z (x : Z) : f64 := binary_normalize 53 1024 x 0 false.
Definition f_add : f64 → f64 → f64 := SFadd 53 1024.
Definition f_sub : f64 → f64 → f64 := SFsub 53 1024.
Definition f_mul : f64 → f64 → f64 := SFmul 53 1024.
Definition f_div : f64 → f64 → f64 := SFdiv 53 1024.
Definition f_sqrt : f64 → f64 := SFsqrt 53 1024.
Definition f_neg : f64 → f64 := SFopp.
Definition f_abs : f64 → f64 := SFabs.
Definition f_eqb : f64 → f64 → bool := SFeqb.
Definition f_ltb : f64 → f64 → bool := SFltb.
Definition f_leb : f64 → f64 → bool := SFleb.

Definition f_zero : f64 := S754_zero false.
Definition f_one : f64 := f64_of_Z 1.
Definition f_infinity : f64 := S754_infinity false.

(** The literal [n/d]. *)
Definition f_lit (n d : Z) : f64 := f_div (f64_of_Z n) (f64_of_Z d).

(** [a.max(b)], [a.min(b)]: a NaN operand is ignored. *)
Definition f_is_nan (x : f64) : bool :=
  match x with S754_nan => true | _ => false end.
Definition f_max (a b : f64) : f64 :=
  if f_is_nan a then b else if f_is_nan b then a
  else if f_ltb a b then b else a.
Definition f_min (a b : f64) : f64 :=
  if f_is_nan a then b else if f_is_nan b then a
  else if f_ltb b a then b else a.

(** The integer part, towards zero, of a finite float, and [x.ceil()] as an
    integer; [None] on infinities and NaN. *)
Definition f_trunc_Z (x : f64) : option Z :=
  match x with
  | S754_zero _ => Some 0
  | S754_finite s m e =>
      let a := if 0 <=? e then Z.shiftl (Zpos m) e else Z.shiftr (Zpos m) (- e) in
      Some (if s then - a else a)
  | _ => None
  end.
Definition f_is_integral (x : f64) : bool :=
  match x with
  | S754_zero _ => true
  | S754_finite _ m e =>
      (0 <=? e) || (Zpos m mod 2 ^ (- e) =? 0)
  | _ => false
  end.
Definition f_ceil_Z (x : f64) : option Z :=
  t ← f_trunc_Z x;
  Some (if f_is_integral x then t
        else match x with S754_finite false _ _ => t + 1 | _ => t end).

(** [x.ceil() as usize]: saturating, NaN to 0. *)
Definition f_ceil_as_u64 (x : f64) : Z :=
  match f_ceil_Z x with
  | Some z => Z.min u64_max (Z.max 0 z)
  | None => match x with S754_infinity false => u64_max | _ => 0 end
  end.
(** [x as u64], [x as i64]: truncating, saturating, NaN to 0. *)
Definition f_as_u64 (x : f64) : Z :=
  match f_trunc_Z x with
  | Some z => Z.min u64_max (Z.max 0 z)
  | None => match x with S754_infinity false => u64_max | _ => 0 end
  end.

(** [x.to_bits()] on the canonical floats the operations return. *)
Definition f_to_bits (x : f64) : Z :=
  let sgn (s : bool) := if s then i64_half else 0 in
  match x with
  | S754_zero s => sgn s
  | S754_infinity s => sgn s + Z.shiftl 2047 52
  | S754_nan => Z.shiftl 2047 52 + Z.shiftl 1 51
  | S754_finite s m e =>
      sgn s + (if Z.log2 (Zpos m) =? 52 then Z.shiftl (e + 1075) 52 + (Zpos m - 2 ^ 52)
               else Zpos m)
  end.

(** [a.total_cmp(&b)]: the sign-magnitude bit patterns as signed integers, the
    magnitude bits of negative ones flipped. *)
Definition f_total_key (x : f64) : Z :=
  let b := f_to_bits x in
  if b <? i64_half then b else - (b - i64_half) - 1.
Definition f_total_cmp (a b : f64) : comparison := f_total_key a ?= f_total_key b.

#[export] Instance f_total_cmp_ord : CmpOrd f_total_cmp.
Proof. unfold f_total_cmp. apply (cmp_on f_total_key Z.compare). Qed.

(** [a.partial_cmp(&b).unwrap_or(Equal)] *)
Definition f_partial_cmp_or_eq (a b : f64) : comparison :=
  default Eq (SFcompare a b).

Example f_lit_test : f_lit 104 100 = S754_finite false 4683743612465316 (-52).
Proof. vm_compute. reflexivity. Qed.
Example f_ceil_test : f_ceil_as_u64 (f_lit 5 2) = 3.
Proof. vm_compute. reflexivity. Qed.

(** [x.ceil() as i64]: saturating, NaN to 0. *)
Definition f_ceil_as_i64 (x : f64) : Z :=
  match f_ceil_Z x with
  | Some z => Z.max (- i64_half) (Z.min (i64_half - 1) z)
  | None => match x with
            | S754_infinity false => i64_half - 1
            | S754_infinity true => - i64_half
            | _ => 0
            end
  end.
(** [x.powi(2)] *)
Definition f_sq (x : f64) : f64 := f_mul x x.

(** ** Order *)

Lemma f_leb_trans a b c : f_leb a b = true → f_leb b c = true → f_leb a c = true.
Proof.
  unfold f_leb, SFleb, SFcompare.
  destruct a as [|[]| |[] ma ea], b as [|[]| |[] mb eb], c as [|[]| |[] mc ec]; try done;
    destruct (Z.compare_spec ea eb), (Z.compare_spec eb ec), (Z.compare_spec ea ec); try done; try lia;
    subst; rewrite <- ?Pos.compare_cont_spec;
    change (Pos.compare_cont Eq) with Pos.compare in *;
    destruct (Pos.compare_spec ma mb), (Pos.compare_spec mb mc), (Pos.compare_spec ma mc); try done; lia.
Qed.
Lemma f_compare_or_eq_total a b : f_partial_cmp_or_eq a b ≠ Gt ∨ f_partial_cmp_or_eq b a ≠ Gt.
Proof.
  unfold f_partial_cmp_or_eq, SFcompare. destruct a as [|[]| |[] ma ea], b as [|[]| |[] mb eb]; cbn; try (by left); try (by right);
  rewrite (Z.compare_antisym eb ea); destruct (Z.compare_spec eb ea); cbn; try (by left); try (by right);
    change (Pos.compare_cont Eq) with Pos.compare in *; rewrite (Pos.compare_antisym mb ma); destruct (Pos.compare mb ma); cbn; try (by left); try (by right).
Qed.
