(* ===== verification/Table.v ===== *)
(** * Row-major tables of counters

    What Count-Min and CountSketch share: the cell a key hits in each row, the
    loop over the rows, the cell-wise merge and the (de)serialization of a
    table of counters. *)
From S2P Require Import Prelude Bytes Hash Sketch Snapshot.

Definition rows (depth : Z) : list Z := seqZ 0 depth.

(** [row * self.width + rh.index(row, self.width)] *)
Definition cell (width : Z) (rh : RowHashes) (row : Z) : Z :=
  row * width + index rh row width.

(** Update each cell of [xs] with the cell of [ys] at the same index. *)
Fixpoint zip_update (f : Z → Z → Z) (xs ys : list Z) : list Z :=
  match xs, ys with
  | x :: xs, y :: ys => f x y :: zip_update f xs ys
  | xs, _ => xs
  end.

(** [a.checked_mul(b)] on [usize] *)
Definition checked_mul (a b : Z) : option Z :=
  if a * b <? u64_mod then Some (a * b) else None.

Lemma length_zip_update f xs ys : length (zip_update f xs ys) = length xs.
Proof. revert ys. induction xs; intros []; simpl; auto. Qed.

Lemma lookup_zip_update f xs ys i :
  zip_update f xs ys !! i =
    x ← xs !! i; Some (match ys !! i with Some y => f x y | None => x end).
Proof.
  revert ys i. induction xs as [|x xs IH]; intros [|y ys] [|i]; simpl; try done.
  by destruct (xs !! i).
Qed.

(** ** Coordinates *)

(** The counter at [row], [col]. *)
Definition at_cell (width : Z) (t : list Z) (row col : Z) : option Z :=
  t !! Z.to_nat (row * width + col).

Section coords.
Context (width depth : Z) (Hw : 0 < width).
Implicit Types (t : list Z) (rh : RowHashes).

Lemma elem_of_rows row : row ∈ rows depth ↔ 0 <= row < depth.
Proof. unfold rows. rewrite elem_of_seqZ. lia. Qed.

Lemma coord_bound row col :
  0 <= row < depth → 0 <= col < width → 0 <= row * width + col < width * depth.
Proof using All. nia. Qed.

Lemma coord_inj row col row' col' :
  0 <= col < width → 0 <= col' < width →
  row * width + col = row' * width + col' → row = row' ∧ col = col'.
Proof using All.
  intros ? ? He. destruct (Z.lt_trichotomy row row') as [|[->|]]; [nia|lia|nia].
Qed.

Lemma cell_bound rh row : 0 <= row < depth → 0 <= cell width rh row < width * depth.
Proof using All. intros. apply coord_bound; [done|by apply index_range]. Qed.

Lemma at_cell_is_Some t row col :
  zlen t = width * depth → 0 <= row < depth → 0 <= col < width →
  ∃ c, at_cell width t row col = Some c.
Proof using All.
  intros Ht Hr Hc. apply lookup_lt_is_Some_2. unfold zlen in Ht.
  pose proof (coord_bound row col Hr Hc). lia.
Qed.

(** Every index of the table is a coordinate. *)
Lemma index_coord t i c :
  zlen t = width * depth → t !! i = Some c →
  ∃ row col, 0 <= row < depth ∧ 0 <= col < width ∧
    at_cell width t row col = Some c ∧ Z.of_nat i = row * width + col.
Proof using All.
  intros Ht Hi. pose proof (lookup_lt_Some _ _ _ Hi) as Hlt. unfold zlen in Ht.
  exists (Z.of_nat i / width), (Z.of_nat i mod width).
  assert (Z.of_nat i / width * width + Z.of_nat i mod width = Z.of_nat i) as He.
  { rewrite (Z.mul_comm _ width). symmetry. by apply Z.div_mod; lia. }
  split_and!; try (apply Z.mod_pos_bound; lia).
  - apply Z.div_pos; lia.
  - apply Z.div_lt_upper_bound; lia.
  - unfold at_cell. by rewrite He, Nat2Z.id.
  - by rewrite He.
Qed.

Lemma table_ext t t' :
  zlen t = width * depth → length t' = length t →
  (∀ row col, 0 <= row < depth → 0 <= col < width →
    at_cell width t row col = at_cell width t' row col) → t = t'.
Proof using All.
  intros Ht Hl H. apply list_eq. intros i.
  destruct (t !! i) as [c|] eqn:Hi.
  - destruct (index_coord t i c) as (row & col & Hr & Hc & Ha & Hn); [done..|].
    rewrite H in Ha by done. unfold at_cell in Ha.
    rewrite <- Hn, Nat2Z.id in Ha. done.
  - apply lookup_ge_None in Hi. symmetry. apply lookup_ge_None. lia.
Qed.

(** The loop [for row in 0..depth] that rewrites one cell per row. *)
Lemma foldM_rows (step : list Z → Z → res (list Z)) (F : Z → Z → Z) rh t :
  zlen t = width * depth →
  (∀ t row c, row ∈ rows depth → at_cell width t row (index rh row width) = Some c →
    zlen t = width * depth →
    ∃ t', step t row = Ok t' ∧
      t' = <[Z.to_nat (cell width rh row) := F row c]> t) →
  ∃ t', foldM step t (rows depth) = Ok t' ∧ length t' = length t ∧
    ∀ row col, 0 <= row < depth → 0 <= col < width →
      at_cell width t' row col =
        (λ c, if decide (col = index rh row width) then F row c else c) <$>
          at_cell width t row col.
Proof using All.
  intros Ht Hstep.
  destruct (foldM_inv (λ done t', length t' = length t ∧
    ∀ row col, 0 <= row < depth → 0 <= col < width →
      at_cell width t' row col =
        (λ c, if decide (row ∈ done ∧ col = index rh row width) then F row c else c)
          <$> at_cell width t row col) step t (rows depth)) as (t' & Hf & Hl & Hc).
  - split; [done|]. intros row col Hr Hcol.
    destruct (at_cell_is_Some t row col) as [c ->]; [done..|]. ofmap.
    rewrite decide_False by set_solver. done.
  - intros ds row rest t1 Hsplit (Hl & Hc).
    assert (row ∈ rows depth) as Hrow by (rewrite Hsplit; set_solver).
    pose proof (proj1 (elem_of_rows row) Hrow) as Hr.
    assert (row ∉ ds) as Hnew.
    { pose proof (NoDup_seqZ 0 depth) as Hnd. unfold rows in Hsplit.
      rewrite Hsplit in Hnd. apply NoDup_app in Hnd as (_ & Hd & _).
      intros Hin. apply (Hd row); set_solver. }
    pose proof (index_range rh row width Hw) as Hidx.
    assert (zlen t1 = width * depth) as Ht1 by (unfold zlen in *; lia).
    destruct (at_cell_is_Some t row (index rh row width)) as [c Hct]; [done..|].
    assert (at_cell width t1 row (index rh row width) = Some c) as Hct1.
    { rewrite Hc, Hct by done. ofmap. rewrite decide_False by tauto. done. }
    destruct (Hstep t1 row c Hrow Hct1 Ht1) as (t2 & -> & ->).
    eexists. split; [done|]. split; [by rewrite length_insert|].
    intros row' col' Hr' Hc'. unfold at_cell at 1.
    destruct (decide (row' = row ∧ col' = index rh row width)) as [[-> ->]|Hne].
    + rewrite list_lookup_insert_eq.
      * rewrite Hct. ofmap. rewrite decide_True by set_solver. done.
      * apply lookup_lt_Some in Hct1. done.
    + rewrite list_lookup_insert_ne.
      * change (t1 !! _) with (at_cell width t1 row' col'). rewrite Hc by done.
        destruct (at_cell_is_Some t row' col') as [c' ->]; [done..|]. ofmap.
        f_equal. apply decide_ext.
        rewrite elem_of_app, list_elem_of_singleton. naive_solver.
      * unfold cell. intros He. apply Hne.
        pose proof (coord_bound row' col' Hr' Hc').
        pose proof (coord_bound row (index rh row width) Hr Hidx).
        apply Z2Nat.inj in He; [|lia..].
        by apply coord_inj in He as [-> ->].
  - exists t'. split_and!; [done|done|]. intros row col Hr Hcol.
    rewrite Hc by done. destruct (at_cell_is_Some t row col) as [c ->]; [done..|].
    ofmap. f_equal. apply decide_ext. rewrite elem_of_rows. tauto.
Qed.
End coords.

(** ** Reading one cell per row *)

(** The cells a key hits, in row order. *)
Definition row_cells (width depth : Z) (t : list Z) (rh : RowHashes) : list Z :=
  (λ row, default 0 (at_cell width t row (index rh row width))) <$> rows depth.

Section read_rows.
Context (width depth : Z) (Hw : 0 < width).

Lemma vec_get_cell t rh row :
  zlen t = width * depth → 0 <= row < depth →
  vec_get (E := SketchError) t (cell width rh row) =
    Ok (default 0 (at_cell width t row (index rh row width))).
Proof using All.
  intros Ht Hr. pose proof (cell_bound width depth Hw rh row Hr).
  destruct (at_cell_is_Some width depth Hw t row (index rh row width)) as [c Hc];
    [done..|by apply index_range|].
  rewrite Hc. apply vec_get_Some; [lia|done].
Qed.

Lemma foldM_read {A} (f : A → Z → Z → A) a t rh :
  zlen t = width * depth →
  foldM (λ a row, c ← vec_get (E := SketchError) t (cell width rh row);
                  Ok (f a row c)) a (rows depth) =
    Ok (foldl (λ a row, f a row (default 0 (at_cell width t row (index rh row width))))
          a (rows depth)).
Proof using All.
  intros Ht. apply foldM_Ok. intros a' row Hrow%elem_of_rows.
  by rewrite (vec_get_cell t rh row).
Qed.
End read_rows.

(** ** The mass of a cell

    The linear sketches keep, in each cell, the signed weight of the updates
    whose key hashes there. *)
Section mass.
Context (sgn : RowHashes → Z → Z) (hash : HashSpec) (width : Z).

Definition mass1 (p : bytes * Z) (row col : Z) : Z :=
  let rh := RowHashes_new hash p.1 in
  if decide (col = index rh row width) then sgn rh row * p.2 else 0.
Definition mass (l : list (bytes * Z)) (row col : Z) : Z :=
  foldr (λ p acc, mass1 p row col + acc) 0 l.

Lemma mass_app l m row col : mass (l ++ m) row col = mass l row col + mass m row col.
Proof. unfold mass. induction l; simpl; lia. Qed.
Lemma mass_snoc l p row col : mass (l ++ [p]) row col = mass l row col + mass1 p row col.
Proof. rewrite mass_app. simpl. lia. Qed.
Lemma mass_Permutation l m row col : l ≡ₚ m → mass l row col = mass m row col.
Proof. unfold mass. induction 1; simpl; lia. Qed.
End mass.

(** Unsigned mass: at least each colliding key's weight, at most the total. *)
Definition unsigned : RowHashes → Z → Z := λ _ _, 1.

Lemma unsigned_mass_bounds hash width l k row :
  weights_ok l →
  weight_of k l <=
    mass unsigned hash width l row (index (RowHashes_new hash k) row width)
    <= total_of l.
Proof.
  induction 1 as [|p l Hp _ IH]; [done|].
  change (mass _ _ _ (p :: l)) with
    (λ r c, mass1 unsigned hash width p r c + mass unsigned hash width l r c).
  cbn [weight_of total_of foldr]. fold (weight_of k l) (total_of l).
  revert IH. generalize (mass unsigned hash width l row) as m. intros m IH.
  unfold mass1, unsigned. destruct (decide (p.1 = k)) as [->|].
  - rewrite decide_True by done. word_lia.
  - case_decide; word_lia.
Qed.

Lemma unsigned_mass_le_total hash width l row col :
  weights_ok l → 0 <= mass unsigned hash width l row col <= total_of l.
Proof.
  induction 1 as [|p l Hp _ IH]; [done|].
  change (mass _ _ _ (p :: l)) with
    (λ r c, mass1 unsigned hash width p r c + mass unsigned hash width l r c).
  cbn [total_of foldr]. fold (total_of l). revert IH.
  generalize (mass unsigned hash width l row col) as m. intros m IH.
  unfold mass1, unsigned. case_decide; word_lia.
Qed.

(** ** Linear sketches see only frequencies *)
Section frequencies.
Context (sgn : RowHashes → Z → Z) (hash : HashSpec) (width : Z).
Implicit Types l m : list (bytes * Z).

(** One key's updates act like a single update with their sum. *)
Lemma mass_split k l row col :
  mass sgn hash width l row col =
    mass1 sgn hash width (k, weight_of k l) row col +
    mass sgn hash width (filter (λ p, p.1 ≠ k) l) row col.
Proof.
  induction l as [|p l IH].
  - cbn. unfold mass1. cbn. case_decide; lia.
  - cbn [weight_of foldr]. fold (weight_of k l).
    change (mass sgn hash width (p :: l) row col) with
      (mass1 sgn hash width p row col + mass sgn hash width l row col).
    rewrite IH. rewrite filter_cons. destruct (decide (p.1 = k)) as [<-|Hne].
    + rewrite decide_False by tauto. unfold mass1. cbn [fst snd]. case_decide; lia.
    + rewrite Z.add_0_l. rewrite decide_True by done.
      change (mass sgn hash width (p :: filter _ l) row col) with
        (mass1 sgn hash width p row col +
         mass sgn hash width (filter (λ q, q.1 ≠ k) l) row col). lia.
Qed.

Lemma weight_of_filter_ne k k' l :
  weight_of k (filter (λ p, p.1 ≠ k') l) = if decide (k = k') then 0 else weight_of k l.
Proof.
  induction l as [|p l IH]; [by case_decide|].
  rewrite filter_cons. cbn [weight_of foldr]. fold (weight_of k l).
  destruct (decide (p.1 = k')) as [E|E].
  - rewrite decide_False by tauto. rewrite IH.
    destruct (decide (k = k')); [done|]. rewrite decide_False by congruence. done.
  - rewrite decide_True by done. cbn [weight_of foldr].
    fold (weight_of k (filter (λ q, q.1 ≠ k') l)). rewrite IH.
    destruct (decide (k = k')); [|done]. rewrite decide_False by congruence. done.
Qed.

Lemma mass_frequencies l m row col :
  (∀ k, weight_of k l = weight_of k m) →
  mass sgn hash width l row col = mass sgn hash width m row col.
Proof.
  remember (length l + length m)%nat as n eqn:Hn. revert l m Hn.
  induction (lt_wf n) as [n _ IH]. intros l m -> H.
  assert (∀ k, (length (filter (λ p, p.1 ≠ k) l) + length (filter (λ p, p.1 ≠ k) m) <
    length l + length m)%nat → mass sgn hash width l row col = mass sgn hash width m row col)
    as Hk.
  { intros k Hlt. rewrite (mass_split k l), (mass_split k m), (H k). f_equal.
    apply (IH _ Hlt); [done|]. intros k'. rewrite !weight_of_filter_ne.
    case_decide; auto. }
  assert (∀ l k v, (length (filter (λ p : bytes * Z, p.1 ≠ k) ((k, v) :: l)) <
    length ((k, v) :: l))%nat) as Hlen.
  { intros l' k v. rewrite filter_cons, decide_False by tauto.
    pose proof (length_filter (λ p, p.1 ≠ k) l'). simpl. lia. }
  destruct l as [|[k v] l]; [destruct m as [|[k v] m]; [done|]|];
    apply (Hk k).
  - specialize (Hlen m k v). rewrite filter_nil. simpl length at 1. lia.
  - specialize (Hlen l k v). pose proof (length_filter (λ p, p.1 ≠ k) m). lia.
Qed.
End frequencies.
