(* ===== verification/CountMin.v ===== *)
(** * Count-Min sketch  (crates/flowsketch-algos/src/count_min.rs)

    A [depth] x [width] table of counters in row-major order.  An update adds
    the weight to one cell per row, or, in conservative mode, raises those
    cells only up to the new point estimate; the estimate of a key is the
    minimum over its cells.

    Proved: no history of updates and merges ever makes an estimate fall below
    the key's true weight or rise above the total; without conservative
    updates the sketch is a function of the multiset of updates alone, so a
    merged sketch is the single-stream sketch; snapshots round trip and
    untrusted ones are rejected or rebuilt well-formed. *)
From S2P Require Import Prelude Bytes Hash Sketch Snapshot F64 Table.

Definition ALGORITHM : string := "count-min".

Record CountMinSketch := mkCM {
  cm_width : Z;
  cm_depth : Z;
  cm_conservative : bool;
  cm_hash : HashSpec;
  cm_table : list Z;
  cm_total_weight : Z;
  cm_updates : Z;
}.

Definition new (width depth : Z) (conservative : bool) (hash : HashSpec)
    : res CountMinSketch :=
  if (width =? 0) || (depth =? 0)
  then Err (InvalidParam "count-min width and depth must be positive")
  else Ok {| cm_width := width; cm_depth := depth;
             cm_conservative := conservative; cm_hash := hash;
             cm_table := replicate (Z.to_nat (width *ʷ depth)) 0;
             cm_total_weight := 0; cm_updates := 0 |}.

Definition min_rows (s : CountMinSketch) (rh : RowHashes) : res Z :=
  foldM (λ min row,
      c ← vec_get (cm_table s) (cell (cm_width s) rh row);
      Ok (Z.min min c))
    u64_max (rows (cm_depth s)).

Definition estimate_u64 (s : CountMinSketch) (key : bytes) : res Z :=
  min_rows s (RowHashes_new (cm_hash s) key).

(** Add [value] to the row's cell. *)
Definition add_row (width : Z) (rh : RowHashes) (value : Z) (t : list Z) (row : Z)
    : res (list Z) :=
  let idx := cell width rh row in
  c ← vec_get t idx; vec_set t idx (c +ʷ value).

(** Raise the row's cell to [target] unless it is already there. *)
Definition raise_row (width : Z) (rh : RowHashes) (target : Z) (t : list Z) (row : Z)
    : res (list Z) :=
  let idx := cell width rh row in
  c ← vec_get t idx;
  if c <? target then vec_set t idx target else Ok t.

Definition update (s : CountMinSketch) (key : bytes) (value : Z)
    : res CountMinSketch :=
  let rh := RowHashes_new (cm_hash s) key in
  table ← (if cm_conservative s then
             min ← min_rows s rh;
             let target := min +ʷ value in
             foldM (raise_row (cm_width s) rh target) (cm_table s)
               (rows (cm_depth s))
           else
             foldM (add_row (cm_width s) rh value) (cm_table s)
               (rows (cm_depth s)));
  Ok {| cm_width := cm_width s; cm_depth := cm_depth s;
        cm_conservative := cm_conservative s; cm_hash := cm_hash s;
        cm_table := table;
        cm_total_weight := cm_total_weight s +ʷ value;
        cm_updates := cm_updates s +ʷ 1 |}.

Definition estimate (s : CountMinSketch) (key : bytes) : res f64 :=
  e ← estimate_u64 s key; Ok (f64_of_Z e).

Definition bool_u8 (b : bool) : Z := if b then 1 else 0.

Definition params_hash (s : CountMinSketch) : Z :=
  let w := Writer_new in
  let w := w_u64 w (cm_width s) in
  let w := w_u64 w (cm_depth s) in
  let w := w_u8 w (bool_u8 (cm_conservative s)) in
  hash64 w 0.

Definition compatibility (s : CountMinSketch) : SketchCompatibility :=
  {| sc_algorithm := ALGORITHM; sc_version := 1; sc_hash := cm_hash s;
     sc_params_hash := params_hash s |}.

Definition merge_from (s other : CountMinSketch) : res CountMinSketch :=
  _ ← ensure_matches (compatibility s) (compatibility other);
  Ok {| cm_width := cm_width s; cm_depth := cm_depth s;
        cm_conservative := cm_conservative s; cm_hash := cm_hash s;
        cm_table := zip_update wadd64 (cm_table s) (cm_table other);
        cm_total_weight := cm_total_weight s +ʷ cm_total_weight other;
        cm_updates := cm_updates s +ʷ cm_updates other |}.

Definition reset (s : CountMinSketch) : CountMinSketch :=
  {| cm_width := cm_width s; cm_depth := cm_depth s;
     cm_conservative := cm_conservative s; cm_hash := cm_hash s;
     cm_table := replicate (length (cm_table s)) 0;
     cm_total_weight := 0; cm_updates := 0 |}.

(** [size_of_self] is the compiler's size of the struct. *)
Definition memory_bytes (size_of_self : Z) (s : CountMinSketch) : Z :=
  zlen (cm_table s) * 8 + size_of_self.

Definition to_snapshot (s : CountMinSketch) (window_start_nanos window_end_nanos : Z)
    : list Z :=
  let params := Writer_new in
  let params := w_u32 params (as_u32 (cm_width s)) in
  let params := w_u32 params (as_u32 (cm_depth s)) in
  let params := w_u8 params (bool_u8 (cm_conservative s)) in
  let payload := Writer_new in
  let payload := w_u64 payload (cm_total_weight s) in
  let payload := w_u64 payload (cm_updates s) in
  let payload := foldl w_u64 payload (cm_table s) in
  write_snapshot
    {| sh_version := SNAPSHOT_VERSION; sh_algorithm_id := COUNT_MIN;
       sh_hash := cm_hash s; sh_window_start_nanos := window_start_nanos;
       sh_window_end_nanos := window_end_nanos |}
    params payload.

Definition from_snapshot (b : bytes) : res CountMinSketch :=
  '(header, params, payload) ← read_snapshot b;
  _ ← fail_if (negb (sh_algorithm_id header =? COUNT_MIN))
        (SnapshotError "not a count-min snapshot");
  let p := Reader_new params in
  '(width, p) ← r_u32 p;
  '(depth, p) ← r_u32 p;
  '(conservative, p) ← r_u8 p;
  let conservative := negb (conservative =? 0) in
  _ ← fail_if ((width =? 0) || (depth =? 0))
        (SnapshotError "count-min snapshot width and depth must be positive");
  cells ← ok_or (checked_mul width depth)
            (SnapshotError "count-min snapshot table overflows");
  let r := Reader_new payload in
  '(total_weight, r) ← r_u64 r;
  '(updates, r) ← r_u64 r;
  _ ← check_count r cells 8;
  '(table, r) ← read_n (Z.to_nat cells) r_u64 r;
  Ok {| cm_width := width; cm_depth := depth; cm_conservative := conservative;
        cm_hash := sh_hash header; cm_table := table;
        cm_total_weight := total_weight; cm_updates := updates |}.

(** The error contract: [ln] and [exp] are the platform's functions. *)
Definition HASH_FAILURE_FLOOR : f64 := f_div f_one (f64_of_Z u64_mod).
Definition f_E : f64 := f_lit 2718281828459045 1000000000000000.

Definition dimensions_for_error (ln : f64 → f64) (epsilon delta : f64)
    : res (Z * Z) :=
  _ ← fail_if (negb (f_ltb f_zero epsilon && f_ltb epsilon f_one &&
                     f_ltb f_zero delta && f_ltb delta f_one))
        (InvalidParam "epsilon and delta must be in (0, 1)");
  _ ← fail_if (f_leb delta HASH_FAILURE_FLOOR)
        (InvalidParam "count-min delta must exceed the fsk1 hash confidence floor");
  let width := f_ceil_as_u64 (f_div f_E epsilon) in
  let depth := Z.max 1 (f_ceil_as_u64 (ln (f_div f_one (f_sub delta HASH_FAILURE_FLOOR)))) in
  Ok (width, depth).

Definition for_error (ln : f64 → f64) (epsilon delta : f64) (conservative : bool)
    (hash : HashSpec) : res CountMinSketch :=
  '(width, depth) ← dimensions_for_error ln epsilon delta;
  new width depth conservative hash.

Definition epsilon (s : CountMinSketch) : f64 := f_div f_E (f64_of_Z (cm_width s)).
Definition delta (exp : f64 → f64) (s : CountMinSketch) : f64 :=
  f_add (exp (f_neg (f64_of_Z (cm_depth s)))) HASH_FAILURE_FLOOR.

#[export] Instance CountMin_Sketch : Sketch CountMinSketch := {
  sk_update := update;
  sk_merge_from := merge_from;
  sk_reset := reset;
  sk_update_count := cm_updates;
  sk_compatibility := compatibility;
}.

(** ** Well-formedness *)

Record wf (s : CountMinSketch) : Prop := {
  wf_width : 0 < cm_width s;
  wf_depth : 0 < cm_depth s;
  wf_len : zlen (cm_table s) = cm_width s * cm_depth s;
  wf_cells : Forall u64_ok (cm_table s);
  wf_total : u64_ok (cm_total_weight s);
  wf_updates : u64_ok (cm_updates s);
}.

Definition same_shape (s t : CountMinSketch) : Prop :=
  cm_width t = cm_width s ∧ cm_depth t = cm_depth s ∧
  cm_conservative t = cm_conservative s ∧ cm_hash t = cm_hash s.

Abbreviation get s := (at_cell (cm_width s) (cm_table s)).
Abbreviation col_of s key row :=
  (index (RowHashes_new (cm_hash s) key) row (cm_width s)).

Lemma cm_wf_get s row col :
  wf s → 0 <= row < cm_depth s → 0 <= col < cm_width s →
  ∃ c, get s row col = Some c ∧ u64_ok c.
Proof.
  intros Hs Hr Hc.
  destruct (at_cell_is_Some (cm_width s) (cm_depth s) (wf_width s Hs) (cm_table s) row col)
    as [c Hget]; [apply Hs|done..|].
  exists c. split; [done|]. eapply Forall_lookup_1; [apply Hs|exact Hget].
Qed.

(** A table is in range when every coordinate is. *)
Lemma cm_cells_of_get s :
  0 < cm_width s → zlen (cm_table s) = cm_width s * cm_depth s →
  (∀ row col c, 0 <= row < cm_depth s → 0 <= col < cm_width s →
    get s row col = Some c → u64_ok c) →
  Forall u64_ok (cm_table s).
Proof.
  intros Hw Hl H. apply Forall_lookup_2. intros i c Hi.
  destruct (index_coord _ _ Hw _ _ _ Hl Hi) as (row & col & ? & ? & ? & ?). eauto.
Qed.

Lemma cm_new_wf width depth cons h s :
  0 <= width → 0 <= depth → width * depth < u64_mod →
  new width depth cons h = Ok s →
  wf s ∧ cm_width s = width ∧ cm_depth s = depth ∧ cm_conservative s = cons ∧
  cm_hash s = h ∧ cm_total_weight s = 0 ∧ cm_updates s = 0 ∧
  ∀ row col, 0 <= row < depth → 0 <= col < width → get s row col = Some 0.
Proof.
  intros Hw Hd Hm H. unfold new in H.
  destruct (Z.eqb_spec width 0), (Z.eqb_spec depth 0); try done.
  injection H as <-. rewrite wmul64_small by word_lia. simpl.
  split_and!; try done.
  - split; simpl; try word_lia.
    + unfold zlen. rewrite length_replicate. lia.
    + apply Forall_replicate. word_lia.
  - intros row col Hr Hc. unfold at_cell. apply lookup_replicate_2.
    pose proof (coord_bound width depth ltac:(lia) row col Hr Hc). lia.
Qed.

(** ** Point queries and updates *)

(** [m] is the least of the cells [key] hits. *)
Definition least_cell (s : CountMinSketch) (key : bytes) (m : Z) : Prop :=
  (∀ row c, 0 <= row < cm_depth s → get s row (col_of s key row) = Some c → m <= c) ∧
  ∃ row, 0 <= row < cm_depth s ∧ get s row (col_of s key row) = Some m.

Lemma foldl_min_spec (f : Z → Z) (l : list Z) a :
  (∀ x, x ∈ l → f x <= u64_max) →
  let m := foldl (λ a x, Z.min a (f x)) a l in
  m <= a ∧ (∀ x, x ∈ l → m <= f x) ∧ (m = a ∨ ∃ x, x ∈ l ∧ m = f x).
Proof.
  revert a. induction l as [|y l IH]; intros a Hf; simpl; [set_solver by lia|].
  destruct (IH (Z.min a (f y))) as (H1 & H2 & H3); [set_solver|].
  revert H1 H2 H3. generalize (foldl (λ a x, Z.min a (f x)) (Z.min a (f y)) l).
  intros m H1 H2 H3. split_and!; [lia| |].
  - intros x [->|Hx]%elem_of_cons; [lia|auto].
  - destruct H3 as [H3|(x & Hx & H3)]; [|right; exists x; split; [by right|done]].
    destruct (Z.min_spec a (f y)) as [[_ He]|[_ He]]; rewrite He in H3;
      [by left|right; exists y; split; [by left|done]].
Qed.

Lemma min_rows_spec s key :
  wf s → ∃ m, min_rows s (RowHashes_new (cm_hash s) key) = Ok m ∧ least_cell s key m.
Proof.
  intros Hs. set (rh := RowHashes_new (cm_hash s) key). unfold min_rows.
  rewrite (foldM_read (cm_width s) (cm_depth s) (wf_width s Hs) (λ a _ c, Z.min a c)) by apply Hs.
  eexists. split; [done|].
  set (f := λ row, default 0 (get s row (index rh row (cm_width s)))).
  assert (∀ row, 0 <= row < cm_depth s →
    get s row (index rh row (cm_width s)) = Some (f row) ∧ u64_ok (f row)) as Hf.
  { intros row Hr. destruct (cm_wf_get s row (index rh row (cm_width s)) Hs Hr) as (c & Hc & ?).
    - apply index_range, Hs.
    - unfold f. by rewrite Hc. }
  change (foldl _ _ _) with (foldl (λ a x, Z.min a (f x)) u64_max (rows (cm_depth s))).
  destruct (foldl_min_spec f (rows (cm_depth s)) u64_max) as (H1 & H2 & H3).
  { intros x Hx%elem_of_rows. destruct (Hf x Hx). word_lia. }
  split.
  - intros row c Hr Hc. destruct (Hf row Hr) as [Hf1 _].
    fold rh in Hc. rewrite Hf1 in Hc. injection Hc as <-. apply H2. by apply elem_of_rows.
  - destruct H3 as [H3|(row & Hr%elem_of_rows & H3)].
    + exists 0. pose proof (wf_depth s Hs). destruct (Hf 0 ltac:(lia)) as [Hf1 Hf2].
      split; [lia|]. fold rh. rewrite Hf1. f_equal.
      assert (0 ∈ rows (cm_depth s)) as H0 by (apply elem_of_rows; lia).
      specialize (H2 0 H0). word_lia.
    + exists row. split; [done|]. rewrite H3. by apply Hf.
Qed.

(** What an update does to a cell the key hits, given the key's estimate. *)
Definition bump (s : CountMinSketch) (m v c : Z) : Z :=
  if cm_conservative s then Z.max c (m +ʷ v) else c +ʷ v.

Lemma cm_update_spec s key v :
  wf s → ∃ m s', update s key v = Ok s' ∧ least_cell s key m ∧ same_shape s s' ∧
    cm_total_weight s' = cm_total_weight s +ʷ v ∧
    cm_updates s' = cm_updates s +ʷ 1 ∧
    zlen (cm_table s') = zlen (cm_table s) ∧
    ∀ row col, 0 <= row < cm_depth s → 0 <= col < cm_width s →
      get s' row col =
        (λ c, if decide (col = col_of s key row) then bump s m v c else c) <$>
          get s row col.
Proof.
  intros Hs. destruct (min_rows_spec s key Hs) as (m & Hmin & Hm).
  pose proof (wf_width s Hs) as Hw. pose proof (wf_len s Hs) as Hl.
  unfold update, bump. set (rh := RowHashes_new (cm_hash s) key) in *.
  destruct (cm_conservative s) eqn:Hc.
  - rewrite Hmin. ostep.
    edestruct (foldM_rows (cm_width s) (cm_depth s) Hw
      (raise_row (cm_width s) rh (m +ʷ v)) (λ _ c, Z.max c (m +ʷ v)) rh)
      as (t' & -> & Hlen & Hcell); [exact Hl| |].
    { intros t row c Hr%elem_of_rows Hget Ht. unfold raise_row.
      rewrite (vec_get_cell (cm_width s) (cm_depth s)), Hget by done. change (default 0 (Some c)) with c.
      pose proof (cell_bound (cm_width s) (cm_depth s) Hw rh row Hr). ostep.
      destruct (Z.ltb_spec c (m +ʷ v)).
      - rewrite vec_set_ok by lia. rewrite Z.max_r by lia. by eexists.
      - rewrite Z.max_l by lia. rewrite list_insert_id by done. by eexists. }
    ostep. eexists m, _. split; [done|].
    unfold same_shape, zlen. simpl. rewrite Hlen. split_and!; done.
  - edestruct (foldM_rows (cm_width s) (cm_depth s) Hw
      (add_row (cm_width s) rh v) (λ _ c, c +ʷ v) rh)
      as (t' & -> & Hlen & Hcell); [exact Hl| |].
    { intros t row c Hr%elem_of_rows Hget Ht. unfold add_row.
      rewrite (vec_get_cell (cm_width s) (cm_depth s)), Hget by done. ostep.
      pose proof (cell_bound (cm_width s) (cm_depth s) Hw rh row Hr).
      rewrite vec_set_ok by lia. by eexists. }
    ostep. eexists m, _. split; [done|].
    unfold same_shape, zlen. simpl. rewrite Hlen. split_and!; done.
Qed.

Lemma bump_u64 s m v c : u64_ok c → u64_ok (bump s m v c).
Proof.
  intros Hc. unfold bump. pose proof (wadd64_range m v).
  case_match; [word_lia|apply wadd64_range].
Qed.

Lemma update_wf s key v s' : wf s → update s key v = Ok s' → wf s' ∧ same_shape s s'.
Proof.
  intros Hs Hu. destruct (cm_update_spec s key v Hs)
    as (m & s2 & Hu2 & _ & Hsh & Ht & Hn & Hl & Hc).
  rewrite Hu in Hu2. injection Hu2 as <-. split; [|done].
  destruct Hsh as (Hw & Hd & Hco & Hh). pose proof (wf_width s Hs).
  split; rewrite ?Hw, ?Hd, ?Ht, ?Hn; try apply Hs; try apply wrap64_range.
  - rewrite Hl. apply Hs.
  - apply cm_cells_of_get; rewrite ?Hw, ?Hd; [done|rewrite Hl; apply Hs|].
    intros row col c Hr Hcol Hget. rewrite Hw in Hc.
    rewrite Hc in Hget by done.
    destruct (cm_wf_get s row col Hs Hr Hcol) as (c0 & Hc0 & Hok). rewrite Hc0 in Hget.
    ofmap. injection Hget as <-. case_decide; [by apply bump_u64|done].
Qed.

(** ** Merging *)

Lemma cm_compatibility_same s t : same_shape s t → compatibility s = compatibility t.
Proof. intros (Hw & Hd & Hc & Hh). unfold compatibility, params_hash. congruence. Qed.

Lemma zip_wadd_ok xs ys : Forall u64_ok xs → Forall u64_ok (zip_update wadd64 xs ys).
Proof.
  intros Hx. apply Forall_lookup_2. intros i c. rewrite lookup_zip_update.
  destruct (xs !! i) eqn:Hi; [|done]. ostep. intros [= <-].
  case_match; [apply wadd64_range|]. by eapply Forall_lookup_1.
Qed.

Lemma cm_merge_spec s t :
  wf s → wf t → same_shape s t →
  ∃ s', merge_from s t = Ok s' ∧ wf s' ∧ same_shape s s' ∧
    cm_total_weight s' = cm_total_weight s +ʷ cm_total_weight t ∧
    cm_updates s' = cm_updates s +ʷ cm_updates t ∧
    ∀ row col a b, 0 <= row < cm_depth s → 0 <= col < cm_width s →
      get s row col = Some a → get t row col = Some b →
      get s' row col = Some (a +ʷ b).
Proof.
  intros Hs Ht Hsh. unfold merge_from.
  rewrite (cm_compatibility_same s t Hsh), ensure_matches_refl. ostep.
  eexists. split; [done|]. destruct Hsh as (Hw & Hd & Hc & Hh).
  split; [split|split; [done|split_and!]]; cbn [cm_width cm_depth cm_table
    cm_total_weight cm_updates]; try apply wadd64_range; try apply Hs; try done.
  - unfold zlen. rewrite length_zip_update. apply Hs.
  - apply zip_wadd_ok, Hs.
  - intros row col a b Hr Hcol Ha Hb. unfold at_cell in *.
    rewrite Hw in Hb. rewrite lookup_zip_update, Ha. cbn. by rewrite Hb.
Qed.

(** ** Histories *)

Definition cm_init (width depth : Z) (cons : bool) (h : HashSpec) (s : CountMinSketch)
  : Prop := new width depth cons h = Ok s.
Definition cm_upd (s : CountMinSketch) (p : bytes * Z) (s' : CountMinSketch) : Prop :=
  u64_ok p.2 ∧ update s p.1 p.2 = Ok s'.
Definition cm_mrg (s t s' : CountMinSketch) : Prop := merge_from s t = Ok s'.
Abbreviation hist width depth cons h := (built (cm_init width depth cons h) cm_upd cm_mrg).

Section history.
Context (width depth : Z) (cons : bool) (h : HashSpec).
Context (Hdim : 0 <= width ∧ 0 <= depth ∧ width * depth < u64_mod).
Implicit Types (s t : CountMinSketch) (l : list (bytes * Z)).

Definition shaped s : Prop :=
  wf s ∧ cm_width s = width ∧ cm_depth s = depth ∧ cm_conservative s = cons ∧
  cm_hash s = h.

Lemma shaped_same s t : shaped s → shaped t → same_shape s t.
Proof. clear Hdim. unfold shaped, same_shape. naive_solver congruence. Qed.

Lemma same_shaped s s' : shaped s → wf s' → same_shape s s' → shaped s'.
Proof. clear Hdim. unfold shaped, same_shape. naive_solver congruence. Qed.

Lemma hist_shaped s l : hist width depth cons h s l → shaped s ∧ weights_ok l.
Proof using Hdim.
  induction 1 as [s Hi|s l p s' _ [IH Hl] [Hp Hu]|s l t m s' _ [IHs Hl] _ [IHt Hm] Hg].
  - destruct (cm_new_wf _ _ _ _ _ (proj1 Hdim) (proj1 (proj2 Hdim))
      (proj2 (proj2 Hdim)) Hi) as (Hs & ? & ? & ? & ? & _).
    split; [done|constructor].
  - destruct (update_wf _ _ _ _ (proj1 IH) Hu) as [Hwf Hsh].
    split; [by apply (same_shaped s)|]. apply weights_ok_app. split; [done|by constructor].
  - destruct (cm_merge_spec s t (proj1 IHs) (proj1 IHt) (shaped_same _ _ IHs IHt))
      as (s2 & Hm2 & Hwf & Hsh & _).
    unfold cm_mrg in Hg. rewrite Hg in Hm2. injection Hm2 as <-.
    split; [by apply (same_shaped s)|by apply weights_ok_app].
Qed.

(** The rule for cell invariants: [P l row col c] holds of every cell [c] of
    every sketch built from [l]. *)
Lemma cm_hist_cells (P : list (bytes * Z) → Z → Z → Z → Prop) s l :
  (∀ row col, P [] row col 0) →
  (∀ s l k v m row col c,
    shaped s → weights_ok (l ++ [(k, v)]) →
    (∀ row col c, 0 <= row < depth → 0 <= col < width →
      at_cell width (cm_table s) row col = Some c → P l row col c) →
    least_cell s k m → 0 <= row < depth → 0 <= col < width → u64_ok c →
    at_cell width (cm_table s) row col = Some c →
    P (l ++ [(k, v)]) row col
      (if decide (col = index (RowHashes_new h k) row width)
       then bump s m v c else c)) →
  (∀ l1 l2 row col a b,
    weights_ok (l1 ++ l2) → u64_ok a → u64_ok b →
    P l1 row col a → P l2 row col b → P (l1 ++ l2) row col (a +ʷ b)) →
  hist width depth cons h s l →
  ∀ row col c, 0 <= row < depth → 0 <= col < width →
    at_cell width (cm_table s) row col = Some c → P l row col c.
Proof using Hdim.
  intros H0 Hu Hm Hb.
  induction Hb as [s Hi|s l [k v] s' Hb IH [Hp Hup]|s l t m s' Hb1 IH1 Hb2 IH2 Hg];
    intros row col c Hr Hc Hget.
  - destruct (cm_new_wf _ _ _ _ _ (proj1 Hdim) (proj1 (proj2 Hdim))
      (proj2 (proj2 Hdim)) Hi) as (_ & Hw & _ & _ & _ & _ & _ & Hz).
    rewrite Hw in Hz. rewrite Hz in Hget by done. by injection Hget as <-.
  - destruct (hist_shaped s l Hb) as [Hsh Hl]. pose proof Hsh as (Hwf & Hw & Hd & _ & Hh).
    destruct (cm_update_spec s k v Hwf) as (mi & s2 & Hu2 & Hmin & Hs2 & _ & _ & _ & Hcell).
    simpl in Hup. rewrite Hup in Hu2. injection Hu2 as <-.
    destruct Hs2 as (Hw2 & _). rewrite Hw2, Hw, Hd, Hh in Hcell.
    rewrite Hcell in Hget by done.
    destruct (at_cell width (cm_table s) row col) as [c0|] eqn:Hc0; [|done].
    ofmap. injection Hget as <-.
    destruct (cm_wf_get s row col Hwf) as (c1 & Hc1 & Hok); [lia..|].
    rewrite Hw, Hc0 in Hc1. injection Hc1 as <-.
    eapply Hu; try done. apply weights_ok_app. split; [done|by constructor].
  - destruct (hist_shaped s l Hb1) as [Hsh1 Hl1], (hist_shaped t m Hb2) as [Hsh2 Hl2].
    pose proof Hsh1 as (Hwf1 & Hw1 & Hd1 & _). pose proof Hsh2 as (Hwf2 & Hw2 & Hd2 & _).
    destruct (cm_merge_spec s t Hwf1 Hwf2 (shaped_same _ _ Hsh1 Hsh2))
      as (s2 & Hm2 & _ & Hs2 & _ & _ & Hcell).
    unfold cm_mrg in Hg. rewrite Hg in Hm2. injection Hm2 as <-.
    destruct Hs2 as (Hw3 & _).
    destruct (cm_wf_get s row col Hwf1) as (a & Ha & Hoka); [lia..|].
    destruct (cm_wf_get t row col Hwf2) as (b & Hb & Hokb); [lia..|].
    rewrite Hw3, Hw1, Hd1 in Hcell. rewrite Hw1 in Ha. rewrite Hw2 in Hb.
    rewrite Hw2 in Hcell.
    rewrite (Hcell row col a b) in Hget by done. injection Hget as <-.
    apply Hm; auto. by apply weights_ok_app.
Qed.
End history.

(** ** The error contract *)

Section contract.
Context (width depth : Z) (cons : bool) (h : HashSpec).
Context (Hdim : 0 <= width ∧ 0 <= depth ∧ width * depth < u64_mod).

(** Every cell holds at least the weight of each key that hits it and at most
    the weight of all of them. *)
Definition cell_sound (l : list (bytes * Z)) (row col c : Z) : Prop :=
  total_of l < u64_mod →
  (∀ key, col = index (RowHashes_new h key) row width → weight_of key l <= c) ∧
  c <= mass unsigned h width l row col.

Lemma hist_cell_sound s l :
  hist width depth cons h s l →
  ∀ row col c, 0 <= row < depth → 0 <= col < width →
    at_cell width (cm_table s) row col = Some c → cell_sound l row col c.
Proof using Hdim.
  apply (cm_hist_cells _ _ _ _ Hdim); clear s l.
  - intros row col _. split; [done|]. by cbn.
  - intros s l k v m row col c (Hwf & Hw & Hd & _ & Hh) [Hl Hv]%weights_ok_app HP
      [Hle (row0 & Hr0 & Hm)] Hr Hcol Hok Hget Htot.
    apply Forall_inv in Hv. cbn in Hv. rewrite total_of_app in Htot. cbn in Htot.
    assert (total_of l < u64_mod) as Htl by word_lia.
    destruct (HP row col c Hr Hcol Hget Htl) as [Hlow Hup].
    rewrite Hw, Hd, Hh in *.
    assert (0 < width) as Hw0 by lia.
    destruct (HP row0 _ m Hr0 (index_range _ _ _ Hw0) Hm Htl) as [Hlow0 _].
    specialize (Hlow0 k eq_refl).
    pose proof (unsigned_mass_le_total h width l row col Hl) as Hmt.
    pose proof (weight_of_nonneg k l Hl).
    rewrite mass_snoc. unfold mass1, unsigned at 2. cbn [fst snd].
    destruct (decide (col = index (RowHashes_new h k) row width)) as [->|Hne].
    + specialize (Hle row c Hr Hget). unfold bump.
      rewrite !wadd64_small by word_lia. split.
      * intros key Hkey. rewrite weight_of_app. cbn. specialize (Hlow key Hkey).
        case_decide; [subst key|]; case_match; word_lia.
      * case_match; word_lia.
    + split; [|lia]. intros key Hkey. rewrite weight_of_app. cbn.
      specialize (Hlow key Hkey). rewrite decide_False by congruence. lia.
  - intros l1 l2 row col a b [Hl1 Hl2]%weights_ok_app Ha Hb H1 H2 Htot.
    rewrite total_of_app in Htot.
    pose proof (total_of_nonneg l1 Hl1). pose proof (total_of_nonneg l2 Hl2).
    destruct (H1 ltac:(lia)) as [Hlo1 Hup1], (H2 ltac:(lia)) as [Hlo2 Hup2].
    pose proof (unsigned_mass_le_total h width l1 row col Hl1).
    pose proof (unsigned_mass_le_total h width l2 row col Hl2).
    rewrite wadd64_small by word_lia. rewrite mass_app. split; [|lia].
    intros key Hkey. rewrite weight_of_app. specialize (Hlo1 key Hkey).
    specialize (Hlo2 key Hkey). lia.
Qed.

Lemma hist_total s l :
  hist width depth cons h s l → cm_total_weight s = wrap64 (total_of l) ∧
    cm_updates s = wrap64 (zlen l).
Proof using Hdim.
  induction 1 as [s Hi|s l [k v] s' Hb [IH1 IH2] [Hp Hu]|
    s l t m s' Hb1 [IH1 IH1'] Hb2 [IH2 IH2'] Hg].
  - destruct (cm_new_wf _ _ _ _ _ (proj1 Hdim) (proj1 (proj2 Hdim))
      (proj2 (proj2 Hdim)) Hi) as (_ & _ & _ & _ & _ & -> & -> & _). done.
  - destruct (hist_shaped _ _ _ _ Hdim s l Hb) as [[Hwf _] _].
    destruct (cm_update_spec s k v Hwf) as (mi & s2 & Hu2 & _ & _ & Ht & Hn & _).
    simpl in Hu. rewrite Hu in Hu2. injection Hu2 as <-.
    rewrite Ht, Hn, IH1, IH2, !wadd64_wrap_l, total_of_app, zlen_app. simpl.
    split; f_equal; lia.
  - destruct (hist_shaped _ _ _ _ Hdim s l Hb1) as [Hsh1 _],
      (hist_shaped _ _ _ _ Hdim t m Hb2) as [Hsh2 _].
    destruct (cm_merge_spec s t (proj1 Hsh1) (proj1 Hsh2)
      (shaped_same _ _ _ _ _ _ Hsh1 Hsh2)) as (s2 & Hm2 & _ & _ & Ht & Hn & _).
    unfold cm_mrg in Hg. rewrite Hg in Hm2. injection Hm2 as <-.
    rewrite Ht, Hn, IH1, IH2, IH1', IH2', !wadd64_wrap,
      total_of_app, zlen_app. done.
Qed.
End contract.

Lemma cm_bounds width depth cons h s l key :
  0 <= width → 0 <= depth → width * depth < u64_mod →
  hist width depth cons h s l → total_of l < u64_mod →
  ∃ est, estimate_u64 s key = Ok est ∧ weight_of key l <= est ∧
    ∀ row, 0 <= row < depth →
      est <= mass unsigned h width l row (index (RowHashes_new h key) row width)
          <= cm_total_weight s.
Proof.
  intros Hw Hd Hm Hb Htot. pose proof (conj Hw (conj Hd Hm)) as Hdim.
  destruct (hist_shaped _ _ _ _ Hdim s l Hb) as [(Hwf & Ew & Ed & _ & Eh) Hl].
  destruct (min_rows_spec s key Hwf) as (est & He & Hle & row0 & Hr0 & Hc0).
  rewrite Ew, Ed, Eh in *.
  pose proof (hist_cell_sound _ _ _ _ Hdim s l Hb) as HP.
  exists est. split; [unfold estimate_u64; by rewrite Eh|].
  assert (0 < width) as Hw' by (rewrite <- Ew; apply Hwf). split.
  - destruct (HP row0 _ est Hr0 (index_range _ _ _ Hw') Hc0 Htot) as [Hlow _]. by apply Hlow.
  - intros row Hr. destruct (cm_wf_get s row (index (RowHashes_new h key) row width) Hwf)
      as (c & Hc & _); [lia|rewrite Ew; by apply index_range|]. rewrite Ew in Hc.
    destruct (HP row _ c Hr (index_range _ _ _ Hw') Hc Htot) as [_ Hup].
    specialize (Hle row c Hr Hc).
    destruct (hist_total _ _ _ _ Hdim s l Hb) as [-> _].
    pose proof (unsigned_mass_le_total h width l row
      (index (RowHashes_new h key) row width) Hl).
    rewrite wrap64_small by word_lia. lia.
Qed.

(** [C7] The Count-Min contract.  Take any history of updates on any number of
    nodes and of merges of their sketches, conservative or not, whose total
    weight fits a [u64].  A point query then returns a value, which is at
    least the key's true weight; and it overestimates by at most the weight
    of the keys that collide with it in every single row. *)
Theorem estimate_bounds width depth cons h s l key :
  0 <= width → 0 <= depth → width * depth < u64_mod →
  hist width depth cons h s l → total_of l < u64_mod →
  ∃ est, estimate_u64 s key = Ok est ∧ weight_of key l <= est ∧
    ∀ row, 0 <= row < depth →
      est <= mass unsigned h width l row (index (RowHashes_new h key) row width)
          <= cm_total_weight s.
Proof. apply cm_bounds. Qed.

(** A two-node history: one node counts twice, the other once, then they merge. *)
Definition blank : CountMinSketch :=
  {| cm_width := 8; cm_depth := 2; cm_conservative := false; cm_hash := HashSpec_default;
     cm_table := replicate 16 0; cm_total_weight := 0; cm_updates := 0 |}.
Definition node1 : CountMinSketch := run_or blank (update blank [1] 5).
Definition node2 : CountMinSketch := run_or blank (update blank [2] 7).
Definition merged : CountMinSketch := run_or blank (merge_from node1 node2).

Lemma merged_hist : hist 8 2 false HashSpec_default merged [([1], 5); ([2], 7)].
Proof.
  apply (built_mrg _ _ _ node1 [([1], 5)] node2 [([2], 7)]); [| |by vm_compute].
  - apply (built_upd _ _ _ blank [] ([1], 5)); [by apply built_init|].
    split; [by range_tac|by vm_compute].
  - apply (built_upd _ _ _ blank [] ([2], 7)); [by apply built_init|].
    split; [by range_tac|by vm_compute].
Qed.

Lemma estimate_bounds_witness :
  ∃ est, estimate_u64 merged [1] = Ok est ∧ weight_of [1] [([1], 5); ([2], 7)] <= est ∧
    ∀ row, 0 <= row < 2 →
      est <= mass unsigned HashSpec_default 8 [([1], 5); ([2], 7)] row
               (index (RowHashes_new HashSpec_default [1]) row 8)
          <= cm_total_weight merged.
Proof.
  apply (estimate_bounds 8 2 false HashSpec_default merged [([1], 5); ([2], 7)] [1]);
    [done|done|done|apply merged_hist|done].
Defined.

(** ** Linearity *)

Section linear.
Context (width depth : Z) (h : HashSpec).
Context (Hdim : 0 <= width ∧ 0 <= depth ∧ width * depth < u64_mod).

Lemma hist_cell_linear s l :
  hist width depth false h s l →
  ∀ row col c, 0 <= row < depth → 0 <= col < width →
    at_cell width (cm_table s) row col = Some c →
    c = wrap64 (mass unsigned h width l row col).
Proof using Hdim.
  apply (cm_hist_cells _ _ _ _ Hdim
    (λ l row col c, c = wrap64 (mass unsigned h width l row col))); clear s l.
  - done.
  - intros s l k v m row col c (_ & _ & _ & Hcons & _) _ HP _ Hr Hc _ Hget.
    pose proof (HP row col c Hr Hc Hget) as ->.
    rewrite mass_snoc. unfold mass1, unsigned at 3, bump. rewrite Hcons. cbn [fst snd].
    case_decide; [by rewrite wadd64_wrap_l, Z.mul_1_l|by rewrite Z.add_0_r].
  - intros l1 l2 row col a b _ _ _ -> ->. by rewrite wadd64_wrap, mass_app.
Qed.

Lemma hist_deterministic s t l m :
  hist width depth false h s l → hist width depth false h t m → l ≡ₚ m → s = t.
Proof using Hdim.
  intros Hs Ht Hlm.
  destruct (hist_shaped _ _ _ _ Hdim s l Hs) as [(Hws & Ew & Ed & Ec & Eh) _].
  destruct (hist_shaped _ _ _ _ Hdim t m Ht) as [(Hwt & Fw & Fd & Fc & Fh) _].
  destruct (hist_total _ _ _ _ Hdim s l Hs) as [Et Eu].
  destruct (hist_total _ _ _ _ Hdim t m Ht) as [Ft Fu].
  assert (cm_table s = cm_table t) as Htab.
  { pose proof (wf_len s Hws) as Ls. pose proof (wf_len t Hwt) as Lt.
    pose proof (wf_width s Hws) as Hw0.
    pose proof (λ r c, cm_wf_get s r c Hws) as Gs. pose proof (λ r c, cm_wf_get t r c Hwt) as Gt.
    rewrite Ew, Ed in *. rewrite Fw, Fd in *.
    apply (table_ext width depth Hw0); [done|unfold zlen in *; lia|].
    intros row col Hr Hc. destruct (Gs row col Hr Hc) as (a & Ha & _).
    destruct (Gt row col Hr Hc) as (b & Hb & _). rewrite Ha, Hb. f_equal.
    rewrite (hist_cell_linear s l Hs row col a), (hist_cell_linear t m Ht row col b)
      by done.
    by rewrite (mass_Permutation _ _ _ l m). }
  rewrite (total_of_Permutation l m Hlm) in Et. unfold zlen in Eu. rewrite Hlm in Eu.
  fold (zlen m) in Eu. destruct s, t. cbn in *. congruence.
Qed.
End linear.

(** Merging equals single-stream processing.  Without conservative updates,
    the sketch any history of updates and merges produces depends on the
    multiset of the updates alone: however a stream is split over nodes and
    in whatever order the nodes' sketches are merged, the result is, field by
    field and even when counters wrap, the sketch of one node that saw it all. *)
Lemma merge_is_single_stream width depth h s t l m :
  0 <= width → 0 <= depth → width * depth < u64_mod →
  built (cm_init width depth false h) cm_upd cm_mrg s l →
  built (cm_init width depth false h) cm_upd cm_mrg t m → l ≡ₚ m → s = t.
Proof. intros Hw Hd Hm. by apply hist_deterministic. Qed.

Definition single : CountMinSketch :=
  run_or blank (s ← update blank [2] 7; update s [1] 5).

Lemma merge_is_single_stream_witness : merged = single.
Proof.
  apply (merge_is_single_stream 8 2 HashSpec_default merged single
    [([1], 5); ([2], 7)] [([2], 7); ([1], 5)]); [done|done|done|apply merged_hist| |].
  - apply (built_upd _ _ _ node2 [([2], 7)] ([1], 5)); [|split; [by range_tac|by vm_compute]].
    apply (built_upd _ _ _ blank [] ([2], 7)); [by apply built_init|].
    split; [by range_tac|by vm_compute].
  - apply Permutation_swap.
Defined.

(** ** Snapshots *)

Lemma cm_to_snapshot_eq s ws we :
  u32_ok (cm_width s) → u32_ok (cm_depth s) →
  to_snapshot s ws we =
    write_snapshot
      {| sh_version := SNAPSHOT_VERSION; sh_algorithm_id := COUNT_MIN;
         sh_hash := cm_hash s; sh_window_start_nanos := ws; sh_window_end_nanos := we |}
      (le_bytes 4 (cm_width s) ++ le_bytes 4 (cm_depth s) ++ [bool_u8 (cm_conservative s)])
      (le_bytes 8 (cm_total_weight s) ++ le_bytes 8 (cm_updates s) ++
       encode_all (le_bytes 8) (cm_table s)).
Proof.
  intros Hw Hd. unfold to_snapshot. cbv zeta.
  rewrite (foldl_write w_u64 (le_bytes 8)) by done.
  unfold w_u64, w_u32, w_u8, Writer_new, as_u32. rewrite !Z.mod_small by word_lia.
  cbn [app]. rewrite <- !app_assoc.
  by destruct (cm_conservative s).
Qed.

(** A Count-Min snapshot restores the sketch exactly: for every
    well-formed sketch whose dimensions fit the format's 32-bit fields,
    [from_snapshot] of [to_snapshot] is the sketch itself. *)
Lemma cm_snapshot_round_trip s ws we :
  wf s → hash_spec_ok (cm_hash s) → u64_ok ws → u64_ok we →
  u32_ok (cm_width s) → u32_ok (cm_depth s) → u32_ok (16 + 8 * zlen (cm_table s)) →
  from_snapshot (to_snapshot s ws we) = Ok s.
Proof.
  intros Hs Hh Hws Hwe Hw Hd Hp.
  assert (zlen (encode_all (le_bytes 8) (cm_table s)) = 8 * zlen (cm_table s)) as Hlen
    by (apply zlen_encode_all; intros; apply zlen_le_bytes).
  rewrite cm_to_snapshot_eq by done. unfold from_snapshot.
  rewrite read_write_snapshot.
  - ostep. cbv beta iota zeta. cbn [sh_algorithm_id sh_hash]. rewrite Z.eqb_refl. ostep.
    change Reader_new with (rd []).
    rewrite r_u32_rd by done. ostep. rewrite r_u32_rd by done. ostep.
    rewrite r_u8_rd by (destruct (cm_conservative s); by range_tac). ostep.
    rewrite (proj2 (Z.eqb_neq (cm_width s) 0)) by (pose proof (wf_width s Hs); lia).
    rewrite (proj2 (Z.eqb_neq (cm_depth s) 0)) by (pose proof (wf_depth s Hs); lia). ostep.
    cbn [orb]. unfold checked_mul. rewrite (proj2 (Z.ltb_lt _ _)) by (rewrite <- (wf_len s Hs); word_lia). ostep.
    rewrite r_u64_rd by apply Hs. ostep. rewrite r_u64_rd by apply Hs. ostep.
    rewrite (proj2 (check_count_rd _ _ _ _)).
    2:{ rewrite Hlen, <- (wf_len s Hs). change (Z.max 8 1) with 8. rewrite Z.mul_comm, Z.div_mul; lia. }
    ostep. rewrite <- (wf_len s Hs). unfold zlen at 1. rewrite Nat2Z.id.
    rewrite <- (app_nil_r (encode_all _ _)), read_u64s_rd by apply Hs. ostep.
    destruct s as [? ? [] ? ? ? ?]; done.
  - unfold header_ok. cbn. done.
  - rewrite !zlen_app, !zlen_le_bytes. cbn. range_tac.
  - rewrite !zlen_app, !zlen_le_bytes, Hlen. word_lia.
Qed.

Lemma node1_wf : wf node1.
Proof.
  split; [by range_tac..| |by range_tac|by range_tac].
  apply (bool_decide_unpack _). vm_compute. exact I.
Qed.

Lemma cm_snapshot_round_trip_witness : from_snapshot (to_snapshot node1 0 60) = Ok node1.
Proof.
  apply (cm_snapshot_round_trip node1 0 60); [apply node1_wf|split|..]; by range_tac.
Defined.

Lemma cm_from_snapshot_no_panic b : bytes_ok b → no_panic (from_snapshot b).
Proof.
  intros Hb. unfold from_snapshot.
  apply bind_no_panic; [by apply parse_no_panic|]. intros [[hd ps] pl] Hr.
  destruct (accepted_parts _ _ _ _ Hb Hr) as (_ & Hps & Hpl & _).
  change Reader_new with (rd []). no_panic_read. by apply read_u64s_no_panic.
Qed.

Lemma cm_from_snapshot_wf b s :
  bytes_ok b → from_snapshot b = Ok s →
  wf s ∧ hash_spec_ok (cm_hash s) ∧ 8 * zlen (cm_table s) <= zlen b.
Proof.
  intros Hb H. unfold from_snapshot in H.
  apply bind_ok in H as ([[hd ps] pl] & Hr & H).
  destruct (accepted_parts _ _ _ _ Hb Hr) as (Hh & Hps & Hpl & Hlen).
  assert (zlen pl <= zlen b) as Hle by (pose proof (zlen_nonneg ps); lia). clear Hlen.
  change Reader_new with (rd []) in H. read_inv.
  match goal with
  | H : ok_or _ _ = Ok ?c, Hc : check_count _ _ _ = Ok ?u, Ht : read_n _ _ _ = Ok _ |- _ =>
      rename H into Hmul, Hc into Hcount, Ht into Htab; destruct u
  end.
  apply check_count_rd in Hcount. injection H as <-.
  apply read_u64s_inv in Htab as (suf & -> & _ & _ & Hn & Hcells); [|done].
  unfold checked_mul in Hmul. case_match; [|done]. injection Hmul as <-.
  match goal with H : _ || _ = false |- _ => apply orb_false_iff in H as [Hw Hd] end.
  apply Z.eqb_neq in Hw, Hd.
  split; [split|split]; cbn; try word_lia; try done.
  - unfold zlen. rewrite Hn, Z2Nat.id; [done|]. word_lia.
  - by destruct Hh as (_ & _ & Hh & _).
  - rewrite !zlen_app, !zlen_le_bytes,
      (zlen_encode_all (le_bytes 8) 8) in Hle by (intros; apply zlen_le_bytes).
    pose proof (zlen_nonneg suf). lia.
Qed.

(** Restoring an untrusted snapshot is safe: [from_snapshot] never panics
    on any byte string, and what it accepts is a well-formed sketch (so every
    later query and update is in bounds) whose table is no larger than the
    bytes supplied, so a short input cannot demand a huge allocation. *)
Lemma cm_from_snapshot_safe b :
  bytes_ok b →
  no_panic (from_snapshot b) ∧
  ∀ s, from_snapshot b = Ok s →
    wf s ∧ hash_spec_ok (cm_hash s) ∧ 8 * zlen (cm_table s) <= zlen b ∧
    ∀ key v, no_panic (estimate_u64 s key) ∧ no_panic (update s key v).
Proof.
  intros Hb. split; [by apply cm_from_snapshot_no_panic|]. intros s Hs.
  destruct (cm_from_snapshot_wf b s Hb Hs) as (Hwf & Hh & Hl).
  split_and!; try done. intros key v.
  destruct (min_rows_spec s key Hwf) as (m & Hm & _).
  destruct (cm_update_spec s key v Hwf) as (m' & s' & Hu & _).
  unfold estimate_u64. by rewrite Hm, Hu.
Qed.

Lemma cm_from_snapshot_safe_witness :
  no_panic (from_snapshot (to_snapshot node1 0 60)) ∧ wf node1.
Proof.
  assert (bytes_ok (to_snapshot node1 0 60)) as Hb
    by (apply (bool_decide_unpack _); vm_compute; exact I).
  destruct (cm_from_snapshot_safe (to_snapshot node1 0 60) Hb) as [H1 H2].
  split; [exact H1|]. apply H2. vm_compute. reflexivity.
Defined.

(** ** The sketch laws *)

#[export] Instance CountMin_Lawful : LawfulSketch CountMinSketch (λ s, wf s).
Proof.
  split; cbn [sk_update sk_merge_from sk_reset sk_update_count sk_compatibility
    CountMin_Sketch].
  - intros s k v Hs _.
    destruct (cm_update_spec s k v Hs) as (m & s' & Hu & _ & Hsh & _ & Hn & _).
    exists s'. split; [done|]. split; [by apply (update_wf s k v s' Hs Hu)|]. split; [|done].
    symmetry. by apply cm_compatibility_same.
  - intros s t Hs Ht Hc. unfold merge_from. rewrite (proj2 (ensure_matches_ok _ _) Hc). clear Hc. ostep.
    eexists. split; [done|]. split; [split; cbn|split; [by apply cm_compatibility_same|done]];
      try apply wadd64_range; try apply Hs.
    + unfold zlen. rewrite length_zip_update. apply Hs.
    + apply zip_wadd_ok, Hs.
  - intros s t Hne. unfold merge_from, ensure_matches. by rewrite decide_True.
  - intros s Hs. split; [|split; [done|by apply cm_compatibility_same]].
    split; cbn; try apply Hs; try by range_tac.
    + unfold zlen. rewrite length_replicate. apply Hs.
    + apply Forall_replicate. by range_tac.
Qed.
