(* ===== verification/CountSketch.v ===== *)
(** * CountSketch  (crates/flowsketch-algos/src/count_sketch.rs)

    Signed counters with a per-row [+1]/[-1] sign; a key's estimate is the
    median over the rows of the signed cell.

    Proved: the sketch is a function of the frequency vector alone, so
    deletions cancel insertions exactly and merging is linear; whenever the
    per-row estimates of a strict majority of the rows lie in an interval, the
    estimate lies in it; snapshots round trip and untrusted ones are safe. *)
From S2P Require Import Prelude Bytes Hash Sketch Snapshot F64 Table.

Definition ALGORITHM : string := "count-sketch".

Record CountSketch := mkCS {
  cs_width : Z;
  cs_depth : Z;
  cs_hash : HashSpec;
  cs_table : list Z;
  cs_updates : Z;
}.

Definition new (width depth : Z) (hash : HashSpec) : res CountSketch :=
  if (width =? 0) || (depth =? 0)
  then Err (InvalidParam "count-sketch width and depth must be positive")
  else Ok {| cs_width := width; cs_depth := depth; cs_hash := hash;
             cs_table := replicate (Z.to_nat (width *ʷ depth)) 0;
             cs_updates := 0 |}.

(** The body of the row loop of [update_signed]. *)
Definition signed_row (width : Z) (rh : RowHashes) (value : Z) (t : list Z) (row : Z)
    : res (list Z) :=
  let idx := cell width rh row in
  c ← vec_get t idx; vec_set t idx (iadd64 c (imul64 (sign rh row) value)).

Definition update_signed (s : CountSketch) (key : bytes) (value : Z) : res CountSketch :=
  let rh := RowHashes_new (cs_hash s) key in
  table ← foldM (signed_row (cs_width s) rh value) (cs_table s) (rows (cs_depth s));
  Ok {| cs_width := cs_width s; cs_depth := cs_depth s; cs_hash := cs_hash s;
        cs_table := table; cs_updates := cs_updates s +ʷ 1 |}.

Definition median (ests : list Z) : res Z :=
  let ests := sort_unstable ests in
  let mid := zlen ests / 2 in
  if zlen ests mod 2 =? 1 then vec_get ests mid
  else
    a ← vec_get ests (mid - 1);
    b ← vec_get ests mid;
    Ok (Z.quot (iadd64 a b) 2).

Definition estimate_signed (s : CountSketch) (key : bytes) : res Z :=
  let rh := RowHashes_new (cs_hash s) key in
  ests ← foldM (λ acc row,
      c ← vec_get (cs_table s) (cell (cs_width s) rh row);
      Ok (acc ++ [imul64 (sign rh row) c])) [] (rows (cs_depth s));
  median ests.

Definition params_hash (s : CountSketch) : Z :=
  let w := Writer_new in
  let w := w_u64 w (cs_width s) in
  let w := w_u64 w (cs_depth s) in
  hash64 w 0.

Definition to_snapshot (s : CountSketch) (window_start_nanos window_end_nanos : Z)
    : list Z :=
  let params := Writer_new in
  let params := w_u32 params (as_u32 (cs_width s)) in
  let params := w_u32 params (as_u32 (cs_depth s)) in
  let payload := Writer_new in
  let payload := w_u64 payload (cs_updates s) in
  let payload := foldl w_i64 payload (cs_table s) in
  write_snapshot
    {| sh_version := SNAPSHOT_VERSION; sh_algorithm_id := COUNT_SKETCH;
       sh_hash := cs_hash s; sh_window_start_nanos := window_start_nanos;
       sh_window_end_nanos := window_end_nanos |}
    params payload.

Definition from_snapshot (b : bytes) : res CountSketch :=
  '(header, params, payload) ← read_snapshot b;
  _ ← fail_if (negb (sh_algorithm_id header =? COUNT_SKETCH))
        (SnapshotError "not a count-sketch snapshot");
  let p := Reader_new params in
  '(width, p) ← r_u32 p;
  '(depth, p) ← r_u32 p;
  _ ← fail_if ((width =? 0) || (depth =? 0))
        (SnapshotError "count-sketch snapshot width and depth must be positive");
  cells ← ok_or (checked_mul width depth)
            (SnapshotError "count-sketch snapshot table overflows");
  let r := Reader_new payload in
  '(updates, r) ← r_u64 r;
  _ ← check_count r cells 8;
  '(table, r) ← read_n (Z.to_nat cells) r_i64 r;
  Ok {| cs_width := width; cs_depth := depth; cs_hash := sh_hash header;
        cs_table := table; cs_updates := updates |}.

Definition update (s : CountSketch) (key : bytes) (value : Z) : res CountSketch :=
  update_signed s key (as_i64 value).

Definition estimate (s : CountSketch) (key : bytes) : res f64 :=
  e ← estimate_signed s key; Ok (f64_of_Z e).

Definition compatibility (s : CountSketch) : SketchCompatibility :=
  {| sc_algorithm := ALGORITHM; sc_version := 1; sc_hash := cs_hash s;
     sc_params_hash := params_hash s |}.

Definition merge_from (s other : CountSketch) : res CountSketch :=
  _ ← ensure_matches (compatibility s) (compatibility other);
  Ok {| cs_width := cs_width s; cs_depth := cs_depth s; cs_hash := cs_hash s;
        cs_table := zip_update iadd64 (cs_table s) (cs_table other);
        cs_updates := cs_updates s +ʷ cs_updates other |}.

Definition memory_bytes (size_of_self : Z) (s : CountSketch) : Z :=
  zlen (cs_table s) * 8 + size_of_self.

Definition reset (s : CountSketch) : CountSketch :=
  {| cs_width := cs_width s; cs_depth := cs_depth s; cs_hash := cs_hash s;
     cs_table := replicate (length (cs_table s)) 0; cs_updates := 0 |}.

#[export] Instance CountSketch_Sketch : Sketch CountSketch := {
  sk_update := update;
  sk_merge_from := merge_from;
  sk_reset := reset;
  sk_update_count := cs_updates;
  sk_compatibility := compatibility;
}.

(** ** Well-formedness, updates and merges *)

Record wf (s : CountSketch) : Prop := {
  wf_width : 0 < cs_width s;
  wf_depth : 0 < cs_depth s;
  wf_len : zlen (cs_table s) = cs_width s * cs_depth s;
  wf_cells : Forall i64_ok (cs_table s);
  wf_updates : u64_ok (cs_updates s);
}.

Definition same_shape (s t : CountSketch) : Prop :=
  cs_width t = cs_width s ∧ cs_depth t = cs_depth s ∧ cs_hash t = cs_hash s.

Abbreviation get s := (at_cell (cs_width s) (cs_table s)).

Lemma iadd64_range a b : i64_ok (iadd64 a b).
Proof. apply iwrap64_range. Qed.

Lemma cs_wf_get s row col :
  wf s → 0 <= row < cs_depth s → 0 <= col < cs_width s →
  ∃ c, get s row col = Some c ∧ i64_ok c.
Proof.
  intros Hs Hr Hc.
  destruct (at_cell_is_Some (cs_width s) (cs_depth s) (wf_width s Hs) (cs_table s) row col)
    as [c Hget]; [apply Hs|done..|].
  exists c. split; [done|]. eapply Forall_lookup_1; [apply Hs|exact Hget].
Qed.

Lemma cs_cells_of_get s :
  0 < cs_width s → zlen (cs_table s) = cs_width s * cs_depth s →
  (∀ row col c, 0 <= row < cs_depth s → 0 <= col < cs_width s →
    get s row col = Some c → i64_ok c) →
  Forall i64_ok (cs_table s).
Proof.
  intros Hw Hl H. apply Forall_lookup_2. intros i c Hi.
  destruct (index_coord _ _ Hw _ _ _ Hl Hi) as (row & col & ? & ? & ? & ?). eauto.
Qed.

Lemma cs_new_wf width depth h s :
  0 <= width → 0 <= depth → width * depth < u64_mod →
  new width depth h = Ok s →
  wf s ∧ cs_width s = width ∧ cs_depth s = depth ∧ cs_hash s = h ∧ cs_updates s = 0 ∧
  ∀ row col, 0 <= row < depth → 0 <= col < width → get s row col = Some 0.
Proof.
  intros Hw Hd Hm H. unfold new in H.
  destruct (Z.eqb_spec width 0), (Z.eqb_spec depth 0); try done.
  injection H as <-. rewrite wmul64_small by word_lia. simpl.
  split_and!; try done.
  - split; simpl; try word_lia.
    + unfold zlen. rewrite length_replicate. lia.
    + apply Forall_replicate. word_lia.
  - intros row col Hr Hc. unfold at_cell. apply lookup_replicate_2.
    pose proof (coord_bound width depth ltac:(lia) row col Hr Hc). lia.
Qed.

Lemma cs_update_spec s key v :
  wf s → ∃ s', update_signed s key v = Ok s' ∧ wf s' ∧ same_shape s s' ∧
    cs_updates s' = cs_updates s +ʷ 1 ∧
    ∀ row col, 0 <= row < cs_depth s → 0 <= col < cs_width s →
      get s' row col =
        (λ c, iwrap64 (c + mass1 sign (cs_hash s) (cs_width s) (key, v) row col)) <$>
          get s row col.
Proof.
  intros Hs. pose proof (wf_width s Hs) as Hw. pose proof (wf_len s Hs) as Hl.
  unfold update_signed. set (rh := RowHashes_new (cs_hash s) key).
  edestruct (foldM_rows (cs_width s) (cs_depth s) Hw
    (signed_row (cs_width s) rh v) (λ row c, iadd64 c (imul64 (sign rh row) v)) rh)
    as (t' & -> & Hlen & Hcell); [exact Hl| |].
  { intros t row c Hr%elem_of_rows Hget Ht. unfold signed_row.
    rewrite (vec_get_cell (cs_width s) (cs_depth s)), Hget by done. ostep.
    pose proof (cell_bound (cs_width s) (cs_depth s) Hw rh row Hr).
    rewrite vec_set_ok by lia. by eexists. }
  ostep. eexists. split; [done|].
  assert (∀ row col, 0 <= row < cs_depth s → 0 <= col < cs_width s →
    at_cell (cs_width s) t' row col =
      (λ c, iwrap64 (c + mass1 sign (cs_hash s) (cs_width s) (key, v) row col)) <$>
        get s row col) as Hcell'.
  { intros row col Hr Hc. rewrite Hcell by done.
    destruct (cs_wf_get s row col Hs Hr Hc) as (c & -> & Hok). ofmap. f_equal.
    unfold mass1. cbn [fst snd]. fold rh. case_decide.
    - unfold iadd64, imul64. by rewrite iwrap64_add_r.
    - by rewrite Z.add_0_r, iwrap64_small. }
  split; [|done]. split; cbn; try apply Hs; [| |apply wadd64_range].
  - rewrite <- (wf_len s Hs). unfold zlen. by rewrite Hlen.
  - apply (cs_cells_of_get {| cs_width := cs_width s; cs_depth := cs_depth s;
      cs_hash := cs_hash s; cs_table := t'; cs_updates := 0 |}); cbn; [done| |].
    + rewrite <- (wf_len s Hs). unfold zlen. by rewrite Hlen.
    + intros row col c Hr Hc Hget. rewrite Hcell' in Hget by done.
      destruct (cs_wf_get s row col Hs Hr Hc) as (c0 & Hc0 & _). rewrite Hc0 in Hget.
      ofmap. injection Hget as <-. apply iwrap64_range.
Qed.

Lemma cs_compatibility_same s t : same_shape s t → compatibility s = compatibility t.
Proof. intros (Hw & Hd & Hh). unfold compatibility, params_hash. congruence. Qed.

Lemma zip_iadd_ok xs ys : Forall i64_ok xs → Forall i64_ok (zip_update iadd64 xs ys).
Proof.
  intros Hx. apply Forall_lookup_2. intros i c. rewrite lookup_zip_update.
  destruct (xs !! i) eqn:Hi; [|done]. ostep. intros [= <-].
  case_match; [apply iadd64_range|]. by eapply Forall_lookup_1.
Qed.

Lemma cs_merge_spec s t :
  wf s → wf t → same_shape s t →
  ∃ s', merge_from s t = Ok s' ∧ wf s' ∧ same_shape s s' ∧
    cs_updates s' = cs_updates s +ʷ cs_updates t ∧
    ∀ row col a b, 0 <= row < cs_depth s → 0 <= col < cs_width s →
      get s row col = Some a → get t row col = Some b →
      get s' row col = Some (iadd64 a b).
Proof.
  intros Hs Ht Hsh. unfold merge_from.
  rewrite (cs_compatibility_same s t Hsh), ensure_matches_refl. ostep.
  eexists. split; [done|]. destruct Hsh as (Hw & Hd & Hh).
  split; [split|split; [done|split]]; cbn [cs_width cs_depth cs_table cs_updates];
    try apply wadd64_range; try apply Hs; try done.
  - unfold zlen. rewrite length_zip_update. apply Hs.
  - apply zip_iadd_ok, Hs.
  - intros row col a b Hr Hcol Ha Hb. unfold at_cell in *.
    rewrite Hw in Hb. rewrite lookup_zip_update, Ha. cbn. by rewrite Hb.
Qed.

(** ** Histories *)

Definition cs_init (width depth : Z) (h : HashSpec) (s : CountSketch) : Prop :=
  new width depth h = Ok s.
Definition cs_upd (s : CountSketch) (p : bytes * Z) (s' : CountSketch) : Prop :=
  update_signed s p.1 p.2 = Ok s'.
Definition cs_mrg (s t s' : CountSketch) : Prop := merge_from s t = Ok s'.
Abbreviation hist width depth h := (built (cs_init width depth h) cs_upd cs_mrg).

Section history.
Context (width depth : Z) (h : HashSpec).
Context (Hdim : 0 <= width ∧ 0 <= depth ∧ width * depth < u64_mod).
Implicit Types (s t : CountSketch) (l : list (bytes * Z)).

Definition shaped s : Prop :=
  wf s ∧ cs_width s = width ∧ cs_depth s = depth ∧ cs_hash s = h.

(** The cells are the signed masses of the updates, as [i64]s. *)
Lemma cs_hist_cells s l :
  hist width depth h s l →
  shaped s ∧ ∀ row col, 0 <= row < depth → 0 <= col < width →
    at_cell width (cs_table s) row col = Some (iwrap64 (mass sign h width l row col)).
Proof using Hdim.
  induction 1 as [s Hi|s l [k v] s' _ [(Hs & Ew & Ed & Eh) IH] Hu|
    s l t m s' _ [(Hs & Ew & Ed & Eh) IHs] _ [(Ht & Fw & Fd & Fh) IHt] Hg].
  - destruct (cs_new_wf _ _ _ _ (proj1 Hdim) (proj1 (proj2 Hdim)) (proj2 (proj2 Hdim)) Hi)
      as (Hs & Ew & Ed & Eh & _ & Hz).
    split; [done|]. by rewrite Ew in Hz.
  - destruct (cs_update_spec s k v Hs) as (s2 & Hu2 & Hwf & (Gw & Gd & Gh) & _ & Hc).
    unfold cs_upd in Hu. cbn in Hu. rewrite Hu in Hu2. injection Hu2 as <-.
    split; [split_and!; [done|congruence..]|].
    intros row col Hr Hcol. rewrite Gw, Ew, Ed, Eh in Hc.
    rewrite Hc, IH by done. ofmap. f_equal.
    by rewrite mass_snoc, iwrap64_add_l.
  - destruct (cs_merge_spec s t Hs Ht) as (s2 & Hm2 & Hwf & (Gw & Gd & Gh) & _ & Hc);
      [split_and!; congruence|].
    unfold cs_mrg in Hg. rewrite Hg in Hm2. injection Hm2 as <-.
    split; [split_and!; [done|congruence..]|].
    intros row col Hr Hcol. rewrite Gw, Fw, Ew, Ed in Hc.
    erewrite Hc; [|done|done|by apply IHs|by apply IHt].
    by rewrite iadd64_wrap, mass_app.
Qed.
End history.

(** CountSketch depends on frequencies only.  Two sketches with the same
    parameters, built by any histories of signed updates and merges in which
    every key has the same net weight, have equal tables and give every key
    the same estimate: updates commute, deletions cancel insertions exactly,
    and merging nodes equals processing one stream, even when counters wrap. *)
Lemma turnstile_frequencies width depth h s t l m :
  0 <= width → 0 <= depth → width * depth < u64_mod →
  hist width depth h s l → hist width depth h t m →
  (∀ k, weight_of k l = weight_of k m) →
  cs_table s = cs_table t ∧ ∀ key, estimate_signed s key = estimate_signed t key.
Proof.
  intros Hw Hd Hm Hs Ht Hf. pose proof (conj Hw (conj Hd Hm)) as Hdim.
  destruct (cs_hist_cells _ _ _ Hdim s l Hs) as [(Ws & Ew & Ed & Eh) Cs].
  destruct (cs_hist_cells _ _ _ Hdim t m Ht) as [(Wt & Fw & Fd & Fh) Ct].
  assert (cs_table s = cs_table t) as Htab.
  { pose proof (wf_width s Ws) as Hw0. pose proof (wf_len s Ws) as Ls.
    pose proof (wf_len t Wt) as Lt. rewrite Ew, Ed in *. rewrite Fw, Fd in *.
    apply (table_ext width depth Hw0); [done|unfold zlen in *; lia|].
    intros row col Hr Hc. rewrite Cs, Ct by done. do 2 f_equal.
    by apply mass_frequencies. }
  split; [done|]. intros key. unfold estimate_signed. by rewrite Htab, Ew, Ed, Eh, Fw, Fd, Fh.
Qed.

Definition blank : CountSketch :=
  {| cs_width := 8; cs_depth := 3; cs_hash := HashSpec_default;
     cs_table := replicate 24 0; cs_updates := 0 |}.
Definition noisy : CountSketch :=
  run_or blank (s ← update_signed blank [1] 5; s ← update_signed s [2] 7;
                update_signed s [2] (-7)).
Definition clean : CountSketch := run_or blank (update_signed blank [1] 5).

Lemma clean_hist : hist 8 3 HashSpec_default clean [([1], 5)].
Proof. apply (built_upd _ _ _ blank [] ([1], 5)); [by apply built_init|by vm_compute]. Qed.
Lemma noisy_hist : hist 8 3 HashSpec_default noisy [([1], 5); ([2], 7); ([2], -7)].
Proof.
  apply (built_upd _ _ _ (run_or blank (update_signed clean [2] 7)) [([1], 5); ([2], 7)]
    ([2], -7)); [|by vm_compute].
  apply (built_upd _ _ _ clean [([1], 5)] ([2], 7)); [apply clean_hist|by vm_compute].
Qed.

Lemma turnstile_frequencies_witness :
  cs_table noisy = cs_table clean ∧
  ∀ key, estimate_signed noisy key = estimate_signed clean key.
Proof.
  apply (turnstile_frequencies 8 3 HashSpec_default noisy clean
    [([1], 5); ([2], 7); ([2], -7)] [([1], 5)]);
    [done|done|done|apply noisy_hist|apply clean_hist|].
  intros k. unfold weight_of. cbn [foldr fst snd]. repeat case_decide; lia.
Defined.

(** ** The median *)

Lemma median_total (ests : list Z) : 0 < zlen ests → ∃ m, median ests = Ok m.
Proof.
  intros Hl. unfold median. cbv zeta.
  assert (zlen (sort_unstable ests) = zlen ests) as ->
    by (unfold zlen; by rewrite length_sort_unstable).
  assert (∀ i, 0 <= i < zlen ests → ∃ x : Z,
    vec_get (E := SketchError) (sort_unstable ests) i = Ok x) as Hget.
  { intros i Hi. destruct (vec_get_ok (E := SketchError) (sort_unstable ests) i) as (x & Hx & _).
    - unfold zlen. by rewrite length_sort_unstable.
    - eauto. }
  destruct (Z.eqb_spec (zlen ests mod 2) 1).
  - apply Hget. split; [apply Z.div_pos; lia|apply Z.div_lt; lia].
  - assert (2 <= zlen ests).
    { destruct (Z.eq_dec (zlen ests) 1) as [E|]; [|lia]. by rewrite E in *. }
    destruct (Hget (zlen ests / 2 - 1)) as [a ->].
    { Z.to_euclidean_division_equations; lia. }
    ostep. destruct (Hget (zlen ests / 2)) as [b ->].
    { Z.to_euclidean_division_equations; lia. }
    ostep. eauto.
Qed.

(** The median lies in every interval that holds a strict majority. *)
Lemma median_in_interval ests a b m :
  - 4611686018427387904 <= a → b < 4611686018427387904 →
  (length ests < 2 * count_if (λ y, (a <= y <= b)%Z) ests)%nat →
  median ests = Ok m → a <= m <= b.
Proof.
  intros Ha Hb Hc H. unfold median in H. cbv zeta in H.
  assert (zlen (sort_unstable ests) = zlen ests) as Hl
    by (unfold zlen; by rewrite length_sort_unstable).
  rewrite Hl in H. unfold zlen in H.
  pose proof (Z.div_mod (Z.of_nat (length ests)) 2 ltac:(lia)) as Hdm.
  pose proof (Z.mod_pos_bound (Z.of_nat (length ests)) 2 ltac:(lia)) as Hmb.
  destruct (Z.eqb_spec (Z.of_nat (length ests) mod 2) 1).
  - apply vec_get_inv in H as [_ H].
    eapply middle_in_interval; [exact H|done|lia|lia].
  - apply bind_ok in H as (x & Hx & H). apply bind_ok in H as (y & Hy & H).
    injection H as <-. apply vec_get_inv in Hx as [? Hx], Hy as [? Hy].
    eapply middle_in_interval in Hx; [|exact Hc|lia|lia].
    eapply middle_in_interval in Hy; [|exact Hc|lia|lia].
    unfold iadd64. rewrite iwrap64_small by word_lia.
    Z.to_euclidean_division_equations; lia.
Qed.

(** A key's weight as row [row] sees it: the signed mass of its cell. *)
Definition row_estimate (h : HashSpec) (width : Z) (l : list (bytes * Z)) (key : bytes)
    (row : Z) : Z :=
  let rh := RowHashes_new h key in
  sign rh row * mass sign h width l row (index rh row width).

Lemma mass_abs h width l row col :
  Z.abs (mass sign h width l row col) <= total_of ((λ p, (p.1, Z.abs p.2)) <$> l).
Proof.
  induction l as [|p l IH]; [done|].
  change (mass _ _ _ (p :: l)) with
    (λ r c, mass1 sign h width p r c + mass sign h width l r c).
  cbn [fmap list_fmap total_of foldr snd].
  assert (Z.abs (mass1 sign h width p row col) <= Z.abs p.2).
  { unfold mass1. destruct (sign_cases (RowHashes_new h p.1) row) as [-> | ->];
      case_decide; lia. }
  fold (total_of ((λ p, (p.1, Z.abs p.2)) <$> l)). cbv beta. lia.
Qed.

Lemma estimate_is_median width depth h s l key :
  0 <= width ∧ 0 <= depth ∧ width * depth < u64_mod →
  hist width depth h s l →
  total_of ((λ p, (p.1, Z.abs p.2)) <$> l) < i64_half →
  estimate_signed s key = median (row_estimate h width l key <$> rows depth).
Proof.
  intros Hdim Hs Htot. destruct (cs_hist_cells _ _ _ Hdim s l Hs) as [(Ws & Ew & Ed & Eh) Cs].
  unfold estimate_signed. rewrite Eh.
  pose proof (wf_width s Ws) as Hw. pose proof (wf_len s Ws) as Hl.
  rewrite (foldM_read (cs_width s) (cs_depth s) Hw
    (λ acc row c, acc ++ [imul64 (sign (RowHashes_new h key) row) c])) by exact Hl.
  ostep. rewrite foldl_snoc. cbn [app]. f_equal. rewrite Ed.
  apply list_fmap_ext. intros i row Hi.
  assert (0 <= row < depth) as Hr by (apply elem_of_rows, list_elem_of_lookup; eauto).
  unfold row_estimate. rewrite Ew in *. rewrite Cs by (done || by apply index_range).
  cbn [default from_option]. unfold id.
  pose proof (mass_abs h width l row (index (RowHashes_new h key) row width)) as Habs.
  rewrite iwrap64_small by word_lia.
  unfold imul64. rewrite iwrap64_small; [done|].
  destruct (sign_cases (RowHashes_new h key) row) as [-> | ->]; word_lia.
Qed.

(** [C21] The CountSketch error contract.  Take any history of signed updates and
    merges whose absolute weights sum below 2^62.  If in a strict majority of
    the rows the noise from colliding keys is at most [e], then the estimate
    is within [e] of the key's true net weight; in particular it is exact
    when a strict majority of rows is free of collision noise. *)
Theorem estimate_majority width depth h s l key e :
  0 <= width → 0 <= depth → width * depth < u64_mod →
  hist width depth h s l →
  total_of ((λ p, (p.1, Z.abs p.2)) <$> l) + e < 4611686018427387904 →
  let f := weight_of key l in
  (length (rows depth) <
    2 * count_if (λ x, (f - e <= x <= f + e)%Z)
          (row_estimate h width l key <$> rows depth))%nat →
  ∃ est, estimate_signed s key = Ok est ∧ Z.abs (est - f) <= e.
Proof.
  intros Hw Hd Hm Hs Htot f Hc. pose proof (conj Hw (conj Hd Hm)) as Hdim.
  assert (Z.abs f <= total_of ((λ p, (p.1, Z.abs p.2)) <$> l)) as Hf.
  { unfold f. clear. induction l as [|p l IH]; [done|].
    cbn [fmap list_fmap total_of weight_of foldr snd].
    fold (total_of ((λ p, (p.1, Z.abs p.2)) <$> l)) (weight_of key l).
    cbv beta. case_decide; lia. }
  assert (0 < zlen (row_estimate h width l key <$> rows depth)) as Hpos.
  { unfold zlen. rewrite length_fmap.
    pose proof (count_if_le (λ x, (f - e <= x <= f + e)%Z)
      (row_estimate h width l key <$> rows depth)) as Hcl.
    rewrite length_fmap in Hcl. lia. }
  destruct (median_total _ Hpos) as [m Hmed].
  assert (0 <= e) as He0.
  { destruct (Z.le_gt_cases 0 e); [done|exfalso].
    rewrite count_if_none in Hc by (intros; lia). lia. }
  exists m. split.
  - rewrite (estimate_is_median _ _ _ _ _ _ Hdim Hs) by lia. done.
  - eapply (median_in_interval _ (f - e) (f + e)) in Hmed; [lia|lia|lia|].
    by rewrite length_fmap.
Qed.

Lemma estimate_majority_witness :
  ∃ est, estimate_signed noisy [1] = Ok est ∧
    Z.abs (est - weight_of [1] [([1], 5); ([2], 7); ([2], -7)]) <= 0.
Proof.
  apply (estimate_majority 8 3 HashSpec_default noisy
    [([1], 5); ([2], 7); ([2], -7)] [1] 0); [done|done|done|apply noisy_hist|done|].
  vm_compute. lia.
Defined.

(** ** Snapshots *)

Lemma cs_to_snapshot_eq s ws we :
  u32_ok (cs_width s) → u32_ok (cs_depth s) →
  to_snapshot s ws we =
    write_snapshot
      {| sh_version := SNAPSHOT_VERSION; sh_algorithm_id := COUNT_SKETCH;
         sh_hash := cs_hash s; sh_window_start_nanos := ws; sh_window_end_nanos := we |}
      (le_bytes 4 (cs_width s) ++ le_bytes 4 (cs_depth s))
      (le_bytes 8 (cs_updates s) ++ encode_all i64_bytes (cs_table s)).
Proof.
  intros Hw Hd. unfold to_snapshot. cbv zeta.
  rewrite (foldl_write w_i64 i64_bytes) by done.
  unfold w_u64, w_u32, Writer_new, as_u32. rewrite !Z.mod_small by word_lia. done.
Qed.

(** A CountSketch snapshot restores the sketch exactly, negative counters
    included. *)
Lemma cs_snapshot_round_trip s ws we :
  wf s → hash_spec_ok (cs_hash s) → u64_ok ws → u64_ok we →
  u32_ok (cs_width s) → u32_ok (cs_depth s) → u32_ok (8 + 8 * zlen (cs_table s)) →
  from_snapshot (to_snapshot s ws we) = Ok s.
Proof.
  intros Hs Hh Hws Hwe Hw Hd Hp.
  assert (zlen (encode_all i64_bytes (cs_table s)) = 8 * zlen (cs_table s)) as Hlen
    by (apply zlen_encode_all; intros; apply zlen_le_bytes).
  rewrite cs_to_snapshot_eq by done. unfold from_snapshot.
  rewrite read_write_snapshot.
  - ostep. cbv beta iota zeta. cbn [sh_algorithm_id sh_hash]. rewrite Z.eqb_refl. ostep.
    change Reader_new with (rd []).
    rewrite r_u32_rd by done. ostep.
    rewrite <- (app_nil_r (le_bytes 4 (cs_depth s))), r_u32_rd by done. ostep.
    rewrite (proj2 (Z.eqb_neq (cs_width s) 0)) by (pose proof (wf_width s Hs); lia).
    rewrite (proj2 (Z.eqb_neq (cs_depth s) 0)) by (pose proof (wf_depth s Hs); lia). ostep.
    cbn [orb]. unfold checked_mul.
    rewrite (proj2 (Z.ltb_lt _ _)) by (rewrite <- (wf_len s Hs); word_lia). ostep.
    rewrite r_u64_rd by apply Hs. ostep.
    rewrite (proj2 (check_count_rd _ _ _ _)).
    2:{ rewrite Hlen, <- (wf_len s Hs). change (Z.max 8 1) with 8.
        rewrite Z.mul_comm, Z.div_mul; lia. }
    ostep. rewrite <- (wf_len s Hs). unfold zlen at 1. rewrite Nat2Z.id.
    rewrite <- (app_nil_r (encode_all _ _)), read_i64s_rd by apply Hs. ostep.
    by destruct s.
  - unfold header_ok. cbn. done.
  - rewrite !zlen_app, !zlen_le_bytes. cbn. range_tac.
  - rewrite !zlen_app, !zlen_le_bytes, Hlen. word_lia.
Qed.

#[local] Instance i64_ok_dec x : Decision (i64_ok x).
Proof. unfold i64_ok. apply _. Defined.

Lemma clean_wf : wf clean.
Proof.
  split; [by range_tac..| |by range_tac].
  apply (bool_decide_unpack _). vm_compute. exact I.
Qed.

Lemma cs_snapshot_round_trip_witness : from_snapshot (to_snapshot clean 0 60) = Ok clean.
Proof.
  apply (cs_snapshot_round_trip clean 0 60); [apply clean_wf|split|..]; by range_tac.
Defined.

(** Restoring an untrusted CountSketch snapshot is safe: it never panics,
    and an accepted sketch is well-formed, no larger than the input, and can
    be queried and updated without panicking. *)
Lemma cs_from_snapshot_safe b :
  bytes_ok b →
  no_panic (from_snapshot b) ∧
  ∀ s, from_snapshot b = Ok s →
    wf s ∧ 8 * zlen (cs_table s) <= zlen b ∧
    ∀ key v, no_panic (update_signed s key v).
Proof.
  intros Hb. split.
  - unfold from_snapshot.
    apply bind_no_panic; [by apply parse_no_panic|]. intros [[hd ps] pl] Hr.
    destruct (accepted_parts _ _ _ _ Hb Hr) as (_ & Hps & Hpl & _).
    change Reader_new with (rd []). no_panic_read. by apply read_i64s_no_panic.
  - intros s H. unfold from_snapshot in H.
    apply bind_ok in H as ([[hd ps] pl] & Hr & H).
    destruct (accepted_parts _ _ _ _ Hb Hr) as (Hh & Hps & Hpl & Hlen).
    assert (zlen pl <= zlen b) as Hle by (pose proof (zlen_nonneg ps); lia). clear Hlen.
    change Reader_new with (rd []) in H. read_inv.
    match goal with
    | H : ok_or _ _ = Ok ?c, Hc : check_count _ _ _ = Ok ?u, Ht : read_n _ _ _ = Ok _ |- _ =>
        rename H into Hmul, Hc into Hcount, Ht into Htab; destruct u
    end.
    apply check_count_rd in Hcount. injection H as <-.
    apply read_i64s_inv in Htab as (suf & -> & _ & _ & Hn & Hcells); [|done].
    unfold checked_mul in Hmul. case_match; [|done]. injection Hmul as <-.
    match goal with H : _ || _ = false |- _ => apply orb_false_iff in H as [Hw Hd] end.
    apply Z.eqb_neq in Hw, Hd.
    match goal with |- wf ?s ∧ _ => assert (wf s) as Hwf end.
    { split; cbn; try word_lia; try done.
      unfold zlen. rewrite Hn, Z2Nat.id; [done|]. word_lia. }
    split; [done|]. split.
    + cbn. rewrite !zlen_app, !zlen_le_bytes,
        (zlen_encode_all i64_bytes 8) in Hle by (intros; apply zlen_le_bytes).
      pose proof (zlen_nonneg suf). lia.
    + intros key v. destruct (cs_update_spec _ key v Hwf) as (s' & -> & _). done.
Qed.

Lemma cs_from_snapshot_safe_witness :
  no_panic (from_snapshot (to_snapshot clean 0 60)) ∧ wf clean.
Proof.
  assert (bytes_ok (to_snapshot clean 0 60)) as Hb
    by (apply (bool_decide_unpack _); vm_compute; exact I).
  destruct (cs_from_snapshot_safe (to_snapshot clean 0 60) Hb) as [H1 H2].
  split; [exact H1|]. apply H2. vm_compute. reflexivity.
Defined.

#[export] Instance CountSketch_Lawful : LawfulSketch CountSketch (λ s, wf s).
Proof.
  split; cbn [sk_update sk_merge_from sk_reset sk_update_count sk_compatibility
    CountSketch_Sketch].
  - intros s k v Hs _.
    destruct (cs_update_spec s k (as_i64 v) Hs) as (s' & Hu & Hwf & Hsh & Hn & _).
    exists s'. split; [done|]. split; [done|]. split; [|done].
    symmetry. by apply cs_compatibility_same.
  - intros s t Hs Ht Hc. unfold merge_from. rewrite (proj2 (ensure_matches_ok _ _) Hc). clear Hc. ostep.
    eexists. split; [done|]. split; [split; cbn|split; [by apply cs_compatibility_same|done]];
      try apply wadd64_range; try apply Hs.
    + unfold zlen. rewrite length_zip_update. apply Hs.
    + apply zip_iadd_ok, Hs.
  - intros s t Hne. unfold merge_from, ensure_matches. by rewrite decide_True.
  - intros s Hs. split; [|split; [done|by apply cs_compatibility_same]].
    split; cbn; try apply Hs; try by range_tac.
    + unfold zlen. rewrite length_replicate. apply Hs.
    + apply Forall_replicate. by range_tac.
Qed.
