(* ===== verification/MisraGries.v ===== *)
(** * Misra-Gries frequent items  (crates/flowsketch-algos/src/misra_gries.rs)

    At most [capacity] counters; an update that finds no room decrements every
    counter.  The hash map is a [gmap]; its iteration order never shows, since
    the code takes minima, sums and sorts of what it iterates.

    Proved: every count is at most the truth and misses at most
    [total / (capacity + 1)] of it, over any history of updates and merges;
    the trimming loop of a merge runs at most once; snapshots. *)
From S2P Require Import Prelude Bytes Maps Hash Sketch Snapshot F64.

Definition ALGORITHM : string := "misra-gries".

Record MisraGries := mkMG {
  mg_capacity : Z;
  mg_hash : HashSpec;
  mg_counters : gmap bytes Z;
  mg_total_weight : Z;
  mg_updates : Z;
}.

Definition new (capacity : Z) (hash : HashSpec) : res MisraGries :=
  if capacity =? 0 then Err (InvalidParam "misra-gries capacity must be positive")
  else Ok {| mg_capacity := capacity; mg_hash := hash; mg_counters := ∅;
             mg_total_weight := 0; mg_updates := 0 |}.

Definition len (s : MisraGries) : Z := Z.of_nat (size (mg_counters s)).

Definition epsilon (s : MisraGries) : f64 :=
  f_div f_one (f_add (f64_of_Z (mg_capacity s)) f_one).

Definition with_counters (s : MisraGries) (c : gmap bytes Z) (total updates : Z)
    : MisraGries :=
  {| mg_capacity := mg_capacity s; mg_hash := mg_hash s; mg_counters := c;
     mg_total_weight := total; mg_updates := updates |}.

(** [values().min()] *)
Definition min_value (m : gmap bytes Z) : option Z :=
  match values m with
  | [] => None
  | v :: vs => Some (foldl Z.min v vs)
  end.

(** The counters after [add(key, weight)]. *)
Definition add_counters (capacity : Z) (m : gmap bytes Z) (key : bytes) (weight : Z)
    : res (gmap bytes Z) :=
  match m !! key with
  | Some c => Ok (<[key := c +ʷ weight]> m)
  | None =>
      if Z.of_nat (size m) <? capacity then Ok (<[key := weight]> m)
      else
        min ← expect (min_value m);
        let dec := Z.min min weight in
        let m := retain_pos (λ c, c -ʷ dec) m in
        let leftover := weight -ʷ dec in
        Ok (if (0 <? leftover) && (Z.of_nat (size m) <? capacity)
            then <[key := leftover]> m else m)
  end.

Definition add (s : MisraGries) (key : bytes) (weight : Z) : res MisraGries :=
  c ← add_counters (mg_capacity s) (mg_counters s) key weight;
  Ok (with_counters s c (mg_total_weight s +ʷ weight) (mg_updates s +ʷ 1)).

Definition get (s : MisraGries) (key : bytes) : option Z := mg_counters s !! key.

(** Descending counts, ties by key. *)
Definition candidate_cmp (a b : bytes * Z) : comparison :=
  then_with (b.2 ?= a.2) (bytes_cmp a.1 b.1).
Definition candidates (s : MisraGries) : list (bytes * Z) :=
  sort_by candidate_cmp (map_to_list (mg_counters s)).

(** One pass of the [while] loop. *)
Definition trim_step (capacity : Z) (m : gmap bytes Z) : res (gmap bytes Z) :=
  let excess := Z.of_nat (size m) - capacity in
  dec ← vec_get (sort_unstable (values m)) (excess - 1);
  Ok (retain_pos (λ c, c - Z.min c dec) m).

(** The loop, at most [fuel] passes; [None] when they do not suffice. *)
Fixpoint trim_loop (fuel : nat) (capacity : Z) (m : gmap bytes Z)
    : option (res (gmap bytes Z)) :=
  if capacity <? Z.of_nat (size m) then
    match fuel with
    | O => None
    | S fuel =>
        match trim_step capacity m with
        | Ok m => trim_loop fuel capacity m
        | Err e => Some (Err e)
        | Panic => Some Panic
        end
    end
  else Some (Ok m).

(** Each pass removes a counter, so this fuel is never used up. *)
Definition trim_to_capacity (capacity : Z) (m : gmap bytes Z) : res (gmap bytes Z) :=
  default Panic (trim_loop (S (size m)) capacity m).

Definition params_hash (s : MisraGries) : Z := hash64 (le_bytes 8 (mg_capacity s)) 0.

Definition compatibility (s : MisraGries) : SketchCompatibility :=
  {| sc_algorithm := ALGORITHM; sc_version := 1; sc_hash := mg_hash s;
     sc_params_hash := params_hash s |}.

Definition merge_from (s other : MisraGries) : res MisraGries :=
  _ ← ensure_matches (compatibility s) (compatibility other);
  c ← trim_to_capacity (mg_capacity s) (add_all (mg_counters s) (mg_counters other));
  Ok (with_counters s c (mg_total_weight s +ʷ mg_total_weight other)
        (mg_updates s +ʷ mg_updates other)).

Definition estimate (s : MisraGries) (key : bytes) : f64 :=
  f64_of_Z (default 0 (get s key)).

Definition memory_bytes (size_of_self : Z) (s : MisraGries) : Z :=
  msum (λ k _, zlen k + 8 + 32) (mg_counters s) + size_of_self.

Definition reset (s : MisraGries) : MisraGries := with_counters s ∅ 0 0.

Definition w_counter (w : Writer) (p : bytes * Z) : Writer :=
  w_u64 (w_lp_bytes w p.1) p.2.
Definition r_counter (r : Reader) : res ((bytes * Z) * Reader) :=
  '(key, r) ← r_lp_bytes r; '(count, r) ← r_u64 r; Ok ((key, count), r).

Definition to_snapshot (s : MisraGries) (window_start_nanos window_end_nanos : Z)
    : list Z :=
  let params := Writer_new in
  let params := w_u64 params (mg_capacity s) in
  let payload := Writer_new in
  let payload := w_u64 payload (mg_total_weight s) in
  let payload := w_u64 payload (mg_updates s) in
  let payload := w_u32 payload (as_u32 (len s)) in
  let payload := foldl w_counter payload (sorted_entries (mg_counters s)) in
  write_snapshot
    {| sh_version := SNAPSHOT_VERSION; sh_algorithm_id := MISRA_GRIES;
       sh_hash := mg_hash s; sh_window_start_nanos := window_start_nanos;
       sh_window_end_nanos := window_end_nanos |}
    params payload.

Definition from_snapshot (b : bytes) : res MisraGries :=
  '(header, params, payload) ← read_snapshot b;
  _ ← fail_if (negb (sh_algorithm_id header =? MISRA_GRIES))
        (SnapshotError "not a misra-gries snapshot");
  let p := Reader_new params in
  '(capacity, p) ← r_u64 p;
  _ ← fail_if (capacity =? 0)
        (SnapshotError "misra-gries snapshot capacity must be positive");
  let r := Reader_new payload in
  '(total_weight, r) ← r_u64 r;
  '(updates, r) ← r_u64 r;
  '(n, r) ← r_u32 r;
  _ ← fail_if (capacity <? n)
        (SnapshotError "misra-gries snapshot counter count exceeds capacity");
  _ ← check_count r n (4 + 8);
  '(entries, r) ← read_n (Z.to_nat n) r_counter r;
  Ok {| mg_capacity := capacity; mg_hash := sh_hash header;
        mg_counters := insert_all entries;
        mg_total_weight := total_weight; mg_updates := updates |}.

#[export] Instance MisraGries_Sketch : Sketch MisraGries := {
  sk_update := add;
  sk_merge_from := merge_from;
  sk_reset := reset;
  sk_update_count := mg_updates;
  sk_compatibility := compatibility;
}.

(** ** Well-formedness *)

Record wf (s : MisraGries) : Prop := {
  wf_capacity : 0 < mg_capacity s;
  wf_size : len s <= mg_capacity s;
  wf_counts : ∀ k c, mg_counters s !! k = Some c → u64_ok c;
}.

Lemma min_value_spec m :
  m ≠ ∅ → ∃ v, min_value m = Some v ∧ (∃ k, m !! k = Some v) ∧
    ∀ k c, m !! k = Some c → v <= c.
Proof.
  intros Hm. unfold min_value. destruct (values m) as [|v vs] eqn:E.
  - exfalso. apply Hm, map_size_empty_iff. by rewrite <- length_values, E.
  - assert (∀ vs v, foldl Z.min v vs ∈ v :: vs ∧
      ∀ c, c ∈ v :: vs → foldl Z.min v vs <= c) as Hmin.
    { clear. induction vs as [|w vs IH]; intros v; cbn [foldl].
      - split; [by left|]. intros c [->|Hc]%elem_of_cons; [lia|set_solver].
      - destruct (IH (Z.min v w)) as [Hin Hle]. split.
        + apply elem_of_cons in Hin as [-> |Hin]; [|set_solver].
          destruct (Z.min_spec v w) as [[_ ->]|[_ ->]]; set_solver.
        + pose proof (Hle (Z.min v w) ltac:(by left)).
          intros c [->|[->|Hc]%elem_of_cons]%elem_of_cons; [lia|lia|].
          apply Hle. by right. }
    destruct (Hmin vs v) as [Hin Hle]. rewrite <- E in Hin.
    exists (foldl Z.min v vs). split_and!; [done|by apply elem_of_values|].
    intros k c Hk. apply Hle. rewrite <- E. apply elem_of_values. eauto.
Qed.

Lemma sort_unstable_value m i x :
  sort_unstable (values m) !! i = Some x → ∃ k : bytes, m !! k = Some x.
Proof.
  intros Hx. apply elem_of_values. apply (elem_of_sort_by Z.compare).
  apply list_elem_of_lookup. eauto.
Qed.

(** What one pass of the trimming loop achieves. *)
Lemma trim_step_spec capacity m :
  0 <= capacity → capacity < Z.of_nat (size m) →
  (∀ k c, m !! k = Some c → u64_ok c) →
  ∃ dec, trim_step capacity m = Ok (retain_pos (λ c, c - Z.min c dec) m) ∧ 0 <= dec ∧
    Z.of_nat (size (retain_pos (λ c, c - Z.min c dec) m)) <= capacity ∧
    msum (λ _ c, c) (retain_pos (λ c, c - Z.min c dec) m) + (capacity + 1) * dec
      <= msum (λ _ c, c) m.
Proof.
  intros Hcap Hsize Hok. set (n := Z.of_nat (size m)) in *.
  destruct (vec_get_ok (E := SketchError) (sort_unstable (values m)) (n - capacity - 1))
    as (dec & Hget & Hdec).
  { unfold zlen. rewrite length_sort_unstable, length_values. lia. }
  unfold trim_step. fold n. rewrite Hget. exists dec. split; [done|].
  assert (0 <= dec) as Hdec0.
  { destruct (sort_unstable_value _ _ _ Hdec) as [k Hk]. apply Hok in Hk. word_lia. }
  split; [done|]. split.
  - rewrite size_retain_pos.
    assert (count_if (λ c, (0 < c - Z.min c dec)%Z) (values m) +
      Z.to_nat (n - capacity - 1) < length (values m))%nat as Hc.
    { apply count_if_below; [|rewrite length_values; lia].
      intros j x Hj Hx. pose proof (sort_unstable_lookup_le _ _ _ _ _ Hj Hx Hdec). lia. }
    rewrite length_values in Hc. lia.
  - rewrite msum_retain_pos by lia. rewrite msum_sub.
    enough ((capacity + 1) * dec <= msum (λ _ c, Z.min c dec) m) by lia.
    transitivity (msum (λ _ c, if decide (¬ c < dec) then dec else 0) m).
    + rewrite (msum_indicator (λ c, ¬ c < dec)).
      assert (count_if (λ c, (c < dec)%Z) (values m) <= Z.to_nat (n - capacity - 1))%nat as Hc.
      { apply count_if_above. intros j x Hj Hx.
        pose proof (sort_unstable_lookup_le _ _ _ _ _ Hj Hdec Hx). lia. }
      pose proof (count_if_compl (λ c, c < dec) (values m)) as Hcc.
      rewrite length_values in Hcc. nia.
    + apply msum_le. intros k c Hk. apply Hok in Hk. case_decide; word_lia.
Qed.

(** The loop makes at most one pass, whatever fuel it has. *)
Lemma trim_loop_spec fuel capacity m :
  0 <= capacity → (∀ k c, m !! k = Some c → u64_ok c) →
  ∃ dec m', trim_loop (S fuel) capacity m = Some (Ok m') ∧ 0 <= dec ∧
    Z.of_nat (size m') <= capacity ∧
    (∀ k, default 0 (m' !! k) = default 0 (m !! k) - Z.min (default 0 (m !! k)) dec) ∧
    (∀ k c, m' !! k = Some c → u64_ok c) ∧
    msum (λ _ c, c) m' + (capacity + 1) * dec <= msum (λ _ c, c) m.
Proof.
  intros Hcap Hok. cbn [trim_loop]. destruct (Z.ltb_spec capacity (Z.of_nat (size m))).
  - destruct (trim_step_spec capacity m) as (dec & -> & Hdec & Hsize & Hsum); [done..|].
    exists dec. eexists. split; [|split_and!; [done|done| | |done]].
    + destruct fuel; cbn [trim_loop]; rewrite (proj2 (Z.ltb_ge _ _)) by done; done.
    + intros k. rewrite default_retain_pos; [|intros c Hc; lia|lia].
      destruct (m !! k) as [c|]; cbn; lia.
    + intros k c. rewrite lookup_retain_pos. destruct (m !! k) as [c'|] eqn:Hk; [|done].
      ostep. specialize (Hok k c' Hk). case_match; [|done]. intros [= <-]. word_lia.
  - exists 0, m. split_and!; try done; try lia.
    intros k. destruct (m !! k) as [c|] eqn:Hk; cbn; [|done]. apply Hok in Hk. word_lia.
Qed.

(** ** The error contract *)

Abbreviation count m k := (default 0 (m !! k)).
Abbreviation msize m := (Z.of_nat (size m)).

(** [D] bounds what decrements have taken off any counter: each unit of it was
    paid for by [capacity + 1] units of the stream. *)
Definition mg_sound (capacity : Z) (m : gmap bytes Z) (l : list (bytes * Z)) (D : Z)
    : Prop :=
  msize m <= capacity ∧ 0 <= D ∧ (∀ k c, m !! k = Some c → u64_ok c) ∧
  (∀ k, count m k <= weight_of k l <= count m k + D) ∧
  msum (λ _ c, c) m + (capacity + 1) * D <= total_of l.

Lemma count_nonneg (m : gmap bytes Z) k : (∀ k c, m !! k = Some c → u64_ok c) → 0 <= count m k.
Proof. intros H. destruct (m !! k) as [c|] eqn:E; cbn; [|done]. apply H in E. word_lia. Qed.

Lemma count_insert (m : gmap bytes Z) k k' c : count (<[k := c]> m) k' = if decide (k = k') then c else count m k'.
Proof.
  case_decide; [subst; by rewrite lookup_insert_eq|by rewrite lookup_insert_ne].
Qed.

Lemma weight_of_snoc (k : bytes) l k' v :
  weight_of k (l ++ [(k', v)]) = weight_of k l + (if decide (k' = k) then v else 0).
Proof. rewrite weight_of_app. cbn. lia. Qed.

(** A full table: subtract the same amount everywhere, the newcomer included. *)
Lemma add_full (capacity : Z) (m : gmap bytes Z) (key : bytes) (w : Z) :
  0 < capacity → msize m = capacity → m !! key = None → u64_ok w →
  (∀ k c, m !! k = Some c → u64_ok c) →
  ∃ dec m', add_counters capacity m key w = Ok m' ∧ 0 <= dec <= w ∧
    msize m' <= capacity ∧ (∀ k c, m' !! k = Some c → u64_ok c) ∧
    (∀ k, count m' k = if decide (key = k) then w - dec else Z.max 0 (count m k - dec)) ∧
    msum (λ _ c, c) m' = msum (λ _ c, c) m - capacity * dec + (w - dec).
Proof.
  intros Hcap Hsize Hkey Hw Hok. unfold add_counters. rewrite Hkey.
  rewrite (proj2 (Z.ltb_ge _ _)) by lia.
  destruct (min_value_spec m) as (mn & -> & [k0 Hk0] & Hmin).
  { intros ->. rewrite map_size_empty in Hsize. lia. }
  ostep. pose proof (Hok k0 mn Hk0) as Hmn.
  set (dec := Z.min mn w). assert (0 <= dec <= w) as Hdec by word_lia.
  assert (∀ k c, m !! k = Some c → c -ʷ dec = c - dec ∧ 0 <= c - dec) as Hsub.
  { intros k c Hk. pose proof (Hmin k c Hk). pose proof (Hok k c Hk).
    split; [|lia]. apply wsub64_small. word_lia. }
  set (r := retain_pos (λ c, c -ʷ dec) m).
  assert (∀ k, count r k = Z.max 0 (count m k - dec)) as Hr.
  { intros k. unfold r. rewrite default_retain_pos.
    - destruct (m !! k) as [c|] eqn:Hk; cbn; [|lia]. destruct (Hsub k c Hk); lia.
    - intros c Hk. destruct (Hsub k c Hk). lia.
    - apply wrap64_range. }
  assert (r !! key = None) as Hrkey.
  { unfold r. rewrite lookup_retain_pos, Hkey. done. }
  assert (∀ k c, r !! k = Some c → u64_ok c) as Hrok.
  { intros k c. unfold r. rewrite lookup_retain_pos.
    destruct (m !! k) as [c'|]; [|done]. ostep. case_match; [|done].
    intros [= <-]. apply wrap64_range. }
  assert (msum (λ _ c, c) r = msum (λ _ c, c) m - capacity * dec) as Hrsum.
  { unfold r. rewrite msum_retain_pos by (intros k c Hk; destruct (Hsub k c Hk); lia).
    rewrite (msum_ext _ (λ _ c, c - dec)) by (intros k c Hk; by apply (Hsub k)).
    rewrite msum_sub, msum_const. lia. }
  assert (msize r <= capacity) as Hrsize.
  { unfold r. rewrite size_retain_pos.
    pose proof (count_if_le (λ c, (0 < c -ʷ dec)%Z) (values m)) as Hc.
    rewrite length_values in Hc. lia. }
  assert (w -ʷ dec = w - dec) as -> by (apply wsub64_small; word_lia).
  exists dec. destruct (Z.ltb_spec 0 (w - dec)) as [Hpos|Hzero]; cbn [andb].
  - assert (msize r < capacity) as Hroom.
    { (* the minimal counter reached zero *)
      assert (dec = mn) by lia.
      assert (count_if (λ c, (0 < c -ʷ dec)%Z) (values m) < size m)%nat; [|unfold r; rewrite size_retain_pos; lia].
      pose proof (count_if_compl (λ c, (0 < c -ʷ dec)%Z) (values m)) as Hcc.
      rewrite length_values in Hcc.
      assert (0 < count_if (λ c, ¬ (0 < c -ʷ dec)%Z) (values m))%nat; [|lia].
      apply (count_if_pos _ _ mn); [apply elem_of_values; eauto|].
      destruct (Hsub k0 mn Hk0) as [-> _]. lia. }
    rewrite (proj2 (Z.ltb_lt _ _)) by done. eexists. split; [done|].
    rewrite map_size_insert_None by done. split_and!; try lia.
    + intros k c [[<- <-]|[_ ?]]%lookup_insert_Some; [word_lia|eauto].
    + intros k. rewrite count_insert, Hr. done.
    + rewrite msum_insert_new by done. lia.
  - eexists. split; [done|]. split_and!; try done; try lia.
    intros k. rewrite Hr. case_decide; [subst; rewrite Hkey; cbn; lia|done].
Qed.

Lemma add_sound (capacity : Z) (m : gmap bytes Z) l D (key : bytes) (w : Z) :
  0 < capacity → mg_sound capacity m l D → u64_ok w → total_of l + w < u64_mod →
  ∃ m' D', add_counters capacity m key w = Ok m' ∧ mg_sound capacity m' (l ++ [(key, w)]) D'.
Proof.
  intros Hcap (Hsize & HD & Hok & Hcnt & Hsum) Hw Htot.
  destruct (m !! key) as [c|] eqn:Hkey; [|destruct (Z.ltb_spec (msize m) capacity)].
  - exists (<[key := c +ʷ w]> m), D. unfold add_counters. rewrite Hkey. split; [done|].
    pose proof (Hok key c Hkey) as Hc.
    assert (c <= msum (λ _ c, c) m) as Hle.
    { apply (msum_elem_le (λ _ c, c) m key c); [|done]. intros k c' Hk.
      apply Hok in Hk. word_lia. }
    rewrite wadd64_small by word_lia. split_and!; [|done| | |].
    + rewrite map_size_insert_Some by eauto. done.
    + intros k c' [[<- <-]|[_ ?]]%lookup_insert_Some; [word_lia|eauto].
    + intros k. rewrite count_insert, weight_of_snoc. specialize (Hcnt k).
      case_decide; [subst; rewrite Hkey in Hcnt; cbn in Hcnt|]; lia.
    + rewrite (msum_insert _ m key c) by done. rewrite total_of_app. cbn. lia.
  - exists (<[key := w]> m), D. unfold add_counters. rewrite Hkey.
    rewrite (proj2 (Z.ltb_lt _ _)) by done. split; [done|]. split_and!; [|done| | |].
    + rewrite map_size_insert_None by done. lia.
    + intros k c' [[<- <-]|[_ ?]]%lookup_insert_Some; [done|eauto].
    + intros k. rewrite count_insert, weight_of_snoc. specialize (Hcnt k).
      case_decide; [subst; rewrite Hkey in Hcnt; cbn in Hcnt|]; lia.
    + rewrite msum_insert_new by done. rewrite total_of_app. cbn. lia.
  - destruct (add_full capacity m key w) as (dec & m' & Hm' & Hdec & Hs' & Hok' & Hc' & Hsum');
      [done|lia|done|done|done|].
    exists m', (D + dec). split; [done|]. split_and!; [done|lia|done| |].
    + intros k. rewrite Hc', weight_of_snoc. specialize (Hcnt k).
      case_decide; [subst; rewrite Hkey in Hcnt; cbn in Hcnt|];
        pose proof (count_nonneg m k Hok); lia.
    + rewrite Hsum', total_of_app. cbn. lia.
Qed.

Lemma merge_sound (capacity : Z) (s t : gmap bytes Z) l m D E :
  0 < capacity → mg_sound capacity s l D → mg_sound capacity t m E →
  total_of (l ++ m) < u64_mod →
  ∃ c F, trim_to_capacity capacity (add_all s t) = Ok c ∧ mg_sound capacity c (l ++ m) F.
Proof.
  intros Hcap (Hss & HD & Hso & Hsc & Hsum) (Hts & HE & Hto & Htc & Htsum) Htot.
  rewrite total_of_app in Htot.
  assert (∀ (m' : gmap bytes Z) (l' : list (bytes * Z)) D' k c, (∀ k c, m' !! k = Some c → u64_ok c) → 0 <= D' →
    msum (λ _ c, c) m' + (capacity + 1) * D' <= total_of l' →
    m' !! k = Some c → c <= total_of l') as Hle.
  { intros m' l' D' k c Hm' HD' Hs' Hk.
    pose proof (msum_elem_le (λ _ c, c) m' k c) as H. cbn in H.
    assert (c <= msum (λ _ c, c) m'); [|nia]. apply H; [|done].
    intros k' c' Hk'. apply Hm' in Hk'. word_lia. }
  assert (∀ k a b, s !! k = Some a → t !! k = Some b → u64_ok (a + b)) as Hab.
  { intros k a b Ha Hb. pose proof (Hle s l D k a Hso HD Hsum Ha).
    pose proof (Hle t m E k b Hto HE Htsum Hb).
    apply Hso in Ha. apply Hto in Hb. word_lia. }
  assert (∀ k c, add_all s t !! k = Some c → u64_ok c) as Hok.
  { intros k c Hk. unfold add_all in Hk. rewrite lookup_union_with in Hk.
    destruct (s !! k) eqn:Ha, (t !! k) eqn:Hb; cbn in Hk; simplify_eq; eauto.
    apply wadd64_range. }
  destruct (trim_loop_spec (size (add_all s t)) capacity (add_all s t))
    as (dec & c & Hloop & Hdec & Hsize & Hcnt & Hcok & Hcsum); [lia|done|].
  exists c, (D + E + dec). unfold trim_to_capacity. rewrite Hloop. split; [done|].
  split_and!; [done|lia|done| |].
  - intros k. rewrite Hcnt, default_add_all by apply Hab. rewrite weight_of_app.
    specialize (Hsc k). specialize (Htc k).
    pose proof (count_nonneg s k Hso). pose proof (count_nonneg t k Hto). lia.
  - rewrite msum_add_all in Hcsum by done. rewrite total_of_app. lia.
Qed.

Definition mg_init (capacity : Z) (h : HashSpec) (s : MisraGries) : Prop :=
  new capacity h = Ok s.
Definition mg_upd (s : MisraGries) (p : bytes * Z) (s' : MisraGries) : Prop :=
  u64_ok p.2 ∧ add s p.1 p.2 = Ok s'.
Definition mg_mrg (s t s' : MisraGries) : Prop := merge_from s t = Ok s'.
Abbreviation hist capacity h := (built (mg_init capacity h) mg_upd mg_mrg).

Lemma mg_hist_sound capacity h s l :
  0 <= capacity → hist capacity h s l →
  0 < capacity ∧ mg_capacity s = capacity ∧ mg_hash s = h ∧ weights_ok l ∧
  (total_of l < u64_mod → ∃ D, mg_sound capacity (mg_counters s) l D).
Proof.
  intros Hc0.
  induction 1 as [s Hi|s l [k v] s' _ (Hc & Ec & Eh & Hl & IH) [Hp Hu]|
    s l t m s' _ (Hc & Ec & Eh & Hl & IHs) _ (_ & Fc & Fh & Hm & IHt) Hg].
  - unfold mg_init, new in Hi. destruct (Z.eqb_spec capacity 0); [done|].
    injection Hi as <-. cbn. split_and!; try done; [lia|constructor|].
    intros _. exists 0. split_and!; try done. rewrite msum_empty. cbn. lia.
  - cbn in Hu, Hp. unfold add in Hu. bind_inv. injection Hu as <-. cbn.
    split_and!; try done; [by apply weights_ok_app; split; [|constructor]|].
    rewrite total_of_app. cbn. intros Htot.
    destruct IH as [D HD]; [word_lia|].
    destruct (add_sound capacity (mg_counters s) l D k v) as (m' & D' & Hm' & HD');
      [done|done|done|lia|].
    rewrite Ec, Hm' in H. injection H as <-. eauto.
  - unfold mg_mrg, merge_from in Hg. bind_inv. injection Hg as <-. cbn.
    split_and!; try done; [by apply weights_ok_app|]. intros Htot.
    pose proof (total_of_nonneg l Hl). pose proof (total_of_nonneg m Hm).
    pose proof Htot as Htot'. rewrite total_of_app in Htot'.
    destruct IHs as [D HD]; [lia|]. destruct IHt as [E HE]; [lia|].
    destruct (merge_sound capacity (mg_counters s) (mg_counters t) l m D E)
      as (c & F & Hc' & HF); [done..|].
    rewrite Ec, Hc' in H0. injection H0 as <-. eauto.
Qed.

(** [C16] The Misra-Gries guarantee, over any history of updates on any number of
    nodes and merges whose total weight fits a [u64]: at most [capacity] keys
    are kept, no count exceeds the key's true weight, and none falls short of
    it by more than [total / (capacity + 1)]; so every key heavier than that
    is present. *)
Theorem misra_gries_bounds capacity h s l :
  0 <= capacity → hist capacity h s l → total_of l < u64_mod →
  len s <= capacity ∧
  ∀ key, default 0 (get s key) <= weight_of key l ∧
    (weight_of key l - default 0 (get s key)) * (capacity + 1) <= total_of l ∧
    (total_of l < weight_of key l * (capacity + 1) → is_Some (get s key)).
Proof.
  intros Hc0 Hs Htot. destruct (mg_hist_sound capacity h s l Hc0 Hs) as (Hc & Ec & Eh & Hl & HD).
  destruct (HD Htot) as (D & Hsize & HD0 & Hok & Hcnt & Hsum). split; [done|].
  intros key. unfold get. specialize (Hcnt key).
  assert (0 <= msum (λ _ c, c) (mg_counters s)).
  { apply msum_nonneg. intros k c Hk. apply Hok in Hk. word_lia. }
  split_and!; [lia|nia|]. intros Hheavy.
  destruct (mg_counters s !! key) eqn:E; [done|]. cbn in Hcnt. nia.
Qed.

Definition blank : MisraGries :=
  {| mg_capacity := 1; mg_hash := HashSpec_default; mg_counters := ∅;
     mg_total_weight := 0; mg_updates := 0 |}.
Definition crowded : MisraGries := run_or blank (s ← add blank [1] 5; add s [2] 3).

Lemma crowded_hist : hist 1 HashSpec_default crowded [([1], 5); ([2], 3)].
Proof.
  apply (built_upd _ _ _ (run_or blank (add blank [1] 5)) [([1], 5)] ([2], 3)).
  - apply (built_upd _ _ _ blank [] ([1], 5)); [by apply built_init|].
    split; [by range_tac|by vm_compute].
  - split; [by range_tac|by vm_compute].
Qed.

Lemma misra_gries_bounds_witness :
  len crowded <= 1 ∧
  ∀ key, default 0 (get crowded key) <= weight_of key [([1], 5); ([2], 3)] ∧
    (weight_of key [([1], 5); ([2], 3)] - default 0 (get crowded key)) * (1 + 1)
      <= total_of [([1], 5); ([2], 3)] ∧
    (total_of [([1], 5); ([2], 3)] < weight_of key [([1], 5); ([2], 3)] * (1 + 1) →
     is_Some (get crowded key)).
Proof.
  apply (misra_gries_bounds 1 HashSpec_default crowded [([1], 5); ([2], 3)]);
    [done|apply crowded_hist|done].
Defined.

(** The trimming loop of a merge terminates: on any table of [u64] counters it
    returns, without panicking and whatever fuel above one pass it is given,
    a table of at most [capacity] entries, each the old count less the same
    amount; a merge of two summaries of the same capacity therefore succeeds
    and respects the capacity. *)
Lemma trim_terminates capacity m fuel :
  0 <= capacity → (∀ k c, m !! k = Some c → u64_ok c) →
  ∃ m' dec, trim_loop (S fuel) capacity m = Some (Ok m') ∧
    trim_to_capacity capacity m = Ok m' ∧ Z.of_nat (size m') <= capacity ∧
    ∀ k, default 0 (m' !! k) = Z.max 0 (default 0 (m !! k) - dec).
Proof.
  intros Hc Hok.
  assert (∀ f, trim_loop (S f) capacity m = trim_loop 1 capacity m) as Hf.
  { intros f. cbn [trim_loop]. destruct (Z.ltb_spec capacity (Z.of_nat (size m))); [|done].
    destruct (trim_step_spec capacity m) as (dec & -> & _ & Hsize & _); [done..|].
    destruct f; cbn [trim_loop]; by rewrite (proj2 (Z.ltb_ge _ _)). }
  destruct (trim_loop_spec 0 capacity m Hc Hok) as (dec & m' & Hl & Hdec & Hs & Hcnt & _).
  exists m', dec. rewrite (Hf fuel). unfold trim_to_capacity. rewrite (Hf (size m)), Hl.
  split_and!; [done..|]. intros k. rewrite Hcnt.
  pose proof (count_nonneg m k Hok). lia.
Qed.

Lemma trim_terminates_witness :
  ∃ m' dec, trim_loop 1 1 (<[[1] := 5]> {[ [2] := 3 ]}) = Some (Ok m') ∧
    trim_to_capacity 1 (<[[1] := 5]> {[ [2] := 3 ]}) = Ok m' ∧
    Z.of_nat (size m') <= 1 ∧
    ∀ k, default 0 (m' !! k) =
      Z.max 0 (default 0 ((<[[1] := 5]> {[ [2] := 3 ]} : gmap bytes Z) !! k) - dec).
Proof.
  apply (trim_terminates 1 (<[[1] := 5]> {[ [2] := 3 ]}) 0); [done|].
  intros k c [[_ <-]|[_ [_ <-]%lookup_singleton_Some]]%lookup_insert_Some; by range_tac.
Defined.

(** ** Snapshots *)

Definition enc_counter (p : bytes * Z) : list Z :=
  le_bytes 4 (zlen p.1) ++ p.1 ++ le_bytes 8 p.2.

Lemma r_counter_rd p pre suf :
  u32_ok (zlen p.1) → u64_ok p.2 →
  r_counter (rd pre (enc_counter p ++ suf)) = Ok (p, rd (pre ++ enc_counter p) suf).
Proof.
  intros Hk Hc. unfold r_counter, enc_counter. rewrite <- !app_assoc.
  rewrite r_lp_bytes_rd by done. ostep. rewrite r_u64_rd by done. ostep.
  rewrite <- !app_assoc. by destruct p.
Qed.

Lemma r_counter_inv pre suf p r :
  bytes_ok suf → r_counter (rd pre suf) = Ok (p, r) →
  ∃ suf', suf = enc_counter p ++ suf' ∧ bytes_ok suf' ∧
    r = rd (pre ++ enc_counter p) suf' ∧ (bytes_ok p.1 ∧ u64_ok p.2).
Proof.
  intros Hs H. unfold r_counter in H. read_inv. injection H as <- <-.
  eexists. unfold enc_counter. cbn. rewrite <- !app_assoc.
  split_and!; try done.
Qed.

Lemma r_counter_no_panic r : no_panic (r_counter r).
Proof. unfold r_counter. no_panic_tac. Qed.

Definition payload_len (s : MisraGries) : Z :=
  20 + msum (λ k _, 12 + zlen k) (mg_counters s).

Lemma mg_to_snapshot_eq s ws we :
  payload_len s < 4294967296 →
  to_snapshot s ws we =
    write_snapshot
      {| sh_version := SNAPSHOT_VERSION; sh_algorithm_id := MISRA_GRIES;
         sh_hash := mg_hash s; sh_window_start_nanos := ws; sh_window_end_nanos := we |}
      (le_bytes 8 (mg_capacity s))
      (le_bytes 8 (mg_total_weight s) ++ le_bytes 8 (mg_updates s) ++
       le_bytes 4 (len s) ++ encode_all enc_counter (sorted_entries (mg_counters s))).
Proof.
  intros Hp.
  assert (∀ k c, mg_counters s !! k = Some c → 12 + zlen k <= payload_len s - 20) as Hk.
  { intros k c Hk. unfold payload_len.
    pose proof (msum_elem_le (λ k _, 12 + zlen k) (mg_counters s) k c) as H. cbn in H.
    enough (12 + zlen k <= msum (λ k _, 12 + zlen k) (mg_counters s)) by lia.
    apply H; [|done]. intros k' _ _. pose proof (zlen_nonneg k'). lia. }
  assert (12 * len s <= payload_len s - 20) as Hn.
  { unfold payload_len, len. rewrite <- (msum_const 12 (mg_counters s)).
    enough (msum (λ _ _, 12) (mg_counters s) <=
      msum (λ k _, 12 + zlen k) (mg_counters s)) by lia.
    apply msum_le. intros k' _ _. pose proof (zlen_nonneg k'). lia. }
  unfold to_snapshot. cbv zeta.
  assert (∀ l w, (∀ p, p ∈ l → u32_ok (zlen p.1)) →
    foldl w_counter w l = w ++ encode_all enc_counter l) as Hfold.
  { induction l as [|p l IH]; intros w Hl; [by rewrite app_nil_r|].
    cbn [foldl]. rewrite IH by set_solver.
    unfold w_counter, w_lp_bytes, w_u64, w_u32, w_bytes, as_u32.
    rewrite Z.mod_small by (apply (Hl p); set_solver).
    rewrite encode_all_cons. unfold enc_counter. by rewrite <- !app_assoc. }
  rewrite Hfold.
  - unfold w_u64, w_u32, Writer_new, as_u32. rewrite Z.mod_small.
    + cbn [app]. by rewrite <- !app_assoc.
    + unfold len in *. lia.
  - intros [k c] Hp'%elem_of_sorted_entries. specialize (Hk k c Hp'). cbn.
    pose proof (zlen_nonneg k). word_lia.
Qed.

Lemma zlen_enc_counters (m : gmap bytes Z) :
  zlen (encode_all enc_counter (sorted_entries m)) = msum (λ k _, 12 + zlen k) m.
Proof.
  rewrite <- (lsum_sorted_entries (λ k _, 12 + zlen k)).
  induction (sorted_entries m) as [|p l IH]; [done|].
  rewrite encode_all_cons, zlen_app, IH. unfold enc_counter.
  rewrite !zlen_app, !zlen_le_bytes, lsum_fmap_cons. lia.
Qed.

(** A Misra-Gries snapshot restores the summary exactly, whatever byte strings
    its keys are. *)
Lemma mg_snapshot_round_trip s ws we :
  wf s → hash_spec_ok (mg_hash s) → u64_ok ws → u64_ok we →
  u64_ok (mg_capacity s) → u64_ok (mg_total_weight s) → u64_ok (mg_updates s) →
  payload_len s < 4294967296 →
  from_snapshot (to_snapshot s ws we) = Ok s.
Proof.
  intros Hs Hh Hws Hwe Hcap Ht Hu Hp.
  pose proof (zlen_enc_counters (mg_counters s)) as Hlen.
  assert (12 * len s <= msum (λ k _, 12 + zlen k) (mg_counters s)) as Hn.
  { unfold len. rewrite <- (msum_const 12 (mg_counters s)).
    apply msum_le. intros k' _ _. pose proof (zlen_nonneg k'). lia. }
  rewrite mg_to_snapshot_eq by done. unfold from_snapshot, payload_len in *.
  assert (0 <= len s) by (unfold len; lia).
  rewrite read_write_snapshot.
  - ostep. cbv beta iota zeta. cbn [sh_algorithm_id sh_hash]. rewrite Z.eqb_refl. ostep.
    change Reader_new with (rd []).
    rewrite <- (app_nil_r (le_bytes 8 (mg_capacity s))), (r_u64_rd (mg_capacity s)) by done. ostep.
    rewrite (proj2 (Z.eqb_neq (mg_capacity s) 0)) by (pose proof (wf_capacity s Hs); lia).
    ostep. rewrite r_u64_rd by done. ostep. rewrite r_u64_rd by done. ostep.
    rewrite r_u32_rd by word_lia. ostep.
    rewrite (proj2 (Z.ltb_ge _ _)) by apply Hs. ostep.
    rewrite (proj2 (check_count_rd _ _ _ _)).
    2:{ rewrite Hlen. change (Z.max (4 + 8) 1) with 12. apply Z.div_le_lower_bound; lia. }
    ostep. unfold len. rewrite Nat2Z.id, <- length_sorted_entries.
    rewrite <- (app_nil_r (encode_all _ _)).
    rewrite (read_n_rd r_counter enc_counter).
    + ostep. rewrite insert_all_sorted_entries. by destruct s.
    + intros [k c] p q Hk%elem_of_sorted_entries. apply r_counter_rd; cbn.
      * pose proof (msum_elem_le (λ k _, 12 + zlen k) (mg_counters s) k c) as H0. cbn in H0.
        assert (12 + zlen k <= msum (λ k _, 12 + zlen k) (mg_counters s)).
        { apply H0; [|done]. intros k' _ _. pose proof (zlen_nonneg k'). lia. }
        pose proof (zlen_nonneg k). word_lia.
      * by apply (wf_counts s Hs k).
  - unfold header_ok. cbn. done.
  - rewrite !zlen_le_bytes. range_tac.
  - rewrite !zlen_app, !zlen_le_bytes, Hlen. word_lia.
Qed.

Lemma crowded_wf : wf crowded.
Proof.
  split; [by range_tac|by range_tac|].
  assert (mg_counters crowded = {[ [1] := 2 ]}) as -> by by vm_compute.
  intros k c [_ <-]%lookup_singleton_Some. by range_tac.
Qed.

Lemma mg_snapshot_round_trip_witness :
  from_snapshot (to_snapshot crowded 0 60) = Ok crowded.
Proof.
  apply (mg_snapshot_round_trip crowded 0 60); [apply crowded_wf|split|..]; by range_tac.
Defined.

Lemma mg_from_snapshot_no_panic b : bytes_ok b → no_panic (from_snapshot b).
Proof.
  intros Hb. unfold from_snapshot.
  apply bind_no_panic; [by apply parse_no_panic|]. intros [[hd ps] pl] Hr.
  destruct (accepted_parts _ _ _ _ Hb Hr) as (_ & Hps & Hpl & _).
  change Reader_new with (rd []). no_panic_read.
  apply read_n_no_panic; [intros; apply r_counter_no_panic| |done].
  intros p q y r' Hq H'. apply r_counter_inv in H' as (q' & -> & ? & -> & _); eauto.
Qed.

Lemma mg_from_snapshot_wf b s : bytes_ok b → from_snapshot b = Ok s → wf s.
Proof.
  intros Hb H. unfold from_snapshot in H.
  apply bind_ok in H as ([[hd ps] pl] & Hr & H).
  destruct (accepted_parts _ _ _ _ Hb Hr) as (Hh & Hps & Hpl & Hlen).
  change Reader_new with (rd []) in H. read_inv. injection H as <-.
  match goal with H : read_n _ _ _ = Ok _ |- _ => rename H into Htab end.
  apply (read_n_inv r_counter enc_counter _ _ _ _ _ _ r_counter_inv) in Htab
    as (suf & -> & _ & _ & Hn & Hcells); [|done].
  match goal with H : (_ <? _) = false |- _ => apply Z.ltb_ge in H end.
  match goal with H : (_ =? 0) = false |- _ => apply Z.eqb_neq in H end.
  split; unfold len; cbn.
  - word_lia.
  - match type of Hn with length ?l = _ => pose proof (size_insert_all l) end. word_lia.
  - intros k c Hk. destruct (lookup_insert_all l k) as [Hn'|(x & Hx & Hin)]; [congruence|].
    rewrite Hk in Hx. injection Hx as <-.
    rewrite Forall_forall in Hcells. by apply Hcells in Hin as [_ Hin].
Qed.

Lemma mg_compatibility_same s t :
  mg_capacity s = mg_capacity t → mg_hash s = mg_hash t → compatibility s = compatibility t.
Proof. intros Hc Hh. unfold compatibility, params_hash. congruence. Qed.

Lemma add_counters_wf (capacity : Z) (m : gmap bytes Z) (key : bytes) (w : Z) m' :
  0 < capacity → Z.of_nat (size m) <= capacity → u64_ok w →
  (∀ k c, m !! k = Some c → u64_ok c) → add_counters capacity m key w = Ok m' →
  Z.of_nat (size m') <= capacity ∧ ∀ k c, m' !! k = Some c → u64_ok c.
Proof.
  intros Hcap Hsize Hw Hok H.
  destruct (m !! key) as [c|] eqn:Hkey; [|destruct (Z.ltb_spec (msize m) capacity)].
  - unfold add_counters in H. rewrite Hkey in H. injection H as <-.
    rewrite map_size_insert_Some by eauto. split; [done|].
    intros k c' [[<- <-]|[_ ?]]%lookup_insert_Some; [apply wadd64_range|eauto].
  - unfold add_counters in H. rewrite Hkey, (proj2 (Z.ltb_lt _ _)) in H by done.
    injection H as <-. rewrite map_size_insert_None by done. split; [lia|].
    intros k c' [[<- <-]|[_ ?]]%lookup_insert_Some; [done|eauto].
  - destruct (add_full capacity m key w) as (dec & m2 & Hm2 & _ & Hs2 & Hok2 & _);
      [done|lia|done|done|done|].
    rewrite H in Hm2. by injection Hm2 as <-.
Qed.

Lemma add_counters_total (capacity : Z) (m : gmap bytes Z) (key : bytes) (w : Z) :
  0 < capacity → Z.of_nat (size m) <= capacity →
  (∀ k c, m !! k = Some c → u64_ok c) → ∃ m', add_counters capacity m key w = Ok m'.
Proof.
  intros Hcap Hsize Hok. unfold add_counters. destruct (m !! key); [eauto|].
  destruct (Z.ltb_spec (msize m) capacity); [eauto|].
  destruct (min_value_spec m) as (mn & -> & _ & _).
  - intros ->. rewrite map_size_empty in *. lia.
  - ostep. eauto.
Qed.

#[export] Instance MisraGries_Lawful : LawfulSketch MisraGries (λ s, wf s).
Proof.
  split; cbn [sk_update sk_merge_from sk_reset sk_update_count sk_compatibility
    MisraGries_Sketch].
  - intros s k v [Hc Hs Hok] Hv. unfold add.
    destruct (add_counters_total _ (mg_counters s) k v Hc Hs Hok) as [m Hm]. rewrite Hm. ostep.
    destruct (add_counters_wf _ _ _ _ _ Hc Hs Hv Hok Hm) as [H1 H2].
    eexists. split; [done|]. split; [by split|]. split; [by apply mg_compatibility_same|done].
  - intros s t [Hc Hs Hok] [_ _ Htok] Hcompat. unfold merge_from.
    rewrite (proj2 (ensure_matches_ok _ _) Hcompat). clear Hcompat. ostep. unfold trim_to_capacity.
    destruct (trim_loop_spec (size (add_all (mg_counters s) (mg_counters t)))
      (mg_capacity s) (add_all (mg_counters s) (mg_counters t)))
      as (dec & m' & -> & _ & Hsz & _ & Hok' & _); [lia| |].
    { intros k c Hk. unfold add_all in Hk. rewrite lookup_union_with in Hk.
      destruct (mg_counters s !! k) eqn:Ha, (mg_counters t !! k) eqn:Hb;
        cbn in Hk; simplify_eq; eauto. apply wadd64_range. }
    cbn [default from_option id]. ostep. eexists. split; [done|]. split; [by split|].
    split; [by apply mg_compatibility_same|done].
  - intros s t Hne. unfold merge_from, ensure_matches. by rewrite decide_True.
  - intros s [Hc Hs Hok]. split; [|split; [done|by apply mg_compatibility_same]].
    split; unfold len; cbn; [done|rewrite map_size_empty; lia|].
    intros k c Hk. by rewrite lookup_empty in Hk.
Qed.
