(* ===== verification/SpaceSaving.v ===== *)
(** * SpaceSaving top-k  (crates/flowsketch-algos/src/space_saving.rs)

    The summary is an arena of slots, a hash index from key digests to slots
    (with collision buckets) and a binary min-heap of slot indices that mirrors
    itself into the slots.  Indices are [nat]s; every access panics out of
    range, as in the code.

    Proved, in two layers.  The arena, index and heap refine a finite map from
    keys to entries: no operation ever panics, and [add] and [merge_from] are
    the textbook operations on that map.  On the map, every history of updates
    and merges keeps [count - error <= truth <= count], counts that sum to at
    most the stream's total, and hence every heavy key. *)
From S2P Require Import Prelude Bytes Maps Heap Hash Sketch Snapshot F64.

Definition ALGORITHM : string := "spacesaving".

Record Entry := mkEntry { count : Z; error : Z }.
#[export] Instance Entry_eq_dec : EqDecision Entry.
Proof. solve_decision. Defined.
Definition guaranteed (e : Entry) : Z := count e -ʷ error e.

Record Slot := mkSlot {
  sl_key : bytes;
  sl_digest : Z;
  sl_entry : Entry;
  sl_heap_index : nat;
}.

Inductive IndexBucket :=
  | One (slot : nat)
  | Many (slots : list nat).

Record SpaceSaving := mkSS {
  ss_capacity : Z;
  ss_hash : HashSpec;
  ss_slots : list Slot;
  ss_key_index : gmap Z IndexBucket;
  ss_min_heap : list nat;
  ss_total_weight : Z;
  ss_updates : Z;
}.

Definition new (capacity : Z) (hash : HashSpec) : res SpaceSaving :=
  if capacity =? 0 then Err (InvalidParam "spacesaving capacity must be positive")
  else Ok {| ss_capacity := capacity; ss_hash := hash; ss_slots := [];
             ss_key_index := ∅; ss_min_heap := [];
             ss_total_weight := 0; ss_updates := 0 |}.

Definition len (s : SpaceSaving) : Z := Z.of_nat (length (ss_slots s)).
Definition epsilon (s : SpaceSaving) : f64 := f_div f_one (f64_of_Z (ss_capacity s)).

Definition key_digest (hash : HashSpec) (key : bytes) : Z :=
  hash64 key (Z.lxor (seed hash) 0x5350414345534156).

(** [v[i]] on an arena index. *)
Definition at_nat {A} (v : list A) (i : nat) : res A := expect (v !! i).

(** [indices.iter().find(|i| self.slots[*i].key == key)] *)
Fixpoint find_in (slots : list Slot) (key : bytes) (l : list nat) : res (option nat) :=
  match l with
  | [] => Ok None
  | i :: l =>
      slot ← at_nat slots i;
      if decide (sl_key slot = key) then Ok (Some i) else find_in slots key l
  end.

Definition find_slot_with_digest (slots : list Slot) (index : gmap Z IndexBucket)
    (key : bytes) (digest : Z) : res (option nat) :=
  match index !! digest with
  | None => Ok None
  | Some (One i) =>
      slot ← at_nat slots i;
      Ok (if decide (sl_key slot = key) then Some i else None)
  | Some (Many l) => find_in slots key l
  end.

Definition find_slot (s : SpaceSaving) (key : bytes) : res (option nat) :=
  find_slot_with_digest (ss_slots s) (ss_key_index s) key (key_digest (ss_hash s) key).

Definition add_to_index (index : gmap Z IndexBucket) (digest : Z) (slot_index : nat)
    : gmap Z IndexBucket :=
  <[digest := match index !! digest with
              | None => One slot_index
              | Some (One existing) => Many [existing; slot_index]
              | Some (Many l) => Many (l ++ [slot_index])
              end]> index.

(** [v.swap_remove(p)] at the position of [x]: the last element takes its place. *)
Fixpoint position (x : nat) (l : list nat) : option nat :=
  match l with
  | [] => None
  | y :: l => if decide (y = x) then Some 0%nat else S <$> position x l
  end.
Definition swap_remove (l : list nat) (p : nat) : list nat :=
  match last l with
  | None => l
  | Some z => take (length l - 1) (<[p := z]> l)
  end.

Definition remove_from_index (index : gmap Z IndexBucket) (digest : Z) (slot_index : nat)
    : res (gmap Z IndexBucket) :=
  bucket ← expect (index !! digest);
  match bucket with
  | One _ => Ok (delete digest index)
  | Many l =>
      p ← expect (position slot_index l);
      let l := swap_remove l p in
      match l with
      | [i] => Ok (<[digest := One i]> index)
      | _ => Ok (<[digest := Many l]> index)
      end
  end.

(** The heap order of two slots. *)
Definition rank : Type := Z * Z * bytes.
Definition slot_rank (s : Slot) : rank := (count (sl_entry s), sl_digest s, sl_key s).
Definition rank_cmp (a b : rank) : comparison :=
  then_with (then_with (a.1.1 ?= b.1.1) (a.1.2 ?= b.1.2)) (bytes_cmp a.2 b.2).
Definition is_lt (c : comparison) : bool := match c with Lt => true | _ => false end.

Definition slot_is_less (slots : list Slot) (left right : nat) : res bool :=
  l ← at_nat slots left;
  r ← at_nat slots right;
  Ok (is_lt (rank_cmp (slot_rank l) (slot_rank r))).

(** The two vectors the heap operations work on. *)
Definition arena : Type := list Slot * list nat.

Definition heap_slot_is_less (a : arena) (left right : nat) : res bool :=
  l ← at_nat a.2 left;
  r ← at_nat a.2 right;
  slot_is_less a.1 l r.

Definition set_heap_index (i : nat) (s : Slot) : Slot :=
  {| sl_key := sl_key s; sl_digest := sl_digest s; sl_entry := sl_entry s;
     sl_heap_index := i |}.
Definition set_slot (slots : list Slot) (i : nat) (f : Slot → Slot) : res (list Slot) :=
  s ← at_nat slots i; Ok (<[i := f s]> slots).

Definition swap_heap (a : arena) (left right : nat) : res arena :=
  let '(slots, heap) := a in
  l ← at_nat heap left;
  r ← at_nat heap right;
  let heap := <[right := l]> (<[left := r]> heap) in
  l ← at_nat heap left;
  slots ← set_slot slots l (set_heap_index left);
  r ← at_nat heap right;
  slots ← set_slot slots r (set_heap_index right);
  Ok (slots, heap).

(** The loops; the fuel given by the callers is never used up. *)
Fixpoint sift_up (fuel : nat) (a : arena) (index : nat) : res arena :=
  if decide (0 < index)%nat then
    match fuel with
    | O => Panic
    | S fuel =>
        let parent := parent index in
        lt ← heap_slot_is_less a index parent;
        if negb lt then Ok a
        else a ← swap_heap a index parent; sift_up fuel a parent
    end
  else Ok a.

Fixpoint sift_down (fuel : nat) (a : arena) (index : nat) : res arena :=
  let left := (index * 2 + 1)%nat in
  if decide (length a.2 <= left)%nat then Ok a
  else
    match fuel with
    | O => Panic
    | S fuel =>
        let right := (left + 1)%nat in
        right_less ← (if decide (right < length a.2)%nat
                      then heap_slot_is_less a right left else Ok false);
        let smallest := if (right_less : bool) then right else left in
        lt ← heap_slot_is_less a smallest index;
        if negb lt then Ok a
        else a ← swap_heap a index smallest; sift_down fuel a smallest
    end.

Definition with_state (s : SpaceSaving) (slots : list Slot) (index : gmap Z IndexBucket)
    (heap : list nat) : SpaceSaving :=
  {| ss_capacity := ss_capacity s; ss_hash := ss_hash s; ss_slots := slots;
     ss_key_index := index; ss_min_heap := heap;
     ss_total_weight := ss_total_weight s; ss_updates := ss_updates s |}.
Definition with_totals (s : SpaceSaving) (total updates : Z) : SpaceSaving :=
  {| ss_capacity := ss_capacity s; ss_hash := ss_hash s; ss_slots := ss_slots s;
     ss_key_index := ss_key_index s; ss_min_heap := ss_min_heap s;
     ss_total_weight := total; ss_updates := updates |}.

Definition insert_entry_with_digest (s : SpaceSaving) (key : bytes) (digest : Z)
    (e : Entry) : res SpaceSaving :=
  let slot_index := length (ss_slots s) in
  let heap_index := length (ss_min_heap s) in
  let slots := ss_slots s ++
    [{| sl_key := key; sl_digest := digest; sl_entry := e;
        sl_heap_index := heap_index |}] in
  let index := add_to_index (ss_key_index s) digest slot_index in
  '(slots, heap) ← sift_up (S heap_index) (slots, ss_min_heap s ++ [slot_index]) heap_index;
  Ok (with_state s slots index heap).

Definition insert_entry (s : SpaceSaving) (key : bytes) (e : Entry) : res SpaceSaving :=
  insert_entry_with_digest s key (key_digest (ss_hash s) key) e.

Definition replace_min (s : SpaceSaving) (key : bytes) (digest : Z) (e : Entry)
    : res (bytes * SpaceSaving) :=
  slot_index ← expect (ss_min_heap s !! 0%nat);
  old ← at_nat (ss_slots s) slot_index;
  index ← remove_from_index (ss_key_index s) (sl_digest old) slot_index;
  let slots := <[slot_index := {| sl_key := key; sl_digest := digest; sl_entry := e;
                                  sl_heap_index := sl_heap_index old |}]> (ss_slots s) in
  let index := add_to_index index digest slot_index in
  '(slots, heap) ← sift_down (length (ss_min_heap s)) (slots, ss_min_heap s) 0;
  Ok (sl_key old, with_state s slots index heap).

Definition minimum_count (s : SpaceSaving) : res Z :=
  match ss_min_heap s !! 0%nat with
  | None => Ok 0
  | Some i => slot ← at_nat (ss_slots s) i; Ok (count (sl_entry slot))
  end.

Definition bump_slot (weight : Z) (s : Slot) : Slot :=
  {| sl_key := sl_key s; sl_digest := sl_digest s;
     sl_entry := {| count := count (sl_entry s) +ʷ weight; error := error (sl_entry s) |};
     sl_heap_index := sl_heap_index s |}.

Definition add (s : SpaceSaving) (key : bytes) (weight : Z) : res SpaceSaving :=
  let s := with_totals s (ss_total_weight s +ʷ weight) (ss_updates s +ʷ 1) in
  let digest := key_digest (ss_hash s) key in
  found ← find_slot_with_digest (ss_slots s) (ss_key_index s) key digest;
  match found with
  | Some slot_index =>
      slots ← set_slot (ss_slots s) slot_index (bump_slot weight);
      slot ← at_nat slots slot_index;
      '(slots, heap) ← sift_down (length (ss_min_heap s)) (slots, ss_min_heap s)
                         (sl_heap_index slot);
      Ok (with_state s slots (ss_key_index s) heap)
  | None =>
      if len s <? ss_capacity s
      then insert_entry_with_digest s key digest {| count := weight; error := 0 |}
      else
        minimum ← minimum_count s;
        '(_, s) ← replace_min s key digest
                    {| count := minimum +ʷ weight; error := minimum |};
        Ok s
  end.

(** [add_key_buf]: the same update, moving the caller's buffer into the summary; the
    second result is the buffer handed back, empty on every path. *)
Definition add_key_buf (s : SpaceSaving) (key : bytes) (weight : Z)
    : res (SpaceSaving * bytes) :=
  let s := with_totals s (ss_total_weight s +ʷ weight) (ss_updates s +ʷ 1) in
  let digest := key_digest (ss_hash s) key in
  found ← find_slot_with_digest (ss_slots s) (ss_key_index s) key digest;
  match found with
  | Some slot_index =>
      slots ← set_slot (ss_slots s) slot_index (bump_slot weight);
      slot ← at_nat slots slot_index;
      '(slots, heap) ← sift_down (length (ss_min_heap s)) (slots, ss_min_heap s)
                         (sl_heap_index slot);
      Ok (with_state s slots (ss_key_index s) heap, [])
  | None =>
      if len s <? ss_capacity s
      then s ← insert_entry_with_digest s key digest {| count := weight; error := 0 |};
           Ok (s, [])
      else
        minimum ← minimum_count s;
        '(scratch, s) ← replace_min s key digest
                          {| count := minimum +ʷ weight; error := minimum |};
        Ok (s, take 0 scratch)
  end.

Definition get (s : SpaceSaving) (key : bytes) : res (option Entry) :=
  found ← find_slot s key;
  match found with
  | None => Ok None
  | Some i => slot ← at_nat (ss_slots s) i; Ok (Some (sl_entry slot))
  end.

(** Descending counts, ties by key. *)
Definition top_cmp (a b : bytes * Entry) : comparison :=
  then_with (count b.2 ?= count a.2) (bytes_cmp a.1 b.1).
Definition slot_pair (s : Slot) : bytes * Entry := (sl_key s, sl_entry s).
Definition top_k (s : SpaceSaving) (limit : nat) : list (bytes * Entry) :=
  take limit (sort_by top_cmp (slot_pair <$> ss_slots s)).

Definition params_hash (s : SpaceSaving) : Z := hash64 (le_bytes 8 (ss_capacity s)) 0.
Definition compatibility (s : SpaceSaving) : SketchCompatibility :=
  {| sc_algorithm := ALGORITHM; sc_version := 1; sc_hash := ss_hash s;
     sc_params_hash := params_hash s |}.

Definition estimate (s : SpaceSaving) (key : bytes) : res f64 :=
  e ← get s key;
  Ok (match e with Some e => f64_of_Z (count e) | None => f_zero end).

(** The least count a full summary holds, which an absent key may have reached. *)
Definition absent_count (s : SpaceSaving) : res Z :=
  if ss_capacity s <=? len s then minimum_count s else Ok 0.

(** The union the merge trims, in the order the loops build it. *)
Definition merged_entries (s other : SpaceSaving) : res (list (bytes * Entry)) :=
  self_min ← absent_count s;
  other_min ← absent_count other;
  left ← foldM (λ acc slot,
      o ← get other (sl_key slot);
      let '(other_count, other_error) :=
        match o with Some e => (count e, error e) | None => (other_min, other_min) end in
      Ok (acc ++ [(sl_key slot,
        {| count := count (sl_entry slot) +ʷ other_count;
           error := error (sl_entry slot) +ʷ other_error |})])) [] (ss_slots s);
  foldM (λ acc slot,
      o ← get s (sl_key slot);
      Ok (match o with
          | Some _ => acc
          | None => acc ++ [(sl_key slot,
              {| count := count (sl_entry slot) +ʷ self_min;
                 error := error (sl_entry slot) +ʷ self_min |})]
          end)) left (ss_slots other).

Definition merge_from (s other : SpaceSaving) : res SpaceSaving :=
  _ ← ensure_matches (compatibility s) (compatibility other);
  merged ← merged_entries s other;
  let merged := take (Z.to_nat (ss_capacity s)) (sort_by top_cmp merged) in
  s' ← foldM (λ s p, insert_entry s p.1 p.2) (with_state s [] ∅ []) merged;
  Ok (with_totals s' (ss_total_weight s +ʷ ss_total_weight other)
        (ss_updates s +ʷ ss_updates other)).

Definition reset (s : SpaceSaving) : SpaceSaving :=
  with_totals (with_state s [] ∅ []) 0 0.

#[export] Instance SpaceSaving_Sketch : Sketch SpaceSaving := {
  sk_update := add;
  sk_merge_from := merge_from;
  sk_reset := reset;
  sk_update_count := ss_updates;
  sk_compatibility := compatibility;
}.

(** ** The heap mirrors itself into the slots *)

Definition links_ok (a : arena) : Prop :=
  length a.2 = length a.1 ∧
  (∀ h i, a.2 !! h = Some i → ∃ sl, a.1 !! i = Some sl ∧ sl_heap_index sl = h) ∧
  (∀ i sl, a.1 !! i = Some sl → a.2 !! sl_heap_index sl = Some i).

(** Everything of a slot but its position in the heap. *)
Definition core (s : Slot) : bytes * Z * Entry := (sl_key s, sl_digest s, sl_entry s).
Definition same_core (s t : list Slot) : Prop := core <$> s = core <$> t.

Definition hrank (a : arena) (p : nat) : rank :=
  default (0, 0, []) (i ← a.2 !! p; slot_rank <$> a.1 !! i).

#[export] Instance rank_cmp_ord : CmpOrd rank_cmp.
Proof.
  unfold rank_cmp. apply (cmp_then _ (λ a b : rank, bytes_cmp a.2 b.2)).
  - apply (cmp_then (λ a b : rank, a.1.1 ?= b.1.1) (λ a b : rank, a.1.2 ?= b.1.2)).
    + apply (cmp_on (λ a : rank, a.1.1) Z.compare).
    + apply (cmp_on (λ a : rank, a.1.2) Z.compare).
  - apply (cmp_on (λ a : rank, a.2) bytes_cmp).
Qed.

Lemma same_core_refl s : same_core s s.
Proof. done. Qed.
Lemma same_core_trans s t u : same_core s t → same_core t u → same_core s u.
Proof. unfold same_core. congruence. Qed.
Lemma same_core_length s t : same_core s t → length s = length t.
Proof. intros H. apply (f_equal length) in H. by rewrite !length_fmap in H. Qed.
Lemma same_core_lookup s t i sl :
  same_core s t → s !! i = Some sl → ∃ sl', t !! i = Some sl' ∧ core sl' = core sl.
Proof.
  intros H Hi. apply (f_equal (.!! i)) in H. rewrite !list_lookup_fmap, Hi in H.
  destruct (t !! i) as [sl'|]; [|done]. injection H as ?. exists sl'.
  unfold core. split; congruence.
Qed.

Lemma same_core_set s i sl sl' :
  s !! i = Some sl → core sl' = core sl → same_core s (<[i := sl']> s).
Proof.
  intros Hi Hc. unfold same_core. rewrite list_fmap_insert, Hc, list_insert_id; [done|].
  by rewrite list_lookup_fmap, Hi.
Qed.

Lemma core_rank s t : core s = core t → slot_rank s = slot_rank t.
Proof. unfold core, slot_rank. congruence. Qed.

Lemma heap_slot a p : links_ok a → (p < length a.2)%nat →
  ∃ i sl, a.2 !! p = Some i ∧ a.1 !! i = Some sl ∧ sl_heap_index sl = p ∧
    hrank a p = slot_rank sl.
Proof.
  intros (_ & H & _) Hp. destruct (lookup_lt_is_Some_2 _ _ Hp) as [i Hi].
  destruct (H p i Hi) as (sl & Hsl & Hh). exists i, sl. split_and!; try done.
  unfold hrank. rewrite Hi. ostep. by rewrite Hsl.
Qed.

Lemma heap_slot_is_less_spec a p q :
  links_ok a → (p < length a.2)%nat → (q < length a.2)%nat →
  heap_slot_is_less a p q = Ok (is_lt (rank_cmp (hrank a p) (hrank a q))).
Proof.
  intros Ha Hp Hq. destruct (heap_slot a p Ha Hp) as (i & si & Hpi & Hi & _ & ->).
  destruct (heap_slot a q Ha Hq) as (j & sj & Hqj & Hj & _ & ->).
  unfold heap_slot_is_less, slot_is_less, at_nat. rewrite Hpi, Hqj. ostep.
  by rewrite Hi, Hj.
Qed.

Lemma swap_heap_spec a p q :
  links_ok a → (p < length a.2)%nat → (q < length a.2)%nat → p ≠ q →
  ∃ a', swap_heap a p q = Ok a' ∧ links_ok a' ∧ same_core a.1 a'.1 ∧
    length a'.2 = length a.2 ∧
    ∀ x, (x < length a.2)%nat → hrank a' x = swapf (hrank a) p q x.
Proof.
  intros Ha Hp Hq Hne. destruct (heap_slot a p Ha Hp) as (i & si & Hpi & Hi & Hsi & Hri).
  destruct (heap_slot a q Ha Hq) as (j & sj & Hqj & Hj & Hsj & Hrj).
  destruct a as [slots heap]. cbn [fst snd] in *.
  assert (i ≠ j) as Hij by (intros ->; simplify_eq; congruence).
  set (heap' := <[q := i]> (<[p := j]> heap)).
  assert (∀ x, heap' !! x = if decide (x = p) then Some j
    else if decide (x = q) then Some i else heap !! x) as Hh'.
  { intros x. unfold heap'. destruct (decide (x = p)) as [->|].
    - rewrite list_lookup_insert_ne, list_lookup_insert_eq by done. done.
    - destruct (decide (x = q)) as [->|].
      + rewrite list_lookup_insert_eq; [done|]. by rewrite length_insert.
      + by rewrite !list_lookup_insert_ne by done. }
  set (slots' := <[i := set_heap_index q si]> (<[j := set_heap_index p sj]> slots)).
  assert (∀ x, slots' !! x = if decide (x = i) then Some (set_heap_index q si)
    else if decide (x = j) then Some (set_heap_index p sj) else slots !! x) as Hs'.
  { intros x. pose proof (lookup_lt_Some _ _ _ Hi). pose proof (lookup_lt_Some _ _ _ Hj).
    unfold slots'. destruct (decide (x = i)) as [->|].
    - rewrite list_lookup_insert_eq; [done|]. by rewrite length_insert.
    - rewrite list_lookup_insert_ne by done. destruct (decide (x = j)) as [->|].
      + by rewrite list_lookup_insert_eq.
      + by rewrite list_lookup_insert_ne by done. }
  exists (slots', heap'). split.
  { unfold swap_heap, set_slot, at_nat. rewrite Hpi, Hqj. ostep. fold heap'.
    rewrite !Hh', (decide_True (P := p = p)), (decide_False (P := q = p)), (decide_True (P := q = q)) by congruence. ostep.
    rewrite Hj. ostep. rewrite list_lookup_insert_ne by done. rewrite Hi. done. }
  assert (same_core slots slots') as Hcore.
  { apply (same_core_trans _ (<[j := set_heap_index p sj]> slots)).
    - by apply (same_core_set _ _ sj).
    - apply (same_core_set _ _ si); [|done]. by rewrite list_lookup_insert_ne. }
  destruct Ha as (Hlen & H1 & H2). cbn [fst snd] in *.
  split; [|split_and!; [done|unfold heap'; cbn; by rewrite !length_insert|]].
  - split_and!; cbn [fst snd].
    + rewrite <- (same_core_length _ _ Hcore). unfold heap'. by rewrite !length_insert.
    + intros h x. rewrite Hh'. destruct (decide (h = p)) as [->|].
      { intros [= <-]. rewrite Hs', decide_False, decide_True by done. by eexists. }
      destruct (decide (h = q)) as [->|].
      { intros [= <-]. rewrite Hs', decide_True by done. by eexists. }
      intros Hx. destruct (H1 h x Hx) as (sl & Hsl & Hslh). rewrite Hs'.
      rewrite !decide_False; [eauto|intros ->; congruence|intros ->; congruence].
    + intros x sl. rewrite Hs', Hh'. destruct (decide (x = i)) as [->|].
      { intros [= <-]. cbn. rewrite decide_False, decide_True by done. done. }
      destruct (decide (x = j)) as [->|].
      { intros [= <-]. cbn. by rewrite decide_True. }
      intros Hsl. pose proof (H2 x sl Hsl) as Hx.
      rewrite !decide_False; [done|intros E; rewrite E in Hx; congruence..].
  - intros x Hx. unfold swapf. rewrite Hri, Hrj. unfold hrank at 1. cbn [fst snd].
    rewrite Hh'. destruct (decide (x = p)) as [->|].
    { ostep. rewrite Hs', decide_False, decide_True by done. done. }
    destruct (decide (x = q)) as [->|].
    { ostep. rewrite Hs', decide_True by done. done. }
    unfold hrank. cbn [fst snd]. destruct (heap !! x) as [y|] eqn:Hy; [|done]. ostep.
    rewrite Hs'. destruct (H1 x y Hy) as (sl & Hsl & Hslx).
    rewrite !decide_False; [done|intros ->; congruence..].
Qed.

Lemma is_lt_true x y : is_lt (rank_cmp x y) = true ↔ rank_cmp x y = Lt.
Proof. by destruct (rank_cmp x y). Qed.
Lemma is_lt_false x y : is_lt (rank_cmp x y) = false ↔ rank_cmp x y ≠ Lt.
Proof. by destruct (rank_cmp x y). Qed.

(** Sifting up: it returns, moves links only, and restores the heap order when only
    the sifted position violates it. *)
Lemma sift_up_spec fuel a k :
  links_ok a → (k < length a.2)%nat → (k <= fuel)%nat →
  ∃ a', sift_up fuel a k = Ok a' ∧ links_ok a' ∧ same_core a.1 a'.1 ∧
    length a'.2 = length a.2 ∧
    (up_ok rank_cmp (length a.2) (hrank a) k →
     heap_ok rank_cmp (length a.2) (hrank a')).
Proof.
  revert a k. induction fuel as [|fuel IH]; intros a k Ha Hk Hf; cbn [sift_up].
  - rewrite decide_False by lia. exists a. split_and!; try done.
    intros Hup. apply (up_done _ _ _ k); [done|left; lia].
  - destruct (decide (0 < k)%nat) as [Hk0|]; [|exists a; split_and!; try done;
      intros Hup; apply (up_done _ _ _ k); [done|left; lia]].
    pose proof (parent_lt k Hk0) as Hp.
    rewrite heap_slot_is_less_spec by (done || lia). ostep.
    destruct (is_lt _) eqn:Hlt; cbn [negb].
    + apply is_lt_true in Hlt.
      destruct (swap_heap_spec a k (parent k) Ha Hk) as (a1 & -> & Ha1 & Hc1 & Hl1 & Hr1);
        [lia|lia|]. ostep.
      destruct (IH a1 (parent k) Ha1) as (a2 & -> & Ha2 & Hc2 & Hl2 & Hh2); [lia|lia|].
      exists a2. split_and!; [done|done|by eapply same_core_trans|congruence|].
      intros Hup. rewrite <- Hl1. apply Hh2. rewrite Hl1.
      pose proof (up_step rank_cmp _ _ k (conj Hk0 Hk) Hup Hlt) as [U1 U2].
      split.
      * intros i Hi Hne. pose proof (parent_lt i ltac:(lia)).
        rewrite !Hr1 by lia. by apply U1.
      * intros i Hi Hpi H0. pose proof (parent_lt (parent k) H0).
        rewrite !Hr1 by lia. by apply U2.
    + apply is_lt_false in Hlt. exists a. split_and!; try done.
      intros Hup. apply (up_done _ _ _ k); auto.
Qed.

Lemma sift_down_spec fuel a k :
  links_ok a → (k < length a.2)%nat → (length a.2 <= k + fuel)%nat →
  ∃ a', sift_down fuel a k = Ok a' ∧ links_ok a' ∧ same_core a.1 a'.1 ∧
    length a'.2 = length a.2 ∧
    (down_ok rank_cmp (length a.2) (hrank a) k →
     heap_ok rank_cmp (length a.2) (hrank a')).
Proof.
  revert a k. induction fuel as [|fuel IH]; intros a k Ha Hk Hf; [lia|]. cbn [sift_down].
  set (n := length a.2) in *.
  destruct (decide (n <= k * 2 + 1)%nat) as [Hleaf|Hleft].
  { exists a. split_and!; try done. intros Hd. apply (down_done _ _ _ k); [done|].
    intros i Hi Hp. apply parent_child in Hp; lia. }
  set (right_less := if decide (k * 2 + 1 + 1 < n)%nat
    then is_lt (rank_cmp (hrank a (k * 2 + 1 + 1)) (hrank a (k * 2 + 1))) else false).
  assert ((if decide (k * 2 + 1 + 1 < n)%nat
    then heap_slot_is_less a (k * 2 + 1 + 1) (k * 2 + 1) else Ok false) = Ok right_less) as ->.
  { unfold right_less. case_decide; [|done]. rewrite heap_slot_is_less_spec; [done|done|lia|lia]. }
  ostep. set (ch := if right_less then (k * 2 + 1 + 1)%nat else (k * 2 + 1)%nat).
  assert (lesser_child rank_cmp n (hrank a) k ch) as Hch.
  { unfold lesser_child, ch, right_less. case_decide as Hr.
    - destruct (is_lt _) eqn:Hlt.
      + apply is_lt_true, lt_le in Hlt. split_and!; [lia|lia|apply parent_child; lia|].
        intros i Hi Hp. apply parent_child in Hp as [->| ->]; [| |lia].
        * by replace (2 * k + 1)%nat with (k * 2 + 1)%nat by lia.
        * replace (2 * k + 2)%nat with (k * 2 + 1 + 1)%nat by lia. apply le_refl; apply _.
      + apply is_lt_false, nlt_le in Hlt; [|apply _].
        split_and!; [lia|lia|apply parent_child; lia|].
        intros i Hi Hp. apply parent_child in Hp as [->| ->]; [| |lia].
        * replace (2 * k + 1)%nat with (k * 2 + 1)%nat by lia. apply le_refl; apply _.
        * by replace (2 * k + 2)%nat with (k * 2 + 1 + 1)%nat by lia.
    - split_and!; [lia|lia|apply parent_child; lia|].
      intros i Hi Hp. apply parent_child in Hp as [->| ->]; [|lia|lia].
      replace (2 * k + 1)%nat with (k * 2 + 1)%nat by lia. apply le_refl; apply _. }
  destruct Hch as (Hchn & Hchp & Hchm). pose proof (parent_lt ch ltac:(lia)) as Hlt'.
  rewrite heap_slot_is_less_spec by (done || lia). ostep.
  destruct (is_lt (rank_cmp (hrank a ch) (hrank a k))) eqn:Hlt; cbn [negb].
  - apply is_lt_true in Hlt.
    destruct (swap_heap_spec a k ch Ha Hk) as (a1 & -> & Ha1 & Hc1 & Hl1 & Hr1);
      [lia|lia|]. ostep.
    destruct (IH a1 ch Ha1) as (a2 & -> & Ha2 & Hc2 & Hl2 & Hh2); [lia|lia|].
    exists a2. split_and!; [done|done|by eapply same_core_trans|by rewrite Hl2|].
    intros Hd. fold n in Hl1, Hr1. rewrite Hl1 in Hh2. apply Hh2.
    pose proof (down_step rank_cmp n _ k ch Hd (conj Hchn (conj Hchp Hchm)) Hlt) as [D1 D2].
    split.
    + intros i Hi Hne. pose proof (parent_lt i ltac:(lia)).
      rewrite !Hr1 by lia. by apply D1.
    + intros i Hi Hpi H0. rewrite !Hr1 by lia. by apply D2.
  - apply is_lt_false, nlt_le in Hlt; [|apply _]. exists a. split_and!; try done.
    intros Hd. apply (down_done _ _ _ k); [done|]. intros i Hi Hp.
    eapply le_trans; [apply _|exact Hlt|]. by apply Hchm.
Qed.

(** ** The key index *)

Definition bucket_slots (b : option IndexBucket) : list nat :=
  match b with None => [] | Some (One i) => [i] | Some (Many l) => l end.
Definition indices (idx : gmap Z IndexBucket) (d : Z) : list nat := bucket_slots (idx !! d).

(** The index lists, for each digest, the slots that hold it. *)
Definition index_ok (slots : list Slot) (idx : gmap Z IndexBucket) : Prop :=
  ∀ d, NoDup (indices idx d) ∧
    ∀ i, i ∈ indices idx d ↔ ∃ sl, slots !! i = Some sl ∧ sl_digest sl = d.

Lemma find_in_spec slots key l :
  (∀ i, i ∈ l → is_Some (slots !! i)) →
  ∃ o, find_in slots key l = Ok o ∧
    match o with
    | Some i => i ∈ l ∧ ∃ sl, slots !! i = Some sl ∧ sl_key sl = key
    | None => ∀ i sl, i ∈ l → slots !! i = Some sl → sl_key sl ≠ key
    end.
Proof.
  induction l as [|i l IH]; intros Hl; cbn [find_in].
  - exists None. split; [done|]. intros i sl Hi. by apply elem_of_nil in Hi.
  - destruct (Hl i) as [sl Hsl]; [by left|]. unfold at_nat at 1. rewrite Hsl. ostep.
    case_decide as Hk.
    + exists (Some i). split; [done|]. split; [by left|eauto].
    + destruct IH as (o & Ho & Hspec); [intros; apply Hl; by right|]. exists o.
      split; [done|]. destruct o as [j|].
      * destruct Hspec as [Hj ?]. split; [by right|done].
      * intros j sj [->|Hj]%elem_of_cons Hsj; [congruence|eauto].
Qed.

Lemma find_spec slots idx key d :
  index_ok slots idx →
  ∃ o, find_slot_with_digest slots idx key d = Ok o ∧
    match o with
    | Some i => ∃ sl, slots !! i = Some sl ∧ sl_key sl = key
    | None => ∀ i sl, slots !! i = Some sl → sl_digest sl = d → sl_key sl ≠ key
    end.
Proof.
  intros H. destruct (H d) as [_ Hd]. unfold find_slot_with_digest, indices in *.
  destruct (idx !! d) as [[i|l]|]; cbn [bucket_slots] in Hd.
  - destruct (proj1 (Hd i)) as (sl & Hsl & Hdg); [by left|].
    unfold at_nat. rewrite Hsl. ostep. eexists. split; [done|]. case_decide; [eauto|].
    intros j sj Hsj Hdj. assert (j ∈ [i]) as Hj by (apply Hd; eauto).
    apply list_elem_of_singleton in Hj as ->. congruence.
  - destruct (find_in_spec slots key l) as (o & Ho & Hspec).
    { intros i Hi. apply Hd in Hi as (sl & -> & _). done. }
    exists o. split; [done|]. destruct o as [i|]; [by destruct Hspec|].
    intros i sl Hsl Hdg. apply (Hspec i); [|done]. apply Hd. eauto.
  - exists None. split; [done|]. intros i sl Hsl Hdg.
    assert (i ∈ @nil nat) as Hi by (apply Hd; eauto). by apply elem_of_nil in Hi.
Qed.

Lemma indices_add idx d i d' :
  indices (add_to_index idx d i) d' =
    if decide (d = d') then indices idx d ++ [i] else indices idx d'.
Proof.
  unfold indices, add_to_index. case_decide as E.
  - subst. rewrite lookup_insert_eq. by destruct (idx !! d') as [[]|].
  - by rewrite lookup_insert_ne.
Qed.

Lemma position_spec x l : x ∈ l → ∃ p, position x l = Some p ∧ l !! p = Some x.
Proof.
  induction l as [|y l IH]; [by intros ?%elem_of_nil|]. intros Hx. cbn.
  case_decide as E; [subst; by exists 0%nat|].
  apply elem_of_cons in Hx as [->|Hx]; [done|].
  destruct (IH Hx) as (p & -> & Hp). by exists (S p).
Qed.

Lemma swap_remove_Permutation l p x : l !! p = Some x → x :: swap_remove l p ≡ₚ l.
Proof.
  intros Hp. unfold swap_remove.
  destruct l as [|z l' _] using rev_ind; [done|]. rewrite last_snoc.
  rewrite length_app. cbn [length]. replace (length l' + 1 - 1)%nat with (length l') by lia.
  destruct (decide (p < length l')%nat) as [Hlt|Hge].
  - rewrite lookup_app_l in Hp by done. rewrite insert_app_l by done.
    rewrite take_app_length' by (by rewrite length_insert).
    rewrite (insert_take_drop _ _ _ Hlt). rewrite <- (take_drop_middle l' p x Hp) at 3.
    solve_Permutation.
  - apply lookup_app_Some in Hp as [Hp|[_ Hp]]; [apply lookup_lt_Some in Hp; lia|].
    destruct (p - length l')%nat as [|n] eqn:En; [|done]. cbn in Hp. injection Hp as ->.
    replace p with (length l' + 0)%nat by lia. rewrite insert_app_r. cbn.
    rewrite take_app_length. by rewrite Permutation_cons_append.
Qed.

Lemma remove_from_index_spec slots idx i sl :
  index_ok slots idx → slots !! i = Some sl →
  ∃ idx', remove_from_index idx (sl_digest sl) i = Ok idx' ∧
    ∀ d, NoDup (indices idx' d) ∧
      ∀ j, j ∈ indices idx' d ↔ j ≠ i ∧ ∃ sj, slots !! j = Some sj ∧ sl_digest sj = d.
Proof.
  intros H Hi. set (d0 := sl_digest sl). destruct (H d0) as [Hnd Hd].
  assert (i ∈ indices idx d0) as Hin by (apply Hd; eauto).
  assert (∀ idx' l', (∀ d, indices idx' d = if decide (d0 = d) then l' else indices idx d) →
    i :: l' ≡ₚ indices idx d0 → ∀ d, NoDup (indices idx' d) ∧
      ∀ j, j ∈ indices idx' d ↔ j ≠ i ∧ ∃ sj, slots !! j = Some sj ∧ sl_digest sj = d)
    as Hgen.
  { intros idx' l' Hi' Hperm d. rewrite Hi'. destruct (decide (d0 = d)) as [<-|Hne].
    - rewrite <- Hperm in Hnd. apply NoDup_cons in Hnd as [Hnin Hnd]. split; [done|].
      intros j. rewrite <- Hd, <- Hperm, elem_of_cons. split; [|naive_solver].
      intros Hj. split; [congruence|by right].
    - destruct (H d) as [Hnd' Hd']. split; [done|]. intros j. rewrite Hd'. split.
      + intros (sj & Hj & Hdj). split; [|eauto]. intros ->. by simplify_eq.
      + intros [_ ?]. done. }
  unfold remove_from_index, indices in *. fold d0.
  destruct (idx !! d0) as [[i'|l]|] eqn:E; cbn [bucket_slots] in *; [| |by apply elem_of_nil in Hin].
  - ostep. apply list_elem_of_singleton in Hin as ->. eexists. split; [done|].
    apply (Hgen _ []); [|done]. intros d. case_decide as Ed; [subst d|].
    + by rewrite lookup_delete_eq.
    + by rewrite lookup_delete_ne.
  - ostep. destruct (position_spec i l Hin) as (p & -> & Hp). ostep. cbv zeta.
    set (b := match swap_remove l p with [x] => One x | l' => Many l' end).
    exists (<[d0 := b]> idx). split.
    + subst b. by destruct (swap_remove l p) as [|? []].
    + apply (Hgen _ (swap_remove l p)); [|by apply swap_remove_Permutation].
      intros d. case_decide as Ed; [subst d|by rewrite lookup_insert_ne].
      rewrite lookup_insert_eq. subst b. by destruct (swap_remove l p) as [|? []].
Qed.

(** ** Refinement of a finite map *)

(** The map from keys to entries that the arena represents. *)
Definition absmap (slots : list Slot) : gmap bytes Entry := list_to_map (slot_pair <$> slots).
#[global] Arguments absmap : simpl never.

Record wf (s : SpaceSaving) : Prop := {
  wf_capacity : 0 < ss_capacity s;
  wf_len : len s <= ss_capacity s;
  wf_digests : ∀ i sl, ss_slots s !! i = Some sl →
    sl_digest sl = key_digest (ss_hash s) (sl_key sl);
  wf_keys : NoDup (sl_key <$> ss_slots s);
  wf_index : index_ok (ss_slots s) (ss_key_index s);
  wf_links : links_ok (ss_slots s, ss_min_heap s);
}.

Definition ordered (s : SpaceSaving) : Prop :=
  heap_ok rank_cmp (length (ss_min_heap s)) (hrank (ss_slots s, ss_min_heap s)).

Lemma absmap_keys slots : (slot_pair <$> slots).*1 = sl_key <$> slots.
Proof. rewrite <- list_fmap_compose. done. Qed.

Lemma absmap_lookup slots k e :
  NoDup (sl_key <$> slots) →
  absmap slots !! k = Some e ↔
    ∃ i sl, slots !! i = Some sl ∧ sl_key sl = k ∧ sl_entry sl = e.
Proof.
  intros Hnd. unfold absmap. rewrite <- elem_of_list_to_map by by rewrite absmap_keys.
  rewrite list_elem_of_fmap. split.
  - intros (sl & [= -> ->] & [i Hi]%list_elem_of_lookup). eauto.
  - intros (i & sl & Hi & <- & <-). exists sl. split; [done|]. apply list_elem_of_lookup. eauto.
Qed.

Lemma absmap_lookup_None slots k :
  NoDup (sl_key <$> slots) →
  absmap slots !! k = None ↔ ∀ i sl, slots !! i = Some sl → sl_key sl ≠ k.
Proof.
  intros Hnd. rewrite eq_None_not_Some. split.
  - intros H i sl Hi <-. apply H. exists (sl_entry sl). apply absmap_lookup; eauto.
  - intros H [e He]. apply absmap_lookup in He as (i & sl & Hi & Hk & _); [|done].
    by eapply H.
Qed.

Lemma size_absmap slots : NoDup (sl_key <$> slots) → size (absmap slots) = length slots.
Proof.
  intros Hnd. unfold absmap. rewrite map_size_list_to_map by by rewrite absmap_keys.
  by rewrite length_fmap.
Qed.

Lemma absmap_core s t : same_core s t → absmap s = absmap t.
Proof.
  intros H. unfold absmap. f_equal.
  assert (∀ l : list Slot, slot_pair <$> l = (λ c : bytes * Z * Entry, (c.1.1, c.2)) <$> (core <$> l)) as E.
  { intros l. by rewrite <- list_fmap_compose. }
  by rewrite !E, H.
Qed.

Lemma core_keys s t : same_core s t → sl_key <$> s = sl_key <$> t.
Proof.
  intros H.
  assert (∀ l : list Slot, sl_key <$> l = (λ c : bytes * Z * Entry, c.1.1) <$> (core <$> l)) as E.
  { intros l. by rewrite <- list_fmap_compose. }
  by rewrite !E, H.
Qed.

Lemma index_ok_core s t idx : same_core s t → index_ok s idx → index_ok t idx.
Proof.
  intros Hc H d. destruct (H d) as [Hnd Hd]. split; [done|]. intros i. rewrite Hd. split.
  - intros (sl & Hi & Hdg). destruct (same_core_lookup s t i sl Hc Hi) as (sl' & Hi' & Hcc).
    exists sl'. unfold core in Hcc. split; congruence.
  - intros (sl & Hi & Hdg). destruct (same_core_lookup t s i sl (eq_sym Hc) Hi)
      as (sl' & Hi' & Hcc).
    exists sl'. unfold core in Hcc. split; congruence.
Qed.

(** Moving slots' heap links keeps everything else. *)
Lemma wf_core s slots heap :
  wf s → same_core (ss_slots s) slots → links_ok (slots, heap) →
  wf (with_state s slots (ss_key_index s) heap) ∧
  absmap slots = absmap (ss_slots s).
Proof.
  intros [Hcap Hlen Hd Hk Hi Hl] Hc Hlinks. split; [|by rewrite (absmap_core _ _ Hc)].
  split; cbn; try done.
  - unfold len in *. cbn. by rewrite <- (same_core_length _ _ Hc).
  - intros i sl Hsl. destruct (same_core_lookup _ _ _ _ (eq_sym Hc) Hsl) as (sl' & Hsl' & Hcc).
    specialize (Hd i sl' Hsl'). unfold core in Hcc. congruence.
  - by rewrite <- (core_keys _ _ Hc).
  - by eapply index_ok_core.
Qed.

(** What every lookup returns. *)
Lemma find_slot_spec s key :
  wf s → ∃ o, find_slot_with_digest (ss_slots s) (ss_key_index s) key
      (key_digest (ss_hash s) key) = Ok o ∧
    match o with
    | Some i => ∃ sl, ss_slots s !! i = Some sl ∧ sl_key sl = key ∧
        absmap (ss_slots s) !! key = Some (sl_entry sl)
    | None => absmap (ss_slots s) !! key = None
    end.
Proof.
  intros Hs. destruct (find_spec (ss_slots s) (ss_key_index s) key
    (key_digest (ss_hash s) key) (wf_index s Hs)) as (o & Ho & Hspec).
  exists o. split; [done|]. destruct o as [i|].
  - destruct Hspec as (sl & Hsl & Hk). exists sl. split_and!; try done.
    apply absmap_lookup; [apply Hs|eauto].
  - apply absmap_lookup_None; [apply Hs|]. intros i sl Hsl Hk.
    apply (Hspec i sl Hsl); [|done]. rewrite (wf_digests s Hs i sl Hsl). by rewrite Hk.
Qed.

Lemma get_spec s key : wf s → get s key = Ok (absmap (ss_slots s) !! key).
Proof.
  intros Hs. unfold get, find_slot.
  destruct (find_slot_spec s key Hs) as (o & -> & Ho). ostep. destruct o as [i|].
  - destruct Ho as (sl & Hsl & _ & ->). unfold at_nat. rewrite Hsl. done.
  - by rewrite Ho.
Qed.

Lemma root_spec s :
  wf s → ss_slots s ≠ [] →
  ∃ i sl, ss_min_heap s !! 0%nat = Some i ∧ ss_slots s !! i = Some sl ∧
    minimum_count s = Ok (count (sl_entry sl)) ∧
    absmap (ss_slots s) !! sl_key sl = Some (sl_entry sl) ∧
    (ordered s → ∀ k e, absmap (ss_slots s) !! k = Some e → count (sl_entry sl) <= count e).
Proof.
  intros Hs Hne. pose proof (wf_links s Hs) as Hl. pose proof Hl as (Hlen & _ & Hback).
  cbn [fst snd] in *.
  assert (0 < length (ss_min_heap s))%nat as Hpos.
  { rewrite Hlen. destruct (ss_slots s); [done|cbn; lia]. }
  destruct (heap_slot _ 0 Hl Hpos) as (i & sl & Hi & Hsl & _ & Hr). cbn [fst snd] in *.
  exists i, sl. split_and!; try done.
  - unfold minimum_count, at_nat. rewrite Hi. by rewrite Hsl.
  - apply absmap_lookup; [apply Hs|eauto].
  - intros Hord k e He. apply absmap_lookup in He as (j & sj & Hj & _ & <-); [|apply Hs].
    pose proof (Hback j sj Hj) as Hjh. pose proof (lookup_lt_Some _ _ _ Hjh) as Hjl.
    pose proof (heap_min rank_cmp _ _ _ Hord Hjl) as Hmin. rewrite Hr in Hmin.
    unfold hrank in Hmin. cbn [fst snd] in Hmin. rewrite Hjh in Hmin. revert Hmin. ostep.
    rewrite Hj. cbn [fmap option_fmap option_map default from_option]. unfold id.
    unfold cmp_le, rank_cmp, slot_rank. cbn [fst snd]. intros Hmin.
    destruct (Z.compare_spec (count (sl_entry sl)) (count (sl_entry sj))); [lia|lia|].
    by cbn in Hmin.
Qed.

(** Ranks after one slot changes in place. *)
Lemma hrank_insert slots heap i sl sl' p :
  slots !! i = Some sl →
  hrank (<[i := sl']> slots, heap) p =
    if decide (heap !! p = Some i) then slot_rank sl' else hrank (slots, heap) p.
Proof.
  intros Hi. unfold hrank. cbn [fst snd]. destruct (heap !! p) as [j|] eqn:E.
  - ostep. destruct (decide (Some j = Some i)) as [[= ->]|Hne].
    + rewrite list_lookup_insert_eq; [done|]. by eapply lookup_lt_Some.
    + rewrite list_lookup_insert_ne; [done|congruence].
  - by rewrite decide_False.
Qed.

Lemma links_insert slots heap i sl sl' :
  links_ok (slots, heap) → slots !! i = Some sl → sl_heap_index sl' = sl_heap_index sl →
  links_ok (<[i := sl']> slots, heap).
Proof.
  intros (Hlen & H1 & H2) Hi Hh. cbn [fst snd] in *.
  split_and!; cbn [fst snd]; [by rewrite length_insert| |].
  - intros h j Hj. destruct (H1 h j Hj) as (sj & Hsj & Hhj).
    destruct (decide (i = j)) as [->|].
    + exists sl'. rewrite list_lookup_insert_eq by by eapply lookup_lt_Some.
      split; [done|congruence].
    + exists sj. by rewrite list_lookup_insert_ne.
  - intros j sj. destruct (decide (i = j)) as [->|].
    + rewrite list_lookup_insert_eq by by eapply lookup_lt_Some.
      intros [= <-]. rewrite Hh. by apply H2.
    + rewrite list_lookup_insert_ne by done. apply H2.
Qed.

Lemma absmap_insert slots i sl sl' :
  NoDup (sl_key <$> slots) → slots !! i = Some sl →
  (sl_key sl' = sl_key sl ∨ absmap slots !! sl_key sl' = None) →
  NoDup (sl_key <$> <[i := sl']> slots) ∧
  absmap (<[i := sl']> slots) =
    <[sl_key sl' := sl_entry sl']> (delete (sl_key sl) (absmap slots)).
Proof.
  intros Hnd Hi Hfresh. pose proof (lookup_lt_Some _ _ _ Hi) as Hlt.
  assert (∀ j sj, slots !! j = Some sj → sl_key sj = sl_key sl → j = i) as Hinj.
  { intros j sj Hj Hk. eapply (NoDup_lookup (sl_key <$> slots)); [done| |].
    - by rewrite list_lookup_fmap, Hj.
    - rewrite list_lookup_fmap, Hi. cbn. by rewrite Hk. }
  assert (∀ j sj, slots !! j = Some sj → j ≠ i → sl_key sj ≠ sl_key sl') as Hother.
  { intros j sj Hj Hne Hk. destruct Hfresh as [E|E].
    - apply Hne. apply (Hinj j sj Hj). congruence.
    - rewrite absmap_lookup_None in E by done. by apply (E j sj). }
  assert (NoDup (sl_key <$> <[i := sl']> slots)) as Hnd'.
  { apply NoDup_alt. intros j j' k Hj Hj'.
    rewrite list_lookup_fmap in Hj, Hj'.
    destruct (<[i:=sl']> slots !! j) as [sj|] eqn:Ej; [|done]. injection Hj as <-.
    destruct (<[i:=sl']> slots !! j') as [sj'|] eqn:Ej'; [|done]. injection Hj' as Hkk.
    destruct (decide (i = j)) as [<-|Hij], (decide (i = j')) as [<-|Hij']; [done| | |].
    - rewrite list_lookup_insert_eq in Ej by done. injection Ej as <-.
      rewrite list_lookup_insert_ne in Ej' by done. exfalso. by apply (Hother j' sj').
    - rewrite list_lookup_insert_eq in Ej' by done. injection Ej' as <-.
      rewrite list_lookup_insert_ne in Ej by done. exfalso. by apply (Hother j sj).
    - rewrite list_lookup_insert_ne in Ej, Ej' by done.
      eapply (NoDup_lookup (sl_key <$> slots)); [done| |].
      + by rewrite list_lookup_fmap, Ej.
      + rewrite list_lookup_fmap, Ej'. cbn. by rewrite Hkk. }
  split; [done|]. apply map_eq. intros k. apply option_eq. intros e.
  rewrite absmap_lookup, lookup_insert_Some, lookup_delete_Some, absmap_lookup by done. split.
  - intros (j & sj & Hj & <- & <-). destruct (decide (i = j)) as [<-|].
    + rewrite list_lookup_insert_eq in Hj by done. injection Hj as <-. by left.
    + rewrite list_lookup_insert_ne in Hj by done. right.
      split; [intros E; by apply (Hother j sj)|]. split; [|eauto]. intros E.
      by apply (Hinj j sj) in Hj.
  - intros [[<- <-]|(Hne & Hne' & j & sj & Hj & <- & <-)].
    + exists i, sl'. by rewrite list_lookup_insert_eq.
    + exists j, sj. rewrite list_lookup_insert_ne; [done|]. intros ->. congruence.
Qed.

(** What stays the same in every operation on the arena. *)
Definition same_meta (s t : SpaceSaving) : Prop :=
  ss_capacity t = ss_capacity s ∧ ss_hash t = ss_hash s ∧
  ss_total_weight t = ss_total_weight s ∧ ss_updates t = ss_updates s.

Lemma insert_spec s key e :
  wf s → absmap (ss_slots s) !! key = None → len s < ss_capacity s →
  ∃ s', insert_entry s key e = Ok s' ∧ wf s' ∧ same_meta s s' ∧
    absmap (ss_slots s') = <[key := e]> (absmap (ss_slots s)) ∧ (ordered s → ordered s').
Proof.
  intros Hs Hkey Hroom. pose proof (wf_links s Hs) as (Hlen & H1 & H2). cbn [fst snd] in *.
  unfold insert_entry, insert_entry_with_digest.
  set (d := key_digest (ss_hash s) key). set (n := length (ss_slots s)) in *.
  set (sl := {| sl_key := key; sl_digest := d; sl_entry := e;
                sl_heap_index := length (ss_min_heap s) |}).
  set (a := (ss_slots s ++ [sl], ss_min_heap s ++ [n]) : arena).
  assert (length a.2 = S n) as Hla by (cbn; rewrite length_app; cbn; lia).
  assert (links_ok a) as Ha.
  { unfold links_ok, a. cbn [fst snd]. split_and!.
    - rewrite !length_app. cbn. lia.
    - intros h i [Hi|[Hge Hi]]%lookup_app_Some.
      + destruct (H1 h i Hi) as (si & Hsi & Hh). exists si. split; [|done].
        by apply lookup_app_l_Some.
      + destruct (h - length (ss_min_heap s))%nat eqn:E; [|done]. injection Hi as <-.
        exists sl. rewrite lookup_app_r by done. unfold n. rewrite Nat.sub_diag.
        split; [done|]. cbn. lia.
    - intros i si [Hi|[Hge Hi]]%lookup_app_Some.
      + by apply lookup_app_l_Some, H2.
      + destruct (i - length (ss_slots s))%nat eqn:E; [|done]. injection Hi as <-. cbn.
        rewrite lookup_app_r, Nat.sub_diag by done. cbn. f_equal. unfold n. lia. }
  destruct (sift_up_spec (S (length (ss_min_heap s))) a (length (ss_min_heap s)) Ha)
    as ([slots heap] & Hup & Hl' & Hc' & Hhl & Hord); [lia|lia|].
  cbv zeta. fold n sl. fold a. rewrite Hup. ostep. eexists. split; [done|].
  cbn [fst snd] in *.
  assert (NoDup (sl_key <$> ss_slots s ++ [sl])) as Hnd.
  { rewrite fmap_app. apply NoDup_app. split; [apply Hs|]. split; [|apply NoDup_singleton].
    intros k Hk ->%list_elem_of_singleton. apply list_elem_of_fmap in Hk as (sj & E & Hin).
    apply list_elem_of_lookup in Hin as [j Hj].
    rewrite absmap_lookup_None in Hkey by apply Hs. by apply (Hkey j sj). }
  assert (wf (with_state s (ss_slots s ++ [sl]) (add_to_index (ss_key_index s) d n)
    (ss_min_heap s ++ [n]))) as Hwf.
  { split; cbn; try done; [apply Hs|unfold len in *; cbn; rewrite length_app; cbn; lia| |].
    - intros i si [Hi|[_ Hi]]%lookup_app_Some; [by apply (wf_digests s Hs i)|].
      by apply list_lookup_singleton_Some in Hi as [_ <-].
    - intros d'. rewrite indices_add. destruct (wf_index s Hs d') as [Hnd' Hd'].
      assert (∀ i, i ∈ indices (ss_key_index s) d' → (i < n)%nat) as Hlt.
      { intros i Hi. apply Hd' in Hi as (si & Hsi & _). by eapply lookup_lt_Some. }
      assert (∀ i, (∃ si, (ss_slots s ++ [sl]) !! i = Some si ∧ sl_digest si = d') ↔
        i ∈ indices (ss_key_index s) d' ∨ (i = n ∧ d = d')) as Hex.
      { intros i. rewrite Hd'. split.
        - intros (si & [Hi|[Hge Hi]]%lookup_app_Some & Hdg); [eauto|].
          apply list_lookup_singleton_Some in Hi as [Hz <-]. right. unfold n. split; [lia|done].
        - intros [(si & Hi & Hdg)|[-> Hdd]].
          + exists si. split; [by apply lookup_app_l_Some|done].
          + exists sl. rewrite lookup_app_r by done. unfold n. by rewrite Nat.sub_diag. }
      destruct (decide (d = d')) as [<-|Hne].
      + split.
        * apply NoDup_app. split; [done|]. split; [|apply NoDup_singleton].
          intros i Hi ->%list_elem_of_singleton. apply Hlt in Hi. lia.
        * intros i. rewrite Hex, elem_of_app, list_elem_of_singleton. tauto.
      + split; [done|]. intros i. rewrite Hex. tauto. }
  destruct (wf_core _ slots heap Hwf Hc' Hl') as [Hwf' Habs]. cbn in Habs.
  split; [exact Hwf'|]. split; [done|]. cbn. rewrite Habs. split.
  - apply map_eq. intros k. apply option_eq. intros e'.
    rewrite absmap_lookup, lookup_insert_Some, absmap_lookup by (done || apply Hs). split.
    + intros (i & si & [Hi|[_ Hi]]%lookup_app_Some & <- & <-).
      * right. split; [|eauto]. intros E. rewrite absmap_lookup_None in Hkey by apply Hs.
        by apply (Hkey i si).
      * apply list_lookup_singleton_Some in Hi as [_ <-]. by left.
    + intros [[<- <-]|(Hne & i & si & Hi & <- & <-)].
      * exists n, sl. split_and!; [|done|done]. rewrite lookup_app_r by done. unfold n.
        by rewrite Nat.sub_diag.
      * exists i, si. split_and!; [|done|done]. by apply lookup_app_l_Some.
  - intros Ho. unfold ordered in *. cbn. rewrite Hhl. apply Hord.
    replace (length a.2) with (S (length (ss_min_heap s))) by (rewrite Hla; congruence).
    apply (up_push _ _ (hrank (ss_slots s, ss_min_heap s))); [done|].
    intros p Hp. unfold hrank, a. cbn [fst snd]. rewrite lookup_app_l by done.
    destruct (lookup_lt_is_Some_2 _ _ Hp) as [i Hi]. rewrite Hi. ostep.
    destruct (H1 p i Hi) as (si & Hsi & _).
    rewrite lookup_app_l; [done|]. by eapply lookup_lt_Some.
Qed.

Lemma replace_spec s key e :
  wf s → absmap (ss_slots s) !! key = None → ss_slots s ≠ [] →
  ∃ i old s', ss_min_heap s !! 0%nat = Some i ∧ ss_slots s !! i = Some old ∧
    replace_min s key (key_digest (ss_hash s) key) e = Ok (sl_key old, s') ∧
    wf s' ∧ same_meta s s' ∧
    absmap (ss_slots s') = <[key := e]> (delete (sl_key old) (absmap (ss_slots s))) ∧
    (ordered s → ordered s').
Proof.
  intros Hs Hkey Hne. destruct (root_spec s Hs Hne) as (i & old & Hroot & Hold & _).
  pose proof (wf_links s Hs) as Hl. pose proof Hl as (Hlen & H1 & H2). cbn [fst snd] in *.
  destruct (remove_from_index_spec _ _ _ _ (wf_index s Hs) Hold) as (idx & Hrem & Hidx).
  set (d := key_digest (ss_hash s) key).
  set (sl := {| sl_key := key; sl_digest := d; sl_entry := e;
                sl_heap_index := sl_heap_index old |}).
  set (slots1 := <[i := sl]> (ss_slots s)).
  pose proof (links_insert _ _ i old sl Hl Hold eq_refl) as Ha. fold slots1 in Ha.
  assert (0 < length (ss_min_heap s))%nat as Hpos by by eapply lookup_lt_Some.
  destruct (sift_down_spec (length (ss_min_heap s)) (slots1, ss_min_heap s) 0 Ha)
    as ([slots heap] & Hdown & Hl' & Hc' & Hhl & Hord); [done|cbn; lia|]. cbn [fst snd] in *.
  exists i, old. eexists. split; [done|]. split; [done|]. split.
  { unfold replace_min, at_nat. rewrite Hroot. ostep. rewrite Hold. ostep.
    rewrite Hrem. ostep. fold sl. fold slots1. rewrite Hdown. done. }
  destruct (absmap_insert (ss_slots s) i old sl (wf_keys s Hs) Hold) as [Hnd Habs];
    [by right|]. fold slots1 in Hnd, Habs.
  assert (wf (with_state s slots1 (add_to_index idx d i) (ss_min_heap s))) as Hwf.
  { pose proof (lookup_lt_Some _ _ _ Hold) as Hi.
    assert (∀ j, slots1 !! j = if decide (i = j) then Some sl else ss_slots s !! j) as Hs1.
    { intros j. unfold slots1. case_decide as E; [subst; by rewrite list_lookup_insert_eq|].
      by rewrite list_lookup_insert_ne. }
    split; cbn; try done; [apply Hs|unfold len, slots1; cbn; rewrite length_insert; apply Hs| |].
    - intros j sj. rewrite Hs1. case_decide; [by intros [= <-]|]. apply (wf_digests s Hs).
    - intros d'. rewrite indices_add. destruct (Hidx d') as [Hnd' Hd'].
      assert (∀ j, (∃ sj, slots1 !! j = Some sj ∧ sl_digest sj = d') ↔
        j ∈ indices idx d' ∨ (j = i ∧ d = d')) as Hex.
      { intros j. rewrite Hd', Hs1. case_decide as E.
        - subst j. split; [intros (sj & [= <-] & <-); by right|].
          intros [[? _]|[_ <-]]; [done|by exists sl].
        - split; [intros (sj & Hsj & Hdg); left; split; [congruence|eauto]|].
          intros [[_ ?]|[-> _]]; [done|done]. }
      destruct (decide (d = d')) as [<-|Hdd].
      + split.
        * apply NoDup_app. split; [done|]. split; [|apply NoDup_singleton].
          intros j Hj ->%list_elem_of_singleton. apply Hd' in Hj. tauto.
        * intros j. rewrite Hex, elem_of_app, list_elem_of_singleton. tauto.
      + split; [done|]. intros j. rewrite Hex. tauto. }
  destruct (wf_core _ slots heap Hwf Hc' Hl') as [Hwf' Habs']. cbn in Habs'.
  split; [exact Hwf'|]. split; [done|]. split; [cbn; by rewrite Habs', Habs|].
  intros Ho. unfold ordered in *. cbn. rewrite Hhl. apply Hord.
  apply (down_root _ _ (hrank (ss_slots s, ss_min_heap s))); [done|].
  intros p Hp. unfold slots1. rewrite (hrank_insert _ _ i old sl p Hold).
  rewrite decide_False; [done|]. intros E.
  destruct (H1 p i E) as (s1 & Hs1 & Hh1). destruct (H1 0%nat i Hroot) as (s2 & Hs2 & Hh2).
  simplify_eq. lia.
Qed.

Lemma touch_spec s key weight i sl :
  wf s → ss_slots s !! i = Some sl → sl_key sl = key →
  ∃ slots slot' heap, set_slot (ss_slots s) i (bump_slot weight) = Ok slots ∧
    slots !! i = Some slot' ∧ ∃ slots',
    sift_down (length (ss_min_heap s)) (slots, ss_min_heap s) (sl_heap_index slot')
      = Ok (slots', heap) ∧
    wf (with_state s slots' (ss_key_index s) heap) ∧
    absmap slots' = <[key := {| count := count (sl_entry sl) +ʷ weight;
                                error := error (sl_entry sl) |}]> (absmap (ss_slots s)) ∧
    (ordered s → count (sl_entry sl) <= count (sl_entry sl) +ʷ weight →
     ordered (with_state s slots' (ss_key_index s) heap)).
Proof.
  intros Hs Hi Hkey. pose proof (wf_links s Hs) as Hl. pose proof Hl as (Hlen & H1 & H2).
  cbn [fst snd] in *. pose proof (lookup_lt_Some _ _ _ Hi) as Hlt.
  set (sl' := bump_slot weight sl). set (slots1 := <[i := sl']> (ss_slots s)).
  pose proof (links_insert _ _ i sl sl' Hl Hi eq_refl) as Ha. fold slots1 in Ha.
  pose proof (H2 i sl Hi) as Hback. pose proof (lookup_lt_Some _ _ _ Hback) as Hpos.
  destruct (sift_down_spec (length (ss_min_heap s)) (slots1, ss_min_heap s)
    (sl_heap_index sl) Ha) as ([slots heap] & Hdown & Hl' & Hc' & Hhl & Hord);
    [done|cbn; lia|]. cbn [fst snd] in *.
  exists slots1, sl', heap.
  split; [unfold set_slot, at_nat; by rewrite Hi|].
  split; [unfold slots1; by rewrite list_lookup_insert_eq|].
  exists slots. split; [done|].
  destruct (absmap_insert (ss_slots s) i sl sl' (wf_keys s Hs) Hi) as [Hnd Habs];
    [by left|]. fold slots1 in Hnd, Habs.
  assert (∀ j, slots1 !! j = if decide (i = j) then Some sl' else ss_slots s !! j) as Hs1.
  { intros j. unfold slots1. case_decide as E; [subst; by rewrite list_lookup_insert_eq|].
    by rewrite list_lookup_insert_ne. }
  assert (wf (with_state s slots1 (ss_key_index s) (ss_min_heap s))) as Hwf.
  { split; cbn; try done; [apply Hs|unfold len, slots1; cbn; rewrite length_insert; apply Hs| |].
    - intros j sj. rewrite Hs1. case_decide; [intros [= <-]|apply (wf_digests s Hs)].
      apply (wf_digests s Hs i sl Hi).
    - intros d. destruct (wf_index s Hs d) as [Hnd' Hd']. split; [done|].
      intros j. rewrite Hd', Hs1. case_decide as E; [subst j|done]. split.
      + intros (sj & Hsj & Hdg). exists sl'. simplify_eq. done.
      + intros (sj & [= <-] & Hdg). exists sl. done. }
  destruct (wf_core _ slots heap Hwf Hc' Hl') as [Hwf' Habs']. cbn in Habs'.
  split; [exact Hwf'|]. split.
  { rewrite Habs', Habs. cbn. rewrite Hkey. by rewrite insert_delete_eq. }
  intros Ho Hle. unfold ordered in *. cbn. rewrite Hhl. apply Hord.
  apply (down_raise _ _ (hrank (ss_slots s, ss_min_heap s))); [done| |].
  - intros p Hp Hne. unfold slots1. rewrite (hrank_insert _ _ i sl sl' p Hi).
    rewrite decide_False; [done|]. intros E.
    destruct (H1 p i E) as (s1 & Hsl1 & Hh1). simplify_eq.
  - intros _. unfold slots1. rewrite (hrank_insert _ _ i sl sl' _ Hi), decide_True by done.
    unfold hrank. cbn [fst snd]. rewrite Hback. ostep. rewrite Hi.
    cbn [fmap option_fmap option_map default from_option]. unfold id, cmp_le, rank_cmp, slot_rank.
    cbn [fst snd sl' bump_slot sl_entry sl_digest sl_key count].
    rewrite !Z.compare_refl.
    destruct (Z.compare_spec (count (sl_entry sl)) (count (sl_entry sl) +ʷ weight)); [|done|lia].
    cbn. by rewrite (cmp_refl bytes_cmp).
Qed.

(** ** The abstract algorithm *)

(** One update of the textbook algorithm on a map of at most [cap] entries. *)
Inductive map_add (cap : Z) (m : gmap bytes Entry) (k : bytes) (w : Z)
    : gmap bytes Entry → Prop :=
  | add_tracked e :
      m !! k = Some e →
      map_add cap m k w (<[k := {| count := count e +ʷ w; error := error e |}]> m)
  | add_room :
      m !! k = None → Z.of_nat (size m) < cap →
      map_add cap m k w (<[k := {| count := w; error := 0 |}]> m)
  | add_evict k0 e0 :
      m !! k = None → Z.of_nat (size m) = cap → m !! k0 = Some e0 →
      (∀ k' e', m !! k' = Some e' → count e0 <= count e') →
      map_add cap m k w
        (<[k := {| count := count e0 +ʷ w; error := count e0 |}]> (delete k0 m)).

Definition map_of (s : SpaceSaving) : gmap bytes Entry := absmap (ss_slots s).

Lemma len_size s : wf s → len s = Z.of_nat (size (map_of s)).
Proof. intros Hs. unfold len, map_of. by rewrite size_absmap by apply Hs. Qed.

Lemma wf_totals s total updates : wf s → wf (with_totals s total updates).
Proof. intros [? ? ? ? ? ?]. by split. Qed.

(** Every update returns, keeps the arena consistent and counts itself; in heap
    order, and without counter overflow, it is a [map_add] that keeps the
    order. *)
Lemma add_spec s key w :
  wf s →
  ∃ s', add s key w = Ok s' ∧ wf s' ∧
    ss_capacity s' = ss_capacity s ∧ ss_hash s' = ss_hash s ∧
    ss_total_weight s' = ss_total_weight s +ʷ w ∧ ss_updates s' = ss_updates s +ʷ 1 ∧
    (ordered s → (∀ k e, map_of s !! k = Some e → count e <= count e +ʷ w) →
     ordered s' ∧ map_add (ss_capacity s) (map_of s) key w (map_of s')).
Proof.
  intros Hs0. unfold add. cbv zeta.
  set (s1 := with_totals s (ss_total_weight s +ʷ w) (ss_updates s +ʷ 1)).
  assert (wf s1) as Hs by by apply wf_totals.
  change (ordered s) with (ordered s1). change (map_of s) with (map_of s1).
  change (ss_capacity s) with (ss_capacity s1). change (ss_hash s) with (ss_hash s1).
  destruct (find_slot_spec s1 key Hs) as (o & -> & Ho). ostep. destruct o as [i|].
  - destruct Ho as (sl & Hsl & Hk & Hm).
    destruct (touch_spec s1 key w i sl Hs Hsl Hk)
      as (slots & slot' & heap & -> & Hslot' & slots' & Hdown & Hwf & Habs & Hord).
    ostep. unfold at_nat. rewrite Hslot'. ostep. rewrite Hdown. ostep.
    eexists. split; [done|]. split_and!; try done. intros Ho Hc.
    split; [apply Hord; [done|by apply (Hc key)]|].
    unfold map_of in *. cbn. rewrite Habs. by apply add_tracked.
  - destruct (Z.ltb_spec (len s1) (ss_capacity s1)) as [Hroom|Hfull].
    + destruct (insert_spec s1 key {| count := w; error := 0 |} Hs Ho Hroom)
        as (s' & Hins & Hwf & (Hc & Hh & Ht & Hu) & Habs & Hord).
      unfold insert_entry in Hins. rewrite Hins. eexists. split; [done|].
      split_and!; try done. intros Ho' _. split; [auto|]. unfold map_of. rewrite Habs.
      apply add_room; [done|]. fold (map_of s1). by rewrite <- len_size.
    + assert (ss_slots s1 ≠ []) as Hne.
      { pose proof (wf_capacity s1 Hs). intros E. unfold len in Hfull. rewrite E in Hfull.
        cbn [length] in Hfull. lia. }
      destruct (root_spec s1 Hs Hne) as (i & sl & Hi & Hsl & -> & Hm & Hmin). ostep.
      destruct (replace_spec s1 key {| count := count (sl_entry sl) +ʷ w;
        error := count (sl_entry sl) |} Hs Ho Hne)
        as (i' & old & s' & Hi' & Hold & -> & Hwf & (Hc & Hh & Ht & Hu) & Habs & Hord).
      ostep. rewrite Hi in Hi'. injection Hi' as <-. rewrite Hsl in Hold.
      injection Hold as <-. eexists. split; [done|].
      split_and!; try done. intros Ho' _. split; [auto|]. unfold map_of. rewrite Habs.
      apply (add_evict _ _ _ _ (sl_key sl) (sl_entry sl)); [done| |done|by apply Hmin].
      fold (map_of s1). rewrite <- len_size by done. pose proof (wf_len s1 Hs). lia.
Qed.

(** [add_key_buf] is [add], and hands back an empty buffer. *)
Lemma add_key_buf_eq s key w : add_key_buf s key w = (s ← add s key w; Ok (s, [])).
Proof.
  unfold add_key_buf, add. cbv zeta.
  destruct (find_slot_with_digest _ _ _ _) as [[i|]| |]; ostep; try done.
  - destruct (set_slot _ _ _) as [slots| |]; ostep; try done.
    destruct (at_nat slots i) as [sl| |]; ostep; try done.
    by destruct (sift_down _ _ _) as [[]| |].
  - case_match; [done|]. destruct (minimum_count _) as [mn| |]; ostep; try done.
    by destruct (replace_min _ _ _ _) as [[]| |].
Qed.

(** ** The error contract on the abstract map *)

Definition least_count (cap : Z) (m : gmap bytes Entry) (c : Z) : Prop :=
  (Z.of_nat (size m) = cap ∧ (∃ k e, m !! k = Some e ∧ count e = c) ∧
   ∀ k e, m !! k = Some e → c <= count e) ∨
  (Z.of_nat (size m) < cap ∧ c = 0).

(** What a summary of the stream [l] promises. *)
Record sound (cap : Z) (m : gmap bytes Entry) (l : list (bytes * Z)) : Prop := {
  so_size : Z.of_nat (size m) <= cap;
  so_range : ∀ k e, m !! k = Some e → 0 <= error e <= count e;
  so_tracked : ∀ k e, m !! k = Some e →
    count e - error e <= weight_of k l <= count e;
  so_absent : ∀ k c, m !! k = None → least_count cap m c → weight_of k l <= c;
  so_sum : msum (λ _ e, count e) m <= total_of l;
}.

Lemma sound_count cap m l k e : sound cap m l → m !! k = Some e → count e <= total_of l.
Proof.
  intros Hs Hk. pose proof (so_sum _ _ _ Hs).
  pose proof (msum_elem_le (λ _ e, count e) m k e) as H1. cbn in H1.
  enough (count e <= msum (λ _ e, count e) m) by lia.
  apply H1; [|done]. intros k' e' Hk'. apply (so_range _ _ _ Hs) in Hk'. lia.
Qed.

Lemma least_count_exists (cap : Z) (m : gmap bytes Entry) :
  0 < cap → Z.of_nat (size m) <= cap → ∃ c, least_count cap m c.
Proof.
  intros Hc Hsz. destruct (Z.eq_dec (Z.of_nat (size m)) cap) as [E|]; [|exists 0; right; lia].
  assert (∃ k e, m !! k = Some e ∧ ∀ k' e', m !! k' = Some e' → count e <= count e')
    as (k & e & Hk & Hmin).
  { assert (m ≠ ∅) as Hne by (intros ->; rewrite map_size_empty in E; lia).
    clear -Hne. induction m as [|k e m Hk IH] using map_ind; [done|].
    destruct (decide (m = ∅)) as [->|Hm].
    - exists k, e. rewrite lookup_insert_eq. split; [done|].
      intros k' e' [[_ <-]|[_ Hk']]%lookup_insert_Some; [lia|]. by rewrite lookup_empty in Hk'.
    - destruct (IH Hm) as (k1 & e1 & Hk1 & Hmin1).
      destruct (Z.le_gt_cases (count e) (count e1)) as [Hle|Hgt].
      + exists k, e. rewrite lookup_insert_eq. split; [done|].
        intros k' e' [[_ <-]|[_ Hk']]%lookup_insert_Some; [lia|].
        specialize (Hmin1 k' e' Hk'). lia.
      + exists k1, e1. rewrite lookup_insert_ne by congruence. split; [done|].
        intros k' e' [[_ <-]|[_ Hk']]%lookup_insert_Some; [lia|eauto]. }
  exists (count e). left. split_and!; [done|by exists k, e|done].
Qed.

Lemma msum_delete_nonneg m l cap k e :
  sound cap m l → m !! k = Some e →
  msum (λ _ e, count e) (delete k m) = msum (λ _ e, count e) m - count e.
Proof. intros _ Hk. rewrite (msum_delete _ m k e) by done. lia. Qed.

(** The least count only grows under an update: a new least entry was there. *)
Lemma map_add_sound cap m l k w m' :
  0 < cap → sound cap m l → 0 <= w → total_of l + w < u64_mod → weights_ok l →
  map_add cap m k w m' → sound cap m' (l ++ [(k, w)]).
Proof.
  intros Hcap Hs Hw Htot Hl H. pose proof (total_of_nonneg l Hl) as Ht0.
  assert (∀ k' e', m !! k' = Some e' → count e' +ʷ w = count e' + w) as Hadd.
  { intros k' e' Hk'. pose proof (sound_count _ _ _ _ _ Hs Hk').
    apply (so_range _ _ _ Hs) in Hk'. apply wadd64_small. word_lia. }
  destruct (least_count_exists cap m Hcap (so_size _ _ _ Hs)) as [c Hc].
  pose proof (λ k', so_absent _ _ _ Hs k' c) as Habs.
  assert (∀ k', weight_of k' (l ++ [(k, w)]) =
    weight_of k' l + (if decide (k = k') then w else 0)) as Hwt.
  { intros k'. rewrite weight_of_app. cbn. lia. }
  destruct H as [e Hk|Hk Hroom|k0 e0 Hk Hfull Hk0 Hmin].
  - rewrite (Hadd k e Hk). pose proof (so_range _ _ _ Hs k e Hk) as Hr.
    pose proof (so_tracked _ _ _ Hs k e Hk) as Htr.
    split.
    + rewrite map_size_insert_Some by eauto. apply Hs.
    + intros k' e' [[<- <-]|[_ ?]]%lookup_insert_Some; [cbn; lia|by eapply Hs].
    + intros k' e' [[<- <-]|[Hne Hk']]%lookup_insert_Some; rewrite Hwt.
      * rewrite decide_True by done. cbn. lia.
      * rewrite decide_False by done. pose proof (so_tracked _ _ _ Hs k' e' Hk'). lia.
    + intros k' c' Hk' Hc'. apply lookup_insert_None in Hk' as [Hk' Hne]. rewrite Hwt.
      rewrite decide_False by done. specialize (Habs k' Hk' Hc).
      destruct Hc as [(Hsz & _ & Hlow)|[Hsz ->]], Hc' as [(Hsz' & (k1 & e1 & Hk1 & <-) & _)|[Hsz' ->]];
        rewrite map_size_insert_Some in Hsz' by eauto; try lia.
      apply lookup_insert_Some in Hk1 as [[<- <-]|[_ Hk1]]; cbn.
      * specialize (Hlow k e Hk). lia.
      * specialize (Hlow k1 e1 Hk1). lia.
    + rewrite (msum_insert _ m k e) by done. cbn [count]. rewrite total_of_app. cbn.
      pose proof (so_sum _ _ _ Hs). lia.
  - assert (c = 0) as -> by (destruct Hc as [(? & _)|[_ ?]]; lia).
    split.
    + rewrite map_size_insert_None by done. lia.
    + intros k' e' [[<- <-]|[_ ?]]%lookup_insert_Some; [cbn; lia|by eapply Hs].
    + intros k' e' [[<- <-]|[Hne Hk']]%lookup_insert_Some; rewrite Hwt.
      * rewrite decide_True by done. cbn. specialize (Habs k Hk Hc).
        pose proof (weight_of_nonneg k l Hl). lia.
      * rewrite decide_False by done. pose proof (so_tracked _ _ _ Hs k' e' Hk'). lia.
    + intros k' c' Hk' Hc'. apply lookup_insert_None in Hk' as [Hk' Hne]. rewrite Hwt.
      rewrite decide_False by done. specialize (Habs k' Hk' Hc).
      destruct Hc' as [(_ & (k1 & e1 & Hk1 & <-) & _)|[_ ->]]; [|lia].
      apply lookup_insert_Some in Hk1 as [[<- <-]|[_ Hk1]]; cbn; [lia|].
      pose proof (so_range _ _ _ Hs k1 e1 Hk1). lia.
    + rewrite msum_insert_new by done. cbn [count]. rewrite total_of_app. cbn.
      pose proof (so_sum _ _ _ Hs). lia.
  - rewrite (Hadd k0 e0 Hk0). pose proof (so_range _ _ _ Hs k0 e0 Hk0) as Hr.
    assert (c = count e0) as ->.
    { destruct Hc as [(_ & (k1 & e1 & Hk1 & <-) & Hlow)|[? _]]; [|lia].
      specialize (Hlow k0 e0 Hk0). specialize (Hmin k1 e1 Hk1). lia. }
    assert (k ≠ k0) as Hkk by congruence.
    assert (delete k0 m !! k = None) as Hdk by (by rewrite lookup_delete_ne).
    assert (Z.of_nat (size (delete k0 m)) = cap - 1) as Hsd.
    { rewrite map_size_delete_Some by eauto.
      destruct (size m) eqn:E; [cbn in Hfull; lia|cbn]. lia. }
    split.
    + rewrite map_size_insert_None by done. lia.
    + intros k' e' [[<- <-]|[_ [_ ?]%lookup_delete_Some]]%lookup_insert_Some;
        [cbn; lia|by eapply Hs].
    + intros k' e' [[<- <-]|[Hne [_ Hk']%lookup_delete_Some]]%lookup_insert_Some; rewrite Hwt.
      * rewrite decide_True by done. cbn. specialize (Habs k Hk Hc).
        pose proof (weight_of_nonneg k l Hl). lia.
      * rewrite decide_False by done. pose proof (so_tracked _ _ _ Hs k' e' Hk'). lia.
    + intros k' c' Hk' Hc'. apply lookup_insert_None in Hk' as [Hk' Hne]. rewrite Hwt.
      rewrite decide_False by done.
      assert (weight_of k' l <= count e0) as Hwk.
      { apply lookup_delete_None in Hk' as [->|Hk'];
          [pose proof (so_tracked _ _ _ Hs _ e0 Hk0); lia|by apply Habs]. }
      destruct Hc' as [(_ & (k1 & e1 & Hk1 & <-) & _)|[Hsz _]];
        [|rewrite map_size_insert_None in Hsz by done; lia].
      apply lookup_insert_Some in Hk1 as [[<- <-]|[_ [_ Hk1]%lookup_delete_Some]]; cbn; [lia|].
      specialize (Hmin k1 e1 Hk1). lia.
    + rewrite msum_insert_new by done. cbn [count]. rewrite total_of_app. cbn.
      rewrite (msum_delete_nonneg m l cap k0 e0 Hs Hk0). pose proof (so_sum _ _ _ Hs). lia.
Qed.

(** ** Merging *)

(** The union of two summaries, an absent key charged the other's least count. *)
Definition merge_entry (ma mb : Z) (x y : option Entry) : option Entry :=
  match x, y with
  | Some a, Some b =>
      Some {| count := count a +ʷ count b; error := error a +ʷ error b |}
  | Some a, None => Some {| count := count a +ʷ mb; error := error a +ʷ mb |}
  | None, Some b => Some {| count := count b +ʷ ma; error := error b +ʷ ma |}
  | None, None => None
  end.
Definition merge_map (ma mb : Z) (a b : gmap bytes Entry) : gmap bytes Entry :=
  merge (merge_entry ma mb) a b.

Lemma lookup_merge_map ma mb a b k :
  merge_map ma mb a b !! k = merge_entry ma mb (a !! k) (b !! k).
Proof. unfold merge_map. rewrite lookup_merge. by destruct (a !! k), (b !! k). Qed.

(** [m] is [u] cut down to its [cap] largest counts. *)
Record trimmed (cap : Z) (u m : gmap bytes Entry) : Prop := {
  tr_sub : ∀ k e, m !! k = Some e → u !! k = Some e;
  tr_size : Z.of_nat (size m) <= cap;
  tr_full : Z.of_nat (size m) = cap ∨ m = u;
  tr_large : ∀ k e k' e', u !! k = Some e → m !! k = None → m !! k' = Some e' →
    count e <= count e';
}.

Lemma least_count_le (cap : Z) (m : gmap bytes Entry) (l : list (bytes * Z)) (c : Z) : 0 < cap → sound cap m l → least_count cap m c →
  0 <= c ∧ (∀ k e, m !! k = Some e → c <= count e) ∧ c <= Z.max 0 (total_of l).
Proof.
  intros Hcap Hs [(Hsz & (k & e & Hk & <-) & Hlow)|[Hsz ->]].
  - pose proof (so_range _ _ _ Hs k e Hk). pose proof (sound_count _ _ _ _ _ Hs Hk).
    split_and!; [lia|done|lia].
  - split_and!; [lia| |lia]. intros k e Hk. pose proof (so_range _ _ _ Hs k e Hk). lia.
Qed.

(** Any [cap] keys weigh, by [m]'s account, at most what [m] holds in all. *)
Lemma charged_sum (cap : Z) (m : gmap bytes Entry) (l : list (bytes * Z)) (c : Z) (t : gmap bytes Entry) :
  0 < cap → sound cap m l → least_count cap m c → Z.of_nat (size t) <= cap →
  msum (λ k _, match m !! k with Some e => count e | None => c end) t <= total_of l.
Proof.
  intros Hcap Hs Hc Ht. destruct (least_count_le cap m l c Hcap Hs Hc) as (Hc0 & Hlow & _).
  assert (msum (λ k _, match m !! k with Some e => count e - c | None => 0 end) t <=
    msum (λ _ e, count e - c) m) as Hle.
  { apply (msum_keys_le (λ e, count e - c)). intros k e Hk. specialize (Hlow k e Hk). lia. }
  transitivity (msum (λ _ _, c) t +
    msum (λ k _, match m !! k with Some e => count e - c | None => 0 end) t).
  { rewrite <- msum_add. apply msum_le. intros k x _. destruct (m !! k); lia. }
  rewrite (msum_sub (λ _ e, count e) (λ _ _, c) m) in Hle.
  rewrite !msum_const in *. pose proof (so_sum _ _ _ Hs). pose proof (so_size _ _ _ Hs).
  destruct Hc as [(Hsz & _)|[_ ->]]; nia.
Qed.

Lemma merge_map_sound (cap : Z) (a b : gmap bytes Entry) (l m : list (bytes * Z)) (ma mb : Z) u :
  0 < cap → sound cap a l → sound cap b m → weights_ok l → weights_ok m →
  total_of (l ++ m) < u64_mod → least_count cap a ma → least_count cap b mb →
  trimmed cap (merge_map ma mb a b) u → sound cap u (l ++ m).
Proof.
  intros Hcap Ha Hb Hl Hm Htot Hma Hmb Htr. rewrite total_of_app in Htot.
  pose proof (total_of_nonneg l Hl) as Hl0. pose proof (total_of_nonneg m Hm) as Hm0.
  destruct (least_count_le cap a l ma Hcap Ha Hma) as (Hma0 & Hlowa & Hmax).
  destruct (least_count_le cap b m mb Hcap Hb Hmb) as (Hmb0 & Hlowb & Hmbx).
  (* every entry of the union, without the wrap-around *)
  assert (∀ k e, merge_map ma mb a b !! k = Some e →
    count e = match a !! k with Some x => count x | None => ma end +
              match b !! k with Some y => count y | None => mb end ∧
    0 <= error e <= count e ∧ ma + mb <= count e ∧
    count e - error e <= weight_of k (l ++ m) <= count e) as Hu.
  { intros k e. rewrite lookup_merge_map, weight_of_app. unfold merge_entry.
    pose proof (so_absent _ _ _ Ha k ma) as Hna. pose proof (so_absent _ _ _ Hb k mb) as Hnb.
    pose proof (weight_of_nonneg k l Hl). pose proof (weight_of_nonneg k m Hm).
    destruct (a !! k) as [x|] eqn:Ex, (b !! k) as [y|] eqn:Ey; intros [= <-]; cbn.
    - pose proof (so_range _ _ _ Ha k x Ex). pose proof (so_tracked _ _ _ Ha k x Ex).
      pose proof (so_range _ _ _ Hb k y Ey). pose proof (so_tracked _ _ _ Hb k y Ey).
      pose proof (sound_count _ _ _ _ _ Ha Ex). pose proof (sound_count _ _ _ _ _ Hb Ey).
      pose proof (Hlowa k x Ex). pose proof (Hlowb k y Ey).
      rewrite !wadd64_small by word_lia. lia.
    - pose proof (so_range _ _ _ Ha k x Ex). pose proof (so_tracked _ _ _ Ha k x Ex).
      pose proof (sound_count _ _ _ _ _ Ha Ex). pose proof (Hlowa k x Ex).
      specialize (Hnb eq_refl Hmb). rewrite !wadd64_small by word_lia. lia.
    - pose proof (so_range _ _ _ Hb k y Ey). pose proof (so_tracked _ _ _ Hb k y Ey).
      pose proof (sound_count _ _ _ _ _ Hb Ey). pose proof (Hlowb k y Ey).
      specialize (Hna eq_refl Hma). rewrite !wadd64_small by word_lia. lia. }
  split.
  - apply Htr.
  - intros k e Hk. by apply (Hu k), Htr.
  - intros k e Hk. by apply (Hu k), Htr.
  - intros k c Hk Hc. destruct (merge_map ma mb a b !! k) as [e|] eqn:Eu.
    + destruct Hc as [(_ & (k1 & e1 & Hk1 & <-) & _)|[Hsz ->]].
      * pose proof (tr_large _ _ _ Htr k e k1 e1 Eu Hk Hk1). destruct (Hu k e Eu). lia.
      * destruct (tr_full _ _ _ Htr) as [?|E]; [lia|]. congruence.
    + rewrite lookup_merge_map in Eu. rewrite weight_of_app.
      destruct (a !! k) eqn:Ea, (b !! k) eqn:Eb; cbn in Eu; try done.
      pose proof (so_absent _ _ _ Ha k ma Ea Hma). pose proof (so_absent _ _ _ Hb k mb Eb Hmb).
      destruct Hc as [(_ & (k1 & e1 & Hk1 & <-) & _)|[Hsz ->]].
      * apply (tr_sub _ _ _ Htr) in Hk1. destruct (Hu k1 e1 Hk1) as (_ & _ & ? & _). lia.
      * destruct (tr_full _ _ _ Htr) as [?|E]; [lia|]. rewrite E in Hsz.
        assert (∀ c : gmap bytes Entry,
          (∀ k, is_Some (c !! k) → is_Some (merge_map ma mb a b !! k)) →
          Z.of_nat (size c) < cap) as Hsize.
        { intros x Hx. assert (size x <= size (merge_map ma mb a b))%nat; [|lia].
          rewrite <- !size_dom. apply subseteq_size. intros k' Hk'.
          apply elem_of_dom. apply Hx. by apply elem_of_dom. }
        assert (ma = 0) as ->.
        { destruct Hma as [(? & _)|[_ ?]]; [|done]. enough (Z.of_nat (size a) < cap) by lia.
          apply Hsize. intros k' [x Hx]. rewrite lookup_merge_map, Hx. by destruct (b !! k'). }
        assert (mb = 0) as ->.
        { destruct Hmb as [(? & _)|[_ ?]]; [|done]. enough (Z.of_nat (size b) < cap) by lia.
          apply Hsize. intros k' [x Hx]. rewrite lookup_merge_map, Hx. by destruct (a !! k'). }
        lia.
  - rewrite total_of_app.
    rewrite (msum_ext _ (λ k _, match a !! k with Some x => count x | None => ma end +
      match b !! k with Some y => count y | None => mb end)).
    + rewrite msum_add.
      pose proof (charged_sum cap a l ma u Hcap Ha Hma (tr_size _ _ _ Htr)).
      pose proof (charged_sum cap b m mb u Hcap Hb Hmb (tr_size _ _ _ Htr)). lia.
    + intros k e Hk. by apply (Hu k), Htr.
Qed.

(** ** [merge_from] refines the union-and-trim *)

(** The entries of the union as the two loops push them. *)
Definition left_entry (b : gmap bytes Entry) (mb : Z) (sl : Slot) : bytes * Entry :=
  (sl_key sl, match b !! sl_key sl with
              | Some e => {| count := count (sl_entry sl) +ʷ count e;
                             error := error (sl_entry sl) +ʷ error e |}
              | None => {| count := count (sl_entry sl) +ʷ mb;
                           error := error (sl_entry sl) +ʷ mb |}
              end).
Definition right_entry (ma : Z) (sl : Slot) : bytes * Entry :=
  (sl_key sl, {| count := count (sl_entry sl) +ʷ ma; error := error (sl_entry sl) +ʷ ma |}).
Definition union_list (ma mb : Z) (s t : SpaceSaving) : list (bytes * Entry) :=
  (left_entry (map_of t) mb <$> ss_slots s) ++
  (right_entry ma <$> filter (λ sl, map_of s !! sl_key sl = None) (ss_slots t)).

Lemma absent_count_spec s :
  wf s → ∃ c, absent_count s = Ok c ∧ (ordered s → least_count (ss_capacity s) (map_of s) c).
Proof.
  intros Hs. unfold absent_count. pose proof (len_size s Hs) as Hl.
  destruct (Z.leb_spec (ss_capacity s) (len s)) as [Hfull|].
  - assert (ss_slots s ≠ []) as Hne.
    { pose proof (wf_capacity s Hs). intros E. unfold len in Hfull. rewrite E in Hfull.
      cbn [length] in Hfull. lia. }
    destruct (root_spec s Hs Hne) as (i & sl & _ & _ & -> & Hm & Hmin).
    eexists. split; [done|]. intros Ho. left. pose proof (wf_len s Hs).
    split_and!; [lia|eauto|by apply Hmin].
  - exists 0. split; [done|]. intros _. right. split; [lia|done].
Qed.

Lemma merged_entries_spec s t ma mb :
  wf s → wf t → absent_count s = Ok ma → absent_count t = Ok mb →
  merged_entries s t = Ok (union_list ma mb s t).
Proof.
  intros Hs Ht Ha Hb. unfold merged_entries. rewrite Ha, Hb. ostep.
  rewrite (foldM_Ok _ (λ acc sl, acc ++ [left_entry (map_of t) mb sl])).
  - ostep. rewrite foldl_snoc. cbn [app]. unfold union_list.
    generalize (left_entry (map_of t) mb <$> ss_slots s). induction (ss_slots t) as [|sl l IH];
      intros acc; cbn [foldM]; [by rewrite app_nil_r|].
    rewrite get_spec by done. ostep. rewrite IH, filter_cons.
    fold (map_of s). destruct (map_of s !! sl_key sl) eqn:E.
    + by rewrite decide_False.
    + rewrite decide_True by done. cbn [fmap list_fmap]. by rewrite <- app_assoc.
  - intros acc sl _. rewrite get_spec by done. ostep. unfold left_entry.
    fold (map_of t). by destruct (map_of t !! sl_key sl).
Qed.

Lemma union_list_spec s t ma mb :
  wf s → wf t →
  NoDup (union_list ma mb s t).*1 ∧
  ∀ k e, (k, e) ∈ union_list ma mb s t ↔ merge_map ma mb (map_of s) (map_of t) !! k = Some e.
Proof.
  intros Hs Ht.
  assert (∀ k e, map_of s !! k = Some e ↔
    ∃ sl, sl ∈ ss_slots s ∧ sl_key sl = k ∧ sl_entry sl = e) as Hms.
  { intros k e. unfold map_of. rewrite absmap_lookup by apply Hs. split.
    - intros (i & sl & Hi & ?). exists sl. split; [apply list_elem_of_lookup|]; eauto.
    - intros (sl & [i Hi]%list_elem_of_lookup & ?). eauto. }
  assert (∀ k e, map_of t !! k = Some e ↔
    ∃ sl, sl ∈ ss_slots t ∧ sl_key sl = k ∧ sl_entry sl = e) as Hmt.
  { intros k e. unfold map_of. rewrite absmap_lookup by apply Ht. split.
    - intros (i & sl & Hi & ?). exists sl. split; [apply list_elem_of_lookup|]; eauto.
    - intros (sl & [i Hi]%list_elem_of_lookup & ?). eauto. }
  split.
  - unfold union_list. rewrite fmap_app, <- !list_fmap_compose.
    change (fst ∘ left_entry (map_of t) mb) with sl_key.
    change (fst ∘ right_entry ma) with sl_key.
    apply NoDup_app. split_and!.
    + apply Hs.
    + intros k (sl & -> & Hsl)%list_elem_of_fmap (sl' & E & Hsl')%list_elem_of_fmap.
      apply list_elem_of_filter in Hsl' as [Hnone _]. rewrite <- E in Hnone.
      assert (map_of s !! sl_key sl = Some (sl_entry sl)) by (apply Hms; eauto). congruence.
    + eapply sublist_NoDup; [apply (wf_keys t Ht)|].
      apply fmap_sublist, sublist_filter.
  - intros k e. rewrite lookup_merge_map. unfold union_list, merge_entry.
    rewrite elem_of_app, !list_elem_of_fmap. split.
    + intros [(sl & E & Hsl)|(sl & E & [Hnone Hsl]%list_elem_of_filter)].
      * injection E as -> ->.
        assert (map_of s !! sl_key sl = Some (sl_entry sl)) as -> by (apply Hms; eauto).
        by destruct (map_of t !! sl_key sl).
      * injection E as -> ->. rewrite Hnone.
        assert (map_of t !! sl_key sl = Some (sl_entry sl)) as -> by (apply Hmt; eauto). done.
    + destruct (map_of s !! k) as [x|] eqn:Ex.
      * intros He. left. apply Hms in Ex as (sl & Hsl & <- & <-). exists sl. split; [|done].
        unfold left_entry. destruct (map_of t !! sl_key sl); by injection He as <-.
      * destruct (map_of t !! k) as [y|] eqn:Ey; [|done]. intros [= <-]. right.
        apply Hmt in Ey as (sl & Hsl & <- & <-). exists sl. split; [done|].
        by apply list_elem_of_filter.
Qed.

#[export] Instance top_cmp_ord : CmpOrd top_cmp.
Proof.
  unfold top_cmp. apply (cmp_then (λ a b : bytes * Entry, count b.2 ?= count a.2)
    (λ a b : bytes * Entry, bytes_cmp a.1 b.1)).
  - apply (cmp_flip (λ a b : bytes * Entry, count a.2 ?= count b.2)).
    apply (cmp_on (λ a : bytes * Entry, count a.2) Z.compare).
  - apply (cmp_on (λ a : bytes * Entry, a.1) bytes_cmp).
Qed.

(** Keeping the first [cap] of the sorted union trims it. *)
Lemma trim_spec (cap : Z) (l : list (bytes * Entry)) (u : gmap bytes Entry) :
  0 < cap → NoDup l.*1 → (∀ k e, (k, e) ∈ l ↔ u !! k = Some e) →
  NoDup (take (Z.to_nat cap) (sort_by top_cmp l)).*1 ∧
  trimmed cap u (insert_all (take (Z.to_nat cap) (sort_by top_cmp l))).
Proof.
  intros Hcap Hnd Hu. set (kept := take (Z.to_nat cap) (sort_by top_cmp l)).
  set (rest := drop (Z.to_nat cap) (sort_by top_cmp l)).
  assert (kept ++ rest ≡ₚ l) as Hperm.
  { unfold kept, rest. rewrite take_drop. apply sort_by_Permutation. }
  assert (NoDup (kept ++ rest).*1) as Hnd' by by rewrite Hperm.
  rewrite fmap_app in Hnd'. apply NoDup_app in Hnd' as (Hk & _ & _).
  assert (∀ k e, insert_all kept !! k = Some e ↔ (k, e) ∈ kept) as Hlook.
  { intros k e. rewrite insert_all_list_to_map.
    rewrite <- elem_of_list_to_map; [by rewrite elem_of_reverse|].
    by rewrite reverse_Permutation. }
  assert (size (insert_all kept) = length kept) as Hsize.
  { rewrite insert_all_list_to_map, map_size_list_to_map;
      [by rewrite length_reverse|by rewrite reverse_Permutation]. }
  assert (length kept = Z.to_nat cap `min` length l)%nat as Hlen.
  { unfold kept. by rewrite length_take, length_sort_by. }
  split; [done|]. split.
  - intros k e He%Hlook. apply Hu. rewrite <- Hperm. set_solver.
  - lia.
  - destruct (decide (Z.to_nat cap <= length l)%nat); [left; lia|right].
    apply map_eq. intros k. apply option_eq. intros e. rewrite Hlook, <- Hu, <- Hperm.
    assert (rest = []) as ->.
    { apply nil_length_inv. unfold rest. rewrite length_drop, length_sort_by. lia. }
    by rewrite app_nil_r.
  - intros k e k' e' He Hn He'%Hlook.
    assert ((k, e) ∈ rest) as Hr.
    { apply Hu in He. rewrite <- Hperm, elem_of_app in He. destruct He as [He|]; [|done].
      apply Hlook in He. congruence. }
    pose proof (sort_by_sorted top_cmp l) as Hs.
    rewrite <- (take_drop (Z.to_nat cap) (sort_by top_cmp l)) in Hs.
    apply (StronglySorted_app_1_elem_of _ _ _ (k', e') (k, e)) in Hs; [|done|done].
    unfold cmp_le, top_cmp in Hs. cbn in Hs.
    destruct (Z.compare_spec (count e) (count e')); [lia|lia|]. by cbn in Hs.
Qed.

(** Rebuilding the arena from a list of distinct keys. *)
Lemma ss_rebuild_spec s (l : list (bytes * Entry)) :
  0 < ss_capacity s → NoDup l.*1 → Z.of_nat (length l) <= ss_capacity s →
  ∃ s', foldM (λ s p, insert_entry s p.1 p.2) (with_state s [] ∅ []) l = Ok s' ∧
    wf s' ∧ ordered s' ∧ same_meta s s' ∧ map_of s' = insert_all l.
Proof.
  intros Hcap Hnd Hlen.
  destruct (foldM_inv (λ ds s', wf s' ∧ ordered s' ∧ same_meta s s' ∧
    map_of s' = insert_all ds) (λ s p, insert_entry s p.1 p.2) (with_state s [] ∅ []) l)
    as (s' & Hf & Hi).
  - split; [|split; [|done]].
    + split; cbn; try done; [unfold len; cbn; lia| |].
      * apply NoDup_nil_2.
      * intros d. unfold indices. rewrite lookup_empty. split; [apply NoDup_nil_2|].
        intros i. cbn. split; [by intros ?%elem_of_nil|by intros (? & ? & _)].
    + unfold ordered. cbn. intros i Hi. cbn in Hi. lia.
  - intros ds [k e] rest a Hsplit (Hwf & Ho & Hm & Hmap). cbn [fst snd].
    rewrite Hsplit in Hnd. rewrite fmap_app, NoDup_app in Hnd.
    destruct Hnd as (Hnd1 & Hdis & _).
    assert (insert_all ds !! k = None) as Hfresh.
    { destruct (lookup_insert_all ds k) as [|(x & _ & Hin)]; [done|exfalso].
      apply (Hdis k); [|set_solver]. apply list_elem_of_fmap. by exists (k, x). }
    destruct (insert_spec a k e Hwf) as (a' & Ha' & Hwf' & Hm' & Habs & Hord).
    + fold (map_of a). by rewrite Hmap.
    + rewrite len_size by done. rewrite Hmap. destruct Hm as (-> & _).
      pose proof (size_insert_all ds). rewrite Hsplit, length_app in Hlen. cbn in Hlen. lia.
    + exists a'. split; [done|]. split; [done|]. split; [auto|]. split.
      * unfold same_meta in *. naive_solver congruence.
      * rewrite insert_all_snoc, <- Hmap. cbn. by unfold map_of.
  - exists s'. naive_solver.
Qed.

Lemma ss_compatibility_same s t :
  ss_capacity s = ss_capacity t → ss_hash s = ss_hash t → compatibility s = compatibility t.
Proof. intros Hc Hh. unfold compatibility, params_hash. congruence. Qed.

(** A merge of compatible summaries returns a consistent summary in heap order, and
    on the maps it is the trimmed union. *)
Lemma ss_merge_spec s t :
  wf s → wf t → compatibility s = compatibility t →
  ∃ s' ma mb, merge_from s t = Ok s' ∧ wf s' ∧ ordered s' ∧
    ss_capacity s' = ss_capacity s ∧ ss_hash s' = ss_hash s ∧
    ss_total_weight s' = ss_total_weight s +ʷ ss_total_weight t ∧
    ss_updates s' = ss_updates s +ʷ ss_updates t ∧
    (ordered s → least_count (ss_capacity s) (map_of s) ma) ∧
    (ordered t → least_count (ss_capacity t) (map_of t) mb) ∧
    trimmed (ss_capacity s) (merge_map ma mb (map_of s) (map_of t)) (map_of s').
Proof.
  intros Hs Ht Hcompat. destruct (absent_count_spec s Hs) as (ma & Hma & Hla).
  destruct (absent_count_spec t Ht) as (mb & Hmb & Hlb).
  destruct (union_list_spec s t ma mb Hs Ht) as [Hnd Hu].
  destruct (trim_spec (ss_capacity s) _ _ (wf_capacity s Hs) Hnd Hu) as [Hnd' Htr].
  unfold merge_from. rewrite Hcompat, ensure_matches_refl. ostep.
  rewrite (merged_entries_spec s t ma mb) by done. ostep. cbv zeta.
  destruct (ss_rebuild_spec s _ (wf_capacity s Hs) Hnd') as (s' & -> & Hwf & Ho & Hm & Hmap).
  { rewrite length_take. pose proof (wf_capacity s Hs). lia. }
  ostep. eexists _, ma, mb. split; [done|]. destruct Hm as (Hc & Hh & _).
  split_and!; [by apply wf_totals|exact Ho|exact Hc|exact Hh|reflexivity|reflexivity|exact Hla|exact Hlb|].
  change (map_of (with_totals s' _ _)) with (map_of s'). by rewrite Hmap.
Qed.

(** ** Histories *)

Definition ss_init (capacity : Z) (h : HashSpec) (s : SpaceSaving) : Prop :=
  new capacity h = Ok s.
Definition ss_upd (s : SpaceSaving) (p : bytes * Z) (s' : SpaceSaving) : Prop :=
  u64_ok p.2 ∧ add s p.1 p.2 = Ok s'.
Definition ss_mrg (s t s' : SpaceSaving) : Prop := merge_from s t = Ok s'.
Abbreviation hist capacity h := (built (ss_init capacity h) ss_upd ss_mrg).

Lemma empty_sound (cap : Z) : 0 < cap → sound cap ∅ [].
Proof.
  intros Hcap. split.
  - rewrite map_size_empty. lia.
  - intros k e. by rewrite lookup_empty.
  - intros k e. by rewrite lookup_empty.
  - intros k c _ [(Hsz & _)|[_ ->]]; [rewrite map_size_empty in Hsz; lia|done].
  - by rewrite msum_empty.
Qed.

Lemma ss_new_wf capacity h s :
  0 <= capacity → new capacity h = Ok s →
  wf s ∧ ordered s ∧ ss_capacity s = capacity ∧ ss_hash s = h ∧ map_of s = ∅.
Proof.
  intros Hc H. unfold new in H. destruct (Z.eqb_spec capacity 0); [done|]. injection H as <-.
  split; [|split; [|done]].
  - split; cbn; try done; [lia|apply NoDup_nil_2|].
    intros d. unfold indices. rewrite lookup_empty. split; [apply NoDup_nil_2|].
    intros i. cbn. split; [by intros ?%elem_of_nil|by intros (? & ? & _)].
  - unfold ordered. cbn. intros i Hi. cbn in Hi. lia.
Qed.

(** [s] has the parameters given and its map is a sound summary of the stream
    [l], whatever operations produced it. *)
Record sums (capacity : Z) (h : HashSpec) (s : SpaceSaving) (l : list (bytes * Z)) : Prop := {
  su_wf : wf s;
  su_capacity : ss_capacity s = capacity;
  su_hash : ss_hash s = h;
  su_weights : weights_ok l;
  su_sound : total_of l < u64_mod → ordered s ∧ sound capacity (map_of s) l;
}.

Lemma sums_new capacity h s : 0 <= capacity → new capacity h = Ok s → sums capacity h s [].
Proof.
  intros Hc Hi. destruct (ss_new_wf _ _ _ Hc Hi) as (Hwf & Ho & Ec & Eh & Hmap).
  split; [done..|constructor|]. intros _. rewrite Hmap. split; [done|].
  apply empty_sound. rewrite <- Ec. apply Hwf.
Qed.

Lemma sums_merge capacity h s t l m :
  sums capacity h s l → sums capacity h t m →
  ∃ s', merge_from s t = Ok s' ∧ sums capacity h s' (l ++ m).
Proof.
  intros [Hwfs Ec Eh Hl IHs] [Hwft Fc Fh Hm IHt].
  destruct (ss_merge_spec s t Hwfs Hwft) as (s' & ma & mb & Hg & Hwf & Ho & Hc & Hh & _ & _ &
    Hma & Hmb & Htr); [apply ss_compatibility_same; congruence|].
  exists s'. split; [done|].
  split; [done|congruence|congruence|by apply weights_ok_app|].
  intros Htot. split; [done|]. pose proof Htot as Htot'. rewrite total_of_app in Htot'.
  pose proof (total_of_nonneg l Hl). pose proof (total_of_nonneg m Hm).
  destruct IHs as [Hos Hss]; [lia|]. destruct IHt as [Hot Hst]; [lia|].
  specialize (Hma Hos). specialize (Hmb Hot). rewrite Ec in *. rewrite Fc in *.
  apply (merge_map_sound capacity (map_of s) (map_of t) l m ma mb); try done.
  rewrite <- Ec. apply Hwfs.
Qed.

Lemma ss_hist_sound capacity h s l : 0 <= capacity → hist capacity h s l → sums capacity h s l.
Proof.
  intros Hc0.
  induction 1 as [s Hi|s l [k v] s' _ [Hwf Ec Eh Hl IH] [Hp Hu]|s l t m s' _ Hs _ Ht Hg].
  - by apply sums_new.
  - cbn in Hu, Hp. destruct (add_spec s k v Hwf)
      as (s2 & Hu2 & Hwf2 & Hc & Hh & _ & _ & Hadd).
    rewrite Hu in Hu2. injection Hu2 as <-.
    split; [done|congruence|congruence|by apply weights_ok_app; split; [|constructor]|].
    rewrite total_of_app. cbn. intros Htot. destruct IH as [Ho Hs]; [word_lia|].
    destruct Hadd as [Ho' Hmap]; [done| |].
    + intros k' e' Hk'. pose proof (sound_count _ _ _ _ _ Hs Hk').
      apply (so_range _ _ _ Hs) in Hk'. rewrite wadd64_small; word_lia.
    + split; [done|]. rewrite Ec in Hmap.
      apply (map_add_sound capacity (map_of s) l k v); try done; try word_lia.
      rewrite <- Ec. apply Hwf.
  - destruct (sums_merge _ _ _ _ _ _ Hs Ht) as (s2 & Hm & Hs2). unfold ss_mrg in Hg.
    rewrite Hg in Hm. by apply ok_inj in Hm as ->.
Qed.

Lemma sums_Permutation capacity h s l l' : l ≡ₚ l' → sums capacity h s l → sums capacity h s l'.
Proof.
  intros Hp [Hwf Ec Eh Hl HS]. pose proof (total_of_Permutation _ _ Hp) as Et.
  split; [done..|unfold weights_ok in *; by rewrite <- Hp|]. rewrite <- Et. intros Htot.
  destruct (HS Htot) as [Ho [H1 H2 H3 H4 H5]]. split; [done|]. split; try done.
  - intros k e He. rewrite <- (weight_of_Permutation k _ _ Hp). by apply H3.
  - intros k c He Hc. rewrite <- (weight_of_Permutation k _ _ Hp). by apply H4.
  - by rewrite <- Et.
Qed.

Lemma sums_bounds capacity h s l :
  sums capacity h s l → total_of l < u64_mod →
  len s <= capacity ∧
  ∀ key, ∃ o, get s key = Ok o ∧
    match o with
    | Some e => guaranteed e <= weight_of key l <= count e ∧ count e <= total_of l
    | None => weight_of key l * capacity <= total_of l
    end.
Proof.
  intros [Hwf Ec Eh Hl HS] Htot.
  destruct (HS Htot) as [Ho Hsd]. split; [rewrite <- Ec; apply Hwf|].
  intros key. rewrite (get_spec s key Hwf). fold (map_of s). eexists. split; [done|].
  destruct (map_of s !! key) as [e|] eqn:E.
  - pose proof (so_range _ _ _ Hsd key e E). pose proof (sound_count _ _ _ _ _ Hsd E).
    unfold guaranteed. rewrite wsub64_small by word_lia. split; [|done].
    by apply (so_tracked _ _ _ Hsd key e).
  - assert (0 < capacity) as Hcap by (rewrite <- Ec; apply Hwf).
    destruct (least_count_exists capacity (map_of s) Hcap (so_size _ _ _ Hsd)) as [c Hc].
    pose proof (so_absent _ _ _ Hsd key c E Hc) as Hwk.
    destruct (least_count_le capacity (map_of s) l c Hcap Hsd Hc) as (Hc' & Hlow & _).
    pose proof (so_sum _ _ _ Hsd).
    enough (c * capacity <= msum (λ _ e, count e) (map_of s)) by nia.
    destruct Hc as [(Hsz & _)|[Hsz ->]].
    + rewrite <- Hsz, <- msum_const. by apply msum_le.
    + apply msum_nonneg. intros k e He. pose proof (so_range _ _ _ Hsd k e He). lia.
Qed.

(** [C1] The SpaceSaving guarantee, over any history of updates on any number of nodes
    and merges whose total weight fits a [u64]: lookups never fail; a tracked key's
    true weight lies between its guaranteed count and its count; an untracked
    key weighs at most [total / capacity], so every key heavier than that is
    tracked; and at most [capacity] keys are tracked. *)
Theorem space_saving_bounds capacity h s l :
  0 <= capacity → hist capacity h s l → total_of l < u64_mod →
  len s <= capacity ∧
  ∀ key, ∃ o, get s key = Ok o ∧
    match o with
    | Some e => guaranteed e <= weight_of key l <= count e ∧ count e <= total_of l
    | None => weight_of key l * capacity <= total_of l
    end.
Proof. intros Hc Hs. by apply (sums_bounds capacity h), ss_hist_sound. Qed.

Definition blank : SpaceSaving :=
  {| ss_capacity := 2; ss_hash := HashSpec_default; ss_slots := [];
     ss_key_index := ∅; ss_min_heap := []; ss_total_weight := 0; ss_updates := 0 |}.
Definition sample : SpaceSaving :=
  run_or blank (s ← add blank [1] 5; s ← add s [2] 3; add s [3] 4).
Definition sample_stream : list (bytes * Z) := [([1], 5); ([2], 3); ([3], 4)].

Lemma sample_hist : hist 2 HashSpec_default sample sample_stream.
Proof.
  apply (built_upd _ _ _ (run_or blank (s ← add blank [1] 5; add s [2] 3))
    [([1], 5); ([2], 3)] ([3], 4)); [|split; [by range_tac|by vm_compute]].
  apply (built_upd _ _ _ (run_or blank (add blank [1] 5)) [([1], 5)] ([2], 3));
    [|split; [by range_tac|by vm_compute]].
  apply (built_upd _ _ _ blank [] ([1], 5)); [by apply built_init|].
  split; [by range_tac|by vm_compute].
Qed.

Lemma space_saving_bounds_witness :
  len sample <= 2 ∧
  ∀ key, ∃ o, get sample key = Ok o ∧
    match o with
    | Some e => guaranteed e <= weight_of key sample_stream <= count e ∧
                count e <= total_of sample_stream
    | None => weight_of key sample_stream * 2 <= total_of sample_stream
    end.
Proof.
  apply (space_saving_bounds 2 HashSpec_default sample sample_stream);
    [done|apply sample_hist|done].
Defined.

(** [C2] The arena refines the textbook algorithm.  In every state a history reaches
    (total weight within [u64]), an update, by either entry point, returns
    without panicking and acts on the represented map as one [map_add]: bump a
    tracked key, fill free room, or replace a key of least count; a merge of two
    such states acts as the union in which absent keys are charged the other
    side's least count, cut down to the [capacity] largest; and lookups read
    the map. *)
Theorem arena_refines_map capacity h s l :
  0 <= capacity → hist capacity h s l → total_of l < u64_mod →
  (∀ key, get s key = Ok (map_of s !! key)) ∧
  (∀ key w, 0 <= w < u64_mod - total_of l → ∃ s', add s key w = Ok s' ∧ add_key_buf s key w = Ok (s', []) ∧
    map_add capacity (map_of s) key w (map_of s')) ∧
  (∀ t m, hist capacity h t m → total_of m < u64_mod → ∃ s' ma mb,
    merge_from s t = Ok s' ∧ least_count capacity (map_of s) ma ∧
    least_count capacity (map_of t) mb ∧
    trimmed capacity (merge_map ma mb (map_of s) (map_of t)) (map_of s')).
Proof.
  intros Hc0 Hs Htot. destruct (ss_hist_sound capacity h s l Hc0 Hs) as [Hwf Ec Eh Hl HS].
  destruct (HS Htot) as [Ho Hsd]. split_and!.
  - intros key. by apply get_spec.
  - intros key w Hw. destruct (add_spec s key w Hwf) as (s' & Hadd & _ & _ & _ & _ & _ & Hmap).
    exists s'. rewrite add_key_buf_eq, Hadd. split; [done|]. split; [done|].
    rewrite <- Ec. apply Hmap; [done|]. intros k e Hk.
    pose proof (sound_count _ _ _ _ _ Hsd Hk). pose proof (so_range _ _ _ Hsd k e Hk).
    rewrite wadd64_small; word_lia.
  - intros t m Ht Htotm.
    destruct (ss_hist_sound capacity h t m Hc0 Ht) as [Hwft Fc Fh Hm HT].
    destruct (HT Htotm) as [Hot Hst].
    destruct (ss_merge_spec s t Hwf Hwft) as (s' & ma & mb & Hg & _ & _ & _ & _ & _ & _ &
      Hma & Hmb & Htr); [apply ss_compatibility_same; congruence|].
    exists s', ma, mb. rewrite Ec in *. rewrite Fc in *. split_and!; auto.
Qed.

Lemma arena_refines_map_witness :
  ∃ s', add sample [2] 1 = Ok s' ∧ map_add 2 (map_of sample) [2] 1 (map_of s').
Proof.
  destruct (arena_refines_map 2 HashSpec_default sample sample_stream) as (_ & H & _);
    [done|apply sample_hist|done|].
  destruct (H [2] 1) as (s' & H1 & _ & H2); [split; vm_compute; congruence|]. eauto.
Defined.

(** ** Snapshots *)

Definition sorted_slots (slots : list Slot) : list Slot :=
  sort_by (λ a b, bytes_cmp (sl_key a) (sl_key b)) slots.
Definition w_slot (w : Writer) (s : Slot) : Writer :=
  w_u64 (w_u64 (w_lp_bytes w (sl_key s)) (count (sl_entry s))) (error (sl_entry s)).

Definition to_snapshot (s : SpaceSaving) (window_start_nanos window_end_nanos : Z)
    : list Z :=
  let params := Writer_new in
  let params := w_u64 params (ss_capacity s) in
  let payload := Writer_new in
  let payload := w_u64 payload (ss_total_weight s) in
  let payload := w_u64 payload (ss_updates s) in
  let payload := w_u32 payload (as_u32 (len s)) in
  let payload := foldl w_slot payload (sorted_slots (ss_slots s)) in
  write_snapshot
    {| sh_version := SNAPSHOT_VERSION; sh_algorithm_id := SPACE_SAVING;
       sh_hash := ss_hash s; sh_window_start_nanos := window_start_nanos;
       sh_window_end_nanos := window_end_nanos |}
    params payload.

(** One entry of the payload: key, count and an error within the count. *)
Definition r_slot (r : Reader) : res ((bytes * Entry) * Reader) :=
  '(key, r) ← r_lp_bytes r;
  '(cnt, r) ← r_u64 r;
  '(err, r) ← r_u64 r;
  _ ← fail_if (cnt <? err)
        (SnapshotError "spacesaving snapshot entry error exceeds count");
  Ok ((key, {| count := cnt; error := err |}), r).

(** The loop that reads and inserts [n] entries. *)
Fixpoint read_slots (n : nat) (summary : SpaceSaving) (r : Reader) : res SpaceSaving :=
  match n with
  | O => Ok summary
  | S n =>
      '((key, e), r) ← r_slot r;
      let digest := key_digest (ss_hash summary) key in
      found ← find_slot_with_digest (ss_slots summary) (ss_key_index summary) key digest;
      _ ← fail_if (bool_decide (is_Some found))
            (SnapshotError "spacesaving snapshot contains a duplicate key");
      summary ← insert_entry_with_digest summary key digest e;
      read_slots n summary r
  end.

Definition from_snapshot (b : bytes) : res SpaceSaving :=
  '(header, params, payload) ← read_snapshot b;
  _ ← fail_if (negb (sh_algorithm_id header =? SPACE_SAVING))
        (SnapshotError "not a spacesaving snapshot");
  let p := Reader_new params in
  '(capacity, p) ← r_u64 p;
  _ ← fail_if (capacity =? 0)
        (SnapshotError "spacesaving snapshot capacity must be positive");
  let r := Reader_new payload in
  '(total_weight, r) ← r_u64 r;
  '(updates, r) ← r_u64 r;
  '(n, r) ← r_u32 r;
  _ ← fail_if (capacity <? n)
        (SnapshotError "spacesaving snapshot entry count exceeds capacity");
  _ ← check_count r n (4 + 8 + 8);
  summary ← new capacity (sh_hash header);
  read_slots (Z.to_nat n) (with_totals summary total_weight updates) r.

Definition entry_ok (e : Entry) : Prop := 0 <= error e <= count e ∧ u64_ok (count e).
Definition enc_entry (p : bytes * Entry) : list Z :=
  le_bytes 4 (zlen p.1) ++ p.1 ++ le_bytes 8 (count p.2) ++ le_bytes 8 (error p.2).

Lemma r_slot_rd p pre suf :
  u32_ok (zlen p.1) → entry_ok p.2 →
  r_slot (rd pre (enc_entry p ++ suf)) = Ok (p, rd (pre ++ enc_entry p) suf).
Proof.
  intros Hk [He Hc]. unfold r_slot, enc_entry. rewrite <- !app_assoc.
  rewrite r_lp_bytes_rd by done. ostep. rewrite r_u64_rd by done. ostep.
  rewrite r_u64_rd by word_lia. ostep. rewrite (proj2 (Z.ltb_ge _ _)) by lia. ostep.
  rewrite <- !app_assoc. by destruct p as [? []].
Qed.

Lemma r_slot_inv pre suf p r :
  bytes_ok suf → r_slot (rd pre suf) = Ok (p, r) →
  ∃ suf', suf = enc_entry p ++ suf' ∧ bytes_ok suf' ∧ r = rd (pre ++ enc_entry p) suf' ∧
    entry_ok p.2.
Proof.
  intros Hs H. unfold r_slot in H. read_inv. injection H as <- <-.
  match goal with H : (_ <? _) = false |- _ => apply Z.ltb_ge in H end.
  eexists. unfold enc_entry, entry_ok. cbn. rewrite <- !app_assoc.
  split_and!; try done; word_lia.
Qed.

Lemma r_slot_no_panic r : no_panic (r_slot r).
Proof. unfold r_slot. no_panic_tac. Qed.

Definition entries_ok (s : SpaceSaving) : Prop :=
  ∀ k e, map_of s !! k = Some e → entry_ok e.

(** The loop never panics; what it accepts is consistent and in heap order. *)
Lemma read_slots_safe n s pre suf :
  wf s → ordered s → entries_ok s → len s + Z.of_nat n <= ss_capacity s → bytes_ok suf →
  no_panic (read_slots n s (rd pre suf)) ∧
  ∀ s', read_slots n s (rd pre suf) = Ok s' →
    wf s' ∧ ordered s' ∧ same_meta s s' ∧ entries_ok s'.
Proof.
  revert s pre suf. induction n as [|n IH]; intros s pre suf Hs Ho He Hn Hb.
  - split; [done|]. by intros s' [= <-].
  - cbn [read_slots].
    destruct (r_slot (rd pre suf)) as [[[key e] r]| |] eqn:Hr; ostep;
      [|done|by destruct (r_slot_no_panic (rd pre suf))].
    apply r_slot_inv in Hr as (suf' & -> & Hb' & -> & Hok); [|done]. cbn in Hok.
    destruct (find_slot_spec s key Hs) as (o & -> & Ho'). ostep.
    destruct o as [i|]; [by split|]. rewrite bool_decide_false by (by intros []). ostep.
    destruct (insert_spec s key e Hs Ho')
      as (s1 & Hi & Hwf1 & Hm1 & Habs & Hord); [lia|].
    unfold insert_entry in Hi. rewrite Hi. ostep. pose proof Hm1 as (Hc1 & _).
    destruct (IH s1 (pre ++ enc_entry (key, e)) suf') as [Hp Hr]; [done|auto| | |done|].
    + intros k' e'. unfold map_of. rewrite Habs.
      intros [[<- <-]|[_ ?]]%lookup_insert_Some; [done|by eapply He].
    + rewrite Hc1, len_size in * by done. unfold map_of in *. rewrite Habs.
      rewrite map_size_insert_None by done. lia.
    + split; [done|]. intros s' H. destruct (Hr s' H) as (? & ? & Hm2 & ?).
      split_and!; try done. all: unfold same_meta in *; naive_solver congruence.
Qed.

(** Restoring an untrusted SpaceSaving snapshot is safe: [from_snapshot] never
    panics on any byte string, and what it accepts is a summary whose index,
    heap and links are consistent and whose entries have [error <= count], so that
    lookups and updates on it cannot panic either. *)
Lemma ss_from_snapshot_safe b :
  bytes_ok b →
  no_panic (from_snapshot b) ∧
  ∀ s, from_snapshot b = Ok s →
    wf s ∧ ordered s ∧ entries_ok s ∧
    ∀ key w, no_panic (get s key) ∧ no_panic (add s key w).
Proof.
  intros Hb. unfold from_snapshot.
  destruct (read_snapshot b) as [[[hd ps] pl]| |] eqn:Hr; ostep; [|done|].
  2:{ exfalso. by apply (parse_no_panic b Hb). }
  destruct (accepted_parts _ _ _ _ Hb Hr) as (_ & Hps & Hpl & _).
  change Reader_new with (rd []).
  match goal with |- no_panic ?m ∧ _ => assert (no_panic m ∧ ∀ s, m = Ok s →
    wf s ∧ ordered s ∧ entries_ok s) as [H1 H2] end.
  { destruct (negb _); ostep; [done|].
    destruct (r_u64 (rd [] ps)) as [[cap p]| |] eqn:Hcap; ostep;
      [|done|by destruct (r_u64_no_panic (rd [] ps))].
    apply r_u64_inv in Hcap as (? & _ & _ & _ & Hcap); [|done].
    destruct (Z.eqb_spec cap 0) as [|Hcap0]; ostep; [done|].
    destruct (r_u64 (rd [] pl)) as [[tw r1]| |] eqn:Htw; ostep;
      [|done|by destruct (r_u64_no_panic (rd [] pl))].
    apply r_u64_inv in Htw as (s1 & -> & Hs1 & -> & _); [|done].
    destruct (r_u64 (rd _ s1)) as [[up r1]| |] eqn:Hup; ostep;
      [|done|by destruct (r_u64_no_panic (rd ([] ++ le_bytes 8 tw) s1))].
    apply r_u64_inv in Hup as (s2 & -> & Hs2 & -> & _); [|done].
    destruct (r_u32 (rd _ s2)) as [[n r1]| |] eqn:Hn; ostep;
      [|done|by destruct (r_u32_no_panic (rd (([] ++ le_bytes 8 tw) ++ le_bytes 8 up) s2))].
    apply r_u32_inv in Hn as (s3 & -> & Hs3 & -> & Hn); [|done].
    destruct (Z.ltb_spec cap n) as [|Hle]; ostep; [done|].
    destruct (check_count _ n _) as [[]| |] eqn:Hck; ostep;
      [|done|by destruct (check_count_no_panic
        (rd ((([] ++ le_bytes 8 tw) ++ le_bytes 8 up) ++ le_bytes 4 n) s3) n (4 + 8 + 8))].
    destruct (new cap (sh_hash hd)) as [s| |] eqn:Hnew; ostep.
    - destruct (ss_new_wf cap (sh_hash hd) s) as (Hwf & Ho & Hc & Hh & Hm); [word_lia|done|].
      assert (len s = 0) as Hl0 by (rewrite len_size, Hm by done; by rewrite map_size_empty).
      destruct (read_slots_safe (Z.to_nat n) (with_totals s tw up)
        ((([] ++ le_bytes 8 tw) ++ le_bytes 8 up) ++ le_bytes 4 n) s3) as [Hp Hok].
      + by apply wf_totals.
      + exact Ho.
      + intros k e He. change (map_of (with_totals s tw up)) with (map_of s) in He.
        rewrite Hm in He. by rewrite lookup_empty in He.
      + change (len (with_totals s tw up)) with (len s). cbn. word_lia.
      + done.
      + split; [done|]. intros s' H. destruct (Hok s' H) as (? & ? & _ & ?). done.
    - done.
    - unfold new in Hnew. by destruct (cap =? 0). }
  split; [done|]. intros s Hs. destruct (H2 s Hs) as (Hwf & Ho & He).
  split_and!; [done..|]. intros key w. rewrite get_spec by done.
  destruct (add_spec s key w Hwf) as (s' & -> & _). done.
Qed.

Lemma ss_from_snapshot_safe_witness :
  no_panic (from_snapshot (to_snapshot sample 0 60)).
Proof.
  destruct (ss_from_snapshot_safe (to_snapshot sample 0 60)) as [H _]; [|exact H].
  apply (bool_decide_unpack _). vm_compute. exact I.
Defined.

(** ** Restoring what was written *)

(** The bytes of the payload block. *)
Definition payload_len (s : SpaceSaving) : Z :=
  20 + lsum ((λ sl, 20 + zlen (sl_key sl)) <$> ss_slots s).

Lemma read_slots_rd ps s pre suf :
  wf s → ordered s → NoDup ps.*1 → (∀ p, p ∈ ps → map_of s !! p.1 = None) →
  len s + zlen ps <= ss_capacity s →
  (∀ p, p ∈ ps → u32_ok (zlen p.1) ∧ entry_ok p.2) →
  ∃ s', read_slots (length ps) s (rd pre (encode_all enc_entry ps ++ suf)) = Ok s' ∧
    wf s' ∧ ordered s' ∧ same_meta s s' ∧ map_of s' = list_to_map ps ∪ map_of s.
Proof.
  revert s pre. induction ps as [|[k e] ps IH]; intros s pre Hs Ho Hnd Hfresh Hn Hok.
  - exists s. split_and!; try done. cbn. by rewrite (left_id_L ∅ _).
  - apply NoDup_cons in Hnd as [Hk Hnd]. cbn [fst] in Hk.
    destruct (Hok (k, e)) as [Hlen He]; [by left|]. cbn [length read_slots].
    rewrite encode_all_cons, <- app_assoc, r_slot_rd by done. ostep.
    assert (map_of s !! k = None) as Hkn by (apply (Hfresh (k, e)); by left).
    destruct (find_slot_spec s k Hs) as (o & -> & Ho'). ostep.
    unfold map_of in Hkn. destruct o as [i|]; [naive_solver congruence|].
    rewrite bool_decide_false by (by intros []). ostep.
    rewrite zlen_cons in Hn. pose proof (zlen_nonneg ps).
    destruct (insert_spec s k e Hs Hkn) as (s1 & Hi & Hwf1 & Hm1 & Habs & Hord); [lia|].
    unfold insert_entry in Hi. rewrite Hi. ostep. pose proof Hm1 as (Hc1 & _).
    destruct (IH s1 (pre ++ enc_entry (k, e))) as (s' & Hr & Hw & Hos & Hm2 & Hmap); [done|auto|done| | | |].
    + intros p Hp. unfold map_of. rewrite Habs, lookup_insert_ne; [apply Hfresh; by right|].
      intros ->. apply Hk. by apply list_elem_of_fmap_2.
    + rewrite Hc1, len_size in * by done. unfold map_of in *. rewrite Habs.
      rewrite map_size_insert_None by done. lia.
    + intros p Hp. apply Hok. by right.
    + exists s'. split_and!; try done; [unfold same_meta in *; naive_solver congruence|].
      rewrite Hmap. unfold map_of. rewrite Habs. rewrite list_to_map_cons.
      rewrite <- insert_union_r; [by rewrite insert_union_l|].
      apply not_elem_of_list_to_map_1. done.
Qed.

Lemma sorted_slots_Permutation slots : sorted_slots slots ≡ₚ slots.
Proof. apply sort_by_Permutation. Qed.

Lemma w_slots_eq slots w :
  (∀ sl, sl ∈ slots → u32_ok (zlen (sl_key sl))) →
  foldl w_slot w slots = w ++ encode_all enc_entry (slot_pair <$> slots).
Proof.
  revert w. induction slots as [|sl slots IH]; intros w H; [by rewrite app_nil_r|].
  cbn [foldl]. rewrite IH by set_solver.
  unfold w_slot, w_lp_bytes, w_u64, w_u32, w_bytes, as_u32.
  rewrite Z.mod_small by (apply (H sl); set_solver).
  rewrite fmap_cons, encode_all_cons. unfold enc_entry, slot_pair. by rewrite <- !app_assoc.
Qed.

Lemma zlen_enc_slots slots :
  zlen (encode_all enc_entry (slot_pair <$> slots)) = lsum ((λ sl, 20 + zlen (sl_key sl)) <$> slots).
Proof.
  induction slots as [|sl slots IH]; [done|].
  rewrite fmap_cons, encode_all_cons, zlen_app, IH, lsum_fmap_cons. unfold enc_entry, slot_pair.
  rewrite !zlen_app, !zlen_le_bytes. cbn [fst snd]. lia.
Qed.

Lemma payload_bounds s :
  20 * len s <= payload_len s - 20 ∧
  ∀ sl, sl ∈ ss_slots s → 20 + zlen (sl_key sl) <= payload_len s - 20.
Proof.
  unfold payload_len, len. induction (ss_slots s) as [|sl slots [IH1 IH2]]; [split; [done|set_solver]|].
  rewrite lsum_fmap_cons. cbn [length]. pose proof (zlen_nonneg (sl_key sl)). split; [lia|].
  assert (0 <= lsum ((λ sl, 20 + zlen (sl_key sl)) <$> slots)).
  { apply lsum_nonneg, Forall_fmap, Forall_true. intros x. cbn. pose proof (zlen_nonneg (sl_key x)). lia. }
  intros x [->|Hx]%elem_of_cons; [lia|]. specialize (IH2 x Hx). lia.
Qed.

Lemma ss_to_snapshot_eq s ws we :
  payload_len s < 4294967296 →
  to_snapshot s ws we =
    write_snapshot
      {| sh_version := SNAPSHOT_VERSION; sh_algorithm_id := SPACE_SAVING;
         sh_hash := ss_hash s; sh_window_start_nanos := ws; sh_window_end_nanos := we |}
      (le_bytes 8 (ss_capacity s))
      (le_bytes 8 (ss_total_weight s) ++ le_bytes 8 (ss_updates s) ++
       le_bytes 4 (len s) ++ encode_all enc_entry (slot_pair <$> sorted_slots (ss_slots s))).
Proof.
  intros Hp. destruct (payload_bounds s) as [Hn Hk].
  unfold to_snapshot. cbv zeta. rewrite w_slots_eq.
  - unfold w_u64, w_u32, Writer_new, as_u32. rewrite Z.mod_small by (unfold len in *; lia).
    cbn [app]. by rewrite <- !app_assoc.
  - intros sl. rewrite sorted_slots_Permutation. intros Hsl. specialize (Hk sl Hsl).
    pose proof (zlen_nonneg (sl_key sl)). word_lia.
Qed.

Lemma sorted_pairs_map slots :
  NoDup (sl_key <$> slots) →
  NoDup (slot_pair <$> sorted_slots slots).*1 ∧
  list_to_map (slot_pair <$> sorted_slots slots) = absmap slots.
Proof.
  intros Hnd. assert ((slot_pair <$> sorted_slots slots).*1 ≡ₚ sl_key <$> slots) as Hp
    by by rewrite absmap_keys, sorted_slots_Permutation.
  rewrite Hp. split; [done|]. unfold absmap. apply list_to_map_proper; [by rewrite Hp|].
  by rewrite sorted_slots_Permutation.
Qed.

(** What a snapshot must fit: the header's and the counters' widths and 4 GiB. *)
Record exportable (s : SpaceSaving) : Prop := {
  ex_hash : hash_spec_ok (ss_hash s);
  ex_capacity : u64_ok (ss_capacity s);
  ex_total : u64_ok (ss_total_weight s);
  ex_updates : u64_ok (ss_updates s);
  ex_entries : entries_ok s;
  ex_payload : payload_len s < 4294967296;
}.

Lemma ss_restore s ws we :
  wf s → exportable s → u64_ok ws → u64_ok we →
  ∃ s', from_snapshot (to_snapshot s ws we) = Ok s' ∧
    wf s' ∧ ordered s' ∧ same_meta s s' ∧ map_of s' = map_of s.
Proof.
  intros Hs [Hh Hcap Ht Hu He Hp] Hws Hwe. destruct (payload_bounds s) as [Hn Hk].
  destruct (sorted_pairs_map (ss_slots s) (wf_keys s Hs)) as [Hnd Hmap].
  assert (0 <= len s) by (unfold len; lia). pose proof (wf_len s Hs) as Hlen.
  pose proof (wf_capacity s Hs).
  assert (zlen (slot_pair <$> sorted_slots (ss_slots s)) = len s) as Hz.
  { unfold zlen, len. by rewrite length_fmap, (sorted_slots_Permutation (ss_slots s)). }
  assert (zlen (encode_all enc_entry (slot_pair <$> sorted_slots (ss_slots s))) = payload_len s - 20) as Hsize.
  { rewrite zlen_enc_slots. unfold payload_len.
    rewrite (lsum_Permutation _ ((λ sl, 20 + zlen (sl_key sl)) <$> ss_slots s)); [lia|].
    by rewrite sorted_slots_Permutation. }
  rewrite ss_to_snapshot_eq by done. unfold from_snapshot. rewrite read_write_snapshot.
  2:{ unfold header_ok. cbn. done. }
  2:{ rewrite !zlen_le_bytes. range_tac. }
  2:{ rewrite !zlen_app, !zlen_le_bytes, Hsize. word_lia. }
  ostep. cbv beta iota zeta. cbn [sh_algorithm_id sh_hash]. rewrite Z.eqb_refl. ostep.
  change Reader_new with (rd []).
  rewrite <- (app_nil_r (le_bytes 8 (ss_capacity s))), (r_u64_rd (ss_capacity s)) by done. ostep.
  rewrite (proj2 (Z.eqb_neq (ss_capacity s) 0)) by lia. ostep.
  rewrite r_u64_rd by done. ostep. rewrite r_u64_rd by done. ostep.
  rewrite r_u32_rd by word_lia. ostep. rewrite (proj2 (Z.ltb_ge _ _)) by lia. ostep.
  rewrite (proj2 (check_count_rd _ _ _ _)).
  2:{ rewrite Hsize. change (Z.max (4 + 8 + 8) 1) with 20. apply Z.div_le_lower_bound; lia. }
  ostep. destruct (new (ss_capacity s) (ss_hash s)) as [s0| |] eqn:Hnew.
  2,3: unfold new in Hnew; by rewrite (proj2 (Z.eqb_neq (ss_capacity s) 0)) in Hnew by lia.
  ostep. destruct (ss_new_wf (ss_capacity s) (ss_hash s) s0) as (Hwf & Ho & Hc & Hh0 & Hm0); [lia|done|].
  rewrite <- (app_nil_r (encode_all _ _)), <- Hz. unfold zlen. rewrite Nat2Z.id.
  destruct (read_slots_rd (slot_pair <$> sorted_slots (ss_slots s))
    (with_totals s0 (ss_total_weight s) (ss_updates s))
    ((([] ++ le_bytes 8 (ss_total_weight s)) ++ le_bytes 8 (ss_updates s)) ++ le_bytes 4 (len s)) [])
    as (s' & Hr & Hw & Hos & (M1 & M2 & M3 & M4) & Hmap'); try done.
  - by apply wf_totals.
  - intros p _. change (map_of (with_totals s0 _ _)) with (map_of s0). by rewrite Hm0.
  - rewrite Hz. change (len (with_totals s0 _ _)) with (len s0). cbn [with_totals ss_capacity].
    rewrite (len_size s0 Hwf), Hm0, map_size_empty, Hc. lia.
  - intros p (sl & -> & Hsl)%list_elem_of_fmap. rewrite sorted_slots_Permutation in Hsl.
    pose proof (Hk sl Hsl). pose proof (zlen_nonneg (sl_key sl)). cbn [slot_pair fst snd].
    split; [word_lia|]. apply (He (sl_key sl)). unfold map_of. apply absmap_lookup; [apply Hs|].
    apply list_elem_of_lookup in Hsl as [i Hi]. eauto.
  - exists s'. split; [|split; [done|]].
    + etrans; [|exact Hr]. unfold zlen in Hz. rewrite Hz. done.
    + split; [done|]. cbn [with_totals ss_capacity ss_hash ss_total_weight ss_updates] in *.
      split; [split_and!; congruence|]. rewrite Hmap', Hmap.
      change (map_of (with_totals s0 _ _)) with (map_of s0). rewrite Hm0.
      apply (right_id_L ∅ _).
Qed.

Lemma sums_restore capacity h s l ws we :
  sums capacity h s l → exportable s → u64_ok ws → u64_ok we →
  ∃ s', from_snapshot (to_snapshot s ws we) = Ok s' ∧ sums capacity h s' l.
Proof.
  intros [Hwf Ec Eh Hl HS] Hx Hws Hwe.
  destruct (ss_restore s ws we Hwf Hx Hws Hwe) as (s' & Hr & Hwf' & Ho' & (Hc & Hh & _) & Hmap).
  exists s'. split; [done|]. split; [done|congruence|congruence|done|].
  intros Htot. split; [done|]. rewrite Hmap. by apply HS.
Qed.

#[export] Instance SpaceSaving_Lawful : LawfulSketch SpaceSaving (λ s, wf s).
Proof.
  split; cbn [sk_update sk_merge_from sk_reset sk_update_count sk_compatibility
    SpaceSaving_Sketch].
  - intros s k v Hs _.
    destruct (add_spec s k v Hs) as (s' & Ha & Hwf & Hc & Hh & _ & Hu & _).
    exists s'. split; [done|]. split; [done|]. split; [by apply ss_compatibility_same|done].
  - intros s t Hs Ht Hcompat.
    destruct (ss_merge_spec s t Hs Ht Hcompat) as (s' & _ & _ & Hm & Hwf & _ & Hc & Hh & _ & Hu & _).
    exists s'. split; [done|]. split; [done|]. split; [by apply ss_compatibility_same|done].
  - intros s t Hne. unfold merge_from, ensure_matches. by rewrite decide_True.
  - intros s Hs. split; [|split; [done|by apply ss_compatibility_same]].
    pose proof (wf_capacity s Hs). split; cbn; try done; [unfold len; cbn; lia| |].
    + apply NoDup_nil_2.
    + intros d. unfold indices. rewrite lookup_empty. split; [apply NoDup_nil_2|].
      intros i. cbn. split; [by intros ?%elem_of_nil|by intros (? & ? & _)].
Qed.
