(* ===== verification/Hll.v ===== *)
(** * HyperLogLog  (crates/flowsketch-algos/src/hll.rs)

    The sketch keeps the set of 64-bit key hashes while it is small (empty,
    singleton, sorted vector) and switches to the dense register array when
    the set outgrows the sparse limit.

    Proved: whatever the order of insertions and merges, the storage is a
    function of the set of hashes alone, so merging is set union; small
    cardinalities are exact; snapshots round trip, and untrusted snapshots are
    rejected or restored within the register bounds the estimator indexes by. *)
From S2P Require Import Prelude Bytes Hash Sketch Snapshot F64.

Definition ALGORITHM : string := "hll".
Definition MIN_PRECISION : Z := 4.
Definition MAX_PRECISION : Z := 18.
Definition STORAGE_SPARSE : Z := 0.
Definition STORAGE_DENSE : Z := 1.
Definition SPARSE_MEMORY_FRACTION : Z := 4.

Inductive RegisterStorage :=
  | Empty
  | Singleton (hash : Z)
  | Sparse (hashes : list Z)
  | Dense (registers : list Z).
#[export] Instance RegisterStorage_eq_dec : EqDecision RegisterStorage.
Proof. solve_decision. Defined.

Record HyperLogLog := mkHll {
  hl_precision : Z;
  hl_hash : HashSpec;
  hl_storage : RegisterStorage;
  hl_updates : Z;
}.

Definition precision_ok (p : Z) : bool := (MIN_PRECISION <=? p) && (p <=? MAX_PRECISION).

Definition new (precision : Z) (hash : HashSpec) : res HyperLogLog :=
  if negb (precision_ok precision)
  then Err (InvalidParam "hll precision must be in [4, 18]")
  else Ok {| hl_precision := precision; hl_hash := hash; hl_storage := Empty;
             hl_updates := 0 |}.

(** [log2] is the platform's function. *)
Definition precision_for_error (log2 : f64 → f64) (epsilon : f64) : Z :=
  let m := f_sq (f_div (f_lit 104 100) epsilon) in
  let p := f_ceil_as_i64 (log2 m) in
  Z.max MIN_PRECISION (Z.min MAX_PRECISION p).

Definition relative_error (s : HyperLogLog) : f64 :=
  f_div (f_lit 104 100) (f_sqrt (f64_of_Z (Z.shiftl 1 (hl_precision s)))).

Definition sparse_limit (precision : Z) : Z :=
  Z.max (Z.shiftl 1 precision / (SPARSE_MEMORY_FRACTION * 8)) 1.

(** The register of a hash and the rank it is raised to. *)
Definition reg_index (precision hash : Z) : Z := Z.shiftr hash (64 - precision).
Definition rho (precision hash : Z) : Z :=
  Z.min (leading_zeros64 (shl64 hash precision) + 1) (64 - precision + 1).

Definition update_register (registers : list Z) (precision hash : Z) : res (list Z) :=
  let idx := reg_index precision hash in
  let rho := rho precision hash in
  r ← vec_get registers idx;
  if r <? rho then vec_set registers idx rho else Ok registers.

(** [hashes.binary_search(&hash)] on a sorted vector. *)
Definition binary_search (hashes : list Z) (hash : Z) : nat + nat :=
  if decide (hash ∈ hashes) then inl (length (filter (λ x, x < hash) hashes))
  else inr (length (filter (λ x, x < hash) hashes)).
(** [hashes.insert(position, hash)] *)
Definition insert_at (hashes : list Z) (position : nat) (hash : Z) : list Z :=
  take position hashes ++ hash :: drop position hashes.

Definition zero_registers (precision : Z) : list Z :=
  replicate (Z.to_nat (Z.shiftl 1 precision)) 0.

Definition update_all (precision : Z) (registers : list Z) (hashes : list Z)
    : res (list Z) :=
  foldM (λ r h, update_register r precision h) registers hashes.

Definition ensure_dense (precision : Z) (st : RegisterStorage) : res (list Z) :=
  match st with
  | Dense registers => Ok registers
  | Empty => update_all precision (zero_registers precision) []
  | Singleton hash => update_all precision (zero_registers precision) [hash]
  | Sparse hashes => update_all precision (zero_registers precision) hashes
  end.

Definition insert_hash (precision : Z) (st : RegisterStorage) (hash : Z)
    : res RegisterStorage :=
  let sparse_limit := sparse_limit precision in
  let dense :=
    registers ← ensure_dense precision st;
    registers ← update_register registers precision hash;
    Ok (Dense registers) in
  match st with
  | Empty => Ok (Singleton hash)
  | Singleton existing =>
      if existing =? hash then Ok st
      else if 1 <? sparse_limit then Ok (Sparse (sort_unstable [existing; hash]))
      else dense
  | Sparse hashes =>
      match binary_search hashes hash with
      | inl _ => Ok st
      | inr position =>
          if zlen hashes <? sparse_limit then Ok (Sparse (insert_at hashes position hash))
          else dense
      end
  | Dense registers =>
      registers ← update_register registers precision hash; Ok (Dense registers)
  end.

Definition insert (s : HyperLogLog) (key : bytes) : res HyperLogLog :=
  st ← insert_hash (hl_precision s) (hl_storage s) (hash64 key (seed (hl_hash s)));
  Ok {| hl_precision := hl_precision s; hl_hash := hl_hash s; hl_storage := st;
        hl_updates := hl_updates s +ʷ 1 |}.

Definition update (s : HyperLogLog) (key : bytes) (value : Z) : res HyperLogLog :=
  insert s key.

(** ** The estimator

    The correction loops stop when an addition no longer changes the sum;
    [None] means that the fuel ran out first. *)
Fixpoint sigma_loop (fuel : nat) (x z scale : f64) : option f64 :=
  match fuel with
  | O => None
  | S fuel =>
      let x := f_mul x x in
      let z' := f_add z (f_mul x scale) in
      let scale := f_add scale scale in
      if f_eqb z' z then Some z' else sigma_loop fuel x z' scale
  end.
Definition ertl_sigma (fuel : nat) (x : f64) : option f64 :=
  if f_eqb x f_one then Some f_infinity else sigma_loop fuel x x f_one.

Fixpoint tau_loop (fuel : nat) (x z scale : f64) : option f64 :=
  match fuel with
  | O => None
  | S fuel =>
      let x := f_sqrt x in
      let scale := f_mul scale (f_lit 1 2) in
      let z' := f_sub z (f_mul (f_sq (f_sub f_one x)) scale) in
      if f_eqb z' z then Some (f_div z' (f64_of_Z 3)) else tau_loop fuel x z' scale
  end.
Definition ertl_tau (fuel : nat) (x : f64) : option f64 :=
  if f_eqb x f_zero || f_eqb x f_one then Some f_zero
  else tau_loop fuel x (f_sub f_one x) f_one.

Definition ALPHA_INFINITY : f64 := f_lit 7213475204444817 10000000000000000.

(** [counts[register] += 1] for every register. *)
Definition register_counts (registers : list Z) : res (list Z) :=
  foldM (λ counts r, c ← vec_get counts r; vec_set counts r (c +ʷ 1))
    (replicate 66 0) registers.

(** [for rank in (1..=q).rev() { denominator = 0.5 * (denominator + counts[rank]) }] *)
Definition rank_sum (counts : list Z) (q : Z) (denominator : f64) : res f64 :=
  foldM (λ d rank, c ← vec_get counts rank;
          Ok (f_mul (f_lit 1 2) (f_add d (f64_of_Z c))))
    denominator (reverse (seqZ 1 q)).

Definition cardinality (fuel : nat) (s : HyperLogLog) : res (option f64) :=
  match hl_storage s with
  | Empty => Ok (Some f_zero)
  | Singleton _ => Ok (Some f_one)
  | Sparse hashes => Ok (Some (f64_of_Z (zlen hashes)))
  | Dense registers =>
      let m := f64_of_Z (zlen registers) in
      let q := 64 - hl_precision s in
      counts ← register_counts registers;
      saturated ← vec_get counts (q + 1);
      zero ← vec_get counts 0;
      match ertl_tau fuel (f_sub f_one (f_div (f64_of_Z saturated) m)),
            ertl_sigma fuel (f_div (f64_of_Z zero) m) with
      | Some tau, Some sigma =>
          d ← rank_sum counts q (f_mul m tau);
          let d := f_add d (f_mul m sigma) in
          Ok (Some (f_div (f_mul (f_mul ALPHA_INFINITY m) m) d))
      | _, _ => Ok None
      end
  end.

(** ** Merging, snapshots *)

Definition params_hash (s : HyperLogLog) : Z := hash64 [hl_precision s] 0.
Definition compatibility (s : HyperLogLog) : SketchCompatibility :=
  {| sc_algorithm := ALGORITHM; sc_version := 1; sc_hash := hl_hash s;
     sc_params_hash := params_hash s |}.

(** [if *b > *a { *a = *b }] cell by cell. *)
Fixpoint zip_max (mine theirs : list Z) : list Z :=
  match mine, theirs with
  | a :: mine, b :: theirs => (if a <? b then b else a) :: zip_max mine theirs
  | mine, _ => mine
  end.

Definition merge_storage (precision : Z) (st other : RegisterStorage)
    : res RegisterStorage :=
  match other with
  | Empty => Ok st
  | Singleton hash => insert_hash precision st hash
  | Sparse hashes => foldM (insert_hash precision) st hashes
  | Dense theirs =>
      mine ← ensure_dense precision st; Ok (Dense (zip_max mine theirs))
  end.

Definition merge_from (s other : HyperLogLog) : res HyperLogLog :=
  _ ← ensure_matches (compatibility s) (compatibility other);
  st ← merge_storage (hl_precision s) (hl_storage s) (hl_storage other);
  Ok {| hl_precision := hl_precision s; hl_hash := hl_hash s; hl_storage := st;
        hl_updates := hl_updates s +ʷ hl_updates other |}.

Definition reset (s : HyperLogLog) : HyperLogLog :=
  {| hl_precision := hl_precision s; hl_hash := hl_hash s;
     hl_storage := match hl_storage s with
                   | Empty => Empty
                   | Singleton _ => Empty
                   | Sparse _ => Sparse []
                   | Dense registers => Dense (replicate (length registers) 0)
                   end;
     hl_updates := 0 |}.

Definition w_storage (payload : Writer) (st : RegisterStorage) : Writer :=
  match st with
  | Empty => w_u32 (w_u8 payload STORAGE_SPARSE) 0
  | Singleton hash => w_u64 (w_u32 (w_u8 payload STORAGE_SPARSE) 1) hash
  | Sparse hashes =>
      foldl w_u64 (w_u32 (w_u8 payload STORAGE_SPARSE) (as_u32 (zlen hashes))) hashes
  | Dense registers => w_bytes (w_u8 payload STORAGE_DENSE) registers
  end.

Definition to_snapshot (s : HyperLogLog) (window_start_nanos window_end_nanos : Z)
    : list Z :=
  let params := w_u8 Writer_new (hl_precision s) in
  let payload := w_u64 Writer_new (hl_updates s) in
  let payload := w_storage payload (hl_storage s) in
  write_snapshot
    {| sh_version := SNAPSHOT_VERSION; sh_algorithm_id := HYPER_LOG_LOG;
       sh_hash := hl_hash s; sh_window_start_nanos := window_start_nanos;
       sh_window_end_nanos := window_end_nanos |}
    params payload.

(** The loop that reads [n] strictly increasing hashes after [hashes]. *)
Fixpoint read_sorted (n : nat) (hashes : list Z) (r : Reader) : res (list Z * Reader) :=
  match n with
  | O => Ok (hashes, r)
  | S n =>
      '(hash, r) ← r_u64 r;
      _ ← fail_if (match last hashes with Some previous => hash <=? previous | None => false end)
            (SnapshotError "hll sparse hashes must be strictly sorted and unique");
      read_sorted n (hashes ++ [hash]) r
  end.

Definition sparse_storage (hashes : list Z) : RegisterStorage :=
  match hashes with
  | [] => Empty
  | [hash] => Singleton hash
  | _ => Sparse hashes
  end.

Definition r_storage (precision : Z) (r : Reader) : res (RegisterStorage * Reader) :=
  '(encoding, r) ← r_u8 r;
  if encoding =? STORAGE_SPARSE then
    '(cnt, r) ← r_u32 r;
    _ ← fail_if (sparse_limit precision <? cnt)
          (SnapshotError "hll sparse hash count exceeds limit");
    _ ← check_count r cnt 8;
    '(hashes, r) ← read_sorted (Z.to_nat cnt) [] r;
    Ok (sparse_storage hashes, r)
  else if encoding =? STORAGE_DENSE then
    '(registers, r) ← r_take (Z.shiftl 1 precision) r;
    let max_register := 64 - precision + 1 in
    _ ← fail_if (existsb (λ register, max_register <? register) registers)
          (SnapshotError "hll snapshot register out of range");
    Ok (Dense registers, r)
  else Err (SnapshotError "unknown hll storage encoding").

Definition from_snapshot (b : bytes) : res HyperLogLog :=
  '(header, params, payload) ← read_snapshot b;
  _ ← fail_if (negb (sh_algorithm_id header =? HYPER_LOG_LOG))
        (SnapshotError "not an hll snapshot");
  '(precision, _) ← r_u8 (Reader_new params);
  _ ← fail_if (negb (precision_ok precision))
        (SnapshotError "hll snapshot precision must be in [4, 18]");
  let r := Reader_new payload in
  '(updates, r) ← r_u64 r;
  '(storage, r) ← r_storage precision r;
  _ ← fail_if (negb (remaining r =? 0))
        (SnapshotError "trailing bytes in hll snapshot payload");
  Ok {| hl_precision := precision; hl_hash := sh_hash header; hl_storage := storage;
        hl_updates := updates |}.

(** [vec_capacity] bounds the allocation of the vector. *)
Definition memory_bytes (size_of_self vec_capacity : Z) (s : HyperLogLog) : Z :=
  match hl_storage s with
  | Empty | Singleton _ => 0
  | Sparse _ => vec_capacity * 8
  | Dense _ => vec_capacity
  end + size_of_self.

#[export] Instance Hll_Sketch : Sketch HyperLogLog := {
  sk_update := update;
  sk_merge_from := merge_from;
  sk_reset := reset;
  sk_update_count := hl_updates;
  sk_compatibility := compatibility;
}.

(** ** Sorted sets of hashes *)

(** The distinct elements in increasing order. *)
Definition uniq (l : list Z) : list Z := sort_unstable (remove_dups l).

Lemma elem_of_uniq l x : x ∈ uniq l ↔ x ∈ l.
Proof. unfold uniq, sort_unstable. by rewrite (elem_of_sort_by Z.compare), elem_of_remove_dups. Qed.

Lemma NoDup_uniq l : NoDup (uniq l).
Proof. unfold uniq, sort_unstable. rewrite (sort_by_Permutation Z.compare). apply NoDup_remove_dups. Qed.

Lemma uniq_sorted l : StronglySorted (cmp_le Z.compare) (uniq l).
Proof. apply sort_by_sorted, _. Qed.

Lemma sorted_unique (l m : list Z) :
  StronglySorted (cmp_le Z.compare) l → StronglySorted (cmp_le Z.compare) m → l ≡ₚ m → l = m.
Proof.
  intros Hl Hm Hp. eapply StronglySorted_unique_strong; [|exact Hl|exact Hm|exact Hp].
  intros x y _ _. unfold cmp_le. rewrite !Z.compare_le_iff. lia.
Qed.

(** A sorted duplicate-free list is determined by its elements. *)
Lemma uniq_char l u :
  StronglySorted (cmp_le Z.compare) u → NoDup u → (∀ x, x ∈ u ↔ x ∈ l) → uniq l = u.
Proof.
  intros Hs Hn He. apply sorted_unique; [apply uniq_sorted|done|].
  apply NoDup_Permutation; [apply NoDup_uniq|done|]. intros x. by rewrite elem_of_uniq, He.
Qed.

Lemma uniq_ext l m : (∀ x, x ∈ l ↔ x ∈ m) → uniq l = uniq m.
Proof.
  intros H. apply uniq_char; [apply uniq_sorted|apply NoDup_uniq|].
  intros x. by rewrite elem_of_uniq, H.
Qed.

Lemma sorted_filter (u : list Z) h :
  StronglySorted (cmp_le Z.compare) u →
  u = filter (λ x, x < h) u ++ filter (λ x, ¬ x < h) u.
Proof.
  induction 1 as [|x u Hu IH Hx]; [done|]. rewrite !filter_cons.
  destruct (decide (x < h)) as [Hlt|Hge].
  - rewrite (decide_False (P := ¬ x < h)) by lia. cbn. by f_equal.
  - rewrite (decide_True (P := ¬ x < h)) by done.
    assert (filter (λ x, x < h) u = []) as Hnil.
    { destruct (filter (λ x, x < h) u) as [|y l] eqn:E; [done|].
      assert (y ∈ filter (λ x, x < h) u) as Hy by (rewrite E; by left).
      apply list_elem_of_filter in Hy as [Hy Hin]. rewrite Forall_forall in Hx.
      specialize (Hx y Hin). unfold cmp_le in Hx. rewrite Z.compare_le_iff in Hx. lia. }
    rewrite Hnil in *. cbn in *. by f_equal.
Qed.

Lemma insert_at_uniq l h :
  h ∉ l →
  insert_at (uniq l) (length (filter (λ x, x < h) (uniq l))) h = uniq (l ++ [h]).
Proof.
  intros Hh. pose proof (uniq_sorted l) as Hs. pose proof (sorted_filter _ h Hs) as Hf.
  assert (insert_at (uniq l) (length (filter (λ x, x < h) (uniq l))) h =
    filter (λ x, x < h) (uniq l) ++ h :: filter (λ x, ¬ x < h) (uniq l)) as ->.
  { assert (∀ u a b : list Z, u = a ++ b → insert_at u (length a) h = a ++ h :: b) as Hsplit
      by (intros u a b ->; unfold insert_at; by rewrite take_app_length, drop_app_length).
    by apply Hsplit. }
  assert (∀ x, x ∈ uniq l → x ≠ h) as Hne by (intros x Hx E; subst x; by rewrite elem_of_uniq in Hx).
  symmetry. apply uniq_char.
  - rewrite Hf in Hs. apply StronglySorted_app in Hs as (Hx & H1 & H2).
    apply StronglySorted_app. split_and!; [|done|].
    + intros x y [Hxh Hin]%list_elem_of_filter [->|Hy]%elem_of_cons.
      * unfold cmp_le. rewrite Z.compare_le_iff. lia.
      * apply Hx; [by apply list_elem_of_filter|done].
    + constructor; [done|]. apply Forall_forall. intros y [Hy _]%list_elem_of_filter.
      unfold cmp_le. rewrite Z.compare_le_iff. lia.
  - rewrite <- Permutation_middle, <- Hf. apply NoDup_cons.
    split; [by rewrite elem_of_uniq|apply NoDup_uniq].
  - intros x. rewrite <- Permutation_middle, <- Hf, elem_of_cons, elem_of_app,
      elem_of_uniq, list_elem_of_singleton. tauto.
Qed.

Lemma length_insert_at l n h : (n <= length l)%nat → length (insert_at l n h) = S (length l).
Proof.
  intros Hn. unfold insert_at. rewrite length_app. cbn. rewrite length_take, length_drop. lia.
Qed.

(** ** Registers *)

Definition reg_max (p : Z) (l : list Z) (i : Z) : Z :=
  foldr (λ h acc, if decide (reg_index p h = i) then Z.max (rho p h) acc else acc) 0 l.
(** The register array of a set of hashes. *)
Definition regs (p : Z) (l : list Z) : list Z := reg_max p l <$> seqZ 0 (Z.shiftl 1 p).

Lemma precision_range p : precision_ok p = true → 4 <= p <= 18.
Proof. unfold precision_ok, MIN_PRECISION, MAX_PRECISION. intros [?%Z.leb_le ?%Z.leb_le]%andb_true_iff. lia. Qed.

Lemma leading_zeros_range x : u64_ok x → 0 <= leading_zeros64 x <= 64.
Proof.
  intros Hx. unfold leading_zeros64. destruct (Z.eqb_spec x 0); [lia|].
  pose proof (Z.log2_nonneg x). assert (Z.log2 x < 64); [|lia].
  apply Z.log2_lt_pow2; word_lia.
Qed.

Lemma rho_range p h : precision_ok p = true → 1 <= rho p h <= 65 - p.
Proof.
  intros Hp%precision_range. unfold rho.
  pose proof (leading_zeros_range (shl64 h p) (wrap64_range _)). lia.
Qed.

Lemma reg_index_range p h :
  precision_ok p = true → u64_ok h → 0 <= reg_index p h < Z.shiftl 1 p.
Proof.
  intros Hp%precision_range Hh. unfold reg_index.
  rewrite Z.shiftl_1_l, Z.shiftr_div_pow2 by lia. split.
  - apply Z.div_pos; [word_lia|]. apply Z.pow_pos_nonneg; lia.
  - apply Z.div_lt_upper_bound; [apply Z.pow_pos_nonneg; lia|].
    rewrite <- Z.pow_add_r by lia. replace (64 - p + p) with 64 by lia. word_lia.
Qed.

Lemma reg_max_range p l i : precision_ok p = true → 0 <= reg_max p l i <= 65 - p.
Proof.
  intros Hp. induction l as [|h l IH]; cbn [reg_max foldr].
  - apply precision_range in Hp. lia.
  - fold (reg_max p l i). pose proof (rho_range p h Hp). case_decide; lia.
Qed.

Lemma reg_max_elem p l i h :
  h ∈ l → reg_index p h = i → rho p h <= reg_max p l i.
Proof.
  induction l as [|x l IH]; [by intros ?%elem_of_nil|]. cbn [reg_max foldr].
  fold (reg_max p l i). intros [->|Hh]%elem_of_cons Hi.
  - rewrite decide_True by done. lia.
  - specialize (IH Hh Hi). case_decide; lia.
Qed.

Lemma reg_max_mono p l m i :
  precision_ok p = true → (∀ x, x ∈ l → x ∈ m) → reg_max p l i <= reg_max p m i.
Proof.
  intros Hp. induction l as [|h l IH]; cbn [reg_max foldr]; intros H.
  - by apply reg_max_range.
  - fold (reg_max p l i). assert (reg_max p l i <= reg_max p m i) by (apply IH; set_solver).
    case_decide; [|done].
    pose proof (reg_max_elem p m i h (H h ltac:(by left))). lia.
Qed.

Lemma regs_ext p l m :
  precision_ok p = true → (∀ x, x ∈ l ↔ x ∈ m) → regs p l = regs p m.
Proof.
  intros Hp H. unfold regs. apply list_fmap_ext. intros i x _.
  apply Z.le_antisymm; apply reg_max_mono; try done; intros y; apply H.
Qed.

Lemma zlen_regs p l : precision_ok p = true → zlen (regs p l) = Z.shiftl 1 p.
Proof.
  intros Hp%precision_range. unfold zlen, regs. rewrite length_fmap, length_seqZ, Z.shiftl_1_l.
  assert (0 < 2 ^ p) by (apply Z.pow_pos_nonneg; lia). lia.
Qed.

Lemma lookup_regs p l i :
  0 <= i < Z.shiftl 1 p → regs p l !! Z.to_nat i = Some (reg_max p l i).
Proof.
  intros Hi. unfold regs. rewrite list_lookup_fmap, lookup_seqZ_lt by lia. cbn.
  do 2 f_equal. lia.
Qed.

Lemma zero_registers_regs p : zero_registers p = regs p [].
Proof.
  unfold zero_registers, regs. cbn [reg_max foldr].
  rewrite <- (length_seqZ 0 (Z.shiftl 1 p)).
  induction (seqZ 0 (Z.shiftl 1 p)) as [|i l IH]; [done|]. cbn. by f_equal.
Qed.

Lemma update_register_regs p l h :
  precision_ok p = true → u64_ok h → update_register (regs p l) p h = Ok (regs p (h :: l)).
Proof.
  intros Hp Hh. pose proof (reg_index_range p h Hp Hh) as Hi.
  unfold update_register. set (idx := reg_index p h) in *.
  rewrite (vec_get_Some _ idx (reg_max p l idx)) by (lia || by apply lookup_regs). ostep.
  assert (∀ t : list Z, zlen t = Z.shiftl 1 p →
    (∀ i, 0 <= i < Z.shiftl 1 p → t !! Z.to_nat i = Some (reg_max p (h :: l) i)) →
    t = regs p (h :: l)) as Hext.
  { intros t Ht Hl. apply list_eq. intros n.
    destruct (decide (Z.of_nat n < Z.shiftl 1 p)) as [Hn|Hn].
    - rewrite <- (Nat2Z.id n), Hl, lookup_regs by lia. done.
    - rewrite !lookup_ge_None_2; [done| |unfold zlen in Ht; lia].
      pose proof (zlen_regs p (h :: l) Hp) as Hz. unfold zlen in Hz. lia. }
  assert (∀ i, i ≠ idx → reg_max p (h :: l) i = reg_max p l i) as Hother.
  { intros i Hne. cbn [reg_max foldr]. by rewrite decide_False by (fold idx; congruence). }
  assert (reg_max p (h :: l) idx = Z.max (rho p h) (reg_max p l idx)) as Hidx.
  { cbn [reg_max foldr]. by rewrite decide_True. }
  destruct (Z.ltb_spec (reg_max p l idx) (rho p h)) as [Hlt|Hge].
  - rewrite vec_set_ok by (rewrite zlen_regs by done; lia). f_equal. apply Hext.
    + unfold zlen. rewrite length_insert. by apply zlen_regs.
    + intros i Hir. destruct (decide (i = idx)) as [->|Hne].
      * rewrite list_lookup_insert_eq.
        -- rewrite Hidx. f_equal. lia.
        -- pose proof (zlen_regs p l Hp) as Hz. unfold zlen in Hz. lia.
      * rewrite list_lookup_insert_ne by lia. by rewrite lookup_regs, Hother.
  - f_equal. apply Hext; [by apply zlen_regs|]. intros i Hir. rewrite lookup_regs by done.
    destruct (decide (i = idx)) as [->|Hne]; [rewrite Hidx; f_equal; lia|by rewrite Hother].
Qed.

Lemma update_all_regs p l hs :
  precision_ok p = true → Forall u64_ok hs →
  update_all p (regs p l) hs = Ok (regs p (l ++ hs)).
Proof.
  intros Hp Hh. unfold update_all. revert l. induction Hh as [|h hs Hh _ IH]; intros l; cbn [foldM].
  - by rewrite app_nil_r.
  - rewrite update_register_regs by done. ostep. rewrite IH. f_equal.
    apply regs_ext; [done|]. intros x. rewrite !elem_of_app, !elem_of_cons. tauto.
Qed.

Lemma zip_max_regs p l m :
  precision_ok p = true → zip_max (regs p l) (regs p m) = regs p (l ++ m).
Proof.
  intros Hp. unfold regs. generalize (seqZ 0 (Z.shiftl 1 p)) as ix. induction ix as [|i ix IH]; [done|].
  cbn [fmap list_fmap zip_max]. rewrite IH. f_equal.
  enough (reg_max p (l ++ m) i = Z.max (reg_max p l i) (reg_max p m i)) as ->.
  { destruct (Z.ltb_spec (reg_max p l i) (reg_max p m i)); lia. }
  clear IH. induction l as [|h l IHl].
  - change (reg_max p [] i) with 0. cbn [app]. pose proof (reg_max_range p m i Hp). lia.
  - cbn [app reg_max foldr]. fold (reg_max p l i) (reg_max p (l ++ m) i). case_decide; lia.
Qed.

(** ** The canonical storage of a set of hashes *)

Definition canon (p : Z) (l : list Z) : RegisterStorage :=
  match uniq l with
  | [] => Empty
  | [h] => Singleton h
  | u => if zlen u <=? sparse_limit p then Sparse u else Dense (regs p l)
  end.

Lemma canon_ext p l m :
  precision_ok p = true → (∀ x, x ∈ l ↔ x ∈ m) → canon p l = canon p m.
Proof.
  intros Hp H. unfold canon. by rewrite (uniq_ext l m H), (regs_ext p l m Hp H).
Qed.

Lemma sparse_limit_pos p : 1 <= sparse_limit p.
Proof. unfold sparse_limit. lia. Qed.

(** Beyond the limit the storage is dense. *)
Lemma canon_dense p l : sparse_limit p < zlen (uniq l) → canon p l = Dense (regs p l).
Proof.
  intros H. pose proof (sparse_limit_pos p). unfold canon.
  destruct (uniq l) as [|a [|b u]]; cbn in H; [unfold zlen in H; cbn in H; lia..|].
  by rewrite (proj2 (Z.leb_gt _ _)).
Qed.

Lemma ensure_dense_canon p l :
  precision_ok p = true → Forall u64_ok l → ensure_dense p (canon p l) = Ok (regs p l).
Proof.
  intros Hp Hl.
  assert (Forall u64_ok (uniq l)) as Hu.
  { apply Forall_forall. intros x Hx. rewrite elem_of_uniq in Hx.
    rewrite Forall_forall in Hl. auto. }
  assert (update_all p (zero_registers p) (uniq l) = Ok (regs p l)) as Hall.
  { rewrite zero_registers_regs, update_all_regs by done. f_equal.
    apply regs_ext; [done|]. intros x. cbn. apply elem_of_uniq. }
  unfold canon. destruct (uniq l) as [|a [|b u]] eqn:E; [exact Hall|exact Hall|].
  case_match; [exact Hall|done].
Qed.

Lemma zlen_uniq_snoc l h : zlen (uniq l) <= zlen (uniq (l ++ [h])) ∧
  (h ∉ l → zlen (uniq (l ++ [h])) = zlen (uniq l) + 1).
Proof.
  destruct (decide (h ∈ l)) as [Hin|Hnin].
  - rewrite (uniq_ext (l ++ [h]) l) by set_solver. split; [lia|done].
  - rewrite <- insert_at_uniq by done. unfold zlen. rewrite length_insert_at.
    + lia.
    + apply length_filter.
Qed.

Lemma insert_hash_canon p l h :
  precision_ok p = true → Forall u64_ok l → u64_ok h →
  insert_hash p (canon p l) h = Ok (canon p (l ++ [h])).
Proof.
  intros Hp Hl Hh.
  assert ((registers ← ensure_dense p (canon p l);
           registers ← update_register registers p h; Ok (Dense registers)) =
          (Ok (Dense (regs p (l ++ [h]))) : res RegisterStorage)) as Hdense.
  { rewrite ensure_dense_canon by done. ostep. rewrite update_register_regs by done. ostep.
    do 2 f_equal. apply regs_ext; [done|set_solver]. }
  destruct (zlen_uniq_snoc l h) as [Hle Hsnoc].
  unfold insert_hash. destruct (decide (h ∈ l)) as [Hin|Hnin].
  - rewrite (canon_ext p (l ++ [h]) l) by (done || set_solver).
    assert (h ∈ uniq l) as Hu by by rewrite elem_of_uniq.
    destruct (canon p l) as [|e|u|r] eqn:E; unfold canon in E;
      destruct (uniq l) as [|a [|b w]] eqn:Eu; try done; try (by apply elem_of_nil in Hu);
      try (case_match; done).
    + injection E as <-. apply list_elem_of_singleton in Hu as ->. by rewrite Z.eqb_refl.
    + case_match; [|done]. injection E as <-. unfold binary_search. by rewrite decide_True.
    + case_match; [done|]. injection E as <-. ostep. rewrite update_register_regs by done.
      ostep. do 2 f_equal. apply regs_ext; [done|set_solver].
  - specialize (Hsnoc Hnin). pose proof (insert_at_uniq l h Hnin) as Hins.
    assert (h ∉ uniq l) as Hu by by rewrite elem_of_uniq.
    destruct (decide (zlen (uniq (l ++ [h])) <= sparse_limit p)) as [Hroom|Hfull].
    + unfold canon. destruct (uniq l) as [|a [|b w]] eqn:Eu.
      * cbn in Hins. by rewrite <- Hins.
      * assert (uniq (l ++ [h]) = sort_unstable [a; h]) as ->.
        { apply uniq_char; [apply sort_by_sorted, _| |].
          - unfold sort_unstable. rewrite (sort_by_Permutation Z.compare).
            apply NoDup_cons. split; [|apply NoDup_singleton]. set_solver.
          - intros x. unfold sort_unstable. rewrite (elem_of_sort_by Z.compare).
            rewrite elem_of_app, <- (elem_of_uniq l), Eu. set_solver. }
        rewrite (proj2 (Z.eqb_neq a h)) by set_solver.
        unfold zlen in Hsnoc, Hroom. rewrite Hsnoc in Hroom. cbn [length] in Hroom.
        rewrite (proj2 (Z.ltb_lt _ _)) by lia.
        pose proof (length_sort_unstable [a; h]) as Hlen.
        destruct (sort_unstable [a; h]) as [|x [|y [|z t]]] eqn:Es; try done.
        rewrite (proj2 (Z.leb_le _ _)); [done|]. unfold zlen. cbn [length]. lia.
      * rewrite (proj2 (Z.leb_le _ _)) by lia. unfold binary_search.
        rewrite decide_False by done. rewrite (proj2 (Z.ltb_lt _ _)) by lia. rewrite Hins.
        destruct (uniq (l ++ [h])) as [|x [|y t]] eqn:Es.
        -- unfold zlen in Hsnoc. cbn in Hsnoc. lia.
        -- unfold zlen in Hsnoc. cbn in Hsnoc. lia.
        -- by rewrite (proj2 (Z.leb_le _ _)).
    + rewrite (canon_dense p (l ++ [h])) by lia.
      destruct (canon p l) as [|e|u|r] eqn:E; unfold canon in E;
        destruct (uniq l) as [|a [|b w]] eqn:Eu; try done; try (case_match; done).
      * unfold zlen in *. cbn [length] in *. pose proof (sparse_limit_pos p). lia.
      * injection E as <-. rewrite (proj2 (Z.eqb_neq a h)) by set_solver.
        unfold zlen in *. cbn [length] in *. rewrite (proj2 (Z.ltb_ge _ _)) by lia. exact Hdense.
      * case_match; [|done]. injection E as <-. unfold binary_search.
        rewrite decide_False by done. rewrite (proj2 (Z.ltb_ge _ _)) by lia. exact Hdense.
Qed.

Lemma insert_all_canon p l hs :
  precision_ok p = true → Forall u64_ok l → Forall u64_ok hs →
  foldM (insert_hash p) (canon p l) hs = Ok (canon p (l ++ hs)).
Proof.
  intros Hp Hl Hh. revert l Hl. induction Hh as [|h hs Hh _ IH]; intros l Hl; cbn [foldM].
  - by rewrite app_nil_r.
  - rewrite insert_hash_canon by done. ostep.
    rewrite IH by (apply Forall_app; split; [done|by constructor]). by rewrite <- app_assoc.
Qed.

Lemma zlen_uniq_app l m : zlen (uniq m) <= zlen (uniq (l ++ m)).
Proof.
  unfold zlen. apply Nat2Z.inj_le, submseteq_length, NoDup_submseteq; [apply NoDup_uniq|].
  intros x. rewrite !elem_of_uniq. set_solver.
Qed.

Lemma merge_canon p l m :
  precision_ok p = true → Forall u64_ok l → Forall u64_ok m →
  merge_storage p (canon p l) (canon p m) = Ok (canon p (l ++ m)).
Proof.
  intros Hp Hl Hm.
  assert (Forall u64_ok (uniq m)) as Hu.
  { apply Forall_forall. intros x Hx. rewrite elem_of_uniq in Hx.
    rewrite Forall_forall in Hm. auto. }
  assert (foldM (insert_hash p) (canon p l) (uniq m) = Ok (canon p (l ++ m))) as Hall.
  { rewrite insert_all_canon by done. f_equal. apply canon_ext; [done|].
    intros x. by rewrite !elem_of_app, elem_of_uniq. }
  unfold merge_storage. destruct (canon p m) as [|h|u|r] eqn:E; unfold canon in E;
    destruct (uniq m) as [|a [|b w]] eqn:Eu; try done; try (case_match; done).
  - injection E as <-. cbn [foldM] in Hall.
    by destruct (insert_hash p (canon p l) a).
  - case_match; [|done]. by injection E as <-.
  - destruct (zlen (a :: b :: w) <=? sparse_limit p) eqn:Elim; [done|]. injection E as <-.
    rewrite ensure_dense_canon by done. ostep. rewrite zip_max_regs by done.
    rewrite canon_dense; [done|]. apply Z.leb_gt in Elim. pose proof (zlen_uniq_app l m).
    rewrite Eu in *. lia.
Qed.

(** ** Histories *)

Definition hl_init (precision : Z) (h : HashSpec) (s : HyperLogLog) : Prop :=
  new precision h = Ok s.
Definition hl_upd (s : HyperLogLog) (key : bytes) (s' : HyperLogLog) : Prop :=
  insert s key = Ok s'.
Definition hl_mrg (s t s' : HyperLogLog) : Prop := merge_from s t = Ok s'.

(** The hashes of a stream of keys. *)
Definition hashes_of (h : HashSpec) (keys : list bytes) : list Z :=
  (λ k, hash64 k (seed h)) <$> keys.

Lemma hashes_ok h keys : Forall u64_ok (hashes_of h keys).
Proof. apply Forall_fmap, Forall_true. intros k. apply hash64_u64. Qed.

Lemma hl_compatibility_same s t :
  hl_precision s = hl_precision t → hl_hash s = hl_hash t → compatibility s = compatibility t.
Proof. intros Hc Hh. unfold compatibility, params_hash. congruence. Qed.

Lemma hl_hist p h s keys :
  built (hl_init p h) hl_upd hl_mrg s keys →
  precision_ok p = true ∧ hl_precision s = p ∧ hl_hash s = h ∧
  hl_storage s = canon p (hashes_of h keys).
Proof.
  induction 1 as [s Hi|s l k s' _ (Hp & Ep & Eh & Es) Hu|
    s l t m s' _ (Hp & Ep & Eh & Es) _ (_ & Fp & Fh & Ft) Hg].
  - unfold hl_init, new in Hi. destruct (precision_ok p); [|done]. by injection Hi as <-.
  - unfold hl_upd, insert in Hu. rewrite Ep, Eh, Es in Hu.
    rewrite insert_hash_canon in Hu by (done || apply hashes_ok || apply hash64_u64).
    injection Hu as <-. cbn. split_and!; try done. unfold hashes_of. by rewrite fmap_app.
  - unfold hl_mrg, merge_from in Hg. rewrite (proj2 (ensure_matches_ok _ _)) in Hg
      by (apply hl_compatibility_same; congruence).
    revert Hg. ostep. rewrite Es, Ft, Ep, merge_canon by (done || apply hashes_ok).
    ostep. intros [= <-]. cbn. split_and!; try done. unfold hashes_of. by rewrite fmap_app.
Qed.

(** [C15] HyperLogLog is a function of the set of keys.  Any two histories of insertions
    and merges, on any number of nodes and in any order, whose streams contain
    the same keys end in the same storage, be it sparse or dense; duplicates,
    order and partitioning never show, and merging is set union. *)
Theorem hll_set_semantics p h s t keys keys' :
  built (hl_init p h) hl_upd hl_mrg s keys →
  built (hl_init p h) hl_upd hl_mrg t keys' →
  (∀ k, k ∈ keys ↔ k ∈ keys') →
  hl_storage s = hl_storage t ∧ ∀ fuel, cardinality fuel s = cardinality fuel t.
Proof.
  intros Hs Ht He. destruct (hl_hist p h s keys Hs) as (Hp & Ep & Eh & Es).
  destruct (hl_hist p h t keys' Ht) as (_ & Fp & Fh & Ft).
  assert (hl_storage s = hl_storage t) as Hst.
  { rewrite Es, Ft. apply canon_ext; [done|]. intros x. unfold hashes_of.
    rewrite !list_elem_of_fmap. split; intros (k & -> & Hk); exists k; (split; [done|]); by apply He. }
  split; [done|]. intros fuel. unfold cardinality. by rewrite Hst, Ep, Fp.
Qed.

Definition blank : HyperLogLog :=
  {| hl_precision := 4; hl_hash := HashSpec_default; hl_storage := Empty; hl_updates := 0 |}.
Definition pair_ab : HyperLogLog := run_or blank (s ← insert blank [1]; insert s [2]).
Definition pair_ba : HyperLogLog :=
  run_or blank (s ← insert blank [2]; t ← insert blank [1]; merge_from s t).

Lemma pair_ab_hist :
  built (hl_init 4 HashSpec_default) hl_upd hl_mrg pair_ab [[1]; [2]].
Proof.
  apply (built_upd _ _ _ (run_or blank (insert blank [1])) [[1]] [2]); [|by vm_compute].
  apply (built_upd _ _ _ blank [] [1]); [by apply built_init|by vm_compute].
Qed.

Lemma pair_ba_hist :
  built (hl_init 4 HashSpec_default) hl_upd hl_mrg pair_ba [[2]; [1]].
Proof.
  apply (built_mrg _ _ _ (run_or blank (insert blank [2])) [[2]]
    (run_or blank (insert blank [1])) [[1]]); [| |by vm_compute].
  - apply (built_upd _ _ _ blank [] [2]); [by apply built_init|by vm_compute].
  - apply (built_upd _ _ _ blank [] [1]); [by apply built_init|by vm_compute].
Qed.

Lemma hll_set_semantics_witness : hl_storage pair_ab = hl_storage pair_ba.
Proof.
  destruct (hll_set_semantics 4 HashSpec_default pair_ab pair_ba [[1]; [2]] [[2]; [1]])
    as [H _]; [apply pair_ab_hist|apply pair_ba_hist|set_solver|exact H].
Defined.

(** Small cardinalities are exact.  While the stream's keys have at most
    [sparse_limit] distinct hashes, the estimate is their number. *)
Lemma hll_sparse_exact p h s keys fuel :
  built (hl_init p h) hl_upd hl_mrg s keys →
  zlen (remove_dups (hashes_of h keys)) <= sparse_limit p →
  cardinality fuel s = Ok (Some (f64_of_Z (zlen (remove_dups (hashes_of h keys))))).
Proof.
  intros Hs Hn. destruct (hl_hist p h s keys Hs) as (Hp & Ep & Eh & Es).
  assert (zlen (uniq (hashes_of h keys)) = zlen (remove_dups (hashes_of h keys))) as Hl.
  { unfold zlen, uniq. by rewrite length_sort_unstable. }
  unfold cardinality. rewrite Es. unfold canon. rewrite <- Hl in *.
  destruct (uniq (hashes_of h keys)) as [|a [|b u]] eqn:E; [done|done|].
  by rewrite (proj2 (Z.leb_le _ _)).
Qed.

Lemma hll_sparse_exact_witness : cardinality 0 (run_or blank (insert blank [7])) = Ok (Some f_one).
Proof.
  apply (hll_sparse_exact 4 HashSpec_default (run_or blank (insert blank [7])) [[7]] 0).
  - apply (built_upd _ _ _ blank [] [7]); [by apply built_init|by vm_compute].
  - vm_compute. congruence.
Defined.

(** ** Snapshots *)

Definition storage_ok (p : Z) (st : RegisterStorage) : Prop :=
  match st with
  | Empty => True
  | Singleton h => u64_ok h
  | Sparse u => StronglySorted Z.lt u ∧ Forall u64_ok u ∧ 2 <= zlen u <= sparse_limit p
  | Dense r => zlen r = Z.shiftl 1 p ∧ Forall (λ x, 0 <= x <= 65 - p) r
  end.
Record wf (s : HyperLogLog) : Prop := {
  wf_precision : precision_ok (hl_precision s) = true;
  wf_storage : storage_ok (hl_precision s) (hl_storage s);
}.

Lemma canon_ok p l : precision_ok p = true → Forall u64_ok l → storage_ok p (canon p l).
Proof.
  intros Hp Hl.
  assert (Forall u64_ok (uniq l)) as Hu.
  { apply Forall_forall. intros x Hx. rewrite elem_of_uniq in Hx.
    rewrite Forall_forall in Hl. auto. }
  assert (StronglySorted Z.lt (uniq l)) as Hs.
  { pose proof (uniq_sorted l) as Hs. pose proof (NoDup_uniq l) as Hn.
    induction Hs as [|x u Hu' IH Hx]; [constructor|].
    apply NoDup_cons in Hn as [Hni Hn]. apply Forall_cons in Hu as [_ Hu].
    constructor; [by apply IH|]. rewrite Forall_forall in *. intros y Hy.
    specialize (Hx y Hy). unfold cmp_le in Hx. rewrite Z.compare_le_iff in Hx.
    assert (x ≠ y) by congruence. lia. }
  unfold canon. destruct (uniq l) as [|a [|b u]] eqn:E.
  - done.
  - by apply Forall_inv in Hu.
  - case_match eqn:Elim.
    + apply Z.leb_le in Elim. split_and!; try done. unfold zlen. cbn. lia.
    + split; [by apply zlen_regs|]. unfold regs. apply Forall_fmap, Forall_forall.
      intros i _. cbn. by apply reg_max_range.
Qed.

Definition enc_storage (st : RegisterStorage) : list Z :=
  match st with
  | Empty => STORAGE_SPARSE :: le_bytes 4 0
  | Singleton h => STORAGE_SPARSE :: le_bytes 4 1 ++ le_bytes 8 h
  | Sparse u => STORAGE_SPARSE :: le_bytes 4 (zlen u) ++ encode_all (le_bytes 8) u
  | Dense r => STORAGE_DENSE :: r
  end.

Lemma sparse_limit_range p : precision_ok p = true → 1 <= sparse_limit p <= 8192.
Proof.
  intros Hp%precision_range. unfold sparse_limit, SPARSE_MEMORY_FRACTION.
  rewrite Z.shiftl_1_l. split; [lia|].
  assert (2 ^ p <= 2 ^ 18) by (apply Z.pow_le_mono_r; lia).
  change (2 ^ 18) with 262144 in *. change (4 * 8) with 32.
  pose proof (Z.div_le_mono (2 ^ p) 262144 32 ltac:(lia) ltac:(lia)) as H1.
  change (262144 / 32) with 8192 in H1. lia.
Qed.

Lemma w_storage_enc w p st :
  precision_ok p = true → storage_ok p st → w_storage w st = w ++ enc_storage st.
Proof.
  intros Hp Hok. pose proof (sparse_limit_range p Hp) as Hlim.
  destruct st as [|h|u|r]; unfold w_storage, enc_storage, w_u64, w_u32, w_u8, w_bytes.
  - by rewrite <- app_assoc.
  - by rewrite <- !app_assoc.
  - destruct Hok as (_ & _ & Hn). rewrite (foldl_write _ (le_bytes 8)) by done.
    unfold as_u32. rewrite Z.mod_small by lia. by rewrite <- !app_assoc.
  - by rewrite <- app_assoc.
Qed.

Lemma sorted_snoc (acc : list Z) h :
  StronglySorted Z.lt (acc ++ [h]) ↔
    StronglySorted Z.lt acc ∧ match last acc with Some p => p < h | None => True end.
Proof.
  rewrite StronglySorted_app. split.
  - intros (Hx & Hs & _). split; [done|]. destruct (last acc) as [p|] eqn:E; [|done].
    apply Hx; [|by left]. apply last_Some in E as [l ->]. set_solver.
  - intros [Hs Hl]. split_and!; [|done|repeat constructor].
    intros x y Hx ->%list_elem_of_singleton. destruct (last acc) as [p|] eqn:E.
    + apply last_Some in E as [l ->]. apply StronglySorted_app in Hs as (Hlt & _ & _).
      apply elem_of_app in Hx as [Hx| ->%list_elem_of_singleton]; [|done].
      specialize (Hlt x p Hx ltac:(by left)). lia.
    + apply last_None in E as ->. by apply elem_of_nil in Hx.
Qed.

Lemma read_sorted_rd hs acc pre suf :
  StronglySorted Z.lt (acc ++ hs) → Forall u64_ok hs →
  read_sorted (length hs) acc (rd pre (encode_all (le_bytes 8) hs ++ suf)) =
    Ok (acc ++ hs, rd (pre ++ encode_all (le_bytes 8) hs) suf).
Proof.
  revert acc pre. induction hs as [|h hs IH]; intros acc pre Hs Hu.
  - cbn. by rewrite !app_nil_r.
  - apply Forall_cons in Hu as [Hh Hu]. cbn [length read_sorted].
    rewrite encode_all_cons, <- app_assoc, r_u64_rd by done. ostep.
    rewrite (cons_middle h acc hs), app_assoc in Hs.
    assert (StronglySorted Z.lt (acc ++ [h])) as Hs1.
    { by apply StronglySorted_app in Hs as (_ & ? & _). }
    apply sorted_snoc in Hs1 as [_ Hlast].
    assert (match last acc with Some previous => h <=? previous | None => false end = false) as ->.
    { destruct (last acc); [|done]. apply Z.leb_gt. lia. }
    ostep. rewrite IH by done. by rewrite <- !app_assoc.
Qed.

Lemma read_sorted_inv n acc pre suf hs r :
  bytes_ok suf → StronglySorted Z.lt acc → Forall u64_ok acc →
  read_sorted n acc (rd pre suf) = Ok (hs, r) →
  StronglySorted Z.lt hs ∧ Forall u64_ok hs ∧ length hs = (length acc + n)%nat ∧
  ∃ pre' suf', r = rd pre' suf' ∧ bytes_ok suf'.
Proof.
  revert acc pre suf. induction n as [|n IH]; intros acc pre suf Hb Hs Hu H; cbn [read_sorted] in H.
  - injection H as <- <-. split_and!; [done|done|lia|eauto].
  - apply bind_ok in H as ([h r1] & Hr & H). apply bind_ok in H as ([] & Hf%fail_if_ok & H).
    apply r_u64_inv in Hr as (suf1 & -> & Hb1 & -> & Hh); [|done].
    apply IH in H as (H1 & H2 & H3 & H4); [|done| |].
    + rewrite length_app in H3. cbn in H3. split_and!; try done. lia.
    + apply sorted_snoc. split; [done|]. destruct (last acc); [|done].
      apply Z.leb_gt in Hf. lia.
    + apply Forall_app. split; [done|by constructor].
Qed.

Lemma read_sorted_no_panic n acc pre suf :
  bytes_ok suf → no_panic (read_sorted n acc (rd pre suf)).
Proof.
  revert acc pre suf. induction n as [|n IH]; intros acc pre suf Hb; cbn [read_sorted]; [done|].
  apply bind_no_panic; [auto with outcome|]. intros [h r] Hr.
  apply r_u64_inv in Hr as (suf1 & -> & Hb1 & -> & _); [|done].
  apply bind_no_panic; [auto with outcome|]. intros _ _. by apply IH.
Qed.

Lemma r_storage_rd p st pre suf :
  precision_ok p = true → storage_ok p st →
  r_storage p (rd pre (enc_storage st ++ suf)) = Ok (st, rd (pre ++ enc_storage st) suf).
Proof.
  intros Hp Hok. pose proof (sparse_limit_range p Hp) as Hlim. unfold r_storage.
  assert (∀ hs, StronglySorted Z.lt hs → Forall u64_ok hs → zlen hs <= sparse_limit p →
    sparse_storage hs = st →
    enc_storage st = STORAGE_SPARSE :: le_bytes 4 (zlen hs) ++ encode_all (le_bytes 8) hs →
    r_storage p (rd pre (enc_storage st ++ suf)) = Ok (st, rd (pre ++ enc_storage st) suf))
    as Hsparse.
  { intros hs Hs Hu Hn Hst He. unfold r_storage. rewrite He.
    pose proof (zlen_nonneg hs) as Hn0.
    rewrite <- app_comm_cons, r_u8_rd by by range_tac. ostep. change (STORAGE_SPARSE =? STORAGE_SPARSE) with true.
    cbv iota. rewrite <- app_assoc, r_u32_rd by word_lia. ostep.
    rewrite (proj2 (Z.ltb_ge _ _)) by lia. ostep.
    rewrite (proj2 (check_count_rd _ _ _ _)).
    2:{ rewrite zlen_app, (zlen_encode_all _ 8) by (intros; apply zlen_le_bytes).
        change (Z.max 8 1) with 8. pose proof (zlen_nonneg suf).
        apply Z.div_le_lower_bound; lia. }
    ostep. unfold zlen at 1. rewrite Nat2Z.id, read_sorted_rd by done. ostep. cbn [app].
    rewrite Hst. by rewrite <- !app_assoc. }
  destruct st as [|h|u|r].
  - apply (Hsparse []); [constructor|constructor|unfold zlen; cbn; lia|done|done].
  - apply (Hsparse [h]); [repeat constructor|by constructor|unfold zlen; cbn; lia|done|].
    unfold enc_storage. by rewrite encode_all_cons, app_nil_r.
  - destruct Hok as (Hs & Hu & Hn). apply (Hsparse u); [done|done|lia| |done].
    destruct u as [|a [|b u]]; [unfold zlen in Hn; cbn in Hn; lia..|done].
  - destruct Hok as [Hl Hr]. cbn [enc_storage]. rewrite <- app_comm_cons, r_u8_rd by by range_tac. ostep.
    change (STORAGE_DENSE =? STORAGE_SPARSE) with false.
    change (STORAGE_DENSE =? STORAGE_DENSE) with true. cbv iota.
    rewrite r_take_rd by done. ostep.
    assert (existsb (λ register, 64 - p + 1 <? register) r = false) as ->.
    { apply not_true_is_false. rewrite existsb_exists. intros (x & Hx & Hlt%Z.ltb_lt).
      rewrite Forall_forall in Hr. apply list_elem_of_In in Hx. specialize (Hr x Hx). lia. }
    ostep. by rewrite <- app_assoc.
Qed.

Lemma u8_precision p : precision_ok p = true → u8_ok p ∧ as_u8 p = p.
Proof.
  intros Hp%precision_range. split; [word_lia|]. unfold as_u8. rewrite Z.mod_small; lia.
Qed.

Lemma zlen_enc_storage p st :
  precision_ok p = true → storage_ok p st → 0 <= zlen (enc_storage st) < 4294967280.
Proof.
  intros Hp Hok. pose proof (sparse_limit_range p Hp).
  destruct st as [|h|u|r]; unfold enc_storage.
  - by range_tac.
  - rewrite zlen_cons, zlen_app, !zlen_le_bytes. lia.
  - destruct Hok as (_ & _ & Hn). rewrite zlen_cons, zlen_app, zlen_le_bytes.
    rewrite (zlen_encode_all _ 8) by (intros; apply zlen_le_bytes). lia.
  - destruct Hok as [Hl _]. rewrite zlen_cons, Hl. apply precision_range in Hp.
    rewrite Z.shiftl_1_l. assert (2 ^ p <= 2 ^ 18) by (apply Z.pow_le_mono_r; lia).
    change (2 ^ 18) with 262144 in *. pose proof (Z.pow_nonneg 2 p). lia.
Qed.

(** A HyperLogLog snapshot restores the sketch exactly, in every representation. *)
Lemma hll_snapshot_round_trip s ws we :
  wf s → hash_spec_ok (hl_hash s) → u64_ok (hl_updates s) → u64_ok ws → u64_ok we →
  from_snapshot (to_snapshot s ws we) = Ok s.
Proof.
  intros [Hp Hok] Hh Hu Hws Hwe. destruct (u8_precision _ Hp) as [Hp8 Hpe].
  pose proof (zlen_enc_storage _ _ Hp Hok) as Hz.
  unfold to_snapshot, from_snapshot. cbv zeta.
  rewrite (w_storage_enc _ (hl_precision s)) by done.
  unfold w_u8, w_u64, Writer_new. cbn [app]. rewrite Hpe. rewrite read_write_snapshot.
  - ostep. cbv beta iota zeta. cbn [sh_algorithm_id sh_hash]. rewrite Z.eqb_refl. ostep.
    change Reader_new with (rd []). rewrite r_u8_rd by done. ostep. rewrite Hp. ostep.
    rewrite r_u64_rd by done. ostep.
    rewrite <- (app_nil_r (enc_storage (hl_storage s))), r_storage_rd by done. ostep.
    rewrite remaining_rd. change (zlen (@nil Z) =? 0) with true. ostep. by destruct s.
  - unfold header_ok. cbn. split_and!; try done.
  - cbn. range_tac.
  - rewrite zlen_app, zlen_le_bytes. word_lia.
Qed.

Lemma hl_built_wf p h s keys : built (hl_init p h) hl_upd hl_mrg s keys → wf s.
Proof.
  intros Hb. destruct (hl_hist p h s keys Hb) as (Hp & Ep & Eh & Es).
  split; rewrite Ep; [done|]. rewrite Es. apply canon_ok; [done|apply hashes_ok].
Qed.

Lemma pair_ab_wf : wf pair_ab.
Proof. exact (hl_built_wf _ _ _ _ pair_ab_hist). Qed.

Lemma hll_snapshot_round_trip_witness :
  from_snapshot (to_snapshot pair_ab 0 60) = Ok pair_ab.
Proof.
  apply (hll_snapshot_round_trip pair_ab 0 60); [apply pair_ab_wf|split|..]; by range_tac.
Defined.

(** The estimator's array accesses stay in range. *)
Lemma register_counts_ok rs :
  Forall (λ x, 0 <= x < 66) rs →
  ∃ counts, register_counts rs = Ok counts ∧ zlen counts = 66.
Proof.
  intros Hr. unfold register_counts.
  destruct (foldM_inv (E := SketchError) (λ _ c, zlen c = 66)
    (λ counts r, c ← vec_get counts r; vec_set counts r (c +ʷ 1))
    (replicate 66 0) rs) as (c & Hf & Hc); [done| |eauto].
  intros ds x rest a Hsplit Ha. rewrite Hsplit in Hr.
  apply Forall_app in Hr as [_ [Hx _]%Forall_cons].
  destruct (vec_get_ok (E := SketchError) a x) as (v & Hv & _); [lia|].
  rewrite Hv. ostep. rewrite vec_set_ok by lia. eexists. split; [done|].
  unfold zlen. by rewrite length_insert.
Qed.

Lemma rank_sum_ok counts q d :
  zlen counts = 66 → 0 <= q < 66 → ∃ d', rank_sum counts q d = Ok d'.
Proof.
  intros Hc Hq. unfold rank_sum.
  destruct (foldM_inv (E := SketchError) (λ _ _, True)
    (λ d rank, c ← vec_get (E := SketchError) counts rank;
               Ok (f_mul (f_lit 1 2) (f_add d (f64_of_Z c))))
    d (reverse (seqZ 1 q))) as (d' & Hf & _); [done| |eauto].
  intros ds x rest a Hsplit _. assert (x ∈ seqZ 1 q) as Hx.
  { rewrite <- elem_of_reverse, Hsplit. set_solver. }
  apply elem_of_seqZ in Hx.
  destruct (vec_get_ok (E := SketchError) counts x) as (v & Hv & _); [lia|].
  rewrite Hv. ostep. eauto.
Qed.

Lemma cardinality_no_panic fuel s : wf s → ∃ o, cardinality fuel s = Ok o.
Proof.
  intros [Hp Hok]. unfold cardinality. pose proof (precision_range _ Hp).
  destruct (hl_storage s) as [|h|u|r]; [eauto..|]. destruct Hok as [Hl Hr].
  destruct (register_counts_ok r) as (c & -> & Hc).
  { eapply Forall_impl; [exact Hr|]. cbn. lia. }
  ostep. destruct (vec_get_ok (E := SketchError) c (64 - hl_precision s + 1)) as (v & -> & _);
    [lia|]. ostep.
  destruct (vec_get_ok (E := SketchError) c 0) as (z & -> & _); [lia|]. ostep.
  destruct (ertl_tau _ _) as [tau|]; [|eauto]. destruct (ertl_sigma _ _) as [sg|]; [|eauto].
  destruct (rank_sum_ok c (64 - hl_precision s)
    (f_mul (f64_of_Z (zlen r)) tau) Hc) as (d & ->); [lia|]. ostep. eauto.
Qed.

Lemma hl_from_snapshot_no_panic b : bytes_ok b → no_panic (from_snapshot b).
Proof.
  intros Hb. unfold from_snapshot. apply bind_no_panic; [by apply parse_no_panic|]. intros [[hd ps] pl] Hr.
  destruct (accepted_parts _ _ _ _ Hb Hr) as (_ & Hps & Hpl & _).
  apply bind_no_panic; [auto with outcome|]. intros _ _.
  change Reader_new with (rd []).
  apply bind_no_panic; [auto with outcome|]. intros [p r1] Hp.
  apply bind_no_panic; [auto with outcome|]. intros [] _.
  apply bind_no_panic; [auto with outcome|]. intros [u r2] Hu.
  apply r_u64_inv in Hu as (s1 & -> & Hs1 & -> & _); [|done].
  apply bind_no_panic; [|intros [st r3] _; no_panic_tac].
  unfold r_storage. apply bind_no_panic; [auto with outcome|]. intros [en r4] He.
  apply r_u8_inv in He as (s2 & -> & Hs2 & -> & _); [|done]. case_match.
  + apply bind_no_panic; [auto with outcome|]. intros [n r5] Hn.
    apply r_u32_inv in Hn as (s3 & -> & Hs3 & -> & _); [|done].
    apply bind_no_panic; [auto with outcome|]. intros _ _.
    apply bind_no_panic; [auto with outcome|]. intros _ _.
    apply bind_no_panic; [by apply read_sorted_no_panic|]. by intros [hs r6] _.
  + case_match; [|done]. apply bind_no_panic; [auto with outcome|]. intros [rs r5] _.
    apply bind_no_panic; [auto with outcome|]. done.
Qed.

Lemma hl_from_snapshot_wf b s : bytes_ok b → from_snapshot b = Ok s → wf s.
Proof.
  intros Hb H. unfold from_snapshot in H. apply bind_ok in H as ([[hd ps] pl] & Hr & H).
  destruct (accepted_parts _ _ _ _ Hb Hr) as (_ & Hps & Hpl & _).
  apply bind_ok in H as ([] & _ & H). change Reader_new with (rd []) in H.
  apply bind_ok in H as ([p r1] & _ & H).
  apply bind_ok in H as ([] & Hp%fail_if_ok%negb_false_iff & H).
  apply bind_ok in H as ([u r2] & Hu & H).
  apply r_u64_inv in Hu as (s1 & -> & Hs1 & -> & _); [|done].
  apply bind_ok in H as ([st r3] & Hst & H). apply bind_ok in H as ([] & _ & H).
  injection H as <-. split; cbn [hl_precision hl_storage]; [done|].
  unfold r_storage in Hst. apply bind_ok in Hst as ([en r4] & He & Hst).
  apply r_u8_inv in He as (s2 & -> & Hs2 & -> & _); [|done]. case_match.
  + apply bind_ok in Hst as ([n r5] & Hn & Hst).
    apply r_u32_inv in Hn as (s3 & -> & Hs3 & -> & Hn); [|done].
    apply bind_ok in Hst as ([] & Hlim%fail_if_ok%Z.ltb_ge & Hst).
    apply bind_ok in Hst as ([] & _ & Hst). apply bind_ok in Hst as ([hs r6] & Hhs & Hst).
    injection Hst as <- _.
    apply read_sorted_inv in Hhs as (Hs & Hu64 & Hl & _); [|done|constructor|constructor].
    cbn in Hl. destruct hs as [|x [|y hs]]; cbn; [done|by apply Forall_inv in Hu64|].
    split_and!; try done; unfold zlen; cbn in *; word_lia.
  + case_match; [|done]. apply bind_ok in Hst as ([rs r5] & Ht & Hst).
    apply bind_ok in Hst as ([] & Hex%fail_if_ok & Hst). injection Hst as <- _.
    pose proof (precision_range p Hp). apply r_take_inv in Ht as (s4 & -> & Hl & _).
    * split; [done|]. apply Forall_app in Hs2 as [Hrs _]. apply Forall_forall. intros x Hx.
      rewrite Forall_forall in Hrs. specialize (Hrs x Hx).
      destruct (Z.le_gt_cases x (65 - p)); [word_lia|exfalso].
      apply not_true_iff_false in Hex. apply Hex, existsb_exists.
      exists x. split; [by apply list_elem_of_In|apply Z.ltb_lt; lia].
    * rewrite Z.shiftl_1_l. apply Z.pow_nonneg. lia.
Qed.

(** Restoring an untrusted HyperLogLog snapshot is safe: it never panics, and an
    accepted sketch has an admissible precision, strictly sorted hashes within
    the sparse limit or registers within their range, so that the estimator's
    array accesses are in bounds; a register out of range, unsorted hashes or
    trailing payload bytes are errors. *)
Lemma hll_from_snapshot_safe b :
  bytes_ok b →
  no_panic (from_snapshot b) ∧
  ∀ s, from_snapshot b = Ok s → wf s ∧ ∀ fuel, no_panic (cardinality fuel s).
Proof.
  intros Hb. split; [by apply hl_from_snapshot_no_panic|]. intros s H.
  pose proof (hl_from_snapshot_wf b s Hb H) as Hwf. split; [done|]. intros fuel.
  destruct (cardinality_no_panic fuel s Hwf) as [o ->]. done.
Qed.

Lemma hll_from_snapshot_safe_witness :
  no_panic (from_snapshot (to_snapshot pair_ab 0 60)).
Proof.
  destruct (hll_from_snapshot_safe (to_snapshot pair_ab 0 60)) as [H _]; [|exact H].
  apply (bool_decide_unpack _). vm_compute. exact I.
Defined.

(** ** The sketch interface

    The invariant every operation keeps, [reset] included, which leaves an
    allocated but empty sparse vector behind. *)
Definition storage_valid (p : Z) (st : RegisterStorage) : Prop :=
  match st with
  | Empty => True
  | Singleton h => u64_ok h
  | Sparse u => Forall u64_ok u ∧ zlen u <= sparse_limit p
  | Dense r => zlen r = Z.shiftl 1 p ∧ Forall (λ x, 0 <= x <= 65 - p) r
  end.
Record valid (s : HyperLogLog) : Prop := {
  va_precision : precision_ok (hl_precision s) = true;
  va_storage : storage_valid (hl_precision s) (hl_storage s);
}.

Lemma wf_valid s : wf s → valid s.
Proof. intros [Hp Hs]. split; [done|]. destruct (hl_storage s); cbn in *; naive_solver. Qed.

Lemma update_register_valid p r h :
  precision_ok p = true → u64_ok h → storage_valid p (Dense r) →
  ∃ r', update_register r p h = Ok r' ∧ storage_valid p (Dense r').
Proof.
  intros Hp Hh [Hl Hr]. pose proof (reg_index_range p h Hp Hh). pose proof (rho_range p h Hp).
  unfold update_register.
  destruct (vec_get_ok (E := SketchError) r (reg_index p h)) as (x & Hx & _); [lia|].
  rewrite Hx. ostep. case_match; [|by exists r]. rewrite vec_set_ok by lia.
  eexists. split; [done|]. split; [unfold zlen in *; by rewrite length_insert|].
  apply Forall_insert; [done|lia].
Qed.

Lemma update_all_valid p r hs :
  precision_ok p = true → Forall u64_ok hs → storage_valid p (Dense r) →
  ∃ r', update_all p r hs = Ok r' ∧ storage_valid p (Dense r').
Proof.
  intros Hp Hh Hr.
  destruct (foldM_inv (E := SketchError) (λ _ r, storage_valid p (Dense r))
    (λ r h, update_register r p h) r hs) as (r' & Hf & Hr'); [done| |eauto].
  intros ds h rest a -> Ha. apply update_register_valid; try done.
  apply Forall_app in Hh as [_ [Hh _]%Forall_cons]. done.
Qed.

Lemma ensure_dense_valid p st :
  precision_ok p = true → storage_valid p st →
  ∃ r, ensure_dense p st = Ok r ∧ storage_valid p (Dense r).
Proof.
  intros Hp Hst. pose proof (precision_range p Hp).
  assert (storage_valid p (Dense (zero_registers p))) as Hz.
  { split.
    - unfold zlen, zero_registers. rewrite length_replicate, Z2Nat.id; [done|].
      rewrite Z.shiftl_1_l. apply Z.pow_nonneg. lia.
    - apply Forall_replicate. lia. }
  destruct st; cbn [ensure_dense]; [by apply update_all_valid| | |by exists registers];
    apply update_all_valid; try done; [by apply Forall_singleton|apply Hst].
Qed.

Lemma insert_hash_valid p st h :
  precision_ok p = true → u64_ok h → storage_valid p st →
  ∃ st', insert_hash p st h = Ok st' ∧ storage_valid p st'.
Proof.
  intros Hp Hh Hst.
  destruct (ensure_dense_valid p st Hp Hst) as (r & Hr & Hrv).
  destruct (update_register_valid p r h Hp Hh Hrv) as (r' & Hr' & Hrv').
  assert (∃ st', (registers ← ensure_dense p st; registers ← update_register registers p h;
                  Ok (Dense registers)) = Ok st' ∧ storage_valid p st') as Hd.
  { rewrite Hr. ostep. rewrite Hr'. ostep. by eexists. }
  unfold insert_hash. cbv zeta. destruct st as [|x|u|r0].
  - by eexists.
  - case_match; [by eexists|]. case_match eqn:El; [|exact Hd]. apply Z.ltb_lt in El.
    eexists. split; [done|]. split.
    + apply Forall_forall. intros y Hy.
      apply (proj1 (elem_of_sort_by Z.compare _ _)) in Hy. apply elem_of_cons in Hy as [->| ->%list_elem_of_singleton]; done.
    + unfold zlen. rewrite length_sort_unstable. cbn. lia.
  - unfold binary_search. case_decide; [by eexists|]. case_match eqn:El; [|exact Hd].
    apply Z.ltb_lt in El. eexists. split; [done|]. destruct Hst as [Hu Hl]. cbn. unfold insert_at. split.
    + apply Forall_app. split; [by apply Forall_take|]. constructor; [done|by apply Forall_drop].
    + rewrite zlen_app, zlen_cons. pose proof (zlen_app (take (length (filter (λ x, x < h) u)) u)
        (drop (length (filter (λ x, x < h) u)) u)) as Hz. rewrite take_drop in Hz. lia.
  - cbn in Hr. injection Hr as <-. rewrite Hr'. ostep. by eexists.
Qed.

Lemma zip_max_valid p mine theirs :
  storage_valid p (Dense mine) → storage_valid p (Dense theirs) →
  storage_valid p (Dense (zip_max mine theirs)).
Proof.
  intros [Hl Hm] [_ Ht]. split.
  - rewrite <- Hl. unfold zlen. f_equal. clear. revert theirs.
    induction mine as [|a m IH]; intros [|b t]; cbn; try done. by rewrite IH.
  - clear Hl. revert theirs Ht. induction Hm as [|a m Ha Hm IH]; intros [|b t] Ht;
      cbn [zip_max]; try by constructor.
    apply Forall_cons in Ht as [Hb Ht]. constructor; [by case_match|by apply IH].
Qed.

Lemma merge_storage_valid p st other :
  precision_ok p = true → storage_valid p st → storage_valid p other →
  ∃ st', merge_storage p st other = Ok st' ∧ storage_valid p st'.
Proof.
  intros Hp Hst Ho. destruct other as [|h|u|r]; cbn [merge_storage].
  - by eexists.
  - by apply insert_hash_valid.
  - destruct Ho as [Hu _].
    destruct (foldM_inv (E := SketchError) (λ _ st, storage_valid p st)
      (insert_hash p) st u) as (st' & Hf & Hst'); [done| |eauto].
    intros ds h rest a -> Ha. apply insert_hash_valid; try done.
    apply Forall_app in Hu as [_ [Hu _]%Forall_cons]. done.
  - destruct (ensure_dense_valid p st Hp Hst) as (m & -> & Hm). ostep.
    eexists. split; [done|]. by apply zip_max_valid.
Qed.

(** The parameter hash tells the fifteen precisions apart. *)
Lemma params_hash_inj p q :
  precision_ok p = true → precision_ok q = true → hash64 [p] 0 = hash64 [q] 0 → p = q.
Proof.
  intros Hp%precision_range Hq%precision_range.
  assert (Forall (λ p, Forall (λ q, hash64 [p] 0 = hash64 [q] 0 → p = q) (seqZ 4 15)) (seqZ 4 15))
    as H by (apply (bool_decide_unpack _); vm_compute; exact I).
  rewrite Forall_forall in H. specialize (H p ltac:(apply elem_of_seqZ; lia)).
  rewrite Forall_forall in H. apply H, elem_of_seqZ. lia.
Qed.

Lemma hl_compatible s t :
  valid s → valid t → compatibility s = compatibility t →
  hl_precision s = hl_precision t ∧ hl_hash s = hl_hash t.
Proof.
  intros Hs Ht Hc. split; [|exact (f_equal sc_hash Hc)].
  apply params_hash_inj; [apply Hs|apply Ht|exact (f_equal sc_params_hash Hc)].
Qed.

Lemma hl_insert_valid s key :
  valid s → ∃ s', insert s key = Ok s' ∧ valid s' ∧ hl_precision s' = hl_precision s ∧
    hl_hash s' = hl_hash s ∧ hl_updates s' = hl_updates s +ʷ 1.
Proof.
  intros [Hp Hs]. unfold insert.
  destruct (insert_hash_valid _ _ (hash64 key (seed (hl_hash s))) Hp (hash64_u64 _ _) Hs)
    as (st & -> & Hst). ostep. eexists. split; [done|]. by split_and!.
Qed.

Lemma hl_merge_valid s t :
  valid s → valid t → compatibility s = compatibility t →
  ∃ s', merge_from s t = Ok s' ∧ valid s' ∧ hl_precision s' = hl_precision s ∧
    hl_hash s' = hl_hash s ∧ hl_updates s' = hl_updates s +ʷ hl_updates t.
Proof.
  intros Hs Ht Hc. destruct (hl_compatible s t Hs Ht Hc) as [Ep _]. unfold merge_from.
  rewrite (proj2 (ensure_matches_ok _ _) Hc). clear Hc. ostep. destruct Hs as [Hp Hs], Ht as [_ Ht].
  rewrite <- Ep in Ht. destruct (merge_storage_valid _ _ _ Hp Hs Ht) as (st & -> & Hst). ostep.
  eexists. split; [done|]. by split_and!.
Qed.

#[export] Instance Hll_Lawful : LawfulSketch HyperLogLog (λ s, valid s).
Proof.
  split; cbn [sk_update sk_merge_from sk_reset sk_update_count sk_compatibility Hll_Sketch].
  - intros s k v Hs _. destruct (hl_insert_valid s k Hs) as (s' & Hu & Hv & Hp & Hh & Hn).
    exists s'. split_and!; try done. by apply hl_compatibility_same.
  - intros s t Hs Ht Hc. destruct (hl_merge_valid s t Hs Ht Hc) as (s' & Hu & Hv & Hp & Hh & Hn).
    clear Hc. exists s'. split_and!; try done. by apply hl_compatibility_same.
  - intros s t Hne. unfold merge_from, ensure_matches. by rewrite decide_True.
  - intros s [Hp Hs]. split; [|split; [done|by apply hl_compatibility_same]].
    split; [done|]. cbn. destruct (hl_storage s) as [|h|u|r]; cbn; try done.
    + split; [constructor|]. pose proof (sparse_limit_pos (hl_precision s)). rewrite zlen_nil. lia.
    + destruct Hs as [Hl _]. split; [unfold zlen in *; by rewrite length_replicate|].
      apply Forall_replicate. pose proof (precision_range _ Hp). lia.
Qed.

Lemma cardinality_valid fuel s : valid s → ∃ o, cardinality fuel s = Ok o.
Proof.
  intros [Hp Hs]. destruct (hl_storage s) as [|h|u|r] eqn:E;
    try (unfold cardinality; rewrite E; by eexists).
  apply cardinality_no_panic. split; [done|]. by rewrite E.
Qed.
