(* ===== verification/HllMap.v ===== *)
(** * HLLMap: bounded keyed cardinality  (crates/flowsketch-algos/src/hll_map.rs)

    A map from group keys to HyperLogLog sketches with at most [max_keys]
    entries; a full map evicts the key with the smallest cached estimate, found
    through a heap of candidates that is refreshed lazily.

    The estimator's correction loops compare floats for a fixed point, so every
    operation that estimates takes their fuel; running out of it is [Panic].

    Proved: the heap holds exactly one candidate per tracked key, so eviction
    ends after at most one refresh per key and removes a key whose estimate is
    minimal among the cached ones; the map never exceeds its bound; untrusted
    snapshots are restored within it. *)
From S2P Require Import Prelude Bytes Maps Hash Sketch Snapshot F64.
From S2P Require Hll.

Definition ALGORITHM : string := "hllmap".

Record Slot := mkSlot {
  sl_hll : Hll.HyperLogLog;
  sl_cached_cardinality : f64;
  sl_dirty : bool;
}.

Record EvictionCandidate := mkCand {
  ec_cardinality : f64;
  ec_key : bytes;
}.

(** [Ord for EvictionCandidate]: the reverse of (cardinality, key). *)
Definition cand_cmp (a b : EvictionCandidate) : comparison :=
  then_with (f_total_cmp (ec_cardinality b) (ec_cardinality a))
    (bytes_cmp (ec_key b) (ec_key a)).

(** The binary heap of the standard library: [push] adds an element, [pop]
    removes a greatest one. *)
Definition push (heap : list EvictionCandidate) (c : EvictionCandidate)
    : list EvictionCandidate := c :: heap.
Fixpoint pop (heap : list EvictionCandidate)
    : option (EvictionCandidate * list EvictionCandidate) :=
  match heap with
  | [] => None
  | c :: heap =>
      match pop heap with
      | Some (m, rest) =>
          match cand_cmp c m with Lt => Some (m, c :: rest) | _ => Some (c, heap) end
      | None => Some (c, [])
      end
  end.

Record HllMap := mkHllMap {
  hm_max_keys : Z;
  hm_precision : Z;
  hm_hash : HashSpec;
  hm_map : gmap bytes Slot;
  hm_eviction : list EvictionCandidate;
  hm_evicted_keys : Z;
  hm_updates : Z;
}.

Definition with_map (s : HllMap) (map : gmap bytes Slot) (eviction : list EvictionCandidate)
    : HllMap :=
  {| hm_max_keys := hm_max_keys s; hm_precision := hm_precision s; hm_hash := hm_hash s;
     hm_map := map; hm_eviction := eviction; hm_evicted_keys := hm_evicted_keys s;
     hm_updates := hm_updates s |}.
Definition with_counts (s : HllMap) (evicted_keys updates : Z) : HllMap :=
  {| hm_max_keys := hm_max_keys s; hm_precision := hm_precision s; hm_hash := hm_hash s;
     hm_map := hm_map s; hm_eviction := hm_eviction s; hm_evicted_keys := evicted_keys;
     hm_updates := updates |}.

Definition new (max_keys precision : Z) (hash : HashSpec) : res HllMap :=
  _ ← fail_if (max_keys =? 0) (InvalidParam "hllmap max_keys must be positive");
  _ ← Hll.new precision hash;
  Ok {| hm_max_keys := max_keys; hm_precision := precision; hm_hash := hash;
        hm_map := ∅; hm_eviction := []; hm_evicted_keys := 0; hm_updates := 0 |}.

Definition len (s : HllMap) : Z := Z.of_nat (size (hm_map s)).
Definition relative_error (s : HllMap) : f64 :=
  f_div (f_lit 104 100) (f_sqrt (f64_of_Z (Z.shiftl 1 (hm_precision s)))).

(** [hll.cardinality()] *)
Definition card (fuel : nat) (hll : Hll.HyperLogLog) : res f64 :=
  o ← Hll.cardinality fuel hll; expect o.

(** [loop { pop a candidate; drop a stale one; refresh a dirty one; or evict it }];
    [None] means that the fuel [n] ran out. *)
Fixpoint evict_loop (fuel n : nat) (s : HllMap) : option (res HllMap) :=
  match n with
  | O => None
  | S n =>
      match pop (hm_eviction s) with
      | None => Some Panic
      | Some (candidate, eviction) =>
          match hm_map s !! ec_key candidate with
          | None => evict_loop fuel n (with_map s (hm_map s) eviction)
          | Some slot =>
              if sl_dirty slot ||
                 negb (bool_decide (f_total_cmp (sl_cached_cardinality slot)
                                      (ec_cardinality candidate) = Eq))
              then
                match card fuel (sl_hll slot) with
                | Ok c =>
                    evict_loop fuel n
                      (with_map s
                         (<[ec_key candidate := mkSlot (sl_hll slot) c false]> (hm_map s))
                         (push eviction (mkCand c (ec_key candidate))))
                | Err e => Some (Err e)
                | Panic => Some Panic
                end
              else
                Some (Ok (with_counts
                  (with_map s (delete (ec_key candidate) (hm_map s)) eviction)
                  (hm_evicted_keys s +ʷ 1) (hm_updates s)))
          end
      end
  end.

(** A candidate per key and a refresh per key: this fuel is never used up. *)
Definition evict_smallest (fuel : nat) (s : HllMap) : res HllMap :=
  default Panic (evict_loop fuel (S (length (hm_eviction s) + size (hm_map s))) s).

Definition insert (fuel : nat) (s : HllMap) (key item : bytes) : res HllMap :=
  let s := with_counts s (hm_evicted_keys s) (hm_updates s +ʷ 1) in
  match hm_map s !! key with
  | Some slot =>
      hll ← Hll.insert (sl_hll slot) item;
      Ok (with_map s (<[key := mkSlot hll (sl_cached_cardinality slot) true]> (hm_map s))
            (hm_eviction s))
  | None =>
      s ← (if hm_max_keys s <=? len s then evict_smallest fuel s else Ok s);
      hll ← (match Hll.new (hm_precision s) (hm_hash s) with Ok h => Ok h | _ => Panic end);
      hll ← Hll.insert hll item;
      Ok (with_map s (<[key := mkSlot hll f_one false]> (hm_map s))
            (push (hm_eviction s) (mkCand f_one key)))
  end.

Definition update (fuel : nat) (s : HllMap) (key : bytes) (value : Z) : res HllMap :=
  insert fuel s key key.

(** [None]: the key is not tracked. *)
Definition cardinality (fuel : nat) (s : HllMap) (key : bytes) : res (option f64) :=
  match hm_map s !! key with
  | None => Ok None
  | Some slot => c ← card fuel (sl_hll slot); Ok (Some c)
  end.

Definition estimate (fuel : nat) (s : HllMap) (key : bytes) : res f64 :=
  c ← cardinality fuel s key; Ok (default f_zero c).

(** [f(acc, k, slot)?] over the map in some order. *)
Definition map_foldM {A B} (f : A → bytes → B → res A) (a : A) (m : gmap bytes B) : res A :=
  foldM (λ a p, f a p.1 p.2) a (map_to_list m).

(** All tracked keys with their estimates, in descending order. *)
Definition entry_cmp (a b : bytes * f64) : comparison :=
  then_with (f_partial_cmp_or_eq b.2 a.2) (bytes_cmp a.1 b.1).
Definition entries (fuel : nat) (s : HllMap) : res (list (bytes * f64)) :=
  all ← map_foldM (λ all k slot, c ← card fuel (sl_hll slot); Ok (all ++ [(k, c)]))
          [] (hm_map s);
  Ok (sort_by entry_cmp all).

Definition rebuild_step (fuel : nat) (acc : gmap bytes Slot * list EvictionCandidate)
    (key : bytes) (slot : Slot) : res (gmap bytes Slot * list EvictionCandidate) :=
  c ← card fuel (sl_hll slot);
  Ok (<[key := mkSlot (sl_hll slot) c false]> acc.1, push acc.2 (mkCand c key)).
Definition rebuild_eviction_heap (fuel : nat) (s : HllMap) : res HllMap :=
  '(m, heap) ← map_foldM (rebuild_step fuel) (hm_map s, []) (hm_map s);
  Ok (with_map s m heap).

Definition params_hash (s : HllMap) : Z :=
  hash64 (w_u8 (w_u64 Writer_new (hm_max_keys s)) (hm_precision s)) 0.
Definition compatibility (s : HllMap) : SketchCompatibility :=
  {| sc_algorithm := ALGORITHM; sc_version := 1; sc_hash := hm_hash s;
     sc_params_hash := params_hash s |}.

Definition merge_slot (mine : gmap bytes Slot) (k : bytes) (theirs : Slot)
    : res (gmap bytes Slot) :=
  match mine !! k with
  | Some slot =>
      hll ← Hll.merge_from (sl_hll slot) (sl_hll theirs);
      Ok (<[k := mkSlot hll (sl_cached_cardinality slot) true]> mine)
  | None => Ok (<[k := theirs]> mine)
  end.

(** [while self.map.len() > self.max_keys { self.evict_smallest() }] *)
Fixpoint trim_loop (fuel n : nat) (s : HllMap) : option (res HllMap) :=
  if hm_max_keys s <? len s then
    match n with
    | O => None
    | S n =>
        match evict_smallest fuel s with
        | Ok s => trim_loop fuel n s
        | Err e => Some (Err e)
        | Panic => Some Panic
        end
    end
  else Some (Ok s).

Definition merge_from (fuel : nat) (s other : HllMap) : res HllMap :=
  _ ← ensure_matches (compatibility s) (compatibility other);
  m ← map_foldM merge_slot (hm_map s) (hm_map other);
  s ← rebuild_eviction_heap fuel (with_map s m (hm_eviction s));
  s ← default Panic (trim_loop fuel (size (hm_map s)) s);
  Ok (with_counts s (hm_evicted_keys s +ʷ hm_evicted_keys other)
        (hm_updates s +ʷ hm_updates other)).

Definition reset (s : HllMap) : HllMap := with_counts (with_map s ∅ []) 0 0.

(** The allocator's capacities and the two struct sizes are parameters. *)
Definition memory_bytes (hll_size : Hll.HyperLogLog → Z) (heap_capacity entry_size self_size : Z)
    (s : HllMap) : Z :=
  let inner := foldl (λ acc p, acc +ʷ (zlen p.1 +ʷ hll_size (sl_hll p.2) +ʷ 48)) 0
                 (map_to_list (hm_map s)) in
  let heap_keys := foldl (λ acc c, acc +ʷ zlen (ec_key c)) 0 (hm_eviction s) in
  inner +ʷ heap_keys +ʷ heap_capacity *ʷ entry_size +ʷ self_size.

(** ** Snapshots *)

Definition w_entry (ws we : Z) (payload : Writer) (p : bytes * Slot) : Writer :=
  w_lp_bytes (w_lp_bytes payload p.1) (Hll.to_snapshot (sl_hll p.2) ws we).

Definition to_snapshot (s : HllMap) (window_start_nanos window_end_nanos : Z) : bytes :=
  let params := w_u8 (w_u64 Writer_new (hm_max_keys s)) (hm_precision s) in
  let payload := w_u64 (w_u64 Writer_new (hm_updates s)) (hm_evicted_keys s) in
  let payload := w_u32 payload (as_u32 (len s)) in
  let payload := foldl (w_entry window_start_nanos window_end_nanos) payload
                   (sorted_entries (hm_map s)) in
  write_snapshot
    {| sh_version := SNAPSHOT_VERSION; sh_algorithm_id := HLL_MAP; sh_hash := hm_hash s;
       sh_window_start_nanos := window_start_nanos;
       sh_window_end_nanos := window_end_nanos |} params payload.

Definition r_entry (fuel : nat) (precision : Z) (hash : HashSpec) (r : Reader)
    : res ((bytes * Slot) * Reader) :=
  '(key, r) ← r_lp_bytes r;
  '(inner, r) ← r_lp_bytes r;
  hll ← Hll.from_snapshot inner;
  _ ← fail_if (negb (Hll.hl_precision hll =? precision))
        (SnapshotError "hllmap inner hll precision does not match outer precision");
  _ ← fail_if (negb (bool_decide (sc_hash (Hll.compatibility hll) = hash)))
        (SnapshotError "hllmap inner hll hash does not match outer hash");
  c ← card fuel hll;
  Ok ((key, mkSlot hll c false), r).

Definition from_snapshot (fuel : nat) (b : bytes) : res HllMap :=
  '(header, params, payload) ← read_snapshot b;
  _ ← fail_if (negb (sh_algorithm_id header =? HLL_MAP)) (SnapshotError "not an hllmap snapshot");
  let p := Reader_new params in
  '(max_keys, p) ← r_u64 p;
  '(precision, p) ← r_u8 p;
  _ ← fail_if (max_keys =? 0) (SnapshotError "hllmap snapshot max_keys must be positive");
  _ ← fail_if (negb (Hll.precision_ok precision))
        (SnapshotError "hllmap snapshot precision must be in [4, 18]");
  let r := Reader_new payload in
  '(updates, r) ← r_u64 r;
  '(evicted_keys, r) ← r_u64 r;
  '(n, r) ← r_u32 r;
  _ ← fail_if (max_keys <? n) (SnapshotError "hllmap snapshot entry count exceeds max_keys");
  _ ← check_count r n (4 + 4);
  '(slots, r) ← read_n (Z.to_nat n) (r_entry fuel precision (sh_hash header)) r;
  rebuild_eviction_heap fuel
    {| hm_max_keys := max_keys; hm_precision := precision; hm_hash := sh_hash header;
       hm_map := insert_all slots; hm_eviction := []; hm_evicted_keys := evicted_keys;
       hm_updates := updates |}.

(** ** The heap *)

#[export] Instance cand_cmp_ord : CmpOrd cand_cmp.
Proof.
  apply (cmp_then (λ a b, f_total_cmp (ec_cardinality b) (ec_cardinality a))
    (λ a b, bytes_cmp (ec_key b) (ec_key a))).
  - apply (cmp_flip (λ a b, f_total_cmp (ec_cardinality a) (ec_cardinality b))).
    apply (cmp_on ec_cardinality f_total_cmp).
  - apply (cmp_flip (λ a b, bytes_cmp (ec_key a) (ec_key b))). apply (cmp_on ec_key bytes_cmp).
Qed.

Lemma pop_None h : pop h = None ↔ h = [].
Proof.
  split; [|by intros ->]. destruct h as [|c h]; [done|]. cbn.
  destruct (pop h) as [[m r]|]; [by destruct (cand_cmp c m)|done].
Qed.

Lemma pop_spec h m rest :
  pop h = Some (m, rest) → h ≡ₚ m :: rest ∧ ∀ c, c ∈ h → cand_cmp c m ≠ Gt.
Proof.
  revert m rest. induction h as [|c h IH]; intros m rest H; [done|]. cbn in H.
  destruct (pop h) as [[m' r']|] eqn:E.
  - destruct (IH m' r' eq_refl) as [Hp Hm]. destruct (cand_cmp c m') eqn:Ec; injection H as <- <-.
    + split; [done|]. intros x [->|Hx]%elem_of_cons; [by rewrite (cmp_refl cand_cmp)|].
      eapply (cmp_le_trans cand_cmp); [by apply Hm|]. by rewrite (cmp_opp cand_cmp c m'), Ec.
    + split; [rewrite Hp; apply perm_swap|].
      intros x [->|Hx]%elem_of_cons; [by rewrite Ec|by apply Hm].
    + split; [done|]. intros x [->|Hx]%elem_of_cons; [by rewrite (cmp_refl cand_cmp)|].
      eapply (cmp_le_trans cand_cmp); [by apply Hm|]. by rewrite (cmp_opp cand_cmp c m'), Ec.
  - apply pop_None in E as ->. injection H as <- <-. split; [done|].
    intros x ->%list_elem_of_singleton. by rewrite (cmp_refl cand_cmp).
Qed.

(** A popped candidate's estimate is minimal. *)
Lemma cand_cmp_le a b : cand_cmp a b ≠ Gt → f_total_cmp (ec_cardinality b) (ec_cardinality a) ≠ Gt.
Proof. unfold cand_cmp. by destruct (f_total_cmp _ _). Qed.

(** ** The invariant *)

(** The estimator's loops converge on every tracked sketch. *)
Definition estimable (fuel : nat) (m : gmap bytes Slot) : Prop :=
  ∀ k sl, m !! k = Some sl → ∃ c, card fuel (sl_hll sl) = Ok c.

Definition slot_ok (precision : Z) (hash : HashSpec) (sl : Slot) : Prop :=
  Hll.valid (sl_hll sl) ∧ Hll.hl_precision (sl_hll sl) = precision ∧
  Hll.hl_hash (sl_hll sl) = hash.

(** One candidate per tracked key, and it holds the cached estimate. *)
Record heap_ok (m : gmap bytes Slot) (h : list EvictionCandidate) : Prop := {
  ho_nodup : NoDup (ec_key <$> h);
  ho_keys k : k ∈ ec_key <$> h ↔ is_Some (m !! k);
  ho_cached c sl : c ∈ h → m !! ec_key c = Some sl → sl_cached_cardinality sl = ec_cardinality c;
}.
Definition clean_ok (fuel : nat) (m : gmap bytes Slot) : Prop :=
  ∀ k sl, m !! k = Some sl → sl_dirty sl = false →
    card fuel (sl_hll sl) = Ok (sl_cached_cardinality sl).

Record wf (fuel : nat) (s : HllMap) : Prop := {
  wf_max : 0 < hm_max_keys s;
  wf_precision : Hll.precision_ok (hm_precision s) = true;
  wf_slots k sl : hm_map s !! k = Some sl → slot_ok (hm_precision s) (hm_hash s) sl;
  wf_heap : heap_ok (hm_map s) (hm_eviction s);
  wf_clean : clean_ok fuel (hm_map s);
}.

(** The estimator's loops converge on every sketch. *)
Definition converges (fuel : nat) : Prop := ∀ h, Hll.valid h → ∃ c, card fuel h = Ok c.

Lemma converges_estimable (fuel : nat) (m : gmap bytes Slot) p h :
  (∀ k sl, m !! k = Some sl → slot_ok p h sl) → ¬ estimable fuel m → ¬ converges fuel.
Proof. intros Hm He Hc. apply He. intros k sl Hk. apply Hc. by destruct (Hm k sl Hk). Qed.

Definition same_params (s s' : HllMap) : Prop :=
  hm_max_keys s' = hm_max_keys s ∧ hm_precision s' = hm_precision s ∧ hm_hash s' = hm_hash s.

Lemma heap_ok_length m h : heap_ok m h → length h = size m.
Proof.
  intros [Hn Hk _]. rewrite <- (length_fmap ec_key), <- size_dom.
  rewrite <- (size_list_to_set (C := gset bytes)) by done. f_equal. apply set_eq. intros k.
  by rewrite elem_of_list_to_set, elem_of_dom, Hk.
Qed.

(** Replacing the popped candidate of a key by one with its new estimate. *)
Lemma heap_ok_refresh m h c rest sl :
  heap_ok m h → h ≡ₚ c :: rest →
  heap_ok (<[ec_key c := sl]> m)
    (push rest (mkCand (sl_cached_cardinality sl) (ec_key c))).
Proof.
  intros [Hn Hk Hc] Hp. assert (ec_key <$> h ≡ₚ ec_key c :: (ec_key <$> rest)) as Hpk by by rewrite Hp.
  rewrite Hpk in Hn. split; cbn [push fmap list_fmap ec_key].
  - done.
  - intros k. rewrite <- Hpk, Hk. destruct (decide (k = ec_key c)) as [->|].
    + rewrite lookup_insert_eq. rewrite <- Hk, Hpk. split; [eauto|set_solver].
    + by rewrite lookup_insert_ne.
  - apply NoDup_cons in Hn as [Hni _].
    intros x sl' [->|Hx]%elem_of_cons Hl; cbn in *; [by rewrite lookup_insert_eq in Hl; injection Hl as ->|].
    rewrite lookup_insert_ne in Hl.
    + apply Hc; [rewrite Hp; by right|done].
    + intros E. apply Hni. rewrite E. by apply list_elem_of_fmap_2.
Qed.

Lemma heap_ok_evict m h c rest :
  heap_ok m h → h ≡ₚ c :: rest → heap_ok (delete (ec_key c) m) rest.
Proof.
  intros [Hn Hk Hc] Hp. assert (ec_key <$> h ≡ₚ ec_key c :: (ec_key <$> rest)) as Hpk by by rewrite Hp.
  rewrite Hpk in Hn. apply NoDup_cons in Hn as [Hni Hn]. split; [done|..].
  - intros k. destruct (decide (k = ec_key c)) as [->|].
    + rewrite lookup_delete_eq. split; [done|by intros []].
    + rewrite lookup_delete_ne, <- Hk, Hpk by done. set_solver.
  - intros x sl Hx Hl. rewrite lookup_delete_Some in Hl. destruct Hl as [_ Hl].
    apply Hc; [rewrite Hp; by right|done].
Qed.

Lemma heap_ok_push m h k sl :
  heap_ok m h → m !! k = None →
  heap_ok (<[k := sl]> m) (push h (mkCand (sl_cached_cardinality sl) k)).
Proof.
  intros [Hn Hk Hc] Hm. split; cbn [push fmap list_fmap ec_key].
  - apply NoDup_cons. split; [|done]. change (k ∉ ec_key <$> h). rewrite Hk, Hm. by intros [].
  - intros x. change (x ∈ k :: (ec_key <$> h) ↔ is_Some (<[k:=sl]> m !! x)).
    rewrite elem_of_cons, Hk. destruct (decide (x = k)) as [->|].
    + rewrite lookup_insert_eq. naive_solver.
    + rewrite lookup_insert_ne by done. naive_solver.
  - intros x sl' [->|Hx]%elem_of_cons Hl; cbn in *; [by rewrite lookup_insert_eq in Hl; injection Hl as ->|].
    rewrite lookup_insert_ne in Hl; [by apply Hc|]. intros E.
    assert (is_Some (m !! k)) as [? ?]; [|congruence].
    rewrite <- Hk, E. by apply list_elem_of_fmap_2.
Qed.

(** Marking a slot dirty, or changing its sketch, leaves the heap as it is. *)
Lemma heap_ok_touch m h k sl sl' :
  heap_ok m h → m !! k = Some sl → sl_cached_cardinality sl' = sl_cached_cardinality sl →
  heap_ok (<[k := sl']> m) h.
Proof.
  intros [Hn Hk Hc] Hm He. split; [done|..].
  - intros x. rewrite Hk. destruct (decide (x = k)) as [->|].
    + rewrite lookup_insert_eq, Hm. naive_solver.
    + by rewrite lookup_insert_ne.
  - intros x sl2 Hx Hl. destruct (decide (k = ec_key x)) as [->|].
    + rewrite lookup_insert_eq in Hl. injection Hl as <-. rewrite He. by apply Hc.
    + rewrite lookup_insert_ne in Hl by done. by apply Hc.
Qed.

(** ** Eviction *)

Lemma map_size_pos {A} (m : gmap bytes A) k x : m !! k = Some x → (0 < size m)%nat.
Proof.
  intros Hk. destruct (size m) eqn:E; [|lia]. apply map_size_empty_inv in E as ->.
  by rewrite lookup_empty in Hk.
Qed.

Definition dirty_slots (m : gmap bytes Slot) : gmap bytes Slot :=
  filter (λ p, sl_dirty p.2 = true) m.

Lemma dirty_refresh m k sl sl' :
  m !! k = Some sl → sl_dirty sl = true → sl_dirty sl' = false →
  size (dirty_slots m) = S (size (dirty_slots (<[k := sl']> m))).
Proof.
  intros Hk Hd Hd'. unfold dirty_slots. rewrite map_filter_insert_False by (cbn; congruence).
  set (d := filter _ m). assert (d !! k = Some sl) as Hdk by by apply map_lookup_filter_Some.
  rewrite map_filter_delete. fold d. rewrite map_size_delete_Some by eauto.
  pose proof (map_size_pos d k sl Hdk). lia.
Qed.

Record evicted (fuel : nat) (s s' : HllMap) (k : bytes) (c : f64) : Prop := {
  ev_key : ∃ sl, hm_map s !! k = Some sl ∧ card fuel (sl_hll sl) = Ok c;
  ev_gone : hm_map s' !! k = None;
  ev_rest k' : k' ≠ k → sl_hll <$> hm_map s' !! k' = sl_hll <$> hm_map s !! k';
  ev_min k' sl : hm_map s' !! k' = Some sl → f_total_cmp c (sl_cached_cardinality sl) ≠ Gt;
  ev_params : same_params s s';
  ev_counts : hm_evicted_keys s' = hm_evicted_keys s +ʷ 1 ∧ hm_updates s' = hm_updates s;
  ev_size : size (hm_map s) = S (size (hm_map s'));
}.

Lemma wf_evict fuel s c rest :
  wf fuel s → hm_eviction s ≡ₚ c :: rest →
  wf fuel (with_counts (with_map s (delete (ec_key c) (hm_map s)) rest)
    (hm_evicted_keys s +ʷ 1) (hm_updates s)).
Proof.
  intros [Hm Hp Hs Hh Hc] He. split; cbn; try done.
  - intros k sl [_ Hk]%lookup_delete_Some. by eapply Hs.
  - by eapply heap_ok_evict.
  - intros k sl [_ Hk]%lookup_delete_Some. by apply (Hc k).
Qed.

Lemma wf_refresh fuel s c rest sl f :
  wf fuel s → hm_eviction s ≡ₚ c :: rest → hm_map s !! ec_key c = Some sl →
  card fuel (sl_hll sl) = Ok f →
  wf fuel (with_map s (<[ec_key c := mkSlot (sl_hll sl) f false]> (hm_map s))
    (push rest (mkCand f (ec_key c)))).
Proof.
  intros [Hm Hp Hs Hh Hc] He Hk Hf. split; cbn; try done.
  - intros k sl'. rewrite lookup_insert_Some. intros [[<- <-]|[_ Hl]]; [|by eapply Hs].
    apply (Hs _ _ Hk).
  - apply (heap_ok_refresh _ _ _ _ (mkSlot (sl_hll sl) f false) Hh He).
  - intros k sl'. rewrite lookup_insert_Some. intros [[<- <-]|[_ Hl]]; [done|by apply (Hc k)].
Qed.

Lemma estimable_refresh fuel m k sl f :
  estimable fuel m → m !! k = Some sl → estimable fuel (<[k := mkSlot (sl_hll sl) f false]> m).
Proof.
  intros He Hk k' sl'. rewrite lookup_insert_Some. intros [[_ <-]|[_ Hl]]; [exact (He k sl Hk)|exact (He k' sl' Hl)].
Qed.

Lemma card_cases fuel h : Hll.valid h → (∃ c, card fuel h = Ok c) ∨ card fuel h = Panic.
Proof.
  intros Hv. unfold card. destruct (Hll.cardinality_valid fuel h Hv) as [[c|] ->]; [left|by right].
  by exists c.
Qed.

(** Eviction returns, unless an estimator it needs does not converge. *)
Lemma evict_loop_spec fuel n s :
  wf fuel s → hm_map s ≠ ∅ → (size (dirty_slots (hm_map s)) < n)%nat →
  (∃ s' k c, evict_loop fuel n s = Some (Ok s') ∧ wf fuel s' ∧ evicted fuel s s' k c) ∨
  (evict_loop fuel n s = Some Panic ∧ ¬ estimable fuel (hm_map s)).
Proof.
  revert s. induction n as [|n IH]; intros s Hs Hne Hn; [lia|].
  cbn [evict_loop]. pose proof (wf_heap _ _ Hs) as Hh.
  destruct (pop (hm_eviction s)) as [[cand rest]|] eqn:Ep.
  2:{ apply pop_None in Ep. apply heap_ok_length in Hh. rewrite Ep in Hh. symmetry in Hh.
      by apply map_size_empty_inv in Hh. }
  destruct (pop_spec _ _ _ Ep) as [Hp Hmin].
  assert (is_Some (hm_map s !! ec_key cand)) as [sl Hsl].
  { apply (ho_keys _ _ Hh). apply list_elem_of_fmap_2. rewrite Hp. by left. }
  rewrite Hsl. pose proof (ho_cached _ _ Hh cand sl ltac:(rewrite Hp; by left) Hsl) as Hcc.
  rewrite bool_decide_true by (rewrite Hcc; apply (cmp_refl f_total_cmp)).
  rewrite orb_false_r. destruct (sl_dirty sl) eqn:Hd.
  - destruct (card_cases fuel (sl_hll sl)) as [[f Hf]|Hf]; [by apply (wf_slots _ _ Hs _ _ Hsl)| |].
    2:{ rewrite Hf. right. split; [done|]. intros He. destruct (He _ _ Hsl). congruence. }
    rewrite Hf.
    pose proof (wf_refresh fuel s cand rest sl f Hs Hp Hsl Hf) as Hs1.
    set (s1 := with_map s _ _) in *.
    destruct (IH s1 Hs1) as [(s' & k & c & -> & Hs' & [E1 E2 E3 E4 E5 E6 E7])|[-> Hd1]].
    + apply insert_non_empty.
    + change (hm_map s1) with (<[ec_key cand := mkSlot (sl_hll sl) f false]> (hm_map s)).
      pose proof (dirty_refresh _ _ sl (mkSlot (sl_hll sl) f false) Hsl Hd eq_refl). lia.
    + left. exists s', k, c. split; [done|]. split; [done|].
      assert (∀ k', sl_hll <$> hm_map s1 !! k' = sl_hll <$> hm_map s !! k') as Hsame.
      { intros k'. cbn. destruct (decide (k' = ec_key cand)) as [->|].
        - by rewrite lookup_insert_eq, Hsl.
        - by rewrite lookup_insert_ne. }
      split; try done.
      * destruct E1 as (sl' & Hk & Hc). specialize (Hsame k). rewrite Hk in Hsame.
        destruct (hm_map s !! k) as [sl2|]; [|done]. injection Hsame as Hsame.
        exists sl2. by rewrite <- Hsame.
      * intros k' Hk'. by rewrite E3.
      * cbn in E7. rewrite map_size_insert_Some in E7 by done. done.
    + right. split; [done|]. intros He. apply Hd1. by apply estimable_refresh.
  - left. eexists _, (ec_key cand), (sl_cached_cardinality sl). split; [done|].
    split; [by apply wf_evict|]. split; cbn; try done.
    + exists sl. split; [done|]. by apply (wf_clean _ _ Hs (ec_key cand)).
    + apply lookup_delete_eq.
    + intros k' Hk'. by rewrite lookup_delete_ne.
    + intros k' sl' [_ Hk']%lookup_delete_Some.
      assert (k' ∈ ec_key <$> hm_eviction s) as (x & -> & Hx)%list_elem_of_fmap
        by (apply (ho_keys _ _ Hh); eauto).
      rewrite (ho_cached _ _ Hh x sl') by done. rewrite Hcc.
      by apply cand_cmp_le, Hmin.
    + rewrite map_size_delete_Some by eauto. pose proof (map_size_pos _ _ _ Hsl). lia.
Qed.

Lemma evict_spec fuel s :
  wf fuel s → hm_map s ≠ ∅ →
  (∃ s' k c, evict_smallest fuel s = Ok s' ∧ wf fuel s' ∧ evicted fuel s s' k c) ∨
  (evict_smallest fuel s = Panic ∧ ¬ estimable fuel (hm_map s)).
Proof.
  intros Hs Hne. unfold evict_smallest.
  destruct (evict_loop_spec fuel (S (length (hm_eviction s) + size (hm_map s))) s)
    as [(s' & k & c & -> & H)|[-> H]]; try done; [|left; by eauto|by right].
  assert (size (dirty_slots (hm_map s)) <= size (hm_map s))%nat; [|lia].
  apply map_subseteq_size, map_filter_subseteq.
Qed.

(** ** Insertion *)

Definition bounded (s : HllMap) : Prop := len s <= hm_max_keys s.

Lemma same_params_trans s t u : same_params s t → same_params t u → same_params s u.
Proof. unfold same_params. naive_solver congruence. Qed.

Lemma wf_counts fuel s e u : wf fuel s → wf fuel (with_counts s e u).
Proof. by intros []. Qed.

Lemma wf_touch fuel s k sl h :
  wf fuel s → hm_map s !! k = Some sl →
  slot_ok (hm_precision s) (hm_hash s) (mkSlot h (sl_cached_cardinality sl) true) →
  wf fuel (with_map s (<[k := mkSlot h (sl_cached_cardinality sl) true]> (hm_map s))
    (hm_eviction s)).
Proof.
  intros [Hm Hp Hs Hh Hc] Hk Hok. split; cbn; try done.
  - intros k' sl'. rewrite lookup_insert_Some. intros [[_ <-]|[_ Hl]]; [done|by eapply Hs].
  - by eapply heap_ok_touch.
  - intros k' sl'. rewrite lookup_insert_Some. intros [[_ <-]|[_ Hl]]; [done|by apply (Hc k')].
Qed.

Lemma wf_admit fuel s k h c :
  wf fuel s → hm_map s !! k = None → card fuel h = Ok c →
  slot_ok (hm_precision s) (hm_hash s) (mkSlot h c false) →
  wf fuel (with_map s (<[k := mkSlot h c false]> (hm_map s)) (push (hm_eviction s) (mkCand c k))).
Proof.
  intros [Hm Hp Hs Hh Hc] Hk Hcard Hok. split; cbn; try done.
  - intros k' sl'. rewrite lookup_insert_Some. intros [[_ <-]|[_ Hl]]; [done|by eapply Hs].
  - by apply (heap_ok_push _ _ k (mkSlot h c false)).
  - intros k' sl'. rewrite lookup_insert_Some. intros [[_ <-]|[_ Hl]]; [done|by apply (Hc k')].
Qed.

Lemma fresh_hll fuel p hash item :
  Hll.precision_ok p = true →
  ∃ h0 h, Hll.new p hash = Ok h0 ∧ Hll.insert h0 item = Ok h ∧
    card fuel h = Ok f_one ∧ slot_ok p hash (mkSlot h f_one false).
Proof.
  intros Hp. unfold Hll.new. rewrite Hp. eexists _, _. split; [done|]. split; [done|].
  split; [done|]. split; [|done]. split; [done|]. apply hash64_u64.
Qed.

Lemma hm_insert_spec fuel s key item :
  wf fuel s → bounded s →
  (∃ s', insert fuel s key item = Ok s' ∧ wf fuel s' ∧ bounded s' ∧ same_params s s' ∧
     hm_updates s' = hm_updates s +ʷ 1 ∧ is_Some (hm_map s' !! key)) ∨
  (insert fuel s key item = Panic ∧ ¬ estimable fuel (hm_map s)).
Proof.
  intros Hs Hb. unfold insert. set (s0 := with_counts s _ _).
  assert (wf fuel s0) as Hs0 by by apply wf_counts.
  change (hm_map s0) with (hm_map s). change (hm_evicted_keys s0) with (hm_evicted_keys s).
  destruct (hm_map s !! key) as [sl|] eqn:Hk.
  - destruct (wf_slots _ _ Hs key sl Hk) as (Hv & Hp & Hh).
    destruct (Hll.hl_insert_valid _ item Hv) as (h & -> & Hv' & Hp' & Hh' & _). ostep.
    left. eexists. split; [done|].
    split; [apply (wf_touch fuel s0); try done; split; [done|cbn; split; congruence]|].
    split; [|split; [done|split; [done|cbn; rewrite lookup_insert_eq; eauto]]].
    unfold bounded, len in *. cbn. by rewrite map_size_insert_Some.
  - destruct (fresh_hll fuel (hm_precision s) (hm_hash s) item) as (h0 & h & Hn & Hi & Hc & Hok);
      [apply Hs|].
    assert (∀ s1, wf fuel s1 → same_params s0 s1 → hm_updates s1 = hm_updates s0 →
      hm_map s1 !! key = None → Z.of_nat (size (hm_map s1)) < hm_max_keys s →
      (hll ← match Hll.new (hm_precision s1) (hm_hash s1) with Ok h => Ok h | _ => Panic end;
       hll ← Hll.insert hll item;
       Ok (with_map s1 (<[key:=mkSlot hll f_one false]> (hm_map s1))
             (push (hm_eviction s1) (mkCand f_one key)))) =
      Ok (with_map s1 (<[key:=mkSlot h f_one false]> (hm_map s1))
             (push (hm_eviction s1) (mkCand f_one key))) ∧
      wf fuel (with_map s1 (<[key:=mkSlot h f_one false]> (hm_map s1))
             (push (hm_eviction s1) (mkCand f_one key))) ∧
      bounded (with_map s1 (<[key:=mkSlot h f_one false]> (hm_map s1))
             (push (hm_eviction s1) (mkCand f_one key)))) as Hadmit.
    { intros s1 Hs1 (E1 & E2 & E3) _ Hk1 Hlt. cbn in E1, E2, E3. rewrite E2, E3, Hn. ostep.
      rewrite Hi. ostep. split; [done|].
      split; [apply wf_admit; try done; by rewrite E2, E3|].
      unfold bounded, len. cbn. rewrite map_size_insert_None by done. rewrite E1. lia. }
    destruct (Z.leb_spec (hm_max_keys s0) (len s0)) as [Hfull|Hroom].
    + assert (hm_map s0 ≠ ∅) as Hne.
      { intros E. unfold len in Hfull. rewrite E, map_size_empty in Hfull.
        pose proof (wf_max _ _ Hs0). cbn in *. lia. }
      destruct (evict_spec fuel s0 Hs0 Hne) as [(s1 & k & c & -> & Hs1 & [E1 E2 E3 E4 E5 E6 E7])|[-> Hd]];
        [|by right].
      ostep. left. destruct (Hadmit s1 Hs1 E5) as (-> & Hw & Hb1); [apply E6| | |].
      * destruct (decide (key = k)) as [->|Hne']; [done|]. specialize (E3 key Hne').
        change (hm_map s0) with (hm_map s) in E3. rewrite Hk in E3. by destruct (hm_map s1 !! key).
      * unfold bounded, len in *. change (hm_map s0) with (hm_map s) in *. lia.
      * eexists. split; [done|]. split; [done|]. split; [done|]. split; [by eapply same_params_trans|].
        destruct E6 as [_ E6]. split; [done|]. cbn. rewrite lookup_insert_eq. eauto.
    + ostep. left. destruct (Hadmit s0 Hs0) as (-> & Hw & Hb1); try done.
      eexists. split; [done|]. split; [done|]. split; [done|].
      split; [done|]. split; [done|]. cbn. rewrite lookup_insert_eq. eauto.
Qed.

(** ** Rebuilding the heap and merging *)

(** The estimate a rebuild caches, and the slot and candidate it stores. *)
Definition est (fuel : nat) (sl : Slot) : f64 :=
  match card fuel (sl_hll sl) with Ok c => c | _ => f_zero end.
Definition refreshed (fuel : nat) (sl : Slot) : Slot := mkSlot (sl_hll sl) (est fuel sl) false.
Definition candidate (fuel : nat) (p : bytes * Slot) : EvictionCandidate :=
  mkCand (est fuel p.2) p.1.

Lemma rebuild_step_Ok (fuel : nat)
    (acc : gmap bytes Slot * list EvictionCandidate) (k : bytes) (sl : Slot) (c : f64) :
  card fuel (sl_hll sl) = Ok c →
  rebuild_step fuel acc k sl =
    Ok (<[k := mkSlot (sl_hll sl) c false]> acc.1, push acc.2 (mkCand c k)).
Proof. intros H. unfold rebuild_step. by rewrite H. Qed.

Lemma rebuild_list (fuel : nat) (l : list (bytes * Slot)) m0 h0 :
  NoDup l.*1 → (∀ k sl, (k, sl) ∈ l → ∃ c, card fuel (sl_hll sl) = Ok c) →
  ∃ m, foldM (λ a p, rebuild_step fuel a p.1 p.2) (m0, h0) l =
         Ok (m, (candidate fuel <$> reverse l) ++ h0) ∧
    (∀ k, k ∉ l.*1 → m !! k = m0 !! k) ∧
    (∀ k sl, (k, sl) ∈ l → m !! k = Some (refreshed fuel sl)).
Proof.
  revert m0 h0. induction l as [|[k sl] l IH]; intros m0 h0 Hn Hv.
  { exists m0. split_and!; try done. intros k sl Hk. by apply elem_of_nil in Hk. }
  rewrite fmap_cons in *. cbn [fst] in *. apply NoDup_cons in Hn as [Hk Hn].
  cbn [foldM fst snd]. destruct (Hv k sl) as [c Hc]; [by left|].
  rewrite (rebuild_step_Ok fuel (m0, h0) k sl c Hc). ostep. cbn [fst snd].
  destruct (IH (<[k:=mkSlot (sl_hll sl) c false]> m0) (push h0 (mkCand c k)) Hn)
    as (m & -> & I1 & I2); [intros k' sl' Hin; apply (Hv k' sl'); by right|].
  assert (est fuel sl = c) as He by (unfold est; by rewrite Hc). exists m. split_and!.
  - do 2 f_equal. rewrite reverse_cons, fmap_app, <- app_assoc. unfold candidate at 3.
    cbn. by rewrite He.
  - intros k' [Hne Hk']%not_elem_of_cons. rewrite I1 by done. by rewrite lookup_insert_ne.
  - intros k' sl' [[= -> ->]|Hin]%elem_of_cons; [|by apply I2].
    rewrite I1 by done. rewrite lookup_insert_eq. unfold refreshed. by rewrite He.
Qed.

Lemma rebuild_panics (fuel : nat) (l : list (bytes * Slot)) acc :
  (∀ k sl, (k, sl) ∈ l → Hll.valid (sl_hll sl)) →
  (∃ k sl, (k, sl) ∈ l ∧ card fuel (sl_hll sl) = Panic) →
  foldM (λ a p, rebuild_step fuel a p.1 p.2) acc l = Panic.
Proof.
  revert acc. induction l as [|[k sl] l IH]; intros acc Hv (k' & sl' & Hin & Hp);
    [by apply elem_of_nil in Hin|]. cbn [foldM fst snd].
  destruct (card_cases fuel (sl_hll sl)) as [[c Hc]|Hc]; [by apply (Hv k); left| |].
  2:{ assert (rebuild_step fuel acc k sl = Panic) as -> by (unfold rebuild_step; by rewrite Hc). done. }
  rewrite (rebuild_step_Ok fuel acc k sl c Hc). ostep. apply IH; [intros k2 sl2 H2; apply (Hv k2); by right|].
  apply elem_of_cons in Hin as [[= -> ->]|Hin]; [congruence|by exists k', sl'].
Qed.

Lemma estimable_dec (fuel : nat) (l : list (bytes * Slot)) :
  (∀ k sl, (k, sl) ∈ l → Hll.valid (sl_hll sl)) →
  (∀ k sl, (k, sl) ∈ l → ∃ c, card fuel (sl_hll sl) = Ok c) ∨
  (∃ k sl, (k, sl) ∈ l ∧ card fuel (sl_hll sl) = Panic).
Proof.
  induction l as [|[k sl] l IH]; intros Hv; [left; intros ?? H; by apply elem_of_nil in H|].
  destruct (card_cases fuel (sl_hll sl)) as [Hc|Hc]; [by apply (Hv k); left| |].
  - destruct IH as [IH|(k' & sl' & Hin & Hp)]; [intros k2 sl2 H2; apply (Hv k2); by right|left|right].
    + intros k2 sl2 [[= -> ->]|H2]%elem_of_cons; [done|by apply (IH k2)].
    + exists k', sl'. split; [by right|done].
  - right. exists k, sl. split; [by left|done].
Qed.

Lemma heap_ok_rebuilt (fuel : nat) (m m' : gmap bytes Slot) :
  (∀ k sl, m !! k = Some sl → m' !! k = Some (refreshed fuel sl)) →
  (∀ k, m !! k = None → m' !! k = None) →
  heap_ok m' (candidate fuel <$> reverse (map_to_list m)).
Proof.
  intros Hs Hn. assert (ec_key <$> (candidate fuel <$> reverse (map_to_list m)) ≡ₚ (map_to_list m).*1) as Hk.
  { rewrite <- list_fmap_compose. change (ec_key ∘ candidate fuel) with (@fst bytes Slot).
    by rewrite reverse_Permutation. }
  split.
  - rewrite Hk. apply NoDup_fst_map_to_list.
  - intros k. rewrite Hk, list_elem_of_fmap. split.
    + intros ([k' sl] & -> & Hin%elem_of_map_to_list). cbn. rewrite (Hs _ _ Hin). eauto.
    + intros [sl' Hk']. destruct (m !! k) as [sl|] eqn:E; [|by rewrite Hn in Hk'].
      exists (k, sl). split; [done|by apply elem_of_map_to_list].
  - intros c sl' (p & -> & Hp)%list_elem_of_fmap Hl. rewrite elem_of_reverse in Hp.
    destruct p as [k sl]. apply elem_of_map_to_list in Hp. cbn in Hl.
    rewrite (Hs _ _ Hp) in Hl. injection Hl as <-. done.
Qed.

(** A rebuild turns any map of valid slots into a well-formed summary. *)
Lemma hm_rebuild_spec (fuel : nat) s :
  0 < hm_max_keys s → Hll.precision_ok (hm_precision s) = true →
  (∀ k sl, hm_map s !! k = Some sl → slot_ok (hm_precision s) (hm_hash s) sl) →
  (∃ s', rebuild_eviction_heap fuel s = Ok s' ∧ wf fuel s' ∧ same_params s s' ∧
     size (hm_map s') = size (hm_map s) ∧
     hm_evicted_keys s' = hm_evicted_keys s ∧ hm_updates s' = hm_updates s) ∨
  (rebuild_eviction_heap fuel s = Panic ∧ ¬ estimable fuel (hm_map s)).
Proof.
  intros Hm Hp Hs. unfold rebuild_eviction_heap, map_foldM.
  assert (∀ k sl, (k, sl) ∈ map_to_list (hm_map s) → Hll.valid (sl_hll sl)) as Hv.
  { intros k sl Hin%elem_of_map_to_list. apply (Hs _ _ Hin). }
  destruct (estimable_dec fuel _ Hv) as [He|He].
  - destruct (rebuild_list fuel (map_to_list (hm_map s)) (hm_map s) []
      (NoDup_fst_map_to_list _) He) as (m & -> & M1 & M2). rewrite app_nil_r. ostep. left.
    assert (∀ k sl, hm_map s !! k = Some sl → m !! k = Some (refreshed fuel sl)) as Hsome.
    { intros k sl Hk. by apply M2, elem_of_map_to_list. }
    assert (∀ k, hm_map s !! k = None → m !! k = None) as Hnone.
    { intros k Hk. rewrite M1; [done|]. intros ([k' sl] & -> & Hin%elem_of_map_to_list)%list_elem_of_fmap.
      cbn in Hk. congruence. }
    assert (∀ k sl', m !! k = Some sl' → ∃ sl, hm_map s !! k = Some sl ∧ sl' = refreshed fuel sl) as Hinv.
    { intros k sl' Hk. destruct (hm_map s !! k) as [sl|] eqn:E; [|by rewrite Hnone in Hk].
      rewrite (Hsome _ _ E) in Hk. injection Hk as <-. eauto. }
    eexists. split; [done|]. split; [split; cbn; try done|].
    + intros k sl' (sl & Hk & ->)%Hinv. apply (Hs _ _ Hk).
    + by apply heap_ok_rebuilt.
    + intros k sl' (sl & Hk & ->)%Hinv _. cbn. unfold est.
      destruct (He k sl) as [c ->]; [by apply elem_of_map_to_list|done].
    + split; [done|]. split; [|done]. cbn. rewrite <- !size_dom. f_equal. apply set_eq. intros k.
      rewrite !elem_of_dom. split; intros [sl Hk].
      * apply Hinv in Hk as (? & ? & _). eauto.
      * rewrite (Hsome _ _ Hk). eauto.
  - rewrite rebuild_panics by done. right. split; [done|]. intros Hes.
    destruct He as (k & sl & Hin%elem_of_map_to_list & Hpn). destruct (Hes _ _ Hin). congruence.
Qed.

Lemma hm_trim_loop_spec (fuel : nat) n s :
  wf fuel s → (size (hm_map s) <= n)%nat →
  (∃ s', trim_loop fuel n s = Some (Ok s') ∧ wf fuel s' ∧ bounded s' ∧ same_params s s' ∧
     hm_updates s' = hm_updates s) ∨
  (trim_loop fuel n s = Some Panic ∧ ¬ converges fuel).
Proof.
  revert s. induction n as [|n IH]; intros s Hs Hn; pose proof (wf_max _ _ Hs) as Hm;
    cbn [trim_loop]; destruct (Z.ltb_spec (hm_max_keys s) (len s)) as [Hl|Hl];
    try (left; by exists s); unfold len in Hl; [lia|].
  destruct (evict_spec fuel s Hs) as [(s1 & k & c & -> & Hs1 & E)|[-> He]].
  { intros He. rewrite He, map_size_empty in Hl. lia. }
  2:{ right. split; [done|]. by eapply converges_estimable; [apply (wf_slots _ _ Hs)|]. }
  pose proof (ev_size _ _ _ _ _ E) as Hsz.
  destruct (IH s1 Hs1) as [(s' & -> & Hw & Hb & Hp & Hu)|[-> He]]; [lia| |by right].
  left. exists s'. split_and!; try done.
  - eapply same_params_trans; [apply (ev_params _ _ _ _ _ E)|done].
  - rewrite Hu. apply (ev_counts _ _ _ _ _ E).
Qed.

Lemma merge_slots_spec (p : Z) (h : HashSpec) (l : list (bytes * Slot)) (m : gmap bytes Slot) :
  (∀ k sl, m !! k = Some sl → slot_ok p h sl) →
  (∀ k sl, (k, sl) ∈ l → slot_ok p h sl) →
  ∃ m', foldM (λ a q, merge_slot a q.1 q.2) m l = Ok m' ∧
    ∀ k sl, m' !! k = Some sl → slot_ok p h sl.
Proof.
  revert m. induction l as [|[k sl] l IH]; intros m Hm Hl; [by exists m|]. cbn [foldM fst snd].
  assert (∃ m1, merge_slot m k sl = Ok m1 ∧ ∀ k sl, m1 !! k = Some sl → slot_ok p h sl)
    as (m1 & -> & Hm1).
  { destruct (Hl k sl) as (Tv & Tp & Th); [by left|]. unfold merge_slot.
    destruct (m !! k) as [mine|] eqn:Hk.
    - destruct (Hm k mine Hk) as (Mv & Mp & Mh).
      destruct (Hll.hl_merge_valid (sl_hll mine) (sl_hll sl) Mv Tv) as (g & -> & Gv & Gp & Gh & _);
        [apply Hll.hl_compatibility_same; congruence|]. ostep. eexists. split; [done|].
      intros k' sl'. rewrite lookup_insert_Some. intros [[_ <-]|[_ Hk']]; [|by apply (Hm k')].
      split; [done|cbn; split; congruence].
    - eexists. split; [done|]. intros k' sl'. rewrite lookup_insert_Some.
      intros [[_ <-]|[_ Hk']]; [done|by apply (Hm k')]. }
  ostep. apply IH; [done|]. intros k' sl' Hin. apply (Hl k'). by right.
Qed.

Lemma hm_merge_spec (fuel : nat) s t :
  wf fuel s → wf fuel t → same_params s t →
  (∃ s', merge_from fuel s t = Ok s' ∧ wf fuel s' ∧ bounded s' ∧ same_params s s' ∧
     hm_updates s' = hm_updates s +ʷ hm_updates t) ∨
  (merge_from fuel s t = Panic ∧ ¬ converges fuel).
Proof.
  intros Hs Ht (E1 & E2 & E3). unfold merge_from.
  assert (compatibility s = compatibility t) as Hc
    by (unfold compatibility, params_hash; by rewrite E1, E2, E3).
  rewrite (proj2 (ensure_matches_ok _ _) Hc). clear Hc. ostep.
  destruct (merge_slots_spec (hm_precision s) (hm_hash s) (map_to_list (hm_map t)) (hm_map s))
    as (m & Hm & Hok).
  { apply (wf_slots _ _ Hs). }
  { intros k sl Hin%elem_of_map_to_list. rewrite <- E2, <- E3. by apply (wf_slots _ _ Ht k). }
  unfold map_foldM. rewrite Hm. ostep.
  destruct (hm_rebuild_spec fuel (with_map s m (hm_eviction s)))
    as [(s1 & -> & Hs1 & P1 & Z1 & _ & U1)|[-> He]];
    [apply Hs|apply Hs|exact Hok| |right; split; [done|]; by eapply converges_estimable; [exact Hok|]].
  ostep.
  destruct (hm_trim_loop_spec fuel (size (hm_map s1)) s1 Hs1) as [(s2 & -> & Hs2 & Hb & P2 & U2)|[-> He]];
    [done| |by right].
  cbn [default from_option id]. ostep. left. eexists. split; [done|]. split; [by apply wf_counts|].
  split; [done|]. split; [|cbn; by rewrite U2, U1].
  apply (same_params_trans s s1); [exact P1|exact P2].
Qed.

(** ** Untrusted snapshots *)

Lemma r_entry_inv (fuel : nat) p h r x r' :
  (∃ pre suf, r = rd pre suf ∧ bytes_ok suf) → r_entry fuel p h r = Ok (x, r') →
  (∃ pre suf, r' = rd pre suf ∧ bytes_ok suf) ∧ slot_ok p h x.2.
Proof.
  intros (pre & suf & -> & Hs) H. unfold r_entry in H.
  apply bind_ok in H as ([key r1] & Hk & H).
  apply r_lp_bytes_inv in Hk as (s1 & -> & Hs1 & _ & -> & _); [|done].
  apply bind_ok in H as ([inner r2] & Hin & H).
  apply r_lp_bytes_inv in Hin as (s2 & -> & Hs2 & Hib & -> & _); [|done].
  apply bind_ok in H as (hll & Hh & H).
  apply bind_ok in H as ([] & Hp%fail_if_ok%negb_false_iff%Z.eqb_eq & H).
  apply bind_ok in H as ([] & Hsp%fail_if_ok%negb_false_iff%bool_decide_eq_true & H).
  apply bind_ok in H as (c & _ & H). injection H as <- <-. split; [eauto|].
  assert (Hll.wf hll) as Hwf by by apply (Hll.hl_from_snapshot_wf inner).
  split; [by apply Hll.wf_valid|]. split; [done|]. cbn in *. by rewrite Hsp.
Qed.

Lemma inserted_slots_ok p h (slots : list (bytes * Slot)) k sl :
  Forall (λ x, slot_ok p h x.2) slots → insert_all slots !! k = Some sl → slot_ok p h sl.
Proof.
  intros Hok Hk. destruct (lookup_insert_all slots k) as [E|(sl2 & E & Hin)]; [congruence|].
  rewrite Hk in E. injection E as <-. by apply (proj1 (Forall_forall _ _) Hok) in Hin.
Qed.

Lemma hm_from_snapshot_spec (fuel : nat) b s :
  bytes_ok b → from_snapshot fuel b = Ok s → wf fuel s ∧ bounded s.
Proof.
  intros Hb H. unfold from_snapshot in H.
  apply bind_ok in H as ([[hd ps] pl] & Hr & H).
  destruct (accepted_parts _ _ _ _ Hb Hr) as (_ & Hps & Hpl & _).
  change Reader_new with (rd []) in H. read_inv.
  match goal with Ht : read_n _ _ _ = Ok _ |- _ => rename Ht into Hsl end.
  match goal with Hm : (_ <? _) = false |- _ => apply Z.ltb_ge in Hm; rename Hm into Hle end.
  match goal with Hm : (_ =? 0) = false |- _ => apply Z.eqb_neq in Hm; rename Hm into Hne end.
  match goal with Hm : negb (Hll.precision_ok _) = false |- _ =>
    apply negb_false_iff in Hm; rename Hm into Hpr end.
  apply (read_n_preserve _ (λ r, ∃ pre suf, r = rd pre suf ∧ bytes_ok suf)
    (λ x, slot_ok z0 (sh_hash hd) x.2)) in Hsl as (_ & Hok & Hlen);
    [|intros; by eapply r_entry_inv|by eauto].
  match type of H with rebuild_eviction_heap _ ?s0 = _ =>
    destruct (hm_rebuild_spec fuel s0) as [(s' & Hs' & Hw & (P1 & _) & Hz & _)|[Hpn _]] end.
  - cbn. word_lia.
  - done.
  - intros k sl. by apply inserted_slots_ok.
  - rewrite Hs' in H. injection H as ->. split; [done|]. unfold bounded, len.
    rewrite P1, Hz. cbn. pose proof (size_insert_all l). word_lia.
  - congruence.
Qed.

Lemma r_entry_no_panic (fuel : nat) p h pre suf :
  converges fuel → bytes_ok suf → no_panic (r_entry fuel p h (rd pre suf)).
Proof.
  intros Hc Hs. unfold r_entry. apply bind_no_panic; [auto with outcome|]. intros [key r1] Hk.
  apply r_lp_bytes_inv in Hk as (s1 & -> & Hs1 & _ & -> & _); [|done].
  apply bind_no_panic; [auto with outcome|]. intros [inner r2] Hin.
  apply r_lp_bytes_inv in Hin as (s2 & -> & _ & Hib & -> & _); [|done].
  apply bind_no_panic; [by apply Hll.hl_from_snapshot_no_panic|]. intros hll Hh.
  apply bind_no_panic; [auto with outcome|]. intros _ _.
  apply bind_no_panic; [auto with outcome|]. intros _ _.
  destruct (Hc hll) as [c ->]; [by eapply Hll.wf_valid, Hll.hl_from_snapshot_wf|]. ostep. done.
Qed.

Lemma hm_from_snapshot_no_panic (fuel : nat) b :
  converges fuel → bytes_ok b → no_panic (from_snapshot fuel b).
Proof.
  intros Hc Hb. unfold from_snapshot.
  apply bind_no_panic; [by apply parse_no_panic|]. intros [[hd ps] pl] Hr.
  destruct (accepted_parts _ _ _ _ Hb Hr) as (_ & Hps & Hpl & _).
  change Reader_new with (rd []).
  apply bind_no_panic; [auto with outcome|]. intros _ _.
  apply bind_no_panic; [auto with outcome|]. intros [mk p1] Hmk.
  apply r_u64_inv in Hmk as (s1 & -> & Hs1 & -> & Hmk); [|done].
  apply bind_no_panic; [apply r_u8_no_panic|]. intros [pr p2] _.
  apply bind_no_panic; [auto with outcome|]. intros [] Hz%fail_if_ok%Z.eqb_neq.
  apply bind_no_panic; [auto with outcome|]. intros [] Hpr%fail_if_ok%negb_false_iff.
  apply bind_no_panic; [auto with outcome|]. intros [up r1] Hup.
  apply r_u64_inv in Hup as (s2 & -> & Hs2 & -> & _); [|done].
  apply bind_no_panic; [auto with outcome|]. intros [ev r2] Hev.
  apply r_u64_inv in Hev as (s3 & -> & Hs3 & -> & _); [|done].
  apply bind_no_panic; [auto with outcome|]. intros [n r3] Hn.
  apply r_u32_inv in Hn as (s4 & -> & Hs4 & -> & _); [|done].
  apply bind_no_panic; [auto with outcome|]. intros _ _.
  apply bind_no_panic; [auto with outcome|]. intros _ _.
  apply bind_no_panic.
  { apply read_n_no_panic; [intros; by apply r_entry_no_panic| |done].
    intros pre suf x r Hs H. destruct (r_entry_inv fuel pr (sh_hash hd) (rd pre suf) x r) as [? _]; eauto. }
  intros [slots r4] Hsl.
  apply (read_n_preserve _ (λ r, ∃ pre suf, r = rd pre suf ∧ bytes_ok suf)
    (λ x, slot_ok pr (sh_hash hd) x.2)) in Hsl as (_ & Hok & _);
    [|intros; by eapply r_entry_inv|by eauto].
  match goal with |- no_panic (rebuild_eviction_heap _ ?s0) =>
    destruct (hm_rebuild_spec fuel s0) as [(s' & -> & _)|[_ He]] end; [cbn; word_lia|done| |done|].
  - intros k sl. by apply inserted_slots_ok.
  - exfalso. revert He Hc. eapply converges_estimable. intros k sl. by apply inserted_slots_ok.
Qed.

(** ** Histories *)

Definition hm_init (fuel : nat) (max_keys precision : Z) (h : HashSpec) (s : HllMap) : Prop :=
  u64_ok max_keys ∧
  (new max_keys precision h = Ok s ∨
   ∃ b, bytes_ok b ∧ from_snapshot fuel b = Ok s ∧ hm_max_keys s = max_keys ∧
     hm_precision s = precision ∧ hm_hash s = h).
Definition hm_upd (fuel : nat) (s : HllMap) (p : bytes * bytes) (s' : HllMap) : Prop :=
  insert fuel s p.1 p.2 = Ok s'.
Definition hm_mrg (fuel : nat) (s t s' : HllMap) : Prop := merge_from fuel s t = Ok s'.

Lemma hm_new_wf (fuel : nat) max_keys precision h s :
  u64_ok max_keys → new max_keys precision h = Ok s →
  wf fuel s ∧ bounded s ∧ hm_max_keys s = max_keys ∧ hm_precision s = precision ∧ hm_hash s = h.
Proof.
  unfold new. intros Hm Hn.
  apply bind_ok in Hn as ([] & H0%fail_if_ok%Z.eqb_neq & Hn).
  apply bind_ok in Hn as (h0 & Hh & Hn). injection Hn as <-. unfold Hll.new in Hh.
  destruct (Hll.precision_ok precision) eqn:Hp; [|done].
  split; [|split; [unfold bounded, len; cbn [hm_map hm_max_keys]; rewrite map_size_empty; word_lia|done]].
  split; cbn; try done; [word_lia|]. split; cbn; [constructor| |].
  - intros k. split; [by intros ?%elem_of_nil|]. rewrite lookup_empty. by intros [].
  - intros c sl ?%elem_of_nil. done.
Qed.

Lemma hm_history (fuel : nat) max_keys precision h s l :
  built (hm_init fuel max_keys precision h) (hm_upd fuel) (hm_mrg fuel) s l →
  wf fuel s ∧ bounded s ∧ hm_max_keys s = max_keys ∧ hm_precision s = precision ∧ hm_hash s = h.
Proof.
  induction 1 as [s [Hm [Hn|(b & Hb & Hs & E)]]|s l [k i] s' _ (IW & IB & I1 & I2 & I3) Hu
    |s l t m s' _ (IW & IB & I1 & I2 & I3) _ (JW & JB & J1 & J2 & J3) Hg].
  - by apply (hm_new_wf fuel) in Hn.
  - destruct (hm_from_snapshot_spec fuel b s Hb Hs). done.
  - destruct (hm_insert_spec fuel s k i IW IB) as [(s1 & Hs1 & Hw & Hbd & (E1 & E2 & E3) & _)|[Hpn _]];
      unfold hm_upd in Hu; cbn in Hu; [|congruence].
    rewrite Hs1 in Hu. injection Hu as ->. split; [done|]. split; [done|]. split_and!; congruence.
  - destruct (hm_merge_spec fuel s t IW JW) as [(s1 & Hs1 & Hw & Hbd & (E1 & E2 & E3) & _)|[Hpn _]];
      [split_and!; congruence| |unfold hm_mrg in Hg; congruence].
    unfold hm_mrg in Hg. rewrite Hs1 in Hg. injection Hg as ->.
    split; [done|]. split; [done|]. split_and!; congruence.
Qed.

(** The key bound holds on every history of insertions, merges and restored
    snapshots, and the eviction heap holds exactly one candidate per tracked
    key.  An insertion always returns with its key tracked, evicting first when
    the map is full, provided that the estimators of the tracked sketches
    converge. *)
Lemma hllmap_bounded (fuel : nat) max_keys precision h s l :
  built (hm_init fuel max_keys precision h) (hm_upd fuel) (hm_mrg fuel) s l →
  len s <= max_keys ∧ length (hm_eviction s) = size (hm_map s) ∧
  (∀ k, k ∈ ec_key <$> hm_eviction s ↔ is_Some (hm_map s !! k)) ∧
  ∀ key item, estimable fuel (hm_map s) →
    ∃ s', insert fuel s key item = Ok s' ∧ is_Some (hm_map s' !! key) ∧ len s' <= max_keys.
Proof.
  intros (Hw & Hb & E1 & _)%hm_history. unfold bounded in Hb. rewrite E1 in Hb.
  split; [done|]. split; [by apply heap_ok_length, Hw|]. split; [apply Hw|].
  intros key item He. rewrite <- E1 in Hb.
  destruct (hm_insert_spec fuel s key item Hw Hb) as [(s' & Hs' & _ & Hb' & (P1 & _) & _ & Hk)|[_ Hn]];
    [|done].
  exists s'. split_and!; try done. unfold bounded in Hb'. rewrite P1, E1 in Hb'. done.
Qed.

Definition blank : HllMap := run_or (mkHllMap 1 4 HashSpec_default ∅ [] 0 0) (new 2 4 HashSpec_default).
(** Three keys in a map of two: one is evicted. *)
Definition feed : list (bytes * bytes) := [([1], [10]); ([2], [20]); ([1], [10]); ([3], [30])].
Definition three : HllMap := foldl (λ s p, run_or s (insert 64 s p.1 p.2)) blank feed.

Lemma three_history :
  built (hm_init 64 2 4 HashSpec_default) (hm_upd 64) (hm_mrg 64) three feed.
Proof.
  apply (built_upd _ _ _ (foldl (λ s p, run_or s (insert 64 s p.1 p.2)) blank (take 3 feed)) (take 3 feed) ([3], [30]));
    [|by vm_compute].
  apply (built_upd _ _ _ (foldl (λ s p, run_or s (insert 64 s p.1 p.2)) blank (take 2 feed)) (take 2 feed) ([1], [10]));
    [|by vm_compute].
  apply (built_upd _ _ _ (foldl (λ s p, run_or s (insert 64 s p.1 p.2)) blank (take 1 feed)) (take 1 feed) ([2], [20]));
    [|by vm_compute].
  apply (built_upd _ _ _ blank [] ([1], [10])); [|by vm_compute].
  apply built_init. split; [by range_tac|by left].
Qed.

Lemma hllmap_bounded_witness : len three <= 2 ∧ hm_evicted_keys three = 1.
Proof.
  destruct (hllmap_bounded 64 2 4 HashSpec_default three feed three_history) as [H _].
  split; [exact H|]. vm_compute. reflexivity.
Defined.

(** Eviction terminates and removes a minimum.  On every reachable, non-empty
    map whose estimators converge, the lazy refresh loop ends, exactly one key
    is removed, every other key keeps its sketch, and the evicted key's current
    estimate is at most every cached estimate that remains. *)
Lemma hllmap_evicts_minimum (fuel : nat) max_keys precision h s l :
  built (hm_init fuel max_keys precision h) (hm_upd fuel) (hm_mrg fuel) s l →
  hm_map s ≠ ∅ → estimable fuel (hm_map s) →
  ∃ s' k c, evict_smallest fuel s = Ok s' ∧ evicted fuel s s' k c.
Proof.
  intros (Hw & _)%hm_history Hne He.
  destruct (evict_spec fuel s Hw Hne) as [(s' & k & c & Hs' & _ & Hev)|[_ Hn]]; [eauto|done].
Qed.

Lemma three_estimable : estimable 64 (hm_map three).
Proof.
  intros k sl Hk.
  assert (map_Forall (λ _ sl, is_ok (card 64 (sl_hll sl)) = true) (hm_map three)) as H
    by (apply (bool_decide_unpack _); vm_compute; exact I).
  specialize (H k sl Hk). cbn in H. destruct (card 64 (sl_hll sl)); [eauto|done..].
Qed.

Lemma hllmap_evicts_minimum_witness : ∃ s', evict_smallest 64 three = Ok s'.
Proof.
  destruct (hllmap_evicts_minimum 64 2 4 HashSpec_default three feed three_history)
    as (s' & k & c & H & _); [vm_compute; discriminate|apply three_estimable|exists s'; exact H].
Defined.
