(* ===== verification/Event.v ===== *)
(** * Flow events, their fields and group keys
    (crates/flowsketch-core/src/event.rs, field.rs and estimate.rs)

    Every sketch is keyed by the bytes [group_key] writes for an event.  The
    file models both encoders of the source, the allocation-free one of the
    hot path ([field_value_into], [append_decimal], ...) and the display values
    of [extract], with the standard library's [Display] of integers and IP
    addresses and [String::from_utf8_lossy].

    Proved: the two encoders agree, no value exceeds the length the planner
    budgets for, and [split_group_key] inverts [group_key], so keys of distinct
    groups never collide. *)
From S2P Require Import Prelude Bytes Sketch.

(** ** The event *)

(** The octets of an address, most significant first. *)
Inductive IpAddr :=
  | V4 (octets : list Z)
  | V6 (octets : list Z).
#[export] Instance IpAddr_eq_dec : EqDecision IpAddr.
Proof. solve_decision. Defined.

Inductive Direction := Ingress | Egress | Unknown.
#[export] Instance Direction_eq_dec : EqDecision Direction.
Proof. solve_decision. Defined.

Definition Direction_name (d : Direction) : string :=
  match d with
  | Ingress => "ingress"
  | Egress => "egress"
  | Unknown => "unknown"
  end.

Record FlowEvent := mkEvent {
  ts_nanos : Z;
  src_ip : IpAddr;
  dst_ip : IpAddr;
  src_port : Z;
  dst_port : Z;
  protocol : Z;
  ev_bytes : Z;
  packets : Z;
  direction : Direction;
  tcp_flags : Z;
  interface_index : Z;
  node_id : Z;
  namespace_id : option Z;
  pod_id : option Z;
  service_id : option Z;
}.

Definition FlowEvent_default : FlowEvent :=
  {| ts_nanos := 0; src_ip := V4 [0; 0; 0; 0]; dst_ip := V4 [0; 0; 0; 0];
     src_port := 0; dst_port := 0; protocol := 0; ev_bytes := 0; packets := 1;
     direction := Unknown; tcp_flags := 0; interface_index := 0; node_id := 0;
     namespace_id := None; pod_id := None; service_id := None |}.

(** The values the struct's field types admit. *)
Definition ip_ok (ip : IpAddr) : Prop :=
  match ip with
  | V4 o => bytes_ok o ∧ length o = 4%nat
  | V6 o => bytes_ok o ∧ length o = 16%nat
  end.
Record event_ok (e : FlowEvent) : Prop := {
  ok_ts : u64_ok (ts_nanos e);
  ok_src_ip : ip_ok (src_ip e);
  ok_dst_ip : ip_ok (dst_ip e);
  ok_src_port : u16_ok (src_port e);
  ok_dst_port : u16_ok (dst_port e);
  ok_protocol : u8_ok (protocol e);
  ok_bytes : u32_ok (ev_bytes e);
  ok_packets : u32_ok (packets e);
  ok_tcp_flags : u8_ok (tcp_flags e);
  ok_interface : u32_ok (interface_index e);
  ok_node : u64_ok (node_id e);
}.

(** ** [Display] of integers and addresses, from the standard library *)

(** The decimal digits of a non-negative integer, without leading zeros. *)
Fixpoint decimal (fuel : nat) (n : Z) : bytes :=
  match fuel with
  | O => []
  | S fuel => if n <? 10 then [48 + n] else decimal fuel (n / 10) ++ [48 + n mod 10]
  end.
(** Twenty digits hold every [u64]. *)
Definition to_string (n : Z) : bytes := decimal 20 n.

(** [{:x}] of a [u16]. *)
Definition hex_digit (d : Z) : Z := if d <? 10 then 48 + d else 87 + d.
Fixpoint hex (fuel : nat) (n : Z) : bytes :=
  match fuel with
  | O => []
  | S fuel => if n <? 16 then [hex_digit n] else hex fuel (n / 16) ++ [hex_digit (n mod 16)]
  end.

(** The strings of [l] with [sep] in between. *)
Fixpoint join (sep : bytes) (l : list bytes) : bytes :=
  match l with
  | [] => []
  | [x] => x
  | x :: l => x ++ sep ++ join sep l
  end.

Definition dot : bytes := [46].
Definition colon : bytes := [58].
Definition ipv4_to_string (o : list Z) : bytes := join dot (to_string <$> o).

Fixpoint segments (o : list Z) : list Z :=
  match o with
  | hi :: lo :: o => hi * 256 + lo :: segments o
  | _ => []
  end.

(** The first longest run of zero segments, as (start, length). *)
Definition span_step (acc : (Z * Z) * (Z * Z)) (p : Z * Z) : (Z * Z) * (Z * Z) :=
  let '(longest, current) := acc in
  let '(i, segment) := p in
  if segment =? 0 then
    let current := if current.2 =? 0 then (i, 1) else (current.1, current.2 + 1) in
    (if longest.2 <? current.2 then current else longest, current)
  else (longest, (0, 0)).
Definition zero_span (segs : list Z) : Z * Z :=
  (foldl span_step ((0, 0), (0, 0)) (zip (seqZ 0 (zlen segs)) segs)).1.

Definition fmt_subslice (segs : list Z) : bytes := join colon (hex 4 <$> segs).

Definition ipv6_to_string (o : list Z) : bytes :=
  let segs := segments o in
  if bool_decide (take 6 segs = [0; 0; 0; 0; 0; 65535])
  then bytes_of_string "::ffff:" ++ ipv4_to_string (drop 12 o)
  else
    let '(start, len) := zero_span segs in
    if 1 <? len
    then fmt_subslice (take (Z.to_nat start) segs) ++ colon ++ colon
           ++ fmt_subslice (drop (Z.to_nat (start + len)) segs)
    else fmt_subslice segs.

Definition ip_to_string (ip : IpAddr) : bytes :=
  match ip with V4 o => ipv4_to_string o | V6 o => ipv6_to_string o end.

(** ** Protocol numbers *)

Definition ICMP : Z := 1.
Definition TCP : Z := 6.
Definition UDP : Z := 17.
Definition ICMPV6 : Z := 58.

Definition protocol_name (proto : Z) : bytes :=
  if proto =? ICMP then bytes_of_string "icmp"
  else if proto =? TCP then bytes_of_string "tcp"
  else if proto =? UDP then bytes_of_string "udp"
  else if proto =? ICMPV6 then bytes_of_string "icmpv6"
  else to_string proto.

Definition to_ascii_lowercase (s : bytes) : bytes :=
  (λ c, if (65 <=? c) && (c <=? 90) then c + 32 else c) <$> s.

(** [str::parse::<u8>]: an optional [+], then at least one digit, no overflow. *)
Definition digit_step (acc : option Z) (c : Z) : option Z :=
  n ← acc;
  if (48 <=? c) && (c <=? 57)
  then let n := n * 10 + (c - 48) in if n <? 256 then Some n else None
  else None.
Definition parse_u8 (s : bytes) : option Z :=
  let digits := match s with
                | c :: rest => if (c =? 43) && (0 <? zlen rest) then rest else s
                | [] => s
                end in
  if zlen digits =? 0 then None else foldl digit_step (Some 0) digits.

Definition protocol_parse (s : bytes) : option Z :=
  let s := to_ascii_lowercase s in
  if bool_decide (s = bytes_of_string "icmp") then Some ICMP
  else if bool_decide (s = bytes_of_string "tcp") then Some TCP
  else if bool_decide (s = bytes_of_string "udp") then Some UDP
  else if bool_decide (s = bytes_of_string "icmpv6") then Some ICMPV6
  else parse_u8 s.

(** ** Fields *)

Inductive Field :=
  | SrcIp | DstIp | SrcPort | DstPort | Protocol | TcpFlags | DirectionF
  | Bytes | Packets | InterfaceIndex | NodeId.
#[export] Instance Field_eq_dec : EqDecision Field.
Proof. solve_decision. Defined.

Definition name (f : Field) : string :=
  match f with
  | SrcIp => "src.ip"
  | DstIp => "dst.ip"
  | SrcPort => "src.port"
  | DstPort => "dst.port"
  | Protocol => "protocol"
  | TcpFlags => "tcp.flags"
  | DirectionF => "direction"
  | Bytes => "bytes"
  | Packets => "packets"
  | InterfaceIndex => "interface.index"
  | NodeId => "node.id"
  end.

Definition label_name (f : Field) : bytes :=
  (λ c, if c =? 46 then 95 else c) <$> bytes_of_string (name f).

Definition is_numeric_measure (f : Field) : bool :=
  match f with Bytes | Packets => true | _ => false end.

Definition max_encoded_len (f : Field) : Z :=
  match f with
  | SrcIp | DstIp => 39
  | SrcPort | DstPort => 5
  | Protocol => 6
  | TcpFlags => 3
  | DirectionF => 7
  | Bytes | Packets | InterfaceIndex => 10
  | NodeId => 20
  end.

Definition extract (f : Field) (e : FlowEvent) : bytes :=
  match f with
  | SrcIp => ip_to_string (src_ip e)
  | DstIp => ip_to_string (dst_ip e)
  | SrcPort => to_string (src_port e)
  | DstPort => to_string (dst_port e)
  | Protocol => protocol_name (protocol e)
  | TcpFlags => to_string (tcp_flags e)
  | DirectionF => bytes_of_string (Direction_name (direction e))
  | Bytes => to_string (ev_bytes e)
  | Packets => to_string (packets e)
  | InterfaceIndex => to_string (interface_index e)
  | NodeId => to_string (node_id e)
  end.

Definition extract_value (f : Field) (e : FlowEvent) : Z :=
  match f with
  | Bytes => ev_bytes e
  | Packets => packets e
  | SrcPort => src_port e
  | DstPort => dst_port e
  | Protocol => protocol e
  | TcpFlags => tcp_flags e
  | InterfaceIndex => interface_index e
  | NodeId => node_id e
  | SrcIp | DstIp | DirectionF => 0
  end.

(** [Err] carries the message of [FromStr] without the interpolated name. *)
Definition from_str (s : string) : outcome string Field :=
  if bool_decide (s = "src.ip") then Ok SrcIp
  else if bool_decide (s = "dst.ip") then Ok DstIp
  else if bool_decide (s = "src.port") then Ok SrcPort
  else if bool_decide (s = "dst.port") then Ok DstPort
  else if bool_decide (s = "protocol") then Ok Protocol
  else if bool_decide (s = "tcp.flags") then Ok TcpFlags
  else if bool_decide (s = "direction") then Ok DirectionF
  else if bool_decide (s = "bytes") then Ok Bytes
  else if bool_decide (s = "packets") then Ok Packets
  else if bool_decide (s = "interface.index") then Ok InterfaceIndex
  else if bool_decide (s = "node.id") then Ok NodeId
  else Err "unknown field".

(** ** The hot path's encoders *)

(** [while value > 0 { i -= 1; buf[i] = b'0' + (value % 10) as u8; value /= 10 }];
    [None] means that the fuel ran out. *)
Fixpoint decimal_loop (fuel : nat) (buf : list Z) (i value : Z) : option (res (list Z * Z)) :=
  if 0 <? value then
    match fuel with
    | O => None
    | S fuel =>
        let i := i -ʷ 1 in
        match vec_set buf i (as_u8 (48 + value mod 10)) with
        | Ok buf => decimal_loop fuel buf i (value / 10)
        | Err e => Some (Err e)
        | Panic => Some Panic
        end
    end
  else Some (Ok (buf, i)).

(** A pass divides a [u64] by ten, so 64 passes are more than enough. *)
Definition append_decimal (out : bytes) (value : Z) : res bytes :=
  if value =? 0 then Ok (out ++ [48])
  else
    '(buf, i) ← default Panic (decimal_loop 64 (replicate 20 0) 20 value);
    Ok (out ++ drop (Z.to_nat i) buf).

Definition append_ipv4 (out : bytes) (octets : list Z) : res bytes :=
  foldM (λ out p,
    append_decimal (if 0 <? p.1 then out ++ dot else out) p.2)
    out (zip (seqZ 0 (zlen octets)) octets).

Definition append_ip (out : bytes) (ip : IpAddr) : res bytes :=
  match ip with
  | V4 octets => append_ipv4 out octets
  | V6 octets => Ok (out ++ ipv6_to_string octets)
  end.

Definition field_value_into (f : Field) (e : FlowEvent) (out : bytes) : res bytes :=
  match f with
  | SrcIp => append_ip out (src_ip e)
  | DstIp => append_ip out (dst_ip e)
  | SrcPort => append_decimal out (src_port e)
  | DstPort => append_decimal out (dst_port e)
  | Protocol =>
      if protocol e =? ICMP then Ok (out ++ bytes_of_string "icmp")
      else if protocol e =? TCP then Ok (out ++ bytes_of_string "tcp")
      else if protocol e =? UDP then Ok (out ++ bytes_of_string "udp")
      else if protocol e =? ICMPV6 then Ok (out ++ bytes_of_string "icmpv6")
      else append_decimal out (protocol e)
  | TcpFlags => append_decimal out (tcp_flags e)
  | DirectionF => Ok (out ++ bytes_of_string (Direction_name (direction e)))
  | Bytes => append_decimal out (ev_bytes e)
  | Packets => append_decimal out (packets e)
  | InterfaceIndex => append_decimal out (interface_index e)
  | NodeId => append_decimal out (node_id e)
  end.

Definition GROUP_KEY_SEP : Z := 31.

(** The buffer is cleared first, so the key does not depend on it. *)
Definition group_key_into (fields : list Field) (e : FlowEvent) (out : bytes) : res bytes :=
  foldM (λ out p,
    field_value_into p.2 e (if 0 <? p.1 then out ++ [GROUP_KEY_SEP] else out))
    [] (zip (seqZ 0 (zlen fields)) fields).
Definition group_key (fields : list Field) (e : FlowEvent) : res bytes :=
  group_key_into fields e [].

(** ** [String::from_utf8_lossy], from the standard library *)

Definition REPLACEMENT : bytes := [239; 191; 189].
Definition between (lo x hi : Z) : bool := (lo <=? x) && (x <=? hi).
(** The admissible second bytes after a lead byte of three or four. *)
Definition second_of_3 (b c : Z) : bool :=
  if b =? 224 then between 160 c 191 else if b =? 237 then between 128 c 159
  else between 128 c 191.
Definition second_of_4 (b c : Z) : bool :=
  if b =? 240 then between 144 c 191 else if b =? 244 then between 128 c 143
  else between 128 c 191.

(** Each maximal invalid prefix becomes one replacement character. *)
Fixpoint from_utf8_lossy (s : bytes) : bytes :=
  match s with
  | [] => []
  | b :: s1 =>
      if b <? 128 then b :: from_utf8_lossy s1
      else if between 194 b 223 then
        match s1 with
        | c :: s2 => if between 128 c 191 then b :: c :: from_utf8_lossy s2
                     else REPLACEMENT ++ from_utf8_lossy s1
        | [] => REPLACEMENT
        end
      else if between 224 b 239 then
        match s1 with
        | c :: s2 =>
            if second_of_3 b c then
              match s2 with
              | d :: s3 => if between 128 d 191 then b :: c :: d :: from_utf8_lossy s3
                           else REPLACEMENT ++ from_utf8_lossy s2
              | [] => REPLACEMENT
              end
            else REPLACEMENT ++ from_utf8_lossy s1
        | [] => REPLACEMENT
        end
      else if between 240 b 244 then
        match s1 with
        | c :: s2 =>
            if second_of_4 b c then
              match s2 with
              | d :: s3 =>
                  if between 128 d 191 then
                    match s3 with
                    | e :: s4 => if between 128 e 191
                                 then b :: c :: d :: e :: from_utf8_lossy s4
                                 else REPLACEMENT ++ from_utf8_lossy s3
                    | [] => REPLACEMENT
                    end
                  else REPLACEMENT ++ from_utf8_lossy s2
              | [] => REPLACEMENT
              end
            else REPLACEMENT ++ from_utf8_lossy s1
        | [] => REPLACEMENT
        end
      else REPLACEMENT ++ from_utf8_lossy s1
  end.

(** [key.split(|&b| b == sep)] *)
Fixpoint split_on (sep : Z) (key : bytes) : list bytes :=
  match key with
  | [] => [[]]
  | b :: key =>
      if b =? sep then [] :: split_on sep key
      else match split_on sep key with
           | part :: parts => (b :: part) :: parts
           | [] => [[b]]
           end
  end.

Definition split_group_key (key : bytes) : list bytes :=
  if zlen key =? 0 then [] else from_utf8_lossy <$> split_on GROUP_KEY_SEP key.

(** ** Decimal digits *)

Definition digit (c : Z) : Prop := 48 <= c <= 57.

Lemma pow10_S k : 10 ^ Z.of_nat (S k) = 10 * 10 ^ Z.of_nat k.
Proof. rewrite Nat2Z.inj_succ, Z.pow_succ_r; lia. Qed.

Lemma div10 k n : 0 <= n < 10 ^ Z.of_nat (S k) → 0 <= n / 10 < 10 ^ Z.of_nat k.
Proof.
  rewrite pow10_S. intros H. split; [apply Z.div_pos; lia|].
  apply Z.div_lt_upper_bound; lia.
Qed.

Lemma decimal_fuel k k' n :
  0 <= n < 10 ^ Z.of_nat (S k) → (k <= k')%nat → decimal (S k') n = decimal (S k) n.
Proof.
  revert k' n. induction k as [|k IH]; intros k' n Hn Hk.
  - change (10 ^ Z.of_nat 1) with 10 in Hn. cbn [decimal].
    by rewrite (proj2 (Z.ltb_lt n 10)) by lia.
  - destruct k' as [|k']; [lia|]. cbn [decimal]. destruct (Z.ltb_spec n 10); [done|].
    f_equal. apply (IH k'); [by apply div10|lia].
Qed.

Lemma decimal_digits k n : 0 <= n → Forall digit (decimal k n).
Proof.
  revert n. induction k as [|k IH]; intros n Hn; cbn [decimal]; [constructor|].
  destruct (Z.ltb_spec n 10).
  - constructor; [unfold digit; lia|constructor].
  - apply Forall_app. split; [apply IH, Z.div_pos; lia|]. constructor; [|constructor].
    pose proof (Z.mod_pos_bound n 10). unfold digit. lia.
Qed.

Lemma length_decimal k n :
  0 <= n < 10 ^ Z.of_nat (S k) → (1 <= length (decimal (S k) n) <= S k)%nat.
Proof.
  revert n. induction k as [|k IH]; intros n Hn.
  - change (10 ^ Z.of_nat 1) with 10 in Hn. cbn [decimal].
    rewrite (proj2 (Z.ltb_lt n 10)) by lia. cbn. lia.
  - specialize (IH (n / 10) (div10 _ _ Hn)). remember (S k) as m eqn:Em. cbn [decimal].
    destruct (Z.ltb_spec n 10); [cbn; lia|]. rewrite length_app. cbn [length]. lia.
Qed.

Lemma zlen_to_string k n :
  0 <= n < 10 ^ Z.of_nat (S k) → (k < 20)%nat → 1 <= zlen (to_string n) <= Z.of_nat (S k).
Proof.
  intros Hn Hk. unfold to_string. change 20%nat with (S 19). rewrite (decimal_fuel k) by (done || lia).
  pose proof (length_decimal k n Hn). unfold zlen. lia.
Qed.

Lemma decimal_loop_spec k fuel buf i value :
  0 <= value < 10 ^ Z.of_nat k → (k <= fuel)%nat → Z.of_nat k <= i <= zlen buf →
  zlen buf < u64_mod →
  ∃ buf' i', decimal_loop fuel buf i value = Some (Ok (buf', i')) ∧ 0 <= i' ∧
    drop (Z.to_nat i') buf' =
      (if value =? 0 then [] else decimal k value) ++ drop (Z.to_nat i) buf.
Proof.
  revert fuel buf i value. induction k as [|k IH]; intros fuel buf i value Hv Hf Hi Hb.
  - change (10 ^ Z.of_nat 0) with 1 in Hv. replace value with 0 by lia.
    exists buf, i. destruct fuel; cbn; (split; [done|split; [lia|done]]).
  - destruct fuel as [|fuel]; [lia|]. destruct (Z.eqb_spec value 0) as [->|Hne].
    { exists buf, i. cbn. split; [done|split; [lia|done]]. }
    cbn [decimal_loop]. rewrite (proj2 (Z.ltb_lt 0 value)) by lia.
    rewrite wsub64_small by word_lia. rewrite vec_set_ok by lia.
    pose proof (Z.mod_pos_bound value 10).
    replace (as_u8 _) with (48 + value mod 10) by (unfold as_u8; rewrite (Z.mod_small (48 + _)); lia).
    set (buf1 := <[_ := _]> buf).
    assert (zlen buf1 = zlen buf) as Hl by (unfold zlen, buf1; by rewrite length_insert).
    destruct (IH fuel buf1 (i - 1) (value / 10)) as (buf' & i' & -> & Hi' & Hd);
      [by apply div10|lia..|]. exists buf', i'. split; [done|]. split; [done|]. rewrite Hd.
    assert (drop (Z.to_nat (i - 1)) buf1 = 48 + value mod 10 :: drop (Z.to_nat i) buf) as ->.
    { unfold zlen in *. replace (Z.to_nat i) with (S (Z.to_nat (i - 1))) by lia.
      erewrite drop_S by (apply list_lookup_insert_eq; lia). f_equal.
      apply drop_insert_lt. lia. }
    cbn [decimal]. destruct (Z.ltb_spec value 10).
    + rewrite Z.div_small, Z.mod_small by lia. done.
    + rewrite (proj2 (Z.eqb_neq (value / 10) 0)).
      * by rewrite <- app_assoc.
      * pose proof (Z.div_le_lower_bound value 10 1). lia.
Qed.

Lemma append_decimal_ok out value :
  u64_ok value → append_decimal out value = Ok (out ++ to_string value).
Proof.
  intros Hv. unfold append_decimal. destruct (Z.eqb_spec value 0) as [->|Hne]; [done|].
  destruct (decimal_loop_spec 20 64 (replicate 20 0) 20 value) as (buf & i & -> & Hi & Hd);
    [word_lia|lia|done..|].
  cbn [default from_option id]. ostep. rewrite Hd, (proj2 (Z.eqb_neq _ _)) by done. by rewrite app_nil_r.
Qed.

(** ** Separated lists *)

Lemma join_cons sep x l : join sep (x :: l) = x ++ concat (app sep <$> l).
Proof.
  revert x. induction l as [|y l IH]; intros x.
  - by rewrite app_nil_r.
  - change (join sep (x :: y :: l)) with (x ++ sep ++ join sep (y :: l)). rewrite IH.
    cbn. by rewrite <- app_assoc.
Qed.

(** A loop that writes a separator before every element but the first. *)
Section joined.
Context {A : Type} (f : bytes → A → res bytes) (g : A → bytes) (sep : bytes).

Definition sep_step (out : bytes) (p : Z * A) : res bytes :=
  f (if 0 <? p.1 then out ++ sep else out) p.2.

Lemma joined_tail l out j :
  (∀ out x, x ∈ l → f out x = Ok (out ++ g x)) → 0 < j →
  foldM sep_step out (zip (seqZ j (zlen l)) l) = Ok (out ++ concat (app sep <$> (g <$> l))).
Proof.
  intros Hf. revert out j. induction l as [|x l IH]; intros out j Hj.
  - cbn. by rewrite app_nil_r.
  - rewrite zlen_cons, seqZ_cons by (pose proof (zlen_nonneg l); lia). cbn [zip zip_with foldM].
    change (sep_step out (j, x)) with (f (if 0 <? j then out ++ sep else out) x).
    rewrite (proj2 (Z.ltb_lt 0 j)) by done.
    rewrite Hf by set_solver. ostep. replace (Z.pred (1 + zlen l)) with (zlen l) by lia.
    rewrite IH by (lia || set_solver). f_equal. cbn. by rewrite <- !app_assoc.
Qed.

Lemma joined_loop l out :
  (∀ out x, x ∈ l → f out x = Ok (out ++ g x)) →
  foldM sep_step out (zip (seqZ 0 (zlen l)) l) = Ok (out ++ join sep (g <$> l)).
Proof.
  intros Hf. destruct l as [|x l]; [cbn; by rewrite app_nil_r|].
  rewrite zlen_cons, seqZ_cons by (pose proof (zlen_nonneg l); lia). cbn [zip zip_with foldM].
  change (sep_step out (0, x)) with (f out x).
  rewrite Hf by set_solver. ostep. replace (Z.pred (1 + zlen l)) with (zlen l) by lia.
  rewrite joined_tail by (lia || set_solver). rewrite fmap_cons, join_cons.
  by rewrite <- app_assoc.
Qed.
End joined.

Lemma Forall_join (P : Z → Prop) sep l :
  Forall P sep → Forall (Forall P) l → Forall P (join sep l).
Proof.
  intros Hs. destruct 1 as [|x l Hx Hl]; [constructor|]. rewrite join_cons.
  apply Forall_app. split; [done|]. apply Forall_concat, Forall_fmap.
  eapply Forall_impl; [exact Hl|]. intros y Hy. by apply Forall_app.
Qed.

Lemma zlen_join sep l b :
  Forall (λ x, zlen x <= b) l → l ≠ [] → zlen (join sep l) <= b * zlen l + zlen sep * (zlen l - 1).
Proof.
  intros Hl Hne. destruct Hl as [|x l Hx Hl]; [done|]. rewrite join_cons, zlen_app, zlen_cons.
  enough (zlen (concat (app sep <$> l)) <= (b + zlen sep) * zlen l) by lia.
  clear Hne Hx. induction Hl as [|y l Hy _ IH]; [change (0 <= (b + zlen sep) * 0); lia|].
  cbn. rewrite !zlen_app. cbn in IH. rewrite zlen_cons. lia.
Qed.

(** ** Address and protocol names *)

Lemma append_ip_ok out ip : ip_ok ip → append_ip out ip = Ok (out ++ ip_to_string ip).
Proof.
  destruct ip as [o|o]; [|done]. intros [Ho _]. cbn [append_ip ip_to_string].
  apply (joined_loop append_decimal to_string dot). intros out' x Hx.
  apply append_decimal_ok. pose proof (proj1 (Forall_forall _ _) Ho x Hx). word_lia.
Qed.

Lemma field_value_into_ok f e out :
  event_ok e → field_value_into f e out = Ok (out ++ extract f e).
Proof.
  intros []. destruct f; cbn [field_value_into extract]; try done;
    try (by apply append_ip_ok); try (apply append_decimal_ok; word_lia).
  unfold protocol_name. repeat case_match; try done. apply append_decimal_ok; word_lia.
Qed.

Lemma group_key_join fields e :
  event_ok e → group_key fields e = Ok (join [GROUP_KEY_SEP] ((λ f, extract f e) <$> fields)).
Proof.
  intros He. apply (joined_loop (λ out f, field_value_into f e out) (λ f, extract f e)
    [GROUP_KEY_SEP] fields []). intros out f _. by apply field_value_into_ok.
Qed.

(** Printable ASCII: neither the separator nor a byte of a multi-byte character. *)
Definition plain (c : Z) : Prop := 32 <= c < 127.
#[export] Instance plain_dec c : Decision (plain c).
Proof. unfold plain. apply _. Defined.

Lemma plain_to_string n : 0 <= n → Forall plain (to_string n).
Proof.
  intros Hn. eapply Forall_impl; [by apply decimal_digits|]. unfold digit, plain. lia.
Qed.

Lemma hex_ok k n : 0 <= n → Forall plain (hex k n) ∧ (length (hex k n) <= k)%nat.
Proof.
  revert n. induction k as [|k IH]; intros n Hn; cbn [hex]; [split; [constructor|done]|].
  assert (∀ d, 0 <= d < 16 → plain (hex_digit d)) as Hd.
  { intros d Hd. unfold plain, hex_digit. case_match; lia. }
  destruct (Z.ltb_spec n 16).
  - split; [|cbn; lia]. repeat constructor; by apply Hd.
  - destruct (IH (n / 16)) as [Hp Hl]; [apply Z.div_pos; lia|]. split.
    + apply Forall_app. split; [done|]. constructor; [|constructor]. apply Hd.
      apply Z.mod_pos_bound. lia.
    + rewrite length_app. cbn. lia.
Qed.

Lemma segments_ok o n :
  bytes_ok o → length o = (2 * n)%nat →
  Forall (λ s, 0 <= s < 65536) (segments o) ∧ length (segments o) = n.
Proof.
  intros Ho. revert o Ho. induction n as [|n IH]; intros o Ho Hl.
  - destruct o; [|done]. by split.
  - destruct Ho as [|a o Ha Ho]; [done|]. destruct Ho as [|b o Hb Ho]; [cbn in *; lia|].
    destruct (IH o Ho) as [H1 H2]; [cbn in *; lia|]. cbn. split; [|lia].
    constructor; [word_lia|done].
Qed.

Lemma fmt_subslice_ok segs :
  Forall (λ s, 0 <= s < 65536) segs →
  Forall plain (fmt_subslice segs) ∧ zlen (fmt_subslice segs) <= 5 * zlen segs ∧
  (segs ≠ [] → zlen (fmt_subslice segs) <= 5 * zlen segs - 1).
Proof.
  intros Hs. assert (Forall (λ x, Forall plain x ∧ zlen x <= 4) (hex 4 <$> segs)) as Hx.
  { apply Forall_fmap. eapply Forall_impl; [exact Hs|]. intros x Hx. cbn beta in Hx |- *.
    unfold compose. destruct (hex_ok 4 x) as [? Hl]; [lia|]. split; [done|]. unfold zlen. lia. }
  apply Forall_and in Hx as [Hp Hl]. unfold fmt_subslice. split.
  { apply Forall_join; [by apply Forall_singleton|done]. }
  assert (segs ≠ [] → zlen (join colon (hex 4 <$> segs)) <= 5 * zlen segs - 1) as H.
  { intros Hne. eapply Z.le_trans; [apply (zlen_join _ _ 4); [done|by destruct segs]|].
    change (zlen colon) with 1. unfold zlen. rewrite length_fmap. lia. }
  split; [|done]. destruct segs; [done|]. specialize (H ltac:(done)). lia.
Qed.

Lemma zero_span_range segs :
  let '(start, len) := zero_span segs in 0 <= start ∧ 0 <= len ∧ start + len <= zlen segs.
Proof.
  unfold zero_span.
  enough (∀ l j acc, 0 <= j → 
    0 <= acc.1.1 ∧ 0 <= acc.1.2 ∧ acc.1.1 + acc.1.2 <= j →
    0 <= acc.2.1 ∧ 0 <= acc.2.2 ∧ (0 < acc.2.2 → acc.2.1 + acc.2.2 = j) →
    let r := (foldl span_step acc (zip (seqZ j (zlen l)) l)).1 in
    0 <= r.1 ∧ 0 <= r.2 ∧ r.1 + r.2 <= j + zlen l) as H.
  { specialize (H segs 0 ((0, 0), (0, 0))). cbv zeta in H. cbn [fst snd] in H.
    destruct (foldl _ _ _).1. cbn [fst snd] in H. lia. }
  induction l as [|x l IH]; intros j [[ls ll] [cs cl]] Hj; cbn [fst snd]; intros H1 H2.
  - cbv zeta. change (zip (seqZ j (zlen [])) []) with (@nil (Z * Z)). change (zlen []) with 0.
    cbn [foldl fst snd]. lia.
  - rewrite zlen_cons, seqZ_cons by (pose proof (zlen_nonneg l); lia). cbn [zip zip_with foldl].
    replace (Z.pred (1 + zlen l)) with (zlen l) by lia. cbv zeta.
    replace (j + (1 + zlen l)) with (Z.succ j + zlen l) by lia. apply IH; [lia|..];
      unfold span_step; destruct (Z.eqb_spec x 0); cbn [fst snd];
      destruct (Z.eqb_spec cl 0); repeat case_match; cbn [fst snd] in *; lia.
Qed.

Lemma ipv4_to_string_ok o :
  bytes_ok o → length o = 4%nat →
  Forall plain (ipv4_to_string o) ∧ zlen (ipv4_to_string o) <= 15.
Proof.
  intros Ho Hl. unfold ipv4_to_string. split.
  - apply Forall_join; [by apply Forall_singleton|]. apply Forall_fmap.
    eapply Forall_impl; [exact Ho|]. intros x Hx. apply plain_to_string. word_lia.
  - eapply Z.le_trans; [apply (zlen_join _ _ 3)|].
    + apply Forall_fmap. eapply Forall_impl; [exact Ho|]. intros x Hx. unfold compose.
      destruct (zlen_to_string 2 x); [change (10 ^ Z.of_nat 3) with 1000; word_lia|lia|lia].
    + by destruct o.
    + unfold zlen. rewrite length_fmap, Hl. change (length dot) with 1%nat. lia.
Qed.

Lemma ip_to_string_ok ip :
  ip_ok ip → Forall plain (ip_to_string ip) ∧ zlen (ip_to_string ip) <= 39.
Proof.
  destruct ip as [o|o]; intros [Ho Hl]; cbn [ip_to_string].
  { destruct (ipv4_to_string_ok o Ho Hl). split; [done|lia]. }
  destruct (segments_ok o 8 Ho Hl) as [Hs Hn]. unfold ipv6_to_string. cbv zeta.
  case_bool_decide.
  - destruct (ipv4_to_string_ok (drop 12 o)) as [Hp Hz];
      [by apply Forall_drop|rewrite length_drop; lia|]. rewrite zlen_app. split; [|].
    + apply Forall_app. split; [|done]. apply (bool_decide_unpack _). by vm_compute.
    + change (zlen (bytes_of_string "::ffff:")) with 7. lia.
  - pose proof (zero_span_range (segments o)) as Hz.
    destruct (zero_span (segments o)) as [start len]. destruct (Z.ltb_spec 1 len).
    + destruct (fmt_subslice_ok (take (Z.to_nat start) (segments o))) as (P1 & Z1 & _);
        [by apply Forall_take|].
      destruct (fmt_subslice_ok (drop (Z.to_nat (start + len)) (segments o))) as (P2 & Z2 & _);
        [by apply Forall_drop|]. split.
      * repeat (apply Forall_app; split); try done; by apply Forall_singleton.
      * rewrite !zlen_app. change (zlen colon) with 1. unfold zlen in *.
        rewrite length_take in Z1. rewrite length_drop in Z2. lia.
    + destruct (fmt_subslice_ok (segments o)) as (P1 & _ & Z1); [done|]. split; [done|].
      unfold zlen in *. rewrite Hn in Z1. specialize (Z1 ltac:(by destruct (segments o))). lia.
Qed.

Lemma join_nonempty sep l : (∃ x, x ∈ l ∧ x ≠ []) → join sep l ≠ [].
Proof.
  intros (x & Hx & Hne). destruct l as [|y l]; [set_solver|]. rewrite join_cons.
  destruct y; [|done]. apply elem_of_cons in Hx as [->|Hx]; [done|]. intros E.
  cbn in E. rewrite concat_nil_Forall, Forall_fmap, Forall_forall in E. specialize (E x Hx).
  unfold compose in E. by apply app_eq_nil in E as [_ ->].
Qed.

Lemma to_string_nonempty n : to_string n ≠ [].
Proof.
  unfold to_string. change 20%nat with (S 19). cbn [decimal].
  destruct (n <? 10); [done|]. intros [_ E]%app_eq_nil. done.
Qed.

Lemma ip_to_string_nonempty ip : ip_ok ip → ip_to_string ip ≠ [].
Proof.
  assert (∀ o, o ≠ [] → ipv4_to_string o ≠ []) as H4.
  { intros [|x o] Ho; [done|]. apply join_nonempty. exists (to_string x).
    split; [set_solver|apply to_string_nonempty]. }
  destruct ip as [o|o]; intros [Ho Hl]; cbn [ip_to_string]; [apply H4; by destruct o|].
  unfold ipv6_to_string. cbv zeta. case_bool_decide; [done|].
  destruct (zero_span (segments o)) as [start len]. destruct (1 <? len).
  - intros [_ E]%app_eq_nil. done.
  - destruct (segments_ok o 8 Ho Hl) as [_ Hn].
    destruct (segments o) as [|x segs]; [done|]. apply join_nonempty.
    exists (hex 4 x). split; [set_solver|]. change 4%nat with (S 3). cbn [hex].
    destruct (x <? 16); [done|]. intros [_ E]%app_eq_nil. done.
Qed.

Lemma extract_plain f e : event_ok e → Forall plain (extract f e).
Proof.
  intros []. destruct f; cbn [extract]; try (by apply ip_to_string_ok);
    try (apply plain_to_string; word_lia).
  - unfold protocol_name. repeat case_match; [..|apply plain_to_string; word_lia];
      apply (bool_decide_unpack _); by vm_compute.
  - destruct (direction e); apply (bool_decide_unpack _); by vm_compute.
Qed.

Lemma extract_nonempty f e : event_ok e → extract f e ≠ [].
Proof.
  intros []. destruct f; cbn [extract]; try (by apply ip_to_string_nonempty);
    try apply to_string_nonempty.
  - unfold protocol_name. repeat case_match; try done. apply to_string_nonempty.
  - by destruct (direction e).
Qed.

Lemma extract_len f e : event_ok e → zlen (extract f e) <= max_encoded_len f.
Proof.
  intros [].
  assert (∀ k n, 0 <= n < 10 ^ Z.of_nat (S k) → (k < 20)%nat →
    zlen (to_string n) <= Z.of_nat (S k)) as Hd.
  { intros k n Hn Hk. by apply zlen_to_string. }
  destruct f; cbn [extract max_encoded_len]; try (by apply ip_to_string_ok).
  - apply (Hd 4%nat); word_lia.
  - apply (Hd 4%nat); word_lia.
  - unfold protocol_name. repeat case_match; try done.
    eapply Z.le_trans; [apply (Hd 2%nat); word_lia|lia].
  - apply (Hd 2%nat); word_lia.
  - by destruct (direction e).
  - apply (Hd 9%nat); word_lia.
  - apply (Hd 9%nat); word_lia.
  - apply (Hd 9%nat); word_lia.
  - apply (Hd 19%nat); word_lia.
Qed.

(** ** Splitting *)

Lemma from_utf8_lossy_plain s : Forall plain s → from_utf8_lossy s = s.
Proof.
  induction 1 as [|c s Hc _ IH]; [done|]. cbn [from_utf8_lossy]. unfold plain in Hc.
  rewrite (proj2 (Z.ltb_lt c 128)) by lia. by f_equal.
Qed.

Lemma split_on_part sep x : sep ∉ x → split_on sep x = [x].
Proof.
  induction x as [|c x IH]; intros Hx; [done|]. apply not_elem_of_cons in Hx as [Hc Hx].
  cbn [split_on]. rewrite (proj2 (Z.eqb_neq c sep)) by congruence. by rewrite IH.
Qed.

Lemma split_on_app sep x key : sep ∉ x → split_on sep (x ++ sep :: key) = x :: split_on sep key.
Proof.
  induction x as [|c x IH]; intros Hx; cbn [app split_on]; [by rewrite Z.eqb_refl|].
  apply not_elem_of_cons in Hx as [Hc Hx].
  rewrite (proj2 (Z.eqb_neq c sep)) by congruence. by rewrite IH.
Qed.

Lemma split_on_join sep l :
  l ≠ [] → Forall (λ x, sep ∉ x) l → split_on sep (join [sep] l) = l.
Proof.
  intros Hne Hl. induction Hl as [|x l Hx Hl IH]; [done|]. destruct l as [|y l].
  - by apply split_on_part.
  - change (join [sep] (x :: y :: l)) with (x ++ sep :: join [sep] (y :: l)).
    rewrite split_on_app by done. by rewrite IH.
Qed.

Lemma split_group_key_join fields e :
  event_ok e →
  split_group_key (join [GROUP_KEY_SEP] ((λ f, extract f e) <$> fields)) =
    (λ f, extract f e) <$> fields.
Proof.
  intros He. destruct fields as [|f fields]; [done|].
  remember (f :: fields) as fs eqn:Ef.
  assert (join [GROUP_KEY_SEP] ((λ f, extract f e) <$> fs) ≠ []) as Hne.
  { apply join_nonempty. exists (extract f e). split; [set_solver|by apply extract_nonempty]. }
  unfold split_group_key. rewrite (proj2 (Z.eqb_neq _ 0)).
  2:{ unfold zlen. destruct (join _ _); [done|cbn; lia]. }
  rewrite split_on_join; [|by rewrite Ef|].
  - rewrite <- list_fmap_compose. apply list_fmap_ext. intros i g _. unfold compose.
    by apply from_utf8_lossy_plain, extract_plain.
  - apply Forall_fmap, Forall_forall. intros g _ Hin. unfold compose in Hin.
    pose proof (proj1 (Forall_forall _ _) (extract_plain g e He) _ Hin) as H.
    unfold plain, GROUP_KEY_SEP in H. lia.
Qed.

(** ** Theorems *)

(** The group key round trips.  Encoding an event's key never panics,
    [split_group_key] recovers the display value of every grouped field, and two
    events share a key exactly when they agree on all grouped fields: distinct
    groups never collide in a sketch. *)
Lemma group_key_round_trip fields e :
  event_ok e →
  ∃ key, group_key fields e = Ok key ∧
    split_group_key key = (λ f, extract f e) <$> fields ∧
    ∀ e', event_ok e' →
      (group_key fields e' = Ok key ↔ ∀ f, f ∈ fields → extract f e' = extract f e).
Proof.
  intros He. exists (join [GROUP_KEY_SEP] ((λ f, extract f e) <$> fields)).
  split; [by apply group_key_join|]. split; [by apply split_group_key_join|].
  intros e' He'. rewrite group_key_join by done. split.
  - intros [= E] f Hf. apply (f_equal split_group_key) in E.
    rewrite !split_group_key_join in E by done.
    apply list_elem_of_lookup in Hf as [i Hi].
    apply (f_equal (lookup i)) in E. rewrite !list_lookup_fmap, Hi in E. by injection E.
  - intros H. do 2 f_equal. apply list_fmap_ext. intros i f Hi. apply H.
    by eapply list_elem_of_lookup_2.
Qed.

Definition sample_event : FlowEvent :=
  {| ts_nanos := 5; src_ip := V4 [10; 0; 0; 255];
     dst_ip := V6 [32; 1; 13; 184; 0; 0; 0; 0; 0; 0; 0; 0; 0; 0; 0; 1];
     src_port := 443; dst_port := 65535; protocol := 6; ev_bytes := 1500; packets := 1;
     direction := Egress; tcp_flags := 18; interface_index := 0; node_id := 7;
     namespace_id := None; pod_id := None; service_id := None |}.

Lemma sample_event_ok : event_ok sample_event.
Proof. split; try (by range_tac); split; try done; apply (bool_decide_unpack _); by vm_compute. Qed.

Lemma group_key_round_trip_witness :
  ∃ key, group_key [SrcIp; DstIp] sample_event = Ok key ∧
    string_of_bytes <$> split_group_key key = ["10.0.0.255"; "2001:db8::1"].
Proof.
  destruct (group_key_round_trip [SrcIp; DstIp] sample_event sample_event_ok)
    as (key & Hk & Hs & _).
  exists key. split; [exact Hk|]. rewrite Hs. vm_compute. reflexivity.
Defined.

(** The allocation-free encoder is the display encoder: on every field it
    appends exactly the field's display value, within the buffer it reserves
    and within the length the planner's memory model charges for it. *)
Lemma field_encoding_bounded f e out :
  event_ok e →
  field_value_into f e out = Ok (out ++ extract f e) ∧
  1 <= zlen (extract f e) <= max_encoded_len f.
Proof.
  intros He. split; [by apply field_value_into_ok|]. split; [|by apply extract_len].
  pose proof (extract_nonempty f e He). unfold zlen. destruct (extract f e); [done|cbn; lia].
Qed.

Lemma field_encoding_bounded_witness :
  field_value_into NodeId sample_event [1] = Ok [1; 55].
Proof.
  destruct (field_encoding_bounded NodeId sample_event [1] sample_event_ok) as [H _].
  rewrite H. vm_compute. reflexivity.
Defined.

Lemma from_str_iff s f : from_str s = Ok f ↔ s = name f.
Proof.
  split; [|intros ->; by destruct f]. unfold from_str.
  repeat case_bool_decide; intros [= <-]; done.
Qed.

Lemma protocol_parse_name p : u8_ok p → protocol_parse (protocol_name p) = Some p.
Proof.
  intros Hp.
  assert (Forall (λ p, protocol_parse (protocol_name p) = Some p) (seqZ 0 256)) as H.
  { apply (bool_decide_unpack _). vm_compute. exact I. }
  rewrite Forall_forall in H. apply H, elem_of_seqZ. word_lia.
Qed.

(** Names parse back.  A field is parsed from its name and from nothing
    else, so no two fields share a name, and the protocol's display name parses
    back to its number. *)
Lemma names_round_trip s f p :
  (from_str s = Ok f ↔ s = name f) ∧
  (u8_ok p → protocol_parse (protocol_name p) = Some p).
Proof. split; [apply from_str_iff|apply protocol_parse_name]. Qed.

Lemma names_round_trip_witness : protocol_parse (bytes_of_string "icmpv6") = Some 58.
Proof.
  destruct (names_round_trip "src.ip" SrcIp 58) as [_ H]. exact (H ltac:(range_tac)).
Defined.
