(* ===== verification/Kll.v ===== *)
(** * KLL quantile sketch  (crates/flowsketch-algos/src/kll.rs)

    Level [l] holds items of weight [2^l]; an over-full level is sorted and
    every other item is promoted to the next one, the parity being drawn from
    a SplitMix64 stream.

    Proved: compaction terminates and never indexes out of range, no level ends
    up with more than [k] items, and over any history of insertions and merges
    the weighted rank of every value is off by at most the total weight of the
    compactions that were performed, so the value a quantile query returns has
    its true rank within that distance of the requested one; snapshots round
    trip and untrusted snapshots are restored within the level bound. *)
From S2P Require Import Prelude Bytes Maps Hash Sketch Snapshot F64.

Definition ALGORITHM : string := "kll".
Definition CAPACITY_DECAY_NUM : Z := 2.
Definition CAPACITY_DECAY_DEN : Z := 3.
Definition MIN_LEVEL_CAPACITY : Z := 8.
Definition MAX_LEVELS : Z := 64.

Record KllSketch := mkKll {
  kl_k : Z;
  kl_hash : HashSpec;
  kl_levels : list (list Z);
  kl_n : Z;
  kl_rng_state : Z;
  kl_updates : Z;
}.

Definition with_levels (s : KllSketch) (levels : list (list Z)) (rng_state : Z) : KllSketch :=
  {| kl_k := kl_k s; kl_hash := kl_hash s; kl_levels := levels; kl_n := kl_n s;
     kl_rng_state := rng_state; kl_updates := kl_updates s |}.

Definition new (k : Z) (hash : HashSpec) : res KllSketch :=
  if k <? MIN_LEVEL_CAPACITY then Err (InvalidParam "kll k must be >= 8")
  else Ok {| kl_k := k; kl_hash := hash; kl_levels := [[]]; kl_n := 0;
             kl_rng_state := splitmix64 (Z.lxor (seed hash) 0x6B6C6C00);
             kl_updates := 0 |}.

Definition k_for_error (epsilon : f64) : Z :=
  Z.min 65536 (Z.max MIN_LEVEL_CAPACITY (f_ceil_as_u64 (f_div (f_lit 23 10) epsilon))).

Definition rank_error (s : KllSketch) : f64 := f_div (f_lit 23 10) (f64_of_Z (kl_k s)).

(** [for _ in 0..depth { cap = cap * 2 / 3 }] *)
Definition decay (cap : Z) : Z := cap *ʷ CAPACITY_DECAY_NUM / CAPACITY_DECAY_DEN.
Definition capacity (s : KllSketch) (level : Z) : Z :=
  let depth := zlen (kl_levels s) - 1 - level in
  Z.max (Nat.iter (Z.to_nat depth) decay (kl_k s)) MIN_LEVEL_CAPACITY.

Definition next_bit (rng_state : Z) : bool * Z :=
  let rng_state := splitmix64 rng_state in
  (Z.land rng_state 1 =? 1, rng_state).

(** [iter().step_by(2)] *)
Fixpoint step_by_2 (l : list Z) : list Z :=
  match l with
  | [] => []
  | [x] => [x]
  | x :: _ :: l => x :: step_by_2 l
  end.
(** [buf.iter().skip(offset).step_by(2)] *)
Definition promote (offset : bool) (buf : list Z) : list Z :=
  step_by_2 (if offset then drop 1 buf else buf).

(** The compaction of one over-full level. *)
Definition compact (s : KllSketch) (level : Z) : res KllSketch :=
  let levels := if level + 1 =? zlen (kl_levels s) then kl_levels s ++ [[]] else kl_levels s in
  buf ← vec_get levels level;
  levels ← vec_set levels level [];
  let '(bit, rng_state) := next_bit (kl_rng_state s) in
  let promoted := promote bit (sort_unstable buf) in
  next ← vec_get levels (level + 1);
  levels ← vec_set levels (level + 1) (next ++ promoted);
  Ok (with_levels s levels rng_state).

(** [None] means that the fuel ran out. *)
Fixpoint compress_loop (fuel : nat) (level : Z) (s : KllSketch) : option (res KllSketch) :=
  if level <? zlen (kl_levels s) then
    match fuel with
    | O => None
    | S fuel =>
        match vec_get (kl_levels s) level with
        | Ok buf =>
            if zlen buf <=? capacity s level then compress_loop fuel (level + 1) s
            else
              match compact s level with
              | Ok s => compress_loop fuel (level + 1) s
              | Err e => Some (Err e)
              | Panic => Some Panic
              end
        | Err e => Some (Err e)
        | Panic => Some Panic
        end
    end
  else Some (Ok s).

(** Each pass leaves a level behind or drops items, so this fuel is never used up. *)
Definition items (s : KllSketch) : Z := lsum (zlen <$> kl_levels s).
Definition compress (s : KllSketch) : res KllSketch :=
  default Panic (compress_loop (Z.to_nat (zlen (kl_levels s) + items s)) 0 s).

Definition insert (s : KllSketch) (value : Z) : res KllSketch :=
  level0 ← vec_get (kl_levels s) 0;
  levels ← vec_set (kl_levels s) 0 (level0 ++ [value]);
  compress {| kl_k := kl_k s; kl_hash := kl_hash s; kl_levels := levels;
              kl_n := kl_n s +ʷ 1; kl_rng_state := kl_rng_state s;
              kl_updates := kl_updates s +ʷ 1 |}.

Definition update (s : KllSketch) (key : bytes) (value : Z) : res KllSketch := insert s value.

(** ** Queries *)

(** The weight [1u64 << level] of a level's items. *)
Definition level_weight (level : Z) : Z := shl64 1 level.

Definition weighted_items (s : KllSketch) : list (Z * Z) :=
  concat (zip_with (λ level items, (λ v, (v, level_weight level)) <$> items)
    (seqZ 0 (zlen (kl_levels s))) (kl_levels s)).

(** [weighted.sort_unstable_by_key(|&(v, _)| v)]; the order of equal values does
    not show in the result. *)
Definition sort_by_value (l : list (Z * Z)) : list (Z * Z) :=
  sort_by (λ a b, Z.compare a.1 b.1) l.

(** [for (v, w) in &weighted { acc += w; if acc >= target { return Some(v) } }] *)
Fixpoint scan (target acc : Z) (l : list (Z * Z)) : option Z :=
  match l with
  | [] => None
  | (v, w) :: l =>
      let acc := acc +ʷ w in
      if target <=? acc then Some v else scan target acc l
  end.

(** [q.clamp(0.0, 1.0)] *)
Definition clamp01 (q : f64) : f64 :=
  if f_ltb q f_zero then f_zero else if f_ltb f_one q then f_one else q.

Definition total_weight (weighted : list (Z * Z)) : Z := foldl wadd64 0 weighted.*2.
(** [(q * total as f64).ceil().max(1.0) as u64] *)
Definition target_rank (q : f64) (total : Z) : Z :=
  Z.max 1 (f_ceil_as_u64 (f_mul q (f64_of_Z total))).

Definition quantile (s : KllSketch) (q : f64) : option Z :=
  if kl_n s =? 0 then None
  else
    let weighted := sort_by_value (weighted_items s) in
    let target := target_rank (clamp01 q) (total_weight weighted) in
    match scan target 0 weighted with
    | Some v => Some v
    | None => fst <$> last weighted
    end.

Definition rank_step (value : Z) (acc : Z * Z) (p : Z * Z) : Z * Z :=
  (if p.1 <=? value then acc.1 +ʷ p.2 else acc.1, acc.2 +ʷ p.2).
Definition rank (s : KllSketch) (value : Z) : f64 :=
  if kl_n s =? 0 then f_zero
  else
    let '(le, total) := foldl (rank_step value) (0, 0) (weighted_items s) in
    f_div (f64_of_Z le) (f64_of_Z total).

(** ** Merging and the descriptors *)

Definition params_hash (s : KllSketch) : Z := hash64 (le_bytes 8 (kl_k s)) 0.
Definition compatibility (s : KllSketch) : SketchCompatibility :=
  {| sc_algorithm := ALGORITHM; sc_version := 1; sc_hash := kl_hash s;
     sc_params_hash := params_hash s |}.

(** The pushes of empty levels followed by the element-wise extension. *)
Fixpoint zip_levels (mine theirs : list (list Z)) : list (list Z) :=
  match mine, theirs with
  | m :: mine, t :: theirs => (m ++ t) :: zip_levels mine theirs
  | [], t :: theirs => t :: zip_levels [] theirs
  | mine, [] => mine
  end.

Definition merge_from (s other : KllSketch) : res KllSketch :=
  _ ← ensure_matches (compatibility s) (compatibility other);
  compress {| kl_k := kl_k s; kl_hash := kl_hash s;
              kl_levels := zip_levels (kl_levels s) (kl_levels other);
              kl_n := kl_n s +ʷ kl_n other;
              kl_rng_state := splitmix64 (Z.lxor (kl_rng_state s) (kl_rng_state other));
              kl_updates := kl_updates s +ʷ kl_updates other |}.

(** The parity stream is not rewound. *)
Definition reset (s : KllSketch) : KllSketch :=
  {| kl_k := kl_k s; kl_hash := kl_hash s; kl_levels := [[]]; kl_n := 0;
     kl_rng_state := kl_rng_state s; kl_updates := 0 |}.

Definition estimate (s : KllSketch) (key : bytes) : f64 :=
  default f_zero (f64_of_Z <$> quantile s (f_lit 1 2)).

(** [vec_capacity] is the allocator's choice of a vector's capacity. *)
Definition memory_bytes (vec_capacity : list Z → Z) (size_of_self : Z) (s : KllSketch) : Z :=
  foldl (λ acc l, acc +ʷ (vec_capacity l *ʷ 8 +ʷ 24)) 0 (kl_levels s) +ʷ size_of_self.

#[export] Instance Kll_Sketch : Sketch KllSketch := {
  sk_update := update;
  sk_merge_from := merge_from;
  sk_reset := reset;
  sk_update_count := kl_updates;
  sk_compatibility := compatibility;
}.

(** ** Snapshots *)

Definition w_level (payload : Writer) (level : list Z) : Writer :=
  foldl w_u64 (w_u32 payload (as_u32 (zlen level))) level.

Definition to_snapshot (s : KllSketch) (window_start_nanos window_end_nanos : Z) : bytes :=
  let params := w_u64 Writer_new (kl_k s) in
  let payload := w_u64 (w_u64 (w_u64 Writer_new (kl_n s)) (kl_rng_state s)) (kl_updates s) in
  let payload := w_u32 payload (as_u32 (zlen (kl_levels s))) in
  let payload := foldl w_level payload (kl_levels s) in
  write_snapshot
    {| sh_version := SNAPSHOT_VERSION; sh_algorithm_id := KLL; sh_hash := kl_hash s;
       sh_window_start_nanos := window_start_nanos;
       sh_window_end_nanos := window_end_nanos |} params payload.

Definition r_level (r : Reader) : res (list Z * Reader) :=
  '(len, r) ← r_u32 r;
  _ ← check_count r len 8;
  read_n (Z.to_nat len) r_u64 r.

Definition from_snapshot (b : bytes) : res KllSketch :=
  '(header, params, payload) ← read_snapshot b;
  _ ← fail_if (negb (sh_algorithm_id header =? KLL)) (SnapshotError "not a kll snapshot");
  let p := Reader_new params in
  '(k, p) ← r_u64 p;
  _ ← fail_if (k <? MIN_LEVEL_CAPACITY) (SnapshotError "kll snapshot k must be >= 8");
  let r := Reader_new payload in
  '(n, r) ← r_u64 r;
  '(rng_state, r) ← r_u64 r;
  '(updates, r) ← r_u64 r;
  '(num_levels, r) ← r_u32 r;
  _ ← fail_if (MAX_LEVELS <? num_levels) (SnapshotError "kll snapshot has too many levels");
  _ ← check_count r num_levels 4;
  '(levels, r) ← read_n (Z.to_nat num_levels) r_level r;
  let levels := match levels with [] => [[]] | _ => levels end in
  Ok {| kl_k := k; kl_hash := sh_hash header; kl_levels := levels; kl_n := n;
        kl_rng_state := rng_state; kl_updates := updates |}.

(** ** Weighted ranks

    [mass P levels] is the weight of the items that satisfy [P]: the rank of a
    value when [P] is a lower set, the sketch's total weight when [P] is true. *)
Definition cnt (P : Z → Prop) `{!∀ x, Decision (P x)} (l : list Z) : Z :=
  Z.of_nat (count_if P l).
Fixpoint mass (P : Z → Prop) `{!∀ x, Decision (P x)} (levels : list (list Z)) : Z :=
  match levels with
  | [] => 0
  | l :: levels => cnt P l + 2 * mass P levels
  end.

Section mass.
Context (P : Z → Prop) {HP : ∀ x, Decision (P x)}.

Lemma cnt_nonneg l : 0 <= cnt P l.
Proof. unfold cnt. lia. Qed.

Lemma cnt_nil : cnt P [] = 0.
Proof. done. Qed.

Lemma cnt_app l m : cnt P (l ++ m) = cnt P l + cnt P m.
Proof. unfold cnt. rewrite count_if_app. lia. Qed.

Lemma cnt_cons x l : cnt P (x :: l) = (if decide (P x) then 1 else 0) + cnt P l.
Proof. change (x :: l) with ([x] ++ l). rewrite cnt_app. unfold cnt, count_if. cbn. by case_decide. Qed.

Lemma cnt_none l : Forall (λ x, ¬ P x) l → cnt P l = 0.
Proof. induction 1; [done|]. rewrite cnt_cons, decide_False by done. lia. Qed.

Lemma mass_nonneg levels : 0 <= mass P levels.
Proof. induction levels as [|l ls IH]; cbn; [done|]. pose proof (cnt_nonneg l). lia. Qed.

Lemma mass_app_empty levels : mass P (levels ++ [[]]) = mass P levels.
Proof. induction levels as [|l ls IH]; cbn; [done|]. rewrite IH. done. Qed.

Lemma mass_insert levels j l l' :
  levels !! j = Some l →
  mass P (<[j := l']> levels) = mass P levels + 2 ^ Z.of_nat j * (cnt P l' - cnt P l).
Proof.
  revert j. induction levels as [|m ls IH]; intros [|j] H; [done..| |].
  - injection H as ->. cbn. lia.
  - change (<[S j := l']> (m :: ls)) with (m :: <[j := l']> ls). cbn [mass].
    rewrite (IH j) by done.
    rewrite Nat2Z.inj_succ, Z.pow_succ_r by lia. lia.
Qed.

Lemma mass_zip_levels a b : mass P (zip_levels a b) = mass P a + mass P b.
Proof.
  revert a. induction b as [|l b IH]; intros [|m a]; cbn [zip_levels mass]; try lia.
  - rewrite IH. cbn. lia.
  - rewrite IH, cnt_app. lia.
Qed.

Lemma mass_lookup levels j l :
  levels !! j = Some l → 2 ^ Z.of_nat j * cnt P l <= mass P levels.
Proof.
  revert j. induction levels as [|m ls IH]; intros [|j] H; [done..| |].
  - injection H as ->. cbn [mass]. pose proof (mass_nonneg ls). change (2 ^ Z.of_nat 0) with 1. lia.
  - specialize (IH j H). rewrite Nat2Z.inj_succ, Z.pow_succ_r by lia. cbn [mass].
    pose proof (cnt_nonneg m). lia.
Qed.

(** Promotion of every other item of a sorted level halves the count of a lower
    set, up to one. *)
Lemma sorted_none x l :
  (∀ y z, y <= z → P z → P y) → StronglySorted (cmp_le Z.compare) (x :: l) → ¬ P x →
  Forall (λ y, ¬ P y) l.
Proof.
  intros Hd Hs Hx. apply StronglySorted_inv in Hs as [_ Hs].
  eapply Forall_impl; [exact Hs|]. intros y Hy Hp. apply Hx, (Hd x y); [|done].
  unfold cmp_le in Hy. by apply Z.compare_le_iff.
Qed.

Lemma step_by_2_Forall (Q : Z → Prop) l : Forall Q l → Forall Q (step_by_2 l).
Proof.
  enough (∀ n l, (length l <= n)%nat → Forall Q l → Forall Q (step_by_2 l)) as Hn by (by apply (Hn (length l))).
  induction n as [|n IH]; intros [|x [|y m]] Hl Hq; cbn in *; try done; try lia.
  apply Forall_cons in Hq as [Hx Hq]. apply Forall_cons in Hq as [_ Hq].
  constructor; [done|]. apply IH; [lia|done].
Qed.

Lemma step_by_2_cnt l :
  (∀ y z, y <= z → P z → P y) → StronglySorted (cmp_le Z.compare) l →
  0 <= 2 * cnt P (step_by_2 l) - cnt P l <= 1.
Proof.
  intros Hd. enough (∀ n l, (length l <= n)%nat → StronglySorted (cmp_le Z.compare) l →
    0 <= 2 * cnt P (step_by_2 l) - cnt P l <= 1) as Hn by (by apply (Hn (length l))).
  induction n as [|n IH]; intros [|x [|y m]] Hl Hs; cbn [step_by_2 length] in *; try lia;
    rewrite ?cnt_cons, ?cnt_nil; try lia.
  - case_decide; lia.
  - pose proof (StronglySorted_inv Hs) as [Hs1 Hxy].
    pose proof (StronglySorted_inv Hs1) as [Hs2 _]. specialize (IH m ltac:(lia) Hs2).
    destruct (decide (P y)) as [Hy|Hy].
    + rewrite (decide_True (P := P x)); [lia|]. apply (Hd x y); [|done].
      apply Forall_cons in Hxy as [Hxy _]. unfold cmp_le in Hxy. by apply Z.compare_le_iff.
    + pose proof (sorted_none y m Hd Hs1 Hy) as Hn.
      rewrite !cnt_none; [|done|by apply step_by_2_Forall]. case_decide; lia.
Qed.

Lemma promote_cnt b l :
  (∀ y z, y <= z → P z → P y) →
  -1 <= 2 * cnt P (promote b (sort_unstable l)) - cnt P l <= 1.
Proof.
  intros Hd. assert (cnt P l = cnt P (sort_unstable l)) as ->.
  { unfold cnt. by rewrite count_if_sort. }
  pose proof (sort_by_sorted Z.compare l) as Hs. fold (sort_unstable l) in Hs.
  unfold promote. destruct b; [|pose proof (step_by_2_cnt _ Hd Hs); lia].
  destruct (sort_unstable l) as [|x m]; [cbn [drop step_by_2]; rewrite cnt_nil; lia|]. cbn [drop]. rewrite drop_0, cnt_cons.
  pose proof (StronglySorted_inv Hs) as [Hs1 _]. pose proof (step_by_2_cnt _ Hd Hs1).
  destruct (decide (P x)) as [Hx|Hx]; [lia|].
  pose proof (sorted_none x m Hd Hs Hx) as Hn.
  rewrite !cnt_none; [lia|done|by apply step_by_2_Forall].
Qed.
End mass.

Lemma cnt_true l : cnt (λ _, True) l = zlen l.
Proof. induction l as [|x l IH]; [done|]. rewrite cnt_cons, zlen_cons, decide_True by done. lia. Qed.

Lemma zlen_promote b l : zlen l - 1 <= 2 * zlen (promote b (sort_unstable l)) <= zlen l + 1.
Proof. pose proof (promote_cnt (λ _, True) b l ltac:(done)) as H. rewrite !cnt_true in H. lia. Qed.

Lemma elem_of_step_by_2 x l : x ∈ step_by_2 l → x ∈ l.
Proof.
  intros Hx. pose proof (step_by_2_Forall (.∈ l) l) as H. rewrite !Forall_forall in H. by apply H.
Qed.

Lemma elem_of_promote x b l : x ∈ promote b (sort_unstable l) → x ∈ l.
Proof.
  unfold promote. intros Hx%elem_of_step_by_2. apply (elem_of_sort_by Z.compare).
  fold (sort_unstable l). destruct b; [|done]. rewrite <- (take_drop 1 (sort_unstable l)). set_solver.
Qed.

(** ** One compaction *)

Definition stored (x : Z) (levels : list (list Z)) : Prop := ∃ l, l ∈ levels ∧ x ∈ l.

Definition grown (levels : list (list Z)) (j : nat) : list (list Z) :=
  if Z.of_nat j + 1 =? zlen levels then levels ++ [[]] else levels.
Definition compacted (b : bool) (levels : list (list Z)) (j : nat) (buf next : list Z)
    : list (list Z) :=
  <[S j := next ++ promote b (sort_unstable buf)]> (<[j := []]> (grown levels j)).

Lemma grown_lookup levels j i :
  (j < length levels)%nat →
  grown levels j !! i = Some [] ∧ levels !! i = None ∧ i = S j ∨ grown levels j !! i = levels !! i.
Proof.
  intros Hj. unfold grown, zlen. case_match eqn:E; [|by right]. apply Z.eqb_eq in E.
  destruct (decide (i < length levels)%nat); [right; by apply lookup_app_l|].
  rewrite lookup_app_r by lia. destruct (decide (i = S j)) as [->|].
  - left. replace (S j - length levels)%nat with 0%nat by lia.
    split_and!; [done|apply lookup_ge_None; lia|done].
  - right. rewrite (lookup_ge_None_2 levels) by lia.
    destruct (i - length levels)%nat eqn:E'; [lia|done].
Qed.

Lemma kl_compact_spec s j buf :
  kl_levels s !! j = Some buf →
  ∃ next, grown (kl_levels s) j !! S j = Some next ∧ (∀ x, x ∈ next → stored x (kl_levels s)) ∧
    compact s (Z.of_nat j) = Ok (with_levels s
      (compacted (next_bit (kl_rng_state s)).1 (kl_levels s) j buf next)
      (next_bit (kl_rng_state s)).2).
Proof.
  intros Hb. pose proof (lookup_lt_Some _ _ _ Hb) as Hj.
  assert (length (grown (kl_levels s) j) = (length (kl_levels s) +
    (if (Z.of_nat j + 1 =? zlen (kl_levels s))%Z then 1 else 0))%nat) as Hlen.
  { unfold grown. case_match; [rewrite length_app; done|lia]. }
  destruct (lookup_lt_is_Some_2 (grown (kl_levels s) j) (S j)) as [next Hn].
  { rewrite Hlen. case_match eqn:E; [lia|]. apply Z.eqb_neq in E. unfold zlen in E. lia. }
  exists next. split; [done|].
  assert (grown (kl_levels s) j !! j = Some buf) as Hg.
  { destruct (grown_lookup (kl_levels s) j j Hj) as [(_ & _ & ?)| ->]; [lia|done]. }
  split.
  { intros x Hx. destruct (grown_lookup (kl_levels s) j (S j) Hj) as [(E & _)|E];
      rewrite Hn in E; [by injection E as ->; apply elem_of_nil in Hx|].
    exists next. split; [by eapply list_elem_of_lookup_2|done]. }
  unfold compact. cbv zeta. fold (grown (kl_levels s) j).
  rewrite (vec_get_Some _ _ buf) by (rewrite ?Nat2Z.id; (lia || done)). ostep.
  rewrite vec_set_ok by (apply lookup_lt_Some in Hg; unfold zlen; lia). ostep.
  destruct (next_bit (kl_rng_state s)) as [b rng]. cbn [fst snd].
  rewrite Nat2Z.id. replace (Z.of_nat j + 1) with (Z.of_nat (S j)) by lia.
  rewrite (vec_get_Some _ _ next); [|lia|by rewrite Nat2Z.id, list_lookup_insert_ne by lia].
  ostep. rewrite vec_set_ok by (apply lookup_lt_Some in Hn; unfold zlen; rewrite length_insert; lia).
  ostep. by rewrite Nat2Z.id.
Qed.

Definition num_items (levels : list (list Z)) : Z := lsum (zlen <$> levels).

Lemma num_items_insert levels j l l' :
  levels !! j = Some l →
  num_items (<[j := l']> levels) = num_items levels + (zlen l' - zlen l).
Proof.
  unfold num_items. revert j. induction levels as [|m ls IH]; intros [|j] H; [done..| |].
  - injection H as ->. change (<[0%nat := l']> (l :: ls)) with (l' :: ls).
    rewrite !fmap_cons. unfold lsum. cbn [foldr]. lia.
  - change (<[S j := l']> (m :: ls)) with (m :: <[j := l']> ls). rewrite !fmap_cons.
    specialize (IH j H). unfold lsum in *. cbn [foldr]. lia.
Qed.

Lemma num_items_grown levels j : num_items (grown levels j) = num_items levels.
Proof.
  unfold grown. case_match; [|done]. unfold num_items. rewrite fmap_app, lsum_app.
  change (lsum (zlen <$> [[]])) with 0. lia.
Qed.

Lemma num_items_nonneg levels : 0 <= num_items levels.
Proof.
  unfold num_items. apply lsum_nonneg, Forall_fmap, Forall_forall. intros l _. apply zlen_nonneg.
Qed.

Lemma mass_grown (P : Z → Prop) `{!∀ x, Decision (P x)} levels j :
  mass P (grown levels j) = mass P levels.
Proof. unfold grown. case_match; [apply mass_app_empty|done]. Qed.

Lemma compacted_spec b levels j buf next :
  levels !! j = Some buf → grown levels j !! S j = Some next →
  (∀ x, x ∈ next → stored x levels) →
  let levels' := compacted b levels j buf next in
  zlen levels' = Z.max (zlen levels) (Z.of_nat j + 2) ∧
  num_items levels' = num_items levels - zlen buf + zlen (promote b (sort_unstable buf)) ∧
  (∀ i, (i < j)%nat → levels' !! i = levels !! i) ∧ levels' !! j = Some [] ∧
  (∀ x, stored x levels' → stored x levels) ∧
  ∀ (P : Z → Prop) (HP : ∀ x, Decision (P x)), (∀ y z, y <= z → P z → P y) →
    Z.abs (mass P levels' - mass P levels) <= 2 ^ Z.of_nat j.
Proof.
  intros Hb Hn Hnext levels'. pose proof (lookup_lt_Some _ _ _ Hb) as Hj.
  assert (grown levels j !! j = Some buf) as Hg.
  { destruct (grown_lookup levels j j Hj) as [(_ & _ & ?)| ->]; [lia|done]. }
  assert (<[j:=[]]> (grown levels j) !! S j = Some next) as Hn'
    by (by rewrite list_lookup_insert_ne by lia).
  split_and!.
  - unfold levels', compacted, zlen. rewrite !length_insert. unfold grown, zlen.
    case_match eqn:E; [apply Z.eqb_eq in E; rewrite length_app; cbn|apply Z.eqb_neq in E]; lia.
  - unfold levels', compacted. rewrite (num_items_insert _ _ next) by done.
    rewrite (num_items_insert _ _ buf) by done. rewrite num_items_grown, zlen_app, zlen_nil. lia.
  - intros i Hi. unfold levels', compacted. rewrite !list_lookup_insert_ne by lia.
    destruct (grown_lookup levels j i Hj) as [(_ & _ & ?)| ->]; [lia|done].
  - unfold levels', compacted. rewrite list_lookup_insert_ne by lia.
    apply list_lookup_insert_eq. by eapply lookup_lt_Some.
  - intros x (l & Hl & Hx). apply list_elem_of_lookup in Hl as [i Hi].
    unfold levels', compacted in Hi. apply list_lookup_insert_Some in Hi as [(_ & <- & _)|[Hne Hi]].
    + apply elem_of_app in Hx as [Hx|Hx]; [by apply Hnext|].
      exists buf. split; [by eapply list_elem_of_lookup_2|by eapply elem_of_promote].
    + apply list_lookup_insert_Some in Hi as [(_ & <- & _)|[Hne' Hi]]; [by apply elem_of_nil in Hx|].
      destruct (grown_lookup levels j i Hj) as [(E & _ & _)|E]; rewrite Hi in E.
      * injection E as ->. by apply elem_of_nil in Hx.
      * exists l. split; [by eapply list_elem_of_lookup_2|done].
  - intros P HP Hd. unfold levels', compacted. rewrite (mass_insert P _ _ next) by done.
    rewrite (mass_insert P _ _ buf) by done. rewrite mass_grown, cnt_app, cnt_nil.
    pose proof (promote_cnt P b buf Hd). rewrite Nat2Z.inj_succ, Z.pow_succ_r by lia.
    pose proof (Z.pow_pos_nonneg 2 (Z.of_nat j)). nia.
Qed.

(** ** The compression loop *)

Definition same_params (s s' : KllSketch) : Prop :=
  kl_k s' = kl_k s ∧ kl_hash s' = kl_hash s ∧ kl_n s' = kl_n s ∧ kl_updates s' = kl_updates s.

(** The total weight [2^level] of the compactions that the loop performs: how far
    the weighted rank of a value may drift. *)
Fixpoint compress_err (fuel : nat) (level : Z) (s : KllSketch) : Z :=
  if level <? zlen (kl_levels s) then
    match fuel with
    | O => 0
    | S fuel =>
        if zlen (default [] (kl_levels s !! Z.to_nat level)) <=? capacity s level
        then compress_err fuel (level + 1) s
        else
          match compact s level with
          | Ok s => 2 ^ level + compress_err fuel (level + 1) s
          | _ => 0
          end
    end
  else 0.

Lemma capacity_le s level : MIN_LEVEL_CAPACITY <= kl_k s → 8 <= capacity s level <= kl_k s.
Proof.
  unfold capacity, MIN_LEVEL_CAPACITY. cbv zeta. intros Hk.
  enough (∀ n, Nat.iter n decay (kl_k s) <= kl_k s ∧ 0 <= Nat.iter n decay (kl_k s)) as H.
  { specialize (H (Z.to_nat (zlen (kl_levels s) - 1 - level))). lia. }
  intros n. induction n as [|n IH]; cbn [Nat.iter nat_rect]; [lia|].
  change (nat_rect (λ _, Z) (kl_k s) (λ _, decay) n) with (Nat.iter n decay (kl_k s)).
  unfold decay at 1 3, CAPACITY_DECAY_NUM, CAPACITY_DECAY_DEN, wmul64, wrap64.
  set (c := Nat.iter n decay (kl_k s)) in *. pose proof (Z.mod_le (c * 2) u64_mod).
  pose proof (Z.mod_pos_bound (c * 2) u64_mod). split; [|apply Z.div_pos; lia].
  apply Z.div_le_upper_bound; lia.
Qed.

Record compressed (level : Z) (e : Z) (s s' : KllSketch) : Prop := {
  cp_params : same_params s s';
  cp_len : zlen (kl_levels s) <= zlen (kl_levels s');
  cp_below i : (i < Z.to_nat level)%nat → kl_levels s' !! i = kl_levels s !! i;
  cp_above i l : (Z.to_nat level <= i)%nat → kl_levels s' !! i = Some l → zlen l <= kl_k s;
  cp_stored x : stored x (kl_levels s') → stored x (kl_levels s);
  cp_some : 0 < num_items (kl_levels s) → 0 < num_items (kl_levels s');
  cp_mass (P : Z → Prop) (HP : ∀ x, Decision (P x)) : (∀ y z, y <= z → P z → P y) →
    Z.abs (mass P (kl_levels s') - mass P (kl_levels s)) <= e;
}.

Lemma compress_loop_spec fuel level s :
  0 <= level → MIN_LEVEL_CAPACITY <= kl_k s →
  zlen (kl_levels s) - level + num_items (kl_levels s) <= Z.of_nat fuel →
  ∃ s', compress_loop fuel level s = Some (Ok s') ∧
    compressed level (compress_err fuel level s) s s'.
Proof.
  revert level s. induction fuel as [|fuel IH]; intros level s Hl Hk Hf.
  all: pose proof (num_items_nonneg (kl_levels s)) as Hn.
  all: cbn [compress_loop compress_err]; destruct (Z.ltb_spec level (zlen (kl_levels s)));
    [|exists s; split; [done|split; try done; [intros i l Hi Hs; apply lookup_lt_Some in Hs;
        unfold zlen in *; lia|intros; lia]]].
  { lia. }
  destruct (vec_get_ok (E := SketchError) (kl_levels s) level) as (buf & -> & Hbuf); [lia|].
  rewrite Hbuf. change (default [] (Some buf)) with buf.
  destruct (Z.leb_spec (zlen buf) (capacity s level)) as [Hc|Hc].
  - destruct (IH (level + 1) s) as (s' & -> & H'); [lia..|]. exists s'. split; [done|].
    destruct H' as [H1 H2 H3 H4 H5 H6 H7]. split; try done.
    + intros i Hi. apply H3. lia.
    + intros i l Hi Hs. destruct (decide (i = Z.to_nat level)) as [->|];
        [|by apply (H4 i); [lia|]].
      rewrite H3, Hbuf in Hs by lia. injection Hs as <-. pose proof (capacity_le s level Hk). lia.
  - pose proof (capacity_le s level Hk) as Hcap.
    destruct (kl_compact_spec s (Z.to_nat level) buf Hbuf) as (next & Hnext & Hst & Hcp).
    rewrite Z2Nat.id in Hcp by lia. rewrite Hcp.
    destruct (compacted_spec (next_bit (kl_rng_state s)).1 (kl_levels s) (Z.to_nat level) buf next
      Hbuf Hnext Hst) as (C1 & C2 & C3 & C4 & C5 & C6).
    set (levels' := compacted _ _ _ _ _) in *. pose proof (zlen_promote (next_bit (kl_rng_state s)).1 buf) as Hp.
    set (s1 := with_levels s levels' _). rewrite Z2Nat.id in C1 by lia.
    destruct (IH (level + 1) s1) as (s' & -> & H'); [lia|done|change (kl_levels s1) with levels'; lia|].
    exists s'. split; [done|]. destruct H' as [H1 H2 H3 H4 H5 H6 H7].
    change (kl_levels s1) with levels' in *. change (kl_k s1) with (kl_k s) in *. split; try done.
    + lia.
    + intros i Hi. rewrite H3 by lia. apply C3. lia.
    + intros i l Hi Hs. destruct (decide (i = Z.to_nat level)) as [->|];
        [|by apply (H4 i); [lia|]].
      rewrite H3, C4 in Hs by lia. injection Hs as <-. rewrite zlen_nil. lia.
    + intros x Hx. by apply C5, H5.
    + intros _. apply H6. pose proof (num_items_insert _ _ _ [] Hbuf) as Hle.
      pose proof (num_items_nonneg (<[Z.to_nat level := []]> (kl_levels s))).
      rewrite zlen_nil in Hle. lia.
    + intros P HP Hd. specialize (H7 P HP Hd). specialize (C6 P HP Hd).
      rewrite Z2Nat.id in C6 by lia. lia.
Qed.

(** ** Operations *)

Definition err_of (s : KllSketch) : Z :=
  compress_err (Z.to_nat (zlen (kl_levels s) + items s)) 0 s.

Lemma kl_compress_spec s :
  MIN_LEVEL_CAPACITY <= kl_k s →
  ∃ s', compress s = Ok s' ∧ compressed 0 (err_of s) s s'.
Proof.
  intros Hk. pose proof (num_items_nonneg (kl_levels s)) as Hn.
  destruct (compress_loop_spec (Z.to_nat (zlen (kl_levels s) + items s)) 0 s)
    as (s' & Hs & Hc); [done|done| |].
  - unfold items, num_items in *. pose proof (zlen_nonneg (kl_levels s)). lia.
  - exists s'. unfold compress. by rewrite Hs.
Qed.

Record wf (s : KllSketch) : Prop := {
  wf_k : MIN_LEVEL_CAPACITY <= kl_k s < u64_mod;
  wf_levels : kl_levels s ≠ [];
  wf_n : u64_ok (kl_n s);
  wf_updates : u64_ok (kl_updates s);
}.

Lemma zlen_pos {A} (l : list A) : l ≠ [] ↔ 0 < zlen l.
Proof. rewrite <- length_zero_iff_nil. unfold zlen. lia. Qed.

(** The sketch that [insert] compresses. *)
Definition pushed (s : KllSketch) (value : Z) : KllSketch :=
  {| kl_k := kl_k s; kl_hash := kl_hash s;
     kl_levels := match kl_levels s with
                  | l :: levels => (l ++ [value]) :: levels
                  | [] => []
                  end;
     kl_n := kl_n s +ʷ 1; kl_rng_state := kl_rng_state s;
     kl_updates := kl_updates s +ʷ 1 |}.

Lemma insert_pushed s value : kl_levels s ≠ [] → insert s value = compress (pushed s value).
Proof. intros Hl. unfold insert, pushed. by destruct (kl_levels s). Qed.

Lemma compressed_wf level e s s' : wf s → compressed level e s s' → wf s'.
Proof.
  intros [] [(Hk & Hh & Hn & Hu) Hlen _ _ _ _ _]. split; try congruence.
  apply zlen_pos. apply zlen_pos in wf_levels0. lia.
Qed.

Lemma pushed_wf s value : wf s → wf (pushed s value).
Proof.
  intros []. split; cbn; try apply wadd64_range; try done. by destruct (kl_levels s).
Qed.

Lemma kl_insert_spec s value :
  wf s → ∃ s', insert s value = Ok s' ∧ wf s' ∧
    compressed 0 (err_of (pushed s value)) (pushed s value) s'.
Proof.
  intros Hs. rewrite insert_pushed by apply Hs. pose proof (pushed_wf s value Hs) as Hp.
  destruct (kl_compress_spec (pushed s value)) as (s' & Hs' & Hc); [apply Hs|].
  exists s'. split; [done|]. split; [by eapply compressed_wf|done].
Qed.

(** The sketch that [merge_from] compresses. *)
Definition joined (s t : KllSketch) : KllSketch :=
  {| kl_k := kl_k s; kl_hash := kl_hash s;
     kl_levels := zip_levels (kl_levels s) (kl_levels t);
     kl_n := kl_n s +ʷ kl_n t;
     kl_rng_state := splitmix64 (Z.lxor (kl_rng_state s) (kl_rng_state t));
     kl_updates := kl_updates s +ʷ kl_updates t |}.

Lemma joined_wf s t : wf s → wf (joined s t).
Proof.
  intros []. split; cbn; try apply wadd64_range; try done.
  by destruct (kl_levels s), (kl_levels t).
Qed.

Lemma kl_merge_spec s t :
  wf s → compatibility s = compatibility t →
  ∃ s', merge_from s t = Ok s' ∧ wf s' ∧ compressed 0 (err_of (joined s t)) (joined s t) s'.
Proof.
  intros Hs Hc. unfold merge_from. rewrite (proj2 (ensure_matches_ok _ _) Hc). clear Hc. ostep.
  fold (joined s t). destruct (kl_compress_spec (joined s t)) as (s' & Hs' & Hc); [apply Hs|].
  exists s'. split; [done|]. split; [|done]. eapply compressed_wf; [by apply joined_wf|done].
Qed.

Lemma kl_compatibility_same s t :
  kl_k s = kl_k t → kl_hash s = kl_hash t → compatibility s = compatibility t.
Proof. unfold compatibility, params_hash. by intros -> ->. Qed.

(** ** Histories

    [history k h s vs e]: [s] is the result of inserting the values [vs] on any
    number of nodes and merging the nodes' sketches, and the compactions
    performed on the way have total weight [e]. *)
Inductive history (k : Z) (h : HashSpec) : KllSketch → list Z → Z → Prop :=
  | history_new s : u64_ok k → new k h = Ok s → history k h s [] 0
  | history_insert s vs e v s' :
      history k h s vs e → insert s v = Ok s' →
      history k h s' (vs ++ [v]) (e + err_of (pushed s v))
  | history_merge s vs e t vs' e' s' :
      history k h s vs e → history k h t vs' e' → merge_from s t = Ok s' →
      history k h s' (vs ++ vs') (e + e' + err_of (joined s t)).

Record summary (k : Z) (h : HashSpec) (s : KllSketch) (vs : list Z) (e : Z) : Prop := {
  sm_wf : wf s;
  sm_k : kl_k s = k;
  sm_hash : kl_hash s = h;
  sm_n : kl_n s = wrap64 (zlen vs);
  sm_level l : l ∈ kl_levels s → zlen l <= k;
  sm_stored x : stored x (kl_levels s) → x ∈ vs;
  sm_some : vs ≠ [] → 0 < num_items (kl_levels s);
  sm_mass (P : Z → Prop) (HP : ∀ x, Decision (P x)) : (∀ y z, y <= z → P z → P y) →
    Z.abs (mass P (kl_levels s) - cnt P vs) <= e;
}.

Lemma stored_pushed x s v :
  stored x (kl_levels (pushed s v)) → stored x (kl_levels s) ∨ x = v.
Proof.
  intros (l & Hl & Hx). unfold stored. cbn [kl_levels pushed] in Hl.
  destruct (kl_levels s) as [|m ls]; [set_solver|].
  apply elem_of_cons in Hl as [->|Hl]; [|left; exists l; set_solver].
  apply elem_of_app in Hx as [Hx|Hx]; [left; exists m; set_solver|right; set_solver].
Qed.

Lemma stored_zip_levels x a b : stored x (zip_levels a b) → stored x a ∨ stored x b.
Proof.
  unfold stored. revert a. induction b as [|l b IH]; intros [|m a]; cbn [zip_levels];
    intros (y & Hy & Hx); try (by left; exists y).
  - apply elem_of_cons in Hy as [->|Hy]; [right; exists l; set_solver|].
    destruct (IH [] ltac:(by exists y)) as [(z & Hz & _)|(z & Hz & Hxz)];
      [by apply elem_of_nil in Hz|right; exists z; set_solver].
  - apply elem_of_cons in Hy as [->|Hy].
    + apply elem_of_app in Hx as [Hx|Hx]; [left; exists m|right; exists l]; set_solver.
    + destruct (IH a ltac:(by exists y)) as [(z & Hz & Hxz)|(z & Hz & Hxz)];
        [left|right]; exists z; set_solver.
Qed.

Lemma num_items_zip_levels a b : num_items (zip_levels a b) = num_items a + num_items b.
Proof.
  unfold num_items, lsum. revert a. induction b as [|l b IH]; intros [|m a]; cbn [zip_levels];
    rewrite ?fmap_cons; cbn [foldr fmap list_fmap]; rewrite ?IH; cbn [foldr fmap list_fmap];
    rewrite ?zlen_app; lia.
Qed.

Lemma mass_pushed (P : Z → Prop) `{!∀ x, Decision (P x)} s v :
  kl_levels s ≠ [] → mass P (kl_levels (pushed s v)) = mass P (kl_levels s) + cnt P [v].
Proof.
  intros Hl. cbn [kl_levels pushed]. destruct (kl_levels s) as [|l ls]; [done|].
  cbn [mass]. rewrite cnt_app. lia.
Qed.

Lemma compressed_levels e s s' l :
  compressed 0 e s s' → l ∈ kl_levels s' → zlen l <= kl_k s.
Proof.
  intros Hc Hl. apply list_elem_of_lookup in Hl as [i Hi]. eapply (cp_above 0); [done| |done]. lia.
Qed.

Lemma kll_history_summary k h s vs e : history k h s vs e → summary k h s vs e.
Proof.
  induction 1 as [s Hk Hs|s vs e v s' _ IH Hs|s vs e t vs' e' s' _ IH1 _ IH2 Hs].
  - unfold new in Hs. destruct (Z.ltb_spec k MIN_LEVEL_CAPACITY); [done|]. injection Hs as <-.
    split; try done; cbn.
    + split; cbn; try done. word_lia.
    + intros l ->%list_elem_of_singleton. unfold MIN_LEVEL_CAPACITY in *. rewrite zlen_nil. lia.
    + intros x (l & ->%list_elem_of_singleton & Hx). done.
  - destruct (kl_insert_spec s v (sm_wf _ _ _ _ _ IH)) as (s1 & Hs1 & Hwf & Hc).
    rewrite Hs1 in Hs. injection Hs as ->. destruct IH as [IW Ik Ih In Il Ist Iso Im].
    pose proof (λ l, compressed_levels _ _ _ l Hc) as Hlv.
    destruct Hc as [(Ck & Ch & Cn & _) _ _ _ Cs Cso Cm]. cbn in Ck, Ch, Cn, Hlv.
    split; try congruence; try done.
    + rewrite Cn, In, wadd64_wrap_l, zlen_app. done.
    + intros l Hl. rewrite <- Ik. by apply Hlv.
    + intros x Hx. apply Cs, stored_pushed in Hx as [Hx| ->]; set_solver.
    + intros _. apply Cso. pose proof (num_items_nonneg (kl_levels s)) as Hnn.
      cbn [kl_levels pushed]. destruct (kl_levels s) as [|l ls] eqn:E; [by destruct IW|].
      unfold num_items, lsum in *. rewrite fmap_cons in *. cbn [foldr] in *. rewrite zlen_app.
      change (zlen [v]) with 1. lia.
    + intros P HP Hd. specialize (Im P HP Hd). specialize (Cm P HP Hd).
      rewrite mass_pushed in Cm by apply IW. rewrite cnt_app. lia.
  - destruct IH1 as [IW Ik Ih In Il Ist Iso Im], IH2 as [JW Jk Jh Jn Jl Jst Jso Jm].
    destruct (kl_merge_spec s t IW) as (s1 & Hs1 & Hwf & Hc);
      [apply kl_compatibility_same; congruence|].
    rewrite Hs1 in Hs. injection Hs as ->.
    pose proof (λ l, compressed_levels _ _ _ l Hc) as Hlv.
    destruct Hc as [(Ck & Ch & Cn & _) _ _ _ Cs Cso Cm]. cbn in Ck, Ch, Cn, Hlv.
    split; try congruence; try done.
    + rewrite Cn, In, Jn, wadd64_wrap, zlen_app. done.
    + intros l Hl. rewrite <- Ik. by apply Hlv.
    + intros x Hx. apply Cs, stored_zip_levels in Hx as [Hx|Hx]; set_solver.
    + intros Hne. apply Cso. cbn [kl_levels joined]. rewrite num_items_zip_levels.
      pose proof (num_items_nonneg (kl_levels s)). pose proof (num_items_nonneg (kl_levels t)).
      destruct vs as [|v vs]; [specialize (Jso Hne)|specialize (Iso ltac:(done))]; lia.
    + intros P HP Hd. specialize (Im P HP Hd). specialize (Jm P HP Hd). specialize (Cm P HP Hd).
      cbn in Cm. rewrite mass_zip_levels in Cm. rewrite cnt_app. lia.
Qed.

(** ** Quantile queries *)

Definition wmass (P : Z → Prop) `{!∀ x, Decision (P x)} (l : list (Z * Z)) : Z :=
  lsum ((λ p, if decide (P p.1) then p.2 else 0) <$> l).

Section wmass.
Context (P : Z → Prop) {HP : ∀ x, Decision (P x)}.

Lemma wmass_cons p l : wmass P (p :: l) = (if decide (P p.1) then p.2 else 0) + wmass P l.
Proof. apply lsum_fmap_cons. Qed.

Lemma wmass_app l m : wmass P (l ++ m) = wmass P l + wmass P m.
Proof. unfold wmass. by rewrite fmap_app, lsum_app. Qed.

Lemma wmass_Permutation l m : l ≡ₚ m → wmass P l = wmass P m.
Proof. intros H. unfold wmass. apply lsum_Permutation. by rewrite H. Qed.

Lemma wmass_const w l : wmass P ((λ v, (v, w)) <$> l) = w * cnt P l.
Proof.
  induction l as [|x l IH]; [rewrite cnt_nil; cbn; lia|].
  rewrite fmap_cons, wmass_cons, IH, cnt_cons. cbn [fst snd]. case_decide; lia.
Qed.

Lemma wmass_none l : Forall (λ p, ¬ P p.1) l → wmass P l = 0.
Proof. induction 1; [done|]. rewrite wmass_cons, decide_False by done. lia. Qed.

Lemma wmass_nonneg l : Forall (λ p, 0 <= p.2) l → 0 <= wmass P l.
Proof. induction 1; [done|]. rewrite wmass_cons. case_decide; lia. Qed.
End wmass.

Lemma wmass_le (P Q : Z → Prop) `{!∀ x, Decision (P x)} `{!∀ x, Decision (Q x)} l :
  Forall (λ p, 0 <= p.2) l → (∀ p, p ∈ l → P p.1 → Q p.1) → wmass P l <= wmass Q l.
Proof.
  intros Hl. induction Hl as [|p l Hp _ IH]; intros Hpq; [done|].
  rewrite (wmass_cons P), (wmass_cons Q). pose proof (IH ltac:(set_solver)).
  pose proof (Hpq p ltac:(set_solver)). repeat case_decide; try tauto; lia.
Qed.

Definition weighted_from (j : Z) (levels : list (list Z)) : list (Z * Z) :=
  concat (zip_with (λ level items, (λ v, (v, level_weight level)) <$> items)
    (seqZ j (zlen levels)) levels).

Lemma weighted_from_cons j l levels :
  weighted_from j (l :: levels) =
    ((λ v, (v, level_weight j)) <$> l) ++ weighted_from (Z.succ j) levels.
Proof.
  unfold weighted_from. rewrite zlen_cons, seqZ_cons by (pose proof (zlen_nonneg levels); lia).
  cbn [zip_with concat]. by replace (Z.pred (1 + zlen levels)) with (zlen levels) by lia.
Qed.

Lemma level_weight_pow j : 0 <= j < 64 → level_weight j = 2 ^ j.
Proof.
  intros Hj. unfold level_weight, shl64. rewrite Z.mod_small, Z.shiftl_1_l by lia.
  apply wrap64_small. split; [apply Z.pow_nonneg; lia|].
  change u64_mod with (2 ^ 64). apply Z.pow_lt_mono_r; lia.
Qed.

Lemma weighted_from_spec j levels :
  0 <= j → 2 ^ j * mass (λ _, True) levels < u64_mod →
  Forall (λ p, 0 <= p.2) (weighted_from j levels) ∧
  (∀ v, v ∈ (weighted_from j levels).*1 ↔ stored v levels) ∧
  ∀ (P : Z → Prop) (HP : ∀ x, Decision (P x)),
    wmass P (weighted_from j levels) = 2 ^ j * mass P levels.
Proof.
  revert j. induction levels as [|l levels IH]; intros j Hj Hb.
  { split; [constructor|]. split; [|intros P HP; change (0 = 2 ^ j * 0); lia].
    intros v. cbn. split; [set_solver|]. intros (l & Hl & _). set_solver. }
  cbn [mass] in Hb. rewrite cnt_true in Hb. pose proof (zlen_nonneg l).
  pose proof (mass_nonneg (λ _, True) levels). pose proof (Z.pow_pos_nonneg 2 j).
  destruct (IH (Z.succ j)) as (I1 & I2 & I3);
    [lia|rewrite Z.pow_succ_r by done; nia|].
  assert (l ≠ [] → level_weight j = 2 ^ j) as Hw.
  { intros Hne%zlen_pos. apply level_weight_pow. split; [done|].
    apply (Z.pow_lt_mono_r_iff 2); [lia..|]. change (2 ^ 64) with u64_mod. nia. }
  rewrite weighted_from_cons. split_and!.
  - apply Forall_app. split; [|done]. apply Forall_fmap, Forall_forall. intros v Hv.
    unfold compose. cbn [snd]. rewrite Hw by (by intros ->; apply elem_of_nil in Hv). lia.
  - intros v. rewrite fmap_app, elem_of_app, I2, <- list_fmap_compose.
    change (fst ∘ _) with (λ v : Z, v). rewrite list_fmap_id. unfold stored. set_solver.
  - intros P HP. rewrite wmass_app, I3. cbn [mass]. rewrite Z.pow_succ_r by done.
    rewrite wmass_const. destruct l as [|x l]; [rewrite cnt_nil; lia|].
    rewrite Hw by done. lia.
Qed.

Definition value_le (a b : Z * Z) : Prop := cmp_le (λ a b, Z.compare a.1 b.1) a b.

#[local] Instance value_cmp : CmpOrd (λ a b : Z * Z, Z.compare a.1 b.1).
Proof. apply (cmp_on fst Z.compare). Qed.

Lemma value_le_iff a b : value_le a b ↔ a.1 <= b.1.
Proof. unfold value_le, cmp_le. apply Z.compare_le_iff. Qed.

Lemma scan_spec target acc l :
  StronglySorted value_le l → Forall (λ p, 0 <= p.2) l → 0 <= acc < target →
  acc + wmass (λ _, True) l < u64_mod →
  match scan target acc l with
  | Some v => v ∈ l.*1 ∧ acc + wmass (λ x, x < v) l < target ∧
              target <= acc + wmass (λ x, x <= v) l
  | None => acc + wmass (λ _, True) l < target
  end.
Proof.
  revert acc. induction l as [|[v w] l IH]; intros acc Hs Hw Ha Hb; [change (acc + 0 < target); lia|].
  apply StronglySorted_inv in Hs as [Hs Hv]. pose proof (proj1 (Forall_cons _ _ _) Hw) as [Hw0 Hwl].
  rewrite (wmass_cons (λ _, True)), decide_True in Hb by done. cbn [fst snd] in *.
  pose proof (wmass_nonneg (λ _, True) l Hwl). cbn [scan].
  rewrite wadd64_small by word_lia. destruct (Z.leb_spec target (acc + w)) as [Ht|Ht].
  - split; [set_solver|].
    rewrite (wmass_cons (λ x, x < v)), (wmass_cons (λ x, x <= v)). cbn [fst snd].
    rewrite decide_False, decide_True by lia. split.
    + rewrite wmass_none; [lia|]. eapply Forall_impl; [exact Hv|].
      intros p Hp. apply (proj1 (value_le_iff _ _)) in Hp. cbn [fst] in Hp. lia.
    + pose proof (wmass_nonneg (λ x, x <= v) l Hwl). lia.
  - specialize (IH (acc + w) Hs Hwl ltac:(lia) ltac:(lia)).
    destruct (scan target (acc + w) l) as [v'|].
    + destruct IH as (Hin & Hlt & Hle). split; [set_solver|].
      rewrite (wmass_cons (λ x, x < v')), (wmass_cons (λ x, x <= v')). cbn [fst snd].
      assert (v <= v').
      { apply list_elem_of_fmap in Hin as (p & -> & Hp).
        apply (proj1 (Forall_forall _ _) Hv) in Hp. by apply (proj1 (value_le_iff _ _)) in Hp. }
      rewrite (decide_True (P := v <= v')) by done. case_decide; lia.
    + rewrite (wmass_cons (λ _, True)), decide_True by done. cbn [snd]. lia.
Qed.

Lemma total_weight_sum l :
  Forall (λ p, 0 <= p.2) l → wmass (λ _, True) l < u64_mod →
  total_weight l = wmass (λ _, True) l.
Proof.
  unfold total_weight. intros Hl Hb.
  enough (∀ acc, 0 <= acc → acc + wmass (λ _, True) l < u64_mod →
    foldl wadd64 acc l.*2 = acc + wmass (λ _, True) l) as H by (by rewrite H).
  clear Hb. induction Hl as [|p l Hp Hl IH]; intros acc Ha Hb; [change (acc = acc + 0); lia|].
  rewrite (wmass_cons (λ _, True)), decide_True in * by done. rewrite fmap_cons. cbn [foldl].
  pose proof (wmass_nonneg (λ _, True) l Hl). rewrite wadd64_small by word_lia.
  rewrite IH by lia. lia.
Qed.

Lemma quantile_spec s q :
  kl_n s ≠ 0 → 0 < num_items (kl_levels s) → mass (λ _, True) (kl_levels s) < u64_mod →
  ∃ v, quantile s q = Some v ∧ stored v (kl_levels s) ∧
    let W := mass (λ _, True) (kl_levels s) in
    let t := target_rank (clamp01 q) W in
    mass (λ x, x < v) (kl_levels s) < t ∧ Z.min t W <= mass (λ x, x <= v) (kl_levels s).
Proof.
  intros Hn Hi Hb. unfold quantile. rewrite (proj2 (Z.eqb_neq _ _)) by done. cbv zeta.
  change (weighted_items s) with (weighted_from 0 (kl_levels s)).
  destruct (weighted_from_spec 0 (kl_levels s)) as (W1 & W2 & W3);
    [done|change (2 ^ 0) with 1; lia|].
  set (w := weighted_from 0 (kl_levels s)) in *.
  assert (sort_by_value w ≡ₚ w) as Hp by apply sort_by_Permutation.
  assert (∀ (P : Z → Prop) (HP : ∀ x, Decision (P x)),
    wmass P (sort_by_value w) = mass P (kl_levels s)) as Hm.
  { intros P HP. rewrite (wmass_Permutation P _ _ Hp), W3. change (2 ^ 0) with 1. lia. }
  assert (StronglySorted value_le (sort_by_value w)) as Hs by apply (sort_by_sorted _ w).
  assert (Forall (λ p, 0 <= p.2) (sort_by_value w)) as Hw by by rewrite Hp.
  assert (∀ v, v ∈ (sort_by_value w).*1 → stored v (kl_levels s)) as Hst.
  { intros v. rewrite Hp. apply W2. }
  rewrite total_weight_sum by (try done; rewrite Hm; lia). rewrite Hm.
  set (t := target_rank _ _). assert (1 <= t) by (unfold t, target_rank; lia).
  pose proof (scan_spec t 0 (sort_by_value w) Hs Hw ltac:(lia)) as Hsc.
  rewrite !Hm in Hsc. specialize (Hsc ltac:(lia)).
  destruct (scan t 0 (sort_by_value w)) as [v|].
  - destruct Hsc as (Hv & Hlt & Hle). rewrite Hm in Hlt, Hle. exists v.
    split; [done|]. split; [by apply Hst|lia].
  - destruct (last (sort_by_value w)) as [p|] eqn:El.
    + exists p.1. split; [done|]. split.
      { apply Hst, list_elem_of_fmap. exists p. split; [done|].
        apply last_Some_elem_of in El. done. }
      rewrite <- !Hm in *. split.
      * eapply Z.le_lt_trans; [|apply Hsc]. by apply wmass_le.
      * etransitivity; [apply Z.le_min_r|]. apply wmass_le; [done|]. intros p' Hp' _.
        apply last_Some in El as [l' El]. rewrite El in Hs, Hp'.
        apply elem_of_app in Hp' as [Hp'|Hp'%list_elem_of_singleton]; [|by subst].
        apply (StronglySorted_app_1_elem_of _ _ _ p' p) in Hs; [|done|set_solver].
        by apply (proj1 (value_le_iff _ _)) in Hs.
    + apply last_None in El. rewrite El in Hp. symmetry in Hp. apply Permutation_nil_r in Hp.
      exfalso. assert (∃ x, stored x (kl_levels s)) as (x & Hx).
      { clear -Hi. unfold num_items, lsum in Hi. induction (kl_levels s) as [|l ls IH]; [cbn in Hi; lia|].
        destruct l as [|x l]; [|exists x; exists (x :: l); set_solver].
        destruct IH as (x & m & Hm & Hx);
          [rewrite fmap_cons in Hi; cbn [foldr] in Hi; change (zlen []) with 0 in Hi; lia|]. exists x, m. set_solver. }
      apply W2 in Hx. unfold w in Hx. fold w in Hx. rewrite Hp in Hx. by apply elem_of_nil in Hx.
Qed.

Lemma kll_rank k h s vs e q :
  history k h s vs e → vs ≠ [] → zlen vs + e < u64_mod →
  ∃ v, quantile s q = Some v ∧ v ∈ vs ∧
    let W := mass (λ _, True) (kl_levels s) in
    let t := target_rank (clamp01 q) W in
    cnt (λ x, x < v) vs < t + e ∧ Z.min t W - e <= cnt (λ x, x <= v) vs ∧
    Z.abs (W - zlen vs) <= e.
Proof.
  intros Hh Hne Hb. apply kll_history_summary in Hh as [_ _ _ Hn _ Hst Hso Hm].
  pose proof (Hm (λ _, True) _ ltac:(done)) as HW. rewrite cnt_true in HW.
  apply zlen_pos in Hne as Hpos.
  destruct (quantile_spec s q) as (v & Hq & Hv & Hlt & Hle).
  - rewrite Hn, wrap64_small; [lia|]. split; lia.
  - by apply Hso.
  - lia.
  - exists v. split; [done|]. split; [by apply Hst|]. cbv zeta in *.
    pose proof (Hm (λ x, x < v) _ ltac:(cbn; intros; lia)). pose proof (Hm (λ x, x <= v) _ ltac:(cbn; intros; lia)). lia.
Qed.

(** [C14] KLL rank guarantee.  After any history of insertions and merges, on any
    number of nodes, a quantile query returns one of the inserted values, and
    that value's true rank differs from the rank asked for by at most the total
    weight of the compactions performed; with no compaction it is exact.  The
    estimated total weight differs from the number of values by no more. *)
Theorem kll_quantile_rank k h s vs e q :
  history k h s vs e → vs ≠ [] → zlen vs + e < u64_mod →
  ∃ v, quantile s q = Some v ∧ v ∈ vs ∧
    let W := mass (λ _, True) (kl_levels s) in
    let t := target_rank (clamp01 q) W in
    cnt (λ x, x < v) vs < t + e ∧ Z.min t W - e <= cnt (λ x, x <= v) vs ∧
    Z.abs (W - zlen vs) <= e.
Proof. apply kll_rank. Qed.

Definition blank : KllSketch := run_or (mkKll 8 HashSpec_default [[]] 0 0 0) (new 8 HashSpec_default).
(** Twenty insertions: levels are compacted and promoted. *)
Definition twenty : KllSketch := foldl (λ s v, run_or s (insert s v)) blank (seqZ 1 20).
Fixpoint ghost (s : KllSketch) (vs : list Z) : Z :=
  match vs with [] => 0 | v :: vs => err_of (pushed s v) + ghost (run_or s (insert s v)) vs end.

Lemma history_inserts k h s vs e l :
  history k h s vs e →
  history k h (foldl (λ s v, run_or s (insert s v)) s l) (vs ++ l) (e + ghost s l).
Proof.
  revert s vs e. induction l as [|v l IH]; intros s vs e Hs.
  - by rewrite app_nil_r, Z.add_0_r.
  - destruct (kl_insert_spec s v) as (s' & Hs' & _); [by eapply sm_wf, kll_history_summary|].
    cbn [foldl ghost]. rewrite Hs'. cbn [run_or].
    rewrite Z.add_assoc, (app_assoc vs [v] l : vs ++ v :: l = _). apply IH. by eapply history_insert.
Qed.

Lemma twenty_history : history 8 HashSpec_default twenty (seqZ 1 20) (ghost blank (seqZ 1 20)).
Proof. apply (history_inserts _ _ blank [] 0). by apply history_new; [range_tac|]. Qed.

Lemma kll_quantile_rank_witness :
  ∃ v, quantile twenty (f_lit 1 2) = Some v ∧ v ∈ seqZ 1 20.
Proof.
  destruct (kll_quantile_rank 8 HashSpec_default twenty (seqZ 1 20) _ (f_lit 1 2) twenty_history)
    as (v & Hq & Hv & _); [done|vm_compute; reflexivity|]. exists v. split; [exact Hq|exact Hv].
Defined.

(** Compaction terminates and bounds the sketch.  On every reachable sketch
    insertions and compatible merges return (the loop runs out of over-full
    levels and never indexes out of range), and no level holds more than [k]
    items, the room the planner charges for. *)
Lemma kll_levels_bounded k h s vs e :
  history k h s vs e →
  (∀ l, l ∈ kl_levels s → zlen l <= k) ∧
  (∀ v, ∃ s', insert s v = Ok s') ∧
  (∀ t vs' e', history k h t vs' e' → ∃ s', merge_from s t = Ok s').
Proof.
  intros Hh%kll_history_summary. split; [apply Hh|]. split.
  - intros v. destruct (kl_insert_spec s v) as (s' & Hs' & _); [apply Hh|eauto].
  - intros t vs' e' Ht%kll_history_summary.
    destruct (kl_merge_spec s t) as (s' & Hs' & _); [apply Hh| |eauto].
    destruct Hh, Ht. apply kl_compatibility_same; congruence.
Qed.

Lemma kll_levels_bounded_witness : ∃ s', merge_from twenty twenty = Ok s'.
Proof.
  destruct (kll_levels_bounded 8 HashSpec_default twenty (seqZ 1 20) _ twenty_history)
    as (_ & _ & H). exact (H twenty _ _ twenty_history).
Defined.

#[export] Instance Kll_Lawful : LawfulSketch KllSketch (λ s, wf s).
Proof.
  split; cbn [sk_update sk_merge_from sk_reset sk_update_count sk_compatibility Kll_Sketch].
  - intros s key v Hs _. destruct (kl_insert_spec s v Hs) as (s' & Hu & Hwf & Hc).
    exists s'. split; [done|]. split; [done|]. destruct (cp_params _ _ _ _ Hc) as (Hk & Hh & _ & Hn).
    split; [by apply kl_compatibility_same|done].
  - intros s t Hs Ht Hco. destruct (kl_merge_spec s t Hs Hco) as (s' & Hu & Hwf & Hc). clear Hco.
    exists s'. split; [done|]. split; [done|]. destruct (cp_params _ _ _ _ Hc) as (Hk & Hh & _ & Hn).
    split; [by apply kl_compatibility_same|done].
  - intros s t Hne. unfold merge_from, ensure_matches. by rewrite decide_True.
  - intros s Hs. split; [|split; [done|by apply kl_compatibility_same]].
    split; cbn; try done. apply Hs.
Qed.

(** ** Snapshots *)

Definition enc_level (l : list Z) : list Z := le_bytes 4 (zlen l) ++ encode_all (le_bytes 8) l.

(** The sizes fit the format's length fields. *)
Record snapshot_ok (s : KllSketch) : Prop := {
  so_wf : wf s;
  so_hash : hash_spec_ok (kl_hash s);
  so_rng : u64_ok (kl_rng_state s);
  so_items : Forall (Forall u64_ok) (kl_levels s);
  so_levels : zlen (kl_levels s) <= MAX_LEVELS;
  so_size : u32_ok (28 + zlen (encode_all enc_level (kl_levels s)));
}.

Lemma zlen_enc_level l : zlen (enc_level l) = 4 + 8 * zlen l.
Proof.
  unfold enc_level. rewrite zlen_app, zlen_le_bytes, (zlen_encode_all _ 8); [lia|].
  intros. apply zlen_le_bytes.
Qed.

Lemma zlen_encode_all_ge {A} (enc : A → list Z) x xs :
  x ∈ xs → zlen (enc x) <= zlen (encode_all enc xs).
Proof.
  induction xs as [|y xs IH]; intros Hx; [by apply elem_of_nil in Hx|].
  rewrite encode_all_cons, zlen_app. pose proof (zlen_nonneg (enc y)).
  pose proof (zlen_nonneg (encode_all enc xs)).
  apply elem_of_cons in Hx as [->|Hx]; [lia|]. specialize (IH Hx). lia.
Qed.

Lemma zlen_encode_all_min {A} (enc : A → list Z) n xs :
  (∀ x, n <= zlen (enc x)) → n * zlen xs <= zlen (encode_all enc xs).
Proof.
  intros He. induction xs as [|x xs IH]; [unfold zlen; cbn; lia|].
  rewrite encode_all_cons, zlen_app, zlen_cons. specialize (He x). lia.
Qed.

Lemma num_items_encoded ls : 8 * num_items ls <= zlen (encode_all enc_level ls).
Proof.
  unfold num_items. induction ls as [|l ls IH]; [done|].
  rewrite encode_all_cons, zlen_app, zlen_enc_level, lsum_fmap_cons. lia.
Qed.

Lemma w_levels_enc levels w :
  Forall (λ l, zlen l < 4294967296) levels →
  foldl w_level w levels = w ++ encode_all enc_level levels.
Proof.
  revert w. induction levels as [|l levels IH]; intros w Hl; [by rewrite app_nil_r|].
  apply Forall_cons in Hl as [Hl Hls]. cbn [foldl]. rewrite IH by done.
  rewrite encode_all_cons, app_assoc. f_equal. unfold w_level, enc_level.
  rewrite (foldl_write w_u64 (le_bytes 8)) by done. unfold w_u32, as_u32.
  rewrite Z.mod_small by (pose proof (zlen_nonneg l); lia). by rewrite app_assoc.
Qed.

Lemma r_level_rd l pre suf :
  Forall u64_ok l → zlen l < 4294967296 →
  r_level (rd pre (enc_level l ++ suf)) = Ok (l, rd (pre ++ enc_level l) suf).
Proof.
  intros Hl Hn. unfold r_level, enc_level. rewrite <- app_assoc.
  rewrite r_u32_rd by (pose proof (zlen_nonneg l); word_lia). ostep.
  rewrite (proj2 (check_count_rd _ _ _ _)).
  2:{ rewrite zlen_app, (zlen_encode_all _ 8) by (intros; apply zlen_le_bytes).
      pose proof (zlen_nonneg suf). change (Z.max 8 1) with 8.
      apply Z.div_le_lower_bound; lia. }
  ostep. unfold zlen at 1. rewrite Nat2Z.id, read_u64s_rd by done. by rewrite <- app_assoc.
Qed.

(** A KLL snapshot restores the sketch exactly. *)
Lemma kll_snapshot_round_trip s ws we :
  snapshot_ok s → u64_ok ws → u64_ok we → from_snapshot (to_snapshot s ws we) = Ok s.
Proof.
  intros [[Hk Hne Hn Hup] Hh Hr Hi Hlv Hsz] Hws Hwe.
  assert (Forall (λ l, zlen l < 4294967296) (kl_levels s)) as Hll.
  { apply Forall_forall. intros l Hl. pose proof (zlen_encode_all_ge enc_level l _ Hl) as Hle.
    rewrite zlen_enc_level in Hle. word_lia. }
  assert (4 * zlen (kl_levels s) <= zlen (encode_all enc_level (kl_levels s))) as Hmin.
  { apply zlen_encode_all_min. intros l. rewrite zlen_enc_level. pose proof (zlen_nonneg l). lia. }
  unfold MIN_LEVEL_CAPACITY, MAX_LEVELS in *. pose proof (zlen_nonneg (kl_levels s)).
  unfold to_snapshot, from_snapshot. cbv zeta. rewrite w_levels_enc by done.
  unfold w_u64, w_u32, Writer_new, as_u32. rewrite Z.mod_small by lia. cbn [app].
  rewrite <- !app_assoc. rewrite read_write_snapshot.
  - ostep. cbv beta iota zeta. cbn [sh_algorithm_id sh_hash]. rewrite Z.eqb_refl. ostep.
    change Reader_new with (rd []).
    rewrite <- (app_nil_r (le_bytes 8 (kl_k s))), (r_u64_rd (kl_k s)) by word_lia. ostep.
    unfold MIN_LEVEL_CAPACITY. rewrite (proj2 (Z.ltb_ge _ _)) by lia. ostep.
    rewrite (r_u64_rd (kl_n s)) by done. ostep.
    rewrite (r_u64_rd (kl_rng_state s)) by done. ostep.
    rewrite (r_u64_rd (kl_updates s)) by done. ostep.
    rewrite r_u32_rd by word_lia. ostep.
    unfold MAX_LEVELS. rewrite (proj2 (Z.ltb_ge 64 _)) by lia. ostep.
    rewrite (proj2 (check_count_rd _ _ _ _)).
    2:{ change (Z.max 4 1) with 4. apply Z.div_le_lower_bound; lia. }
    ostep. unfold zlen at 1. rewrite Nat2Z.id.
    rewrite <- (app_nil_r (encode_all enc_level (kl_levels s))), (read_n_rd r_level enc_level).
    + ostep. destruct s as [k hash [|l ls] n rng up]; done.
    + intros l pre suf Hl. rewrite Forall_forall in Hi. rewrite Forall_forall in Hll.
      apply r_level_rd; [by apply Hi|by apply Hll].
  - unfold header_ok. cbn. split_and!; try done.
  - rewrite zlen_le_bytes. word_lia.
  - rewrite !zlen_app, !zlen_le_bytes. word_lia.
Qed.

Lemma twenty_snapshot_ok : snapshot_ok twenty.
Proof.
  split; [eapply sm_wf, kll_history_summary, twenty_history|split; by range_tac|by range_tac| |by range_tac..].
  apply (bool_decide_unpack _). vm_compute. exact I.
Qed.

Lemma kll_snapshot_round_trip_witness : from_snapshot (to_snapshot twenty 0 60) = Ok twenty.
Proof. apply (kll_snapshot_round_trip twenty 0 60 twenty_snapshot_ok); by range_tac. Defined.

Lemma r_level_inv pre suf l r :
  bytes_ok suf → r_level (rd pre suf) = Ok (l, r) →
  ∃ suf', suf = enc_level l ++ suf' ∧ bytes_ok suf' ∧ r = rd (pre ++ enc_level l) suf' ∧
    Forall u64_ok l.
Proof.
  intros Hs H. unfold r_level in H. apply bind_ok in H as ([n r1] & Hn & H).
  apply r_u32_inv in Hn as (s1 & -> & Hs1 & -> & Hn); [|done].
  apply bind_ok in H as ([] & _ & H).
  apply read_u64s_inv in H as (s2 & -> & Hs2 & -> & Hl & Hu); [|done].
  assert (zlen l = n) as Hz by (unfold zlen; rewrite Hl; word_lia).
  exists s2. unfold enc_level. rewrite Hz, <- !app_assoc. done.
Qed.

Lemma r_level_no_panic pre suf : bytes_ok suf → no_panic (r_level (rd pre suf)).
Proof.
  intros Hs. unfold r_level. apply bind_no_panic; [auto with outcome|]. intros [n r1] Hn.
  apply r_u32_inv in Hn as (s1 & -> & Hs1 & -> & Hn); [|done].
  apply bind_no_panic; [auto with outcome|]. intros _ _. by apply read_u64s_no_panic.
Qed.

Lemma read_levels_no_panic n pre suf :
  bytes_ok suf → no_panic (read_n n r_level (rd pre suf)).
Proof.
  revert pre suf. induction n as [|n IH]; intros pre suf Hs; [done|]. cbn [read_n].
  apply bind_no_panic; [by apply r_level_no_panic|]. intros [l r] Hl.
  apply r_level_inv in Hl as (s1 & -> & Hs1 & -> & _); [|done].
  apply bind_no_panic; [by apply IH|]. intros [ls r] _. done.
Qed.

Lemma merge_no_panic s t : wf s → no_panic (merge_from s t).
Proof.
  intros Hs. unfold no_panic, merge_from, ensure_matches. case_decide; [done|]. ostep.
  fold (joined s t). destruct (kl_compress_spec (joined s t)) as (s' & -> & _); [apply Hs|done].
Qed.

(** Restoring an untrusted KLL snapshot is safe: it never panics, and an
    accepted sketch has at most 64 levels, holds no more items than the input
    could encode, and can be updated and merged without panicking. *)
Lemma kll_from_snapshot_safe b :
  bytes_ok b →
  no_panic (from_snapshot b) ∧
  ∀ s, from_snapshot b = Ok s →
    wf s ∧ zlen (kl_levels s) <= MAX_LEVELS ∧ 8 * items s <= zlen b ∧
    (∀ v, no_panic (insert s v)) ∧ ∀ t, no_panic (merge_from s t).
Proof.
  intros Hb. split.
  - unfold from_snapshot.
    apply bind_no_panic; [by apply parse_no_panic|]. intros [[hd ps] pl] Hr.
    destruct (accepted_parts _ _ _ _ Hb Hr) as (_ & Hps & Hpl & _).
    change Reader_new with (rd []). no_panic_read. by apply read_levels_no_panic.
  - intros s H. unfold from_snapshot in H.
    apply bind_ok in H as ([[hd ps] pl] & Hr & H).
    destruct (accepted_parts _ _ _ _ Hb Hr) as (_ & Hps & Hpl & Hlen).
    assert (zlen pl <= zlen b) as Hle by (pose proof (zlen_nonneg ps); lia). clear Hlen.
    change Reader_new with (rd []) in H. read_inv.
    match goal with Ht : read_n _ _ _ = Ok _ |- _ => rename Ht into Hlv end.
    apply (read_n_inv r_level enc_level (Forall u64_ok)) in Hlv as (suf & -> & _ & _ & Hn & Hit);
      [|intros; by apply r_level_inv|done].
    injection H as <-. match goal with |- wf ?s ∧ _ => assert (wf s) as Hwf end.
    { split; cbn; [|by case_match|word_lia|word_lia].
      match goal with Hk : (_ <? MIN_LEVEL_CAPACITY) = false |- _ => apply Z.ltb_ge in Hk end.
      word_lia. }
    split; [done|]. unfold MAX_LEVELS in *. split; [|split].
    + cbn [kl_levels].
      match goal with Hm : (64 <? _) = false |- _ => apply Z.ltb_ge in Hm end.
      case_match; [done|]. unfold zlen. rewrite Hn. word_lia.
    + rewrite !zlen_app in Hle. unfold items. cbn [kl_levels]. rewrite !zlen_le_bytes in Hle.
      pose proof (zlen_nonneg suf). pose proof (zlen_nonneg b).
      match goal with |- 8 * lsum (zlen <$> match ?l with _ => _ end) <= _ =>
        pose proof (num_items_encoded l); unfold num_items in *; destruct l end;
        [change (8 * 0 <= zlen b)|]; lia.
    + split; intros y; [destruct (kl_insert_spec _ y Hwf) as (s' & -> & _); done|].
      by apply merge_no_panic.
Qed.

Lemma kll_from_snapshot_safe_witness : no_panic (from_snapshot (to_snapshot twenty 0 60)).
Proof.
  destruct (kll_from_snapshot_safe (to_snapshot twenty 0 60)) as [H _]; [|exact H].
  apply (bool_decide_unpack _). vm_compute. exact I.
Defined.
