(* ===== verification/Ir.v ===== *)
(** * The query IR  (crates/flowsketch-ir/src/logical.rs and physical.rs)

    What an operator asked for ([LogicalQuery]) and the sketch configuration the
    planner chose ([PhysicalSketch]), with the executable parts of both: window
    arithmetic, event filters, alert thresholds, memory estimates and labels. *)
From S2P Require Import Prelude Bytes F64 Event.

(** ** logical.rs *)

Record WindowSpec := mkWindow { size_nanos : Z; slide_nanos : Z }.

Definition tumbling (size : Z) : WindowSpec := {| size_nanos := size; slide_nanos := size |}.

(** A division by a zero slide panics. *)
Definition bucket_count {E} (w : WindowSpec) : outcome E Z :=
  if slide_nanos w =? 0 then Panic else Ok (Z.max (size_nanos w / slide_nanos w) 1).

Definition decimal_string (n : Z) : string := string_of_bytes (to_string n).

Definition humanize_nanos (nanos : Z) : string :=
  if (nanos mod 3600000000000 =? 0) && (3600000000000 <=? nanos)
  then (decimal_string (nanos / 3600000000000) +:+ "h")
  else if (nanos mod 60000000000 =? 0) && (120000000000 <=? nanos)
  then (decimal_string (nanos / 60000000000) +:+ "m")
  else if nanos mod 1000000000 =? 0 then (decimal_string (nanos / 1000000000) +:+ "s")
  else if nanos mod 1000000 =? 0 then (decimal_string (nanos / 1000000) +:+ "ms")
  else (decimal_string nanos +:+ "ns").

Record ErrorSpec := mkError { epsilon : f64; delta : f64 }.
Definition ErrorSpec_default : ErrorSpec :=
  {| epsilon := f_lit 1 1000; delta := f_lit 1 100 |}.

Inductive Measure :=
  | Count
  | Sum (value : Field)
  | HeavyHitters (value : Field) (limit : Z)
  | DistinctCount (field : Field)
  | Entropy (field : Field)
  | Quantile (field : Field) (q : f64).

Definition Measure_name (m : Measure) : string :=
  match m with
  | Count => "count"
  | Sum _ => "sum"
  | HeavyHitters _ _ => "heavy_hitters"
  | DistinctCount _ => "distinct_count"
  | Entropy _ => "entropy"
  | Quantile _ _ => "quantile"
  end.

Record Predicate := mkPredicate {
  pr_protocol : option Z;
  dst_ports : list Z;
  src_ports : list Z;
  interfaces : list Z;
}.

(** [!v.is_empty() && !v.contains(&x)] *)
Definition excluded (v : list Z) (x : Z) : bool :=
  negb (bool_decide (v = [])) && negb (existsb (Z.eqb x) v).

Definition matches (p : Predicate) (e : FlowEvent) : bool :=
  if match pr_protocol p with Some proto => negb (protocol e =? proto) | None => false end
  then false
  else if excluded (dst_ports p) (dst_port e) then false
  else if excluded (src_ports p) (src_port e) then false
  else if excluded (interfaces p) (interface_index e) then false
  else true.

Definition Predicate_is_empty (p : Predicate) : bool :=
  bool_decide (pr_protocol p = None) && bool_decide (dst_ports p = []) &&
  bool_decide (src_ports p = []) && bool_decide (interfaces p = []).

Record AlertSpec := mkAlert { gt : option f64; lt : option f64 }.

Definition fires (a : AlertSpec) (value : f64) : bool :=
  default false ((λ t, f_ltb t value) <$> gt a) ||
  default false ((λ t, f_ltb value t) <$> lt a).

Definition AlertSpec_is_empty (a : AlertSpec) : bool :=
  match gt a, lt a with None, None => true | _, _ => false end.

Record ExportSpec := mkExport { prometheus : bool; max_series : Z }.
Definition ExportSpec_default : ExportSpec := {| prometheus := true; max_series := 1000 |}.

Record LogicalQuery := mkQuery {
  q_name : string;
  filter : Predicate;
  group_by : list Field;
  measure : Measure;
  window : WindowSpec;
  error : ErrorSpec;
  alert : AlertSpec;
  export : ExportSpec;
  max_memory_bytes : Z;
}.

(** ** physical.rs *)

Inductive PhysicalSketch :=
  | PCountMin (width depth : Z) (conservative_update : bool)
  | PCountSketch (width depth : Z)
  | PSpaceSaving (capacity : Z)
  | PMisraGries (capacity : Z)
  | PHyperLogLog (precision : Z)
  | PHllMap (max_keys precision : Z)
  | PKll (k : Z)
  | PComposite (stages : list PhysicalSketch).

(** [l.join(sep)] *)
Fixpoint join_strings (sep : string) (l : list string) : string :=
  match l with
  | [] => ""
  | [x] => x
  | x :: l => (x +:+ sep +:+ join_strings sep l)
  end.

Fixpoint algorithm_name (s : PhysicalSketch) : string :=
  match s with
  | PCountMin _ _ _ => "count-min"
  | PCountSketch _ _ => "count-sketch"
  | PSpaceSaving _ => "spacesaving"
  | PMisraGries _ => "misra-gries"
  | PHyperLogLog _ => "hll"
  | PHllMap _ _ => "hllmap"
  | PKll _ => "kll"
  | PComposite stages => join_strings "+" (map algorithm_name stages)
  end.

Definition HASH_ENTRY_OVERHEAD : Z := 48.
Definition EVICTION_HEAP_ENTRY_OVERHEAD : Z := 32.
Definition SPACE_SAVING_ENTRY_OVERHEAD : Z := 192.

Fixpoint estimated_memory_bytes (key_bytes : Z) (s : PhysicalSketch) : Z :=
  match s with
  | PCountMin width depth _ => (width *ʷ depth) *ʷ 8 +ʷ 64
  | PCountSketch width depth => (width *ʷ depth) *ʷ 8 +ʷ 64
  | PSpaceSaving capacity => capacity *ʷ (key_bytes +ʷ SPACE_SAVING_ENTRY_OVERHEAD) +ʷ 128
  | PMisraGries capacity => capacity *ʷ (key_bytes +ʷ 16 +ʷ HASH_ENTRY_OVERHEAD) +ʷ 64
  | PHyperLogLog precision => shl64 1 precision +ʷ 64
  | PHllMap max_keys precision =>
      max_keys *ʷ (shl64 1 precision +ʷ 2 *ʷ key_bytes +ʷ HASH_ENTRY_OVERHEAD
                   +ʷ EVICTION_HEAP_ENTRY_OVERHEAD) +ʷ 64
  | PKll k => k *ʷ 3 *ʷ 8 +ʷ 64
  | PComposite stages => foldl wadd64 0 (map (estimated_memory_bytes key_bytes) stages)
  end.

Definition bool_string (b : bool) : string := if b then "true" else "false".

Fixpoint describe (s : PhysicalSketch) : string :=
  match s with
  | PCountMin width depth conservative_update =>
      ("CountMin(width=" +:+ decimal_string width +:+ ", depth=" +:+ decimal_string depth
       +:+ ", conservative=" +:+ bool_string conservative_update +:+ ")")
  | PCountSketch width depth =>
      ("CountSketch(width=" +:+ decimal_string width +:+ ", depth=" +:+ decimal_string depth
       +:+ ")")
  | PSpaceSaving capacity => ("SpaceSaving(capacity=" +:+ decimal_string capacity +:+ ")")
  | PMisraGries capacity => ("MisraGries(capacity=" +:+ decimal_string capacity +:+ ")")
  | PHyperLogLog precision => ("HyperLogLog(precision=" +:+ decimal_string precision +:+ ")")
  | PHllMap max_keys precision =>
      ("HLLMap(max_keys=" +:+ decimal_string max_keys +:+ ", precision="
       +:+ decimal_string precision +:+ ")")
  | PKll k => ("KLL(k=" +:+ decimal_string k +:+ ")")
  | PComposite stages => ("Composite[" +:+ join_strings " + " (map describe stages) +:+ "]")
  end.

Example humanize_test : humanize_nanos 60000000000 = "60s".
Proof. vm_compute. reflexivity. Qed.
Example describe_test :
  describe (PComposite [PSpaceSaving 256; PKll 8]) =
    "Composite[SpaceSaving(capacity=256) + KLL(k=8)]".
Proof. vm_compute. reflexivity. Qed.

(** A filter accepts exactly the events that satisfy all of its constraints. *)
Lemma matches_iff p e :
  matches p e = true ↔
    (∀ x, pr_protocol p = Some x → protocol e = x) ∧
    (dst_ports p = [] ∨ dst_port e ∈ dst_ports p) ∧
    (src_ports p = [] ∨ src_port e ∈ src_ports p) ∧
    (interfaces p = [] ∨ interface_index e ∈ interfaces p).
Proof.
  assert (∀ v x, excluded v x = false ↔ v = [] ∨ x ∈ v) as He.
  { intros v x. unfold excluded. case_bool_decide as Hv; cbn; [naive_solver|].
    rewrite negb_false_iff, existsb_exists. split.
    - intros (y & Hy & ->%Z.eqb_eq). right. by apply list_elem_of_In.
    - intros [?|Hx]; [done|]. exists x. rewrite Z.eqb_refl. by rewrite <- list_elem_of_In. }
  unfold matches. rewrite <- !He.
  destruct (pr_protocol p) as [x|]; [destruct (Z.eqb_spec (protocol e) x)|];
    destruct (excluded (dst_ports p) _), (excluded (src_ports p) _), (excluded (interfaces p) _);
    naive_solver.
Qed.
