(* ===== verification/Yaml.v ===== *)
(** * The query language  (crates/flowsketch-ir/src/yaml.rs)

    From the document an operator writes to a [LogicalQuery].  Deserialization is
    serde_yaml's: a document either fails or yields a [RawQuery], the record the
    derive macros describe, and the rest, validation, defaults, durations and
    memory sizes, is modelled whole.  [debug] is [{:?}] of a string, which only
    error messages use.

    Proved: the validator accepts exactly the queries of a declarative reading of
    the language and never panics; accepted queries satisfy what the planner and
    the runtime assume of a query. *)
From S2P Require Import Prelude Bytes Utf8 F64 Event Ir.

Inductive QueryParseError (Y : Type) :=
  | Yaml (e : Y)
  | Invalid (message : string).
Arguments Yaml {Y} _.
Arguments Invalid {Y} _.

Definition MAX_QUERY_NAME_BYTES : Z := 256.
Definition DEFAULT_MAX_MEMORY_BYTES : Z := 128 * 1024 * 1024.

(** ** The deserialized document *)

Record RawWindow := mkRawWindow { rw_size : string; rw_slide : option string }.

(** What the code looks at in a [serde_yaml::Value]: the string, a number's
    [as_u64], or, of any other value, its debug form. *)
Inductive Value := VString (s : string) | VNumber (as_u64 : option Z) | VOther (shown : string).

Inductive Ports := One (p : Z) | Many (v : list Z).
Definition into_vec (p : Ports) : list Z := match p with One p => [p] | Many v => v end.

Record RawMatch := mkRawMatch {
  rm_protocol : option Value;
  rm_dst_port : option Ports;
  rm_src_port : option Ports;
  rm_interfaces : option (list Z);
}.

Record RawError := mkRawError { re_epsilon : option f64; re_delta : option f64 }.
Record RawMeasure := mkRawMeasure {
  rm_type : string;
  rm_value : option string;
  rm_field : option string;
  rm_limit : option Z;
  rm_q : option f64;
  rm_error : option RawError;
}.
Record RawAlert := mkRawAlert { ra_gt : option f64; ra_lt : option f64 }.
Record RawExport := mkRawExport { rx_prometheus : option bool; rx_max_series : option Z }.
Record RawResources := mkRawResources { rr_max_memory : option string }.

Record RawQuery := mkRawQuery {
  raw_name : string;
  raw_window : RawWindow;
  raw_match : option RawMatch;
  raw_group_by : list string;
  raw_measure : RawMeasure;
  raw_alert_if : option RawAlert;
  raw_export : option RawExport;
  raw_resources : option RawResources;
}.

(** ** Validation *)

Section parser.
Context {Y : Type} (debug : string → string).
Abbreviation res := (outcome (QueryParseError Y)).

Definition invalid {A} (pieces : list string) : res A := Err (Invalid (join_strings "" pieces)).
Definition reject_if (b : bool) (pieces : list string) : res unit :=
  if b then invalid pieces else Ok tt.

(** The number in front of a unit, both in trimmed [s]; [what] names the kind
    of quantity in the messages. *)
Definition number_and_unit (what : string) (s : list Z) : res (Z * list Z) :=
  let '(num, unit) := split_digits s in
  _ ← reject_if (bool_decide (unit = [])) [what; " "; debug (of_chars s); " is missing a unit"];
  n ← match parse_u64 num with
      | Some n => Ok n
      | None => invalid ["invalid "; what; " "; debug (of_chars s)]
      end;
  Ok (n, unit).

(** The scale of a unit, by the first that matches. *)
Fixpoint unit_scale (units : list (string * Z)) (unit : list Z) : option Z :=
  match units with
  | (u, scale) :: units =>
      if bool_decide (unit = bytes_of_string u) then Some scale else unit_scale units unit
  | [] => None
  end.
Definition duration_units : list (string * Z) :=
  [("ns", 1); ("us", 1000); ("ms", 1000000); ("s", 1000000000);
   ("m", 60 * 1000000000); ("h", 3600 * 1000000000)].
Definition memory_units : list (string * Z) :=
  [("B", 1); ("KiB", 1024); ("MiB", 1024 * 1024); ("GiB", 1024 * 1024 * 1024)].

Definition parse_duration (s : string) : res Z :=
  let s := trim (str_chars s) in
  '(n, unit) ← number_and_unit "duration" s;
  scale ← match unit_scale duration_units unit with
          | Some scale => Ok scale
          | None => invalid ["unknown duration unit "; debug (of_chars unit); " in "; debug (of_chars s)]
          end;
  Ok (n *ʷ scale).

Definition parse_memory (s : string) : res Z :=
  let s := trim (str_chars s) in
  '(n, unit) ← number_and_unit "memory size" s;
  scale ← match unit_scale memory_units unit with
          | Some scale => Ok scale
          | None => invalid ["unknown memory unit "; debug (of_chars unit); " in "; debug (of_chars s);
                             " (use B, KiB, MiB, GiB)"]
          end;
  Ok (n *ʷ scale).

Definition name_char (c : Z) : bool :=
  in_range 48 57 c || in_range 65 90 c || in_range 97 122 c || (c =? 95) || (c =? 45).

Definition check_name (name : string) : res unit :=
  let len := zlen (bytes_of_string name) in
  _ ← reject_if (bool_decide (trim (str_chars name) = [])) ["query name is empty"];
  _ ← reject_if (MAX_QUERY_NAME_BYTES <? len)
        ["query name is "; decimal_string len; " bytes; maximum is "; decimal_string MAX_QUERY_NAME_BYTES];
  reject_if (negb (forallb name_char (str_chars name)))
    ["query name "; debug name; " must be alphanumeric with '_' or '-'"].

Definition window_of (w : RawWindow) : res WindowSpec :=
  size_nanos ← parse_duration (rw_size w);
  slide_nanos ← match rw_slide w with Some s => parse_duration s | None => Ok size_nanos end;
  _ ← reject_if ((slide_nanos =? 0) || (size_nanos =? 0)) ["window size and slide must be positive"];
  _ ← reject_if (size_nanos <? slide_nanos) ["window slide must not exceed window size"];
  _ ← reject_if (negb (size_nanos mod slide_nanos =? 0))
        ["window size ("; rw_size w; ") must be a multiple of slide ("; default "" (rw_slide w); ")"];
  Ok {| size_nanos := size_nanos; slide_nanos := slide_nanos |}.

(** [s.parse::<Field>().map_err(Invalid)] *)
Definition field_named (s : string) : res Field := map_err Invalid (from_str s).

(** The first field that an earlier one equals. *)
Fixpoint first_duplicate (seen l : list Field) : option Field :=
  match l with
  | f :: l => if bool_decide (f ∈ seen) then Some f else first_duplicate (f :: seen) l
  | [] => None
  end.

Definition group_fields (names : list string) : res (list Field) :=
  group_by ← foldM (λ acc s, f ← field_named s; Ok (acc ++ [f])) [] names;
  match first_duplicate [] group_by with
  | Some duplicate => invalid ["groupBy contains duplicate field "; name duplicate]
  | None => Ok group_by
  end.

Definition protocol_of (v : option Value) : res (option Z) :=
  match v with
  | None => Ok None
  | Some (VString s) =>
      match protocol_parse (bytes_of_string s) with
      | Some p => Ok (Some p)
      | None => invalid ["unknown protocol "; debug s]
      end
  | Some (VNumber n) =>
      v ← match n with Some v => Ok v | None => invalid ["protocol number must be 0-255"] end;
      _ ← reject_if (255 <? v) ["protocol number must be 0-255"];
      Ok (Some v)
  | Some (VOther shown) => invalid ["protocol must be a name or number, got "; shown]
  end.

Definition Predicate_default : Predicate := mkPredicate None [] [] [].

Definition predicate_of (m : option RawMatch) : res Predicate :=
  match m with
  | None => Ok Predicate_default
  | Some m =>
      proto ← protocol_of (rm_protocol m);
      Ok {| pr_protocol := proto;
            dst_ports := default [] (into_vec <$> rm_dst_port m);
            src_ports := default [] (into_vec <$> rm_src_port m);
            interfaces := default [] (rm_interfaces m) |}
  end.

(** [0.0163] is the standard error of precision 12. *)
Definition default_epsilon (m : RawMeasure) : f64 :=
  if bool_decide (rm_type m = "distinct_count") then f_lit 163 10000 else epsilon ErrorSpec_default.

Definition in_unit (x : f64) : bool := f_ltb f_zero x && f_ltb x f_one.

Definition error_of (m : RawMeasure) : res ErrorSpec :=
  let error := match rm_error m with
               | None => {| epsilon := default_epsilon m; delta := delta ErrorSpec_default |}
               | Some e => {| epsilon := default (default_epsilon m) (re_epsilon e);
                              delta := default (delta ErrorSpec_default) (re_delta e) |}
               end in
  _ ← reject_if (negb (in_unit (epsilon error))) ["error.epsilon must be in (0, 1)"];
  _ ← reject_if (negb (in_unit (delta error))) ["error.delta must be in (0, 1)"];
  Ok error.

Definition parse_field (m : RawMeasure) (name : option string) (what : string) : res Field :=
  s ← match name with
      | Some s => Ok s
      | None => invalid ["measure type "; debug (rm_type m); " requires "; what]
      end;
  field_named s.

(** A field that must be numeric. *)
Definition numeric_field (m : RawMeasure) (field : option string) (what kind : string) : res Field :=
  value ← parse_field m field what;
  _ ← reject_if (negb (is_numeric_measure value)) [kind; " (bytes or packets), got "; name value];
  Ok value.

Definition measure_of (m : RawMeasure) : res Measure :=
  if bool_decide (rm_type m = "count") then Ok Count
  else if bool_decide (rm_type m = "sum") then
    value ← numeric_field m (match rm_value m with Some v => Some v | None => rm_field m end)
              "a numeric `value` field" "sum requires a numeric field";
    Ok (Sum value)
  else if bool_decide (rm_type m = "heavy_hitters") then
    value ← numeric_field m (rm_value m) "a numeric `value` field" "heavy_hitters requires a numeric value field";
    let limit := default 100 (rm_limit m) in
    _ ← reject_if (limit =? 0) ["heavy_hitters limit must be positive"];
    Ok (HeavyHitters value limit)
  else if bool_decide (rm_type m = "distinct_count") then
    field ← parse_field m (rm_field m) "a `field` to count distinct values of"; Ok (DistinctCount field)
  else if bool_decide (rm_type m = "entropy") then
    field ← parse_field m (rm_field m) "a `field`"; Ok (Entropy field)
  else if bool_decide (rm_type m = "quantile") then
    field ← numeric_field m (rm_field m) "a numeric `field`" "quantile requires a numeric field";
    Ok (Quantile field (default (f_lit 5 10) (rm_q m)))
  else
    invalid ["unknown measure type "; debug (rm_type m);
             "; expected count, sum, heavy_hitters, distinct_count, entropy, or quantile"].

(** What the measure and the grouping must not say together. *)
Definition check_grouping (measure : Measure) (group_by : list Field) : res unit :=
  match measure with
  | HeavyHitters _ _ =>
      reject_if (bool_decide (group_by = [])) ["heavy_hitters requires groupBy fields (the identities to rank)"]
  | DistinctCount field =>
      reject_if (bool_decide (field ∈ group_by))
        ["distinct_count field "; name field; " must not also appear in groupBy"]
  | _ => Ok tt
  end.

Definition alert_of (a : option RawAlert) : AlertSpec :=
  match a with None => mkAlert None None | Some a => mkAlert (ra_gt a) (ra_lt a) end.

Definition export_of (e : option RawExport) : res ExportSpec :=
  let export := match e with
                | None => ExportSpec_default
                | Some e => {| prometheus := default (prometheus ExportSpec_default) (rx_prometheus e);
                               max_series := default (max_series ExportSpec_default) (rx_max_series e) |}
                end in
  _ ← reject_if (max_series export =? 0) ["export.maxSeries must be positive"];
  Ok export.

Definition memory_of (r : option RawResources) : res Z :=
  match r ≫= rr_max_memory with
  | None => Ok DEFAULT_MAX_MEMORY_BYTES
  | Some s => parse_memory s
  end.

Definition into_logical (raw : RawQuery) : res LogicalQuery :=
  _ ← check_name (raw_name raw);
  window ← window_of (raw_window raw);
  group_by ← group_fields (raw_group_by raw);
  filter ← predicate_of (raw_match raw);
  error ← error_of (raw_measure raw);
  measure ← measure_of (raw_measure raw);
  _ ← check_grouping measure group_by;
  let alert := alert_of (raw_alert_if raw) in
  export ← export_of (raw_export raw);
  max_memory_bytes ← memory_of (raw_resources raw);
  Ok {| q_name := raw_name raw; filter := filter; group_by := group_by; measure := measure;
        window := window; error := error; alert := alert; export := export;
        max_memory_bytes := max_memory_bytes |}.

(** The whole parser, over the deserializer. *)
Definition parse_query_yaml (from_str : string → Y + RawQuery) (yaml : string) : res LogicalQuery :=
  match from_str yaml with inl e => Err (Yaml e) | inr raw => into_logical raw end.
End parser.

(** ** The language, declaratively *)

(** Blanks, a number that fits 64 bits, a unit, blanks; [v] is the number scaled
    by the unit, at 64 bits. *)
Definition quantity (units : list (string * Z)) (s : string) (v : Z) : Prop :=
  ∃ pre num unit scale post,
    str_chars s = pre ++ (num ++ bytes_of_string unit) ++ post ∧ blank pre ∧ blank post ∧
    digits num ∧ num ≠ [] ∧ digits_val num < u64_mod ∧ (unit, scale) ∈ units ∧
    v = digits_val num *ʷ scale.

Definition well_named (s : string) : Prop :=
  0 < zlen (bytes_of_string s) <= MAX_QUERY_NAME_BYTES ∧
  Forall (λ c, name_char c = true) (bytes_of_string s).

Inductive reads_window : RawWindow → WindowSpec → Prop :=
  | reads_tumbling s size :
      quantity duration_units s size → 0 < size → reads_window (mkRawWindow s None) (tumbling size)
  | reads_sliding s s' size slide :
      quantity duration_units s size → quantity duration_units s' slide →
      0 < size → 0 < slide → (slide | size) →
      reads_window (mkRawWindow s (Some s')) (mkWindow size slide).

Inductive reads_protocol : option Value → option Z → Prop :=
  | reads_any : reads_protocol None None
  | reads_protocol_name s p :
      protocol_parse (bytes_of_string s) = Some p → reads_protocol (Some (VString s)) (Some p)
  | reads_protocol_number n : n <= 255 → reads_protocol (Some (VNumber (Some n))) (Some n).

Inductive reads_filter : option RawMatch → Predicate → Prop :=
  | reads_no_filter : reads_filter None Predicate_default
  | reads_match v p dst src ifs :
      reads_protocol v p →
      reads_filter (Some (mkRawMatch v dst src ifs))
        (mkPredicate p (default [] (into_vec <$> dst)) (default [] (into_vec <$> src)) (default [] ifs)).

Definition reads_error (m : RawMeasure) (e : ErrorSpec) : Prop :=
  epsilon e = default (default_epsilon m) (rm_error m ≫= re_epsilon) ∧
  delta e = default (delta ErrorSpec_default) (rm_error m ≫= re_delta) ∧
  in_unit (epsilon e) = true ∧ in_unit (delta e) = true.

(** A measure over a grouping. *)
Inductive reads_measure (m : RawMeasure) (group_by : list Field) : Measure → Prop :=
  | reads_count : rm_type m = "count" → reads_measure m group_by Count
  | reads_sum f :
      rm_type m = "sum" → (rm_value m = Some (name f) ∨ rm_value m = None ∧ rm_field m = Some (name f)) →
      is_numeric_measure f = true → reads_measure m group_by (Sum f)
  | reads_heavy_hitters f :
      rm_type m = "heavy_hitters" → rm_value m = Some (name f) → is_numeric_measure f = true →
      default 100 (rm_limit m) ≠ 0 → group_by ≠ [] →
      reads_measure m group_by (HeavyHitters f (default 100 (rm_limit m)))
  | reads_distinct f :
      rm_type m = "distinct_count" → rm_field m = Some (name f) → f ∉ group_by →
      reads_measure m group_by (DistinctCount f)
  | reads_entropy f :
      rm_type m = "entropy" → rm_field m = Some (name f) → reads_measure m group_by (Entropy f)
  | reads_quantile f :
      rm_type m = "quantile" → rm_field m = Some (name f) → is_numeric_measure f = true →
      reads_measure m group_by (Quantile f (default (f_lit 5 10) (rm_q m))).

Definition reads_export (e : option RawExport) (x : ExportSpec) : Prop :=
  prometheus x = default true (e ≫= rx_prometheus) ∧
  max_series x = default 1000 (e ≫= rx_max_series) ∧ max_series x ≠ 0.

Definition reads_memory (r : option RawResources) (n : Z) : Prop :=
  match r ≫= rr_max_memory with
  | None => n = DEFAULT_MAX_MEMORY_BYTES
  | Some s => quantity memory_units s n
  end.

(** The document [raw] asks the query [q]. *)
Record asks (raw : RawQuery) (q : LogicalQuery) : Prop := {
  asks_name : q_name q = raw_name raw ∧ well_named (raw_name raw);
  asks_window : reads_window (raw_window raw) (window q);
  asks_groups : raw_group_by raw = name <$> group_by q ∧ NoDup (group_by q);
  asks_filter : reads_filter (raw_match raw) (filter q);
  asks_error : reads_error (raw_measure raw) (error q);
  asks_measure : reads_measure (raw_measure raw) (group_by q) (measure q);
  asks_alert : alert q = alert_of (raw_alert_if raw);
  asks_export : reads_export (raw_export raw) (export q);
  asks_memory : reads_memory (raw_resources raw) (max_memory_bytes q);
}.

(** ** Quantities *)

Lemma unit_scale_iff units u scale :
  NoDup units.*1 → unit_scale units u = Some scale ↔ ∃ unit, u = bytes_of_string unit ∧ (unit, scale) ∈ units.
Proof.
  induction units as [|[u' scale'] units IH]; intros Hnd; cbn [unit_scale].
  - split; [done|]. by intros (? & _ & ?%not_elem_of_nil).
  - apply NoDup_cons in Hnd as [Hni Hnd]. case_bool_decide as Hu.
    + split; [intros [= <-]; exists u'; split; [done|by left]|].
      intros (unit & -> & Hin). apply bytes_of_string_inj in Hu as ->.
      apply elem_of_cons in Hin as [[= <-]|Hin]; [done|]. destruct Hni. by apply (list_elem_of_fmap_2 fst) in Hin.
    + rewrite IH by done. split; intros (unit & -> & Hin); exists unit; (split; [done|]); [by right|].
      apply elem_of_cons in Hin as [[= -> ->]|?]; done.
Qed.

(** Unit names are ASCII words that start with no digit. *)
Definition unit_name_ok (u : string) : Prop :=
  bytes_of_string u ≠ [] ∧
  Forall (λ c, is_whitespace c = false ∧ is_ascii_digit c = false) (bytes_of_string u).
Definition units_ok (units : list (string * Z)) : Prop :=
  NoDup units.*1 ∧ Forall unit_name_ok units.*1.

Lemma duration_units_ok : units_ok duration_units.
Proof. split; apply (bool_decide_unpack _); vm_compute; exact I. Qed.
Lemma memory_units_ok : units_ok memory_units.
Proof. split; apply (bool_decide_unpack _); vm_compute; exact I. Qed.

Section exact.
Context {Y : Type} (debug : string → string).
Abbreviation res := (outcome (QueryParseError Y)).

Lemma reject_if_ok b pieces u : reject_if (Y := Y) b pieces = Ok u ↔ b = false.
Proof. destruct b, u; simpl; naive_solver. Qed.
Lemma bind_reject {A} b pieces (k : res A) x :
  (_ ← reject_if (Y := Y) b pieces; k) = Ok x ↔ b = false ∧ k = Ok x.
Proof. destruct b; simpl; naive_solver. Qed.
Lemma reject_if_no_panic b pieces : no_panic (reject_if (Y := Y) b pieces).
Proof. by destruct b. Qed.
Hint Resolve reject_if_no_panic : outcome.

(** The common part of durations and memory sizes. *)
Definition scaled (units : list (string * Z)) (s : string) : option Z :=
  let '(num, unit) := split_digits (trim (str_chars s)) in
  n ← parse_u64 num; scale ← unit_scale units unit; Some (n *ʷ scale).

Lemma scaled_iff units s v : units_ok units → scaled units s = Some v ↔ quantity units s v.
Proof.
  intros [Hnd Hnames]. unfold scaled. split.
  - pose proof (split_digits_spec (trim (str_chars s))) as Hsp. destruct (split_digits _) as [num unit].
    destruct Hsp as (Hsp & Hd & _). intros (n & Hn & H)%bind_Some. apply bind_Some in H as (scale & Hk & [= <-]).
    apply parse_u64_spec in Hn as (Hne & -> & Hlt); [|done].
    apply unit_scale_iff in Hk as (u & -> & Hin); [|done].
    destruct (str_trim_spec (str_chars s)) as (pre & post & Hs & Hp & Hq & _). rewrite Hsp in Hs.
    by exists pre, num, u, scale, post.
  - intros (pre & num & u & scale & post & -> & Hp & Hq & Hd & Hne & Hlt & Hin & ->).
    pose proof (list_elem_of_fmap_2 fst _ _ Hin) as Hu. rewrite Forall_forall in Hnames.
    apply Hnames in Hu as [Hun Hu]. cbn [fst] in Hun, Hu.
    rewrite trim_app; try done.
    + rewrite split_digits_app; [|done|].
      * rewrite (proj2 (parse_u64_spec num (digits_val num) Hd)) by done. cbn [mbind option_bind].
        by rewrite (proj2 (unit_scale_iff units _ scale Hnd)) by eauto.
      * intros c Hc. rewrite head_Some in Hc. destruct Hc as [l Hl]. rewrite Hl in Hu.
        by apply Forall_cons in Hu as [[_ Hu] _].
    + split.
      * intros c Hc. destruct num as [|d num]; [done|]. injection Hc as <-.
        apply Forall_cons in Hd as [Hd _]. by apply digit_not_space.
      * intros c Hc. rewrite last_app_Some in Hc. destruct Hc as [Hc|[Hc _]]; [|by rewrite last_None in Hc].
        apply last_Some_elem_of in Hc. rewrite Forall_forall in Hu. by apply Hu.
    + by destruct num.
Qed.

(** The shape both parsers share. *)
Lemma quantity_parsed units what (message : list Z → list string) s v : units_ok units →
  ('(n, unit) ← number_and_unit (Y := Y) debug what (trim (str_chars s));
   scale ← match unit_scale units unit with Some scale => Ok scale | None => invalid (message unit) end;
   Ok (n *ʷ scale)) = Ok v ↔ quantity units s v.
Proof.
  intros Hu. rewrite <- scaled_iff by done. unfold scaled, number_and_unit.
  destruct (split_digits _) as [num unit].
  case_bool_decide as Hunit; [subst unit|]; cbn [reject_if]; ostep.
  - destruct Hu as [_ Hu]. destruct (parse_u64 num); cbn [mbind option_bind]; [|done].
    destruct (unit_scale units []) as [k|] eqn:E; [|done]. exfalso. clear -Hu E.
    induction units as [|[u k'] units IH]; [done|]. cbn [unit_scale] in E. apply Forall_cons in Hu as [[Hne _] Hu].
    case_bool_decide as H; [by destruct Hne|by apply IH].
  - destruct (parse_u64 num); ostep; [|done]. destruct (unit_scale _ _); ostep; [|done].
    split; [by intros ->%ok_inj|by intros [= ->]].
Qed.

Lemma quantity_no_panic units what (message : list Z → list string) cs :
  no_panic ('(n, unit) ← number_and_unit (Y := Y) debug what cs;
   scale ← match unit_scale units unit with Some scale => Ok scale | None => invalid (message unit) end;
   Ok (n *ʷ scale)).
Proof.
  unfold number_and_unit. destruct (split_digits _) as [num unit].
  apply bind_no_panic; [|intros [n u] _; by destruct (unit_scale _ _)].
  apply bind_no_panic; [auto with outcome|intros _ _]. by destruct (parse_u64 num).
Qed.

Lemma parse_duration_iff s v : parse_duration (Y := Y) debug s = Ok v ↔ quantity duration_units s v.
Proof. apply quantity_parsed, duration_units_ok. Qed.
Lemma parse_memory_iff s v : parse_memory (Y := Y) debug s = Ok v ↔ quantity memory_units s v.
Proof. apply quantity_parsed, memory_units_ok. Qed.
Lemma parse_duration_no_panic s : no_panic (parse_duration (Y := Y) debug s).
Proof. apply quantity_no_panic. Qed.
Lemma parse_memory_no_panic s : no_panic (parse_memory (Y := Y) debug s).
Proof. apply quantity_no_panic. Qed.
Hint Resolve parse_duration_no_panic parse_memory_no_panic : outcome.

(** ** The parts of a query *)

Lemma name_char_ascii c : name_char c = true → 0 <= c < 128 ∧ is_whitespace c = false.
Proof.
  intros H. assert (Forall (λ c, 0 <= c < 128 ∧ is_whitespace c = false) (base.filter (λ c, name_char c = true) (seqZ 0 128))) as Hf.
  { apply (bool_decide_unpack _). vm_compute. exact I. }
  rewrite Forall_forall in Hf. apply Hf, list_elem_of_filter. split; [done|]. apply elem_of_seqZ.
  unfold name_char in H. rewrite !orb_true_iff, !in_range_iff, !Z.eqb_eq in H. lia.
Qed.

(** A string of ASCII characters is its characters. *)
Lemma ascii_chars s (P : Z → Prop) :
  (∀ c, P c → 0 <= c < 128) → Forall P (str_chars s) → str_chars s = bytes_of_string s.
Proof.
  intros HP H. unfold str_chars in *. destruct (utf8_chars (bytes_of_string s)) as [chars|] eqn:E; [|done].
  cbv [default from_option id] in *. rewrite <- (encode_utf8_chars _ _ (bytes_of_string_ok s) E). clear E.
  induction H as [|c chars Hc _ IH]; [done|]. cbn [fmap list_fmap concat]. apply HP in Hc. unfold encode_char at 1.
  rewrite (proj2 (Z.ltb_lt _ _)) by lia. cbn [app]. by f_equal.
Qed.

Lemma forallb_name_char cs : forallb name_char cs = true ↔ Forall (λ c, name_char c = true) cs.
Proof. rewrite forallb_forall, Forall_forall. by setoid_rewrite list_elem_of_In. Qed.

Lemma check_name_iff s u : check_name (Y := Y) debug s = Ok u ↔ well_named s.
Proof.
  unfold check_name, well_named. rewrite !bind_reject, reject_if_ok.
  rewrite bool_decide_eq_false, negb_false_iff, forallb_name_char. split.
  - intros (Hne & Hlen%Z.ltb_ge & Hc).
    assert (str_chars s = bytes_of_string s) as Hs.
    { apply (ascii_chars s _ (λ c H, proj1 (name_char_ascii c H)) Hc). }
    rewrite Hs in *. split; [|done]. split; [|done]. destruct (bytes_of_string s); [done|]. unfold zlen. cbn. lia.
  - intros [Hlen Hc].
    assert (str_chars s = bytes_of_string s) as Hs.
    { unfold str_chars. rewrite utf8_ascii; [done|]. eapply Forall_impl; [exact Hc|]. intros c ?. by apply name_char_ascii. }
    rewrite Hs. split; [|split; [apply Z.ltb_ge; lia|done]].
    pose proof (trim_app [] (bytes_of_string s) [] ltac:(constructor) ltac:(constructor)) as Ht.
    rewrite app_nil_r in Ht. cbn [app] in Ht. assert (bytes_of_string s ≠ []) by (intros E; rewrite E in Hlen; destruct Hlen as [Hlen _]; by vm_compute in Hlen).
    rewrite Ht; [done| |done]. rewrite Forall_forall in Hc. split.
    + intros c Hh. apply name_char_ascii, Hc. by apply head_Some_elem_of.
    + intros c Hl. apply name_char_ascii, Hc. by apply last_Some_elem_of.
Qed.

Lemma window_of_iff w x : window_of (Y := Y) debug w = Ok x ↔ reads_window w x.
Proof.
  unfold window_of. split.
  - intros (size & Hs%parse_duration_iff & H)%bind_ok. apply bind_ok in H as (slide & Hd & H).
    rewrite !bind_reject in H. destruct H as (Hpos & Hle & Hdiv & <-%ok_inj).
    rewrite orb_false_iff, !Z.eqb_neq in Hpos. rewrite Z.ltb_ge in Hle. rewrite negb_false_iff, Z.eqb_eq in Hdiv.
    assert (∀ s v, quantity duration_units s v → 0 <= v) as Hq.
    { intros s v (? & ? & ? & ? & ? & _ & _ & _ & _ & _ & _ & _ & ->). apply wrap64_range. }
    destruct w as [s [s'|]]; cbn [rw_size rw_slide] in *.
    + apply parse_duration_iff in Hd. pose proof (Hq _ _ Hs). pose proof (Hq _ _ Hd).
      constructor; try done; [lia..|]. apply Z.mod_divide; [lia|done].
    + apply ok_inj in Hd as <-. pose proof (Hq _ _ Hs). constructor; [done|lia].
  - intros [s size Hs%parse_duration_iff Hp|s s' size slide Hs%parse_duration_iff Hd%parse_duration_iff Hp Hp' Hdiv];
      cbn [rw_size rw_slide]; rewrite Hs; ostep; rewrite ?Hd; ostep; rewrite !bind_reject.
    + rewrite Z.ltb_irrefl, Z_mod_same_full, (proj2 (Z.eqb_neq size 0)) by lia. done.
    + rewrite !(proj2 (Z.eqb_neq _ 0)) by lia. rewrite (proj2 (Z.ltb_ge _ _)) by by apply Z.divide_pos_le.
      apply Z.mod_divide in Hdiv as ->; [done|lia].
Qed.

Lemma field_named_iff s f : field_named (Y := Y) s = Ok f ↔ s = name f.
Proof using Y debug.
  unfold field_named. rewrite <- from_str_iff. destruct (from_str s); cbn [map_err]; naive_solver.
Qed.

Lemma first_duplicate_iff seen l :
  NoDup seen → first_duplicate seen l = None ↔ NoDup (seen ++ l).
Proof.
  revert seen. induction l as [|f l IH]; intros seen Hs; cbn [first_duplicate]; [by rewrite app_nil_r|].
  case_bool_decide as Hf.
  - split; [done|]. intros (_ & Hd & _)%NoDup_app. destruct (Hd f Hf). by left.
  - rewrite IH by by constructor. cbn [app]. by rewrite Permutation_middle.
Qed.

Lemma field_names names acc fs :
  foldM (λ acc s, f ← field_named (Y := Y) s; Ok (acc ++ [f])) acc names = Ok fs ↔
  ∃ l, fs = acc ++ l ∧ names = name <$> l.
Proof using Y debug.
  revert acc. induction names as [|s names IH]; intros acc; cbn [foldM].
  - split; [intros <-%ok_inj; exists []; by rewrite app_nil_r|].
    intros (l & -> & Hl). destruct l; [|done]. by rewrite app_nil_r.
  - rewrite bind_ok. split.
    + intros (acc' & (f & ->%field_named_iff & <-%ok_inj)%bind_ok & (l & -> & ->)%IH).
      exists (f :: l). by rewrite <- app_assoc.
    + intros ([|f l] & -> & Hl); [done|]. injection Hl as -> ->. exists (acc ++ [f]).
      split; [by rewrite (proj2 (field_named_iff _ f) eq_refl)|]. apply IH. exists l. by rewrite <- app_assoc.
Qed.

Lemma group_fields_iff names fs :
  group_fields (Y := Y) names = Ok fs ↔ names = name <$> fs ∧ NoDup fs.
Proof using Y debug.
  unfold group_fields. rewrite bind_ok. split.
  - intros (fs' & (l & -> & ->)%field_names & H). cbn [app] in H.
    destruct (first_duplicate [] l) eqn:E; [done|]. apply ok_inj in H as <-.
    apply first_duplicate_iff in E; [done|constructor].
  - intros [-> Hnd]. exists fs. split; [by apply field_names; exists fs|].
    by rewrite (proj2 (first_duplicate_iff [] fs ltac:(constructor))).
Qed.

Lemma predicate_of_iff m p : predicate_of (Y := Y) debug m = Ok p ↔ reads_filter m p.
Proof.
  assert (∀ v o, protocol_of (Y := Y) debug v = Ok o ↔ reads_protocol v o) as Hv.
  { intros v o. unfold protocol_of. split.
    - destruct v as [[s|[n|]|]|]; try done; [|rewrite !bind_ok|].
      + destruct (protocol_parse _) eqn:E; [|done]. intros <-%ok_inj. by constructor.
      + intros (n' & <-%ok_inj & H). apply bind_reject in H as [H%Z.ltb_ge <-%ok_inj]. by constructor.
      + intros <-%ok_inj. constructor.
    - intros [|s q ->|n Hn]; ostep; [done..|]. apply bind_reject. split; [by apply Z.ltb_ge|done]. }
  unfold predicate_of. split.
  - destruct m as [[v dst src ifs]|]; [|intros <-%ok_inj; constructor].
    intros (q & Hq%Hv & <-%ok_inj)%bind_ok. by constructor.
  - intros [|v q dst src ifs Hq%Hv]; [done|]. cbn [rm_protocol]. by rewrite Hq.
Qed.

Lemma error_of_iff m e : error_of (Y := Y) m = Ok e ↔ reads_error m e.
Proof.
  unfold error_of, reads_error. rewrite !bind_reject, !negb_false_iff.
  destruct (rm_error m) as [[e1 e2]|]; cbn [re_epsilon re_delta mbind option_bind default epsilon delta from_option id];
    (split; [intros (A & B & <-%ok_inj); exact (conj eq_refl (conj eq_refl (conj A B)))|]); destruct e as [eps d]; cbn [epsilon delta];
    intros (-> & -> & A & B); exact (conj A (conj B eq_refl)).
Qed.

Lemma parse_field_iff m o what f : parse_field (Y := Y) debug m o what = Ok f ↔ o = Some (name f).
Proof.
  unfold parse_field. destruct o as [s|]; ostep; [|done]. rewrite field_named_iff by done. naive_solver.
Qed.

Lemma numeric_field_iff m o what kind f :
  numeric_field (Y := Y) debug m o what kind = Ok f ↔ o = Some (name f) ∧ is_numeric_measure f = true.
Proof.
  unfold numeric_field. rewrite bind_ok. split.
  - intros (f' & Ho%parse_field_iff & H). apply bind_reject in H as [Hn <-%ok_inj]. by apply negb_false_iff in Hn.
  - intros [Ho Hn]. exists f. split; [by apply parse_field_iff|]. apply bind_reject. by rewrite Hn.
Qed.

(** The measure alone, and then with its grouping. *)
Lemma measure_of_iff m gs x :
  (measure_of (Y := Y) debug m = Ok x ∧ check_grouping (Y := Y) x gs = Ok tt) ↔ reads_measure m gs x.
Proof.
  unfold measure_of. split.
  - intros [H Hg].
    case_bool_decide as E1; [apply ok_inj in H as <-; by constructor|].
    case_bool_decide as E2.
    { apply bind_ok in H as (f & [Ho Hn]%numeric_field_iff & <-%ok_inj). constructor; try done.
      destruct (rm_value m); [by left|by right]. }
    case_bool_decide as E3.
    { apply bind_ok in H as (f & [Ho Hn]%numeric_field_iff & H).
      apply bind_reject in H as [Hl%Z.eqb_neq <-%ok_inj]. apply reject_if_ok, bool_decide_eq_false in Hg. by constructor. }
    case_bool_decide as E4.
    { apply bind_ok in H as (f & Ho%parse_field_iff & <-%ok_inj). apply reject_if_ok, bool_decide_eq_false in Hg.
      by constructor. }
    case_bool_decide as E5; [apply bind_ok in H as (f & Ho%parse_field_iff & <-%ok_inj); by constructor|].
    case_bool_decide as E6; [|done]. apply bind_ok in H as (f & [Ho Hn]%numeric_field_iff & <-%ok_inj). by constructor.
  - intros [E|f E Ho Hn|f E Ho Hn Hl Hg|f E Ho Hg|f E Ho|f E Ho Hn]; rewrite E;
      repeat (rewrite bool_decide_eq_false_2 by done); rewrite bool_decide_eq_true_2 by done.
    + done.
    + rewrite (proj2 (numeric_field_iff m _ _ _ f)); [done|]. split; [|done].
      destruct Ho as [->|[-> ->]]; done.
    + rewrite (proj2 (numeric_field_iff m _ _ _ f)) by done. ostep. split; [apply bind_reject; split; [by apply Z.eqb_neq|done]|].
      apply reject_if_ok. by apply bool_decide_eq_false.
    + rewrite (proj2 (parse_field_iff m _ _ f)) by done. split; [done|].
      apply reject_if_ok. by apply bool_decide_eq_false.
    + by rewrite (proj2 (parse_field_iff m _ _ f)).
    + by rewrite (proj2 (numeric_field_iff m _ _ _ f)).
Qed.

Lemma export_of_iff e x : export_of (Y := Y) e = Ok x ↔ reads_export e x.
Proof.
  unfold export_of, reads_export. rewrite bind_reject, Z.eqb_neq. destruct x as [p n]. cbn [prometheus max_series].
  destruct e as [[e1 e2]|]; cbn [rx_prometheus rx_max_series mbind option_bind default ExportSpec_default prometheus max_series from_option id].
  - split; [intros [? [= <- <-]]|intros (-> & -> & ?)]; done.
  - split; [intros [? [= <- <-]]|intros (-> & -> & ?)]; done.
Qed.

Lemma memory_of_iff r n : memory_of (Y := Y) debug r = Ok n ↔ reads_memory r n.
Proof.
  unfold memory_of, reads_memory. destruct (r ≫= rr_max_memory); [apply parse_memory_iff|].
  split; [by intros <-%ok_inj|by intros ->].
Qed.

Lemma into_logical_iff raw q : into_logical (Y := Y) debug raw = Ok q ↔ asks raw q.
Proof.
  unfold into_logical. split.
  - intros H. apply bind_ok in H as (u & Hn%check_name_iff & H).
    apply bind_ok in H as (w & Hw%window_of_iff & H). apply bind_ok in H as (gs & Hg%group_fields_iff & H).
    apply bind_ok in H as (f & Hf%predicate_of_iff & H). apply bind_ok in H as (e & He%error_of_iff & H).
    apply bind_ok in H as (m & Hm & H). apply bind_ok in H as ([] & Hc & H).
    apply bind_ok in H as (x & Hx%export_of_iff & H). apply bind_ok in H as (n & Hr%memory_of_iff & <-%ok_inj).
    constructor; try done. by apply measure_of_iff.
  - intros [[En Hn%(check_name_iff _ tt)] Hw%window_of_iff Hg%group_fields_iff Hf%predicate_of_iff He%error_of_iff
      [Hm Hc]%measure_of_iff Ha Hx%export_of_iff Hr%memory_of_iff].
    rewrite Hn; ostep. rewrite Hw; ostep. rewrite Hg; ostep. rewrite Hf; ostep. rewrite He; ostep.
    rewrite Hm; ostep. rewrite Hc; ostep. rewrite Hx; ostep. rewrite Hr; ostep. rewrite <- Ha, <- En. by destruct q.
Qed.

Lemma field_named_no_panic s : no_panic (field_named (Y := Y) s).
Proof. unfold field_named, from_str. repeat case_bool_decide; done. Qed.
Lemma parse_field_no_panic m o what : no_panic (parse_field (Y := Y) debug m o what).
Proof. unfold parse_field. apply bind_no_panic; [by destruct o|intros s _; apply field_named_no_panic]. Qed.
Lemma numeric_field_no_panic m o what kind : no_panic (numeric_field (Y := Y) debug m o what kind).
Proof.
  unfold numeric_field. apply bind_no_panic; [apply parse_field_no_panic|intros f _].
  apply bind_no_panic; [auto with outcome|done].
Qed.
Hint Resolve field_named_no_panic parse_field_no_panic numeric_field_no_panic : outcome.

Lemma group_fields_no_panic names : no_panic (group_fields (Y := Y) names).
Proof.
  unfold group_fields. apply bind_no_panic; [|intros fs _; by destruct (first_duplicate [] fs)].
  apply foldM_no_panic. intros acc s _. apply bind_no_panic; [auto with outcome|done].
Qed.
Lemma window_of_no_panic w : no_panic (window_of (Y := Y) debug w).
Proof.
  unfold window_of. apply bind_no_panic; [auto with outcome|intros size _].
  apply bind_no_panic; [destruct (rw_slide w); auto with outcome|intros slide _]. no_panic_tac.
Qed.
Lemma predicate_of_no_panic m : no_panic (predicate_of (Y := Y) debug m).
Proof.
  destruct m as [m|]; [|done]. unfold predicate_of. apply bind_no_panic; [|done].
  unfold protocol_of. destruct (rm_protocol m) as [[s|[n|]|s]|]; [by destruct (protocol_parse _)|no_panic_tac|done..].
Qed.
Lemma measure_of_no_panic m : no_panic (measure_of (Y := Y) debug m).
Proof.
  unfold measure_of. repeat case_bool_decide; cbv zeta;
    repeat (apply bind_no_panic; [auto with outcome|intros ? _]); done.
Qed.
Hint Resolve group_fields_no_panic window_of_no_panic predicate_of_no_panic measure_of_no_panic : outcome.

Lemma into_logical_no_panic raw : no_panic (into_logical (Y := Y) debug raw).
Proof.
  unfold into_logical. apply bind_no_panic; [unfold check_name; no_panic_tac|intros _ _].
  do 3 (apply bind_no_panic; [auto with outcome|intros ? _]).
  apply bind_no_panic; [unfold error_of; no_panic_tac|intros e _].
  apply bind_no_panic; [auto with outcome|intros m _].
  apply bind_no_panic; [unfold check_grouping; destruct m; auto with outcome|intros _ _].
  apply bind_no_panic; [unfold export_of; no_panic_tac|intros x _].
  apply bind_no_panic; [unfold memory_of; destruct (_ ≫= _); auto with outcome|done].
Qed.
End exact.

(** [C30] The query parser accepts exactly the language.  It never panics, and it
    yields the query [q] from a document exactly when the document asks for
    [q]: a name of letters, digits, [_] and [-]; a positive window that is a
    multiple of its slide; distinct known fields; a filter, an error in (0, 1)
    with the default of the measure's family, a measure whose field is of the
    right kind and fits the grouping; and amounts of at least one series and of
    memory. *)
Theorem query_language_exact {Y} (debug : string → string) (raw : RawQuery) (q : LogicalQuery) :
  no_panic (into_logical (Y := Y) debug raw) ∧ (into_logical (Y := Y) debug raw = Ok q ↔ asks raw q).
Proof. split; [apply into_logical_no_panic|apply into_logical_iff]. Qed.

(** ** Printed durations *)

Lemma digits_val_decimal k n : 0 <= n < 10 ^ Z.of_nat k → digits_val (decimal k n) = n.
Proof.
  revert n. induction k as [|k IH]; intros n Hn; [cbn in *; lia|]. cbn [decimal].
  destruct (Z.ltb_spec n 10); [unfold digits_val; cbn [foldl]; lia|].
  rewrite digits_val_snoc, IH by by apply div10. pose proof (Z.div_mod n 10). lia.
Qed.

Lemma to_string_digits n : u64_ok n →
  digits (to_string n) ∧ digits_val (to_string n) = n ∧ to_string n ≠ [] ∧
  Forall (λ x, 0 <= x < 128) (to_string n).
Proof.
  intros Hn. assert (0 <= n < 10 ^ Z.of_nat 20) as Hn' by (change (10 ^ Z.of_nat 20) with 100000000000000000000; word_lia).
  pose proof (decimal_digits 20 n ltac:(lia)) as Hd. split_and!.
  - eapply Forall_impl; [exact Hd|]. intros c Hc. by apply in_range_iff.
  - by apply digits_val_decimal.
  - intros E. pose proof (length_decimal 19 n Hn') as Hl. unfold to_string in E. rewrite E in Hl. cbn in Hl. lia.
  - eapply Forall_impl; [exact Hd|]. unfold digit. lia.
Qed.

(** A number and a unit, written together. *)
Lemma quantity_written units n unit scale : units_ok units → u64_ok n → (unit, scale) ∈ units →
  Forall (λ x, 0 <= x < 128) (bytes_of_string unit) →
  quantity units (decimal_string n +:+ unit) (n *ʷ scale).
Proof.
  intros Hu Hn Hin Hascii. destruct (to_string_digits n Hn) as (Hd & Hv & Hne & Ha).
  exists [], (to_string n), unit, scale, []. rewrite Hv, app_nil_r.
  split_and!; [|by apply Forall_nil|by apply Forall_nil|done|done|by apply Hn|done|done].
  assert (∀ s t, bytes_of_string (s +:+ t) = bytes_of_string s ++ bytes_of_string t) as Happ.
  { intros s t. unfold bytes_of_string. rewrite <- fmap_app. f_equal. clear. induction s as [|a s IH]; [done|]. simpl. by rewrite IH. }
  unfold str_chars. rewrite Happ. unfold decimal_string. rewrite bytes_of_string_of_bytes.
  - rewrite utf8_ascii; [done|]. by apply Forall_app.
  - eapply Forall_impl; [exact Ha|]. unfold u8_ok. lia.
Qed.

(** Windows print and parse back.  The duration the planner prints for a window
    of any number of nanoseconds parses back to that number, although it is
    printed in the largest unit that shows it exactly. *)
Lemma durations_round_trip {Y} (debug : string → string) n :
  u64_ok n → parse_duration (Y := Y) debug (humanize_nanos n) = Ok n.
Proof.
  intros Hn. apply parse_duration_iff.
  assert (∀ unit scale, (unit, scale) ∈ duration_units → 0 < scale → n mod scale = 0 →
    Forall (λ x, 0 <= x < 128) (bytes_of_string unit) →
    quantity duration_units (decimal_string (n / scale) +:+ unit) n) as Hq.
  { intros unit scale Hin Hs Hm Ha. assert (u64_ok (n / scale)).
    { split; [apply Z.div_pos; word_lia|]. apply Z.le_lt_trans with n; [apply Z.div_le_upper_bound; [done|]; unfold u64_ok in Hn; nia|apply Hn]. }
    pose proof (quantity_written _ _ _ _ duration_units_ok H Hin Ha) as Hw.
    rewrite wmul64_small in Hw by (rewrite Z.mul_comm, <- Z_div_exact_full_2; [done|lia|done]).
    by rewrite (Z.mul_comm (n / scale)), <- Z_div_exact_full_2 in Hw by (done || lia). }
  assert (∀ u, u ∈ duration_units.*1 → Forall (λ x, 0 <= x < 128) (bytes_of_string u)) as Ha.
  { apply Forall_forall. apply (bool_decide_unpack _). vm_compute. exact I. }
  unfold humanize_nanos.
  repeat case_match; [apply (Hq "h" 3600000000000)|apply (Hq "m" 60000000000)|apply (Hq "s" 1000000000)|
    apply (Hq "ms" 1000000)|rewrite <- (Z.div_1_r n) at 1; apply (Hq "ns" 1)]; try done;
    rewrite ?andb_true_iff, ?Z.eqb_eq in *; try tauto; try (by apply Ha; set_solver); try (by apply Z.mod_1_r); set_solver.
Qed.

(** ** Concrete documents *)

Lemma durations_round_trip_witness :
  parse_duration (Y := unit) (λ s, s) "90s" = Ok 90000000000.
Proof. exact (durations_round_trip (λ s, s) 90000000000 ltac:(range_tac)). Defined.

Definition scanners : RawQuery :=
  mkRawQuery "suspected_scanners" (mkRawWindow "60s" (Some " 10s "))
    (Some (mkRawMatch (Some (VString "TCP")) (Some (Many [22; 80; 443])) None None))
    ["src.ip"] (mkRawMeasure "distinct_count" None (Some "dst.ip") None None (Some (mkRawError (Some (f_lit 2 100)) None)))
    (Some (mkRawAlert (Some (f64_of_Z 5000)) None)) (Some (mkRawExport None (Some 500)))
    (Some (mkRawResources (Some "64MiB"))).

Example scanners_query :
  into_logical (Y := unit) (λ s, s) scanners =
  Ok (mkQuery "suspected_scanners" (mkPredicate (Some 6) [22; 80; 443] [] []) [SrcIp] (DistinctCount DstIp)
        (mkWindow 60000000000 10000000000) (mkError (f_lit 2 100) (f_lit 1 100))
        (mkAlert (Some (f64_of_Z 5000)) None) (mkExport true 500) 67108864).
Proof. vm_compute. reflexivity. Qed.

(** A number of hours that does not fit 64 bits of nanoseconds wraps around. *)
Example duration_wraps : parse_duration (Y := unit) (λ s, s) "5124096h" = Ok 1526290448384.
Proof. vm_compute. reflexivity. Qed.
Example memory_wraps : parse_memory (Y := unit) (λ s, s) "17179869184GiB" = Ok 0.
Proof. vm_compute. reflexivity. Qed.
