(* ===== verification/QueryState.v ===== *)
(** * The sketch state of one window  (crates/flowsketch-runtime/src/lib.rs, 21-260)

    [QueryState] joins the sketches a plan calls for.  The windowed runtime uses
    it through the interface of this file: [WindowSketch] lists the operations,
    [LawfulWindow] what they promise, and [QueryState] implements both.

    [fuel] bounds the estimator of the keyed HyperLogLog map, which runs
    floating-point iterations; the other sketches do not use it. *)
From S2P Require Import Prelude Bytes Maps Hash Sketch Snapshot F64 CountMin SpaceSaving Hll.
From S2P Require Import HllMap Kll Event Ir.

(** ** Component names *)
Definition SPACESAVING : string := "spacesaving".
Definition COUNT_MIN : string := "count-min".
Definition KEYS_SPACESAVING : string := "keys-spacesaving".
Definition HLLMAP : string := "hllmap".
Definition HLL : string := "hll".
Definition KLL : string := "kll".
Definition HEAD_SPACESAVING : string := "head-spacesaving".
Definition TAIL_HLL : string := "tail-hll".

Inductive QueryState :=
  | QHeavyHitters (ss : SpaceSaving.SpaceSaving)
  | QCounter (cm : CountMin.CountMinSketch) (keys : SpaceSaving.SpaceSaving)
  | QDistinctPerKey (m : HllMap.HllMap)
  | QDistinctGlobal (hll : Hll.HyperLogLog)
  | QQuantile (kll : Kll.KllSketch)
  | QEntropy (ss : SpaceSaving.SpaceSaving) (hll : Hll.HyperLogLog).

Definition cannot_execute {A} : res A := Err (InvalidParam "runtime cannot execute plan").
Definition cannot_execute_composite {A} : res A :=
  Err (InvalidParam "runtime cannot execute composite plan").

Definition build (sketch : PhysicalSketch) (hash : HashSpec) : res QueryState :=
  match sketch with
  | PSpaceSaving capacity => ss ← SpaceSaving.new capacity hash; Ok (QHeavyHitters ss)
  | PHllMap max_keys precision =>
      m ← HllMap.new max_keys precision hash; Ok (QDistinctPerKey m)
  | PHyperLogLog precision => hll ← Hll.new precision hash; Ok (QDistinctGlobal hll)
  | PKll k => kll ← Kll.new k hash; Ok (QQuantile kll)
  | PComposite [PSpaceSaving capacity; PCountMin width depth conservative_update] =>
      cm ← CountMin.new width depth conservative_update hash;
      keys ← SpaceSaving.new capacity hash;
      Ok (QCounter cm keys)
  | PComposite [PSpaceSaving capacity; PHyperLogLog precision] =>
      ss ← SpaceSaving.new capacity hash;
      hll ← Hll.new precision hash;
      Ok (QEntropy ss hll)
  | PComposite _ => cannot_execute_composite
  | PCountMin _ _ _ | PCountSketch _ _ | PMisraGries _ => cannot_execute
  end.

(** The component names a plan's state serializes to. *)
Definition component_names (sketch : PhysicalSketch) : res (list string) :=
  match sketch with
  | PSpaceSaving _ => Ok [SPACESAVING]
  | PHllMap _ _ => Ok [HLLMAP]
  | PHyperLogLog _ => Ok [HLL]
  | PKll _ => Ok [KLL]
  | PComposite [PSpaceSaving _; PCountMin _ _ _] => Ok [COUNT_MIN; KEYS_SPACESAVING]
  | PComposite [PSpaceSaving _; PHyperLogLog _] => Ok [HEAD_SPACESAVING; TAIL_HLL]
  | PComposite _ => cannot_execute_composite
  | PCountMin _ _ _ | PCountSketch _ _ | PMisraGries _ => cannot_execute
  end.

(** The result of a component's merge, left in place when it fails. *)
Definition merge_part {A} (wrap : A → QueryState) (old : A) (m : res A) : res unit * QueryState :=
  match m with
  | Ok a => (Ok tt, wrap a)
  | Err e => (Err e, wrap old)
  | Panic => (Panic, wrap old)
  end.

Definition update_count (s : QueryState) : Z :=
  match s with
  | QHeavyHitters ss => SpaceSaving.ss_updates ss
  | QCounter cm _ => CountMin.cm_updates cm
  | QDistinctPerKey m => HllMap.hm_updates m
  | QDistinctGlobal hll => Hll.hl_updates hll
  | QQuantile kll => Kll.kl_updates kll
  | QEntropy ss _ => SpaceSaving.ss_updates ss
  end.

(** The sketches' own [memory_bytes], which depend on allocator capacities. *)
Record Footprint := mkFootprint {
  fp_ss : SpaceSaving.SpaceSaving → Z;
  fp_cm : CountMin.CountMinSketch → Z;
  fp_map : HllMap.HllMap → Z;
  fp_hll : Hll.HyperLogLog → Z;
  fp_kll : Kll.KllSketch → Z;
}.
Definition memory_bytes (fp : Footprint) (s : QueryState) : Z :=
  match s with
  | QHeavyHitters ss => fp_ss fp ss
  | QCounter cm keys => fp_cm fp cm +ʷ fp_ss fp keys
  | QDistinctPerKey m => fp_map fp m
  | QDistinctGlobal hll => fp_hll fp hll
  | QQuantile kll => fp_kll fp kll
  | QEntropy ss hll => fp_ss fp ss +ʷ fp_hll fp hll
  end.

Definition to_snapshots (s : QueryState) (ws we : Z) : list (string * bytes) :=
  match s with
  | QHeavyHitters ss => [(SPACESAVING, SpaceSaving.to_snapshot ss ws we)]
  | QCounter cm keys =>
      [(COUNT_MIN, CountMin.to_snapshot cm ws we);
       (KEYS_SPACESAVING, SpaceSaving.to_snapshot keys ws we)]
  | QDistinctPerKey m => [(HLLMAP, HllMap.to_snapshot m ws we)]
  | QDistinctGlobal hll => [(HLL, Hll.to_snapshot hll ws we)]
  | QQuantile kll => [(KLL, Kll.to_snapshot kll ws we)]
  | QEntropy ss hll =>
      [(HEAD_SPACESAVING, SpaceSaving.to_snapshot ss ws we);
       (TAIL_HLL, Hll.to_snapshot hll ws we)]
  end.

Definition get_component (components : gmap string bytes) (name : string) : res bytes :=
  ok_or (components !! name) (SnapshotError "missing component snapshot").

Section state.
Context (fuel : nat).

Definition update (s : QueryState) (key : bytes) (weight : Z) (distinct_item : bytes)
    : res QueryState :=
  match s with
  | QHeavyHitters ss => ss ← SpaceSaving.add ss key weight; Ok (QHeavyHitters ss)
  | QCounter cm keys =>
      cm ← CountMin.update cm key weight;
      keys ← SpaceSaving.add keys key weight;
      Ok (QCounter cm keys)
  | QDistinctPerKey m => m ← HllMap.insert fuel m key distinct_item; Ok (QDistinctPerKey m)
  | QDistinctGlobal hll => hll ← Hll.insert hll distinct_item; Ok (QDistinctGlobal hll)
  | QQuantile kll => kll ← Kll.insert kll weight; Ok (QQuantile kll)
  | QEntropy ss hll =>
      ss ← SpaceSaving.add ss distinct_item 1;
      hll ← Hll.insert hll distinct_item;
      Ok (QEntropy ss hll)
  end.

(** The match at the end of [RunningQuery::process]: heavy hitters move the key
    out of the hot-path buffer, the other states copy it.  The second result is
    the buffer afterwards. *)
Definition update_key_buf (s : QueryState) (key_buf : bytes) (weight : Z)
    (distinct_buf : bytes) : res (QueryState * bytes) :=
  match s with
  | QHeavyHitters ss =>
      '(ss, key_buf) ← SpaceSaving.add_key_buf ss key_buf weight;
      Ok (QHeavyHitters ss, key_buf)
  | s => s ← update s key_buf weight distinct_buf; Ok (s, key_buf)
  end.

(** What a failed merge of the second component leaves behind is part of the
    result. *)
Definition merge_from (s other : QueryState) : res unit * QueryState :=
  match s, other with
  | QHeavyHitters a, QHeavyHitters b =>
      merge_part QHeavyHitters a (SpaceSaving.merge_from a b)
  | QCounter a ka, QCounter b kb =>
      match CountMin.merge_from a b with
      | Ok a => merge_part (QCounter a) ka (SpaceSaving.merge_from ka kb)
      | m => merge_part (λ a, QCounter a ka) a m
      end
  | QDistinctPerKey a, QDistinctPerKey b =>
      merge_part QDistinctPerKey a (HllMap.merge_from fuel a b)
  | QDistinctGlobal a, QDistinctGlobal b =>
      merge_part QDistinctGlobal a (Hll.merge_from a b)
  | QQuantile a, QQuantile b => merge_part QQuantile a (Kll.merge_from a b)
  | QEntropy a ha, QEntropy b hb =>
      match SpaceSaving.merge_from a b with
      | Ok a => merge_part (QEntropy a) ha (Hll.merge_from ha hb)
      | m => merge_part (λ a, QEntropy a ha) a m
      end
  | s, _ => (Err (IncompatibleMerge "mismatched query state kinds"), s)
  end.

Definition from_snapshots (sketch : PhysicalSketch) (components : gmap string bytes)
    : res QueryState :=
  match sketch with
  | PSpaceSaving _ =>
      b ← get_component components SPACESAVING;
      ss ← SpaceSaving.from_snapshot b; Ok (QHeavyHitters ss)
  | PHllMap _ _ =>
      b ← get_component components HLLMAP;
      m ← HllMap.from_snapshot fuel b; Ok (QDistinctPerKey m)
  | PHyperLogLog _ =>
      b ← get_component components HLL;
      hll ← Hll.from_snapshot b; Ok (QDistinctGlobal hll)
  | PKll _ =>
      b ← get_component components KLL;
      kll ← Kll.from_snapshot b; Ok (QQuantile kll)
  | PComposite [PSpaceSaving _; PCountMin _ _ _] =>
      b ← get_component components COUNT_MIN;
      cm ← CountMin.from_snapshot b;
      b ← get_component components KEYS_SPACESAVING;
      keys ← SpaceSaving.from_snapshot b;
      Ok (QCounter cm keys)
  | PComposite [PSpaceSaving _; PHyperLogLog _] =>
      b ← get_component components HEAD_SPACESAVING;
      ss ← SpaceSaving.from_snapshot b;
      b ← get_component components TAIL_HLL;
      hll ← Hll.from_snapshot b;
      Ok (QEntropy ss hll)
  | PComposite _ => cannot_execute_composite
  | PCountMin _ _ _ | PCountSketch _ _ | PMisraGries _ => cannot_execute
  end.
End state.

(** ** The interface the windowed runtime uses *)

Class WindowSketch (S : Type) := {
  ws_build : PhysicalSketch → HashSpec → res S;
  ws_update : S → bytes → Z → bytes → res S;
  ws_update_key_buf : S → bytes → Z → bytes → res (S * bytes);
  ws_merge_from : S → S → res unit * S;
  ws_update_count : S → Z;
}.

(** [like r s]: the state [s] has the parameters of the fresh state [r] and
    satisfies its implementation's invariant. *)
Class LawfulWindow (S : Type) `{!WindowSketch S} (supported : PhysicalSketch → Prop)
    (like : S → S → Prop) : Prop := {
  lw_build sk h r : supported sk → ws_build sk h = Ok r → like r r ∧ ws_update_count r = 0;
  lw_update r s k w i :
    like r s → u64_ok w → ∃ s', ws_update s k w i = Ok s' ∧ like r s' ∧
      ws_update_count s' = ws_update_count s +ʷ 1;
  lw_update_key_buf r s k w i s' :
    like r s → ws_update s k w i = Ok s' → ∃ buf, ws_update_key_buf s k w i = Ok (s', buf);
  lw_merge r s t :
    like r s → like r t → ∃ s', ws_merge_from s t = (Ok tt, s') ∧ like r s' ∧
      ws_update_count s' = ws_update_count s +ʷ ws_update_count t;
}.

#[export] Instance QueryState_Window (fuel : nat) : WindowSketch QueryState := {
  ws_build := build;
  ws_update := update fuel;
  ws_update_key_buf := update_key_buf fuel;
  ws_merge_from := merge_from fuel;
  ws_update_count := update_count;
}.

(** ** The laws hold *)

Section laws.
Context (fuel : nat).

(** Plans the runtime executes; the keyed map also needs its estimator's
    iterations to converge within the fuel. *)
Definition supported (sk : PhysicalSketch) : Prop :=
  match sk with
  | PSpaceSaving capacity => 0 <= capacity
  | PHllMap max_keys _ => u64_ok max_keys ∧ HllMap.converges fuel
  | PHyperLogLog _ => True
  | PKll k => u64_ok k
  | PComposite [PSpaceSaving capacity; PCountMin width depth _] =>
      0 <= capacity ∧ 0 <= width ∧ 0 <= depth ∧ width * depth < u64_mod
  | PComposite [PSpaceSaving capacity; PHyperLogLog _] => 0 <= capacity
  | _ => False
  end.

(** A sketch with the parameters of [r] that satisfies its invariant. *)
Definition alike {S} `{!Sketch S} (inv : S → Prop) (r s : S) : Prop :=
  inv s ∧ sk_compatibility s = sk_compatibility r.

Definition map_like (r s : HllMap.HllMap) : Prop :=
  HllMap.wf fuel s ∧ HllMap.bounded s ∧ HllMap.same_params r s ∧ HllMap.converges fuel.

Definition like (r s : QueryState) : Prop :=
  match r, s with
  | QHeavyHitters a, QHeavyHitters b => alike SpaceSaving.wf a b
  | QCounter a ka, QCounter b kb => alike CountMin.wf a b ∧ alike SpaceSaving.wf ka kb
  | QDistinctPerKey a, QDistinctPerKey b => map_like a b
  | QDistinctGlobal a, QDistinctGlobal b => alike Hll.valid a b
  | QQuantile a, QQuantile b => alike Kll.wf a b
  | QEntropy a ha, QEntropy b hb => alike SpaceSaving.wf a b ∧ alike Hll.valid ha hb
  | _, _ => False
  end.

Section alike.
Context {S : Type} `{!Sketch S} (inv : S → Prop) `{HL : !LawfulSketch S inv}.

Lemma alike_update r s k w :
  alike inv r s → u64_ok w → ∃ s', sk_update s k w = Ok s' ∧ alike inv r s' ∧
    sk_update_count s' = sk_update_count s +ʷ 1.
Proof using HL.
  intros [Hs Hc] Hw. destruct (sk_update_ok s k w Hs Hw) as (s' & Hu & Hi & Hc' & Hn).
  exists s'. split; [done|]. split; [|done]. split; [done|congruence].
Qed.

Lemma alike_merge r s t :
  alike inv r s → alike inv r t → ∃ s', sk_merge_from s t = Ok s' ∧ alike inv r s' ∧
    sk_update_count s' = sk_update_count s +ʷ sk_update_count t.
Proof using HL.
  intros [Hs Hc] [Ht Hd].
  destruct (sk_merge_ok s t Hs Ht) as (s' & Hm & Hi & Hc' & Hn); [congruence|].
  exists s'. split; [done|]. split; [|done]. split; [done|congruence].
Qed.
End alike.

Lemma map_like_insert r s k i :
  map_like r s → ∃ s', HllMap.insert fuel s k i = Ok s' ∧ map_like r s' ∧
    HllMap.hm_updates s' = HllMap.hm_updates s +ʷ 1.
Proof.
  intros (Hw & Hb & Hp & Hc).
  destruct (HllMap.hm_insert_spec fuel s k i Hw Hb) as [(s' & Hi & Hw' & Hb' & Hp' & Hu & _)|[_ He]].
  - exists s'. split; [done|]. split; [|done]. split_and!; try done.
    exact (HllMap.same_params_trans _ _ _ Hp Hp').
  - exfalso. eapply (HllMap.converges_estimable fuel); [apply (HllMap.wf_slots _ _ Hw)|done|done].
Qed.

Lemma map_like_merge r s t :
  map_like r s → map_like r t → ∃ s', HllMap.merge_from fuel s t = Ok s' ∧ map_like r s' ∧
    HllMap.hm_updates s' = HllMap.hm_updates s +ʷ HllMap.hm_updates t.
Proof.
  intros (Hw & Hb & Hp & Hc) (Hwt & Hbt & Hpt & _).
  destruct (HllMap.hm_merge_spec fuel s t Hw Hwt) as [(s' & Hm & Hw' & Hb' & Hp' & Hu)|[_ He]];
    [|exists s'|done].
  { destruct Hp as (?&?&?), Hpt as (?&?&?). split_and!; congruence. }
  split; [done|]. split; [|done]. split_and!; try done. exact (HllMap.same_params_trans _ _ _ Hp Hp').
Qed.

Lemma new_alike sk h r : supported sk → build sk h = Ok r → like r r ∧ update_count r = 0.
Proof.
  assert (∀ c s, 0 <= c → SpaceSaving.new c h = Ok s → alike SpaceSaving.wf s s) as Hss
    by (intros c s Hc Hn; split; [by apply (SpaceSaving.ss_new_wf c h s)|done]).
  assert (∀ c s, SpaceSaving.new c h = Ok s → SpaceSaving.ss_updates s = 0) as Hsu
    by (intros c s Hn; unfold SpaceSaving.new in Hn; bind_inv; by simplify_eq).
  assert (∀ p s, Hll.new p h = Ok s → alike Hll.valid s s ∧ Hll.hl_updates s = 0) as Hhl.
  { intros p s Hn. unfold Hll.new in Hn. bind_inv. injection Hn as <-. split; [|done].
    split; [|done]. split; [by apply negb_false_iff|done]. }
  intros Hsup Hb. destruct sk; cbn [build supported] in *; try done.
  - apply bind_ok in Hb as (ss & Hn & [= <-]). split; [by eapply Hss|by eapply Hsu].
  - apply bind_ok in Hb as (hll & Hn & [= <-]). by apply Hhl in Hn.
  - apply bind_ok in Hb as (m & Hn & [= <-]). split.
    + destruct Hsup as [Hm Hc]. by destruct (HllMap.hm_new_wf fuel _ _ _ _ Hm Hn) as (? & ? & _).
    + unfold HllMap.new in Hn. bind_inv. by simplify_eq.
  - apply bind_ok in Hb as (kll & Hn & [= <-]). unfold Kll.new in Hn. bind_inv.
    injection Hn as <-. split; [|done]. split; [|done].
    match goal with Hk : (_ <? _) = false |- _ => apply Z.ltb_ge in Hk end.
    split; cbn; try done; word_lia.
  - destruct stages as [|[] [|[] [|]]]; try done.
    + apply bind_ok in Hb as (cm & Hc & Hb). apply bind_ok in Hb as (keys & Hn & [= <-]).
      destruct Hsup as (H0 & Hw & Hd & Hm).
      destruct (CountMin.cm_new_wf _ _ _ _ _ Hw Hd Hm Hc) as (Hwf & _ & _ & _ & _ & _ & Hu & _).
      split; [split; [by split|exact (Hss _ _ H0 Hn)]|done].
    + apply bind_ok in Hb as (ss & Hn & Hb). apply bind_ok in Hb as (hll & Hh & [= <-]).
      apply Hhl in Hh as [Hh _]. split; [split; [exact (Hss _ _ Hsup Hn)|done]|by eapply Hsu].
Qed.

(** Name a component's step and reduce with it. *)
Ltac step_with L :=
  let s' := fresh "s" in let E := fresh "E" in let Hl := fresh "Hl" in let Hn := fresh "Hn" in
  destruct L as (s' & E & Hl & Hn); [try done..|];
  cbn [sk_update sk_merge_from sk_update_count SpaceSaving.SpaceSaving_Sketch
    CountMin.CountMin_Sketch Hll.Hll_Sketch Kll.Kll_Sketch] in E, Hn;
  unfold Hll.update, Kll.update in E; rewrite E; ostep.

Lemma like_update r s k w i :
  like r s → u64_ok w → ∃ s', update fuel s k w i = Ok s' ∧ like r s' ∧
    update_count s' = update_count s +ʷ 1.
Proof.
  assert (u64_ok 1) as H1 by by range_tac.
  intros Hl Hw. destruct r, s; try done; cbn [like update update_count] in *.
  - step_with (alike_update SpaceSaving.wf _ _ k w Hl). by eexists.
  - destruct Hl as [Hc Hk]. step_with (alike_update CountMin.wf _ _ k w Hc).
    step_with (alike_update SpaceSaving.wf _ _ k w Hk). by eexists.
  - step_with (map_like_insert _ _ k i Hl). by eexists.
  - step_with (alike_update Hll.valid _ _ i w Hl). by eexists.
  - step_with (alike_update Kll.wf _ _ k w Hl). by eexists.
  - destruct Hl as [Hs Hh]. step_with (alike_update SpaceSaving.wf _ _ i 1 Hs).
    step_with (alike_update Hll.valid _ _ i w Hh). by eexists.
Qed.

Lemma like_merge r s t :
  like r s → like r t → ∃ s', merge_from fuel s t = (Ok tt, s') ∧ like r s' ∧
    update_count s' = update_count s +ʷ update_count t.
Proof.
  intros Hs Ht. destruct r, s, t; try done; cbn [like merge_from update_count] in *.
  - step_with (alike_merge SpaceSaving.wf _ _ _ Hs Ht). by eexists.
  - destruct Hs as [Hs Hk], Ht as [Ht Hkt]. step_with (alike_merge CountMin.wf _ _ _ Hs Ht).
    step_with (alike_merge SpaceSaving.wf _ _ _ Hk Hkt). by eexists.
  - step_with (map_like_merge _ _ _ Hs Ht). by eexists.
  - step_with (alike_merge Hll.valid _ _ _ Hs Ht). by eexists.
  - step_with (alike_merge Kll.wf _ _ _ Hs Ht). by eexists.
  - destruct Hs as [Hs Hk], Ht as [Ht Hkt]. step_with (alike_merge SpaceSaving.wf _ _ _ Hs Ht).
    step_with (alike_merge Hll.valid _ _ _ Hk Hkt). by eexists.
Qed.

(** The hot path's update is the update. *)
Lemma update_key_buf_eq s k w i s' :
  update fuel s k w i = Ok s' → ∃ buf, update_key_buf fuel s k w i = Ok (s', buf).
Proof.
  unfold update_key_buf. intros Hu. destruct s; [|rewrite Hu; ostep; by eexists..].
  rewrite SpaceSaving.add_key_buf_eq. cbn [update] in Hu.
  apply bind_ok in Hu as (ss' & -> & [= <-]). by exists [].
Qed.

#[export] Instance QueryState_Lawful :
  LawfulWindow (WindowSketch0 := QueryState_Window fuel) QueryState supported like.
Proof.
  split; cbn [ws_build ws_update ws_update_key_buf ws_merge_from ws_update_count QueryState_Window].
  - intros sk h r. apply new_alike.
  - intros r s k w i. apply like_update.
  - intros r s k w i s' _. apply update_key_buf_eq.
  - intros r s t. apply like_merge.
Qed.
End laws.
