(* ===== verification/Planner.v ===== *)
(** * The planner  (crates/flowsketch-planner/src/lib.rs)

    [plan] compiles a logical query into a physical plan, or rejects it.  The
    platform's [ln] and [log2], and the formatting of floats ([show] for [{}],
    [show_fixed n] for [{:.n}]), are parameters. *)
From S2P Require Import Prelude Bytes F64 Event Ir.

(** [PlanError::Rejected]: the query's name and the reason. *)
Inductive PlanError := Rejected (name reason : string).

Abbreviation pres := (outcome PlanError).

Inductive ErrorKind :=
  | AdditiveOverestimate | Relative | CandidateUpperBound | RankError | Heuristic.

Definition ErrorKind_name (k : ErrorKind) : string :=
  match k with
  | AdditiveOverestimate => "additive-overestimate"
  | Relative => "relative"
  | CandidateUpperBound => "candidate-upper-bound"
  | RankError => "rank-error"
  | Heuristic => "heuristic"
  end.

Record PhysicalPlan := mkPhysical {
  sketch : PhysicalSketch;
  window_buckets : Z;
  pending_window_capacity : Z;
  pl_estimated_memory_bytes : Z;
  estimated_state_memory_bytes : Z;
  export_series_upper_bound : Z;
  error_kind : ErrorKind;
  error_contract : string;
  warnings : list string;
}.

Record Plan := mkPlan { query : LogicalQuery; physical : PhysicalPlan }.

Definition stored_key_fields (q : LogicalQuery) : list Field :=
  match measure q with
  | Entropy field => [field]
  | Quantile _ _ => []
  | DistinctCount _ | Count | Sum _ | HeavyHitters _ _ => group_by q
  end.
Definition maximum_stored_key_bytes (q : LogicalQuery) : Z :=
  let fields := stored_key_fields q in
  sat_add64 (foldl wadd64 0 (max_encoded_len <$> fields)) (sat_sub64 (zlen fields) 1).

(** [x.clamp(lo, hi)] *)
Definition clamp (lo hi x : Z) : Z := Z.min hi (Z.max lo x).

(** [1.0 / 18_446_744_073_709_551_616.0] *)
Definition HASH_FAILURE_FLOOR : f64 := f_lit 1 18446744073709551616.
(** [std::f64::consts::E] *)
Definition E_CONST : f64 := f_lit 2718281828459045 1000000000000000.

(** Adjacent pieces of a message. *)
Definition text (pieces : list string) : string := join_strings "" pieces.

Section planner.
Context (ln log2 : f64 → f64) (show : f64 → string) (show_fixed : Z → f64 → string).

Definition count_min_dimensions (epsilon delta : f64) : outcome string (Z * Z) :=
  if negb (f_ltb f_zero epsilon && f_ltb epsilon f_one &&
           f_ltb f_zero delta && f_ltb delta f_one)
  then Err "epsilon and delta must be in (0, 1)"
  else if f_leb delta HASH_FAILURE_FLOOR
  then Err (text ["delta must exceed the fsk1 hash confidence floor "; show HASH_FAILURE_FLOOR])
  else
    let width := f_ceil_as_u64 (f_div E_CONST epsilon) in
    let depth := Z.max 1 (f_ceil_as_u64 (ln (f_div f_one (f_sub delta HASH_FAILURE_FLOOR)))) in
    Ok (width, depth).

Definition hll_precision_for_error (epsilon : f64) : Z :=
  clamp 4 18 (f_ceil_as_i64 (log2 (f_sq (f_div (f_lit 104 100) epsilon)))).

Definition kll_k_for_error (epsilon : f64) : Z :=
  clamp 8 65536 (f_ceil_as_u64 (f_div (f_lit 23 10) epsilon)).

(** [while value >= 1024.0 && unit < UNITS.len() - 1], with the units left. *)
Fixpoint scale_unit (value : f64) (unit : string) (units : list string) : f64 * string :=
  match units with
  | next :: units =>
      if f_leb (f64_of_Z 1024) value
      then scale_unit (f_div value (f64_of_Z 1024)) next units
      else (value, unit)
  | [] => (value, unit)
  end.
Definition format_bytes (n : Z) : string :=
  let '(value, unit) := scale_unit (f64_of_Z n) "B" ["KiB"; "MiB"; "GiB"] in
  if bool_decide (unit = "B") then text [decimal_string n; " B"]
  else text [show_fixed 1 value; " "; unit].

(** What the measure's arm decides: sketch, error model, contract, series bound
    and the warnings it pushed. *)
Record Choice := mkChoice {
  c_sketch : PhysicalSketch;
  c_kind : ErrorKind;
  c_contract : string;
  c_series : Z;
  c_warnings : list string;
}.

Definition plan_counter (q : LogicalQuery) : pres Choice :=
  let max_series := max_series (export q) in
  '(width, depth) ← map_err (Rejected (q_name q))
      (count_min_dimensions (epsilon (error q)) (delta (error q)));
  let tracker_capacity := clamp 256 65536 (max_series *ʷ 4) in
  Ok {| c_sketch := PComposite [PSpaceSaving tracker_capacity; PCountMin width depth true];
        c_kind := AdditiveOverestimate;
        c_contract := text ["estimates never underestimate; overestimate exceeds ";
          show (epsilon (error q)); " * N with probability <= "; show (delta (error q));
          "; only the top "; decimal_string tracker_capacity; " groups by weight are enumerated"];
        c_series := max_series; c_warnings := [] |}.

Definition plan_heavy_hitters (q : LogicalQuery) (limit : Z) : pres Choice :=
  let max_series := max_series (export q) in
  let warnings := if max_series <? limit
                  then [text ["heavy_hitters limit "; decimal_string limit;
                              " exceeds export.maxSeries "; decimal_string max_series;
                              "; export cap wins"]]
                  else [] in
  let capacity := clamp 256 1048576
    (Z.max (f_ceil_as_u64 (f_div f_one (epsilon (error q)))) (limit *ʷ 4)) in
  Ok {| c_sketch := PSpaceSaving capacity; c_kind := CandidateUpperBound;
        c_contract := text ["tracked counts are upper bounds, overestimating by at most N/";
          decimal_string capacity; "; every group with weight share > ";
          show (f_div f_one (f64_of_Z capacity)); " of total is guaranteed present"];
        c_series := Z.min limit max_series; c_warnings := warnings |}.

(** The keys a grouped HLL map may retain within the query's memory budget. *)
Definition per_key_bytes (precision key_bytes : Z) : Z :=
  shl64 1 precision +ʷ 2 *ʷ key_bytes +ʷ 48 +ʷ 32.
Definition budgeted_max_keys (q : LogicalQuery) (precision key_bytes resident_sketches : Z) : Z :=
  let per_sketch_budget := max_memory_bytes q / resident_sketches in
  let per_key := per_key_bytes precision key_bytes in
  if per_key =? 0 then 0 else sat_sub64 per_sketch_budget 64 / per_key.

(** [1.04 / ((1u64 << precision) as f64).sqrt()] and its percentage. *)
Definition hll_relative_error (precision : Z) : f64 :=
  f_div (f_lit 104 100) (f_sqrt (f64_of_Z (shl64 1 precision))).
Definition percent (digits : Z) (rel : f64) : string := show_fixed digits (f_mul rel (f64_of_Z 100)).

Definition distinct_warnings (eps : f64) (precision : Z) : list string :=
  let rel := hll_relative_error precision in
  if f_ltb eps rel
  then [text ["requested epsilon "; show eps;
              " is tighter than the best supported HLL precision (";
              decimal_string precision; ") can deliver; plan achieves ~"; percent 3 rel;
              "% relative standard error"]]
  else [].

(** The ungrouped and the grouped plan of [distinct_count]. *)
Definition plan_distinct_global (precision : Z) (warnings : list string) : pres Choice :=
  Ok {| c_sketch := PHyperLogLog precision; c_kind := Relative;
        c_contract := text ["relative standard error ~ "; percent 2 (hll_relative_error precision);
                            "% (precision "; decimal_string precision; ")"];
        c_series := 1; c_warnings := warnings |}.

Definition plan_distinct_grouped (q : LogicalQuery) (precision key_bytes buckets resident_sketches : Z)
    (warnings : list string) : pres Choice :=
  let max_series := max_series (export q) in
  let preferred_max_keys := clamp 1024 65536 (max_series *ʷ 4) in
  let budgeted_max_keys := budgeted_max_keys q precision key_bytes resident_sketches in
  let minimum_max_keys := Z.min max_series preferred_max_keys in
  if budgeted_max_keys <? minimum_max_keys then
    Err (Rejected (q_name q) (text ["resources.maxMemory can retain only ";
      decimal_string budgeted_max_keys; " grouped HLL keys across "; decimal_string buckets;
      " window buckets and bounded output, below the configured export.maxSeries requirement of ";
      decimal_string minimum_max_keys]))
  else
    let max_keys := Z.min preferred_max_keys budgeted_max_keys in
    let warnings :=
      if max_keys <? preferred_max_keys
      then warnings ++ [text ["HLLMap key retention reduced from preferred ";
             decimal_string preferred_max_keys; " to "; decimal_string max_keys;
             " groups to stay within resources.maxMemory; raise the budget for more low-cardinality retention headroom"]]
      else warnings in
    Ok {| c_sketch := PHllMap max_keys precision; c_kind := Relative;
          c_contract := text ["per-group relative standard error ~ ";
            percent 2 (hll_relative_error precision); "% (precision "; decimal_string precision;
            "); key retention bounded at "; decimal_string max_keys;
            " groups — low-cardinality groups may be evicted under pressure (evictions are exported as a health metric)"];
          c_series := Z.min max_series max_keys; c_warnings := warnings |}.

Definition plan_distinct (q : LogicalQuery) (key_bytes buckets resident_sketches : Z) : pres Choice :=
  let eps := epsilon (error q) in
  let precision := hll_precision_for_error eps in
  let warnings := distinct_warnings eps precision in
  if bool_decide (group_by q = []) then plan_distinct_global precision warnings
  else plan_distinct_grouped q precision key_bytes buckets resident_sketches warnings.

Definition plan_entropy (q : LogicalQuery) : pres Choice :=
  if negb (bool_decide (group_by q = [])) then
    Err (Rejected (q_name q) "grouped entropy is not supported yet (it needs a bounded keyed distribution sketch); drop groupBy to measure the field's global entropy per window")
  else
    let capacity := clamp 256 65536 (f_ceil_as_u64 (f_div f_one (epsilon (error q)))) in
    let precision := hll_precision_for_error (f_lit 163 10000) in
    Ok {| c_sketch := PComposite [PSpaceSaving capacity; PHyperLogLog precision];
          c_kind := Heuristic;
          c_contract := text ["heuristic: exact head entropy over the top ";
            decimal_string capacity;
            " values plus a uniform-tail correction sized by an HLL distinct count (precision ";
            decimal_string precision;
            "); no formal single-number bound — validate against `flowsketch bench` for your traffic shape"];
          c_series := 1; c_warnings := [] |}.

Definition plan_quantile (q : LogicalQuery) (quantile : f64) : pres Choice :=
  if negb (bool_decide (group_by q = [])) then
    Err (Rejected (q_name q) "grouped quantile is not supported yet (it needs a bounded keyed KLL map); drop groupBy to measure the field's global distribution per window")
  else if negb (f_leb f_zero quantile && f_leb quantile f_one) then
    Err (Rejected (q_name q) (text ["quantile q must be in [0, 1], got "; show quantile]))
  else
    let eps := epsilon (error q) in
    let k := kll_k_for_error eps in
    let achieved := f_div (f_lit 23 10) (f64_of_Z k) in
    let warnings := if f_ltb eps achieved
                    then [text ["requested rank error "; show eps;
                                " is tighter than the largest supported KLL (k="; decimal_string k;
                                ") delivers; plan achieves ~"; show_fixed 5 achieved]]
                    else [] in
    Ok {| c_sketch := PKll k; c_kind := RankError;
          c_contract := text ["returned value's true rank is within ~"; show_fixed 4 achieved;
            " * n of the requested quantile with high probability (KLL, k="; decimal_string k; ")"];
          c_series := 1; c_warnings := warnings |}.

Definition choose (q : LogicalQuery) (key_bytes buckets resident_sketches : Z) : pres Choice :=
  match measure q with
  | Count | Sum _ => plan_counter q
  | HeavyHitters _ limit => plan_heavy_hitters q limit
  | DistinctCount _ => plan_distinct q key_bytes buckets resident_sketches
  | Entropy _ => plan_entropy q
  | Quantile _ quantile => plan_quantile q quantile
  end.

Definition groups_by_ip (q : LogicalQuery) : bool :=
  existsb (λ f, match f with SrcIp | DstIp => true | _ => false end) (group_by q).

Definition plan (q : LogicalQuery) : pres Plan :=
  buckets ← bucket_count (window q);
  let pending_window_capacity := buckets in
  let resident_sketches := buckets +ʷ pending_window_capacity +ʷ 1 in
  let key_bytes := maximum_stored_key_bytes q in
  _ ← fail_if (negb (bool_decide (group_by q = [])) && bool_decide (is_Some (lt (alert q))))
        (Rejected (q_name q) "alertIf.lt is not sound for grouped queries: bounded top-k/key-retention plans cannot enumerate every low-valued or absent group; use alertIf.gt, remove groupBy, or alert on an explicitly enumerated downstream series");
  c ← choose q key_bytes buckets resident_sketches;
  let per_bucket := estimated_memory_bytes key_bytes (c_sketch c) in
  let estimated := per_bucket *ʷ resident_sketches in
  _ ← fail_if (max_memory_bytes q <? estimated)
        (Rejected (q_name q) (text ["plan needs ~"; format_bytes estimated; " across ";
          decimal_string buckets; " window buckets but resources.maxMemory is ";
          format_bytes (max_memory_bytes q);
          "; loosen error.epsilon, shrink the window, or raise the budget"]));
  let warnings := if groups_by_ip q
                  then c_warnings c ++ ["raw IP labels can create high series cardinality in Prometheus; export.maxSeries caps this query's output"%string]
                  else c_warnings c in
  Ok {| query := q;
        physical := {| sketch := c_sketch c; window_buckets := buckets;
                       pending_window_capacity := pending_window_capacity;
                       pl_estimated_memory_bytes := estimated;
                       estimated_state_memory_bytes := per_bucket;
                       export_series_upper_bound := c_series c;
                       error_kind := c_kind c; error_contract := c_contract c;
                       warnings := warnings |} |}.

(** ** Explain output *)

Definition nl : string := String.String (Ascii.ascii_of_nat 10) "".
(** [{:?}] of a vector of integers. *)
Definition debug_list (l : list Z) : string :=
  text ["["; join_strings ", " (decimal_string <$> l); "]"].

Definition measure_arguments (m : Measure) : string :=
  match m with
  | Sum value => text ["("; name value; ")"]
  | HeavyHitters value limit => text ["("; name value; ", limit="; decimal_string limit; ")"]
  | DistinctCount field | Entropy field | Quantile field _ => text ["("; name field; ")"]
  | Count => ""
  end.
Definition filter_parts (f : Predicate) : list string :=
  match pr_protocol f with
  | Some p => [text ["protocol="; string_of_bytes (protocol_name p)]]
  | None => []
  end ++
  (if bool_decide (dst_ports f = []) then [] else [text ["dst.port in "; debug_list (dst_ports f)]]) ++
  (if bool_decide (src_ports f = []) then [] else [text ["src.port in "; debug_list (src_ports f)]]) ++
  (if bool_decide (interfaces f = []) then []
   else [text ["interface in "; debug_list (interfaces f)]]).
Definition alert_parts (a : AlertSpec) : list string :=
  match gt a with Some t => [text ["estimate > "; show t]] | None => [] end ++
  match lt a with Some t => [text ["estimate < "; show t]] | None => [] end.

Definition explain (plan : Plan) : string :=
  let q := query plan in
  let p := physical plan in
  text
    ["Logical query:"; nl; "  name:     "; q_name q; nl;
     (if bool_decide (group_by q = []) then ""
      else text ["  group by: "; join_strings ", " (name <$> group_by q); nl]);
     "  measure:  "; Measure_name (measure q); measure_arguments (measure q); nl;
     "  window:   "; humanize_nanos (size_nanos (window q)); " slide ";
     humanize_nanos (slide_nanos (window q)); nl;
     (if Predicate_is_empty (filter q) then ""
      else text ["  filter:   "; join_strings " and " (filter_parts (filter q)); nl]);
     (if AlertSpec_is_empty (alert q) then ""
      else text ["  alert if: "; join_strings " or " (alert_parts (alert q)); nl]);
     nl; "Physical plan:"; nl; "  "; describe (sketch p); nl;
     "  "; decimal_string (window_buckets p); " window bucket(s) of ";
     humanize_nanos (slide_nanos (window q)); nl;
     "  estimated memory: "; format_bytes (pl_estimated_memory_bytes p); " (budget ";
     format_bytes (max_memory_bytes q); ")"; nl;
     "  mergeable state:  "; format_bytes (estimated_state_memory_bytes p); nl;
     "  export series upper bound: "; decimal_string (export_series_upper_bound p); nl;
     "  error model: "; ErrorKind_name (error_kind p); " — "; error_contract p; nl;
     (if bool_decide (warnings p = []) then ""
      else text (nl :: "Warnings:" :: nl :: ((λ w, text ["  - "; w; nl]) <$> warnings p)))].

(** ** Bounds *)

(** What the query's integer types admit, and a positive slide. *)
Record query_ok (q : LogicalQuery) : Prop := {
  qo_size : u64_ok (size_nanos (window q));
  qo_slide : 0 < slide_nanos (window q) < u64_mod;
  qo_series : u64_ok (max_series (export q));
  qo_memory : u64_ok (max_memory_bytes q);
}.

Lemma clamp_range lo hi x : lo <= hi → lo <= clamp lo hi x <= hi.
Proof using. unfold clamp. lia. Qed.

Lemma bucket_count_ok (w : WindowSpec) :
  slide_nanos w ≠ 0 → bucket_count (E := PlanError) w = Ok (Z.max (size_nanos w / slide_nanos w) 1).
Proof using. intros Hs. unfold bucket_count. by rewrite (proj2 (Z.eqb_neq _ _)). Qed.

Lemma shl64_pow p : 0 <= p < 64 → shl64 1 p = 2 ^ p.
Proof using.
  intros Hp. unfold shl64. rewrite Z.mod_small by lia. rewrite Z.shiftl_1_l. apply wrap64_small.
  split; [by apply Z.pow_nonneg|]. change u64_mod with (2 ^ 64). apply Z.pow_lt_mono_r; lia.
Qed.

(** What a successful run of the planner has computed. *)
Lemma plan_inv q p :
  plan q = Ok p →
  ∃ b c, bucket_count (E := PlanError) (window q) = Ok b ∧
    choose q (maximum_stored_key_bytes q) b (b +ʷ b +ʷ 1) = Ok c ∧
    (group_by q = [] ∨ lt (alert q) = None) ∧
    query p = q ∧ sketch (physical p) = c_sketch c ∧ window_buckets (physical p) = b ∧
    pending_window_capacity (physical p) = b ∧
    export_series_upper_bound (physical p) = c_series c ∧
    estimated_state_memory_bytes (physical p) =
      estimated_memory_bytes (maximum_stored_key_bytes q) (c_sketch c) ∧
    pl_estimated_memory_bytes (physical p) =
      estimated_state_memory_bytes (physical p) *ʷ (b +ʷ b +ʷ 1) ∧
    pl_estimated_memory_bytes (physical p) <= max_memory_bytes q.
Proof using.
  unfold plan. intros H. apply bind_ok in H as (b & Hb & H).
  apply bind_ok in H as ([] & Hlt%fail_if_ok & H). apply bind_ok in H as (c & Hc & H).
  apply bind_ok in H as ([] & Hm%fail_if_ok%Z.ltb_ge & [= <-]). exists b, c. split_and!; try done.
  apply andb_false_iff in Hlt as [Hg|Ha].
  - left. by apply negb_false_iff, bool_decide_eq_true in Hg.
  - right. apply bool_decide_eq_false in Ha. by destruct (lt (alert q)); [destruct Ha|].
Qed.

(** The sketch parameters the arms choose. *)
Definition sketch_ok (max_series : Z) (sk : PhysicalSketch) : Prop :=
  match sk with
  | PSpaceSaving capacity => 256 <= capacity <= 1048576
  | PHllMap max_keys precision =>
      0 <= max_keys <= 65536 ∧ (0 < max_series → 0 < max_keys) ∧ 4 <= precision <= 18
  | PHyperLogLog precision => 4 <= precision <= 18
  | PKll k => 8 <= k <= 65536
  | PComposite [PSpaceSaving capacity; PCountMin width depth _] =>
      256 <= capacity <= 65536 ∧ u64_ok width ∧ 1 <= depth < u64_mod
  | PComposite [PSpaceSaving capacity; PHyperLogLog precision] =>
      256 <= capacity <= 65536 ∧ 4 <= precision <= 18
  | _ => False
  end.

Lemma f_ceil_as_u64_range x : u64_ok (f_ceil_as_u64 x).
Proof using. unfold f_ceil_as_u64. destruct (f_ceil_Z x); [word_lia|]. destruct x as [|[]| |]; by range_tac. Qed.

Lemma count_min_dimensions_ok e d width depth :
  count_min_dimensions e d = Ok (width, depth) → u64_ok width ∧ 1 <= depth < u64_mod.
Proof using.
  unfold count_min_dimensions. destruct (negb _); [discriminate|].
  destruct (f_leb d HASH_FAILURE_FLOOR); [discriminate|]. intros H%ok_inj.
  pose proof (f_equal fst H) as Hw. pose proof (f_equal snd H) as Hd. cbn [fst snd] in Hw, Hd.
  rewrite <- Hw, <- Hd. clear H Hw Hd. split; [apply f_ceil_as_u64_range|].
  pose proof (f_ceil_as_u64_range (ln (f_div f_one (f_sub d HASH_FAILURE_FLOOR)))). word_lia.
Qed.

Lemma choose_ok q key_bytes b r c :
  choose q key_bytes b r = Ok c → sketch_ok (max_series (export q)) (c_sketch c).
Proof using.
  unfold choose, plan_counter, plan_heavy_hitters, plan_distinct, plan_entropy, plan_quantile,
    plan_distinct_global, plan_distinct_grouped, hll_precision_for_error, kll_k_for_error.

  destruct (measure q); intros H.
  1,2: apply bind_ok in H as ([w d] & Hd & <-%ok_inj); cbn [c_sketch sketch_ok];
    (split; [apply clamp_range; lia|]); unfold map_err in Hd;
    destruct (count_min_dimensions _ _) as [[w' d']|e|] eqn:E; [|discriminate Hd..];
    apply ok_inj in Hd; injection Hd as -> ->; by apply (count_min_dimensions_ok _ _ _ _ E).
  - apply ok_inj in H as <-. apply clamp_range. lia.
  - case_bool_decide; [apply ok_inj in H as <-; apply clamp_range; lia|].
    match type of H with (if ?b then _ else _) = _ => destruct b eqn:Hb end; [done|].
    apply ok_inj in H as <-. apply Z.ltb_ge in Hb. cbn [c_sketch sketch_ok].
    rewrite (and_assoc _ _ (4 <= _ <= 18)). split; [|apply clamp_range; lia].
    match goal with |- context [Z.min (clamp ?l ?h ?x) ?y] =>
      pose proof (clamp_range l h x ltac:(lia)); assert (0 <= y) end; [|lia].
    unfold budgeted_max_keys. case_match; [lia|]. apply Z.div_pos; [unfold sat_sub64; lia|].
    unfold per_key_bytes in *. match goal with |- 0 < ?x => assert (u64_ok x) by apply wadd64_range end.
    match goal with He : (_ =? 0) = false |- _ => apply Z.eqb_neq in He end. word_lia.
  - destruct (negb _); [done|]. apply ok_inj in H as <-. cbn [c_sketch sketch_ok].
    split; apply clamp_range; lia.
  - destruct (negb _); [done|]. destruct (negb _); [done|]. apply ok_inj in H as <-. apply clamp_range. lia.
Qed.

(** The budget of a grouped distinct count, without wrap-around. *)
Lemma per_key_exact precision key_bytes :
  4 <= precision <= 18 → 0 <= key_bytes < 4294967296 →
  per_key_bytes precision key_bytes = 2 ^ precision + 2 * key_bytes + 80.
Proof using.
  intros Hp Hk. unfold per_key_bytes. rewrite shl64_pow by lia.
  assert (0 < 2 ^ precision <= 262144).
  { split; [apply Z.pow_pos_nonneg; lia|]. change 262144 with (2 ^ 18). apply Z.pow_le_mono_r; lia. }
  rewrite wmul64_small by word_lia. rewrite (wadd64_small (2 ^ precision)) by word_lia.
  rewrite (wadd64_small _ 48) by word_lia. rewrite wadd64_small by word_lia. lia.
Qed.

(** Keys that fit the budget of one of [resident] sketches fit the whole budget. *)
Lemma budget_fits memory resident per_key keys :
  0 <= memory < u64_mod → 1 <= resident → 0 < per_key →
  0 < keys <= Z.max 0 (memory / resident - 64) / per_key →
  (keys * per_key + 64) * resident <= memory ∧ (0 <= keys * per_key < u64_mod - 64) ∧
  0 <= (keys * per_key + 64) * resident < u64_mod.
Proof using.
  intros Hm Hr Hk Hkeys. set (share := memory / resident) in *.
  assert (share * resident <= memory) by (rewrite Z.mul_comm; apply Z.mul_div_le; lia).
  assert (per_key * (Z.max 0 (share - 64) / per_key) <= Z.max 0 (share - 64)) by (apply Z.mul_div_le; lia).
  assert (keys * per_key <= Z.max 0 (share - 64)) by nia.
  assert (0 < keys * per_key) by nia.
  assert (keys * per_key + 64 <= share) by lia.
  assert ((keys * per_key + 64) * resident <= memory) by nia. nia.
Qed.

(** The memory model of a grouped [distinct_count] is exact: with fewer than
    2^32 bytes of key, the plan is accepted exactly when the budget per resident
    sketch (open buckets, pending windows and one scratch copy) retains at least
    [min(maxSeries, preferred)] keys, and then the true, unwrapped memory of all
    resident maps is within [resources.maxMemory]. *)
Lemma planner_grouped_budget q f :
  query_ok q → measure q = DistinctCount f → group_by q ≠ [] → lt (alert q) = None →
  0 < max_series (export q) → 0 <= maximum_stored_key_bytes q < 4294967296 →
  let b := Z.max (size_nanos (window q) / slide_nanos (window q)) 1 in
  let precision := hll_precision_for_error (epsilon (error q)) in
  let per_key := 2 ^ precision + 2 * maximum_stored_key_bytes q + 80 in
  let resident := 2 * b + 1 in
  let preferred := clamp 1024 65536 (max_series (export q) *ʷ 4) in
  let affordable := Z.max 0 (max_memory_bytes q / resident - 64) / per_key in
  resident < u64_mod →
  if affordable <? Z.min (max_series (export q)) preferred
  then ∃ reason, plan q = Err (Rejected (q_name q) reason)
  else ∃ p max_keys, plan q = Ok p ∧ sketch (physical p) = PHllMap max_keys precision ∧
    max_keys = Z.min preferred affordable ∧ 0 < max_keys ∧
    (max_keys * per_key + 64) * resident <= max_memory_bytes q.
Proof using.
  intros [Hsz Hsl Hms Hmem] Hme Hg Hlt Hs Hk b precision per_key resident preferred affordable Hres.
  assert (1 <= b) by lia.
  assert (4 <= precision <= 18) as Hp by (apply clamp_range; lia).
  assert (1024 <= preferred <= 65536) as Hpref by (apply clamp_range; lia).
  pose proof (per_key_exact precision (maximum_stored_key_bytes q) Hp Hk) as Hpk.
  assert (0 < 2 ^ precision) by (apply Z.pow_pos_nonneg; lia).
  assert (b +ʷ b +ʷ 1 = resident) as Er.
  { rewrite (wadd64_small b b) by word_lia. rewrite wadd64_small; word_lia. }
  assert (budgeted_max_keys q precision (maximum_stored_key_bytes q) resident = affordable) as Eb.
  { unfold budgeted_max_keys. rewrite Hpk, (proj2 (Z.eqb_neq _ 0)) by lia. done. }
  assert (choose q (maximum_stored_key_bytes q) b resident =
    plan_distinct_grouped q precision (maximum_stored_key_bytes q) b resident
      (distinct_warnings (epsilon (error q)) precision)) as Ec.
  { unfold choose, plan_distinct. rewrite Hme. by rewrite bool_decide_false. }
  unfold plan. rewrite bucket_count_ok by lia. fold b. ostep. rewrite Er, Ec.
  rewrite (bool_decide_false (is_Some (lt (alert q)))) by (rewrite Hlt; by intros []).
  rewrite andb_false_r. ostep. unfold plan_distinct_grouped. rewrite Eb. fold preferred.
  destruct (Z.ltb_spec affordable (Z.min (max_series (export q)) preferred)) as [Hlow|Hok];
    [by eexists|].
  ostep. cbn [c_sketch].
  destruct (budget_fits (max_memory_bytes q) resident per_key (Z.min preferred affordable))
    as (Hfit & Hm64 & Hpos); [word_lia|lia|lia|fold affordable; lia|].
  assert (estimated_memory_bytes (maximum_stored_key_bytes q)
    (PHllMap (Z.min preferred affordable) precision) *ʷ resident =
    (Z.min preferred affordable * per_key + 64) * resident) as ->.
  { cbn [estimated_memory_bytes].
    change (shl64 1 precision +ʷ _ +ʷ _ +ʷ _)
      with (per_key_bytes precision (maximum_stored_key_bytes q)).
    rewrite Hpk. fold per_key. rewrite (wmul64_small (Z.min preferred affordable)) by word_lia.
    rewrite wadd64_small by word_lia. rewrite wmul64_small by word_lia. done. }
  rewrite (proj2 (Z.ltb_ge (max_memory_bytes q) _)) by lia. ostep. eexists _, _. split; [done|].
  split; [done|]. split; [done|]. split; [lia|done].
Qed.

Lemma choose_series q key_bytes b r c :
  choose q key_bytes b r = Ok c → c_series c <= Z.max 1 (max_series (export q)).
Proof using.
  unfold choose, plan_counter, plan_heavy_hitters, plan_distinct, plan_entropy, plan_quantile,
    plan_distinct_global, plan_distinct_grouped.
  destruct (measure q); intros H.
  1,2: apply bind_ok in H as ([w d] & Hd & <-%ok_inj); cbn [c_series]; lia.
  - apply ok_inj in H as <-. cbn [c_series]. lia.
  - case_bool_decide; [apply ok_inj in H as <-; cbn [c_series]; lia|].
    match type of H with (if ?b then _ else _) = _ => destruct b end; [done|].
    apply ok_inj in H as <-. cbn [c_series]. lia.
  - destruct (negb _); [done|]. apply ok_inj in H as <-. cbn [c_series]. lia.
  - destruct (negb _); [done|]. destruct (negb _); [done|]. apply ok_inj in H as <-. cbn [c_series]. lia.
Qed.

Lemma choose_no_panic q key_bytes b r : no_panic (choose q key_bytes b r).
Proof using.
  unfold choose, plan_counter, plan_heavy_hitters, plan_distinct, plan_entropy, plan_quantile,
    plan_distinct_global, plan_distinct_grouped, count_min_dimensions.
  destruct (measure q); [| |apply no_panic_ok|..].
  1,2: apply bind_no_panic; [|intros [w d] _; apply no_panic_ok];
    destruct (negb _); [apply no_panic_err|]; destruct (f_leb _ _); [apply no_panic_err|apply no_panic_ok].
  - case_bool_decide; [apply no_panic_ok|].
    match goal with |- no_panic (if ?b then _ else _) => destruct b end;
      [apply no_panic_err|apply no_panic_ok].
  - destruct (negb _); [apply no_panic_err|apply no_panic_ok].
  - destruct (negb _); [apply no_panic_err|]. destruct (negb _); [apply no_panic_err|apply no_panic_ok].
Qed.


(** The planner fails closed: it never panics on a positive slide, and it
    rejects, under the query's name, low-threshold alerts on grouped queries,
    grouped entropy and grouped quantiles, and quantiles outside [0, 1]. *)
Lemma planner_rejects q :
  slide_nanos (window q) ≠ 0 →
  no_panic (plan q) ∧
  ((group_by q ≠ [] ∧ lt (alert q) ≠ None) ∨
   (group_by q ≠ [] ∧ ∃ f, measure q = Entropy f) ∨
   (group_by q ≠ [] ∧ ∃ f x, measure q = Quantile f x) ∨
   (∃ f x, measure q = Quantile f x ∧ (f_leb f_zero x && f_leb x f_one) = false) →
   ∃ reason, plan q = Err (Rejected (q_name q) reason)).
Proof using.
  intros Hs. unfold plan. rewrite bucket_count_ok by done. ostep.
  set (k := maximum_stored_key_bytes q). set (b := Z.max _ _). split.
  - apply bind_no_panic; [apply no_panic_fail_if|]. intros _ _.
    apply bind_no_panic; [apply choose_no_panic|]. intros c _.
    apply bind_no_panic; [apply no_panic_fail_if|]. done.
  - destruct (decide (group_by q ≠ [] ∧ lt (alert q) ≠ None)) as [[Hg Hl]|Hn].
    { intros _. rewrite bool_decide_false by done.
      rewrite bool_decide_true by (destruct (lt (alert q)); [by eexists|done]). by eexists. }
    intros H. assert (∃ reason, choose q k b (b +ʷ b +ʷ 1) = Err (Rejected (q_name q) reason)) as [reason Hr].
    { unfold choose, plan_entropy, plan_quantile. destruct H as [H|[(Hg & f & ->)|[(Hg & f & x & ->)|(f & x & -> & Hx)]]].
      - done.
      - rewrite bool_decide_false by done. by eexists.
      - rewrite bool_decide_false by done. by eexists.
      - rewrite Hx. case_bool_decide; by eexists. }
    rewrite Hr. destruct (fail_if _ _) as [[]|e|] eqn:E; [by eexists| |by destruct (negb _ && _)].
    exfalso. unfold fail_if in E. destruct (negb _ && _) eqn:Eb; [|done].
    apply andb_true_iff in Eb as [Hg Hl]. apply Hn. apply negb_true_iff, bool_decide_eq_false in Hg.
    apply bool_decide_eq_true in Hl. split; [done|]. intros E'. rewrite E' in Hl. by destruct Hl.
Qed.
End planner.

(** ** Concrete queries *)

Definition a_log (x : f64) : f64 := f_lit 12 1.
Definition no_show (x : f64) : string := "".
Definition no_show_fixed (n : Z) (x : f64) : string := "".
Definition sample_plan_of : LogicalQuery → pres Plan := plan a_log a_log no_show no_show_fixed.

Definition sample_distinct : LogicalQuery :=
  mkQuery "spread" (mkPredicate None [] [] []) [SrcIp] (DistinctCount DstPort) (mkWindow 60 10)
    (mkError (f_lit 2 100) (f_lit 1 100)) (mkAlert None None) (mkExport true 100) 1073741824.

Lemma sample_distinct_ok : query_ok sample_distinct.
Proof. split; by range_tac. Qed.

Lemma planner_grouped_budget_witness :
  ∃ p max_keys, sample_plan_of sample_distinct = Ok p ∧
    sketch (physical p) = PHllMap max_keys 12 ∧ 0 < max_keys.
Proof.
  pose proof (planner_grouped_budget a_log a_log no_show no_show_fixed sample_distinct DstPort
    sample_distinct_ok eq_refl) as H.
  assert (group_by sample_distinct ≠ []) as Hg by discriminate.
  specialize (H Hg eq_refl ltac:(by range_tac) ltac:(split; by range_tac) ltac:(by range_tac)).
  cbv zeta in H. match type of H with if ?b then _ else _ =>
    assert (b = false) as Hb by (vm_compute; reflexivity); rewrite Hb in H end.
  destruct H as (p & k & H1 & H2 & _ & H3 & _). exists p, k. split; [exact H1|]. split; [|exact H3].
  etrans; [exact H2|]. f_equal.
Defined.


Definition sample_low_alert : LogicalQuery :=
  mkQuery "quiet" (mkPredicate None [] [] []) [SrcIp] Count (mkWindow 60 10)
    ErrorSpec_default (mkAlert None (Some f_one)) (mkExport true 100) 1073741824.
Lemma planner_rejects_witness :
  ∃ reason, sample_plan_of sample_low_alert = Err (Rejected "quiet" reason).
Proof.
  destruct (planner_rejects a_log a_log no_show no_show_fixed sample_low_alert) as [_ H]; [discriminate|].
  apply H. left. split; discriminate.
Defined.

(** The memory estimate wraps: this accepted plan's Count-Min table has 2^61
    columns, whose bytes are a multiple of 2^64. *)
Definition wrapping_query : LogicalQuery :=
  mkQuery "wrap" (mkPredicate None [] [] []) [] Count (mkWindow 10 10)
    (mkError (f_div E_CONST (f64_of_Z 2305843009213693952)) (f_lit 1 100))
    (mkAlert None None) ExportSpec_default 1073741824.
Example planner_memory_wraps :
  (λ p, (sketch (physical p), pl_estimated_memory_bytes (physical p)))
    <$> (match sample_plan_of wrapping_query with Ok p => Some p | _ => None end) =
  Some (PComposite [PSpaceSaving 4000; PCountMin 2305843009213693952 12 true], 2304576).
Proof. vm_compute. reflexivity. Qed.
