(* ===== verification/Emit.v ===== *)
(** * Estimates  (crates/flowsketch-core/src/estimate.rs and
    crates/flowsketch-runtime/src/lib.rs, 413-448 and 691-812)

    The estimates of one window under the plan's measure, export cap and alert.
    [exp] and [log2] are the platform's functions, [fuel] bounds the HyperLogLog
    estimator's iterations, [fp] is the sketches' [memory_bytes]. *)
From S2P Require Import Prelude Bytes Maps Hash Sketch F64 Event CountMin SpaceSaving Hll HllMap Kll.
From S2P Require Import Ir Planner QueryState.

Record SketchEstimate := mkEstimate {
  e_query_name : string;
  e_window_start_nanos : Z;
  e_window_end_nanos : Z;
  e_group : list (string * bytes);
  e_estimate : f64;
  e_lower_bound : option f64;
  e_upper_bound : option f64;
  e_confidence : option f64;
  e_algorithm : string;
  e_sketch_bytes : Z;
  e_update_count : Z;
}.

Section emit.
Context (exp log2 : f64 → f64) (fuel : nat) (fp : Footprint).

(** One tracked key's term: the entropy so far and the head's mass. *)
Definition head_step (n : f64) (acc : f64 * f64) (x : bytes * SpaceSaving.Entry) : f64 * f64 :=
  let g := f64_of_Z (SpaceSaving.guaranteed x.2) in
  if f_ltb f_zero g then
    let p := f_div g n in
    (f_sub acc.1 (f_mul p (log2 p)), f_add acc.2 g)
  else acc.

Definition estimate_entropy_bits (ss : SpaceSaving.SpaceSaving) (hll : Hll.HyperLogLog)
    : res (option f64) :=
  let n := f64_of_Z (SpaceSaving.ss_total_weight ss) in
  if f_leb n f_zero then Ok None
  else
    let tracked := SpaceSaving.top_k ss (Z.to_nat (SpaceSaving.ss_capacity ss)) in
    let '(entropy, head_mass) := foldl (head_step n) (f_zero, f_zero) tracked in
    let tail_mass := f_max (f_sub n head_mass) f_zero in
    entropy ← (if f_ltb f_zero tail_mass then
                 card ← HllMap.card fuel hll;
                 let tail_support := f_max (f_sub card (f64_of_Z (zlen tracked))) f_one in
                 let p_each := f_div (f_div tail_mass tail_support) n in
                 Ok (if f_ltb f_zero p_each
                     then f_sub entropy (f_mul (f_div tail_mass n) (log2 p_each))
                     else entropy)
               else Ok entropy);
    Ok (Some (f_max entropy f_zero)).

Definition make_group (q : LogicalQuery) (key : bytes) : list (string * bytes) :=
  zip (name <$> group_by q) (split_group_key key).

Section window.
Context (plan : Plan) (state : QueryState) (window_start window_end : Z).
Let q := query plan.

(** The closure [base] with the bounds filled in. *)
Definition base (group : list (string * bytes)) (estimate : f64)
    (lower upper confidence : option f64) : SketchEstimate :=
  {| e_query_name := q_name q; e_window_start_nanos := window_start;
     e_window_end_nanos := window_end; e_group := group; e_estimate := estimate;
     e_lower_bound := lower; e_upper_bound := upper; e_confidence := confidence;
     e_algorithm := algorithm_name (sketch (physical plan));
     e_sketch_bytes := memory_bytes fp state; e_update_count := update_count state |}.

Definition cap : Z := Z.min (export_series_upper_bound (physical plan)) (max_series (export q)).

Definition counter_estimate (cm : CountMin.CountMinSketch) (x : bytes * SpaceSaving.Entry)
    : res SketchEstimate :=
  e ← CountMin.estimate_u64 cm x.1;
  let est := f64_of_Z e in
  let slack := f_mul (CountMin.epsilon cm) (f64_of_Z (CountMin.cm_total_weight cm)) in
  Ok (base (make_group q x.1) est (Some (f_max (f_sub est slack) f_zero)) (Some est)
        (Some (f_sub f_one (CountMin.delta exp cm)))).

(** The 95% interval of a HyperLogLog estimate. *)
Definition relative_estimate (group : list (string * bytes)) (rel card : f64) : SketchEstimate :=
  let two := f64_of_Z 2 in
  base group card (Some (f_mul card (f_sub f_one (f_mul two rel))))
    (Some (f_mul card (f_add f_one (f_mul two rel)))) (Some (f_lit 95 100)).

Definition quantile_estimate (kll : Kll.KllSketch) (quantile value : f64) : SketchEstimate :=
  let eps := Kll.rank_error kll in
  base [] value (f64_of_Z <$> Kll.quantile kll (f_max (f_sub quantile eps) f_zero))
    (f64_of_Z <$> Kll.quantile kll (f_min (f_add quantile eps) f_one)) (Some (f_lit 99 100)).

Definition state_estimates : res (list SketchEstimate) :=
  match state with
  | QHeavyHitters ss =>
      Ok ((λ x, base (make_group q x.1) (f64_of_Z (SpaceSaving.count x.2))
                  (Some (f64_of_Z (SpaceSaving.guaranteed x.2)))
                  (Some (f64_of_Z (SpaceSaving.count x.2))) None)
            <$> SpaceSaving.top_k ss (Z.to_nat cap))
  | QCounter cm keys =>
      foldM (λ out x, e ← counter_estimate cm x; Ok (out ++ [e])) []
        (SpaceSaving.top_k keys (Z.to_nat cap))
  | QDistinctPerKey m =>
      entries ← HllMap.entries fuel m;
      Ok ((λ x, relative_estimate (make_group q x.1) (HllMap.relative_error m) x.2)
            <$> take (Z.to_nat cap) entries)
  | QDistinctGlobal hll =>
      card ← HllMap.card fuel hll;
      Ok [relative_estimate [] (Hll.relative_error hll) card]
  | QQuantile kll =>
      match measure q with
      | Quantile _ quantile =>
          match Kll.quantile kll quantile with
          | None => Ok []
          | Some value => Ok [quantile_estimate kll quantile (f64_of_Z value)]
          end
      | _ => Ok []
      end
  | QEntropy ss hll =>
      bits ← estimate_entropy_bits ss hll;
      Ok (match bits with Some bits => [base [] bits None None None] | None => [] end)
  end.

Definition emit_estimates : res (list SketchEstimate) :=
  if update_count state =? 0 then Ok []
  else
    out ← state_estimates;
    Ok (if AlertSpec_is_empty (alert q) then out
        else base.filter (λ e, fires (alert q) (e_estimate e) = true) out).
End window.
End emit.

(** What holds of every estimate [base] builds holds of all those emitted. *)
Lemma foldM_forall {E A B} (P : A → Prop) (f : B → outcome E A) l out es :
  (∀ x e, f x = Ok e → P e) → Forall P out →
  foldM (λ out x, e ← f x; Ok (out ++ [e])) out l = Ok es → Forall P es.
Proof.
  intros Hf. revert out. induction l as [|x l IH]; intros out Hout; [by intros [= <-]|]. cbn [foldM].
  destruct (f x) as [e| |] eqn:Ex; cbn; try done. apply IH. apply Forall_app. split; [done|]. apply Forall_singleton. by apply (Hf x).
Qed.

Lemma emit_forall (P : SketchEstimate → Prop) exp log2 fuel fp plan st ws we es :
  (∀ g v l u c, g = [] ∨ (∃ key, g = make_group (query plan) key) → P (base fp plan st ws we g v l u c)) →
  emit_estimates exp log2 fuel fp plan st ws we = Ok es → Forall P es.
Proof.
  intros HP. unfold emit_estimates. case_match; [by intros [= <-]; constructor|].
  destruct (state_estimates exp log2 fuel fp plan st ws we) as [out| |] eqn:E; cbn; try done.
  assert (Forall P out) as Hout; [|intros [= <-]; case_match; [done|]].
  2: { apply Forall_forall. intros e [_ He]%list_elem_of_filter. exact (proj1 (Forall_forall _ _) Hout e He). }
  unfold state_estimates in E. destruct st as [ss|cm keys|m|hll|kll|ss hll].
  - injection E as <-. apply Forall_fmap, Forall_forall. intros x _. apply HP. right. by eexists.
  - refine (foldM_forall P _ _ [] out _ (Forall_nil_2 _) E). intros x e. unfold counter_estimate.
    destruct (CountMin.estimate_u64 cm x.1); cbn; [|done|done]. intros [= <-]. apply HP. right. by eexists.
  - destruct (HllMap.entries fuel m); cbn in E; try done. injection E as <-. apply Forall_fmap, Forall_forall. intros x _. apply HP. right. by eexists.
  - destruct (HllMap.card fuel hll); cbn in E; try done. injection E as <-. constructor; [|done]. apply HP. by left.
  - destruct (measure (query plan)); cbn in E; try (injection E as <-; constructor).
    destruct (Kll.quantile kll _); injection E as <-; constructor; [|done]. apply HP. by left.
  - destruct (estimate_entropy_bits _ _ _ _) as [[b|]| |]; cbn in E; try done; injection E as <-; constructor; [|done]. apply HP. by left.
Qed.
