(* ===== verification/Window.v ===== *)
(** * Windowed queries  (crates/flowsketch-runtime/src/lib.rs, 260-690)

    [RunningQuery] keeps a ring of buckets of sketch state, closes windows as
    event time advances and retains their merged states until a consumer drains
    them.  The buckets' states are any [WindowSketch]; [QueryState] is the one
    the engine uses. *)
From S2P Require Import Prelude Bytes Hash Sketch Snapshot F64 Event Ir Planner QueryState.

(** Division of machine integers: a zero divisor panics. *)
Definition div_u64 {E} (a b : Z) : outcome E Z := if b =? 0 then Panic else Ok (a / b).
Definition rem_u64 {E} (a b : Z) : outcome E Z := if b =? 0 then Panic else Ok (a mod b).

(** ** Window states *)

Record WindowState {S : Type} := mkWindowState {
  w_state : S;
  window_start_nanos : Z;
  window_end_nanos : Z;
}.
#[global] Arguments WindowState : clear implicits.
#[global] Arguments mkWindowState {S} _ _ _.

Record QueryWindowState {S : Type} := mkQueryWindow {
  qw_query_name : string;
  qw_state : WindowState S;
}.
#[global] Arguments QueryWindowState : clear implicits.
#[global] Arguments mkQueryWindow {S} _ _.

Record SnapshotExport := mkSnapshotExport { se_query_name : string; se_component : string; se_bytes : bytes }.

Record Bucket {S : Type} := mkBucket { start_nanos : Z; b_state : S }.
#[global] Arguments Bucket : clear implicits.
#[global] Arguments mkBucket {S} _ _.

Record RunningQuery {S : Type} := mkRunning {
  rq_plan : Plan;
  group_fields : list Field;
  distinct_field : option Field;
  value_field : option Field;
  rq_hash : HashSpec;
  buckets : list (Bucket S);
  emitted : list (WindowState S);
  late_events : Z;
  key_buf : bytes;
  distinct_buf : bytes;
}.
#[global] Arguments RunningQuery : clear implicits.
#[global] Arguments mkRunning {S} _ _ _ _ _ _ _ _ _ _.

Definition with_buckets {S} (q : RunningQuery S) (bs : list (Bucket S)) : RunningQuery S :=
  {| rq_plan := rq_plan q; group_fields := group_fields q; distinct_field := distinct_field q;
     value_field := value_field q; rq_hash := rq_hash q; buckets := bs; emitted := emitted q;
     late_events := late_events q; key_buf := key_buf q; distinct_buf := distinct_buf q |}.
Definition with_emitted {S} (q : RunningQuery S) (ws : list (WindowState S)) : RunningQuery S :=
  {| rq_plan := rq_plan q; group_fields := group_fields q; distinct_field := distinct_field q;
     value_field := value_field q; rq_hash := rq_hash q; buckets := buckets q; emitted := ws;
     late_events := late_events q; key_buf := key_buf q; distinct_buf := distinct_buf q |}.
Definition with_late {S} (q : RunningQuery S) (late : Z) : RunningQuery S :=
  {| rq_plan := rq_plan q; group_fields := group_fields q; distinct_field := distinct_field q;
     value_field := value_field q; rq_hash := rq_hash q; buckets := buckets q;
     emitted := emitted q; late_events := late; key_buf := key_buf q;
     distinct_buf := distinct_buf q |}.
Definition with_bufs {S} (q : RunningQuery S) (key distinct : bytes) : RunningQuery S :=
  {| rq_plan := rq_plan q; group_fields := group_fields q; distinct_field := distinct_field q;
     value_field := value_field q; rq_hash := rq_hash q; buckets := buckets q;
     emitted := emitted q; late_events := late_events q; key_buf := key;
     distinct_buf := distinct |}.

Section window.
Context {S : Type} `{WS : !WindowSketch S}.
Implicit Types (q : RunningQuery S) (target : Z).

Abbreviation rq := (stm (RunningQuery S) SketchError).

(** [WindowState::merge_from] *)
Definition merge_window (w other : WindowState S) : res unit * WindowState S :=
  if decide ((window_start_nanos w, window_end_nanos w) ≠
             (window_start_nanos other, window_end_nanos other))
  then (Err (IncompatibleMerge "window mismatch"), w)
  else let '(r, s) := ws_merge_from (w_state w) (w_state other) in
       (r, mkWindowState s (window_start_nanos w) (window_end_nanos w)).

(** ** Queries *)

(** The fields a measure feeds to the distinct item and to the weight. *)
Definition measure_fields (m : Measure) : option Field * option Field :=
  match m with
  | Count => (None, None)
  | Sum value => (None, Some value)
  | HeavyHitters value _ => (None, Some value)
  | DistinctCount field => (Some field, None)
  | Entropy field => (Some field, None)
  | Quantile field _ => (None, Some field)
  end.

Definition rq_new (plan : Plan) (hash : HashSpec) : res (RunningQuery S) :=
  let '(distinct_field, value_field) := measure_fields (measure (query plan)) in
  Ok {| rq_plan := plan; group_fields := group_by (query plan);
        distinct_field := distinct_field; value_field := value_field; rq_hash := hash;
        buckets := []; emitted := []; late_events := 0; key_buf := []; distinct_buf := [] |}.

Definition slide q : Z := slide_nanos (window (query (rq_plan q))).
Definition ring q : Z := window_buckets (physical (rq_plan q)).
Definition pending_capacity q : Z := pending_window_capacity (physical (rq_plan q)).

Definition bucket_start_for q (ts : Z) : res Z :=
  r ← rem_u64 ts (slide q); Ok (ts -ʷ r).

Definition new_bucket q (start : Z) : res (Bucket S) :=
  s ← ws_build (sketch (physical (rq_plan q))) (rq_hash q); Ok (mkBucket start s).

(** [self.buckets.push_back(self.new_bucket(start)?)] *)
Definition push_bucket (start : Z) : rq unit :=
  b ← asks (λ q, new_bucket q start);
  modify (λ q, with_buckets q (buckets q ++ [b])).

Fixpoint rebuild_loop (fuel : nat) (start target : Z) : rq unit :=
  _ ← push_bucket start;
  if start =? target then mret tt
  else
    match fuel with
    | O => lift Panic
    | Datatypes.S fuel =>
        slide ← gets slide;
        rebuild_loop fuel (start +ʷ slide) target
    end.

Definition rebuild_trailing_ring (target : Z) : rq unit :=
  _ ← modify (λ q, with_buckets q []);
  slide ← gets slide;
  ring ← gets ring;
  slots ← lift (div_u64 target slide);
  let first := target -ʷ slide *ʷ Z.min (ring -ʷ 1) slots in
  rebuild_loop (Z.to_nat ring) first target.

(** [self.buckets.back()], its start. *)
Definition back q : option Z := start_nanos <$> last (buckets q).

Definition windows_closed_by_advance q target : res Z :=
  match back q with
  | None => Ok 0
  | Some back =>
      if target <=? back then Ok 0
      else
        slides ← div_u64 (target -ʷ back) (slide q);
        Ok (if ring q <? slides then ring q else slides)
  end.

Definition ensure_emit_capacity q (additional : Z) : res unit :=
  fail_if (pending_capacity q <? sat_add64 (zlen (emitted q)) additional)
    (Backpressure "completed windows pending; drain estimates or window states and retry").

Definition ensure_can_advance q target : res unit :=
  n ← windows_closed_by_advance q target; ensure_emit_capacity q n.

Definition ensure_can_process (event : FlowEvent) q : res unit :=
  if matches (filter (query (rq_plan q))) event
  then start ← bucket_start_for q (ts_nanos event); ensure_can_advance q start
  else Ok tt.

(** The merge of a list of bucket states into the first one's clone. *)
Definition run_merge (s t : S) : res S :=
  match ws_merge_from s t with
  | (Ok _, s) => Ok s
  | (Err e, _) => Err e
  | (Panic, _) => Panic
  end.
Definition merge_buckets (first : Bucket S) (rest : list (Bucket S)) : res S :=
  foldM (λ merged b, run_merge merged (b_state b)) (b_state first) rest.

(** Merge all open buckets and retain the window ending at [window_end]. *)
Definition flush_window (window_end : Z) : rq unit :=
  bs ← gets buckets;
  match bs with
  | [] => mret tt
  | first :: rest =>
      _ ← asks (λ q, ensure_emit_capacity q 1);
      merged ← lift (merge_buckets first rest);
      modify (λ q, with_emitted q
        (emitted q ++ [mkWindowState merged (start_nanos first) window_end]))
  end.

(** [while self.buckets.len() > n { self.buckets.pop_front(); }] *)
Fixpoint trim_front (n : Z) (bs : list (Bucket S)) : list (Bucket S) :=
  match bs with
  | [] => []
  | _ :: bs' => if n <? zlen bs then trim_front n bs' else bs
  end.

(** One slide: close the window that ends with the last bucket and open the
    next bucket. *)
Definition advance_one : rq unit :=
  b ← asks (λ q, expect (back q));
  slide ← gets slide;
  let next := b +ʷ slide in
  _ ← flush_window next;
  _ ← push_bucket next;
  modify (λ q, with_buckets q (trim_front (ring q) (buckets q))).

Fixpoint repeat_m (n : nat) (m : rq unit) : rq unit :=
  match n with
  | O => mret tt
  | Datatypes.S n => _ ← m; repeat_m n m
  end.

Fixpoint advance_loop (fuel : nat) (target : Z) : rq unit :=
  b ← asks (λ q, expect (back q));
  if b <? target then
    match fuel with
    | O => lift Panic
    | Datatypes.S fuel => _ ← advance_one; advance_loop fuel target
    end
  else mret tt.

(** The loop runs once per slide between the last bucket and [target]. *)
Definition advance_to_bucket (target : Z) : rq unit :=
  _ ← asks (λ q, ensure_can_advance q target);
  b ← gets back;
  match b with
  | None => push_bucket target
  | Some back =>
      ring ← gets ring;
      slide ← gets slide;
      slides ← (if back <? target then lift (div_u64 (target -ʷ back) slide) else mret 0);
      if (back <? target) && (ring <? slides) then
        _ ← repeat_m (Z.to_nat ring) advance_one;
        rebuild_trailing_ring target
      else advance_loop (Z.to_nat slides) target
  end.

(** [iter().position(|b| b.start_nanos == start)] *)
Fixpoint bucket_position (start : Z) (bs : list (Bucket S)) : option nat :=
  match bs with
  | [] => None
  | b :: bs => if start_nanos b =? start then Some 0%nat
               else Datatypes.S <$> bucket_position start bs
  end.

(** Encode the event's key, weight and distinct item into the buffers and feed
    the bucket at [index]. *)
Definition apply_event (index : nat) (event : FlowEvent) : rq unit :=
  key ← asks (λ q, group_key_into (group_fields q) event (key_buf q));
  weight ← gets (λ q, match value_field q with
                      | Some f => extract_value f event
                      | None => 1
                      end);
  item ← asks (λ q, match distinct_field q with
                    | Some f => field_value_into f event []
                    | None => Ok (distinct_buf q)
                    end);
  b ← asks (λ q, expect (buckets q !! index));
  '(s, key) ← lift (ws_update_key_buf (b_state b) key weight item);
  modify (λ q, with_bufs (with_buckets q (<[index := mkBucket (start_nanos b) s]> (buckets q)))
                 key item).

Definition process (event : FlowEvent) : rq unit :=
  accepted ← gets (λ q, matches (filter (query (rq_plan q))) event);
  if negb accepted then mret tt
  else
    bucket_start ← asks (λ q, bucket_start_for q (ts_nanos event));
    b ← gets back;
    if bool_decide (b = Some bucket_start) then
      index ← gets (λ q, (length (buckets q) - 1)%nat);
      apply_event index event
    else
      _ ← advance_to_bucket bucket_start;
      index ← gets (λ q, bucket_position bucket_start (buckets q));
      match index with
      | None => modify (λ q, with_late q (late_events q +ʷ 1))
      | Some index => apply_event index event
      end.

(** Close the trailing partial window. *)
Definition finish : rq unit :=
  b ← gets back;
  match b with
  | None => mret tt
  | Some last =>
      _ ← asks (λ q, ensure_emit_capacity q 1);
      slide ← gets slide;
      flush_window (last +ʷ slide)
  end.
End window.
