(* ===== verification/Engine.v ===== *)
(** * The query engine  (crates/flowsketch-runtime/src/lib.rs, 815-1000)

    A set of running queries fed from one event stream.  Room for the windows an
    operation closes is checked on every query before any query is touched. *)
From S2P Require Import Prelude Bytes Hash Sketch F64 Event Ir Planner QueryState Emit Window.

Record QueryEngine {S : Type} := mkEngine {
  queries : list (RunningQuery S);
  events_processed : Z;
}.
#[global] Arguments QueryEngine : clear implicits.
#[global] Arguments mkEngine {S} _ _.

Section engine.
Context {S : Type} `{WS : !WindowSketch S}.
Implicit Types (eng : QueryEngine S).

Abbreviation en := (stm (QueryEngine S) SketchError).

Definition with_queries eng (qs : list (RunningQuery S)) : QueryEngine S :=
  mkEngine qs (events_processed eng).

(** [QueryEngine::new]: the loop over the plans with the names seen so far. *)
Fixpoint new_loop (plans : list Plan) (hash : HashSpec) (names : list string)
    (qs : list (RunningQuery S)) : res (list (RunningQuery S)) :=
  match plans with
  | [] => Ok qs
  | plan :: plans =>
      _ ← fail_if (bool_decide (q_name (query plan) ∈ names))
            (InvalidParam "duplicate query name in runtime");
      _ ← ws_build (sketch (physical plan)) hash;
      q ← rq_new plan hash;
      new_loop plans hash (q_name (query plan) :: names) (qs ++ [q])
  end.
Definition engine_new (plans : list Plan) (hash : HashSpec) : res (QueryEngine S) :=
  qs ← new_loop plans hash [] []; Ok (mkEngine qs 0).

(** [for q in &mut self.queries { f(q)?; }] *)
Definition each_query (f : stm (RunningQuery S) SketchError unit) : en unit := λ eng,
  let '(r, qs) := for_each f (queries eng) in (r, with_queries eng qs).

Definition engine_process (event : FlowEvent) : en unit :=
  _ ← asks (λ eng, check_all (ensure_can_process event) (queries eng));
  _ ← modify (λ eng, mkEngine (queries eng) (events_processed eng +ʷ 1));
  each_query (process event).

Definition engine_advance_to (ts : Z) : en unit :=
  _ ← asks (λ eng, check_all (λ q, start ← bucket_start_for q ts; ensure_can_advance q start)
                     (queries eng));
  each_query (start ← asks (λ q, bucket_start_for q ts); advance_to_bucket start).

Definition engine_finish : en unit :=
  _ ← asks (λ eng, check_all
        (λ q, if bool_decide (buckets q = []) then Ok tt else ensure_emit_capacity q 1)
        (queries eng));
  each_query finish.

(** [q.emitted.drain(..)] on every query. *)
Definition drained q : RunningQuery S := with_emitted q [].
Definition drain_all eng : QueryEngine S := with_queries eng (drained <$> queries eng).

Definition take_window_states : en (list (QueryWindowState S)) :=
  out ← gets (λ eng, concat ((λ q, mkQueryWindow (q_name (query (rq_plan q))) <$> emitted q)
                               <$> queries eng));
  _ ← modify drain_all;
  mret out.

Definition pending_window_count eng : Z :=
  foldl wadd64 0 ((λ q, zlen (emitted q)) <$> queries eng).
Definition pending_windows_full eng : bool :=
  existsb (λ q, zlen (emitted q) =? pending_capacity q) (queries eng).

(** The open window of one query. *)
Definition current_window q : res (list (QueryWindowState S)) :=
  match buckets q with
  | [] => Ok []
  | first :: rest =>
      state ← merge_buckets first rest;
      last ← expect (back q);
      Ok [mkQueryWindow (q_name (query (rq_plan q)))
            (mkWindowState state (start_nanos first) (last +ʷ slide q))]
  end.
Definition current_window_states eng : res (list (QueryWindowState S)) :=
  foldM (λ out q, w ← current_window q; Ok (out ++ w)) [] (queries eng).

Definition total_late_events eng : Z := foldl wadd64 0 (late_events <$> queries eng).

Definition find_error_kind eng (query_name : string) : option ErrorKind :=
  (λ q, error_kind (physical (rq_plan q))) <$>
    List.find (λ q, bool_decide (q_name (query (rq_plan q)) = query_name)) (queries eng).

Definition plans eng : list Plan := rq_plan <$> queries eng.
End engine.

(** ** What needs the concrete sketches: memory, snapshots and estimates *)

Section concrete.
Context (exp log2 : f64 → f64) (fuel : nat) (fp : Footprint).
#[local] Existing Instance QueryState_Window | 0.
Implicit Types (eng : QueryEngine QueryState).

Definition window_memory (w : WindowState QueryState) : Z := memory_bytes fp (w_state w).
Definition window_update_count (w : WindowState QueryState) : Z := update_count (w_state w).

(** [WindowState::estimates] *)
Definition estimates (w : WindowState QueryState) (plan : Plan) : res (list SketchEstimate) :=
  emit_estimates exp log2 fuel fp plan (w_state w) (window_start_nanos w) (window_end_nanos w).

Definition snapshot_exports (w : WindowState QueryState) (query_name : string) : list SnapshotExport :=
  (λ x, mkSnapshotExport query_name x.1 x.2)
    <$> to_snapshots (w_state w) (window_start_nanos w) (window_end_nanos w).

Definition take_estimates : stm (QueryEngine QueryState) SketchError (list SketchEstimate) :=
  out ← asks (λ eng, foldM (λ out q,
      foldM (λ out w, es ← estimates w (rq_plan q); Ok (out ++ es)) out (emitted q))
      [] (queries eng));
  _ ← modify drain_all;
  mret out.

Definition sketch_memory_bytes eng : Z :=
  foldl wadd64 0 ((λ q, foldl wadd64 0 ((λ b, memory_bytes fp (b_state b)) <$> buckets q)
                        +ʷ foldl wadd64 0 (window_memory <$> emitted q)) <$> queries eng).

Definition export_snapshots eng : res (list SnapshotExport) :=
  ws ← current_window_states (WS := QueryState_Window fuel) eng;
  Ok (concat ((λ w, snapshot_exports (qw_state w) (qw_query_name w)) <$> ws)).
End concrete.
