(* ===== verification/Sharded.v ===== *)
(** * Sharded engines  (crates/flowsketch-runtime/src/lib.rs, 994-1362)

    One engine per receive queue or flow shard.  The shards run in parallel on
    disjoint states; their completed windows are merged when they are read.  The
    thread pool is a parameter, and so is whether it can be built. *)
From S2P Require Import Prelude Bytes Maps Hash Sketch F64 Event Ir Planner QueryState Emit Window.
From S2P Require Import Engine.

Record ShardedQueryEngine {S : Type} := mkSharded {
  shards : list (QueryEngine S);
  sh_plans : list Plan;
  sh_hash : HashSpec;
  next_balanced_shard : Z;
}.
#[global] Arguments ShardedQueryEngine : clear implicits.
#[global] Arguments mkSharded {S} _ _ _ _.

Inductive ShardStrategy := Flow | RoundRobin.

(** [ip.to_ipv6_mapped().octets()] *)
Definition to_ipv6_mapped (o : list Z) : list Z := replicate 10 0 ++ [255; 255] ++ o.
Definition octets16 (ip : IpAddr) : list Z :=
  match ip with V4 o => to_ipv6_mapped o | V6 o => o end.
Definition shard_family (src dst : IpAddr) : Z :=
  match src, dst with V4 _, V4 _ => 4 | _, _ => 6 end.
Definition shard_key (e : FlowEvent) : bytes :=
  [shard_family (src_ip e) (dst_ip e)] ++ octets16 (src_ip e) ++ octets16 (dst_ip e) ++
  be_bytes 2 (src_port e) ++ be_bytes 2 (dst_port e) ++ [protocol e].

Definition wkey : Type := string * Z * Z.
Definition wkey_cmp (a b : wkey) : comparison :=
  then_with (bytes_cmp (bytes_of_string a.1.1) (bytes_of_string b.1.1))
    (then_with (a.1.2 ?= b.1.2) (a.2 ?= b.2)).

Section sharded.
Context {S : Type} `{WS : !WindowSketch S}.
Implicit Types (s : ShardedQueryEngine S) (eng : QueryEngine S).

Definition with_shards s (l : list (QueryEngine S)) : ShardedQueryEngine S :=
  mkSharded l (sh_plans s) (sh_hash s) (next_balanced_shard s).

(** [names.insert(..)] over the plans: the first repeated name fails. *)
Fixpoint distinct_names (plans : list Plan) (names : list string) : res unit :=
  match plans with
  | [] => Ok tt
  | plan :: plans =>
      _ ← fail_if (bool_decide (q_name (query plan) ∈ names))
            (InvalidParam "duplicate query name in sharded runtime");
      distinct_names plans (q_name (query plan) :: names)
  end.

Definition new_inner (build_runtime_pool : Z → option (list Z) → res unit)
    (plans : list Plan) (hash : HashSpec) (shard_count : Z) (worker_cpus : option (list Z))
    : res (ShardedQueryEngine S) :=
  _ ← fail_if (shard_count =? 0) (InvalidParam "runtime shard count must be at least 1");
  _ ← match worker_cpus with
      | Some cpus =>
          _ ← fail_if (negb (zlen cpus =? shard_count))
                (InvalidParam "runtime CPU affinity lists CPU(s) for shard worker(s)");
          fail_if (negb (bool_decide (NoDup cpus)))
            (InvalidParam "runtime CPU affinity must not assign one CPU to multiple workers")
      | None => Ok tt
      end;
  _ ← distinct_names plans [];
  _ ← build_runtime_pool shard_count worker_cpus;
  l ← foldM (λ l _, eng ← engine_new plans hash; Ok (l ++ [eng])) []
        (replicate (Z.to_nat shard_count) tt);
  Ok (mkSharded l plans hash 0).

Definition shard_count s : Z := zlen (shards s).

Definition shard_for s (e : FlowEvent) : res Z :=
  rem_u64 (HashSpec_hash64 (sh_hash s) (shard_key e)) (zlen (shards s)).

(** ** Dispatch *)

(** The loop of [process_batch_with_strategy]: the batches and the round-robin
    cursor. *)
Definition pick_shard s (strategy : ShardStrategy) (next : Z) (e : FlowEvent) : res (Z * Z) :=
  match strategy with
  | Flow => shard ← shard_for s e; Ok (shard, next)
  | RoundRobin => next' ← rem_u64 (next +ʷ 1) (zlen (shards s)); Ok (next, next')
  end.
Definition dispatch_step s (strategy : ShardStrategy) (acc : list (list FlowEvent) * Z)
    (e : FlowEvent) : res (list (list FlowEvent) * Z) :=
  '(shard, next) ← pick_shard s strategy acc.2 e;
  batch ← vec_get acc.1 shard;
  batches ← vec_set acc.1 shard (batch ++ [e]);
  Ok (batches, next).
Definition dispatch s (strategy : ShardStrategy) (events : list FlowEvent)
    : res (list (list FlowEvent) * Z) :=
  foldM (dispatch_step s strategy) (replicate (length (shards s)) [], next_balanced_shard s) events.

(** [iter().min()] and [iter().max()] of the time stamps. *)
Definition ts_min (l : list Z) : option Z :=
  match l with [] => None | x :: l => Some (foldl Z.min x l) end.
Definition ts_max (l : list Z) : option Z :=
  match l with [] => None | x :: l => Some (foldl Z.max x l) end.

(** What one shard does with its batch. *)
Fixpoint process_events (events : list FlowEvent) : stm (QueryEngine S) SketchError unit :=
  match events with
  | [] => mret tt
  | e :: events => _ ← engine_process e; process_events events
  end.
Definition opt_advance (ts : option Z) : stm (QueryEngine S) SketchError unit :=
  match ts with Some ts => engine_advance_to ts | None => mret tt end.
Definition shard_step (batch_start watermark : option Z) (batch : list FlowEvent)
    : stm (QueryEngine S) SketchError unit :=
  _ ← opt_advance batch_start; _ ← process_events batch; opt_advance watermark.

(** [par_iter_mut().zip(..).try_for_each(f)]: when all lanes succeed each has
    run exactly once; when one fails the others may have run or been skipped. *)
Inductive par_try {B} (f : B → stm (QueryEngine S) SketchError unit)
    : list (QueryEngine S * B) → res unit → list (QueryEngine S) → Prop :=
  | par_all lanes l :
      Forall2 (λ x eng', f x.2 x.1 = (Ok tt, eng')) lanes l → par_try f lanes (Ok tt) l
  | par_stop lanes l lane r :
      Forall2 (λ x eng', eng' = x.1 ∨ eng' = (f x.2 x.1).2) lanes l →
      lane ∈ lanes → (f lane.2 lane.1).1 = r → r ≠ Ok tt → par_try f lanes r l.

Definition process_shard_refs s (batches : list (list FlowEvent)) (r : res unit)
    (s' : ShardedQueryEngine S) : Prop :=
  let ts := ts_nanos <$> concat batches in
  ∃ l, par_try (shard_step (ts_min ts) (ts_max ts)) (zip (shards s) batches) r l ∧
    s' = with_shards s l.

Definition process_shard_batches s (batches : list (list FlowEvent)) (r : res unit)
    (s' : ShardedQueryEngine S) : Prop :=
  if zlen batches =? zlen (shards s) then process_shard_refs s batches r s'
  else r = Err (InvalidParam "received shard batches for runtime shards") ∧ s' = s.

Definition process_batch_with_strategy s (events : list FlowEvent) (strategy : ShardStrategy)
    (r : res unit) (s' : ShardedQueryEngine S) : Prop :=
  match dispatch s strategy events with
  | Ok (batches, next) =>
      process_shard_refs (mkSharded (shards s) (sh_plans s) (sh_hash s) next) batches r s'
  | Err e => r = Err e ∧ s' = s
  | Panic => r = Panic
  end.

Definition sharded_finish s (r : res unit) (s' : ShardedQueryEngine S) : Prop :=
  ∃ l, par_try (λ _ : unit, engine_finish) ((λ eng, (eng, tt)) <$> shards s) r l ∧
    s' = with_shards s l.

(** ** Merging the shards' windows *)

Definition window_key (o : QueryWindowState S) : wkey :=
  (qw_query_name o, window_start_nanos (qw_state o), window_end_nanos (qw_state o)).

Definition run_merge_window (w other : WindowState S) : res (WindowState S) :=
  match merge_window w other with
  | (Ok _, w) => Ok w
  | (Err e, _) => Err e
  | (Panic, _) => Panic
  end.

(** [match merged.get_mut(&key) { Some(state) => state.merge_from(..)?, None => insert }] *)
Definition merge_output (merged : gmap wkey (WindowState S)) (o : QueryWindowState S)
    : res (gmap wkey (WindowState S)) :=
  match merged !! window_key o with
  | Some state => state ← run_merge_window state (qw_state o); Ok (<[window_key o := state]> merged)
  | None => Ok (<[window_key o := qw_state o]> merged)
  end.
Definition merge_outputs (merged : gmap wkey (WindowState S)) (l : list (QueryWindowState S))
    : res (gmap wkey (WindowState S)) :=
  foldM merge_output merged l.

(** The shards are drained one by one while their windows are merged. *)
Fixpoint merge_shards (l : list (QueryEngine S)) (merged : gmap wkey (WindowState S))
    : res (gmap wkey (WindowState S)) * list (QueryEngine S) :=
  match l with
  | [] => (Ok merged, [])
  | eng :: l =>
      match take_window_states eng with
      | (Ok out, eng) =>
          match merge_outputs merged out with
          | Ok merged => let '(r, l) := merge_shards l merged in (r, eng :: l)
          | Err e => (Err e, eng :: l)
          | Panic => (Panic, eng :: l)
          end
      | (Err e, eng) => (Err e, eng :: l)
      | (Panic, eng) => (Panic, eng :: l)
      end
  end.

(** The windows in the order of the map's keys. *)
Definition in_key_order (merged : gmap wkey (WindowState S)) : list (wkey * WindowState S) :=
  sort_by (λ a b, wkey_cmp a.1 b.1) (map_to_list merged).

Definition sharded_events_processed s : Z := foldl wadd64 0 (events_processed <$> shards s).
Definition sharded_late_events s : Z := foldl wadd64 0 (total_late_events <$> shards s).
End sharded.

Section concrete.
Context (exp log2 : f64 → f64) (fuel : nat) (fp : Footprint).

Definition find_plan (plans : list Plan) (query_name : string) : res Plan :=
  ok_or (List.find (λ p, bool_decide (q_name (query p) = query_name)) plans)
    (InvalidParam "missing plan for query").

Definition sharded_take_estimates
    : stm (ShardedQueryEngine QueryState) SketchError (list SketchEstimate) := λ s,
  let '(merged, l) := merge_shards (WS := QueryState_Window fuel) (shards s) ∅ in
  (merged ← merged;
   foldM (λ out x,
      plan ← find_plan (sh_plans s) x.1.1.1;
      es ← estimates exp log2 fuel fp x.2 plan; Ok (out ++ es)) [] (in_key_order merged),
   with_shards s l).

Definition sharded_memory_bytes (s : ShardedQueryEngine QueryState) : Z :=
  foldl wadd64 0 (sketch_memory_bytes fp <$> shards s).

Definition sharded_export_snapshots (s : ShardedQueryEngine QueryState) : res (list SnapshotExport) :=
  outs ← foldM (λ acc eng, ws ← current_window_states (WS := QueryState_Window fuel) eng;
                 Ok (acc ++ ws)) [] (shards s);
  merged ← merge_outputs (WS := QueryState_Window fuel) ∅ outs;
  Ok (concat ((λ x, snapshot_exports x.2 x.1.1.1) <$> in_key_order merged)).
End concrete.
