(* ===== verification/WindowSpec.v ===== *)
(** * What a windowed query promises

    The abstract machine: a log of the accepted events, the first and last open
    bucket, and the windows closed so far, each with the events it covers.  The
    refinement theorems of this file say that [RunningQuery] implements it: the
    state of every bucket and of every completed window results from exactly
    the log entries of its time range. *)
From S2P Require Import Prelude Bytes Hash Sketch F64 Event Ir Planner QueryState Window.

(** ** The abstract machine *)

(** What one event feeds to the sketches: key, weight, distinct item. *)
Abbreviation Item := (bytes * Z * bytes)%type.
(** Accepted events with the start of their bucket. *)
Abbreviation Log := (list (Z * (bytes * Z * bytes))).

Record Spec := mkSpec {
  sp_log : Log;
  (** the starts of the first and the last open bucket *)
  sp_ring : option (Z * Z);
  (** the windows closed and not yet drained: start, end and items *)
  sp_out : list (Z * Z * list Item);
  sp_late : Z;
}.

Definition in_window (log : Log) (a b : Z) : list Item :=
  snd <$> base.filter (λ x, a <= x.1 < b) log.

(** The window that ends [i] slides after the last bucket's start. *)
Definition window_at (slide ring : Z) (log : Log) (front back i : Z) : Z * Z * list Item :=
  let stop := back + slide * i in
  let start := Z.max front (stop - slide * ring) in
  (start, stop, in_window log start stop).

(** Advancing to [target] closes a window per slide, at most [ring] of them. *)
Definition spec_closed (slide ring : Z) (A : Spec) (target : Z) : Z :=
  match sp_ring A with
  | None => 0
  | Some (_, back) => if target <=? back then 0 else Z.min ((target - back) / slide) ring
  end.
Definition spec_advance (slide ring : Z) (target : Z) (A : Spec) : Spec :=
  match sp_ring A with
  | None => mkSpec (sp_log A) (Some (target, target)) (sp_out A) (sp_late A)
  | Some (front, back) =>
      if target <=? back then A
      else
        mkSpec (sp_log A) (Some (Z.max front (target - slide * (ring - 1)), target))
          (sp_out A ++ (window_at slide ring (sp_log A) front back <$>
                          seqZ 1 (spec_closed slide ring A target)))
          (sp_late A)
  end.

(** An event is logged unless it is older than the first open bucket. *)
Definition spec_log (start : Z) (item : Item) (A : Spec) : Spec :=
  match sp_ring A with
  | Some (front, _) =>
      if start <? front then mkSpec (sp_log A) (sp_ring A) (sp_out A) (sp_late A +ʷ 1)
      else mkSpec (sp_log A ++ [(start, item)]) (sp_ring A) (sp_out A) (sp_late A)
  | None => A
  end.

Definition spec_finish (slide : Z) (A : Spec) : Spec :=
  match sp_ring A with
  | Some (front, back) =>
      mkSpec (sp_log A) (sp_ring A)
        (sp_out A ++ [(front, back +ʷ slide, in_window (sp_log A) front (back + slide))])
        (sp_late A)
  | None => A
  end.

Definition spec_drain (A : Spec) : Spec := mkSpec (sp_log A) (sp_ring A) [] (sp_late A).
Definition spec_new : Spec := mkSpec [] None [] 0.

(** ** Consecutive buckets *)

Fixpoint span (a : Z) (n : nat) (slide : Z) : list Z :=
  match n with
  | O => []
  | Datatypes.S n => a :: span (a + slide) n slide
  end.

Definition in_bucket (log : Log) (a : Z) : list Item := snd <$> base.filter (λ x, x.1 = a) log.

Lemma length_span a n slide : length (span a n slide) = n.
Proof. revert a. induction n; intros a; simpl; auto. Qed.

Lemma span_snoc a n slide :
  span a (Datatypes.S n) slide = span a n slide ++ [a + slide * Z.of_nat n].
Proof.
  revert a. induction n as [|n IH]; intros a; [simpl; f_equal; lia|].
  change (span a (Datatypes.S (Datatypes.S n)) slide)
    with (a :: span (a + slide) (Datatypes.S n) slide).
  rewrite IH. replace (a + slide * Z.of_nat (Datatypes.S n)) with (a + slide + slide * Z.of_nat n) by lia.
  done.
Qed.

Lemma last_span a n slide : last (span a (Datatypes.S n) slide) = Some (a + slide * Z.of_nat n).
Proof. by rewrite span_snoc, last_snoc. Qed.

Lemma elem_of_span a n slide x :
  x ∈ span a n slide ↔ ∃ i : nat, (i < n)%nat ∧ x = a + slide * Z.of_nat i.
Proof.
  revert a. induction n as [|n IH]; intros a; simpl.
  - split; [by intros ?%elem_of_nil|]. intros (i & ? & _). lia.
  - rewrite elem_of_cons, IH. split.
    + intros [->|(i & Hi & ->)]; [exists 0%nat; lia|]. exists (Datatypes.S i). lia.
    + intros ([|i] & Hi & ->); [left; lia|]. right. exists i. lia.
Qed.

(** A multiple of the slide between two others is one of the starts. *)
Lemma elem_of_span_between a n slide x :
  0 < slide → a mod slide = 0 → x mod slide = 0 →
  a <= x < a + slide * Z.of_nat n → x ∈ span a n slide.
Proof.
  intros Hs Ha Hx [H1 H2]. apply elem_of_span.
  apply Z.mod_divide in Ha as [i ->], Hx as [j ->]; try lia.
  exists (Z.to_nat (j - i)). rewrite Z2Nat.id by nia. split; [|lia].
  enough (j - i < Z.of_nat n) by lia. nia.
Qed.

(** The items of consecutive buckets are those of the window they span. *)
Definition aligned (slide : Z) (log : Log) : Prop := Forall (λ x, x.1 mod slide = 0) log.

Lemma in_window_split log a b c :
  a <= b <= c → in_window log a c ≡ₚ in_window log a b ++ in_window log b c.
Proof.
  intros H. unfold in_window. rewrite <- fmap_app. apply fmap_Permutation.
  induction log as [|x log IH]; [done|]. rewrite !filter_cons.
  repeat case_decide; try lia; simpl; rewrite IH; by rewrite ?Permutation_middle.
Qed.

Lemma in_bucket_window slide log a :
  0 < slide → aligned slide log → a mod slide = 0 →
  in_window log a (a + slide) = in_bucket log a.
Proof.
  intros Hs Hl Ha. unfold in_window, in_bucket. f_equal. unfold aligned in Hl.
  induction Hl as [|x log Hx _ IH]; [done|]. rewrite !filter_cons, IH.
  repeat case_decide; try done; exfalso.
  - apply Z.mod_divide in Ha as [i ->], Hx as [j Hj]; try lia.
    assert (i <= j) by (apply (Z.mul_le_mono_pos_r _ _ slide); lia).
    assert (j < i + 1) by (apply (Z.mul_lt_mono_pos_r slide); lia).
    assert (j = i) as -> by lia. lia.
  - lia.
Qed.

Lemma in_window_span slide log a n :
  0 < slide → aligned slide log → a mod slide = 0 →
  in_window log a (a + slide * Z.of_nat n) ≡ₚ concat (in_bucket log <$> span a n slide).
Proof.
  intros Hs Hl. revert a. induction n as [|n IH]; intros a Ha; cbn [span fmap list_fmap concat].
  - unfold in_window. rewrite filter_none; [done|]. apply Forall_forall. intros x _. cbn. lia.
  - rewrite (in_window_split _ _ (a + slide)) by lia.
    rewrite (in_bucket_window slide) by done. f_equiv.
    replace (a + slide * Z.of_nat (Datatypes.S n)) with (a + slide + slide * Z.of_nat n) by lia.
    apply IH. rewrite <- Z.add_mod_idemp_l, Ha, Z.mod_same by lia. done.
Qed.

Lemma in_window_past log a b :
  Forall (λ x, x.1 < a) log → in_window log a b = [].
Proof.
  intros Hl. unfold in_window. rewrite filter_none; [done|].
  eapply Forall_impl; [exact Hl|]. cbn. lia.
Qed.

Lemma in_bucket_past log a : Forall (λ x, x.1 < a) log → in_bucket log a = [].
Proof.
  intros Hl. unfold in_bucket. rewrite filter_none; [done|].
  eapply Forall_impl; [exact Hl|]. cbn. lia.
Qed.

Lemma in_bucket_snoc log x a :
  in_bucket (log ++ [x]) a = in_bucket log a ++ (if decide (x.1 = a) then [x.2] else []).
Proof.
  unfold in_bucket. rewrite filter_app, fmap_app. f_equal. rewrite filter_cons. by case_decide.
Qed.

(** ** The representation relation *)

(** What the planner guarantees of an executable plan, and the runtime's engine
    checks by building its sketches. *)
Record plan_ok (supported : PhysicalSketch → Prop) (p : Plan) : Prop := {
  po_slide : 0 < slide_nanos (window (query p)) < u64_mod;
  po_ring : 1 <= window_buckets (physical p) < u64_max;
  po_capacity : pending_window_capacity (physical p) = window_buckets (physical p);
  po_supported : supported (sketch (physical p));
}.

(** What the query feeds to its sketches for an event. *)
Definition item_of (p : Plan) (e : FlowEvent) : Item :=
  let '(distinct, value) := measure_fields (measure (query p)) in
  (join [GROUP_KEY_SEP] ((λ f, extract f e) <$> group_by (query p)),
   match value with Some f => extract_value f e | None => 1 end,
   match distinct with Some f => extract f e | None => [] end).

Lemma item_weight p e : event_ok e → u64_ok (item_of p e).1.2.
Proof.
  intros []. unfold item_of. destruct (measure_fields _) as [d [v|]]; cbn; [|by range_tac].
  destruct v; cbn; word_lia.
Qed.

Section represents.
Context {S : Type} `{WS : !WindowSketch S} {supported : PhysicalSketch → Prop}
  {like : S → S → Prop} {LW : LawfulWindow S supported like}.
Context (p : Plan) (h : HashSpec) (r : S).
Context (Hp : plan_ok supported p) (Hr : ws_build (sketch (physical p)) h = Ok r).
Implicit Types (q : RunningQuery S) (A : Spec) (log : Log).

Let sl : Z := slide_nanos (window (query p)).
Let rg : Z := window_buckets (physical p).

(** [s] results from a history of exactly the updates [l], on any number of
    states that were merged. *)
Definition holds (s : S) (l : list Item) : Prop :=
  ∃ l', l ≡ₚ l' ∧
    built (λ s, ws_build (sketch (physical p)) h = Ok s)
      (λ s (u : Item) s', u64_ok u.1.2 ∧ ws_update s u.1.1 u.1.2 u.2 = Ok s')
      (λ s t s', ws_merge_from s t = (Ok tt, s')) s l'.
Definition good (s : S) (l : list Item) : Prop := like r s ∧ holds s l.

Record made q : Prop := {
  md_plan : rq_plan q = p;
  md_hash : rq_hash q = h;
  md_groups : group_fields q = group_by (query p);
  md_fields : measure_fields (measure (query p)) = (distinct_field q, value_field q);
  md_item : distinct_field q = None → distinct_buf q = [];
}.

Record ring_rep (bs : list (Bucket S)) (log : Log) (front back : Z) : Prop := {
  rr_len : ∃ n : nat, Z.of_nat n < rg ∧ back = front + sl * Z.of_nat n ∧
    start_nanos <$> bs = span front (Datatypes.S n) sl;
  rr_front : 0 <= front ∧ front mod sl = 0;
  rr_back : u64_ok back;
  rr_log : aligned sl log ∧ Forall (λ x, x.1 <= back) log;
  rr_states : Forall (λ b, good (b_state b) (in_bucket log (start_nanos b))) bs;
}.

Definition window_rep (w : WindowState S) (x : Z * Z * list Item) : Prop :=
  window_start_nanos w = x.1.1 ∧ window_end_nanos w = x.1.2 ∧ good (w_state w) x.2.

Record represents q A : Prop := {
  rp_made : made q;
  rp_ring : match sp_ring A with
            | None => buckets q = [] ∧ sp_log A = []
            | Some (front, back) => ring_rep (buckets q) (sp_log A) front back
            end;
  rp_out : Forall2 window_rep (emitted q) (sp_out A);
  rp_room : zlen (emitted q) <= rg;
  rp_late : late_events q = sp_late A;
}.

Lemma sl_range : 0 < sl < u64_mod.
Proof using Hp. apply Hp. Qed.
Lemma rg_range : 1 <= rg < u64_max.
Proof using Hp. apply Hp. Qed.

(** ** Bucket states *)

Lemma good_perm s l m : l ≡ₚ m → good s l → good s m.
Proof using. intros Hlm [Hl (l' & Hll & Hb)]. split; [done|]. exists l'. by rewrite <- Hlm. Qed.

Lemma good_new : good r [].
Proof using LW Hp Hr.
  split; [by destruct (lw_build _ _ _ (po_supported _ _ Hp) Hr)|]. exists []. split; [done|].
  by constructor.
Qed.

Lemma good_merge s t l m :
  good s l → good t m → ∃ s', run_merge s t = Ok s' ∧ good s' (l ++ m).
Proof using LW.
  intros [Hs (l' & Hl & Hbs)] [Ht (m' & Hm & Hbt)].
  destruct (lw_merge _ _ _ Hs Ht) as (s' & Hg & Hs' & _). exists s'.
  unfold run_merge. rewrite Hg. split; [done|]. split; [done|]. exists (l' ++ m').
  split; [by rewrite Hl, Hm|]. by eapply built_mrg.
Qed.

Lemma good_update s l k w i :
  good s l → u64_ok w →
  ∃ s' buf, ws_update_key_buf s k w i = Ok (s', buf) ∧ good s' (l ++ [(k, w, i)]).
Proof using LW.
  intros [Hs (l' & Hl & Hb)] Hw. destruct (lw_update _ _ k w i Hs Hw) as (s' & Hu & Hs' & _).
  destruct (lw_update_key_buf _ _ _ _ _ _ Hs Hu) as [buf Hk]. exists s', buf.
  split; [done|]. split; [done|]. exists (l' ++ [(k, w, i)]). split; [by rewrite Hl|].
  eapply built_upd; [done|]. by split.
Qed.

Lemma merge_buckets_good (f : Z → list Item) first rest :
  Forall (λ b, good (b_state b) (f (start_nanos b))) (first :: rest) →
  ∃ s, merge_buckets first rest = Ok s ∧ good s (concat (f <$> (start_nanos <$> first :: rest))).
Proof using LW.
  intros [H0 Hr']%Forall_cons. unfold merge_buckets.
  enough (∀ rest s l, good s l → Forall (λ b, good (b_state b) (f (start_nanos b))) rest →
    ∃ s', foldM (λ merged b, run_merge merged (b_state b)) s rest = Ok s' ∧
      good s' (l ++ concat (f <$> (start_nanos <$> rest)))) as H.
  { destruct (H rest _ _ H0 Hr') as (s & Hs & Hg). by exists s. }
  clear first rest H0 Hr'. intros rest. induction rest as [|b rest IH]; intros s l Hs Hrest; cbn.
  - exists s. by rewrite app_nil_r.
  - apply Forall_cons in Hrest as [Hb Hrest]. destruct (good_merge _ _ _ _ Hs Hb) as (s1 & -> & Hs1).
    ostep. destruct (IH _ _ Hs1 Hrest) as (s' & Hs' & Hg). exists s'. split; [done|].
    by rewrite <- app_assoc in Hg.
Qed.

(** ** Closing windows *)

Lemma back_span q front n :
  start_nanos <$> buckets q = span front (Datatypes.S n) sl →
  back q = Some (front + sl * Z.of_nat n).
Proof using. intros E. unfold back. by rewrite <- fmap_last, E, last_span. Qed.

Lemma ring_back q log front back0 : ring_rep (buckets q) log front back0 → back q = Some back0.
Proof using. intros [(n & _ & -> & E) _ _ _ _]. by apply back_span. Qed.

Lemma ring_window bs log front back0 :
  ring_rep bs log front back0 →
  in_window log front (back0 + sl) ≡ₚ concat (in_bucket log <$> (start_nanos <$> bs)).
Proof using Hp.
  intros [(n & _ & -> & ->) [_ Hf] _ [Hl _] _].
  replace (front + sl * Z.of_nat n + sl) with (front + sl * Z.of_nat (Datatypes.S n)) by lia.
  apply in_window_span; [apply sl_range|done|done].
Qed.

Lemma capacity_ok q k :
  made q → 0 <= k <= rg → zlen (emitted q) <= rg →
  ensure_emit_capacity q k =
    if rg <? zlen (emitted q) + k
    then Err (Backpressure "completed windows pending; drain estimates or window states and retry")
    else Ok tt.
Proof using Hp.
  intros Hm Hk He. unfold ensure_emit_capacity, pending_capacity, fail_if, sat_add64.
  rewrite (md_plan _ Hm), (po_capacity _ _ Hp). fold rg. pose proof rg_range.
  destruct (Z.ltb_spec rg (Z.min u64_max (zlen (emitted q) + k))),
    (Z.ltb_spec rg (zlen (emitted q) + k)); (done || lia).
Qed.

Definition emit q (w : WindowState S) : RunningQuery S := with_emitted q (emitted q ++ [w]).

Lemma flush_good q A front back0 stop :
  represents q A → sp_ring A = Some (front, back0) → zlen (emitted q) + 1 <= rg →
  ∃ s, flush_window stop q = (Ok tt, emit q (mkWindowState s front stop)) ∧
    good s (in_window (sp_log A) front (back0 + sl)).
Proof using LW Hp.
  intros [Hm Hg _ Hroom _] E He. rewrite E in Hg.
  pose proof (ring_window _ _ _ _ Hg) as Hw. destruct Hg as [(n & _ & _ & Hs) _ _ _ Hst].
  destruct (buckets q) as [|first rest] eqn:Eb; [done|].
  destruct (merge_buckets_good (in_bucket (sp_log A)) first rest Hst) as (s & Hs' & Hgs).
  exists s. split; [|by eapply good_perm].
  unfold flush_window. stm_simpl. rewrite Eb.
  stm_simpl. rewrite capacity_ok by (try done; pose proof rg_range; lia).
  rewrite (proj2 (Z.ltb_ge _ _)) by lia. rewrite Hs'.
  cbn [fmap list_fmap span] in Hs. injection Hs as -> _. done.
Qed.

(** ** Advancing *)

Lemma trim_front_id n (bs : list (Bucket S)) : zlen bs <= n → trim_front n bs = bs.
Proof using.
  destruct bs as [|b bs]; [done|]. intros Hl. cbn [trim_front].
  by rewrite (proj2 (Z.ltb_ge _ _)).
Qed.

Lemma ring_rep_push bs log front back0 :
  ring_rep bs log front back0 → back0 + sl < u64_mod →
  ring_rep (trim_front rg (bs ++ [mkBucket (back0 + sl) r])) log
    (Z.max front (back0 + sl - sl * (rg - 1))) (back0 + sl).
Proof using LW Hp Hr.
  intros [(n & Hn & Hb & Hs) [Hf0 Hfm] [Hb0 _] [Hla Hlb] Hst] Hlt.
  pose proof sl_range. pose proof rg_range.
  assert (length bs = Datatypes.S n) as Hlen
    by (rewrite <- (length_fmap start_nanos), Hs; apply length_span).
  assert (∀ b, zlen (bs ++ [b]) = Z.of_nat n + 2) as Hz
    by (intros b; unfold zlen; rewrite length_app, Hlen; cbn [length]; lia).
  assert (Forall (λ b, good (b_state b) (in_bucket log (start_nanos b)))
    (bs ++ [mkBucket (back0 + sl) r])) as Hall.
  { apply Forall_app. split; [done|]. apply Forall_singleton. cbn.
    rewrite in_bucket_past; [apply good_new|].
    eapply Forall_impl; [exact Hlb|]. cbn. lia. }
  assert (Forall (λ x, x.1 <= back0 + sl) log) as Hlb' by (eapply Forall_impl; [exact Hlb|]; cbn; lia).
  assert (start_nanos <$> bs ++ [mkBucket (back0 + sl) r] =
    span front (Datatypes.S (Datatypes.S n)) sl) as Hs'.
  { rewrite fmap_app, Hs, (span_snoc front (Datatypes.S n)), Nat2Z.inj_succ, Hb.
    cbn [fmap list_fmap start_nanos]. do 2 f_equal. ring. }
  destruct (decide (Z.of_nat (Datatypes.S n) < rg)) as [Hr'|Hr'].
  - rewrite trim_front_id by (rewrite Hz; lia).
    rewrite Z.max_l by nia. split; try done; [|split; lia]. exists (Datatypes.S n).
    split_and!; [done|rewrite Nat2Z.inj_succ, Hb; ring|done].
  - destruct bs as [|b bs]; [done|]. cbn [app trim_front].
    specialize (Hz (mkBucket (back0 + sl) r)). cbn [app] in Hz.
    rewrite (proj2 (Z.ltb_lt _ _)) by (rewrite Hz; lia). rewrite zlen_cons in Hz.
    rewrite trim_front_id by lia.
    rewrite Z.max_r by nia. replace (back0 + sl - sl * (rg - 1)) with (front + sl) by nia.
    apply Forall_cons in Hall as [_ Hall]. cbn [app fmap list_fmap] in Hs'.
    change (span front (Datatypes.S (Datatypes.S n)) sl)
      with (front :: span (front + sl) (Datatypes.S n) sl) in Hs'. injection Hs' as _ Hs'.
    split; try done.
    + exists n. split_and!; [lia|lia|done].
    + split; [lia|]. rewrite <- Z.add_mod_idemp_l, Hfm, Z.mod_same by lia. done.
    + split; lia.
Qed.

(** One slide of the abstract machine. *)
Definition spec_one (A : Spec) (front back0 : Z) : Spec :=
  mkSpec (sp_log A) (Some (Z.max front (back0 + sl - sl * (rg - 1)), back0 + sl))
    (sp_out A ++ [(front, back0 + sl, in_window (sp_log A) front (back0 + sl))]) (sp_late A).

Lemma push_bucket_eq q start :
  made q → push_bucket start q = (Ok tt, with_buckets q (buckets q ++ [mkBucket start r])).
Proof using Hr.
  intros Hm. unfold push_bucket. stm_simpl. unfold new_bucket.
  rewrite (md_plan _ Hm), (md_hash _ Hm), Hr. done.
Qed.

Lemma advance_one_spec q A front back0 :
  represents q A → sp_ring A = Some (front, back0) →
  zlen (emitted q) + 1 <= rg → back0 + sl < u64_mod →
  ∃ q', advance_one q = (Ok tt, q') ∧ represents q' (spec_one A front back0) ∧
    zlen (emitted q') = zlen (emitted q) + 1.
Proof using LW Hp Hr.
  intros HA E Hroom Hlt. pose proof HA as [Hm Hg Hout _ Hl]. rewrite E in Hg.
  destruct (flush_good q A front back0 (back0 + sl) HA E Hroom) as (s & Hf & Hgs).
  pose proof (ring_back _ _ _ _ Hg) as Hb.
  assert (slide q = sl) as Hsl by (unfold slide; by rewrite (md_plan _ Hm)).
  assert (back0 +ʷ sl = back0 + sl) as Hw.
  { apply wadd64_small. destruct (rr_back _ _ _ _ Hg). pose proof sl_range. word_lia. }
  unfold advance_one. stm_simpl. rewrite Hb. ostep. stm_simpl. rewrite Hsl, Hw, Hf. stm_simpl.
  rewrite push_bucket_eq by (by destruct Hm; split). stm_simpl.
  eexists. split; [done|].
  assert (ring (with_buckets (emit q (mkWindowState s front (back0 + sl)))
    (buckets (emit q (mkWindowState s front (back0 + sl))) ++ [mkBucket (back0 + sl) r])) = rg)
    as -> by (unfold ring; cbn; by rewrite (md_plan _ Hm)).
  assert (zlen (emitted q ++ [mkWindowState s front (back0 + sl)]) = zlen (emitted q) + 1) as Hz
    by by rewrite zlen_app.
  split; [|exact Hz]. split; cbn [emitted buckets emit with_emitted with_buckets sp_out spec_one
    sp_log sp_ring sp_late late_events]; [by destruct Hm; split| | |lia|done].
  - by apply ring_rep_push.
  - apply Forall2_app; [done|]. constructor; [done|constructor].
Qed.

(** [k] slides of the abstract machine. *)
Definition spec_slides (A : Spec) (front back0 k : Z) : Spec :=
  mkSpec (sp_log A) (Some (Z.max front (back0 + sl * k - sl * (rg - 1)), back0 + sl * k))
    (sp_out A ++ (window_at sl rg (sp_log A) front back0 <$> seqZ 1 k)) (sp_late A).

Lemma ring_rep_bound bs log front back0 :
  ring_rep bs log front back0 → front <= back0 <= front + sl * (rg - 1).
Proof using Hp.
  intros [(n & Hn & -> & _) _ _ _ _]. pose proof sl_range. nia.
Qed.

Lemma spec_slides_0 A front back0 bs :
  sp_ring A = Some (front, back0) → ring_rep bs (sp_log A) front back0 →
  spec_slides A front back0 0 = A.
Proof using Hp.
  intros E Hg. pose proof (ring_rep_bound _ _ _ _ Hg). unfold spec_slides.
  rewrite Z.mul_0_r, Z.add_0_r, Z.max_l by lia. cbn [seqZ fmap]. rewrite app_nil_r.
  destruct A. cbn in *. by rewrite E.
Qed.

Lemma spec_slides_S A front back0 bs (n : nat) :
  ring_rep bs (sp_log A) front back0 →
  spec_slides (spec_one A front back0) (Z.max front (back0 + sl - sl * (rg - 1))) (back0 + sl)
    (Z.of_nat n) = spec_slides A front back0 (Z.of_nat (Datatypes.S n)).
Proof using Hp.
  intros Hg. pose proof (ring_rep_bound _ _ _ _ Hg). pose proof sl_range. pose proof rg_range.
  assert (0 <= sl * Z.of_nat n) by nia.
  unfold spec_slides, spec_one. cbn [sp_log sp_ring sp_out sp_late].
  rewrite Nat2Z.inj_succ. f_equal.
  - do 2 f_equal; lia.
  - rewrite <- app_assoc. f_equal. rewrite (seqZ_cons 1 (Z.succ _)) by lia. cbn [app fmap list_fmap].
    f_equal.
    + unfold window_at. rewrite Z.mul_1_r, Z.max_l by lia. done.
    + replace (Z.pred (Z.succ (Z.of_nat n))) with (Z.of_nat n) by lia.
      change (Z.succ 1) with (1 + 1). rewrite <- fmap_add_seqZ, <- list_fmap_compose.
      apply list_fmap_ext. intros _ i Hi%list_elem_of_lookup_2%elem_of_seqZ. unfold compose, window_at.
      assert (sl <= sl * i) by nia.
      replace (back0 + sl * (1 + i)) with (back0 + sl + sl * i) by ring.
      replace (Z.max (Z.max front (back0 + sl - sl * (rg - 1))) (back0 + sl + sl * i - sl * rg))
        with (Z.max front (back0 + sl + sl * i - sl * rg)) by lia. done.
Qed.

Lemma advance_loop_spec (n : nat) q A front back0 :
  represents q A → sp_ring A = Some (front, back0) →
  zlen (emitted q) + Z.of_nat n <= rg → back0 + sl * Z.of_nat n < u64_mod →
  ∃ q', repeat_m n advance_one q = (Ok tt, q') ∧
    advance_loop n (back0 + sl * Z.of_nat n) q = (Ok tt, q') ∧
    represents q' (spec_slides A front back0 (Z.of_nat n)) ∧
    zlen (emitted q') = zlen (emitted q) + Z.of_nat n.
Proof using LW Hp Hr.
  revert q A front back0. induction n as [|n IH]; intros q A front back0 HA E Hroom Hlt;
    pose proof (rp_ring _ _ HA) as Hg; rewrite E in Hg; pose proof (ring_back _ _ _ _ Hg) as Hb.
  - exists q. change (Z.of_nat 0) with 0. cbn [repeat_m advance_loop]. stm_simpl. rewrite Hb. ostep. stm_simpl.
    rewrite Z.mul_0_r, Z.add_0_r, Z.ltb_irrefl, (spec_slides_0 _ _ _ _ E Hg). stm_simpl.
    split_and!; try done; lia.
  - pose proof sl_range. assert (0 <= sl * Z.of_nat n) by nia. rewrite Nat2Z.inj_succ in Hroom, Hlt.
    destruct (advance_one_spec q A front back0 HA E) as (q1 & H1 & HA1 & Hz1); [lia|nia|].
    destruct (IH q1 _ _ _ HA1 eq_refl) as (q' & Hr1 & Hl1 & HA' & Hz'); [lia|lia|].
    exists q'. rewrite (spec_slides_S _ _ _ _ n Hg) in HA'.
    replace (back0 + sl + sl * Z.of_nat n) with (back0 + sl * Z.of_nat (Datatypes.S n)) in Hl1 by lia.
    cbn [repeat_m advance_loop]. stm_simpl. rewrite Hb. ostep. stm_simpl.
    rewrite (proj2 (Z.ltb_lt back0 _)) by lia. stm_simpl. rewrite H1.
    split_and!; try done; lia.
Qed.

(** The fresh ring built after a gap. *)
Definition fresh (a : Z) : Bucket S := mkBucket a r.

Lemma rebuild_loop_spec (n fuel : nat) q start :
  made q → (n <= fuel)%nat → 0 <= start → start + sl * Z.of_nat n < u64_mod →
  rebuild_loop fuel start (start + sl * Z.of_nat n) q =
    (Ok tt, with_buckets q (buckets q ++ (fresh <$> span start (Datatypes.S n) sl))).
Proof using Hp Hr.
  pose proof sl_range. revert fuel q start.
  induction n as [|n IH]; intros fuel q start Hm Hf H0 Hlt; destruct fuel as [|fuel];
    cbn [rebuild_loop]; stm_simpl; rewrite push_bucket_eq by done; stm_simpl; try lia.
  - rewrite (proj2 (Z.eqb_eq _ _)) by lia. done.
  - rewrite (proj2 (Z.eqb_eq _ _)) by lia. done.
  - rewrite Nat2Z.inj_succ in *. rewrite (proj2 (Z.eqb_neq _ _)) by nia. stm_simpl.
    replace (slide (with_buckets q (buckets q ++ [mkBucket start r]))) with sl
      by (unfold slide; cbn; by rewrite (md_plan _ Hm)).
    rewrite wadd64_small by (split; nia).
    replace (start + sl * Z.succ (Z.of_nat n)) with (start + sl + sl * Z.of_nat n) by ring.
    rewrite IH; [|by destruct Hm; split|lia|lia|lia].
    cbn [buckets with_buckets span fmap list_fmap]. by rewrite <- app_assoc.
Qed.

Lemma ring_rebuild_spec q target :
  made q → u64_ok target → target mod sl = 0 → rg - 1 <= target / sl →
  rebuild_trailing_ring target q =
    (Ok tt, with_buckets q (fresh <$> span (target - sl * (rg - 1)) (Z.to_nat rg) sl)).
Proof using Hp Hr.
  intros Hm Ht Hal Hle. pose proof sl_range. pose proof rg_range.
  assert (sl * (rg - 1) <= target) as Hle'.
  { transitivity (sl * (target / sl)); [nia|]. apply Z.mul_div_le. lia. }
  assert (0 <= sl * (rg - 1)) by nia.
  unfold rebuild_trailing_ring. stm_simpl.
  replace (slide (with_buckets q [])) with sl by (unfold slide; cbn; by rewrite (md_plan _ Hm)).
  replace (ring (with_buckets q [])) with rg by (unfold ring; cbn; by rewrite (md_plan _ Hm)).
  unfold div_u64. rewrite (proj2 (Z.eqb_neq sl 0)) by lia. stm_simpl.
  rewrite (wsub64_small rg 1) by word_lia. rewrite Z.min_l by lia.
  rewrite wmul64_small, wsub64_small by word_lia.
  replace target with (target - sl * (rg - 1) + sl * Z.of_nat (Z.to_nat (rg - 1))) at 2
    by (rewrite Z2Nat.id by lia; ring).
  rewrite rebuild_loop_spec; [|by destruct Hm; split|lia|lia|rewrite Z2Nat.id by lia; word_lia].
  replace (Datatypes.S (Z.to_nat (rg - 1))) with (Z.to_nat rg) by lia. done.
Qed.

Lemma fresh_ring log target :
  u64_ok target → target mod sl = 0 → sl * (rg - 1) <= target →
  aligned sl log → Forall (λ x, x.1 < target - sl * (rg - 1)) log →
  ring_rep (fresh <$> span (target - sl * (rg - 1)) (Z.to_nat rg) sl) log
    (target - sl * (rg - 1)) target.
Proof using LW Hp Hr.
  intros Ht Hal Hle Hl Hlog. pose proof sl_range. pose proof rg_range.
  assert (0 <= sl * (rg - 1)) by nia. split.
  - exists (Z.to_nat (rg - 1)). split_and!; [lia|rewrite Z2Nat.id by lia; ring|].
    replace (Datatypes.S (Z.to_nat (rg - 1))) with (Z.to_nat rg) by lia.
    rewrite <- list_fmap_compose. change (start_nanos ∘ fresh) with (@id Z). by rewrite list_fmap_id.
  - split; [lia|]. rewrite Zminus_mod, Hal, Z.mul_comm, Z.mod_mul by lia. done.
  - done.
  - split; [done|]. eapply Forall_impl; [exact Hlog|]. cbn. nia.
  - apply Forall_fmap, Forall_forall. intros a (i & _ & ->)%elem_of_span. cbn.
    rewrite in_bucket_past; [by apply good_new|]. eapply Forall_impl; [exact Hlog|]. cbn. nia.
Qed.

Lemma closed_eq q A target :
  represents q A → u64_ok target → windows_closed_by_advance q target = Ok (spec_closed sl rg A target).
Proof using Hp.
  intros [Hm Hg _ _ _] Ht. unfold windows_closed_by_advance, spec_closed.
  destruct (sp_ring A) as [[front back0]|]; [|unfold back; by destruct Hg as [-> _]].
  rewrite (ring_back _ _ _ _ Hg). destruct (Z.leb_spec target back0); [done|].
  destruct (rr_back _ _ _ _ Hg). rewrite wsub64_small by word_lia.
  unfold div_u64, slide, ring. rewrite (md_plan _ Hm). fold sl rg. pose proof sl_range.
  rewrite (proj2 (Z.eqb_neq sl 0)) by lia. ostep. f_equal.
  destruct (Z.ltb_spec rg ((target - back0) / sl)); lia.
Qed.

Lemma closed_range A target : 0 <= spec_closed sl rg A target <= rg.
Proof using Hp.
  pose proof rg_range. pose proof sl_range. unfold spec_closed.
  destruct (sp_ring A) as [[front back0]|]; [|lia].
  destruct (Z.leb_spec target back0); [lia|].
  assert (0 <= (target - back0) / sl) by (apply Z.div_pos; lia). lia.
Qed.

Definition pending_full {B} : res B :=
  Err (Backpressure "completed windows pending; drain estimates or window states and retry").

Lemma rep_out_length q A : represents q A → zlen (emitted q) = zlen (sp_out A).
Proof using. intros [_ _ Ho _ _]. unfold zlen. by rewrite (Forall2_length _ _ _ Ho). Qed.

Lemma can_advance_eq q A target :
  represents q A → u64_ok target →
  ensure_can_advance q target =
    if rg <? zlen (sp_out A) + spec_closed sl rg A target then pending_full else Ok tt.
Proof using Hp.
  intros HA Ht. unfold ensure_can_advance. rewrite (closed_eq _ _ _ HA Ht). ostep.
  rewrite capacity_ok, (rep_out_length _ _ HA); [done|apply HA|apply closed_range|apply HA].
Qed.

(** ** Events *)

Lemma lookup_span a n i x : span a n sl !! i = Some x → x = a + sl * Z.of_nat i.
Proof using.
  revert a i. induction n as [|n IH]; intros a [|i] Hx; cbn [span] in Hx; try done.
  - injection Hx as <-. lia.
  - apply IH in Hx. lia.
Qed.

Lemma bucket_position_Some start (bs : list (Bucket S)) i :
  bucket_position start bs = Some i → ∃ b, bs !! i = Some b ∧ start_nanos b = start.
Proof using.
  revert i. induction bs as [|b bs IH]; intros i Hi; cbn [bucket_position] in Hi; [done|].
  destruct (Z.eqb_spec (start_nanos b) start) as [E|]; [injection Hi as <-; by exists b|].
  destruct (bucket_position start bs) as [j|]; [|done]. injection Hi as <-. by apply IH.
Qed.

Lemma bucket_position_None start (bs : list (Bucket S)) :
  bucket_position start bs = None → start ∉ start_nanos <$> bs.
Proof using.
  induction bs as [|b bs IH]; cbn [bucket_position fmap list_fmap]; [by intros _ ?%elem_of_nil|].
  destruct (Z.eqb_spec (start_nanos b) start) as [E|]; [done|].
  destruct (bucket_position start bs); [done|]. intros _ [?|?]%elem_of_cons; [done|by apply IH].
Qed.

Lemma ring_rep_log bs log front back0 i b u s :
  ring_rep bs log front back0 → bs !! i = Some b →
  good s (in_bucket log (start_nanos b) ++ [u]) →
  ring_rep (<[i := mkBucket (start_nanos b) s]> bs) (log ++ [(start_nanos b, u)]) front back0.
Proof using Hp.
  intros [(n & Hn & Hb & Hs) Hf Hbk [Hl1 Hl2] Hst] Hi Hg. pose proof sl_range.
  assert ((start_nanos <$> bs) !! i = Some (start_nanos b)) as Hi' by by rewrite list_lookup_fmap, Hi.
  rewrite Hs in Hi'. pose proof (lookup_span _ _ _ _ Hi') as Hib.
  apply lookup_lt_Some in Hi'. rewrite length_span in Hi'. split; try done.
  - exists n. split_and!; try done. rewrite list_fmap_insert. cbn [start_nanos].
    rewrite list_insert_id; [done|]. by rewrite list_lookup_fmap, Hi.
  - split; (apply Forall_app; split; [done|apply Forall_singleton; cbn]).
    + rewrite Hib, Z.mul_comm, Z_mod_plus_full. apply Hf.
    + rewrite Hib, Hb. nia.
  - apply Forall_lookup_2. intros j c Hj. rewrite in_bucket_snoc. cbn [fst snd].
    destruct (decide (i = j)) as [<-|Hne].
    + rewrite list_lookup_insert_eq in Hj by (by eapply lookup_lt_Some). injection Hj as <-. cbn.
      by rewrite decide_True.
    + rewrite list_lookup_insert_ne in Hj by done.
      pose proof (Forall_lookup_1 _ _ _ _ Hst Hj) as Hgc.
      assert ((start_nanos <$> bs) !! j = Some (start_nanos c)) as Hj' by by rewrite list_lookup_fmap, Hj.
      rewrite Hs in Hj'. apply lookup_span in Hj'.
      rewrite decide_False by nia. by rewrite app_nil_r.
Qed.

Lemma apply_event_spec q A front back0 i b e :
  represents q A → sp_ring A = Some (front, back0) → event_ok e → buckets q !! i = Some b →
  ∃ q', apply_event i e q = (Ok tt, q') ∧
    represents q' (mkSpec (sp_log A ++ [(start_nanos b, item_of p e)]) (sp_ring A) (sp_out A) (sp_late A)).
Proof using LW Hp.
  intros [Hm Hg Ho Hroom Hl] E He Hi. rewrite E in *.
  pose proof (item_weight p e He) as Hw. pose proof (md_fields _ Hm) as Hfields.
  unfold item_of in *. rewrite Hfields in *. cbn [fst snd] in Hw.
  destruct (good_update (b_state b) (in_bucket (sp_log A) (start_nanos b))
    (join [GROUP_KEY_SEP] ((λ f, extract f e) <$> group_by (query p)))
    (match value_field q with Some f => extract_value f e | None => 1 end)
    (match distinct_field q with Some f => extract f e | None => [] end)) as (s' & buf & Hu & Hgs);
    [by apply (Forall_lookup_1 _ _ _ _ (rr_states _ _ _ _ Hg) Hi)|done|].
  unfold apply_event. stm_simpl.
  change (group_key_into (group_fields q) e (key_buf q)) with (group_key (group_fields q) e).
  rewrite (md_groups _ Hm), (group_key_join _ _ He). stm_simpl.
  assert (match distinct_field q with Some f => field_value_into f e [] | None => Ok (distinct_buf q) end
    = Ok (match distinct_field q with Some f => extract f e | None => [] end)) as ->.
  { destruct (distinct_field q) eqn:Ed; [by rewrite field_value_into_ok|].
    f_equal. by apply (md_item _ Hm). }
  stm_simpl. rewrite Hi. ostep. stm_simpl. rewrite Hu. stm_simpl.
  eexists. split; [done|]. split; try done.
  - destruct Hm. split; try done. cbn. intros ->. done.
  - by apply ring_rep_log.
Qed.

(** Two aligned times are a whole number of slides apart. *)
Lemma slides_between back0 target :
  back0 mod sl = 0 → target mod sl = 0 → target = back0 + sl * ((target - back0) / sl).
Proof using Hp.
  pose proof sl_range. intros Hb Ht.
  assert ((target - back0) mod sl = 0) as Hd by (rewrite Zminus_mod, Ht, Hb; apply Z.mod_0_l; lia).
  pose proof (Z.div_mod (target - back0) sl ltac:(lia)). lia.
Qed.

Lemma back_aligned bs log front back0 : ring_rep bs log front back0 → back0 mod sl = 0.
Proof using.
  intros [(n & _ & -> & _) [_ Hf] _ _ _]. by rewrite Z.mul_comm, Z_mod_plus_full.
Qed.

(** Start of the first window, or a gap: everything but the ring is kept. *)
Lemma represents_ring q A bs front back0 :
  represents q A → ring_rep bs (sp_log A) front back0 →
  represents (with_buckets q bs) (mkSpec (sp_log A) (Some (front, back0)) (sp_out A) (sp_late A)).
Proof using. intros [Hm _ Ho Hr' Hl] Hg. split; try done. by destruct Hm; split. Qed.

Lemma advance_spec q A target :
  represents q A → u64_ok target → target mod sl = 0 →
  if rg <? zlen (sp_out A) + spec_closed sl rg A target
  then advance_to_bucket target q = (pending_full, q)
  else ∃ q', advance_to_bucket target q = (Ok tt, q') ∧ represents q' (spec_advance sl rg target A).
Proof using LW Hp Hr.
  intros HA Ht Hal. pose proof sl_range. pose proof rg_range.
  pose proof (can_advance_eq q A target HA Ht) as Hcan. pose proof HA as [Hm Hg _ _ _].
  unfold advance_to_bucket.
  destruct (Z.ltb_spec rg (zlen (sp_out A) + spec_closed sl rg A target)) as [Hfull|Hroom].
  { rewrite stm_bind_eq. cbn [asks]. by rewrite Hcan. }
  stm_simpl. rewrite Hcan. stm_simpl. rewrite <- (rep_out_length _ _ HA) in Hroom.
  unfold spec_advance, spec_closed in *. destruct (sp_ring A) as [[front back0]|] eqn:E.
  2:{ destruct Hg as [Hb Hlog]. unfold back. rewrite Hb. cbn [last fmap option_fmap option_map].
      rewrite push_bucket_eq by done. eexists. split; [done|]. rewrite Hb. cbn [app].
      apply represents_ring; [done|]. rewrite Hlog. split; try done.
      - exists 0%nat. split_and!; [lia|lia|done].
      - split; [apply Ht|done].
      - split; constructor.
      - constructor; [apply good_new|constructor]. }
  rewrite (ring_back _ _ _ _ Hg). stm_simpl. pose proof (back_aligned _ _ _ _ Hg) as Hba.
  replace (ring q) with rg by (unfold ring; by rewrite (md_plan _ Hm)).
  replace (slide q) with sl by (unfold slide; by rewrite (md_plan _ Hm)).
  destruct (Z.leb_spec target back0) as [Hle|Hgt].
  { rewrite (proj2 (Z.ltb_ge back0 target)) by lia. cbn [andb]. stm_simpl.
    change (Z.to_nat 0) with 0%nat. cbn [advance_loop].
    stm_simpl. rewrite (ring_back _ _ _ _ Hg). ostep. stm_simpl.
    rewrite (proj2 (Z.ltb_ge back0 target)) by lia. by exists q. }
  rewrite (proj2 (Z.ltb_lt back0 target)) by lia. pose proof (rr_back _ _ _ _ Hg) as Hb0.
  rewrite wsub64_small by word_lia. unfold div_u64. rewrite (proj2 (Z.eqb_neq sl 0)) by lia. stm_simpl.
  pose proof (slides_between back0 target Hba Hal) as Hk. set (k := (target - back0) / sl) in *.
  assert (0 < k) by nia. cbn [andb]. destruct (Z.ltb_spec rg k) as [Hgap|Hsmall].
  - rewrite Z.min_r in * by lia. assert (sl * rg < sl * k) by nia.
    destruct (advance_loop_spec (Z.to_nat rg) q A front back0 HA E) as (q1 & Hq1 & _ & HA1 & _);
      rewrite ?Z2Nat.id by lia; [lia|word_lia|]. rewrite Z2Nat.id in HA1 by lia.
    stm_simpl. rewrite Hq1. rewrite ring_rebuild_spec; [|apply HA1|done|done|].
    2:{ transitivity k; [lia|]. apply Z.div_le_mono; [lia|]. destruct Hb0. lia. }
    eexists. split; [done|]. pose proof (ring_rep_bound _ _ _ _ Hg).
    rewrite (Z.max_r front) by lia. apply (represents_ring q1 (spec_slides A front back0 rg)); [done|].
    destruct (rr_log _ _ _ _ Hg) as [Hl1 Hl2].
    apply fresh_ring; try done; [destruct Hb0; lia|].
    eapply Forall_impl; [exact Hl2|]. cbn. lia.
  - rewrite Z.min_l in * by lia.
    destruct (advance_loop_spec (Z.to_nat k) q A front back0 HA E) as (q1 & _ & Hq1 & HA1 & _);
      rewrite ?Z2Nat.id by lia; [lia|word_lia|]. rewrite Z2Nat.id in Hq1, HA1 by lia.
    rewrite <- Hk in Hq1. exists q1. split; [done|]. unfold spec_slides in HA1.
    rewrite <- Hk in HA1. done.
Qed.

(** ** Events *)

(** The start of the bucket of a time stamp. *)
Definition start_of (ts : Z) : Z := ts - ts mod sl.
Definition spec_process (e : FlowEvent) (A : Spec) : Spec :=
  spec_log (start_of (ts_nanos e)) (item_of p e) (spec_advance sl rg (start_of (ts_nanos e)) A).
Definition accepts (e : FlowEvent) : bool := matches (filter (query p)) e.

Lemma start_of_ok ts : u64_ok ts → u64_ok (start_of ts) ∧ start_of ts mod sl = 0.
Proof using Hp.
  intros Ht. pose proof sl_range. unfold start_of. pose proof (Z.mod_pos_bound ts sl ltac:(lia)).
  pose proof (Z.mod_le ts sl ltac:(word_lia) ltac:(lia)). split; [word_lia|].
  rewrite Zminus_mod_idemp_r, Z.sub_diag. apply Z.mod_0_l. lia.
Qed.

Lemma bucket_start_eq q ts : made q → u64_ok ts → bucket_start_for q ts = Ok (start_of ts).
Proof using Hp.
  intros Hm Ht. pose proof sl_range. unfold bucket_start_for, rem_u64, slide. rewrite (md_plan _ Hm).
  fold sl. rewrite (proj2 (Z.eqb_neq sl 0)) by lia. ostep. unfold start_of.
  pose proof (Z.mod_pos_bound ts sl ltac:(lia)). pose proof (Z.mod_le ts sl ltac:(word_lia) ltac:(lia)).
  by rewrite wsub64_small by word_lia.
Qed.

Lemma spec_advance_ring A target :
  ∃ front back0, sp_ring (spec_advance sl rg target A) = Some (front, back0) ∧ target <= back0.
Proof using.
  unfold spec_advance. destruct (sp_ring A) as [[front back0]|] eqn:E; [|by exists target, target].
  destruct (Z.leb_spec target back0); [by exists front, back0|].
  cbn [sp_ring]. eexists _, _. split; [done|]. lia.
Qed.

(** The last bucket's start is found without a search. *)
Lemma last_bucket q A front back0 :
  represents q A → sp_ring A = Some (front, back0) →
  ∃ b, buckets q !! (length (buckets q) - 1)%nat = Some b ∧ start_nanos b = back0.
Proof using.
  intros HA E. pose proof (rp_ring _ _ HA) as Hg. rewrite E in Hg. pose proof (ring_back _ _ _ _ Hg) as Hb.
  unfold back in Hb. destruct (last (buckets q)) as [b|] eqn:El; [|done]. injection Hb as <-.
  exists b. split; [|done]. rewrite last_lookup in El. by replace (length (buckets q) - 1)%nat
    with (pred (length (buckets q))) by lia.
Qed.

(** A bucket start within the ring is found, an older one is late. *)
Lemma place_event q A front back0 e :
  represents q A → sp_ring A = Some (front, back0) → event_ok e → start_of (ts_nanos e) <= back0 →
  ∃ q', match bucket_position (start_of (ts_nanos e)) (buckets q) with
        | None => (Ok tt, with_late q (late_events q +ʷ 1))
        | Some i => apply_event i e q
        end = (Ok tt, q') ∧
    represents q' (spec_log (start_of (ts_nanos e)) (item_of p e) A).
Proof using LW Hp.
  intros HA E He Hle. pose proof (rp_ring _ _ HA) as Hg. rewrite E in Hg. pose proof sl_range.
  destruct (start_of_ok _ (ok_ts _ He)) as [_ Hal]. unfold spec_log. rewrite E.
  destruct (rr_len _ _ _ _ Hg) as (n & Hn & Hbk & Hs). destruct (rr_front _ _ _ _ Hg) as [_ Hf].
  destruct (bucket_position _ (buckets q)) as [i|] eqn:Ep.
  - apply bucket_position_Some in Ep as (b & Hi & Hb).
    rewrite <- Hb, <- E. destruct (Z.ltb_spec (start_nanos b) front) as [Hlt|_].
    + exfalso. assert ((start_nanos <$> buckets q) !! i = Some (start_nanos b)) as Hi'
        by by rewrite list_lookup_fmap, Hi.
      rewrite Hs in Hi'. apply lookup_span in Hi'. nia.
    + by eapply apply_event_spec.
  - apply bucket_position_None in Ep. rewrite Hs in Ep.
    rewrite (proj2 (Z.ltb_lt (start_of (ts_nanos e)) front)).
    + eexists. split; [done|]. destruct HA as [Hm Hg' Ho Hr' Hl]. rewrite E in Hg'.
      split; try done; [by destruct Hm; split|]. cbn. by rewrite Hl.
    + apply Z.nle_gt. intros Hge. apply Ep. apply (elem_of_span_between front); try done; [lia|].
      split; [done|]. rewrite Nat2Z.inj_succ. lia.
Qed.

Lemma process_spec q A e :
  represents q A → event_ok e → accepts e = true →
  if rg <? zlen (sp_out A) + spec_closed sl rg A (start_of (ts_nanos e))
  then process e q = (pending_full, q)
  else ∃ q', process e q = (Ok tt, q') ∧ represents q' (spec_process e A).
Proof using LW Hp Hr.
  intros HA He Hacc. pose proof (rp_made _ _ HA) as Hm. destruct (start_of_ok _ (ok_ts _ He)) as [Ht Hal].
  unfold process. stm_simpl. rewrite (md_plan _ Hm). fold (accepts e). rewrite Hacc. cbn [negb].
  stm_simpl. rewrite (bucket_start_eq _ _ Hm (ok_ts _ He)). stm_simpl.
  case_bool_decide as Hb.
  - pose proof (rp_ring _ _ HA) as Hg. destruct (sp_ring A) as [[front back0]|] eqn:E;
      [|unfold back in Hb; by destruct Hg as [Hg _]; rewrite Hg in Hb].
    rewrite (ring_back _ _ _ _ Hg) in Hb. injection Hb as Hb.
    assert (spec_advance sl rg (start_of (ts_nanos e)) A = A) as Hadv.
    { unfold spec_advance. by rewrite E, (proj2 (Z.leb_le _ _)) by lia. }
    unfold spec_closed, spec_process. rewrite E, (proj2 (Z.leb_le _ _)), Hadv, Z.add_0_r by lia.
    rewrite <- (rep_out_length _ _ HA), (proj2 (Z.ltb_ge _ _)) by apply HA.
    destruct (last_bucket q A front back0 HA E) as (b & Hi & Hbk). stm_simpl.
    unfold spec_log. rewrite E, (proj2 (Z.ltb_ge _ _)).
    + rewrite <- Hb, <- E, <- Hbk. by eapply apply_event_spec.
    + pose proof (ring_rep_bound _ _ _ _ Hg). lia.
  - pose proof (advance_spec q A _ HA Ht Hal) as Hadv.
    destruct (Z.ltb_spec rg (zlen (sp_out A) + spec_closed sl rg A (start_of (ts_nanos e)))).
    + stm_simpl. by rewrite Hadv.
    + destruct Hadv as (q1 & H1 & HA1). stm_simpl. rewrite H1. stm_simpl.
      destruct (spec_advance_ring A (start_of (ts_nanos e))) as (front & back0 & E & Hle).
      destruct (place_event q1 _ front back0 e HA1 E He Hle) as (q' & Hq' & HA').
      exists q'. split; [|done]. rewrite <- Hq'. by destruct (bucket_position _ _).
Qed.

Lemma process_ignored q A e :
  represents q A → accepts e = false → process e q = (Ok tt, q).
Proof using.
  intros HA Hacc. unfold process. stm_simpl. rewrite (md_plan _ (rp_made _ _ HA)).
  fold (accepts e). by rewrite Hacc.
Qed.

(** ** Operations *)

Inductive Op :=
  | OpEvent (e : FlowEvent)
  | OpAdvance (ts : Z)
  | OpFinish
  | OpDrain.

Definition op_ok (op : Op) : Prop :=
  match op with
  | OpEvent e => event_ok e
  | OpAdvance ts => u64_ok ts
  | OpFinish | OpDrain => True
  end.

(** What the engine does to one of its queries. *)
Definition run_op (op : Op) : stm (RunningQuery S) SketchError unit :=
  match op with
  | OpEvent e => process e
  | OpAdvance ts => target ← asks (λ q, bucket_start_for q ts); advance_to_bucket target
  | OpFinish => finish
  | OpDrain => modify (λ q, with_emitted q [])
  end.

(** The number of windows an operation closes, and what it does when there is
    room for them. *)
Definition op_closes (op : Op) (A : Spec) : Z :=
  match op with
  | OpEvent e => if accepts e then spec_closed sl rg A (start_of (ts_nanos e)) else 0
  | OpAdvance ts => spec_closed sl rg A (start_of ts)
  | OpFinish => match sp_ring A with Some _ => 1 | None => 0 end
  | OpDrain => 0
  end.
Definition op_effect (op : Op) (A : Spec) : Spec :=
  match op with
  | OpEvent e => if accepts e then spec_process e A else A
  | OpAdvance ts => spec_advance sl rg (start_of ts) A
  | OpFinish => spec_finish sl A
  | OpDrain => spec_drain A
  end.
Definition spec_op (op : Op) (A : Spec) : res unit * Spec :=
  if rg <? zlen (sp_out A) + op_closes op A then (pending_full, A) else (Ok tt, op_effect op A).

Lemma finish_spec q A :
  represents q A →
  if rg <? zlen (sp_out A) + op_closes OpFinish A then finish q = (pending_full, q)
  else ∃ q', finish q = (Ok tt, q') ∧ represents q' (spec_finish sl A).
Proof using LW Hp.
  intros HA. pose proof rg_range. pose proof (rp_made _ _ HA) as Hm. pose proof (rp_ring _ _ HA) as Hg.
  pose proof (rp_room _ _ HA) as Hroom. unfold finish, op_closes, spec_finish.
  rewrite <- (rep_out_length _ _ HA). destruct (sp_ring A) as [[front back0]|] eqn:E.
  - stm_simpl. rewrite (ring_back _ _ _ _ Hg). stm_simpl. rewrite capacity_ok by (done || lia).
    destruct (Z.ltb_spec rg (zlen (emitted q) + 1)); [done|]. stm_simpl.
    replace (slide q) with sl by (unfold slide; by rewrite (md_plan _ Hm)).
    destruct (flush_good q A front back0 (back0 +ʷ sl) HA E) as (s & -> & Hgs); [lia|].
    eexists. split; [done|]. destruct HA as [_ _ Ho _ Hl]. split.
    + by destruct Hm; split.
    + cbn [sp_ring sp_log buckets emit with_emitted]. done.
    + cbn [emitted emit with_emitted sp_out]. apply Forall2_app; [done|]. by constructor.
    + cbn [emitted emit with_emitted]. rewrite zlen_app. unfold zlen at 2. cbn. lia.
    + done.
  - rewrite (proj2 (Z.ltb_ge _ _)) by lia. stm_simpl. unfold back. destruct Hg as [-> _].
    cbn [last fmap option_fmap option_map]. by exists q.
Qed.

Lemma drain_spec q A : represents q A → represents (with_emitted q []) (spec_drain A).
Proof using Hp.
  intros [Hm Hg _ _ Hl]. pose proof rg_range. split; try done; [by destruct Hm; split|].
  change (0 <= rg). lia.
Qed.

(** One operation of the implementation is one operation of the abstract machine. *)
Lemma op_spec q A op :
  represents q A → op_ok op →
  ∃ q', run_op op q = ((spec_op op A).1, q') ∧ represents q' (spec_op op A).2 ∧
    (is_ok (spec_op op A).1 = false → q' = q).
Proof using LW Hp Hr.
  intros HA Hop. unfold spec_op. pose proof (rp_room _ _ HA) as Hroom.
  rewrite (rep_out_length _ _ HA) in Hroom.
  destruct op as [e|ts| |]; cbn [run_op op_closes op_effect op_ok] in *.
  - destruct (accepts e) eqn:Hacc.
    + pose proof (process_spec q A e HA Hop Hacc) as Hs.
      destruct (_ <? _); [by exists q|]. destruct Hs as (q' & Hq & HA'). by exists q'.
    + rewrite (proj2 (Z.ltb_ge _ _)) by lia. rewrite (process_ignored q A e HA Hacc). by exists q.
  - destruct (start_of_ok _ Hop) as [Ht Hal]. pose proof (advance_spec q A _ HA Ht Hal) as Hs.
    stm_simpl. rewrite (bucket_start_eq _ _ (rp_made _ _ HA) Hop).
    destruct (_ <? _); [by exists q|]. destruct Hs as (q' & Hq & HA'). by exists q'.
  - pose proof (finish_spec q A HA) as Hs. cbn [op_closes] in Hs.
    destruct (_ <? _); [by exists q|]. destruct Hs as (q' & Hq & HA'). by exists q'.
  - rewrite (proj2 (Z.ltb_ge _ _)) by lia. eexists. split; [done|]. split; [by apply drain_spec|done].
Qed.

(** Any sequence of operations; one that meets backpressure leaves no trace. *)
Fixpoint run_ops (ops : list Op) (q : RunningQuery S) : list (res unit) * RunningQuery S :=
  match ops with
  | [] => ([], q)
  | op :: ops =>
      let '(x, q) := run_op op q in let '(xs, q) := run_ops ops q in (x :: xs, q)
  end.
Fixpoint spec_ops (ops : list Op) (A : Spec) : list (res unit) * Spec :=
  match ops with
  | [] => ([], A)
  | op :: ops =>
      let '(x, A) := spec_op op A in let '(xs, A) := spec_ops ops A in (x :: xs, A)
  end.

Lemma new_represents q : rq_new p h = Ok q → represents q spec_new.
Proof using Hp.
  unfold rq_new. destruct (measure_fields (measure (query p))) as [d v] eqn:Ef. intros [= <-].
  pose proof rg_range. split; try done. change (0 <= rg). lia.
Qed.

Lemma run_ops_spec ops q A :
  represents q A → Forall op_ok ops →
  (run_ops ops q).1 = (spec_ops ops A).1 ∧ represents (run_ops ops q).2 (spec_ops ops A).2.
Proof using LW Hp Hr.
  revert q A. induction ops as [|op ops IH]; intros q A HA Hops; [done|]. cbn [run_ops spec_ops].
  apply Forall_cons in Hops as [Hop Hops].
  destruct (op_spec q A op HA Hop) as (q' & -> & HA' & _). destruct (spec_op op A) as [x A'].
  cbn [fst snd] in *. destruct (IH q' A' HA' Hops).
  destruct (run_ops ops q'), (spec_ops ops A'). cbn [fst snd] in *. by subst.
Qed.
End represents.
