(* ===== verification/Guarantees.v ===== *)
(** * What a query's state answers

    A windowed query's state is a history of updates and merges of one or two
    sketches, so that each sketch's own guarantee holds of the window's events. *)
From S2P Require Import Prelude Bytes Hash Sketch F64 Event Ir Planner CountMin SpaceSaving Hll.
From S2P Require Import HllMap Kll QueryState Window WindowSpec.

(** The streams that an item list is to the three kinds of sketches. *)
Definition keyed (items : list Item) : list (bytes * Z) := fst <$> items.
Definition item_counts (items : list Item) : list (bytes * Z) := (λ u, (u.2, 1)) <$> items.
Definition values (items : list Item) : list Z := (λ u, u.1.2) <$> items.

(** The SpaceSaving guarantee on a stream whose total weight fits a [u64]. *)
Definition brackets (capacity : Z) (ss : SpaceSaving.SpaceSaving) (l : list (bytes * Z)) : Prop :=
  total_of l < u64_mod →
  ∀ key, ∃ o, SpaceSaving.get ss key = Ok o ∧
    match o with
    | Some e => SpaceSaving.guaranteed e <= weight_of key l <= SpaceSaving.count e
    | None => weight_of key l * capacity <= total_of l
    end.

(** A state's answers on the items it holds. *)
Definition answers (fuel : nat) (h : HashSpec) (sk : PhysicalSketch) (s : QueryState)
    (items : list Item) : Prop :=
  match sk, s with
  | PSpaceSaving capacity, QHeavyHitters ss => brackets capacity ss (keyed items)
  | PComposite [PSpaceSaving capacity; PCountMin width depth _], QCounter cm keys =>
      brackets capacity keys (keyed items) ∧
      (total_of (keyed items) < u64_mod →
       ∀ key, ∃ est, CountMin.estimate_u64 cm key = Ok est ∧ weight_of key (keyed items) <= est)
  | PHyperLogLog precision, QDistinctGlobal hll =>
      Hll.hl_storage hll = Hll.canon precision (Hll.hashes_of h (snd <$> items))
  | PComposite [PSpaceSaving capacity; PHyperLogLog precision], QEntropy ss hll =>
      brackets capacity ss (item_counts items) ∧
      Hll.hl_storage hll = Hll.canon precision (Hll.hashes_of h (snd <$> items))
  | PKll k, QQuantile kll =>
      ∃ vs e, values items ≡ₚ vs ∧ Kll.history k h kll vs e
  | PHllMap max_keys _, QDistinctPerKey m =>
      HllMap.wf fuel m ∧ Z.of_nat (size (HllMap.hm_map m)) <= max_keys
  | _, _ => False
  end.

Section guarantees.
Context (fuel : nat) (h : HashSpec) (sk : PhysicalSketch).

Abbreviation history := (built (λ s, QueryState.build sk h = Ok s)
  (λ s (u : Item) s', u64_ok u.1.2 ∧ QueryState.update fuel s u.1.1 u.1.2 u.2 = Ok s')
  (λ s t s', QueryState.merge_from fuel s t = (Ok tt, s'))).

Lemma merge_part_ok {A} (wrap : A → QueryState) old (m : res A) s :
  merge_part wrap old m = (Ok tt, s) → ∃ a, m = Ok a ∧ s = wrap a.
Proof using. destruct m; cbn; intros [= <-]. by eexists. Qed.

Lemma sums_brackets capacity ss l : sums capacity h ss l → brackets capacity ss l.
Proof using.
  intros Hs Ht key. destruct (sums_bounds capacity h ss l Hs Ht) as [_ H].
  destruct (H key) as (o & Ho & Hk). exists o. split; [done|]. destruct o; [apply Hk|done].
Qed.

(** The sketches inside a state. *)
Definition heavy_part (s : QueryState) : option SpaceSaving.SpaceSaving :=
  match s with QHeavyHitters ss => Some ss | _ => None end.
Definition counter_part (s : QueryState) : option CountMin.CountMinSketch :=
  match s with QCounter cm _ => Some cm | _ => None end.
Definition keys_part (s : QueryState) : option SpaceSaving.SpaceSaving :=
  match s with QCounter _ ss => Some ss | _ => None end.
Definition global_part (s : QueryState) : option Hll.HyperLogLog :=
  match s with QDistinctGlobal hll => Some hll | _ => None end.
Definition head_part (s : QueryState) : option SpaceSaving.SpaceSaving :=
  match s with QEntropy ss _ => Some ss | _ => None end.
Definition tail_part (s : QueryState) : option Hll.HyperLogLog :=
  match s with QEntropy _ hll => Some hll | _ => None end.

Lemma one_u64 : u64_ok 1.
Proof using. by range_tac. Qed.

(** One step of a state is one step of its part. *)
Ltac part_init := let H := fresh in
  intros ? H; cbn in H; bind_inv; simplify_eq; eexists; (split; [reflexivity|]); done.
Ltac part_update := let a := fresh in let Ht := fresh in let Hw := fresh in let H := fresh in
  intros a ? ? ? Ht [Hw H]; destruct a; try discriminate Ht; cbn in Ht, Hw, H;
  bind_inv; simplify_eq; eexists; (split; [reflexivity|]);
  first [done | split; first [done | apply one_u64]].
Ltac part_merge :=
  let a := fresh in let b := fresh in let H1 := fresh in let H2 := fresh in let H := fresh in
  intros a ? b ? ? H1 H2 H; destruct a, b; try discriminate; cbn in H1, H2, H;
  repeat case_match; try discriminate; apply merge_part_ok in H as (? & ? & ->);
  simplify_eq; eexists; (split; [reflexivity|]); done.
Ltac part_tac := apply built_project; [part_init|part_update|part_merge].

Lemma heavy_history capacity s l :
  sk = PSpaceSaving capacity → history s l →
  ∃ ss, heavy_part s = Some ss ∧ built (ss_init capacity h) ss_upd ss_mrg ss (keyed l).
Proof using. intros ->. part_tac. Qed.

Lemma counter_history c width depth cons s l :
  sk = PComposite [PSpaceSaving c; PCountMin width depth cons] → history s l →
  (∃ cm, counter_part s = Some cm ∧
     built (cm_init width depth cons h) cm_upd cm_mrg cm (keyed l)) ∧
  ∃ ss, keys_part s = Some ss ∧ built (ss_init c h) ss_upd ss_mrg ss (keyed l).
Proof using. intros -> H; split; revert s l H; part_tac. Qed.

Lemma global_history precision s l :
  sk = PHyperLogLog precision → history s l →
  ∃ hll, global_part s = Some hll ∧
    built (hl_init precision h) hl_upd hl_mrg hll (snd <$> l).
Proof using. intros ->. part_tac. Qed.

Lemma entropy_history c precision s l :
  sk = PComposite [PSpaceSaving c; PHyperLogLog precision] → history s l →
  (∃ ss, head_part s = Some ss ∧ built (ss_init c h) ss_upd ss_mrg ss (item_counts l)) ∧
  ∃ hll, tail_part s = Some hll ∧ built (hl_init precision h) hl_upd hl_mrg hll (snd <$> l).
Proof using. intros -> H; split; revert s l H; part_tac. Qed.
Lemma quantile_history k s l :
  sk = PKll k → u64_ok k → history s l →
  ∃ kll e, s = QQuantile kll ∧ Kll.history k h kll (values l) e.
Proof using.
  intros -> Hk.
  induction 1 as [s Hi|s l u s' _ (kll & e & -> & H) [_ Hu]|s l t m s' _ (a & e & -> & Ha) _ (b & e' & -> & Hb) Hm].
  - cbn in Hi. bind_inv. simplify_eq. exists x, 0. split; [done|]. by apply Kll.history_new.
  - cbn in Hu. apply bind_ok in Hu as (kll' & Hu & [= <-]). eexists _, _. split; [done|].
    unfold values. rewrite fmap_app. by eapply Kll.history_insert.
  - apply merge_part_ok in Hm as (kll & Hm & ->). eexists _, _. split; [done|]. unfold values.
    rewrite fmap_app. by eapply Kll.history_merge.
Qed.

Lemma canon_perm hll precision (l l' : list Item) :
  l ≡ₚ l' → built (hl_init precision h) hl_upd hl_mrg hll (snd <$> l') →
  Hll.hl_storage hll = Hll.canon precision (Hll.hashes_of h (snd <$> l)).
Proof using.
  intros Hl Hb. apply hl_hist in Hb as (Hp & _ & _ & ->). apply canon_ext; [done|].
  intros x. unfold Hll.hashes_of. by rewrite Hl.
Qed.

(** ** Summaries

    What survives updates, merges and shipping: the state summarises [items], in
    the sense in which each of its sketches summarises a stream. *)
Definition counts_of (width depth : Z) (cu : bool) (cm : CountMin.CountMinSketch)
    (items : list Item) : Prop :=
  ∃ l, keyed items ≡ₚ l ∧ built (cm_init width depth cu h) cm_upd cm_mrg cm l.
Definition registers_of (precision : Z) (hll : Hll.HyperLogLog) (items : list Item) : Prop :=
  ∃ l, items ≡ₚ l ∧ built (hl_init precision h) hl_upd hl_mrg hll (snd <$> l).
Definition ranks_of (k : Z) (kll : Kll.KllSketch) (items : list Item) : Prop :=
  ∃ vs e, values items ≡ₚ vs ∧ Kll.history k h kll vs e.

Definition summary (s : QueryState) (items : list Item) : Prop :=
  match sk, s with
  | PSpaceSaving c, QHeavyHitters ss => sums c h ss (keyed items)
  | PComposite [PSpaceSaving c; PCountMin width depth cu], QCounter cm keys =>
      counts_of width depth cu cm items ∧ sums c h keys (keyed items)
  | PHyperLogLog precision, QDistinctGlobal hll => registers_of precision hll items
  | PComposite [PSpaceSaving c; PHyperLogLog precision], QEntropy ss hll =>
      sums c h ss (item_counts items) ∧ registers_of precision hll items
  | PKll k, QQuantile kll => ranks_of k kll items
  | PHllMap _ _, QDistinctPerKey _ => True
  | _, _ => False
  end.

Lemma built_sums c ss l l' (f : Item → bytes * Z) :
  l ≡ₚ l' → 0 <= c → built (ss_init c h) ss_upd ss_mrg ss (f <$> l) → sums c h ss (f <$> l').
Proof using.
  intros Hl Hc Hb. apply (sums_Permutation _ _ _ (f <$> l)); [by rewrite Hl|].
  by apply ss_hist_sound.
Qed.

Lemma history_summary s (l l' : list Item) :
  supported fuel sk → l ≡ₚ l' → history s l' → (∀ mk pr, sk ≠ PHllMap mk pr) → summary s l.
Proof using.
  intros Hsup Hl Hb Hmap.
  pose proof (λ c E, heavy_history c s l' E Hb) as Hheavy.
  pose proof (λ pr E, global_history pr s l' E Hb) as Hglobal.
  pose proof (λ k E Hk, quantile_history k s l' E Hk Hb) as Hquantile.
  pose proof (λ c w d o E, counter_history c w d o s l' E Hb) as Hcounter.
  pose proof (λ c pr E, entropy_history c pr s l' E Hb) as Hentropy. clear Hb.
  symmetry in Hl. unfold summary.
  destruct sk as [| |c| |pr|mk pr|k|st]; try done; cbn [supported] in *.
  - destruct (Hheavy _ eq_refl) as (ss & Hs & Hss). destruct s; cbn in Hs; simplify_eq.
    exact (built_sums c ss _ _ fst Hl Hsup Hss).
  - destruct (Hglobal _ eq_refl) as (hll & Hs & Hh). destruct s; cbn in Hs; simplify_eq.
    by exists l'.
  - by destruct (Hmap mk pr).
  - destruct (Hquantile _ eq_refl Hsup) as (kll & e & -> & Hh). exists (values l'), e.
    split; [unfold values; by rewrite Hl|done].
  - destruct st as [|[] [|[] [|]]]; try done.
    + destruct Hsup as (Hc & _).
      destruct (Hcounter _ _ _ _ eq_refl) as [(cm & Hs & Hcm) (ss & Hs' & Hss)].
      destruct s; cbn in Hs, Hs'; simplify_eq. split.
      * exists (keyed l'). split; [unfold keyed; by rewrite Hl|done].
      * exact (built_sums _ ss _ _ fst Hl Hc Hss).
    + destruct (Hentropy _ _ eq_refl) as [(ss & Hs & Hss) (hll & Hs' & Hh)].
      destruct s; cbn in Hs, Hs'; simplify_eq. split; [exact (built_sums _ ss _ _ (λ u, (u.2, 1)) Hl Hsup Hss)|].
      by exists l'.
Qed.

Lemma summary_new r :
  supported fuel sk → QueryState.build sk h = Ok r → summary r [].
Proof using.
  intros Hsup Hr.
  assert ((∃ mk pr, sk = PHllMap mk pr) ∨ ∀ mk pr, sk ≠ PHllMap mk pr) as [(mk & pr & E)|E]
    by (destruct sk; eauto).
  - rewrite E in Hr. unfold summary. rewrite E. cbn in Hr. by apply bind_ok in Hr as (m & _ & <-%ok_inj).
  - apply (history_summary r [] [] Hsup); [done|by constructor|done].
Qed.

Lemma registers_merge pr a b a' l m :
  registers_of pr a l → registers_of pr b m → Hll.merge_from a b = Ok a' →
  registers_of pr a' (l ++ m).
Proof using.
  intros (l' & Hl & Ha) (m' & Hm & Hb) Hg. exists (l' ++ m'). split; [by rewrite Hl, Hm|].
  rewrite fmap_app. by eapply built_mrg.
Qed.

Lemma sums_joined {c} {a b a' : SpaceSaving.SpaceSaving} {l m} (f : Item → bytes * Z) :
  sums c h a (f <$> l) → sums c h b (f <$> m) → SpaceSaving.merge_from a b = Ok a' →
  sums c h a' (f <$> l ++ m).
Proof using.
  intros Ha Hb Hg. destruct (sums_merge _ _ _ _ _ _ Ha Hb) as (s & Hs & Hsum).
  rewrite Hg in Hs. apply ok_inj in Hs as <-. by rewrite fmap_app.
Qed.

Lemma summary_merge s t s' l m :
  summary s l → summary t m → QueryState.merge_from fuel s t = (Ok tt, s') → summary s' (l ++ m).
Proof using.
  intros Hs Ht Hm. unfold summary in *.
  destruct sk as [| |c| |pr|mk pr|k|st]; try done;
    [..|destruct st as [|[] [|[] [|]]]; try done];
    destruct s as [a|a ka|a|a|a|a ha], t as [b|b kb|b|b|b|b hb]; try done; cbn in Hm.
  - apply merge_part_ok in Hm as (a' & Hm & ->). by eapply (sums_joined fst).
  - apply merge_part_ok in Hm as (a' & Hm & ->). by eapply registers_merge.
  - by apply merge_part_ok in Hm as (a' & Hm & ->).
  - apply merge_part_ok in Hm as (a' & Hm & ->). destruct Hs as (vs & e & Hl & Ha), Ht as (vs' & e' & Hl' & Hb).
    eexists (vs ++ vs'), _. split; [unfold values; rewrite fmap_app; by f_equiv|]. by eapply Kll.history_merge.
  - destruct (CountMin.merge_from a b) as [a'| |] eqn:Hc; [|done..].
    apply merge_part_ok in Hm as (k' & Hm & ->). destruct Hs as [(l' & Hl & Ha) Hk], Ht as [(m' & Hm' & Hb) Hk'].
    split; [|by eapply (sums_joined fst)]. exists (l' ++ m').
    split; [unfold keyed; rewrite fmap_app; by f_equiv|]. by eapply built_mrg.
  - destruct (SpaceSaving.merge_from a b) as [a'| |] eqn:Hc; [|done..].
    apply merge_part_ok in Hm as (k' & Hm & ->). destruct Hs as [Hs Hr], Ht as [Ht Hr'].
    split; [by eapply (sums_joined (λ u, (u.2, 1)))|by eapply registers_merge].
Qed.

Lemma summary_Permutation s l l' : l ≡ₚ l' → summary s l → summary s l'.
Proof using.
  intros Hl Hs. unfold summary in *.
  assert (keyed l ≡ₚ keyed l' ∧ item_counts l ≡ₚ item_counts l' ∧ values l ≡ₚ values l')
    as (Hk & Hi & Hv) by (unfold keyed, item_counts, values; by rewrite Hl).
  assert (∀ pr hll, registers_of pr hll l → registers_of pr hll l') as Hr.
  { intros pr hll (m & Hm & Hb). exists m. by rewrite <- Hl. }
  destruct sk as [| |c| |pr|mk pr|k|st]; try done; destruct s; try done.
  - by eapply sums_Permutation.
  - by apply Hr.
  - destruct Hs as (vs & e & Hm & Hb). exists vs, e. by rewrite <- Hv.
  - destruct st as [|[] [|[] [|]]]; try done. destruct Hs as [(m & Hm & Hb) Hs].
    split; [exists m; by rewrite <- Hk|by eapply sums_Permutation].
  - destruct st as [|[] [|[] [|]]]; try done. destruct Hs as [Hs Hg].
    split; [by eapply sums_Permutation|by apply Hr].
Qed.

Lemma registers_canon pr hll items :
  registers_of pr hll items →
  Hll.hl_storage hll = Hll.canon pr (Hll.hashes_of h (snd <$> items)).
Proof using. intros (l & Hl & Hb). by eapply canon_perm. Qed.

Lemma summary_answers r s l :
  supported fuel sk → QueryState.build sk h = Ok r → like fuel r s → summary s l →
  answers fuel h sk s l.
Proof using.
  intros Hsup Hr Hlike Hs. unfold summary in Hs.
  destruct sk as [| |c| |pr|mk pr|k|st]; try done; cbn [answers supported] in *.
  - destruct s; try done. by apply sums_brackets.
  - destruct s; try done. by apply registers_canon.
  - cbn in Hr. apply bind_ok in Hr as (m & Hm & [= <-]). destruct s; try done. destruct Hlike as (Hw & Hbd & (E & _) & _).
    split; [done|]. unfold HllMap.bounded in Hbd. rewrite E in Hbd.
    destruct (HllMap.hm_new_wf fuel mk pr h m (proj1 Hsup) Hm) as (_ & _ & Em & _). by rewrite <- Em.
  - destruct st as [|[] [|[] [|]]]; try done; destruct s; try done; destruct Hs as [H1 H2].
    + destruct Hsup as (Hc & Hw & Hd & Hm). split; [by apply sums_brackets|]. intros Ht key.
      destruct H1 as (l' & Hl & Hcm).
      rewrite (total_of_Permutation _ _ Hl) in Ht. rewrite (weight_of_Permutation key _ _ Hl).
      destruct (cm_bounds _ _ _ h cm l' key Hw Hd Hm Hcm Ht) as (est & He & Hle & _). by exists est.
    + split; [by apply sums_brackets|by apply registers_canon].
Qed.
End guarantees.

(** A state that holds a window's items answers for exactly those items. *)
Lemma good_summary (fuel : nat) p h r s items :
  supported fuel (sketch (physical p)) → QueryState.build (sketch (physical p)) h = Ok r →
  good (WS := QueryState_Window fuel) (like := like fuel) p h r s items →
  summary h (sketch (physical p)) s items.
Proof.
  intros Hsup Hr [Hl (l' & Hp & Hb)].
  assert ((∃ mk pr, sketch (physical p) = PHllMap mk pr) ∨
    ∀ mk pr, sketch (physical p) ≠ PHllMap mk pr) as [(mk & pr & E)|E]
    by (destruct (sketch (physical p)); eauto).
  - unfold summary. rewrite E in *. cbn in Hr. apply bind_ok in Hr as (m & _ & <-%ok_inj).
    by destruct s.
  - by eapply history_summary.
Qed.

Lemma good_answers (fuel : nat) p h r s items :
  supported fuel (sketch (physical p)) → QueryState.build (sketch (physical p)) h = Ok r →
  good (WS := QueryState_Window fuel) (like := like fuel) p h r s items →
  answers fuel h (sketch (physical p)) s items.
Proof.
  intros Hsup Hr Hg. apply (summary_answers _ _ _ r); [done|done|apply Hg|].
  by eapply good_summary.
Qed.
