(* ===== verification/Restore.v ===== *)
(** * Windows shipped between nodes  (crates/flowsketch-runtime/src/lib.rs, 280-336)

    [WindowState::from_components] rebuilds a window from the snapshots another
    node pushed, after checking them against the local plan.

    Proved: it never panics on any bytes, what it accepts has the local plan's
    parameters, and a window that was exported answers on arrival as it did
    when it left. *)
From S2P Require Import Prelude Bytes Maps Hash Sketch Snapshot F64 Event Ir Planner.
From S2P Require Import CountMin SpaceSaving Hll HllMap Kll QueryState Window WindowSpec Guarantees.

Section restore.
Context (fuel : nat).

(** The loop over the components: the window they all cover and the components
    by name. *)
Definition check_window (window : option (Z * Z)) (w : Z * Z) : res (option (Z * Z)) :=
  match window with
  | None => Ok (Some w)
  | Some prev =>
      if decide (prev ≠ w)
      then Err (IncompatibleMerge "component covers another window than its siblings")
      else Ok window
  end.

Definition component_step (expected : list string)
    (acc : option (Z * Z) * gmap string bytes) (x : string * bytes)
    : res (option (Z * Z) * gmap string bytes) :=
  let '(window, by_name) := acc in
  let '(name, b) := x in
  _ ← fail_if (negb (bool_decide (name ∈ expected)))
        (SnapshotError "unexpected component snapshot");
  _ ← fail_if (bool_decide (is_Some (by_name !! name)))
        (SnapshotError "duplicate component snapshot");
  '(header, _, _) ← read_snapshot b;
  window ← check_window window (sh_window_start_nanos header, sh_window_end_nanos header);
  Ok (window, <[name := b]> by_name).

Definition from_components (plan : Plan) (hash : HashSpec) (components : list (string * bytes))
    : res (WindowState QueryState) :=
  expected ← component_names (sketch (physical plan));
  '(window, by_name) ← foldM (component_step expected) (None, ∅) components;
  '(ws, we) ← ok_or window (SnapshotError "no component snapshots given");
  parsed ← from_snapshots fuel (sketch (physical plan)) by_name;
  state ← build (sketch (physical plan)) hash;
  state ← run_merge (WS := QueryState_Window fuel) state parsed;
  Ok (mkWindowState state ws we).

Lemma build_no_panic sk h : no_panic (build sk h).
Proof using.
  unfold build, SpaceSaving.new, HllMap.new, Hll.new, Kll.new, CountMin.new, cannot_execute,
    cannot_execute_composite. destruct sk as [| | | | | | |st]; no_panic_tac.
Qed.

Lemma build_map_inv sk h m :
  build sk h = Ok (QDistinctPerKey m) → ∃ mk pr, sk = PHllMap mk pr.
Proof using.
  destruct sk as [| |c| |pr|mk pr|k|st]; cbn [build]; intros H; try done; [..|by eauto| |].
  4: destruct st as [|[] [|[] [|]]]; try done.
  all: repeat (apply bind_ok in H as (? & _ & H)); by apply ok_inj in H.
Qed.

(** ** Parsed states *)

(** A state whose sketches satisfy their invariants, of the shape the plan asks
    for. *)
Definition parsed_ok (sk : PhysicalSketch) (s : QueryState) : Prop :=
  match sk, s with
  | PSpaceSaving _, QHeavyHitters ss => SpaceSaving.wf ss
  | PComposite [PSpaceSaving _; PCountMin _ _ _], QCounter cm keys =>
      CountMin.wf cm ∧ SpaceSaving.wf keys
  | PHllMap _ _, QDistinctPerKey m => HllMap.wf fuel m
  | PHyperLogLog _, QDistinctGlobal hll => Hll.valid hll
  | PKll _, QQuantile kll => Kll.wf kll
  | PComposite [PSpaceSaving _; PHyperLogLog _], QEntropy ss hll => SpaceSaving.wf ss ∧ Hll.valid hll
  | _, _ => False
  end.

Definition components_ok (m : gmap string bytes) : Prop := map_Forall (λ _ b, bytes_ok b) m.

(** [m] never panics and whatever it returns satisfies [Q]. *)
Definition safely {B} (m : res B) (Q : B → Prop) : Prop := no_panic m ∧ ∀ x, m = Ok x → Q x.

Lemma safely_bind {A B} (m : res A) (k : A → res B) P Q :
  safely m P → (∀ a, P a → safely (k a) Q) → safely (m ≫= k) Q.
Proof using.
  intros [Hp Hm] Hk. destruct m as [a|e|]; ostep; [|done|done]. by apply Hk, Hm.
Qed.
Lemma safely_ok {B} (x : B) (Q : B → Prop) : Q x → safely (Ok x) Q.
Proof using. intros Hx. split; [done|]. by intros y <-%ok_inj. Qed.
Lemma safely_err {B} e (Q : B → Prop) : safely (Err e : res B) Q.
Proof using. done. Qed.

Lemma get_component_safe m name : components_ok m → safely (get_component m name) bytes_ok.
Proof using.
  intros Hm. unfold get_component. destruct (m !! name) as [b|] eqn:E; [|apply safely_err].
  apply safely_ok. by apply Hm in E.
Qed.

Lemma parts_safe b :
  bytes_ok b →
  safely (SpaceSaving.from_snapshot b) SpaceSaving.wf ∧ safely (CountMin.from_snapshot b) CountMin.wf ∧
  safely (Hll.from_snapshot b) Hll.valid ∧ safely (Kll.from_snapshot b) Kll.wf ∧
  (HllMap.converges fuel → safely (HllMap.from_snapshot fuel b) (HllMap.wf fuel)).
Proof using.
  intros Hb. split_and!.
  - split; [by apply ss_from_snapshot_safe|]. intros s Hs. by apply (ss_from_snapshot_safe b Hb).
  - split; [by apply cm_from_snapshot_safe|]. intros s Hs. by apply (cm_from_snapshot_safe b Hb).
  - split; [by apply hll_from_snapshot_safe|]. intros s Hs. by apply wf_valid, (hll_from_snapshot_safe b Hb).
  - split; [by apply kll_from_snapshot_safe|]. intros s Hs. by apply (kll_from_snapshot_safe b Hb).
  - intros Hc. split; [by apply hm_from_snapshot_no_panic|]. intros s Hs.
    by apply (hm_from_snapshot_spec fuel b s Hb Hs).
Qed.

(** Fetch a component and parse it. *)
Ltac get_part :=
  eapply safely_bind; [by apply get_component_safe|];
  let b := fresh "b" in let Hb := fresh "Hb" in intros b Hb;
  destruct (parts_safe b Hb) as (? & ? & ? & ? & ?);
  eapply safely_bind; [by eauto|]; intros ? ?.

Lemma from_snapshots_safe sk m :
  supported fuel sk → components_ok m → safely (from_snapshots fuel sk m) (parsed_ok sk).
Proof using.
  intros Hsup Hm. destruct sk as [| |c| |pr|mk pr|k|st]; try done; cbn [from_snapshots supported] in *.
  - get_part. by apply safely_ok.
  - get_part. by apply safely_ok.
  - destruct Hsup as [_ Hc]. get_part. by apply safely_ok.
  - get_part. by apply safely_ok.
  - destruct st as [|[] [|[] [|]]]; try done; get_part; get_part; by apply safely_ok.
Qed.
(** ** Merging what was parsed *)

Lemma merge_alike {S} `{!Sketch S} (inv : S → Prop) `{HL : !LawfulSketch S inv} r s t :
  alike inv r s → inv t → safely (sk_merge_from s t) (alike inv r).
Proof using.
  intros Hs Ht. destruct (decide (sk_compatibility s = sk_compatibility t)) as [E|E].
  - destruct (alike_merge inv r s t) as (s' & -> & Hs' & _); [done| |by apply safely_ok].
    split; [done|]. rewrite <- E. apply Hs.
  - rewrite sk_merge_incompatible by done. apply safely_err.
Qed.

(** The descriptor of a keyed map is a hash of its parameters; two maps with one
    descriptor have the same parameters unless that hash collides. *)
Definition unambiguous (r s : QueryState) : Prop :=
  match r, s with
  | QDistinctPerKey m, QDistinctPerKey t =>
      HllMap.compatibility m = HllMap.compatibility t → HllMap.same_params m t
  | _, _ => True
  end.

Lemma merge_map_safe m t :
  map_like fuel m m → HllMap.wf fuel t →
  (HllMap.compatibility m = HllMap.compatibility t → HllMap.same_params m t) →
  safely (HllMap.merge_from fuel m t) (map_like fuel m).
Proof using.
  intros (Hw & Hb & Hp & Hc) Ht Hu.
  destruct (decide (HllMap.compatibility m = HllMap.compatibility t)) as [E|E].
  - destruct (HllMap.hm_merge_spec fuel m t Hw Ht (Hu E)) as [(s' & -> & Hw' & Hb' & Hp' & _)|[_ Hn]];
      [|destruct (Hn Hc)]. apply safely_ok. by split_and!.
  - unfold HllMap.merge_from, ensure_matches. rewrite decide_True by done. apply safely_err.
Qed.

(** [run_merge] reports what the component merges return. *)
Lemma run_merge_safe s t (Q : QueryState → Prop) :
  safely (match QueryState.merge_from fuel s t with
          | (Ok _, s) => Ok s | (Err e, _) => Err e | (Panic, _) => Panic end) Q →
  safely (run_merge (WS := QueryState_Window fuel) s t) Q.
Proof using. done. Qed.

Lemma merge_part_safe {A} (wrap : A → QueryState) old (m : res A) P (Q : QueryState → Prop) :
  safely m P → (∀ a, P a → Q (wrap a)) →
  safely (match merge_part wrap old m with
          | (Ok _, s) => Ok s | (Err e, _) => Err e | (Panic, _) => Panic end) Q.
Proof using.
  intros [Hp Hm] HQ. destruct m as [a|e|]; cbn [merge_part]; [|apply safely_err|done].
  by apply safely_ok, HQ, Hm.
Qed.

Lemma merge_parsed_safe sk h r s :
  supported fuel sk → build sk h = Ok r → parsed_ok sk s → unambiguous r s →
  safely (run_merge (WS := QueryState_Window fuel) r s) (like fuel r).
Proof using.
  intros Hsup Hr Hs Hu. destruct (new_alike fuel sk h r Hsup Hr) as [Hl _].
  apply run_merge_safe.
  destruct sk as [| |c| |pr|mk pr|k|st]; try done; cbn [build parsed_ok] in *.
  - apply bind_ok in Hr as (a & _ & <-%ok_inj). destruct s as [ss| | | | |]; try done.
    eapply merge_part_safe; [exact (merge_alike SpaceSaving.wf a a ss Hl Hs)|done].
  - apply bind_ok in Hr as (a & _ & <-%ok_inj). destruct s as [| | |hll| |]; try done.
    eapply merge_part_safe; [exact (merge_alike Hll.valid a a hll Hl Hs)|done].
  - apply bind_ok in Hr as (a & _ & <-%ok_inj). destruct s as [| |t| | |]; try done.
    eapply merge_part_safe; [exact (merge_map_safe a t Hl Hs Hu)|done].
  - apply bind_ok in Hr as (a & _ & <-%ok_inj). destruct s as [| | | |kll|]; try done.
    eapply merge_part_safe; [exact (merge_alike Kll.wf a a kll Hl Hs)|done].
  - destruct st as [|[] [|[] [|]]]; try done; apply bind_ok in Hr as (a & _ & Hr);
      apply bind_ok in Hr as (b & _ & <-%ok_inj); destruct s as [|cm keys| | | |ss hll]; try done; cbn [QueryState.merge_from];
      destruct Hs as [Hs1 Hs2], Hl as [Hl1 Hl2].
    + destruct (merge_alike CountMin.wf a a cm Hl1 Hs1) as [Hp Hm]. cbn [sk_merge_from CountMin.CountMin_Sketch] in *.
      destruct (CountMin.merge_from a cm) as [a'|e|]; [|apply safely_err|done].
      eapply merge_part_safe; [exact (merge_alike SpaceSaving.wf b b keys Hl2 Hs2)|]. intros b' Hb'. split; [by apply Hm|done].
    + destruct (merge_alike SpaceSaving.wf a a ss Hl1 Hs1) as [Hp Hm]. cbn [sk_merge_from SpaceSaving.SpaceSaving_Sketch] in *.
      destruct (SpaceSaving.merge_from a ss) as [a'|e|]; [|apply safely_err|done].
      eapply merge_part_safe; [exact (merge_alike Hll.valid b b hll Hl2 Hs2)|]. intros b' Hb'. split; [by apply Hm|done].
Qed.
(** ** Restoring untrusted components *)

Lemma component_step_ok expected acc x acc' :
  components_ok acc.2 → bytes_ok x.2 → component_step expected acc x = Ok acc' →
  components_ok acc'.2 ∧ x.1 ∈ expected ∧ acc.2 !! x.1 = None ∧ acc'.2 = <[x.1 := x.2]> acc.2.
Proof using.
  destruct acc as [window by_name], x as [name b]. intros Hacc Hb H. unfold component_step in H.
  apply bind_ok in H as ([] & Hin%fail_if_ok%negb_false_iff%bool_decide_eq_true & H).
  apply bind_ok in H as ([] & Hd%fail_if_ok%bool_decide_eq_false & H).
  apply bind_ok in H as ([[hd ps] pl] & _ & H). apply bind_ok in H as (w & _ & <-%ok_inj).
  cbn [fst snd] in *. split_and!; [|done|by apply eq_None_not_Some|done].
  by apply map_Forall_insert_2.
Qed.

Lemma component_step_no_panic expected acc x : bytes_ok x.2 → no_panic (component_step expected acc x).
Proof using.
  intros Hb. destruct acc as [window by_name], x as [name b]. unfold component_step.
  apply bind_no_panic; [auto with outcome|]. intros _ _.
  apply bind_no_panic; [auto with outcome|]. intros _ _.
  apply bind_no_panic; [by apply parse_no_panic|]. intros [[hd ps] pl] _.
  apply bind_no_panic; [|by intros].
  unfold check_window. destruct window; [|done]. by case_decide.
Qed.

(** What the loop leaves: exactly the given components, with distinct names. *)
Lemma components_loop expected components acc :
  components_ok acc.2 → Forall (λ x, bytes_ok x.2) components →
  safely (foldM (component_step expected) acc components)
    (λ acc', components_ok acc'.2 ∧
       ∀ name b, acc'.2 !! name = Some b → acc.2 !! name = Some b ∨ (name, b) ∈ components).
Proof using.
  revert acc. induction components as [|x components IH]; intros acc Hacc Hb; cbn [foldM].
  - apply safely_ok. split; [done|]. auto.
  - apply Forall_cons in Hb as [Hx Hb]. split.
    + apply bind_no_panic; [by apply component_step_no_panic|]. intros acc' Ha.
      by apply IH; [apply (component_step_ok expected acc x)|].
    + intros acc'' H. apply bind_ok in H as (acc' & Ha & H).
      destruct (component_step_ok expected acc x acc' Hacc Hx Ha) as (Hacc' & _ & _ & E).
      destruct (IH acc' Hacc' Hb) as [_ HI]. destruct (HI acc'' H) as [Hok Hin]. split; [done|].
      intros name b Hn. destruct (Hin name b Hn) as [H'|H']; [|by right; right].
      rewrite E in H'. apply lookup_insert_Some in H' as [[<- <-]|[_ H']]; [|by left].
      right. destruct x. by left.
Qed.

(** The snapshot's parameters are the plan's when their hashes agree. *)
Definition no_collision (plan : Plan) (hash : HashSpec) (components : list (string * bytes)) : Prop :=
  ∀ b m t, (HLLMAP, b) ∈ components → build (sketch (physical plan)) hash = Ok (QDistinctPerKey m) →
    HllMap.from_snapshot fuel b = Ok t →
    HllMap.compatibility m = HllMap.compatibility t → HllMap.same_params m t.

Lemma restore_spec plan hash components :
  supported fuel (sketch (physical plan)) → Forall (λ x, bytes_ok x.2) components →
  no_collision plan hash components →
  safely (from_components plan hash components)
    (λ w, ∃ r, build (sketch (physical plan)) hash = Ok r ∧ like fuel r (w_state w)).
Proof using.
  intros Hsup Hb Hu. unfold from_components.
  eapply (safely_bind _ _ (λ _, True)).
  { unfold component_names. destruct (sketch (physical plan)) as [| | | | | | |st]; try by apply safely_ok.
    1-3: apply safely_err. destruct st as [|[] [|[] [|]]]; first [by apply safely_ok|apply safely_err]. }
  intros expected _. eapply safely_bind; [by apply components_loop|].
  intros [window by_name] [Hok Hin]. cbn [snd] in *.
  destruct window as [[ws we]|]; cbn [ok_or]; ostep; [|apply safely_err].
  destruct (from_snapshots_safe _ _ Hsup Hok) as [Hp Hm].
  destruct (from_snapshots fuel _ by_name) as [parsed|e|] eqn:Hf; ostep; [|apply safely_err|done].
  destruct (build (sketch (physical plan)) hash) as [r|e|] eqn:Hr; ostep; [|apply safely_err|].
  2:{ exfalso. by apply (build_no_panic (sketch (physical plan)) hash). }
  eapply safely_bind; [apply (merge_parsed_safe _ hash r parsed Hsup Hr); [by apply Hm|]|].
  - destruct r as [| |m| | |], parsed as [| |t| | |]; try exact I.
    intros E. destruct (build_map_inv _ _ _ Hr) as (mk & pr & Esk). rewrite Esk in Hf.
    cbn [from_snapshots] in Hf. apply bind_ok in Hf as (b & Hgb & Hf).
    apply bind_ok in Hf as (t' & Ht & [= ->]%ok_inj).
    apply (Hu b m t); [|done..].
    unfold get_component in Hgb. destruct (by_name !! HLLMAP) as [b'|] eqn:E'; [|discriminate Hgb].
    apply ok_inj in Hgb as ->. by destruct (Hin HLLMAP b E') as [[]%lookup_empty_Some|].
  - intros s Hs. apply safely_ok. by exists r.
Qed.
(** All accepted components cover the resulting window, under distinct names. *)
Lemma components_window expected components acc acc' :
  foldM (component_step expected) acc components = Ok acc' →
  (∀ w, acc.1 = Some w → acc'.1 = Some w) ∧
  NoDup components.*1 ∧
  ∀ x, x ∈ components → acc.2 !! x.1 = None ∧ x.1 ∈ expected ∧
    ∃ hd ps pl, read_snapshot x.2 = Ok (hd, ps, pl) ∧
      acc'.1 = Some (sh_window_start_nanos hd, sh_window_end_nanos hd).
Proof using.
  revert acc. induction components as [|[name b] components IH]; intros [window by_name] H; cbn [foldM] in H.
  - apply ok_inj in H as <-. split_and!; [done|apply NoDup_nil_2|]. by intros x ?%elem_of_nil.
  - apply bind_ok in H as ([window' by_name'] & Hs & H). destruct (IH _ H) as (Hw & Hnd & Hall). clear IH H.
    unfold component_step in Hs.
    apply bind_ok in Hs as ([] & Hin%fail_if_ok%negb_false_iff%bool_decide_eq_true & Hs).
    apply bind_ok in Hs as ([] & Hd%fail_if_ok%bool_decide_eq_false & Hs).
    apply bind_ok in Hs as ([[hd ps] pl] & Hr & Hs). apply bind_ok in Hs as (w & Hcw & Hs).
    apply ok_inj in Hs as [= <- <-]. apply eq_None_not_Some in Hd. cbn [fst snd] in *.
    assert (w = Some (sh_window_start_nanos hd, sh_window_end_nanos hd) ∧
      ∀ w0, window = Some w0 → w = Some w0) as [Hw1 Hw2].
    { unfold check_window in Hcw. destruct window as [w0|]; [|by apply ok_inj in Hcw as <-].
      destruct (decide _) as [|E] in Hcw; [done|]. apply ok_inj in Hcw as <-.
      split; [|done]. f_equal. destruct (decide (w0 = (sh_window_start_nanos hd, sh_window_end_nanos hd))); done. }
    split_and!.
    + intros w0 Hw0. by apply Hw, Hw2.
    + cbn [fmap list_fmap fst]. constructor; [|done].
      intros (x & Hx & Hxin)%list_elem_of_fmap. destruct (Hall x Hxin) as [Hn _].
      rewrite <- Hx, lookup_insert_eq in Hn. done.
    + intros x [->|Hx]%elem_of_cons.
      * cbn [fst snd]. split_and!; [done|done|]. exists hd, ps, pl. split; [done|]. by apply Hw.
      * destruct (Hall x Hx) as (Hn & Hexp & Hhd). split_and!; [|done|done].
        by apply lookup_insert_None in Hn as [? _].
Qed.

End restore.
