(* ===== verification/Sliding.v ===== *)
(** * Theorems about windowed queries

    Over any sequence of events, watermarks, final flushes and drains: the
    implementation behaves like the abstract machine of WindowSpec, its memory
    stays bounded, every closed window is exactly the sliding window of its end,
    no window with events is skipped, and a drained query always accepts the
    next operation. *)
From S2P Require Import Prelude Bytes Hash Sketch F64 Event Ir Planner SpaceSaving QueryState Window.
From S2P Require Import WindowSpec.

(** ** Completed windows are only ever appended *)

Section grows.
Context {S : Type} `{WS : !WindowSketch S}.
Implicit Types (q : RunningQuery S).

Definition grows {B} (m : stm (RunningQuery S) SketchError B) : Prop :=
  ∀ q, emitted q `prefix_of` emitted (m q).2.

Lemma grows_bind {B C} (m : stm (RunningQuery S) SketchError B) (f : B → stm _ SketchError C) :
  grows m → (∀ b, grows (f b)) → grows (m ≫= f).
Proof.
  intros Hm Hf q. rewrite stm_bind_eq. specialize (Hm q). destruct (m q) as [[b|e|] q1]; try done.
  etrans; [exact Hm|apply Hf].
Qed.

Lemma grows_pure {B} (m : stm (RunningQuery S) SketchError B) : (∀ q, (m q).2 = q) → grows m.
Proof. intros H q. by rewrite H. Qed.

Lemma grows_modify (f : RunningQuery S → RunningQuery S) :
  (∀ q, emitted q `prefix_of` emitted (f q)) → grows (modify f).
Proof. intros H q. apply H. Qed.

Create HintDb grows discriminated.
Ltac grows_tac :=
  repeat first
    [ apply grows_bind; [|intros ?]
    | apply grows_pure; intros ?; reflexivity
    | apply grows_modify; intros ?; first [reflexivity | by eexists]
    | match goal with
      | |- grows (if ?b then _ else _) => destruct b
      | |- grows (match ?x with _ => _ end) => destruct x
      end ].

Lemma grows_push start : grows (push_bucket start).
Proof. grows_tac. Qed.
#[local] Hint Resolve grows_push : grows.

Lemma grows_one : grows advance_one.
Proof. grows_tac. Qed.
#[local] Hint Resolve grows_one : grows.

Lemma grows_repeat n : grows (repeat_m n advance_one).
Proof. induction n; cbn [repeat_m]; grows_tac; auto with grows. Qed.

Lemma grows_loop n target : grows (advance_loop n target).
Proof. induction n; cbn [advance_loop]; grows_tac; auto with grows. Qed.

Lemma grows_rebuild_loop n start target : grows (rebuild_loop n start target).
Proof. revert start. induction n; intros start; cbn [rebuild_loop]; grows_tac; auto with grows. Qed.
#[local] Hint Resolve grows_repeat grows_loop grows_rebuild_loop : grows.

Lemma grows_advance target : grows (advance_to_bucket target).
Proof. unfold advance_to_bucket. grows_tac; auto with grows. Qed.
#[local] Hint Resolve grows_advance : grows.

Lemma grows_process e : grows (process e).
Proof. unfold process. grows_tac; auto with grows. Qed.
End grows.

(** ** Sliding windows of the abstract machine *)

Section sliding.
Context (p : Plan).
Abbreviation sl := (slide_nanos (window (query p))).
Abbreviation rg := (window_buckets (physical p)).
Context (Hsl : 0 < sl) (Hrg : 1 <= rg).
Implicit Types (A : Spec) (log : Log).

(** The ring holds everything that is not older than one window size. *)
Definition spec_inv A : Prop :=
  match sp_ring A with
  | None => sp_log A = []
  | Some (front, back) => ∃ first, Forall (λ x, first <= x.1 <= back) (sp_log A) ∧
      front = Z.max first (back - sl * (rg - 1)) ∧ first <= back
  end.

Lemma spec_inv_advance A target : spec_inv A → spec_inv (spec_advance sl rg target A).
Proof using Hsl Hrg.
  unfold spec_inv, spec_advance. destruct (sp_ring A) as [[front back0]|] eqn:E.
  - intros (first & Hl & -> & Hf). destruct (Z.leb_spec target back0); [rewrite E; by exists first|].
    cbn. exists first. split; [|lia]. eapply Forall_impl; [exact Hl|]. cbn. lia.
  - cbn. intros ->. exists target. split; [constructor|]. nia.
Qed.

Lemma spec_inv_log A start u :
  spec_inv A → (∀ front back0, sp_ring A = Some (front, back0) → start <= back0) →
  spec_inv (spec_log start u A).
Proof using.
  unfold spec_inv, spec_log. destruct (sp_ring A) as [[front back0]|] eqn:E; [|by rewrite E].
  intros (first & Hl & Hf & Hfb) Hs. specialize (Hs _ _ eq_refl).
  destruct (Z.ltb_spec start front); cbn; rewrite ?E; exists first; [done|].
  split; [|done]. apply Forall_app. split; [done|]. apply Forall_singleton. cbn. lia.
Qed.

Lemma spec_inv_effect op A : spec_inv A → spec_inv (op_effect p op A).
Proof using Hsl Hrg.
  intros HA. destruct op as [e|ts| |]; cbn [op_effect].
  - destruct (accepts p e); [|done]. unfold spec_process.
    apply spec_inv_log; [by apply spec_inv_advance|].
    destruct (spec_advance_ring p A (start_of p (ts_nanos e))) as (f & b & E & Hle).
    intros front back0 E'. rewrite E in E'. by injection E' as <- <-.
  - by apply spec_inv_advance.
  - unfold spec_inv, spec_finish in *. destruct (sp_ring A) as [[front back0]|] eqn:E; [done|by rewrite E].
  - done.
Qed.

Lemma spec_inv_op op A : spec_inv A → spec_inv (spec_op p op A).2.
Proof using Hsl Hrg. intros HA. unfold spec_op. case_match; [done|by apply spec_inv_effect]. Qed.

Lemma spec_inv_ops ops A : spec_inv A → spec_inv (spec_ops p ops A).2.
Proof using Hsl Hrg.
  revert A. induction ops as [|op ops IH]; intros A HA; [done|]. cbn [spec_ops].
  pose proof (spec_inv_op op A HA) as HA'. destruct (spec_op p op A) as [x A'].
  specialize (IH A' HA'). by destruct (spec_ops p ops A').
Qed.

Lemma in_window_from log first a b :
  Forall (λ x, first <= x.1) log → in_window log (Z.max first a) b = in_window log a b.
Proof using.
  intros Hl. unfold in_window. f_equal. induction Hl as [|x log Hx _ IH]; [done|].
  rewrite !filter_cons, IH. repeat case_decide; try done; lia.
Qed.

(** Every window the machine closes is the sliding window of its end. *)
Lemma window_at_exact A front back0 i :
  spec_inv A → sp_ring A = Some (front, back0) → 1 <= i →
  (window_at sl rg (sp_log A) front back0 i).2 =
    in_window (sp_log A) (back0 + sl * i - sl * rg) (back0 + sl * i).
Proof using Hsl Hrg.
  unfold spec_inv. intros HA E Hi. rewrite E in HA. destruct HA as (first & Hl & -> & Hf).
  unfold window_at. cbn [snd]. assert (sl <= sl * i) by nia.
  rewrite <- (in_window_from _ first (back0 + sl * i - sl * rg)).
  - f_equal. lia.
  - eapply Forall_impl; [exact Hl|]. cbn. lia.
Qed.

(** A window end that is skipped has no events in its window. *)
Lemma window_covered A front back0 target stop :
  spec_inv A → sp_ring A = Some (front, back0) → back0 mod sl = 0 → stop mod sl = 0 →
  back0 < stop <= target →
  (∃ i, i ∈ seqZ 1 (spec_closed sl rg A target) ∧ stop = back0 + sl * i) ∨
  in_window (sp_log A) (stop - sl * rg) stop = [].
Proof using Hsl Hrg.
  unfold spec_inv, spec_closed. intros HA E Hb Hs Hst. rewrite E in *.
  destruct HA as (first & Hl & _ & _). rewrite (proj2 (Z.leb_gt _ _)) by lia.
  apply Z.mod_divide in Hb as [b ->], Hs as [s ->]; try lia.
  assert (b < s) by nia.
  assert (s - b <= (target - b * sl) / sl) by (apply Z.div_le_lower_bound; lia).
  destruct (Z.le_gt_cases (s - b) rg).
  - left. exists (s - b). rewrite elem_of_seqZ. lia.
  - right. apply in_window_past. eapply Forall_impl; [exact Hl|]. cbn. nia.
Qed.
End sliding.

(** ** The theorems *)

Section theorems.
Context {S : Type} `{WS : !WindowSketch S} {supported : PhysicalSketch → Prop}
  {like : S → S → Prop} {LW : LawfulWindow S supported like}.
Context (p : Plan) (h : HashSpec) (r : S).
Context (Hp : plan_ok supported p) (Hr : ws_build (sketch (physical p)) h = Ok r).
Implicit Types (q : RunningQuery S) (ops : list Op).
Abbreviation sl := (slide_nanos (window (query p))).
Abbreviation rg := (window_buckets (physical p)).

(** The event time an operation advances the query to. *)
Definition op_target (op : Op) : option Z :=
  match op with
  | OpEvent e => if accepts p e then Some (start_of p (ts_nanos e)) else None
  | OpAdvance ts => Some (start_of p ts)
  | OpFinish | OpDrain => None
  end.

(** [C5] For any sequence of events, watermarks, final flushes and drains, the
    windowed query returns exactly what the abstract machine returns, success or
    backpressure, never panics and never fails otherwise, and ends in a state
    that represents the abstract one: every open bucket and every completed
    window holds the sketch of precisely the logged events of its time range. *)
Theorem window_refinement ops q0 :
  rq_new p h = Ok q0 → Forall op_ok ops →
  (run_ops ops q0).1 = (spec_ops p ops spec_new).1 ∧
  represents (like := like) p h r (run_ops ops q0).2 (spec_ops p ops spec_new).2.
Proof using LW Hp Hr.
  intros Hq Hops. apply (run_ops_spec p h r Hp Hr); [|done]. by apply (new_represents p h r Hp).
Qed.

Lemma reached ops q0 :
  rq_new p h = Ok q0 → Forall op_ok ops →
  represents (like := like) p h r (run_ops ops q0).2 (spec_ops p ops spec_new).2 ∧
  spec_inv p (spec_ops p ops spec_new).2.
Proof using LW Hp Hr.
  intros Hq Hops. destruct (po_slide _ _ Hp), (po_ring _ _ Hp). split.
  - apply (run_ops_spec p h r Hp Hr); [|done]. by apply (new_represents p h r Hp).
  - by apply spec_inv_ops.
Qed.

(** The memory of a query is bounded by its plan: at most [window_buckets]
    open buckets, whose starts are consecutive multiples of the slide, and at
    most [pending_window_capacity] completed windows. *)
Lemma window_memory_bounded ops q0 :
  rq_new p h = Ok q0 → Forall op_ok ops →
  let q := (run_ops ops q0).2 in
  zlen (buckets q) <= rg ∧ zlen (emitted q) <= pending_capacity q ∧
  ∃ front n, start_nanos <$> buckets q = span front n sl ∧ front mod sl = 0.
Proof using LW Hp Hr.
  intros Hq Hops q. destruct (reached ops q0 Hq Hops) as [[Hm Hg _ Hroom _] _]. fold q in Hm, Hg, Hroom.
  pose proof (po_ring _ _ Hp). assert (pending_capacity q = rg) as ->.
  { unfold pending_capacity. rewrite (md_plan _ _ _ Hm). apply Hp. }
  destruct (sp_ring _) as [[front back0]|].
  - destruct Hg as [(n & Hn & _ & Hs) [_ Hf] _ _ _].
    assert (zlen (buckets q) = Z.of_nat (Datatypes.S n)) as ->
      by (unfold zlen; by rewrite <- (length_fmap start_nanos), Hs, length_span).
    split; [lia|]. split; [done|]. by exists front, (Datatypes.S n).
  - destruct Hg as [-> _]. split; [change (0 <= rg); lia|]. split; [done|]. by exists 0, 0%nat.
Qed.

Lemma op_out ops op q0 q' target :
  rq_new p h = Ok q0 → Forall op_ok ops → op_ok op → op_target op = Some target →
  run_op op (run_ops ops q0).2 = (Ok tt, q') →
  let A := (spec_ops p ops spec_new).2 in
  ∃ ws, emitted q' = emitted (run_ops ops q0).2 ++ ws ∧
    Forall2 (window_rep (like := like) p h r) (emitted q') (sp_out (spec_advance sl rg target A)).
Proof using LW Hp Hr.
  intros Hq Hops Hop Ht Hrun A. destruct (reached ops q0 Hq Hops) as [HA _].
  destruct (op_spec p h r Hp Hr _ _ op HA Hop) as (q1 & Hq1 & HA1 & _).
  rewrite Hrun in Hq1. injection Hq1 as Hok <-. unfold spec_op in *. fold A in Hok, HA1.
  destruct (_ <? _); [done|]. cbn [snd] in HA1.
  assert (emitted (run_ops ops q0).2 `prefix_of` emitted q') as [ws Hws].
  { replace q' with (run_op op (run_ops ops q0).2).2 by by rewrite Hrun.
    destruct op; try done; cbn [run_op]; [apply grows_process|].
    apply grows_bind; [by apply grows_pure|]. intros t. apply grows_advance. }
  exists ws. split; [done|]. destruct op as [e|ts| |]; cbn [op_target op_effect] in *; try done.
  - destruct (accepts p e); [|done]. injection Ht as <-. pose proof (rp_out _ _ _ _ _ HA1) as Ho.
    unfold spec_process, spec_log in Ho. repeat case_match; exact Ho.
  - injection Ht as <-. apply (rp_out _ _ _ _ _ HA1).
Qed.

Lemma completed_windows ops op q0 q' b target :
  rq_new p h = Ok q0 → Forall op_ok ops → op_ok op → op_target op = Some target →
  back (run_ops ops q0).2 = Some b →
  run_op op (run_ops ops q0).2 = (Ok tt, q') →
  let log := sp_log (spec_ops p ops spec_new).2 in
  ∃ ws, emitted q' = emitted (run_ops ops q0).2 ++ ws ∧
    (∀ w, w ∈ ws → b < window_end_nanos w <= target ∧
      good (like := like) p h r (w_state w)
        (in_window log (window_end_nanos w - sl * rg) (window_end_nanos w))) ∧
    (∀ stop, b < stop <= target → stop mod sl = 0 →
      (∃ w, w ∈ ws ∧ window_end_nanos w = stop) ∨ in_window log (stop - sl * rg) stop = []).
Proof using LW Hp Hr.
  intros Hq Hops Hop Ht Hb Hrun log. set (A := (spec_ops p ops spec_new).2) in *.
  destruct (op_out ops op q0 q' target Hq Hops Hop Ht Hrun) as (ws & Hws & Hout). fold A in Hout.
  destruct (reached ops q0 Hq Hops) as [HA Hinv]. fold A in HA, Hinv.
  pose proof (rp_out _ _ _ _ _ HA) as Ho. pose proof (rp_ring _ _ _ _ _ HA) as Hg.
  destruct (po_slide _ _ Hp), (po_ring _ _ Hp).
  exists ws. split; [done|]. rewrite Hws in Hout. unfold spec_advance in Hout.
  destruct (sp_ring A) as [[front back0]|] eqn:E; [|by unfold back in Hb; destruct Hg as [Hg _]; rewrite Hg in Hb].
  rewrite (ring_back p h r _ _ _ _ Hg) in Hb. injection Hb as ->.
  pose proof (back_aligned p h r _ _ _ _ Hg) as Hal.
  destruct (Z.leb_spec target b) as [Hle|Hgt].
  { assert (ws = []) as ->.
    { apply Forall2_length in Ho, Hout. rewrite length_app in Hout. apply length_zero_iff_nil. lia. }
    split; [by intros w ?%elem_of_nil|]. intros stop Hs. lia. }
  cbn [sp_out] in Hout. apply Forall2_app_inv in Hout as [_ Hw]; [|by apply Forall2_length in Ho].
  split.
  - intros w (j & Hj)%list_elem_of_lookup. destruct (Forall2_lookup_l _ _ _ _ _ Hw Hj) as (x & Hx & Hrep).
    apply list_lookup_fmap_Some in Hx as (i & -> & Hi%list_elem_of_lookup_2%elem_of_seqZ).
    destruct Hrep as (_ & He & Hgood). cbn [window_at fst snd] in He. rewrite He. split.
    + unfold spec_closed in Hi. rewrite E, (proj2 (Z.leb_gt _ _)) in Hi by lia.
      assert (sl * ((target - b) / sl) <= target - b) by (apply Z.mul_div_le; lia). nia.
    + change (in_window log) with (in_window (sp_log A)).
      rewrite (window_at_exact p) in Hgood by (done || lia). done.
  - intros stop Hst Hsm.
    destruct (window_covered p ltac:(lia) ltac:(lia) A front b target stop Hinv E Hal Hsm Hst)
      as [(i & Hi & ->)|Hnone]; [left|by right].
    apply list_elem_of_lookup in Hi as (j & Hj).
    destruct (Forall2_lookup_r _ _ _ j (window_at sl rg (sp_log A) front b i) Hw) as (w & Hwj & Hrep);
      [by rewrite list_lookup_fmap, Hj|].
    exists w. split; [by eapply list_elem_of_lookup_2|]. by destruct Hrep as (_ & -> & _).
Qed.

(** [C6] Sliding-window semantics: when an event or a watermark moves a query
    from its last bucket [b] to [target], every window it completes holds the
    sketch of exactly the events accepted so far in the [window_buckets] slides
    before the window's end; and every window end in between is either completed
    or has no event in its window, however large the gap. *)
Theorem sliding_windows ops op q0 q' b target :
  rq_new p h = Ok q0 → Forall op_ok ops → op_ok op → op_target op = Some target →
  back (run_ops ops q0).2 = Some b →
  run_op op (run_ops ops q0).2 = (Ok tt, q') →
  let log := sp_log (spec_ops p ops spec_new).2 in
  ∃ ws, emitted q' = emitted (run_ops ops q0).2 ++ ws ∧
    (∀ w, w ∈ ws → b < window_end_nanos w <= target ∧
      good (like := like) p h r (w_state w)
        (in_window log (window_end_nanos w - sl * rg) (window_end_nanos w))) ∧
    (∀ stop, b < stop <= target → stop mod sl = 0 →
      (∃ w, w ∈ ws ∧ window_end_nanos w = stop) ∨ in_window log (stop - sl * rg) stop = []).
Proof using LW Hp Hr. apply completed_windows. Qed.

Lemma drained_out ops A :
  zlen (sp_out (spec_ops p ops A).2) <= rg →
  (spec_ops p (ops ++ [OpDrain]) A).2 = spec_drain (spec_ops p ops A).2.
Proof using.
  revert A. induction ops as [|op ops IH]; intros A Hz; cbn [app spec_ops] in *.
  - unfold spec_op. cbn [op_closes op_effect]. by rewrite (proj2 (Z.ltb_ge _ _)) by (cbn in Hz; lia).
  - destruct (spec_op p op A) as [x A']. specialize (IH A').
    destruct (spec_ops p ops A'), (spec_ops p (ops ++ [OpDrain]) A'). cbn [snd] in *. by apply IH.
Qed.

(** [C23] Backpressure clears: once the completed windows are drained, any next
    event, watermark or final flush is accepted. *)
Theorem drain_unblocks ops op q0 :
  rq_new p h = Ok q0 → Forall op_ok ops → op_ok op →
  ∃ q', run_op op (run_ops (ops ++ [OpDrain]) q0).2 = (Ok tt, q').
Proof using LW Hp Hr.
  intros Hq Hops Hop.
  assert (Forall op_ok (ops ++ [OpDrain])) as Hops' by (apply Forall_app; by split; [|constructor]).
  destruct (reached _ q0 Hq Hops') as [HA _].
  destruct (op_spec p h r Hp Hr _ _ op HA Hop) as (q' & -> & _). exists q'. f_equal.
  destruct (reached ops q0 Hq Hops) as [HA0 _].
  rewrite drained_out by (rewrite <- (rep_out_length p h r _ _ HA0); apply HA0).
  unfold spec_op, spec_drain. cbn [sp_out]. change (zlen []) with 0.
  rewrite (proj2 (Z.ltb_ge _ _)); [done|]. destruct (po_ring _ _ Hp).
  destruct op as [e|ts| |]; cbn [op_closes]; try (destruct (accepts p e));
    try (eapply closed_range; exact Hp); try (case_match; lia); lia.
Qed.
End theorems.

(** ** A concrete query *)

Definition sample_query : LogicalQuery :=
  mkQuery "hot" (mkPredicate None [] [] []) [DstIp] (HeavyHitters Bytes 2) (mkWindow 20 10)
    ErrorSpec_default (mkAlert None None) ExportSpec_default 1073741824.
Definition sample_plan : Plan :=
  run_or (mkPlan sample_query (mkPhysical (PSpaceSaving 1) 2 2 0 0 0 Relative "" []))
    (plan (λ x, x) (λ x, x) (λ _, "") (λ _ _, "") sample_query).
Definition sample_state : QueryState :=
  run_or (QHeavyHitters SpaceSaving.blank) (build (sketch (physical sample_plan)) HashSpec_default).
Definition sample_running : RunningQuery QueryState :=
  run_or (mkRunning sample_plan [] None None HashSpec_default [] [] 0 [] [])
    (rq_new sample_plan HashSpec_default).
Definition event_at (ts : Z) : FlowEvent :=
  {| ts_nanos := ts; src_ip := src_ip sample_event; dst_ip := dst_ip sample_event;
     src_port := 1; dst_port := 2; protocol := TCP; ev_bytes := 100; packets := 1;
     direction := direction sample_event; tcp_flags := 0; interface_index := 0; node_id := 0;
     namespace_id := None; pod_id := None; service_id := None |}.
Definition sample_ops : list Op := [OpEvent (event_at 5); OpEvent (event_at 12); OpEvent (event_at 3);
  OpDrain].

Lemma sample_plan_ok : plan_ok (supported 0) sample_plan.
Proof. split; try (vm_compute; done); by range_tac. Qed.
Lemma sample_build : build (sketch (physical sample_plan)) HashSpec_default = Ok sample_state.
Proof. vm_compute. reflexivity. Qed.
Lemma sample_new : rq_new sample_plan HashSpec_default = Ok sample_running.
Proof. reflexivity. Qed.
Lemma event_at_ok ts : u64_ok ts → event_ok (event_at ts).
Proof. intros Ht. destruct sample_event_ok. split; cbn; try done; by range_tac. Qed.
Lemma sample_ops_ok : Forall op_ok sample_ops.
Proof. repeat constructor; cbn; try done; by range_tac. Qed.

(** The query's state after [sample_ops], and the results on the way. *)
Definition run_sample : list (res unit) * RunningQuery QueryState :=
  run_ops (WS := QueryState_Window 0) sample_ops sample_running.

Lemma window_refinement_witness :
  run_sample.1 = [Ok tt; Ok tt; Ok tt; Ok tt].
Proof.
  destruct (window_refinement (LW := QueryState_Lawful 0) sample_plan HashSpec_default sample_state sample_plan_ok sample_build
    sample_ops sample_running sample_new sample_ops_ok) as [H _].
  etrans; [exact H|]. vm_compute. reflexivity.
Defined.

Lemma window_memory_bounded_witness : zlen (buckets run_sample.2) <= 2.
Proof.
  apply (window_memory_bounded (LW := QueryState_Lawful 0) sample_plan HashSpec_default sample_state sample_plan_ok sample_build
    sample_ops sample_running sample_new sample_ops_ok).
Defined.

(** A gap of ten slides: two windows are completed, the others are empty. *)
Definition sample_far : RunningQuery QueryState :=
  (run_op (WS := QueryState_Window 0) (OpEvent (event_at 118)) run_sample.2).2.

Lemma sliding_windows_witness :
  ∃ ws, emitted sample_far = emitted run_sample.2 ++ ws ∧
    ∀ stop, 10 < stop <= 110 → stop mod 10 = 0 →
      (∃ w, w ∈ ws ∧ window_end_nanos w = stop) ∨
      in_window (sp_log (spec_ops sample_plan sample_ops spec_new).2) (stop - 20) stop = [].
Proof.
  destruct (sliding_windows (LW := QueryState_Lawful 0) sample_plan HashSpec_default sample_state sample_plan_ok sample_build
    sample_ops (OpEvent (event_at 118)) sample_running sample_far 10 110 sample_new sample_ops_ok)
    as (ws & H1 & _ & H2); try (vm_compute; reflexivity).
  - apply event_at_ok. by range_tac.
  - exists ws. split; [exact H1|exact H2].
Defined.

Lemma drain_unblocks_witness :
  ∃ q', run_op (WS := QueryState_Window 0) OpFinish (run_ops (WS := QueryState_Window 0) (sample_ops ++ [OpDrain]) sample_running).2 = (Ok tt, q').
Proof.
  apply (drain_unblocks (LW := QueryState_Lawful 0) sample_plan HashSpec_default sample_state sample_plan_ok sample_build
    sample_ops OpFinish sample_running sample_new sample_ops_ok I).
Defined.
