(* ===== verification/EngineSpec.v ===== *)
(** * What the engine promises

    An engine runs every query as the abstract machine of WindowSpec, and an
    operation either takes effect on all of its queries or leaves all of them,
    and the engine, as they were. *)
From S2P Require Import Prelude Bytes Hash Sketch F64 Event Ir Planner QueryState Emit Window Engine.
From S2P Require Import WindowSpec Sliding.

(** ** The abstract engine: a plan and an abstract machine per query *)

Definition has_room (op : Op) (x : Plan * Spec) : bool :=
  zlen (sp_out x.2) + op_closes x.1 op x.2 <=? window_buckets (physical x.1).
Definition spec_engine_op (op : Op) (l : list (Plan * Spec)) : res unit * list (Plan * Spec) :=
  if forallb (has_room op) l
  then (Ok tt, (λ x, (x.1, op_effect x.1 op x.2)) <$> l)
  else (pending_full, l).
Fixpoint spec_engine_ops (ops : list Op) (l : list (Plan * Spec))
    : list (res unit) * list (Plan * Spec) :=
  match ops with
  | [] => ([], l)
  | op :: ops =>
      let '(x, l) := spec_engine_op op l in
      let '(xs, l) := spec_engine_ops ops l in (x :: xs, l)
  end.

Lemma spec_op_room p op A :
  spec_op p op A = if has_room op (p, A) then (Ok tt, op_effect p op A) else (pending_full, A).
Proof.
  unfold spec_op, has_room. cbn [fst snd].
  destruct (Z.ltb_spec (window_buckets (physical p)) (zlen (sp_out A) + op_closes p op A)),
    (Z.leb_spec (zlen (sp_out A) + op_closes p op A) (window_buckets (physical p))); (done || lia).
Qed.

Section engine_spec.
Context {S : Type} `{WS : !WindowSketch S} {supported : PhysicalSketch → Prop}
  {like : S → S → Prop} {LW : LawfulWindow S supported like}.
Context (h : HashSpec).
Implicit Types (eng : QueryEngine S) (q : RunningQuery S) (x : Plan * Spec).

Definition run_engine_op (op : Op) : stm (QueryEngine S) SketchError unit :=
  match op with
  | OpEvent e => engine_process e
  | OpAdvance ts => engine_advance_to ts
  | OpFinish => engine_finish
  | OpDrain => modify drain_all
  end.
Fixpoint run_engine_ops (ops : list Op) (eng : QueryEngine S)
    : list (res unit) * QueryEngine S :=
  match ops with
  | [] => ([], eng)
  | op :: ops =>
      let '(x, eng) := run_engine_op op eng in
      let '(xs, eng) := run_engine_ops ops eng in (x :: xs, eng)
  end.

(** A query that represents an abstract machine under its plan. *)
Definition tracks q x : Prop :=
  plan_ok supported x.1 ∧ ∃ r, ws_build (sketch (physical x.1)) h = Ok r ∧
    represents (like := like) x.1 h r q x.2.

(** ** One query *)

Lemma tracks_op q x op :
  tracks q x → op_ok op →
  if has_room op x
  then ∃ q', run_op op q = (Ok tt, q') ∧ tracks q' (x.1, op_effect x.1 op x.2)
  else run_op op q = (pending_full, q).
Proof using LW.
  destruct x as [p A]. intros (Hp & r & Hr & HA) Hop.
  destruct (op_spec p h r Hp Hr q A op HA Hop) as (q' & Hq & HA' & Hsame).
  rewrite spec_op_room in *. destruct (has_room op (p, A)).
  - exists q'. split; [done|]. split; [done|]. by exists r.
  - by rewrite Hq, Hsame.
Qed.

(** The check that precedes an operation. *)
Definition preflight (op : Op) q : res unit :=
  match op with
  | OpEvent e => ensure_can_process e q
  | OpAdvance ts => start ← bucket_start_for q ts; ensure_can_advance q start
  | OpFinish => if bool_decide (buckets q = []) then Ok tt else ensure_emit_capacity q 1
  | OpDrain => Ok tt
  end.

Lemma room_pending op x (m : res unit) :
  m = (if window_buckets (physical x.1) <? zlen (sp_out x.2) + op_closes x.1 op x.2
       then pending_full else Ok tt) →
  m = if has_room op x then Ok tt else pending_full.
Proof using.
  intros ->. unfold has_room.
  destruct (Z.ltb_spec (window_buckets (physical x.1)) (zlen (sp_out x.2) + op_closes x.1 op x.2)),
    (Z.leb_spec (zlen (sp_out x.2) + op_closes x.1 op x.2) (window_buckets (physical x.1)));
    (done || lia).
Qed.

Lemma preflight_spec q x op :
  tracks q x → op_ok op → preflight op q = if has_room op x then Ok tt else pending_full.
Proof using.
  destruct x as [p A]. intros (Hp & r & Hr & HA) Hop. apply room_pending. cbn [fst snd] in *.
  pose proof (rp_room _ _ _ _ _ HA) as Hroom. rewrite (rep_out_length p h r q A HA) in Hroom.
  pose proof (rp_made _ _ _ _ _ HA) as Hm.
  assert ((window_buckets (physical p) <? zlen (sp_out A) + 0) = false) as H0
    by (apply Z.ltb_ge; lia).
  destruct op as [e|ts| |]; cbn [preflight op_closes op_ok] in *.
  - unfold ensure_can_process. rewrite (md_plan _ _ _ Hm). fold (accepts p e).
    destruct (accepts p e); [|by rewrite H0].
    rewrite (bucket_start_eq p h Hp _ _ Hm (ok_ts _ Hop)). ostep.
    apply (can_advance_eq (like := like) p h r Hp); [done|]. by apply (start_of_ok p Hp), ok_ts.
  - rewrite (bucket_start_eq p h Hp _ _ Hm Hop). ostep.
    apply (can_advance_eq (like := like) p h r Hp); [done|]. by apply (start_of_ok p Hp).
  - pose proof (rp_ring _ _ _ _ _ HA) as Hg. rewrite <- (rep_out_length p h r q A HA) in *.
    destruct (sp_ring A) as [[front back0]|].
    + rewrite bool_decide_false.
      * rewrite (capacity_ok p h Hp); [done|done|pose proof (po_ring _ _ Hp); lia|done].
      * intros E. apply (ring_back (like := like) p h r) in Hg. unfold back in Hg. by rewrite E in Hg.
    + rewrite bool_decide_true by apply Hg. by rewrite H0.
  - by rewrite H0.
Qed.

(** ** The engine *)

Definition tracks_all eng (l : list (Plan * Spec)) : Prop := Forall2 tracks (queries eng) l.

Lemma check_all_spec op qs l :
  Forall2 tracks qs l → op_ok op →
  check_all (preflight op) qs = if forallb (has_room op) l then Ok tt else pending_full.
Proof using.
  intros Hq Hop. induction Hq as [|q x qs l Hqx _ IH]; [done|].
  rewrite check_all_cons, (preflight_spec q x op Hqx Hop). cbn [forallb]. destruct (has_room op x); [|done].
  ostep. apply IH.
Qed.

Lemma each_query_spec op eng l :
  tracks_all eng l → op_ok op → forallb (has_room op) l = true →
  ∃ qs, each_query (run_op op) eng = (Ok tt, with_queries eng qs) ∧
    Forall2 tracks qs ((λ x, (x.1, op_effect x.1 op x.2)) <$> l).
Proof using LW.
  unfold tracks_all, each_query. intros Hq Hop Hroom.
  destruct (for_each (run_op op) (queries eng)) as [r qs] eqn:E. exists qs.
  enough (r = Ok tt ∧ Forall2 tracks qs ((λ x, (x.1, op_effect x.1 op x.2)) <$> l)) as [-> ?] by done.
  revert r qs E. induction Hq as [|q x qs0 l Hqx _ IH]; intros r qs E; cbn [for_each] in E.
  - injection E as <- <-. by split; [|constructor].
  - cbn [forallb] in Hroom. apply andb_prop in Hroom as [H0 Hroom].
    pose proof (tracks_op q x op Hqx Hop) as Hs. rewrite H0 in Hs. destruct Hs as (q' & Hq' & Hx').
    rewrite Hq' in E. destruct (for_each (run_op op) qs0) as [r' qs'] eqn:E'. injection E as <- <-.
    destruct (IH Hroom r' qs' eq_refl) as [-> HIH]. split; [done|]. by constructor.
Qed.

(** The engine's events counter. *)
Definition counted (op : Op) (n : Z) : Z := match op with OpEvent _ => n +ʷ 1 | _ => n end.

Lemma engine_op_spec op eng l :
  tracks_all eng l → op_ok op →
  if forallb (has_room op) l
  then ∃ eng', run_engine_op op eng = (Ok tt, eng') ∧
    tracks_all eng' ((λ x, (x.1, op_effect x.1 op x.2)) <$> l) ∧
    events_processed eng' = counted op (events_processed eng)
  else run_engine_op op eng = (pending_full, eng).
Proof using LW.
  intros Hall Hop. pose proof (check_all_spec op _ _ Hall Hop) as Hcheck.
  destruct (forallb (has_room op) l) eqn:Hroom.
  - destruct op as [e|ts| |]; cbn [run_engine_op preflight counted] in *.
    + destruct (each_query_spec (OpEvent e)
        (mkEngine (queries eng) (events_processed eng +ʷ 1)) l Hall Hop Hroom) as (qs & Hr & Hqs).
      unfold engine_process. stm_simpl.
      change (ensure_can_process e) with (preflight (OpEvent e)). rewrite Hcheck. stm_simpl.
      cbn [run_op] in Hr. rewrite Hr. by eexists.
    + destruct (each_query_spec (OpAdvance ts) eng l Hall Hop Hroom) as (qs & Hr & Hqs).
      unfold engine_advance_to. stm_simpl.
      change (check_all _ (queries eng)) with (check_all (preflight (OpAdvance ts)) (queries eng)).
      rewrite Hcheck. stm_simpl.
      cbn [run_op] in Hr. rewrite Hr. by eexists.
    + destruct (each_query_spec OpFinish eng l Hall Hop Hroom) as (qs & Hr & Hqs).
      unfold engine_finish. stm_simpl.
      change (check_all _ (queries eng)) with (check_all (preflight OpFinish) (queries eng)).
      rewrite Hcheck. stm_simpl.
      cbn [run_op] in Hr. rewrite Hr. by eexists.
    + eexists. split; [done|]. split; [|done]. unfold tracks_all in *.
      cbn [queries drain_all with_queries]. clear Hcheck Hroom.
      induction Hall as [|q x qs l Hqx _ IH]; [constructor|]. cbn [fmap list_fmap].
      constructor; [|done]. destruct x as [p A], Hqx as (Hp & r & Hr & HA). split; [done|].
      exists r. split; [done|]. by apply (drain_spec p h r Hp).
  - destruct op as [e|ts| |]; cbn [run_engine_op preflight] in *.
    + unfold engine_process. stm_simpl.
      change (ensure_can_process e) with (preflight (OpEvent e)). by rewrite Hcheck.
    + unfold engine_advance_to. stm_simpl.
      change (check_all _ (queries eng)) with (check_all (preflight (OpAdvance ts)) (queries eng)).
      by rewrite Hcheck.
    + unfold engine_finish. stm_simpl.
      change (check_all _ (queries eng)) with (check_all (preflight OpFinish) (queries eng)).
      by rewrite Hcheck.
    + exfalso. clear Hcheck. unfold tracks_all in Hall.
      induction Hall as [|q [p A] qs l (Hp & r & Hr & HA) _ IH]; [done|].
      cbn [forallb] in Hroom. apply andb_false_iff in Hroom as [H0|H0]; [|by apply IH].
      pose proof (rp_room _ _ _ _ _ HA) as Hz. cbn [fst snd] in Hz.
      rewrite (rep_out_length p h r q A HA) in Hz. unfold has_room in H0. cbn [fst snd op_closes] in H0.
      apply Z.leb_gt in H0. lia.
Qed.

(** A successful operation is the operation on every query. *)
Lemma for_each_inv (f : stm (RunningQuery S) SketchError unit) qs qs' :
  for_each f qs = (Ok tt, qs') → Forall2 (λ q q', f q = (Ok tt, q')) qs qs'.
Proof using.
  revert qs'. induction qs as [|q qs IH]; intros qs' E; cbn [for_each] in E.
  - injection E as <-. constructor.
  - destruct (f q) as [[[]|e|] q1] eqn:Hf; [|discriminate E..].
    destruct (for_each f qs) as [r qs1]. injection E as -> <-. constructor; [done|]. by apply IH.
Qed.

Lemma engine_op_each op eng eng' :
  run_engine_op op eng = (Ok tt, eng') →
  Forall2 (λ q q', run_op op q = (Ok tt, q')) (queries eng) (queries eng').
Proof using.
  assert (∀ f eng1, each_query f eng1 = (Ok tt, eng') →
    Forall2 (λ q q', f q = (Ok tt, q')) (queries eng1) (queries eng')) as Heach.
  { intros f eng1 E. unfold each_query in E. destruct (for_each f (queries eng1)) as [r qs] eqn:Ef.
    injection E as -> <-. by apply for_each_inv. }
  destruct op as [e|ts| |]; cbn [run_engine_op].
  - unfold engine_process. stm_simpl. destruct (check_all _ _) as [[]|?|]; [|intros [=]..].
    stm_simpl. by intros ?%Heach.
  - unfold engine_advance_to. stm_simpl. destruct (check_all _ _) as [[]|?|]; [|intros [=]..].
    stm_simpl. by intros ?%Heach.
  - unfold engine_finish. stm_simpl. destruct (check_all _ _) as [[]|?|]; [|intros [=]..].
    stm_simpl. by intros ?%Heach.
  - intros [= <-]. cbn [queries drain_all with_queries].
    induction (queries eng); cbn; constructor; done.
Qed.

Lemma new_loop_spec plans names (qs : list (RunningQuery S)) qs' l :
  Forall (plan_ok supported) plans → Forall2 tracks qs l → new_loop plans h names qs = Ok qs' →
  Forall2 tracks qs' (l ++ ((λ p, (p, spec_new)) <$> plans)).
Proof using.
  revert names qs l. induction plans as [|p plans IH]; intros names qs l Hp Hq Hn; cbn [new_loop] in Hn.
  - injection Hn as <-. by rewrite app_nil_r.
  - apply Forall_cons in Hp as [Hp Hps].
    apply bind_ok in Hn as ([] & _ & Hn). apply bind_ok in Hn as (r & Hr & Hn).
    apply bind_ok in Hn as (q & Hnew & Hn). cbn [fmap list_fmap].
    rewrite cons_middle, app_assoc. eapply IH; [done| |exact Hn].
    apply Forall2_app; [done|]. constructor; [|constructor]. split; [done|]. exists r.
    split; [done|]. by apply (new_represents p h r Hp).
Qed.

Lemma engine_ops_spec ops eng l :
  tracks_all eng l → Forall op_ok ops →
  (run_engine_ops ops eng).1 = (spec_engine_ops ops l).1 ∧
  tracks_all (run_engine_ops ops eng).2 (spec_engine_ops ops l).2.
Proof using LW.
  revert eng l. induction ops as [|op ops IH]; intros eng l Hall Hops; [done|].
  apply Forall_cons in Hops as [Hop Hops]. pose proof (engine_op_spec op eng l Hall Hop) as Hs.
  cbn [run_engine_ops spec_engine_ops]. unfold spec_engine_op.
  destruct (forallb (has_room op) l).
  - destruct Hs as (eng' & -> & Hall' & _). destruct (IH _ _ Hall' Hops).
    destruct (run_engine_ops ops eng'), (spec_engine_ops ops _). cbn [fst snd] in *. by subst.
  - rewrite Hs. destruct (IH _ _ Hall Hops).
    destruct (run_engine_ops ops eng), (spec_engine_ops ops _). cbn [fst snd] in *. by subst.
Qed.

Lemma engine_new_spec plans eng :
  Forall (plan_ok supported) plans → engine_new plans h = Ok eng →
  tracks_all eng ((λ p, (p, spec_new)) <$> plans).
Proof using.
  intros Hp Hn. unfold engine_new in Hn. apply bind_ok in Hn as (qs & Hn & [= <-]).
  by apply (new_loop_spec plans [] [] qs []).
Qed.

(** The engine is built when the names are distinct and every sketch is. *)
Lemma engine_new_ok plans :
  NoDup ((λ p, q_name (query p)) <$> plans) →
  Forall (λ p, ∃ r, ws_build (sketch (physical p)) h = Ok r) plans →
  ∃ eng : QueryEngine S, engine_new plans h = Ok eng.
Proof using.
  intros Hnd Hb. unfold engine_new.
  enough (∀ names (qs : list (RunningQuery S)),
    (∀ p, p ∈ plans → q_name (query p) ∉ names) → ∃ qs', new_loop plans h names qs = Ok qs')
    as H by (destruct (H [] []) as [qs' ->]; [intros p _; apply not_elem_of_nil|by eexists]).
  induction Hb as [|p plans [r Hr] _ IH]; intros names qs Hn; cbn [new_loop]; [by eexists|].
  apply NoDup_cons in Hnd as [Hp Hnd].
  rewrite bool_decide_false by (apply Hn; by left). ostep. rewrite Hr. ostep.
  unfold rq_new. destruct (measure_fields _) as [d v]. ostep. apply IH; [done|].
  intros p' Hp'. apply not_elem_of_cons. split; [|apply Hn; by right].
  intros E. apply Hp. apply list_elem_of_fmap. by exists p'.
Qed.

(** [C22] An engine over any number of plans runs each of them as the abstract
    machine does: for any sequence of events, watermarks, final flushes and
    drains its results are the abstract engine's, and every query represents
    its abstract machine. *)
Theorem engine_refinement plans eng0 ops :
  Forall (plan_ok supported) plans → engine_new plans h = Ok eng0 → Forall op_ok ops →
  let l0 := (λ p, (p, spec_new)) <$> plans in
  (run_engine_ops ops eng0).1 = (spec_engine_ops ops l0).1 ∧
  tracks_all (run_engine_ops ops eng0).2 (spec_engine_ops ops l0).2.
Proof using LW.
  intros Hp Hn Hops l0. apply engine_ops_spec; [|done]. by apply engine_new_spec.
Qed.

(** [C11] Operations on the engine are all-or-nothing: in every reachable state an
    event, watermark or flush either succeeds on all queries, or returns
    backpressure, because some query has no room for the windows it would
    complete, and leaves the whole engine exactly as it was, so that the caller
    may drain and retry the same operation. *)
Theorem engine_all_or_nothing plans eng0 ops op :
  Forall (plan_ok supported) plans → engine_new plans h = Ok eng0 → Forall op_ok ops → op_ok op →
  let eng := (run_engine_ops ops eng0).2 in
  (∃ eng', run_engine_op op eng = (Ok tt, eng') ∧
     Forall2 (λ q q', run_op op q = (Ok tt, q')) (queries eng) (queries eng')) ∨
  (run_engine_op op eng = (pending_full, eng) ∧
   ∃ q, q ∈ queries eng ∧ run_op op q = (pending_full, q)).
Proof using LW.
  intros Hp Hn Hops Hop eng.
  destruct (engine_ops_spec ops eng0 _ (engine_new_spec plans eng0 Hp Hn) Hops) as [_ Hall].
  fold eng in Hall. set (l := (spec_engine_ops ops _).2) in Hall.
  pose proof (engine_op_spec op eng l Hall Hop) as Hs. destruct (forallb (has_room op) l) eqn:Hroom.
  - left. destruct Hs as (eng' & Hrun & _). exists eng'. split; [done|]. by eapply engine_op_each.
  - right. split; [done|]. clear Hs. unfold tracks_all in Hall.
    induction Hall as [|q x qs l' Hqx _ IH]; [done|]. cbn [forallb] in Hroom.
    apply andb_false_iff in Hroom as [H0|H0].
    + exists q. split; [by left|]. pose proof (tracks_op q x op Hqx Hop) as Hs. by rewrite H0 in Hs.
    + destruct (IH H0) as (q' & Hin & Hq'). exists q'. split; [by right|done].
Qed.
End engine_spec.

(** ** A concrete engine *)

Definition tumbling_query : LogicalQuery :=
  mkQuery "cold" (mkPredicate None [] [] []) [DstIp] (HeavyHitters Packets 2) (tumbling 10)
    ErrorSpec_default (mkAlert None None) ExportSpec_default 1073741824.
Definition tumbling_plan : Plan := run_or sample_plan (plan (λ x, x) (λ x, x) (λ _, "") (λ _ _, "") tumbling_query).
Definition two_plans : list Plan := [sample_plan; tumbling_plan].
Definition sample_engine : QueryEngine QueryState :=
  run_or (mkEngine [] 0) (engine_new (WS := QueryState_Window 0) two_plans HashSpec_default).
Definition engine_after (ops : list Op) : list (res unit) * QueryEngine QueryState :=
  run_engine_ops (WS := QueryState_Window 0) ops sample_engine.

Lemma two_plans_ok : Forall (plan_ok (supported 0)) two_plans.
Proof.
  apply Forall_cons; split; [exact sample_plan_ok|]. apply Forall_singleton.
  split; try (vm_compute; done); by range_tac.
Qed.
Lemma sample_engine_new :
  engine_new (WS := QueryState_Window 0) two_plans HashSpec_default = Ok sample_engine.
Proof. vm_compute. reflexivity. Qed.

Definition early_ops : list Op := [OpEvent (event_at 5); OpEvent (event_at 12)].
Lemma early_ops_ok : Forall op_ok early_ops.
Proof.
  apply Forall_cons; split; [apply event_at_ok; by range_tac|].
  apply Forall_singleton, event_at_ok. by range_tac.
Qed.
Lemma late_op_ok : op_ok (OpEvent (event_at 23)).
Proof. apply event_at_ok. by range_tac. Qed.

Lemma engine_refinement_witness :
  (engine_after (early_ops ++ [OpEvent (event_at 23)])).1 =
    [Ok tt; Ok tt; pending_full].
Proof.
  destruct (engine_refinement (LW := QueryState_Lawful 0) HashSpec_default two_plans sample_engine
    (early_ops ++ [OpEvent (event_at 23)]) two_plans_ok
    sample_engine_new) as [H _].
  - apply Forall_app. split; [exact early_ops_ok|]. apply Forall_singleton. exact late_op_ok.
  - etrans; [exact H|]. vm_compute. reflexivity.
Defined.

(** The tumbling query is full, so the sliding one does not move either. *)
Lemma engine_all_or_nothing_witness :
  let eng := (engine_after early_ops).2 in
  run_engine_op (WS := QueryState_Window 0) (OpEvent (event_at 23)) eng = (pending_full, eng).
Proof.
  destruct (engine_all_or_nothing (LW := QueryState_Lawful 0) HashSpec_default two_plans
    sample_engine early_ops (OpEvent (event_at 23))
    two_plans_ok sample_engine_new early_ops_ok late_op_ok) as [(eng' & H & _)|[H _]].
  - exfalso. apply (f_equal fst) in H. vm_compute in H. discriminate H.
  - exact H.
Defined.
