(* ===== verification/PlanRuns.v ===== *)
(** * Planned queries run

    The planner's formulas are the sketches' own, and an engine accepts every
    plan the planner accepts, so that the runtime's theorems apply to planned
    queries. *)
From S2P Require Import Prelude Bytes Hash Sketch F64 Event CountMin SpaceSaving Hll HllMap Kll Ir Yaml.
From S2P Require Import Planner QueryState Window Engine WindowSpec Sliding EngineSpec.

Section runs.
Context (ln log2 : f64 → f64) (show : f64 → string) (show_fixed : Z → f64 → string).
Abbreviation plan := (Planner.plan ln log2 show show_fixed).

(** The planner sizes sketches with the sketches' own formulas: the KLL and
    HyperLogLog parameters are equal for every epsilon, and the Count-Min
    dimensions are accepted together and equal. *)
Lemma planner_mirrors_sketches eps delta :
  kll_k_for_error eps = Kll.k_for_error eps ∧
  hll_precision_for_error log2 eps = Hll.precision_for_error log2 eps ∧
  ∀ dims, count_min_dimensions ln show eps delta = Ok dims ↔
    CountMin.dimensions_for_error ln eps delta = Ok dims.
Proof using.
  split; [|split].
  - unfold kll_k_for_error, Kll.k_for_error, clamp, Kll.MIN_LEVEL_CAPACITY. lia.
  - unfold hll_precision_for_error, Hll.precision_for_error, clamp, Hll.MIN_PRECISION,
      Hll.MAX_PRECISION. cbv zeta. lia.
  - intros dims. unfold count_min_dimensions, CountMin.dimensions_for_error.
    change CountMin.HASH_FAILURE_FLOOR with HASH_FAILURE_FLOOR. change CountMin.f_E with E_CONST.
    destruct (negb _); ostep; [by split|].
    destruct (f_leb delta HASH_FAILURE_FLOOR); ostep; [by split|].
    split; intros H%ok_inj; by rewrite H.
Qed.

(** The Count-Min table a counter plan asks for is one the machine can index. *)
Definition table_in_range (sk : PhysicalSketch) : Prop :=
  match sk with
  | PComposite [PSpaceSaving _; PCountMin width depth _] => 0 < width ∧ width * depth < u64_mod
  | _ => True
  end.

(** Only the keyed map runs the estimator's iterations. *)
Definition estimator_ok (fuel : nat) (sk : PhysicalSketch) : Prop :=
  match sk with PHllMap _ _ => HllMap.converges fuel | _ => True end.

Lemma sketch_builds (fuel : nat) m sk h :
  0 < m → estimator_ok fuel sk → sketch_ok m sk → table_in_range sk →
  supported fuel sk ∧ ∃ r, QueryState.build sk h = Ok r.
Proof using.
  intros Hm Hf Hok Ht.
  assert (∀ c, 0 < c → ∃ s, SpaceSaving.new c h = Ok s) as Hss.
  { intros c Hc. unfold SpaceSaving.new. rewrite (proj2 (Z.eqb_neq _ _)) by lia. by eexists. }
  assert (∀ pr, 4 <= pr <= 18 → ∃ s, Hll.new pr h = Ok s) as Hhl.
  { intros pr Hpr. unfold Hll.new, Hll.precision_ok, Hll.MIN_PRECISION, Hll.MAX_PRECISION.
    rewrite (proj2 (Z.leb_le 4 pr)), (proj2 (Z.leb_le pr 18)) by lia. by eexists. }
  destruct sk as [| |c| |pr|mk pr|k|st]; try done; 
    cbn [sketch_ok table_in_range estimator_ok supported build] in *.
  - split; [lia|]. destruct (Hss c ltac:(lia)) as [s ->]. by eexists.
  - split; [done|]. destruct (Hhl pr ltac:(lia)) as [s ->]. by eexists.
  - destruct Hok as (Hmk & Hpos & Hpr). specialize (Hpos Hm). split; [split; [word_lia|done]|].
    unfold HllMap.new. rewrite (proj2 (Z.eqb_neq _ _)) by lia. ostep.
    destruct (Hhl pr Hpr) as [s ->]. ostep. by eexists.
  - split; [word_lia|]. unfold Kll.new, Kll.MIN_LEVEL_CAPACITY.
    rewrite (proj2 (Z.ltb_ge _ _)) by lia. ostep. by eexists.
  - destruct st as [|[] [|[] [|]]]; try done.
    + destruct Hok as (Hc & Hw & Hd), Ht as [Hw0 Hwd]. split; [split_and!; try done; word_lia|].
      unfold CountMin.new. rewrite !(proj2 (Z.eqb_neq _ _)) by lia. cbn [orb]. ostep.
      destruct (Hss capacity ltac:(lia)) as [s ->]. ostep. by eexists.
    + destruct Hok as [Hc Hpr]. split; [lia|]. destruct (Hss capacity ltac:(lia)) as [s ->]. ostep.
      destruct (Hhl precision Hpr) as [s' ->]. ostep. by eexists.
Qed.

Lemma planned_ok (fuel : nat) h q p :
  query_ok q → size_nanos (window q) < u64_max → 0 < max_series (export q) →
  plan q = Ok p → table_in_range (sketch (physical p)) → estimator_ok fuel (sketch (physical p)) →
  plan_ok (supported fuel) p ∧ ∃ r, QueryState.build (sketch (physical p)) h = Ok r.
Proof using.
  intros [Hsz Hsl _ _] Hlt Hms H Ht Hf.
  destruct (plan_inv _ _ _ _ q p H) as (b & c & Hb & Hc & _ & Hq & Hs & Hw & Hp & _).
  rewrite bucket_count_ok in Hb by lia. apply ok_inj in Hb.
  destruct (sketch_builds fuel (max_series (export q)) (sketch (physical p)) h) as [Hsup Hr]; try done.
  { rewrite Hs. by eapply choose_ok. }
  split; [|done]. split; [by rewrite Hq| |by rewrite Hp, Hw|done].
  rewrite Hw, <- Hb. assert (size_nanos (window q) / slide_nanos (window q) <= size_nanos (window q))
    by (unfold u64_ok in *; apply Z.div_le_upper_bound; nia). lia.
Qed.

(** Every planned query runs: a set of plans with distinct query names that
    the planner accepted makes an engine, which then runs all of them as the
    abstract machine does. *)
Lemma planned_queries_run (fuel : nat) h qs ps ops :
  Forall2 (λ q p, query_ok q ∧ size_nanos (window q) < u64_max ∧ 0 < max_series (export q) ∧
    plan q = Ok p ∧ table_in_range (sketch (physical p)) ∧
    estimator_ok fuel (sketch (physical p))) qs ps →
  NoDup (q_name <$> qs) → Forall op_ok ops →
  ∃ eng, engine_new (WS := QueryState_Window fuel) ps h = Ok eng ∧
    (run_engine_ops (WS := QueryState_Window fuel) ops eng).1 =
      (spec_engine_ops ops ((λ p, (p, spec_new)) <$> ps)).1.
Proof using.
  intros Hall Hnd Hops.
  assert (Forall (λ p, plan_ok (supported fuel) p ∧
    ∃ r, QueryState.build (sketch (physical p)) h = Ok r) ps) as Hps.
  { clear Hnd. induction Hall as [|q p qs ps (Hq & Hz & Hm & Hpl & Ht & Hf) _ IH]; constructor; [|done].
    by eapply planned_ok. }
  assert ((λ p, q_name (query p)) <$> ps = q_name <$> qs) as Hnames.
  { clear Hnd Hps. induction Hall as [|q p qs ps (_ & _ & _ & Hpl & _) _ IH]; [done|]. cbn. f_equal; [|done].
    destruct (plan_inv _ _ _ _ q p Hpl) as (? & ? & _ & _ & _ & -> & _). done. }
  rewrite <- Hnames in Hnd.
  destruct (engine_new_ok (WS := QueryState_Window fuel) h ps) as [eng He];
    [done|by eapply Forall_impl; [exact Hps|intros p [_ Hr]]|].
  exists eng. split; [done|].
  apply (engine_ops_spec (LW := QueryState_Lawful fuel) h); [|done].
  apply engine_new_spec; [|done]. eapply Forall_impl; [exact Hps|]. by intros p [Hp _].
Qed.

(** What the type of [maxSeries] admits. *)
Definition raw_ok (raw : RawQuery) : Prop :=
  ∀ n, (raw_export raw ≫= rx_max_series) = Some n → u64_ok n.

(** A parsed query satisfies what the planner assumes. *)
Lemma parsed_query_ok raw q : raw_ok raw → asks raw q → query_ok q ∧ 0 < max_series (export q).
Proof using.
  intros Hr [_ Hw _ _ _ _ _ (_ & Hx & Hx') Hm].
  assert (∀ us s v, quantity us s v → u64_ok v) as Hq.
  { intros us s v (? & ? & ? & ? & ? & _ & _ & _ & _ & _ & _ & _ & ->). apply wrap64_range. }
  assert (u64_ok (max_series (export q))) as Hs.
  { rewrite Hx. destruct (raw_export raw ≫= rx_max_series) as [n|] eqn:E; [by apply Hr|]. by range_tac. }
  split; [|word_lia]. split; try done.
  - destruct Hw; by eapply Hq.
  - destruct Hw as [s size Hsz|s s' size slide _ Hsl]; [apply Hq in Hsz|apply Hq in Hsl];
      cbn [tumbling slide_nanos]; word_lia.
  - unfold reads_memory in Hm. destruct (raw_resources raw ≫= rr_max_memory); [by eapply Hq|].
    rewrite Hm. split; by vm_compute.
Qed.

(** What operators ask runs.  Documents with distinct query names that the
    parser and the planner accept make an engine, for windows below 2^64 - 1
    nanoseconds and tables the machine can index; the engine then answers any
    sequence of operations as the abstract machine of those queries does. *)
Lemma operator_queries_run {Y} (debug : string → string) (fuel : nat) h raws ps ops :
  Forall2 (λ raw p, raw_ok raw ∧ ∃ q, into_logical (Y := Y) debug raw = Ok q ∧
    size_nanos (window q) < u64_max ∧ plan q = Ok p ∧ table_in_range (sketch (physical p)) ∧
    estimator_ok fuel (sketch (physical p))) raws ps →
  NoDup (raw_name <$> raws) → Forall op_ok ops →
  ∃ eng, engine_new (WS := QueryState_Window fuel) ps h = Ok eng ∧
    (run_engine_ops (WS := QueryState_Window fuel) ops eng).1 =
      (spec_engine_ops ops ((λ p, (p, spec_new)) <$> ps)).1.
Proof using.
  intros Hall Hnd Hops.
  assert (∃ qs, raw_name <$> raws = q_name <$> qs ∧
    Forall2 (λ q p, query_ok q ∧ size_nanos (window q) < u64_max ∧ 0 < max_series (export q) ∧
      plan q = Ok p ∧ table_in_range (sketch (physical p)) ∧
      estimator_ok fuel (sketch (physical p))) qs ps) as (qs & Hn & Hqs).
  { clear Hnd. induction Hall as [|raw p raws ps (Hr & q & Ha & Hz & Hp & Ht & Hf) _ (qs & Hn & Hqs)];
      [exists []; split; [done|constructor]|].
    apply into_logical_iff in Ha. destruct (parsed_query_ok raw q Hr Ha) as [Hq Hs].
    exists (q :: qs). split; [|by constructor]. cbn. rewrite <- (proj1 (asks_name _ _ Ha)). by f_equal. }
  apply (planned_queries_run fuel h qs); [done|by rewrite <- Hn|done].
Qed.
End runs.

(** ** A planned engine *)

Lemma sample_query_ok : query_ok sample_query.
Proof. split; by range_tac. Qed.

Lemma tumbling_query_ok : query_ok tumbling_query.
Proof. split; by range_tac. Qed.

(** The documents of the two queries. *)
Definition hot_document : RawQuery :=
  mkRawQuery "hot" (mkRawWindow "20ns" (Some "10ns")) None ["dst.ip"]
    (mkRawMeasure "heavy_hitters" (Some "bytes") None (Some 2) None None) None None
    (Some (mkRawResources (Some "1GiB"))).

Lemma operator_queries_run_witness :
  ∃ eng, engine_new (WS := QueryState_Window 0) [sample_plan] HashSpec_default = Ok eng ∧
    (run_engine_ops (WS := QueryState_Window 0) early_ops eng).1 = [Ok tt; Ok tt].
Proof.
  destruct (operator_queries_run (Y := unit) (λ x, x) (λ x, x) (λ _, "") (λ _ _, "") (λ s, s) 0 HashSpec_default
    [hot_document] [sample_plan] early_ops) as (eng & H1 & H2).
  - constructor; [|constructor]. split; [by intros n [= <-]|]. exists sample_query.
    split; [vm_compute; reflexivity|]. split_and!; try exact I; by range_tac.
  - apply (bool_decide_unpack _). vm_compute. exact I.
  - exact early_ops_ok.
  - exists eng. split; [exact H1|]. etrans; [exact H2|]. vm_compute. reflexivity.
Defined.
