(* ===== verification/ShardedSpec.v ===== *)
(** * What sharding promises

    Dispatch is a partition of the batch that keeps a flow on one shard; and the
    windows of all shards merge, key by key, into the sketch of the union of
    the shards' events, so that a sharded run keeps the single engine's error
    bounds. *)
From S2P Require Import Prelude Bytes Maps Hash Sketch F64 Event Ir Planner SpaceSaving QueryState.
From S2P Require Import Emit Window Engine Sharded WindowSpec Guarantees Sliding EngineSpec.

(** ** Dispatch *)

Section dispatch.
Context {S : Type} `{WS : !WindowSketch S}.
Implicit Types (s : ShardedQueryEngine S) (events : list FlowEvent).

Definition sharded_ok s : Prop :=
  0 < zlen (shards s) < u64_mod ∧ 0 <= next_balanced_shard s < zlen (shards s).

Lemma shard_for_ok s e :
  0 < zlen (shards s) → ∃ i, shard_for s e = Ok i ∧ 0 <= i < zlen (shards s).
Proof using.
  intros Hn. unfold shard_for, rem_u64. rewrite (proj2 (Z.eqb_neq _ _)) by lia.
  eexists. split; [done|]. apply Z.mod_pos_bound. lia.
Qed.

Lemma pick_ok s strategy next e :
  sharded_ok s → 0 <= next < zlen (shards s) →
  ∃ i next', pick_shard s strategy next e = Ok (i, next') ∧
    0 <= i < zlen (shards s) ∧ 0 <= next' < zlen (shards s) ∧
    (strategy = Flow → shard_for s e = Ok i).
Proof using.
  intros [Hn _] Hnext. destruct strategy; cbn [pick_shard].
  - destruct (shard_for_ok s e ltac:(lia)) as (i & -> & Hi). by exists i, next.
  - unfold rem_u64. rewrite (proj2 (Z.eqb_neq _ _)) by lia. ostep. eexists _, _. split; [done|].
    split; [done|]. split; [apply Z.mod_pos_bound; lia|done].
Qed.

(** The batch of shard [i] under flow dispatch. *)
Definition flow_batch s (i : nat) events : list FlowEvent :=
  base.filter (λ e, shard_for s e = Ok (Z.of_nat i)) events.

Lemma concat_insert_snoc {A} (l : list (list A)) i b x :
  l !! i = Some b → concat (<[i := b ++ [x]]> l) ≡ₚ concat l ++ [x].
Proof using.
  revert i. induction l as [|c l IH]; intros [|i] Hi; cbn in *; try done.
  - injection Hi as ->. rewrite <- !app_assoc. apply Permutation_app_head, Permutation_app_comm.
  - by rewrite (IH i Hi), app_assoc.
Qed.

Lemma dispatch_spec s strategy events :
  sharded_ok s →
  ∃ batches next, dispatch s strategy events = Ok (batches, next) ∧
    0 <= next < zlen (shards s) ∧ length batches = length (shards s) ∧ concat batches ≡ₚ events ∧
    (strategy = Flow → ∀ i b, batches !! i = Some b → b = flow_batch s i events).
Proof using.
  intros Hs. destruct (foldM_inv (λ events acc,
      0 <= acc.2 < zlen (shards s) ∧ length acc.1 = length (shards s) ∧ concat acc.1 ≡ₚ events ∧
      (strategy = Flow → ∀ i b, acc.1 !! i = Some b → b = flow_batch s i events))
    (dispatch_step s strategy) (replicate (length (shards s)) [], next_balanced_shard s) events)
    as ([batches next] & Hd & H); [| |by exists batches, next].
  - cbn [fst snd]. split; [apply Hs|]. split; [apply length_replicate|]. split.
    + induction (length (shards s)); [done|]. done.
    + intros _ i b Hb. apply lookup_replicate in Hb as [-> _]. done.
  - intros done e rest [bs nx] _ (Hnx & Hl & Hc & Hf). cbn [fst snd] in *.
    destruct (pick_ok s strategy nx e Hs Hnx) as (i & nx' & Hp & Hi & Hnx' & Hflow).
    unfold dispatch_step. cbn [fst snd]. rewrite Hp. ostep.
    assert (zlen bs = zlen (shards s)) as Hz by (unfold zlen; by rewrite Hl).
    destruct (vec_get_ok (E := SketchError) bs i) as (b & -> & Hb); [lia|]. ostep.
    rewrite vec_set_ok by lia. ostep. eexists. split; [done|]. cbn [fst snd].
    split; [done|]. split; [by rewrite length_insert|]. split; [by rewrite concat_insert_snoc, Hc|].
    intros Hstrat j c Hj. specialize (Hflow Hstrat). specialize (Hf Hstrat).
    unfold flow_batch. rewrite filter_app, filter_cons, Hflow.
    destruct (decide (Z.to_nat i = j)) as [<-|Hne].
    + rewrite list_lookup_insert_eq in Hj by (by eapply lookup_lt_Some). injection Hj as <-.
      rewrite (Hf _ _ Hb). rewrite decide_True by (rewrite Z2Nat.id by lia; done). done.
    + rewrite list_lookup_insert_ne in Hj by done. rewrite (Hf _ _ Hj).
      rewrite decide_False by (intros [= E]; lia). by rewrite filter_nil, app_nil_r.
Qed.

(** Dispatching a batch never fails and loses, duplicates or invents no
    event: one batch per shard, together a permutation of the input.  Under flow
    dispatch shard [i]'s batch is the subsequence of the events that hash to [i],
    in order, so the events of one directional 5-tuple stay together in order. *)
Lemma dispatch_partitions s strategy events :
  sharded_ok s →
  ∃ batches next, dispatch s strategy events = Ok (batches, next) ∧
    0 <= next < zlen (shards s) ∧ length batches = length (shards s) ∧ concat batches ≡ₚ events ∧
    (strategy = Flow → ∀ i b, batches !! i = Some b → b = flow_batch s i events).
Proof using. apply dispatch_spec. Qed.
End dispatch.

(** ** Merging windows *)

Section merging.
Context {S : Type} `{WS : !WindowSketch S} {supported : PhysicalSketch → Prop}
  {like : S → S → Prop} {LW : LawfulWindow S supported like}.
Context (h : HashSpec) (plans : list Plan) (Hnames : NoDup ((λ p, q_name (query p)) <$> plans)).

(** A completed window of the abstract engine with its query's name. *)
Abbreviation Output := (string * (Z * Z * list Item))%type.
Definition out_key (y : Output) : wkey := (y.1, y.2.1.1, y.2.1.2).
(** All items of the windows with one key, over all shards. *)
Definition gathered (k : wkey) (ys : list Output) : list Item :=
  concat ((λ y, y.2.2) <$> base.filter (λ y, out_key y = k) ys).
(** The completed windows of an abstract engine. *)
Definition outputs (l : list (Plan * Spec)) : list Output :=
  concat ((λ x, (λ w, (q_name (query x.1), w)) <$> sp_out x.2) <$> l).

(** The state of the query named [name] holds exactly [items]. *)
Definition good_named (name : string) (st : S) (items : list Item) : Prop :=
  ∃ p r, p ∈ plans ∧ q_name (query p) = name ∧ ws_build (sketch (physical p)) h = Ok r ∧
    good (like := like) p h r st items.

Definition output_rep (o : QueryWindowState S) (y : Output) : Prop :=
  window_key o = out_key y ∧ good_named y.1 (w_state (qw_state o)) y.2.2.

Lemma named_unique p p' :
  p ∈ plans → p' ∈ plans → q_name (query p) = q_name (query p') → p = p'.
Proof using Hnames.
  intros Hp Hp' E. apply list_elem_of_lookup in Hp as [i Hi], Hp' as [j Hj].
  assert (i = j) as <-; [|congruence].
  eapply NoDup_lookup; [exact Hnames| |]; rewrite list_lookup_fmap.
  - rewrite Hi. cbn. done.
  - rewrite Hj. cbn. by rewrite E.
Qed.

Lemma good_named_merge name s t l m :
  good_named name s l → good_named name t m →
  ∃ s', run_merge s t = Ok s' ∧ good_named name s' (l ++ m).
Proof using LW Hnames.
  intros (p & r & Hp & Hn & Hr & Hs) (p' & r' & Hp' & Hn' & Hr' & Ht).
  assert (p = p') as <- by (apply named_unique; congruence).
  assert (r = r') as <- by congruence.
  destruct (good_merge p h r s t l m Hs Ht) as (s' & Hm & Hg). exists s'. split; [done|].
  by exists p, r.
Qed.

(** The merged map after the outputs [ys]. *)
Definition merged_rep (merged : gmap wkey (WindowState S)) (ys : list Output) : Prop :=
  ∀ k, match merged !! k with
       | None => ∀ y, y ∈ ys → out_key y ≠ k
       | Some w => (∃ y, y ∈ ys ∧ out_key y = k) ∧ window_start_nanos w = k.1.2 ∧
           window_end_nanos w = k.2 ∧ good_named k.1.1 (w_state w) (gathered k ys)
       end.

Lemma gathered_snoc k ys y :
  gathered k (ys ++ [y]) = gathered k ys ++ (if decide (out_key y = k) then y.2.2 else []).
Proof using.
  unfold gathered. rewrite filter_app, fmap_app, concat_app. f_equal. rewrite filter_cons.
  case_decide; cbn; [by rewrite app_nil_r|done].
Qed.

Lemma gathered_none k ys : (∀ y, y ∈ ys → out_key y ≠ k) → gathered k ys = [].
Proof using.
  intros H. unfold gathered. rewrite filter_none; [done|]. apply Forall_forall. apply H.
Qed.

Lemma merged_rep_step merged ys o y :
  merged_rep merged ys → output_rep o y →
  ∃ merged', merge_output merged o = Ok merged' ∧ merged_rep merged' (ys ++ [y]).
Proof using LW Hnames.
  intros Hm [Hk Hg]. unfold merge_output. rewrite Hk. pose proof (Hm (out_key y)) as Hy.
  assert (∀ w, window_start_nanos w = (out_key y).1.2 → window_end_nanos w = (out_key y).2 →
    good_named y.1 (w_state w) (gathered (out_key y) ys ++ y.2.2) →
    merged_rep (<[out_key y := w]> merged) (ys ++ [y])) as Hins.
  { intros w Hs He Hw k. destruct (decide (out_key y = k)) as [<-|Hne].
    - rewrite lookup_insert_eq. split; [exists y; set_solver|]. split; [done|]. split; [done|].
      by rewrite gathered_snoc, decide_True.
    - rewrite lookup_insert_ne by done. specialize (Hm k). destruct (merged !! k) as [w'|].
      + destruct Hm as ((y' & Hy' & Hk') & ? & ? & ?). split; [exists y'; set_solver|].
        split; [done|]. split; [done|]. rewrite gathered_snoc, decide_False by done. by rewrite app_nil_r.
      + intros y' [Hin| ->%list_elem_of_singleton]%elem_of_app; [by apply Hm|done]. }
  assert (window_start_nanos (qw_state o) = (out_key y).1.2 ∧
    window_end_nanos (qw_state o) = (out_key y).2) as [Hos Hoe] by (rewrite <- Hk; done).
  destruct (merged !! out_key y) as [w|].
  - destruct Hy as (_ & Hs & He & Hw). unfold run_merge_window, merge_window.
    rewrite decide_False by (rewrite Hs, He, Hos, Hoe; intros []; done).
    destruct (good_named_merge _ _ _ _ _ Hw Hg) as (s' & Hr & Hs'). unfold run_merge in Hr.
    destruct (ws_merge_from _ _) as [[[]|e|] s1]; [|discriminate Hr..]. apply ok_inj in Hr as <-.
    ostep. eexists. split; [done|]. by apply Hins.
  - eexists. split; [done|]. apply Hins; [done|done|]. by rewrite (gathered_none _ _ Hy).
Qed.

Lemma merge_outputs_spec merged ys out ys' :
  merged_rep merged ys → Forall2 output_rep out ys' →
  ∃ merged', merge_outputs merged out = Ok merged' ∧ merged_rep merged' (ys ++ ys').
Proof using LW Hnames.
  unfold merge_outputs. intros Hm Ho. revert merged ys Hm.
  induction Ho as [|o y out ys' Hoy _ IH]; intros merged ys Hm; cbn [foldM].
  - exists merged. by rewrite app_nil_r.
  - destruct (merged_rep_step merged ys o y Hm Hoy) as (m1 & -> & Hm1). ostep.
    destruct (IH m1 (ys ++ [y]) Hm1) as (m' & Hm' & HI). exists m'. split; [done|].
    by rewrite <- app_assoc in HI.
Qed.

(** An engine over the shared plans, and what draining it hands over. *)
Definition shard_rep (eng : QueryEngine S) (l : list (Plan * Spec)) : Prop :=
  tracks_all (supported := supported) (like := like) h eng l ∧ l.*1 = plans.

Lemma engine_outputs eng l :
  shard_rep eng l →
  ∃ out, take_window_states eng = (Ok out, drain_all eng) ∧ Forall2 output_rep out (outputs l).
Proof using.
  intros [Ht Hl]. unfold take_window_states. stm_simpl. eexists. split; [done|].
  assert (∀ x, x ∈ l → x.1 ∈ plans) as Hin by (intros x Hx; rewrite <- Hl; by apply list_elem_of_fmap_2).
  clear Hl. unfold tracks_all, outputs in *.
  induction Ht as [|q x qs l Hqx _ IH]; [constructor|]. cbn [fmap list_fmap concat].
  apply Forall2_app; [|apply IH; intros x' Hx'; apply Hin; by right].
  destruct x as [p A], Hqx as (Hp & r & Hr & [Hm _ Ho _ _]). cbn [fst snd] in *.
  apply Forall2_fmap. eapply Forall2_impl; [exact Ho|]. intros w [[a b] items] (Ha & Hb & Hg).
  cbn [fst snd] in *. unfold output_rep, window_key, out_key.
  cbn [qw_query_name qw_state fst snd]. rewrite (md_plan _ _ _ Hm), Ha, Hb. split; [done|].
  exists p, r. split; [|done]. apply (Hin (p, A)). by left.
Qed.

Lemma merge_shards_spec l ls merged ys :
  Forall2 shard_rep l ls → merged_rep merged ys →
  ∃ merged', merge_shards l merged = (Ok merged', drain_all <$> l) ∧
    merged_rep merged' (ys ++ concat (outputs <$> ls)).
Proof using LW Hnames.
  intros Hl. revert merged ys. induction Hl as [|eng x l ls Hx _ IH]; intros merged ys Hm; cbn [merge_shards].
  - exists merged. by rewrite app_nil_r.
  - destruct (engine_outputs eng x Hx) as (out & -> & Ho).
    destruct (merge_outputs_spec merged ys out _ Hm Ho) as (m1 & -> & Hm1).
    destruct (IH m1 _ Hm1) as (m' & -> & Hm'). exists m'. split; [done|].
    by rewrite <- app_assoc in Hm'.
Qed.

Lemma merge_shards_new l ls :
  Forall2 shard_rep l ls →
  ∃ merged, merge_shards l ∅ = (Ok merged, drain_all <$> l) ∧
    ∀ k, match merged !! k with
         | None => ∀ y, y ∈ concat (outputs <$> ls) → out_key y ≠ k
         | Some w => (∃ y, y ∈ concat (outputs <$> ls) ∧ out_key y = k) ∧
             good_named k.1.1 (w_state w) (gathered k (concat (outputs <$> ls)))
         end.
Proof using LW Hnames.
  intros Hl. destruct (merge_shards_spec l ls ∅ [] Hl) as (merged & Hm & Hrep).
  - intros k. rewrite lookup_empty. intros y ?%elem_of_nil. done.
  - exists merged. split; [done|]. intros k. specialize (Hrep k). cbn [app] in Hrep.
    destruct (merged !! k); [|done]. destruct Hrep as (? & _ & _ & ?). done.
Qed.

(** The shards of a sharded engine after each ran its own operations, and the
    windows their abstract machines completed. *)
Definition shards_after (eng0 : QueryEngine S) (opss : list (list Op)) : list (QueryEngine S) :=
  (λ ops, (run_engine_ops ops eng0).2) <$> opss.
Definition all_outputs (opss : list (list Op)) : list Output :=
  concat (outputs <$> ((λ ops, (spec_engine_ops ops ((λ p, (p, spec_new)) <$> plans)).2) <$> opss)).

Lemma spec_engine_ops_plans ops l : (spec_engine_ops ops l).2.*1 = l.*1.
Proof using.
  revert l. induction ops as [|op ops IH]; intros l; [done|]. cbn [spec_engine_ops].
  destruct (spec_engine_op op l) as [r l'] eqn:E. specialize (IH l').
  destruct (spec_engine_ops ops l') as [rs l'']. cbn [snd] in *. rewrite IH.
  unfold spec_engine_op in E. case_match; [|by injection E as _ <-]. injection E as _ <-.
  rewrite <- list_fmap_compose. by apply list_fmap_ext.
Qed.

Lemma shards_merge eng0 opss :
  Forall (plan_ok supported) plans → engine_new plans h = Ok eng0 → Forall (Forall op_ok) opss →
  ∃ merged, merge_shards (shards_after eng0 opss) ∅ =
      (Ok merged, drain_all <$> shards_after eng0 opss) ∧
    ∀ k, match merged !! k with
         | None => ∀ y, y ∈ all_outputs opss → out_key y ≠ k
         | Some w => (∃ y, y ∈ all_outputs opss ∧ out_key y = k) ∧
             good_named k.1.1 (w_state w) (gathered k (all_outputs opss))
         end.
Proof using LW Hnames.
  intros Hp Hn Hops. apply merge_shards_new. unfold shards_after.
  apply Forall2_fmap. apply Forall_Forall2_diag. eapply Forall_impl; [exact Hops|].
  intros ops Ho. split.
  - apply (engine_ops_spec h ops eng0 _ (engine_new_spec h plans eng0 Hp Hn) Ho).
  - rewrite spec_engine_ops_plans, <- list_fmap_compose. apply list_fmap_id.
Qed.

(** [C13] Reading a sharded engine merges the shards' windows without error.  Let
    every shard run its own sequence of events, watermarks, flushes and drains:
    the result has exactly one window per query, start and end that some shard
    completed, its state is the sketch of all the events of that window on all
    the shards, and every shard is left drained. *)
Theorem sharded_windows_merge eng0 opss :
  Forall (plan_ok supported) plans → engine_new plans h = Ok eng0 → Forall (Forall op_ok) opss →
  ∃ merged, merge_shards (shards_after eng0 opss) ∅ =
      (Ok merged, drain_all <$> shards_after eng0 opss) ∧
    ∀ k, match merged !! k with
         | None => ∀ y, y ∈ all_outputs opss → out_key y ≠ k
         | Some w => (∃ y, y ∈ all_outputs opss ∧ out_key y = k) ∧
             good_named k.1.1 (w_state w) (gathered k (all_outputs opss))
         end.
Proof using LW Hnames. apply shards_merge. Qed.
End merging.

(** [C12] End to end: the windows a sharded engine hands out answer within their
    sketch's error bounds for the union of the shards' events.  Heavy hitters
    and counters bracket every key's true weight, distinct counts are a function
    of the set of items, a quantile sketch has the rank guarantee of its history,
    and the keyed map keeps its bound. *)
Theorem sharded_guarantees (fuel : nat) h plans eng0 opss :
  NoDup ((λ p, q_name (query p)) <$> plans) →
  Forall (plan_ok (supported fuel)) plans →
  engine_new (WS := QueryState_Window fuel) plans h = Ok eng0 → Forall (Forall op_ok) opss →
  ∃ merged, (merge_shards (WS := QueryState_Window fuel)
      (shards_after (WS := QueryState_Window fuel) eng0 opss) ∅).1 = Ok merged ∧
    ∀ (k : wkey) w, merged !! k = Some w →
      ∃ p, p ∈ plans ∧ q_name (query p) = k.1.1 ∧
        answers fuel h (sketch (physical p)) (w_state w) (gathered k (all_outputs plans opss)).
Proof.
  intros Hnd Hp Hn Hops.
  destruct (shards_merge (LW := QueryState_Lawful fuel) h plans Hnd eng0 opss Hp Hn Hops)
    as (merged & Hm & Hall). exists merged. split; [by rewrite Hm|].
  intros k w Hk. specialize (Hall k). rewrite Hk in Hall.
  destruct Hall as (_ & p & r & Hin & Hname & Hr & Hg). exists p. split; [done|]. split; [done|].
  apply (good_answers fuel p h r); [|exact Hr|exact Hg].
  rewrite Forall_forall in Hp. by apply Hp.
Qed.

(** ** A concrete sharded engine *)

(** Two shards over the same two plans. *)
Definition sample_sharded : ShardedQueryEngine QueryState :=
  mkSharded [sample_engine; sample_engine] two_plans HashSpec_default 1.
Definition sample_shard_ops : list (list Op) :=
  [OpEvent (event_at 5) :: [OpFinish]; OpEvent (event_at 7) :: [OpFinish]].

Definition first_hot : wkey := ("hot", 0, 10).

Lemma sample_shard_ops_ok : Forall (Forall op_ok) sample_shard_ops.
Proof.
  apply Forall_cons; split; [|apply Forall_singleton]; (apply Forall_cons; split;
    [apply event_at_ok; by range_tac|by apply Forall_singleton]).
Qed.
Lemma two_plans_names : NoDup ((λ p, q_name (query p)) <$> two_plans).
Proof. apply (bool_decide_unpack _). vm_compute. exact I. Qed.

Lemma dispatch_partitions_witness :
  ∃ batches next, dispatch sample_sharded Flow [event_at 5; event_at 6] = Ok (batches, next) ∧
    concat batches ≡ₚ [event_at 5; event_at 6].
Proof.
  destruct (dispatch_partitions sample_sharded Flow [event_at 5; event_at 6])
    as (batches & next & H & _ & _ & Hc & _); [split; by range_tac|].
  exists batches, next. split; [exact H|exact Hc].
Defined.

(** The window of each query holds both shards' events. *)
Lemma sharded_windows_merge_witness :
  ∃ merged w, merge_shards (WS := QueryState_Window 0)
      (shards_after (WS := QueryState_Window 0) sample_engine sample_shard_ops) ∅ =
      (Ok merged, drain_all <$> shards_after (WS := QueryState_Window 0) sample_engine sample_shard_ops) ∧
    merged !! first_hot = Some w ∧
    zlen (gathered first_hot (all_outputs two_plans sample_shard_ops)) = 2.
Proof.
  destruct (sharded_windows_merge (LW := QueryState_Lawful 0) HashSpec_default two_plans
    two_plans_names sample_engine sample_shard_ops two_plans_ok sample_engine_new
    sample_shard_ops_ok) as (merged & Hm & Hall).
  specialize (Hall first_hot). destruct (merged !! first_hot) as [w|] eqn:E.
  - exists merged, w. split; [exact Hm|]. split; [exact E|]. vm_compute. reflexivity.
  - exfalso. revert Hall.
    set (y := nth 0 (all_outputs two_plans sample_shard_ops) ("", (0, 0, []))). intros Hall.
    refine (Hall y _ _); vm_compute; [left|reflexivity].
Defined.

Lemma sharded_guarantees_witness :
  ∃ merged, (merge_shards (WS := QueryState_Window 0)
      (shards_after (WS := QueryState_Window 0) sample_engine sample_shard_ops) ∅).1 = Ok merged.
Proof.
  destruct (sharded_guarantees 0 HashSpec_default two_plans sample_engine sample_shard_ops
    two_plans_names two_plans_ok sample_engine_new sample_shard_ops_ok) as (merged & H & _).
  exists merged. exact H.
Defined.
