(* ===== verification/Lanes.v ===== *)
(** * The queue-local runtime  (crates/flowsketch-agent/src/direct_runtime.rs)

    One engine thread per capture lane and a coordinator that, at every flush,
    runs a two-phase barrier: it pauses all workers, advances their engines to
    the largest time stamp any of them has seen, collects their windows, merges
    and publishes them.

    Threads are interleaved step by step.  A channel is the list of its messages;
    a step of a worker is a turn of its loop, of the inner batch loop (one event
    and the attempt to receive the next), or the handling of a message; a step
    of the coordinator sends or receives one message.  Waiting is a step that is
    not enabled; what a timeout does is a step of its own.  A worker's failure
    ends in [Failed], which the coordinator notices when it polls.  Starting and
    pinning the threads is not modelled, nor is the shutdown that dropping the
    runtime sends to all workers. *)
From S2P Require Import Prelude Bytes Maps Hash Sketch F64 Event Ir Planner QueryState Window.
From S2P Require Import Engine Sharded.

(** What ends a worker or fails a checkpoint: the code's messages, by cause. *)
Inductive Detail :=
  | CannotProcess (e : SketchError)
  | CannotAdvance (e : SketchError)
  | CannotFinish (e : SketchError)
  | CannotCheckpoint (e : SketchError)
  | CheckpointBeforePause
  | TwoPauses
  | Panicked.

Inductive AgentError :=
  | LaneFailed (lane : nat) (detail : Detail)
  | ReportFailed (detail : Detail)
  | WrongLane (lane expected : nat)
  | Disconnected
  | Engine (e : SketchError)
  | NoSlotPerLane
  | ZeroBatchSize
  | AffinityMismatch.

Record PauseAck := mkAck { ack_lane : nat; max_timestamp_nanos : option Z }.

Inductive WorkerControl :=
  | Pause
  | Checkpoint (watermark : option Z) (include_current finish : bool)
  | Shutdown.

(** The lane's share of the channel capacity. *)
Definition lane_capacity (total_channel_capacity lane_count lane : Z) : Z :=
  total_channel_capacity / lane_count + (if lane <? total_channel_capacity mod lane_count then 1 else 0).

Section lanes.
Context {S : Type} `{WS : !WindowSketch S} (sketch_memory_bytes : QueryEngine S → Z).

Record WorkerReport := mkReport {
  report_lane : nat;
  completed : list (QueryWindowState S);
  current : list (QueryWindowState S);
  report_memory : Z;
  report_late : Z;
}.

(** ** A worker *)

(** Where a worker is: at the head of its loop; about to process [event] with
    [processed] events of the batch done; waiting for the checkpoint. *)
Inductive Position :=
  | AtLoop
  | InBatch (processed : Z) (event : FlowEvent)
  | Paused
  | Returned
  | Failed (detail : Detail).

Record Lane := mkLane {
  engine : QueryEngine S;
  max_seen : option Z;
  data_open : bool;
  position : Position;
  (** the event channel, whether a sender is left, and its capacity *)
  channel : list FlowEvent;
  sender_open : bool;
  capacity : Z;
  (** the control channel *)
  controls : list WorkerControl;
  (** published counters: events processed and batches *)
  events_counted : Z;
  batches : Z;
  userspace_drops : Z;
}.

(** What a step sends: nothing, on the channel of drained lanes, of
    acknowledgements, or of reports. *)
Inductive Output :=
  | Silent
  | Drained (ack : PauseAck)
  | Acknowledged (ack : PauseAck)
  | Replied (report : outcome Detail WorkerReport).

Definition set_position (l : Lane) (p : Position) : Lane :=
  mkLane (engine l) (max_seen l) (data_open l) p (channel l) (sender_open l) (capacity l)
    (controls l) (events_counted l) (batches l) (userspace_drops l).
Definition set_channel (l : Lane) (c : list FlowEvent) : Lane :=
  mkLane (engine l) (max_seen l) (data_open l) (position l) c (sender_open l) (capacity l)
    (controls l) (events_counted l) (batches l) (userspace_drops l).
Definition set_controls (l : Lane) (cs : list WorkerControl) : Lane :=
  mkLane (engine l) (max_seen l) (data_open l) (position l) (channel l) (sender_open l) (capacity l)
    cs (events_counted l) (batches l) (userspace_drops l).
Definition set_engine (l : Lane) (e : QueryEngine S) : Lane :=
  mkLane e (max_seen l) (data_open l) (position l) (channel l) (sender_open l) (capacity l)
    (controls l) (events_counted l) (batches l) (userspace_drops l).
Definition see (l : Lane) (ts : Z) : Lane :=
  mkLane (engine l) (Some (match max_seen l with None => ts | Some m => Z.max m ts end)) (data_open l)
    (position l) (channel l) (sender_open l) (capacity l) (controls l) (events_counted l) (batches l)
    (userspace_drops l).
Definition close_data (l : Lane) : Lane :=
  mkLane (engine l) (max_seen l) false (position l) (channel l) (sender_open l) (capacity l)
    (controls l) (events_counted l) (batches l) (userspace_drops l).
(** The counters at the end of a batch. *)
Definition count_batch (l : Lane) (processed : Z) : Lane :=
  mkLane (engine l) (max_seen l) (data_open l) (position l) (channel l) (sender_open l) (capacity l)
    (controls l) (events_counted l +ʷ processed) (batches l +ʷ 1) (userspace_drops l).

(** [r.map_err(f)] after a method call. *)
Definition at_ {A} (f : SketchError → Detail) (m : stm (QueryEngine S) SketchError A)
    : stm (QueryEngine S) Detail A :=
  λ eng, let '(r, eng) := m eng in (map_err f r, eng).

Definition build_report (lane : nat) (watermark : option Z) (include_current finish : bool)
    : stm (QueryEngine S) Detail WorkerReport :=
  _ ← at_ CannotAdvance (opt_advance watermark);
  _ ← (if finish then at_ CannotFinish engine_finish else mret tt);
  completed ← at_ CannotCheckpoint take_window_states;
  current ← asks (λ eng, if include_current then map_err CannotCheckpoint (current_window_states eng) else Ok []);
  gets (λ eng, mkReport lane completed current (sketch_memory_bytes eng) (total_late_events eng)).

(** The worker's acknowledgement. *)
Definition ack_of (lane : nat) (l : Lane) : PauseAck := mkAck lane (max_seen l).

(** The end of the event channel. *)
Definition drain_ended (lane : nat) (l : Lane) : Lane * Output :=
  let l := close_data l in (l, Drained (ack_of lane l)).

(** [handle_control] up to the pause. *)
Definition handle_control (lane : nat) (c : WorkerControl) (l : Lane) : Lane * Output :=
  match c with
  | Shutdown => (set_position l Returned, Silent)
  | Checkpoint _ _ _ => (set_position l (Failed CheckpointBeforePause), Silent)
  | Pause => (set_position l Paused, Acknowledged (ack_of lane l))
  end.

(** The rest of [handle_control], once the next message is there. *)
Definition handle_paused (lane : nat) (c : WorkerControl) (l : Lane) : Lane * Output :=
  match c with
  | Checkpoint watermark include_current finish =>
      let '(report, eng) := build_report lane watermark include_current finish (engine l) in
      let l := set_engine l eng in
      match report with
      | Panic => (set_position l (Failed Panicked), Silent)
      | _ => (set_position l (if finish then Returned else AtLoop), Replied report)
      end
  | Shutdown => (set_position l Returned, Silent)
  | Pause => (set_position l (Failed TwoPauses), Silent)
  end.

(** One event of a batch, and the attempt to receive the next. *)
Definition batch_turn (batch_size : Z) (lane : nat) (processed : Z) (event : FlowEvent) (l : Lane)
    : Lane * Output :=
  match engine_process event (engine l) with
  | (Err e, eng) => (set_position (set_engine l eng) (Failed (CannotProcess e)), Silent)
  | (Panic, eng) => (set_position (set_engine l eng) (Failed Panicked), Silent)
  | (Ok _, eng) =>
      let l := see (set_engine l eng) (ts_nanos event) in
      let processed := processed +ʷ 1 in
      if processed =? batch_size then (set_position (count_batch l processed) AtLoop, Silent)
      else match channel l with
           | next :: rest => (set_position (set_channel l rest) (InBatch processed next), Silent)
           | [] =>
               let '(l, out) := if sender_open l then (l, Silent) else drain_ended lane l in
               (set_position (count_batch l processed) AtLoop, out)
           end
  end.

(** A step of the worker of [lane]; [None] while it waits. *)
Definition worker_step (batch_size : Z) (lane : nat) (l : Lane) : option (Lane * Output) :=
  match position l with
  | AtLoop =>
      match controls l with
      | c :: cs => Some (handle_control lane c (set_controls l cs))
      | [] =>
          if data_open l then
            match channel l with
            | event :: rest => Some (set_position (set_channel l rest) (InBatch 0 event), Silent)
            | [] => if sender_open l then None else Some (drain_ended lane l)
            end
          else None
      end
  | InBatch processed event => Some (batch_turn batch_size lane processed event l)
  | Paused =>
      match controls l with
      | c :: cs => Some (handle_paused lane c (set_controls l cs))
      | [] => None
      end
  | Returned | Failed _ => None
  end.

(** The receiving ends of a lane's channels are dropped with its thread. *)
Definition alive (l : Lane) : bool :=
  match position l with Returned | Failed _ => false | _ => true end.

(** [offer_event]: capture drops, and counts, what a full channel refuses. *)
Definition has_slot (l : Lane) : bool := zlen (channel l) <? capacity l.
Definition offer_event (event : FlowEvent) (l : Lane) : Lane :=
  if has_slot l then set_channel l (channel l ++ [event])
  else mkLane (engine l) (max_seen l) (data_open l) (position l) (channel l) (sender_open l) (capacity l)
         (controls l) (events_counted l) (batches l) (userspace_drops l +ʷ 1).
Definition close_sender (l : Lane) : Lane :=
  mkLane (engine l) (max_seen l) (data_open l) (position l) (channel l) false (capacity l)
    (controls l) (events_counted l) (batches l) (userspace_drops l).

(** ** Starting *)

Definition new_lane (engine : QueryEngine S) (capacity : Z) : Lane :=
  mkLane engine None true AtLoop [] true capacity [] 0 0 0.

(** [new_with_options] up to the threads: the lanes before any of them runs. *)
Definition new_with_options (plans : list Plan) (hash : HashSpec) (lane_count batch_size : Z)
    (worker_cpus : option (list Z)) (total_channel_capacity initial_watermark_nanos : Z)
    : outcome AgentError (list Lane) :=
  _ ← fail_if ((lane_count =? 0) || (total_channel_capacity <? lane_count)) NoSlotPerLane;
  _ ← fail_if (batch_size =? 0) ZeroBatchSize;
  _ ← match worker_cpus with
      | Some cpus => fail_if (negb (zlen cpus =? lane_count)) AffinityMismatch
      | None => Ok tt
      end;
  engines ← foldM (λ l _, eng ← map_err Engine (engine_new plans hash); Ok (l ++ [eng])) []
              (replicate (Z.to_nat lane_count) tt);
  engines ← foldM (λ l eng, match engine_advance_to initial_watermark_nanos eng with
                            | (Ok _, eng) => Ok (l ++ [eng])
                            | (Err e, _) => Err (Engine e)
                            | (Panic, _) => Panic
                            end) [] engines;
  Ok (imap (λ lane eng, new_lane eng (lane_capacity total_channel_capacity lane_count (Z.of_nat lane))) engines).

(** ** Publication *)

Record Publication := mkPublication {
  pb_completed : gmap wkey (WindowState S);
  pb_current : option (gmap wkey (WindowState S));
  pb_memory : Z;
  pb_late : Z;
}.

Abbreviation agent := (outcome AgentError).

Definition merge_windows (merged : gmap wkey (WindowState S)) (windows : list (QueryWindowState S))
    : agent (gmap wkey (WindowState S)) :=
  map_err Engine (merge_outputs merged windows).

(** The current windows of one query have the same bounds in every lane. *)
Definition check_bounds (bounds : gmap string (Z * Z)) (w : QueryWindowState S)
    : agent (gmap string (Z * Z)) :=
  let b := (window_start_nanos (qw_state w), window_end_nanos (qw_state w)) in
  match bounds !! qw_query_name w with
  | Some existing =>
      if bool_decide (existing = b) then Ok bounds
      else Err (Engine (IncompatibleMerge "unaligned current windows"))
  | None => Ok (<[qw_query_name w := b]> bounds)
  end.

(** The variables of the loop over the reports. *)
Record Gathered := mkGathered {
  g_completed : gmap wkey (WindowState S);
  g_current : gmap wkey (WindowState S);
  g_bounds : gmap string (Z * Z);
  g_memory : Z;
  g_late : Z;
}.
Definition gather_report (include_current : bool) (g : Gathered) (r : WorkerReport) : agent Gathered :=
  let memory := sat_add64 (g_memory g) (report_memory r) in
  let late := sat_add64 (g_late g) (report_late r) in
  done ← merge_windows (g_completed g) (completed r);
  if include_current then
    bounds ← foldM check_bounds (g_bounds g) (current r);
    cur ← merge_windows (g_current g) (current r);
    Ok (mkGathered done cur bounds memory late)
  else Ok (mkGathered done (g_current g) (g_bounds g) memory late).

Definition publish_reports (reports : list WorkerReport) (include_current : bool) : agent Publication :=
  g ← foldM (gather_report include_current) (mkGathered ∅ ∅ ∅ 0 0) reports;
  Ok (mkPublication (g_completed g) (if include_current then Some (g_current g) else None)
        (g_memory g) (g_late g)).

(** ** The coordinator *)

(** Where the coordinator is in [checkpoint(finish)]. *)
Inductive Coordinator :=
  | Idle
  | Draining (got : list PauseAck)
  | Pausing (finish : bool) (sent : nat)
  | Collecting (finish : bool) (got : list PauseAck)
  | Ordering (finish include_current : bool) (watermark : option Z) (sent : nat)
  | Reporting (finish include_current : bool) (got : list WorkerReport)
  | Finished
  | Broken (e : AgentError).

Record World := mkWorld {
  lanes : list Lane;
  drained : list PauseAck;
  acks : list PauseAck;
  replies : list (outcome Detail WorkerReport);
  coordinator : Coordinator;
  published : list Publication;
}.

Definition set_coordinator (w : World) (c : Coordinator) : World :=
  mkWorld (lanes w) (drained w) (acks w) (replies w) c (published w).
Definition set_lane (w : World) (i : nat) (l : Lane) : World :=
  mkWorld (<[i := l]> (lanes w)) (drained w) (acks w) (replies w) (coordinator w) (published w).

(** [sort_by_key(lane)] and the check that every lane answered once. *)
Definition by_lane {A} (lane : A → nat) (l : list A) : list A :=
  sort_by (λ a b, Nat.compare (lane a) (lane b)) l.
Fixpoint check_lanes {A} (lane : A → nat) (expected : nat) (l : list A) : agent unit :=
  match l with
  | [] => Ok tt
  | a :: l =>
      _ ← fail_if (negb (lane a =? expected)%nat) (WrongLane (lane a) expected);
      check_lanes lane (Datatypes.S expected) l
  end.

Definition lane_count (w : World) : nat := length (lanes w).

(** [iter().filter_map(..).max()] *)
Definition watermark_of (l : list PauseAck) : option Z := ts_max (omap max_timestamp_nanos l).

(** Send [c] to the worker of the next lane. *)
Definition send_control (w : World) (i : nat) (c : WorkerControl) (next : Coordinator) : World :=
  match lanes w !! i with
  | Some l => if alive l then set_coordinator (set_lane w i (set_controls l (controls l ++ [c]))) next
              else set_coordinator w (Broken Disconnected)
  | None => w
  end.

(** A step of [checkpoint] in progress; [None] while it waits.  [due]:
    [snapshot_export_due(finish)] where it is asked. *)
Definition coordinator_step (due : bool) (w : World) : option World :=
  let n := lane_count w in
  match coordinator w with
  | Idle | Finished | Broken _ => None
  | Draining got =>
      if (length got =? n)%nat then
        Some (set_coordinator w
          match check_lanes ack_lane 0 (by_lane ack_lane got) with
          | Ok _ => Pausing true 0
          | Err e => Broken e
          | Panic => Broken Disconnected
          end)
      else match drained w with
           | a :: rest => Some (mkWorld (lanes w) rest (acks w) (replies w) (Draining (got ++ [a])) (published w))
           | [] => None
           end
  | Pausing finish sent =>
      if (sent =? n)%nat then Some (set_coordinator w (Collecting finish []))
      else Some (send_control w sent Pause (Pausing finish (Datatypes.S sent)))
  | Collecting finish got =>
      if (length got =? n)%nat then
        let got := by_lane ack_lane got in
        Some (set_coordinator w
          match check_lanes ack_lane 0 got with
          | Ok _ => Ordering finish due (watermark_of got) 0
          | Err e => Broken e
          | Panic => Broken Disconnected
          end)
      else match acks w with
           | a :: rest => Some (mkWorld (lanes w) (drained w) rest (replies w) (Collecting finish (got ++ [a])) (published w))
           | [] => None
           end
  | Ordering finish include_current watermark sent =>
      if (sent =? n)%nat then Some (set_coordinator w (Reporting finish include_current []))
      else Some (send_control w sent (Checkpoint watermark include_current finish)
                   (Ordering finish include_current watermark (Datatypes.S sent)))
  | Reporting finish include_current got =>
      if (length got =? n)%nat then
        let got := by_lane report_lane got in
        Some match (_ ← check_lanes report_lane 0 got; publish_reports got include_current) with
             | Ok p => mkWorld (lanes w) (drained w) (acks w) (replies w)
                         (if finish then Finished else Idle) (published w ++ [p])
             | Err e => set_coordinator w (Broken e)
             | Panic => set_coordinator w (Broken Disconnected)
             end
      else match replies w with
           | Ok r :: rest => Some (mkWorld (lanes w) (drained w) (acks w) rest
                                     (Reporting finish include_current (got ++ [r])) (published w))
           | Err d :: rest => Some (mkWorld (lanes w) (drained w) (acks w) rest (Broken (ReportFailed d)) (published w))
           | Panic :: rest => Some (mkWorld (lanes w) (drained w) (acks w) rest (Broken Disconnected) (published w))
           | [] => None
           end
  end.

(** The first worker that failed, as [check_failure] finds it. *)
Definition failure (w : World) : option AgentError :=
  head (omap (λ x : nat * Lane, match position x.2 with Failed d => Some (LaneFailed x.1 d) | _ => None end)
          (imap pair (lanes w))).

(** A worker's step, with what it sends. *)
Definition deliver (w : World) (out : Output) : World :=
  match out with
  | Silent => w
  | Drained a => mkWorld (lanes w) (drained w ++ [a]) (acks w) (replies w) (coordinator w) (published w)
  | Acknowledged a => mkWorld (lanes w) (drained w) (acks w ++ [a]) (replies w) (coordinator w) (published w)
  | Replied r => mkWorld (lanes w) (drained w) (acks w) (replies w ++ [r]) (coordinator w) (published w)
  end.

(** ** Interleavings *)

(** A step, labelled with the event that capture put into a lane's channel. *)
Inductive Step (batch_size : Z) (w : World) : option (nat * FlowEvent) → World → Prop :=
  | step_capture i l e :
      lanes w !! i = Some l → sender_open l = true → alive l = true → event_ok e →
      Step batch_size w (if has_slot l then Some (i, e) else None) (set_lane w i (offer_event e l))
  | step_close i l :
      lanes w !! i = Some l → Step batch_size w None (set_lane w i (close_sender l))
  | step_worker i l l' out :
      lanes w !! i = Some l → worker_step batch_size i l = Some (l', out) →
      Step batch_size w None (deliver (set_lane w i l') out)
  | step_begin (finish : bool) :
      coordinator w = Idle → failure w = None →
      Step batch_size w None (set_coordinator w (if finish then Draining [] else Pausing false 0))
  | step_coordinator due w' :
      coordinator_step due w = Some w' → Step batch_size w None w'
  | step_notice e :
      failure w = Some e → coordinator w ≠ Finished →
      Step batch_size w None (set_coordinator w (Broken e)).

(** A run, with the events captured during it in order. *)
Inductive Run (batch_size : Z) (w0 : World) : list (nat * FlowEvent) → World → Prop :=
  | run_start : Run batch_size w0 [] w0
  | run_step sent w label w' :
      Run batch_size w0 sent w → Step batch_size w label w' →
      Run batch_size w0 (sent ++ option_list label) w'.
End lanes.
