(* ===== verification/LaneReports.v ===== *)
(** * What the lanes report at a checkpoint

    The histories of the lanes' engines, the windows their reports carry, and why
    the reports of all lanes can be merged: engines that start at one watermark
    and are advanced to another hold the same open window, whatever each of
    them processed in between. *)
From S2P Require Import Prelude Bytes Maps Hash Sketch F64 Event Ir Planner QueryState Emit Window.
From S2P Require Import Engine Sharded WindowSpec Sliding EngineSpec ShardedSpec Lanes.

(** ** The open window after a watermark *)

Section ring.
Context (p : Plan).
Let sl : Z := slide_nanos (window (query p)).
Let rg : Z := window_buckets (physical p).

(** The time stamp an operation brings to a query. *)
Definition op_ts (op : Op) : option Z :=
  match op with
  | OpEvent e => Some (ts_nanos e)
  | OpAdvance ts => Some ts
  | OpFinish | OpDrain => None
  end.
Definition upto (t : Z) (op : Op) : Prop := ∀ ts, op_ts op = Some ts → ts <= t.

(** The ring of a query opened at bucket [f0] that saw nothing after [t]. *)
Definition opened (f0 t : Z) (A : Spec) : Prop :=
  ∃ back, sp_ring A = Some (Z.max f0 (back - sl * (rg - 1)), back) ∧
    f0 <= back <= Z.max f0 (start_of p t).

Lemma start_of_mono a b : 0 < sl → a <= b → start_of p a <= start_of p b.
Proof using.
  intros Hs H. unfold start_of. fold sl. rewrite !Z.mod_eq by lia.
  assert (a / sl <= b / sl) by by apply Z.div_le_mono. nia.
Qed.

Lemma opened_advance f0 t ts A :
  0 < sl → 1 <= rg → ts <= t → opened f0 t A → opened f0 t (spec_advance sl rg (start_of p ts) A).
Proof using.
  intros Hs Hr Hts (back & Hring & Hb). unfold spec_advance. rewrite Hring.
  pose proof (start_of_mono ts t Hs Hts). destruct (Z.leb_spec (start_of p ts) back); [by exists back|].
  exists (start_of p ts). cbn [sp_ring]. split; [|lia]. do 2 f_equal. nia.
Qed.

Lemma opened_effect f0 t op A :
  0 < sl → 1 <= rg → upto t op → opened f0 t A → opened f0 t (op_effect p op A).
Proof using.
  intros Hs Hr Hop Hopen. destruct op as [e|ts| |]; cbn [op_effect].
  - destruct (accepts p e); [|done]. unfold spec_process. fold sl rg.
    apply (opened_advance f0 t (ts_nanos e)) in Hopen as (back & Hring & Hb); [|done|done|by apply Hop].
    exists back. split; [|done]. unfold spec_log. rewrite Hring. by case_match.
  - apply opened_advance; [done|done| |done]. by apply Hop.
  - destruct Hopen as (back & Hring & Hb). exists back. split; [|done]. unfold spec_finish. by rewrite Hring.
  - destruct Hopen as (back & Hring & Hb). by exists back.
Qed.

(** After the watermark [t] itself the ring is the same whatever came before. *)
Definition ring_at (f0 t : Z) : Z * Z :=
  let back := Z.max f0 (start_of p t) in (Z.max f0 (back - sl * (rg - 1)), back).

Lemma opened_at f0 t A :
  0 < sl → 1 <= rg → opened f0 t A →
  sp_ring (spec_advance sl rg (start_of p t) A) = Some (ring_at f0 t).
Proof using.
  intros Hs Hr (back & Hring & Hb). unfold spec_advance, ring_at. rewrite Hring.
  destruct (Z.leb_spec (start_of p t) back) as [Hle|Hle].
  - replace (Z.max f0 (start_of p t)) with back by lia. done.
  - cbn [sp_ring]. replace (Z.max f0 (start_of p t)) with (start_of p t) by lia. do 2 f_equal. nia.
Qed.

(** The first watermark opens the ring. *)
Lemma opened_first t t' : 0 < sl → 1 <= rg → t <= t' →
  opened (start_of p t) t' (spec_advance sl rg (start_of p t) spec_new).
Proof using.
  intros Hs Hr Ht. exists (start_of p t). cbn [spec_advance spec_new sp_ring]. split; [do 2 f_equal; nia|].
  pose proof (start_of_mono t t' Hs Ht). lia.
Qed.
End ring.

(** ** Histories *)

Section histories.
Context {S : Type} `{WS : !WindowSketch S} {supported : PhysicalSketch → Prop}
  {like : S → S → Prop} {LW : LawfulWindow S supported like}.
Context (h : HashSpec) (plans : list Plan) (Hnames : NoDup ((λ p, q_name (query p)) <$> plans)).
Context (Hplans : Forall (plan_ok supported) plans) (eng0 : QueryEngine S) (Hnew : engine_new plans h = Ok eng0).
Context (mem : QueryEngine S → Z).
Abbreviation shard_rep := (shard_rep (like := like) (supported := supported) h plans).
Abbreviation output_rep := (output_rep (like := like) h plans).

(** The engine after the operations [ops], all of which succeeded. *)
Definition after (ops : list Op) : QueryEngine S := (run_engine_ops ops eng0).2.
Definition succeed (ops : list Op) : Prop :=
  Forall op_ok ops ∧ Forall (λ r, r = Ok tt) (run_engine_ops ops eng0).1.
(** The abstract machine of [p] after them. *)
Definition hist (ops : list Op) (p : Plan) : Spec := foldl (λ A op, op_effect p op A) spec_new ops.
Definition spec_after (ops : list Op) : list (Plan * Spec) := (λ p, (p, hist ops p)) <$> plans.

Lemma run_engine_ops_app ops ops' (eng : QueryEngine S) :
  run_engine_ops (ops ++ ops') eng =
  ((run_engine_ops ops eng).1 ++ (run_engine_ops ops' (run_engine_ops ops eng).2).1,
   (run_engine_ops ops' (run_engine_ops ops eng).2).2).
Proof using.
  revert eng. induction ops as [|op ops IH]; intros eng; cbn [app run_engine_ops fst snd]; [by destruct (run_engine_ops ops' eng)|].
  destruct (run_engine_op op eng) as [x eng']. rewrite IH. by destruct (run_engine_ops ops eng').
Qed.

Lemma spec_ops_effects ops l :
  Forall (λ r, r = Ok tt) (spec_engine_ops ops l).1 →
  (spec_engine_ops ops l).2 = (λ x, (x.1, foldl (λ A op, op_effect x.1 op A) x.2 ops)) <$> l.
Proof using.
  revert l. induction ops as [|op ops IH]; intros l H.
  - cbn [spec_engine_ops snd foldl]. rewrite <- (list_fmap_id l) at 1. apply list_fmap_ext. by intros i [] _.
  - cbn [spec_engine_ops foldl] in *. unfold spec_engine_op in *. destruct (forallb _ l).
    + specialize (IH ((λ x, (x.1, op_effect x.1 op x.2)) <$> l)). destruct (spec_engine_ops ops _) as [xs l'].
      cbn [fst snd] in *. apply Forall_cons in H as [_ H]. rewrite (IH H), <- list_fmap_compose.
      by apply list_fmap_ext.
    + destruct (spec_engine_ops ops l). cbn [fst] in H. by apply Forall_cons in H as [? _].
Qed.

Lemma after_rep ops : succeed ops → shard_rep (after ops) (spec_after ops).
Proof using LW Hnew Hplans.
  intros [Hops Hok]. destruct (engine_ops_spec (LW := LW) h ops eng0 ((λ p, (p, spec_new)) <$> plans)) as [Hr Ht];
    [by apply engine_new_spec|done|].
  rewrite Hr in Hok. rewrite (spec_ops_effects _ _ Hok), <- list_fmap_compose in Ht. split; [exact Ht|].
  unfold spec_after. rewrite <- list_fmap_compose. apply list_fmap_id.
Qed.

(** The next operation succeeds or, for lack of room, does nothing. *)
Lemma after_op ops op :
  succeed ops → op_ok op →
  run_engine_op op (after ops) = (Ok tt, after (ops ++ [op])) ∧ succeed (ops ++ [op]) ∨
  run_engine_op op (after ops) = (pending_full, after ops).
Proof using LW Hnew Hplans.
  intros Hs Hop. destruct (after_rep ops Hs) as [Ht _].
  pose proof (engine_op_spec (LW := LW) h op _ _ Ht Hop) as H. destruct (forallb _ _); [left|by right].
  destruct H as (eng & H & _). unfold after. rewrite run_engine_ops_app. cbn [run_engine_ops].
  fold (after ops). rewrite H. split; [done|]. destruct Hs as [Hops Hok]. split; [by apply Forall_app; split; [|constructor]|].
  rewrite run_engine_ops_app. cbn [run_engine_ops]. fold (after ops). rewrite H. cbn [fst].
  apply Forall_app. split; [done|]. by constructor.
Qed.

(** ** The windows of a report *)

(** The open window of each query. *)
Definition open_window (x : Plan * Spec) : list (string * (Z * Z * list Item)) :=
  match sp_ring x.2 with
  | Some (front, back) =>
      let sl := slide_nanos (window (query x.1)) in
      [(q_name (query x.1), (front, back +ʷ sl, in_window (sp_log x.2) front (back + sl)))]
  | None => []
  end.
Definition currents (l : list (Plan * Spec)) : list (string * (Z * Z * list Item)) := concat (open_window <$> l).

Lemma current_window_rep q x :
  tracks (like := like) (supported := supported) h q x → x.1 ∈ plans →
  ∃ out, current_window q = Ok out ∧ Forall2 output_rep out (open_window x).
Proof using LW.
  destruct x as [p A]. intros (Hp & r & Hr & [Hm Hg _ _ _]) Hin. cbn [fst snd] in *. unfold current_window, open_window.
  cbn [fst snd]. destruct (sp_ring A) as [[front back0]|] eqn:E.
  - pose proof (ring_back p h r q _ _ _ Hg) as Hb. pose proof (ring_window p h r Hp _ _ _ _ Hg) as Hw.
    destruct Hg as [(n & _ & _ & Hs) _ _ _ Hst].
    destruct (buckets q) as [|first rest] eqn:Eb; [done|].
    destruct (merge_buckets_good p h r (in_bucket (sp_log A)) first rest Hst) as (s & Hs' & Hgs).
    rewrite Hs'. ostep. rewrite Hb. ostep. eexists. split; [done|]. constructor; [|constructor].
    cbn [fmap list_fmap span] in Hs. injection Hs as Hf _. unfold ShardedSpec.output_rep, window_key, out_key, slide.
    cbn [qw_query_name qw_state window_start_nanos window_end_nanos w_state fst snd]. rewrite (md_plan _ _ _ Hm), Hf.
    split; [done|]. exists p, r. do 3 (split; [done|]). by eapply good_perm.
  - destruct Hg as [-> _]. eexists. split; [done|constructor].
Qed.

Lemma current_windows_rep eng l :
  shard_rep eng l →
  ∃ out, current_window_states eng = Ok out ∧ Forall2 output_rep out (currents l).
Proof using LW.
  intros [Ht Hl]. unfold current_window_states, currents.
  assert (∀ x, x ∈ l → x.1 ∈ plans) as Hin by (intros x Hx; rewrite <- Hl; by apply list_elem_of_fmap_2).
  clear Hl. unfold tracks_all in Ht.
  enough (∀ out ys, Forall2 output_rep out ys → ∃ out',
    foldM (λ out q, w ← current_window q; Ok (out ++ w)) out (queries eng) = Ok out' ∧
    Forall2 output_rep out' (ys ++ concat (open_window <$> l))) as H by by apply (H [] []).
  induction Ht as [|q x qs l Hqx _ IH]; intros out ys Ho; cbn [foldM fmap list_fmap concat].
  - exists out. by rewrite app_nil_r.
  - destruct (current_window_rep q x Hqx) as (w & -> & Hw); [apply Hin; by left|]. ostep.
    rewrite app_assoc. apply IH; [intros x' Hx'; apply Hin; by right|]. by apply Forall2_app.
Qed.

(** ** Reports *)

Definition watermark_ops (watermark : option Z) : list Op :=
  match watermark with Some t => [OpAdvance t] | None => [] end.
(** What a checkpoint does to an engine before it collects the windows. *)
Definition closing_ops (watermark : option Z) (finish : bool) : list Op :=
  watermark_ops watermark ++ (if finish then [OpFinish] else []).
Definition checkpoint_ops (watermark : option Z) (finish : bool) : list Op :=
  closing_ops watermark finish ++ [OpDrain].

(** The engine of [lane] had the history [ops] when it reported. *)
Record reported (lane : nat) (ops : list Op) (watermark : option Z) (inc fin : bool) (r : WorkerReport (S := S)) : Prop := {
  rp_lane : report_lane r = lane;
  rp_closed : succeed (ops ++ checkpoint_ops watermark fin);
  rp_completed : Forall2 output_rep (completed r) (outputs (spec_after (ops ++ closing_ops watermark fin)));
  rp_current : if inc then Forall2 output_rep (current r) (currents (spec_after (ops ++ closing_ops watermark fin)))
               else current r = [];
}.

(** A refused step of the report: backpressure, which is all an engine refuses. *)
Definition refused (d : Detail) : Prop :=
  ∃ msg, d = CannotAdvance (Backpressure msg) ∨ d = CannotFinish (Backpressure msg).

Lemma spec_after_snoc ops op : spec_after (ops ++ [op]) = (λ x, (x.1, op_effect x.1 op x.2)) <$> spec_after ops.
Proof using.
  unfold spec_after, hist. rewrite <- list_fmap_compose. apply list_fmap_ext. intros i p _. cbn.
  by rewrite foldl_app.
Qed.

Lemma currents_drained l : currents ((λ x, (x.1, op_effect x.1 OpDrain x.2)) <$> l) = currents l.
Proof using. unfold currents. rewrite <- list_fmap_compose. f_equal. Qed.

Lemma run_watermark ops (watermark : option Z) : succeed ops → (∀ t, watermark = Some t → u64_ok t) →
  opt_advance watermark (after ops) = (Ok tt, after (ops ++ watermark_ops watermark)) ∧
    succeed (ops ++ watermark_ops watermark) ∨
  opt_advance watermark (after ops) = (pending_full, after ops).
Proof using LW Hnew Hplans.
  intros Hs Hw. destruct watermark as [t|]; cbn [opt_advance watermark_ops].
  - apply (after_op ops (OpAdvance t)); [done|by apply Hw].
  - rewrite app_nil_r. by left.
Qed.

Lemma run_finish ops (fin : bool) : succeed ops →
  let ops' := ops ++ (if fin then [OpFinish] else []) in
  (if fin then engine_finish else mret tt) (after ops) = (Ok tt, after ops') ∧ succeed ops' ∨
  fin = true ∧ (if fin then engine_finish else mret tt) (after ops) = (pending_full, after ops).
Proof using LW Hnew Hplans.
  intros Hs. destruct fin; cbv zeta.
  - destruct (after_op ops OpFinish Hs I) as [H|H]; [by left|by right].
  - rewrite app_nil_r. by left.
Qed.

(** A report succeeds, and says what the lane's history closes, or an engine
    operation is refused and nothing else happened. *)
Lemma build_report_spec lane ops watermark inc fin :
  succeed ops → (∀ t, watermark = Some t → u64_ok t) →
  (∃ r, build_report mem lane watermark inc fin (after ops) =
      (Ok r, after (ops ++ checkpoint_ops watermark fin)) ∧ reported lane ops watermark inc fin r) ∨
  (∃ d, build_report mem lane watermark inc fin (after ops) = (Err d, after ops) ∧ refused d) ∨
  (∃ d, build_report mem lane watermark inc fin (after ops) = (Err d, after (ops ++ watermark_ops watermark)) ∧
    succeed (ops ++ watermark_ops watermark) ∧ refused d).
Proof using LW Hnames Hnew Hplans.
  intros Hs Hw. unfold build_report, at_. stm_simpl.
  destruct (run_watermark ops watermark Hs Hw) as [[-> Hs1]| ->]; cbn [map_err]; stm_simpl.
  2: { right; left. eexists. split; [done|]. eexists. by left. }
  destruct (run_finish _ fin Hs1) as [[Hf Hs2]|[Hfin Hf]].
  2: { right; right. destruct fin; [|done]. rewrite Hf. cbn [map_err]. eexists. split; [done|]. split; [done|].
       eexists. by right. }
  left. replace ((if fin then λ eng, let '(r, e) := engine_finish eng in (map_err CannotFinish r, e) else mret tt)
    (after (ops ++ watermark_ops watermark))) with (Ok (E := Detail) tt, after ((ops ++ watermark_ops watermark) ++ (if fin then [OpFinish] else [])))
    by (destruct fin; [by rewrite Hf|by injection Hf as ->]).
  stm_simpl. rewrite <- app_assoc in *. fold (closing_ops watermark fin) in *.
  pose proof (after_rep _ Hs2) as Hrep.
  destruct (engine_outputs h plans _ _ Hrep) as (out & -> & Ho). cbn [map_err]. stm_simpl.
  destruct (after_op _ OpDrain Hs2 I) as [[Hd Hs3]|Hd]; [|discriminate Hd].
  rewrite <- app_assoc in *. fold (checkpoint_ops watermark fin) in *.
  cbn [run_engine_op] in Hd. unfold modify in Hd. injection Hd as Hd. rewrite Hd.
  destruct (current_windows_rep _ _ (after_rep _ Hs3)) as (cur & Hcur & Hc).
  unfold checkpoint_ops in Hc. rewrite app_assoc, spec_after_snoc, currents_drained in Hc.
  destruct inc; [rewrite Hcur|]; cbn [map_err]; stm_simpl; (eexists; split; [done|]; by split).
Qed.

(** ** Alignment *)

(** A lane's history: it opens at [init] and saw no time stamp after the
    watermark. *)
Definition paced (init : Z) (watermark : option Z) (ops : list Op) : Prop :=
  ∃ rest, ops = OpAdvance init :: rest ∧
    Forall (λ op, ∀ ts, op_ts op = Some ts → ∃ t, watermark = Some t ∧ ts <= t) rest.

Definition common_ring (init : Z) (watermark : option Z) (p : Plan) : Z * Z :=
  ring_at p (start_of p init) (Z.max init (default init watermark)).

Lemma paced_ring init watermark ops fin p : plan_ok supported p → paced init watermark ops →
  sp_ring (hist (ops ++ closing_ops watermark fin) p) = Some (common_ring init watermark p).
Proof using.
  intros Hp (rest & -> & Hrest). set (t := Z.max init (default init watermark)).
  assert (0 < slide_nanos (window (query p))) as Hs by apply Hp.
  assert (1 <= window_buckets (physical p)) as Hr by apply Hp.
  assert (opened p (start_of p init) t (hist (OpAdvance init :: rest) p)) as Ho.
  { unfold hist. cbn [foldl op_effect]. assert (Forall (upto t) rest) as Hup.
    { eapply Forall_impl; [exact Hrest|]. intros op H ts Hts. destruct (H ts Hts) as (w & Hw & ?).
      subst t. rewrite Hw. cbn [default from_option id]. lia. }
    clear Hrest. pose proof (opened_first p init t Hs Hr ltac:(lia)) as H0. revert H0.
    generalize (spec_advance (slide_nanos (window (query p))) (window_buckets (physical p)) (start_of p init) spec_new).
    induction Hup as [|op rest Hop _ IH]; intros A HA; cbn [foldl]; [done|]. by apply IH, opened_effect. }
  assert (sp_ring (hist ((OpAdvance init :: rest) ++ watermark_ops watermark) p) = Some (common_ring init watermark p)) as Hw.
  { unfold common_ring. fold t. unfold hist in *. rewrite foldl_app. revert Ho.
    generalize (foldl (λ A op, op_effect p op A) spec_new (OpAdvance init :: rest)). intros A Ho. destruct watermark as [w|]; cbn [watermark_ops foldl op_effect].
    - subst t. cbn [default from_option id] in *. destruct (Z.le_ge_cases init w).
      + rewrite Z.max_r in * by lia. by apply opened_at.
      + rewrite Z.max_l in * by lia. destruct Ho as (back & Hring & Hb).
        pose proof (start_of_mono p w init Hs ltac:(lia)). unfold spec_advance. rewrite Hring.
        rewrite (proj2 (Z.leb_le _ _)) by lia. rewrite Hring. unfold ring_at.
        replace (Z.max (start_of p init) (start_of p init)) with back by lia. do 2 f_equal.
    - subst t. cbn [default from_option id] in *. rewrite Z.max_id in *. destruct Ho as (back & Hring & Hb). rewrite Hring.
      unfold ring_at. replace (Z.max (start_of p init) (start_of p init)) with back by lia. do 2 f_equal. }
  unfold closing_ops. rewrite app_assoc. destruct fin; [|by rewrite app_nil_r].
  unfold hist in *. rewrite foldl_app. cbn [foldl op_effect]. unfold spec_finish. by rewrite Hw.
Qed.

(** The bounds of the open window of each query. *)
Definition common_bounds (init : Z) (watermark : option Z) (p : Plan) : Z * Z :=
  let '(front, back) := common_ring init watermark p in (front, back +ʷ slide_nanos (window (query p))).

Lemma currents_bounds init watermark ops fin y : paced init watermark ops →
  y ∈ currents (spec_after (ops ++ closing_ops watermark fin)) →
  ∃ p, p ∈ plans ∧ y.1 = q_name (query p) ∧ y.2.1 = common_bounds init watermark p.
Proof using Hplans.
  intros Hp Hy. unfold currents, spec_after in Hy. apply list_elem_of_In, in_concat in Hy as (ys & Hys & Hy).
  apply list_elem_of_In, list_elem_of_fmap in Hys as ([p A] & -> & Hx).
  apply list_elem_of_fmap in Hx as (p' & [= -> ->] & Hin). exists p'. split; [done|].
  rewrite Forall_forall in Hplans. apply list_elem_of_In in Hy. unfold open_window in Hy. cbn [fst snd] in Hy.
  rewrite (paced_ring _ _ _ _ _ (Hplans _ Hin) Hp) in Hy. unfold common_bounds.
  destruct (common_ring init watermark p') as [front back]. apply list_elem_of_singleton in Hy as ->. done.
Qed.

(** The bounds seen so far are those of the open windows. *)
Definition bounds_ok (init : Z) (watermark : option Z) (b : gmap string (Z * Z)) : Prop :=
  ∀ n x, b !! n = Some x → ∃ p, p ∈ plans ∧ n = q_name (query p) ∧ x = common_bounds init watermark p.

Lemma check_bounds_ok init watermark b o y :
  bounds_ok init watermark b → output_rep o y →
  (∃ p, p ∈ plans ∧ y.1 = q_name (query p) ∧ y.2.1 = common_bounds init watermark p) →
  ∃ b', check_bounds b o = Ok b' ∧ bounds_ok init watermark b'.
Proof using Hnames.
  intros Hb [Hk _] (p & Hp & Hn & Hy). unfold check_bounds.
  destruct y as [name [[start stop] items]]. unfold window_key, out_key in Hk. cbn [fst snd] in *.
  injection Hk as -> -> ->. subst name. destruct (b !! q_name (query p)) as [x|] eqn:E.
  - destruct (Hb _ _ E) as (p' & Hp' & Hn & ->). pose proof (named_unique plans Hnames p p' Hp Hp' Hn) as <-.
    rewrite bool_decide_eq_true_2 by done. by exists b.
  - eexists. split; [done|]. intros n x. destruct (decide (n = q_name (query p))) as [->|Hne].
    + rewrite lookup_insert_eq. intros [= <-]. by exists p.
    + rewrite lookup_insert_ne by done. apply Hb.
Qed.

Lemma check_all_bounds init watermark b out ys :
  bounds_ok init watermark b → Forall2 output_rep out ys →
  Forall (λ y, ∃ p, p ∈ plans ∧ y.1 = q_name (query p) ∧ y.2.1 = common_bounds init watermark p) ys →
  ∃ b', foldM check_bounds b out = Ok b' ∧ bounds_ok init watermark b'.
Proof using Hnames.
  intros Hb Ho. revert b Hb. induction Ho as [|o y out ys Hoy _ IH]; intros b Hb Hys; cbn [foldM]; [by exists b|].
  apply Forall_cons in Hys as [Hy Hys]. destruct (check_bounds_ok _ _ _ _ _ Hb Hoy Hy) as (b' & -> & Hb'). ostep. by apply IH.
Qed.

(** ** Publication *)

(** The abstract machines of the lanes with histories [bases] when they report. *)
Definition closed_specs (watermark : option Z) (fin : bool) (bases : list (list Op)) : list (list (Plan * Spec)) :=
  (λ ops, spec_after (ops ++ closing_ops watermark fin)) <$> bases.

(** What is published of lanes with those histories: every window that any of
    them closed, and the open window of each query, each holding the items of
    all lanes. *)
Record publishes (watermark : option Z) (inc fin : bool) (bases : list (list Op)) (pb : Publication (S := S)) : Prop := {
  pu_completed : merged_rep (like := like) h plans (pb_completed pb) (concat (outputs <$> closed_specs watermark fin bases));
  pu_current : if inc
    then ∃ cur, pb_current pb = Some cur ∧
      merged_rep (like := like) h plans cur (concat (currents <$> closed_specs watermark fin bases))
    else pb_current pb = None;
}.

Lemma merge_windows_spec merged ys out ys' :
  merged_rep (like := like) h plans merged ys → Forall2 output_rep out ys' →
  ∃ merged', merge_windows merged out = Ok merged' ∧ merged_rep (like := like) h plans merged' (ys ++ ys').
Proof using LW Hnames.
  intros Hm Ho. destruct (merge_outputs_spec h plans Hnames merged ys out ys' Hm Ho) as (m & Hm' & Hr).
  exists m. unfold merge_windows. by rewrite Hm'.
Qed.

(** The loop invariant over the reports. *)
Definition gathered_ok (init : Z) (watermark : option Z) (inc : bool) (ds cs : list (string * (Z * Z * list Item)))
    (g : Gathered (S := S)) : Prop :=
  merged_rep (like := like) h plans (g_completed g) ds ∧
  if inc then merged_rep (like := like) h plans (g_current g) cs ∧ bounds_ok init watermark (g_bounds g) else True.

Lemma gather_report_spec init watermark inc fin lane ops r ds cs g :
  paced init watermark ops → reported lane ops watermark inc fin r → gathered_ok init watermark inc ds cs g →
  let x := spec_after (ops ++ closing_ops watermark fin) in
  ∃ g', gather_report inc g r = Ok g' ∧ gathered_ok init watermark inc (ds ++ outputs x) (cs ++ currents x) g'.
Proof using LW Hnames Hplans.
  intros Hp [_ _ Hd Hc] [Hg Hcur]. unfold gather_report.
  destruct (merge_windows_spec _ _ _ _ Hg Hd) as (m & -> & Hm). ostep. destruct inc; [|by eexists].
  destruct Hcur as [Hcur Hb]. destruct (check_all_bounds init watermark (g_bounds g) _ _ Hb Hc) as (b & -> & Hb').
  { apply Forall_forall. intros y Hy. by eapply currents_bounds. }
  ostep. destruct (merge_windows_spec _ _ _ _ Hcur Hc) as (c & -> & Hcm). ostep. by eexists.
Qed.

(** Reports of lanes that share their first and last watermark are published
    without an error. *)
Lemma publish_reports_spec init watermark inc fin reports bases :
  Forall (paced init watermark) bases →
  Forall2 (λ r ops, ∃ lane, reported lane ops watermark inc fin r) reports bases →
  ∃ pb, publish_reports reports inc = Ok pb ∧ publishes watermark inc fin bases pb.
Proof using LW Hnames Hplans.
  intros Hp Hr. unfold publish_reports.
  enough (∀ g ds cs, gathered_ok init watermark inc ds cs g → ∃ g', foldM (gather_report inc) g reports = Ok g' ∧
    gathered_ok init watermark inc (ds ++ concat (outputs <$> closed_specs watermark fin bases))
      (cs ++ concat (currents <$> closed_specs watermark fin bases)) g') as H.
  { assert (∀ ys, merged_rep (like := like) h plans ∅ ys ↔ ys = []) as He.
    { intros ys. split; [|intros -> k; rewrite lookup_empty; by intros y ?%elem_of_nil].
      intros Hys. destruct ys as [|y ys]; [done|]. specialize (Hys (out_key y)). rewrite lookup_empty in Hys.
      by destruct (Hys y ltac:(left)). }
    destruct (H (mkGathered ∅ ∅ ∅ 0 0) [] []) as (g & -> & Hd & Hc).
    - split; [by apply He|]. destruct inc; [|done]. split; [by apply He|]. intros n x. cbn [g_bounds]. by rewrite lookup_empty.
    - ostep. eexists. split; [done|]. split; [done|]. destruct inc; [eexists; split; [done|apply Hc]|done]. }
  revert Hp. induction Hr as [|r ops reports bases (lane & Hrep) _ IH]; intros Hp g ds cs Hg; cbn [foldM].
  - exists g. by rewrite !app_nil_r.
  - apply Forall_cons in Hp as [Hpo Hp].
    destruct (gather_report_spec _ _ _ _ _ _ _ _ _ _ Hpo Hrep Hg) as (g1 & -> & Hg1). ostep.
    destruct (IH Hp g1 _ _ Hg1) as (g' & -> & Hg'). exists g'. split; [done|].
    by rewrite <- !app_assoc in Hg'.
Qed.
End histories.
