(* ===== verification/LanesSpec.v ===== *)
(** * One lane of the queue-local runtime

    The ghost state of a lane (where it is in the barrier, the operations its
    engine has run, the events it was given), the invariant that ties it to the
    lane's state, and the proof that every step of its worker keeps it.  Before
    that, two generic facts: what the lanes contributed to a channel, and
    messages sorted by lane. *)
From S2P Require Import Prelude Bytes Maps Hash Sketch F64 Event Ir Planner QueryState Emit Window.
From S2P Require Import Engine Sharded WindowSpec Sliding EngineSpec ShardedSpec Lanes LaneReports.

(** ** Contributions of the lanes to a channel *)

Section gather.
Context {A B : Type}.
Implicit Types (f : nat → A → option B) (l : list A).

Definition gather f l : list B := omap id (imap f l).

Lemma imap_insert f l i x : imap f (<[i := x]> l) = <[i := f i x]> (imap f l).
Proof.
  revert f i. induction l as [|y l IH]; intros f [|i]; [done..|]. cbn [imap insert list_insert]. f_equal.
  apply (IH (f ∘ S)).
Qed.

Lemma gather_same f l i x y : l !! i = Some x → f i x = f i y → gather f (<[i := y]> l) = gather f l.
Proof.
  intros Hl He. unfold gather. rewrite imap_insert, <- He, list_insert_id; [done|].
  by rewrite list_lookup_imap, Hl.
Qed.

Lemma gather_new f l i x y b :
  l !! i = Some x → f i x = None → f i y = Some b → gather f (<[i := y]> l) ≡ₚ gather f l ++ [b].
Proof.
  intros Hl Hx Hy. unfold gather. rewrite imap_insert, Hy.
  assert (imap f l !! i = Some None) as Hi by (by rewrite list_lookup_imap, Hl; cbn; rewrite Hx).
  revert Hi. generalize (imap f l) as m. clear. intros m. revert i.
  induction m as [|o m IH]; intros [|i] Hi; [done..| |].
  - injection Hi as ->. cbn [insert list_insert omap list_omap id]. by rewrite Permutation_app_comm.
  - cbn [insert list_insert omap list_omap id]. destruct o; cbn [app]; by rewrite IH.
Qed.

Lemma gather_none f l : (∀ i x, l !! i = Some x → f i x = None) → gather f l = [].
Proof.
  revert f. induction l as [|x l IH]; intros f H; [done|]. unfold gather. cbn [imap omap list_omap id].
  rewrite (H 0%nat x eq_refl). apply (IH (f ∘ S)). intros i y. apply (H (S i)).
Qed.

Lemma gather_all f (g : nat → A → B) l : (∀ i x, l !! i = Some x → f i x = Some (g i x)) → gather f l = imap g l.
Proof.
  revert f g. induction l as [|x l IH]; intros f g H; [done|]. unfold gather. cbn [imap omap list_omap id].
  rewrite (H 0%nat x eq_refl). f_equal. apply (IH (f ∘ S) (g ∘ S)). intros i y. apply (H (S i)).
Qed.

Lemma length_gather f l : (length (gather f l) <= length l)%nat.
Proof.
  revert f. induction l as [|x l IH]; intros f; [done|]. unfold gather. cbn [imap omap list_omap id length].
  specialize (IH (f ∘ S)). unfold gather in IH. destruct (f 0%nat x); cbn [length]; lia.
Qed.

(** All of them contribute when there are as many contributions as lanes. *)
Lemma gather_full f l : length (gather f l) = length l → ∀ i x, l !! i = Some x → is_Some (f i x).
Proof.
  revert f. induction l as [|y l IH]; intros f H i x Hi; [done|]. unfold gather in H. cbn [imap omap list_omap id length] in H.
  pose proof (length_gather (f ∘ S) l) as Hle. unfold gather in Hle.
  destruct (f 0%nat y) as [b|] eqn:E; cbn [length] in H; [|lia].
  destruct i as [|i]; [injection Hi as <-; by rewrite E|]. apply (IH (f ∘ S)); [|done]. unfold gather. lia.
Qed.
End gather.

(** ** Messages in lane order *)

Section by_lane.
Context {A : Type} (lane : A → nat).

#[export] Instance by_lane_ord : CmpOrd (λ a b, Nat.compare (lane a) (lane b)).
Proof.
  split; [intros x y; apply Nat.compare_antisym|].
  intros x y z. rewrite !Nat.compare_ngt_iff. lia.
Qed.

(** The messages of lanes [k], [k + 1] and so on. *)
Definition in_lanes (k : nat) (l : list A) : Prop := ∀ i x, l !! i = Some x → lane x = (k + i)%nat.

Lemma in_lanes_sorted k l : in_lanes k l → StronglySorted (cmp_le (λ a b, Nat.compare (lane a) (lane b))) l.
Proof.
  revert k. induction l as [|x l IH]; intros k H; [constructor|]. constructor.
  - apply (IH (S k)). intros i y Hi. rewrite (H (S i) y Hi). lia.
  - apply Forall_forall. intros y [i Hi]%list_elem_of_lookup. unfold cmp_le. rewrite Nat.compare_ngt_iff.
    rewrite (H 0%nat x eq_refl), (H (S i) y Hi). lia.
Qed.

(** A permutation of one message per lane, sorted by lane, is the messages in
    the order of the lanes. *)
Lemma by_lane_exact l m : in_lanes 0 m → l ≡ₚ m → by_lane lane l = m.
Proof.
  intros Hm Hl. unfold by_lane.
  apply (StronglySorted_unique_strong (cmp_le (λ a b, Nat.compare (lane a) (lane b)))).
  - intros x y Hx Hy Hxy Hyx. rewrite sort_by_Permutation, Hl in Hx.
    apply list_elem_of_lookup in Hx as [i Hi], Hy as [j Hj].
    unfold cmp_le in Hxy, Hyx. cbv beta in Hxy, Hyx. rewrite Nat.compare_ngt_iff, (Hm i x Hi), (Hm j y Hj) in Hxy.
    rewrite Nat.compare_ngt_iff, (Hm i x Hi), (Hm j y Hj) in Hyx.
    replace j with i in Hj by lia. congruence.
  - apply sort_by_sorted, by_lane_ord.
  - by apply in_lanes_sorted in Hm.
  - by rewrite sort_by_Permutation.
Qed.

Lemma check_lanes_ok k l : in_lanes k l → check_lanes lane k l = Ok tt.
Proof.
  revert k. induction l as [|x l IH]; intros k H; [done|]. cbn [check_lanes].
  rewrite (H 0%nat x eq_refl), Nat.add_0_r, Nat.eqb_refl. ostep. apply IH. intros i y Hi. rewrite (H (S i) y Hi). lia.
Qed.
End by_lane.

(** ** One lane *)

(** Where a lane is in the barrier: not asked, asked to pause, pausing, told to
    report, having answered. *)
Inductive Phase := Free | Asked | Held | Told | Answered.
#[export] Instance Phase_eq_dec : EqDecision Phase.
Proof. solve_decision. Defined.

(** The ghost state of a lane: its phase, the operations its engine ran, those
    it had run when it was told to report, and the events it was given. *)
Record Ghost := mkGhost { phase : Phase; ops : list Op; base : list Op; sent : list FlowEvent }.

Definition op_event (op : Op) : option FlowEvent := match op with OpEvent e => Some e | _ => None end.
Definition events_of (ops : list Op) : list FlowEvent := omap op_event ops.

Section lane.
Context {S : Type} `{WS : !WindowSketch S} {supported : PhysicalSketch → Prop}
  {like : S → S → Prop} {LW : LawfulWindow S supported like}.
Context (h : HashSpec) (plans : list Plan) (Hnames : NoDup ((λ p, q_name (query p)) <$> plans)).
Context (Hplans : Forall (plan_ok supported) plans) (eng0 : QueryEngine S) (Hnew : engine_new plans h = Ok eng0).
Context (mem : QueryEngine S → Z) (batch_size init : Z).
Abbreviation after := (after eng0).
Abbreviation succeed := (succeed eng0).
Implicit Types (l : Lane (S := S)) (g : Ghost).

(** The order of the running checkpoint: watermark, current windows, final. *)
Definition Order : Type := option Z * bool * bool.
Definition report_of (o : Order) (i : nat) (ops : list Op) : outcome Detail (WorkerReport (S := S)) :=
  (build_report mem i o.1.1 o.1.2 o.2 (after ops)).1.

Definition inflight l : list FlowEvent := match position l with InBatch _ e => [e] | _ => [] end.
Definition failed l : Prop := match position l with Failed _ => True | _ => False end.
(** Running, or stopped by an engine's backpressure. *)
Definition working l : Prop :=
  match position l with
  | AtLoop | InBatch _ _ => True
  | Failed d => ∃ msg, d = CannotProcess (Backpressure msg)
  | Paused | Returned => False
  end.
Definition phase_ok (o : Order) (p : Phase) l : Prop :=
  match p with
  | Free => controls l = [] ∧ working l
  | Asked => controls l = [Pause] ∧ working l
  | Held => controls l = [] ∧ position l = Paused
  | Told => controls l = [Checkpoint o.1.1 o.1.2 o.2] ∧ position l = Paused
  | Answered => controls l = [] ∧ if o.2 then position l = Returned else working l
  end.

Definition max_of (ops : list Op) : option Z := ts_max (ts_nanos <$> events_of ops).

Record lane_ok (o : Order) (i : nat) l g : Prop := {
  lo_ops : succeed (ops g) ∧ engine l = after (ops g);
  lo_open : (∃ rest, ops g = OpAdvance init :: rest) ∧ events_of (ops g) `prefix_of` sent g;
  lo_sent : ¬ failed l → sent g = events_of (ops g) ++ inflight l ++ channel l;
  lo_events : Forall event_ok (inflight l ++ channel l);
  lo_seen : max_seen l = max_of (ops g);
  lo_closed : data_open l = false → sender_open l = false ∧ channel l = [] ∧ inflight l = [];
  lo_phase : phase_ok o (phase g) l;
  lo_order : ∀ t, o.1.1 = Some t → u64_ok t;
  lo_base : (phase g = Held ∨ phase g = Told → base g = ops g) ∧
    (phase g = Answered → succeed (base g) ∧ ∃ rest, ops g = base g ++ rest ∧
      (is_ok (report_of o i (base g)) = true → checkpoint_ops o.1.1 o.2 `prefix_of` rest) ∧
      (o.2 = true → events_of rest = []));
}.

(** What a lane contributed to the three channels. *)
Definition drain_sent (i : nat) (x : Lane (S := S) * Ghost) : option PauseAck :=
  if data_open x.1 then None else Some (mkAck i (max_of (ops x.2))).
Definition ack_sent (i : nat) (x : Lane (S := S) * Ghost) : option PauseAck :=
  if decide (phase x.2 = Held) then Some (mkAck i (max_of (ops x.2))) else None.
Definition reply_sent (o : Order) (i : nat) (x : Lane (S := S) * Ghost) : option (outcome Detail (WorkerReport (S := S))) :=
  if decide (phase x.2 = Answered) then Some (report_of o i (base x.2)) else None.

(** How a step of the lane changes them. *)
Definition sends (o : Order) (i : nat) (x x' : Lane (S := S) * Ghost) (out : Output (S := S)) : Prop :=
  match out with
  | Silent => drain_sent i x = drain_sent i x' ∧ phase x.2 = phase x'.2 ∧ ack_sent i x = ack_sent i x' ∧
      reply_sent o i x = reply_sent o i x'
  | Drained a => drain_sent i x = None ∧ drain_sent i x' = Some a ∧ phase x.2 = phase x'.2 ∧
      ack_sent i x = ack_sent i x' ∧ reply_sent o i x = reply_sent o i x'
  | Acknowledged a => drain_sent i x = drain_sent i x' ∧ phase x.2 = Asked ∧ phase x'.2 = Held ∧
      ack_sent i x' = Some a
  | Replied r => drain_sent i x = drain_sent i x' ∧ phase x.2 = Told ∧ phase x'.2 = Answered ∧
      reply_sent o i x' = Some r
  end.

Lemma max_of_snoc ops e :
  max_of (ops ++ [OpEvent e]) = Some (match max_of ops with None => ts_nanos e | Some m => Z.max m (ts_nanos e) end).
Proof using.
  unfold max_of, events_of. rewrite omap_app, fmap_app. cbn [omap list_omap op_event fmap list_fmap].
  destruct (ts_nanos <$> omap op_event ops) as [|t l]; [done|]. cbn [app ts_max]. by rewrite foldl_app.
Qed.
Lemma events_of_app a b : events_of (a ++ b) = events_of a ++ events_of b.
Proof using. apply omap_app. Qed.
Lemma max_of_silent a b : events_of b = [] → max_of (a ++ b) = max_of a.
Proof using. intros H. unfold max_of. by rewrite events_of_app, H, app_nil_r. Qed.

(** A lane that has not been told anything or has answered keeps working. *)
Lemma lane_extend o i l l' g op :
  lane_ok o i l g → succeed (ops g ++ [op]) → engine l' = after (ops g ++ [op]) →
  phase g = Free ∨ phase g = Asked ∨ phase g = Answered →
  let g' := mkGhost (phase g) (ops g ++ [op]) (base g) (sent g) in
  (¬ failed l' → sent g' = events_of (ops g') ++ inflight l' ++ channel l') →
  Forall event_ok (inflight l' ++ channel l') → max_seen l' = max_of (ops g') →
  (data_open l' = false → sender_open l' = false ∧ channel l' = [] ∧ inflight l' = []) →
  working l' → events_of (ops g ++ [op]) `prefix_of` sent g → phase_ok o (phase g) l' → lane_ok o i l' g'.
Proof using.
  intros [? [[rest Ho] _] ? ? ? ? ? ? [Hb1 Hb2]] Hs He Hp g' ? ? ? ? Hwk Hpre Hpo. subst g'. split; try done; cbn [ops phase base].
  - split; [exists (rest ++ [op]); by rewrite Ho|done].
  - split; [by intros [Hq|Hq]; rewrite Hq in Hp; destruct Hp as [|[|]]|]. intros Hq. destruct (Hb2 Hq) as (Hbs & r & Hr & Hok & _).
    split; [done|]. exists (r ++ [op]). split; [by rewrite Hr, <- app_assoc|].
    split; [intros Hq'; specialize (Hok Hq'); by apply prefix_app_r|].
    intros Hfin. rewrite Hq in Hpo. destruct Hpo as [_ Hpo]. rewrite Hfin in Hpo. unfold working in Hwk. by rewrite Hpo in Hwk.
Qed.

(** What a worker's step does to its lane. *)
Record stepped (o : Order) (i : nat) l g l' g' (out : Output (S := S)) : Prop := {
  sd_ok : lane_ok o i l' g';
  sd_sent : sent g' = sent g;
  sd_ops : ∃ r, ops g' = ops g ++ r ∧ ∀ ts, OpAdvance ts ∈ r → o.1.1 = Some ts;
  sd_base : phase g ≠ Asked → base g' = base g;
  sd_out : sends o i (l, g) (l', g') out;
  sd_data : data_open l = false → data_open l' = false;
}.

(** A silent step that changes neither the ghost state nor what was sent. *)
Lemma stepped_same o i l g l' :
  lane_ok o i l' g → data_open l = data_open l' → stepped o i l g l' g Silent.
Proof using.
  intros Hok Hd. split; try done.
  - exists []. split; [by rewrite app_nil_r|]. by intros ts ?%elem_of_nil.
  - cbn [sends]. unfold drain_sent, ack_sent, reply_sent. cbn [fst snd]. by rewrite Hd.
  - by rewrite Hd.
Qed.

Lemma working_phase o i l g : lane_ok o i l g → working l → (phase g = Free ∨ phase g = Asked ∨ phase g = Answered) ∧
  (phase g = Answered → o.2 = false).
Proof using.
  intros Hok Hw. pose proof (lo_phase _ _ _ _ Hok) as Hp. unfold working in Hw.
  destruct (phase g); cbn [phase_ok] in Hp; (split; [try tauto|try done]); try (destruct Hp as [_ Hp]; rewrite Hp in Hw; done).
  intros _. destruct Hp as [_ Hp]. destruct (o.2); [by rewrite Hp in Hw|done].
Qed.

(** [phase_ok] depends on the control channel and on whether the lane works. *)
Lemma phase_ok_working o p l l' : controls l' = controls l → working l → working l' → phase_ok o p l → phase_ok o p l'.
Proof using.
  intros Hc Hw Hw' Hp. destruct p; cbn [phase_ok] in *; rewrite Hc; try (split; [apply Hp|done]).
  - destruct Hp as [_ Hp]. unfold working in Hw. by rewrite Hp in Hw.
  - destruct Hp as [_ Hp]. unfold working in Hw. by rewrite Hp in Hw.
  - destruct Hp as [? Hp]. split; [done|]. destruct (o.2); [|done]. unfold working in Hw. by rewrite Hp in Hw.
Qed.

Lemma pause_step o i l g cs :
  lane_ok o i l g → position l = AtLoop → controls l = Pause :: cs →
  ∃ g', stepped o i l g (set_position (set_controls l cs) Paused) g'
          (Acknowledged (ack_of i (set_position (set_controls l cs) Paused))).
Proof using.
  intros Hok Hpos Hc.
  assert (phase g = Asked ∧ cs = []) as [Hph ->].
  { pose proof (lo_phase _ _ _ _ Hok) as Hp.
    destruct (phase g); cbn [phase_ok] in Hp; destruct Hp as [Hp Hp']; rewrite Hc in Hp; try discriminate Hp.
    by injection Hp as ->. }
  destruct Hok as [Ho Hop Hse He Hsn Hcl Hp Hor Hb]. exists (mkGhost Held (ops g) (ops g) (sent g)).
  unfold failed, inflight in *. rewrite Hpos in *.
  split; cbn [ops phase sent base]; try done.
  - exists []. split; [by rewrite app_nil_r|]. by intros ts ?%elem_of_nil.
  - cbn [sends]. unfold drain_sent, ack_sent, ack_of. cbn [fst snd phase ops data_open set_position set_controls max_seen].
    by rewrite Hsn.
Qed.

Lemma drained_step o i l g l' :
  lane_ok o i l' g → data_open l = true → data_open l' = false → stepped o i l g l' g (Drained (ack_of i l')).
Proof using.
  intros Hok Hd Hd'. split; try done.
  - exists []. split; [by rewrite app_nil_r|]. by intros ts ?%elem_of_nil.
  - cbn [sends]. unfold drain_sent, ack_sent, reply_sent, ack_of. cbn [fst snd]. rewrite Hd, Hd'.
    by rewrite (lo_seen _ _ _ _ Hok).
Qed.

(** An event processed: the history grows, and the stream may have ended. *)
Lemma event_step o i l g l' event :
  lane_ok o i l g → data_open l = true → phase g = Free ∨ phase g = Asked ∨ phase g = Answered →
  let g' := mkGhost (phase g) (ops g ++ [OpEvent event]) (base g) (sent g) in
  lane_ok o i l' g' →
  stepped o i l g l' g' (if data_open l' then Silent else Drained (ack_of i l')).
Proof using.
  intros Hok Hd Hp g' Hok'. subst g'.
  assert (phase g ≠ Held) as Hh by (intros E; rewrite E in Hp; by destruct Hp as [|[|]]).
  split; cbn [ops phase sent base]; try done.
  - exists [OpEvent event]. split; [done|]. by intros ts [=]%list_elem_of_singleton.
  - unfold sends, drain_sent, ack_sent, reply_sent. destruct (data_open l') eqn:E; cbn [fst snd phase base];
      rewrite Hd, E, !decide_False by done; [done|]. unfold ack_of. by rewrite (lo_seen _ _ _ _ Hok').
  - by rewrite Hd.
Qed.

Lemma batch_step o i l g processed event l' out :
  lane_ok o i l g → position l = InBatch processed event → batch_turn batch_size i processed event l = (l', out) →
  ∃ g', stepped o i l g l' g' out.
Proof using LW Hnew Hplans.
  intros Hok Hpos. destruct (working_phase _ _ _ _ Hok) as (Hph & _); [unfold working; by rewrite Hpos|].
  pose proof Hok as [[Hs Heng] _ Hse He Hsn Hcl Hp _ _].
  assert (inflight l = [event]) as Hin by (unfold inflight; by rewrite Hpos). rewrite Hin in *.
  assert (data_open l = true) as Hd by (destruct (data_open l); [done|by destruct Hcl as (_ & _ & ?)]).
  assert (working l) as Hw by (unfold working; by rewrite Hpos).
  specialize (Hse ltac:(unfold failed; rewrite Hpos; tauto)). apply Forall_cons in He as [Hev He].
  unfold batch_turn. rewrite Heng. change (engine_process event) with (run_engine_op (S := S) (OpEvent event)).
  destruct (after_op h plans Hplans eng0 Hnew (ops g) (OpEvent event) Hs Hev) as [[-> Hs']| ->].
  - set (l1 := see (set_engine l (after (ops g ++ [OpEvent event]))) (ts_nanos event)).
    assert (∀ l2 out2, engine l2 = engine l1 → controls l2 = controls l1 → max_seen l2 = max_seen l1 → working l2 →
      inflight l2 ++ channel l2 = channel l → (data_open l2 = false → sender_open l2 = false ∧ channel l2 = [] ∧ inflight l2 = []) →
      out2 = (if data_open l2 then Silent else Drained (ack_of i l2)) → ∃ g', stepped o i l g l2 g' out2) as Hgo.
    { intros l2 out2 E1 E2 E3 E4 E5 E6 ->. eexists. eapply event_step; [done..|]. apply (lane_extend o i l l2 g); try done.
      - intros _. cbn [sent ops]. rewrite Hse, E5, events_of_app, <- app_assoc. done.
      - by rewrite E5.
      - rewrite E3. cbn [ops]. rewrite max_of_snoc, <- Hsn. done.
      - rewrite Hse, events_of_app. apply prefix_app. by apply prefix_cons, prefix_nil.
      - by apply (phase_ok_working o (phase g) l). }
    destruct (processed +ʷ 1 =? batch_size); [intros [= <- <-]; apply Hgo; cbn; by rewrite ?Hd|].
    cbn [channel see set_engine l1]. destruct (channel l) as [|next rest] eqn:Ec.
    + cbn [sender_open see set_engine l1]. destruct (sender_open l) eqn:Eo; cbn [drain_ended].
      * intros [= <- <-]. apply Hgo; cbn; by rewrite ?Hd, ?Ec.
      * intros [= <- <-]. apply Hgo; cbn; by rewrite ?Ec.
    + intros [= <- <-]. apply Hgo; cbn; by rewrite ?Hd.
  - intros [= <- <-]. exists g. apply stepped_same; [|done].
    replace (set_engine l (after (ops g))) with l by (rewrite <- Heng; by destruct l).
    destruct Hok as [Ho Hop _ _ _ _ Hp' Hor Hb]. split; try done.
    + intros H. change (data_open l = false) in H. congruence.
    + by apply (phase_ok_working o (phase g) l); [| |eexists|].
Qed.

Lemma checkpoint_silent watermark fin ops : ops `prefix_of` checkpoint_ops watermark fin → events_of ops = [].
Proof using.
  intros [r Hr]. assert (events_of (checkpoint_ops watermark fin) = []) as H by (by destruct watermark, fin).
  rewrite Hr, events_of_app in H. by apply app_eq_nil in H as [? _].
Qed.

Lemma checkpoint_advances watermark fin ops ts :
  ops `prefix_of` checkpoint_ops watermark fin → OpAdvance ts ∈ ops → watermark = Some ts.
Proof using S eng0 mem.
  intros [r Hr] Hts. assert (OpAdvance ts ∈ checkpoint_ops watermark fin) as H by (rewrite Hr; by apply elem_of_app; left).
  unfold checkpoint_ops, closing_ops in H. destruct watermark as [w|], fin; cbn [watermark_ops app] in H;
    rewrite ?elem_of_cons, ?elem_of_nil in H; naive_solver.
Qed.

(** What [build_report] leaves behind. *)
Lemma build_report_ops i ops (watermark : option Z) inc fin : succeed ops → (∀ t, watermark = Some t → u64_ok t) →
  ∃ r ops', build_report mem i watermark inc fin (after ops) = (r, after (ops ++ ops')) ∧ r ≠ Panic ∧
    succeed (ops ++ ops') ∧ ops' `prefix_of` checkpoint_ops watermark fin ∧
    (is_ok r = true → checkpoint_ops watermark fin `prefix_of` ops').
Proof using LW Hnames Hnew Hplans.
  intros Hs Hw. destruct (build_report_spec h plans Hnames Hplans eng0 Hnew mem i ops watermark inc fin Hs Hw)
    as [(r & -> & Hrep)|[(d & -> & _)|(d & -> & Hs' & _)]].
  - do 2 eexists. split; [done|]. split; [done|]. split; [apply Hrep|done].
  - exists (Err d), []. rewrite app_nil_r. split_and!; try done. apply prefix_nil.
  - do 2 eexists. split; [done|]. split_and!; try done. unfold checkpoint_ops, closing_ops. rewrite <- app_assoc.
    by apply prefix_app_r.
Qed.

(** The report of a lane that was told to. *)
Lemma report_step o i l g :
  lane_ok o i l g → phase g = Told →
  ∃ l' g' out, handle_paused mem i (Checkpoint o.1.1 o.1.2 o.2) (set_controls l []) = (l', out) ∧ stepped o i l g l' g' out.
Proof using LW Hnames Hnew Hplans.
  intros Hok Hph. destruct Hok as [[Hs Heng] [[rest Hop] Hsp] Hse He Hsn Hcl Hp Hor [Hb _]].
  specialize (Hb (or_intror Hph)). rewrite Hph in Hp. destruct Hp as [Hc Hpos].
  unfold handle_paused. cbn [engine set_controls]. rewrite Heng.
  destruct (build_report_ops i (ops g) o.1.1 o.1.2 o.2 Hs Hor) as (r & ops' & Hr & Hnp & Hs' & Hpre & Hfull).
  rewrite Hr. pose proof (checkpoint_silent _ _ _ Hpre) as Hsil.
  set (l' := set_position (set_engine (set_controls l []) (after (ops g ++ ops'))) (if o.2 then Returned else AtLoop)).
  exists l', (mkGhost Answered (ops g ++ ops') (base g) (sent g)), (Replied r).
  split; [by destruct r|]. unfold failed, inflight in *. rewrite Hpos in *.
  assert (inflight l' = []) as Hin by (unfold inflight, l'; by destruct (o.2)).
  split; cbn [ops phase sent base]; try done.
  - split; cbn [ops phase sent base]; try done; rewrite ?Hin.
    + split; [exists (rest ++ ops'); by rewrite Hop|]. by rewrite events_of_app, Hsil, app_nil_r.
    + intros _. rewrite events_of_app, Hsil, app_nil_r. apply Hse. tauto.
    + done.
    + by rewrite max_of_silent.
    + intros Hd. by destruct (Hcl Hd) as (? & ? & _).
    + cbn. split; [done|]. unfold working, l'. by destruct (o.2).
    + split; [by intros [|]|]. intros _. rewrite Hb. split; [done|]. exists ops'. split; [done|].
      unfold report_of. by rewrite Hr.
  - exists ops'. split; [done|]. intros ts. by apply (checkpoint_advances o.1.1 o.2).
  - cbn [sends]. unfold drain_sent, reply_sent, report_of. cbn [fst snd phase ops base data_open]. rewrite Hph, Hb, Hr, max_of_silent by done.
    done.
Qed.

(** Every step of a worker keeps its lane in order. *)
Lemma worker_step_ok o i l g l' out :
  lane_ok o i l g → worker_step mem batch_size i l = Some (l', out) → ∃ g', stepped o i l g l' g' out.
Proof using LW Hnames Hnew Hplans.
  intros Hok. pose proof (lo_phase _ _ _ _ Hok) as Hp. unfold worker_step. destruct (position l) as [|processed event| | |] eqn:Hpos; try done.
  - destruct (controls l) as [|c cs] eqn:Hc.
    + destruct (data_open l) eqn:Hd; [|done]. destruct (channel l) as [|event rest] eqn:Ec; [destruct (sender_open l) eqn:Es; [done|]|]; intros [= <- <-].
      * exists g. apply drained_step; [|done..]. destruct Hok as [? ? Hse He ? ? ? ? ?].
        split; try done. intros _. unfold inflight. cbn. by rewrite Hpos.
      * exists g. apply stepped_same; [|done].
        destruct Hok as [? ? Hse He ? ? ? ? ?]. unfold failed, inflight in *. rewrite Hpos, Ec in *.
        split; try done.
        { intros H. change (data_open l = false) in H. congruence. }
        { apply (phase_ok_working o (phase g) l); [done| |done|done]. unfold working. by rewrite Hpos. }
    + assert (c = Pause) as ->.
      { destruct (phase g); cbn [phase_ok] in Hp; destruct Hp as [Hp Hp']; rewrite Hc in Hp; congruence. }
      intros [= <- <-]. by apply pause_step.
  - intros [= H]. by eapply batch_step.
  - destruct (controls l) as [|c cs] eqn:Hc; [done|].
    assert (phase g = Told ∧ cs = [] ∧ c = Checkpoint o.1.1 o.1.2 o.2) as (Hph & -> & ->).
    { destruct (phase g); cbn [phase_ok] in Hp; rewrite Hc in Hp; destruct Hp as [Hp Hp']; try done.
      - unfold working in Hp'. by rewrite Hpos in Hp'.
      - by injection Hp as -> ->. }
    destruct (report_step o i l g Hok Hph) as (l2 & g' & out2 & -> & Hst). intros [= <- <-]. by exists g'.
Qed.
End lane.
