(* ===== verification/Barrier.v ===== *)
(** * The checkpoint barrier as a whole

    An invariant of every reachable state of the queue-local runtime, whatever
    the interleaving: each lane keeps its history, each channel holds what the
    lanes contributed to it and the coordinator has not yet received, and every
    publication is the merge of what all lanes had processed. *)
From S2P Require Import Prelude Bytes Maps Hash Sketch F64 Event Ir Planner QueryState Emit Window.
From S2P Require Import Engine Sharded WindowSpec Sliding EngineSpec ShardedSpec Lanes LaneReports LanesSpec.

Lemma gather_insert_elem {A B} (f : nat → A → option B) l b : b ∈ gather f l → ∃ i x, l !! i = Some x ∧ f i x = Some b.
Proof.
  unfold gather. intros (o & Ho & Hb)%list_elem_of_omap. cbn in Hb. subst o.
  apply list_elem_of_lookup in Ho as [i Hi]. rewrite list_lookup_imap in Hi.
  destruct (l !! i) as [x|] eqn:E; [|done]. exists i, x. split; [done|]. by injection Hi.
Qed.

(** A channel that, with what was received, holds every lane's contribution
    once one per lane was received. *)
Lemma gather_received {A B} (f : nat → A → option B) (l : list A) got rest :
  got ++ rest ≡ₚ gather f l → length got = length l →
  rest = [] ∧ got ≡ₚ gather f l ∧ ∀ i x, l !! i = Some x → is_Some (f i x).
Proof.
  intros Hp Hl. pose proof (length_gather f l) as Hle. pose proof (Permutation_length Hp) as Hlen.
  rewrite length_app in Hlen. assert (rest = []) as -> by (destruct rest; [done|cbn in Hlen; lia]).
  rewrite app_nil_r in Hp. split_and!; [done|done|]. apply gather_full. cbn in Hlen. lia.
Qed.

Lemma ts_max_spec l : match ts_max l with None => l = [] | Some m => m ∈ l ∧ ∀ x, x ∈ l → x <= m end.
Proof.
  destruct l as [|x l]; [done|]. cbn [ts_max]. revert x. induction l as [|y l IH]; intros x; cbn [foldl].
  - split; [by left|]. intros z ->%list_elem_of_singleton. lia.
  - destruct (IH (Z.max x y)) as [Hm Hle]. split.
    + apply elem_of_cons in Hm as [Hm|Hm]; [|by do 2 right]. rewrite Hm. destruct (Z.max_spec x y) as [[_ ->]|[_ ->]]; [right; left|left].
    + intros z [->|[->|Hz]%elem_of_cons]%elem_of_cons.
      * etrans; [|apply Hle; left]. lia.
      * etrans; [|apply Hle; left]. lia.
      * apply Hle. by right.
Qed.

Section barrier.
Context {S : Type} `{WS : !WindowSketch S} {supported : PhysicalSketch → Prop}
  {like : S → S → Prop} {LW : LawfulWindow S supported like}.
Context (h : HashSpec) (plans : list Plan) (Hnames : NoDup ((λ p, q_name (query p)) <$> plans)).
Context (Hplans : Forall (plan_ok supported) plans) (eng0 : QueryEngine S) (Hnew : engine_new plans h = Ok eng0).
Context (mem : QueryEngine S → Z) (batch_size init : Z) (Hinit : u64_ok init).
Abbreviation after := (after eng0).
Abbreviation succeed := (succeed eng0).
Abbreviation lane_ok := (lane_ok eng0 mem init).
Abbreviation report_of := (report_of eng0 mem).
Abbreviation reply_sent := (reply_sent eng0 mem).
Abbreviation publishes := (publishes (like := like) h plans).
Abbreviation LaneG := (Lane (S := S) * Ghost)%type.
Implicit Types (W : list LaneG) (l : Lane (S := S)) (g : Ghost) (w : World (S := S)) (o : Order).

(** The events of a run's log that went to lane [i]. *)
Definition lane_log (i : nat) (log : list (nat * FlowEvent)) : list FlowEvent :=
  omap (λ x : nat * FlowEvent, if (x.1 =? i)%nat then Some x.2 else None) log.

(** The largest time stamp in the histories [bases]. *)
Definition latest (bases : list (list Op)) : option Z := ts_max (omap max_of bases).

(** Some lane has processed a time stamp of at least [t]. *)
Definition seen_upto W (t : Z) : Prop := ∃ i x m, W !! i = Some x ∧ max_of (ops x.2) = Some m ∧ t <= m.

(** The phases the coordinator's progress allows. *)
Definition phase_at (c : Coordinator (S := S)) (i : nat) (p : Phase) : Prop :=
  match c with
  | Idle | Draining _ => p = Free
  | Pausing _ k => if (i <? k)%nat then p = Asked ∨ p = Held else p = Free
  | Collecting _ _ => p = Asked ∨ p = Held
  | Ordering _ _ _ k => if (i <? k)%nat then p = Told ∨ p = Answered else p = Held
  | Reporting _ _ _ => p = Told ∨ p = Answered
  | Finished => p = Answered
  | Broken _ => True
  end.

(** The running checkpoint is final. *)
Definition final (c : Coordinator (S := S)) : bool :=
  match c with
  | Pausing f _ | Collecting f _ | Ordering f _ _ _ | Reporting f _ _ => f
  | Finished => true
  | _ => false
  end.

Definition bases W : list (list Op) := (λ x : LaneG, base x.2) <$> W.
Definition aligned W (watermark : option Z) : Prop :=
  watermark = latest (bases W) ∧ Forall (paced init watermark) (bases W).

Definition order_ok W o (c : Coordinator (S := S)) : Prop :=
  match c with
  | Ordering fin inc watermark _ => o = (watermark, inc, fin) ∧ aligned W watermark
  | Reporting fin inc _ => o.1.2 = inc ∧ o.2 = fin ∧ aligned W o.1.1
  | Finished => o.2 = true ∧ ∀ t, o.1.1 = Some t → seen_upto W t
  | Broken _ => ∀ t, o.1.1 = Some t → seen_upto W t
  | _ => o = (None, false, false)
  end.

Definition drained_ok W w : Prop :=
  match coordinator w with
  | Draining got => got ++ drained w ≡ₚ gather drain_sent W
  | Broken _ => True
  | c => if final c then drained w = [] ∧ ∀ i x, W !! i = Some x → data_open x.1 = false
         else drained w ≡ₚ gather drain_sent W
  end.

Definition acks_ok W w : Prop :=
  match coordinator w with
  | Idle | Draining _ | Pausing _ _ => acks w ≡ₚ gather ack_sent W
  | Collecting _ got => got ++ acks w ≡ₚ gather ack_sent W
  | Ordering _ _ _ _ | Reporting _ _ _ | Finished => acks w = []
  | Broken _ => True
  end.

Definition replies_ok W o w : Prop :=
  match coordinator w with
  | Ordering _ _ _ _ => replies w ≡ₚ gather (reply_sent o) W
  | Reporting _ _ got => (Ok <$> got) ++ replies w ≡ₚ gather (reply_sent o) W
  | Broken _ => True
  | _ => replies w = []
  end.

(** The only failures: an engine refused an operation for lack of room. *)
Definition backpressured l : Prop := ∃ msg, position l = Failed (CannotProcess (Backpressure msg)).
Definition broken_ok w : Prop :=
  match coordinator w with
  | Broken (LaneFailed i d) => ∃ msg, d = CannotProcess (Backpressure msg)
  | Broken (ReportFailed d) => refused d
  | Broken Disconnected => ∃ i l, lanes w !! i = Some l ∧ backpressured l
  | Broken _ => False
  | _ => True
  end.

(** A publication: what every lane had processed, up to one watermark. *)
Definition published_ok W (pb : Publication (S := S)) : Prop :=
  ∃ bs inc (fin : bool), let watermark := latest bs in
    publishes watermark inc fin bs pb ∧ Forall (paced init watermark) bs ∧
    Forall2 (λ b x, b ++ checkpoint_ops watermark fin `prefix_of` ops x.2) bs W ∧
    (fin = true → Forall2 (λ b x, data_open x.1 = false ∧ events_of b = sent x.2) bs W).

Record world_ok W o (log : list (nat * FlowEvent)) w : Prop := {
  wo_lanes : lanes w = W.*1;
  wo_each : ∀ i l g, W !! i = Some (l, g) → lane_ok o i l g;
  wo_log : ∀ i l g, W !! i = Some (l, g) → sent g = lane_log i log;
  wo_phase : ∀ i l g, W !! i = Some (l, g) → phase_at (coordinator w) i (phase g);
  wo_adv : ∀ i x ts, W !! i = Some x → OpAdvance ts ∈ tail (ops x.2) → seen_upto W ts;
  wo_order : order_ok W o (coordinator w);
  wo_count : match coordinator w with
    | Pausing _ k | Ordering _ _ _ k => (k <= length W)%nat | _ => True end;
  wo_drained : drained_ok W w;
  wo_acks : acks_ok W w;
  wo_replies : replies_ok W o w;
  wo_broken : broken_ok w;
  wo_published : Forall (published_ok W) (published w);
}.

(** ** A change of one lane *)

Lemma max_of_mono ops r m : max_of ops = Some m → ∃ m', max_of (ops ++ r) = Some m' ∧ m <= m'.
Proof using.
  intros H. unfold max_of in *. rewrite events_of_app, fmap_app.
  pose proof (ts_max_spec (ts_nanos <$> events_of ops)) as Hs. rewrite H in Hs. destruct Hs as [Hm _].
  pose proof (ts_max_spec ((ts_nanos <$> events_of ops) ++ (ts_nanos <$> events_of r))) as Hs.
  destruct (ts_max (_ ++ _)) as [m'|].
  - exists m'. split; [done|]. apply Hs. apply elem_of_app. by left.
  - apply app_eq_nil in Hs as [Hs _]. rewrite Hs in Hm. by apply elem_of_nil in Hm.
Qed.

Lemma seen_insert W i x x' r t :
  W !! i = Some x → ops x'.2 = ops x.2 ++ r → seen_upto W t → seen_upto (<[i := x']> W) t.
Proof using.
  intros Hi Hr (j & y & m & Hj & Hm & Ht). destruct (decide (i = j)) as [<-|Hne].
  - replace y with x in * by congruence. destruct (max_of_mono _ r _ Hm) as (m' & Hm' & ?).
    exists i, x', m'. rewrite list_lookup_insert_eq by by eapply lookup_lt_Some. rewrite Hr. split_and!; [done|done|lia].
  - exists j, y, m. by rewrite list_lookup_insert_ne.
Qed.

Lemma insert_each {A} (P : nat → A → Prop) (W : list A) i x :
  (∀ j y, W !! j = Some y → P j y) → P i x → ∀ j y, <[i := x]> W !! j = Some y → P j y.
Proof using. intros HW Hx j y [(<- & -> & _)|[_ Hj]]%list_lookup_insert_Some; auto. Qed.

Lemma Forall2_insert_r {A B} (P : A → B → Prop) (la : list A) (lb : list B) i b b' :
  Forall2 P la lb → lb !! i = Some b → (∀ a, P a b → P a b') → Forall2 P la (<[i := b']> lb).
Proof using.
  intros H. revert i. induction H as [|a b0 la lb Ha Hl IH]; intros [|i] Hi Hb; [done..| |].
  - injection Hi as ->. constructor; [by apply Hb|done].
  - constructor; [done|]. by apply IH.
Qed.

(** What does not depend on the coordinator. *)
Lemma lane_frame W o log w i l g l' g' :
  world_ok W o log w → W !! i = Some (l, g) → lane_ok o i l' g' →
  (∃ r, ops g' = ops g ++ r ∧ ∀ ts, OpAdvance ts ∈ r → seen_upto W ts) →
  (data_open l = false → data_open l' = false ∧ sent g' = sent g) →
  let W' := <[i := (l', g')]> W in
  <[i := l']> (lanes w) = W'.*1 ∧
  (∀ j lj gj, W' !! j = Some (lj, gj) → lane_ok o j lj gj) ∧
  (∀ j x ts, W' !! j = Some x → OpAdvance ts ∈ tail (ops x.2) → seen_upto W' ts) ∧
  Forall (published_ok W') (published w).
Proof using.
  intros Hw Hi Hok (r & Hr & Hadv) Hsent W'. destruct Hw as [Hl He _ _ Ha _ _ _ _ _ _ Hp].
  assert (∀ t, seen_upto W t → seen_upto W' t) as Hseen by (intros t; by eapply seen_insert).
  destruct (lo_open _ _ _ _ _ _ _ (He _ _ _ Hi)) as [[rest Ho] _]. split_and!.
  - unfold W'. by rewrite Hl, list_fmap_insert.
  - intros j lj gj Hj. refine (insert_each (λ j x, lane_ok o j x.1 x.2) W i (l', g') _ Hok j (lj, gj) Hj).
    intros k [lk gk]. apply He.
  - intros j x ts Hj. revert ts.
    refine (insert_each (λ _ x, ∀ ts, OpAdvance ts ∈ tail (ops x.2) → seen_upto W' ts) W i (l', g') _ _ j x Hj); clear j x Hj.
    + intros j x Hj ts Hts. by eapply Hseen, Ha.
    + cbn [snd]. rewrite Hr, Ho. cbn [tail app]. intros ts [Hts|Hts]%elem_of_app; [|by apply Hseen, Hadv].
      apply Hseen, (Ha i (l, g)); [done|]. cbn [snd]. by rewrite Ho.
  - eapply Forall_impl; [exact Hp|]. intros pb (bs & inc & fin & Hpb & Hpc & Hpre & Hfin). exists bs, inc, fin.
    split; [done|]. split; [done|]. split.
    + eapply Forall2_insert_r; [exact Hpre|exact Hi|]. intros b Hb. cbn [snd] in *. rewrite Hr. by apply prefix_app_r.
    + intros Hf. eapply Forall2_insert_r; [by apply Hfin|exact Hi|]. cbn [fst snd]. intros b [Hd Hb].
      destruct (Hsent Hd) as [? ->]. done.
Qed.

Lemma world_lane W o log w i l : world_ok W o log w → lanes w !! i = Some l → ∃ g, W !! i = Some (l, g).
Proof using.
  intros Hw Hl. rewrite (wo_lanes _ _ _ _ Hw), list_lookup_fmap in Hl.
  destruct (W !! i) as [[l0 g]|]; [|done]. cbn in Hl. injection Hl as ->. by exists g.
Qed.

Lemma base_prefix o i l g : lane_ok o i l g → phase g = Held ∨ phase g = Told ∨ phase g = Answered →
  base g `prefix_of` ops g.
Proof using.
  intros Hok Hp. destruct (lo_base _ _ _ _ _ _ _ Hok) as [Hb1 Hb2]. destruct Hp as [Hp|[Hp|Hp]].
  - by rewrite Hb1 by by left.
  - by rewrite Hb1 by by right.
  - destruct (Hb2 Hp) as (_ & r & -> & _). by apply prefix_app_r.
Qed.

(** The watermark is a time stamp that some lane has processed. *)
Lemma aligned_seen W o (c : Coordinator (S := S)) watermark t :
  (∀ i l g, W !! i = Some (l, g) → lane_ok o i l g ∧ (phase g = Held ∨ phase g = Told ∨ phase g = Answered)) →
  aligned W watermark → watermark = Some t → seen_upto W t.
Proof using.
  intros He [Hl _] Ht. rewrite Hl in Ht. unfold latest in Ht. pose proof (ts_max_spec (omap max_of (bases W))) as Hs.
  rewrite Ht in Hs. destruct Hs as [(b & Hb & Hm)%list_elem_of_omap _].
  apply list_elem_of_fmap in Hb as ([l g] & -> & [i Hi]%list_elem_of_lookup). cbn [snd] in Hm.
  destruct (He i l g Hi) as [Hok Hp]. destruct (base_prefix _ _ _ _ Hok Hp) as [r Hr].
  destruct (max_of_mono _ r _ Hm) as (m & Hm' & ?). exists i, (l, g), m. cbn [snd]. by rewrite Hr.
Qed.

Lemma order_seen W o log w t : world_ok W o log w → o.1.1 = Some t → seen_upto W t.
Proof using.
  intros Hw Ht. pose proof (wo_order _ _ _ _ Hw) as Ho. pose proof (wo_phase _ _ _ _ Hw) as Hp.
  unfold order_ok in Ho. destruct (coordinator w) as [| | | |fin inc wm k|fin inc got| |] eqn:Ec; try (by rewrite Ho in Ht).
  - destruct Ho as [-> Ha]. cbn in Ht. eapply (aligned_seen W _ (coordinator w)); [|exact Ha|exact Ht].
    intros i l g Hi. split; [by eapply (wo_each _ _ _ _ Hw)|]. specialize (Hp i l g Hi). cbn [phase_at] in Hp.
    destruct (i <? k)%nat; tauto.
  - destruct Ho as (_ & _ & Ha). eapply (aligned_seen W o (coordinator w)); [|exact Ha|exact Ht].
    intros i l g Hi. split; [by eapply (wo_each _ _ _ _ Hw)|]. specialize (Hp i l g Hi). cbn [phase_at] in Hp. tauto.
  - by apply Ho.
  - by apply Ho.
Qed.

Lemma bases_same W i l g x : W !! i = Some (l, g) → base x.2 = base g → bases (<[i := x]> W) = bases W.
Proof using.
  intros Hi Hb. unfold bases. rewrite list_fmap_insert, Hb. apply list_insert_id. by rewrite list_lookup_fmap, Hi.
Qed.

(** The coordinator's order survives a change that keeps the bases. *)
Lemma order_insert W o (c : Coordinator (S := S)) i l g x :
  W !! i = Some (l, g) → (∀ t, seen_upto W t → seen_upto (<[i := x]> W) t) →
  (phase_at c i (phase g)) → (phase g = Held ∨ phase g = Told ∨ phase g = Answered → base x.2 = base g) →
  order_ok W o c → order_ok (<[i := x]> W) o c.
Proof using S eng0 init mem.
  intros Hi Hseen Hp Hb Ho.
  assert (base x.2 = base g → ∀ wm, aligned W wm → aligned (<[i := x]> W) wm) as Hal.
  { intros Hbx wm. unfold aligned. by rewrite (bases_same _ _ _ _ _ Hi Hbx). }
  unfold order_ok in *. destruct c; cbn [phase_at] in Hp; try done.
  - destruct Ho as [? Ha]. split; [done|]. apply Hal; [|done]. apply Hb. destruct (i <? sent)%nat; tauto.
  - destruct Ho as (? & ? & Ha). split_and!; [done..|]. apply Hal; [|done]. apply Hb. tauto.
  - destruct Ho as [? Ha]. split; [done|]. auto.
  - auto.
Qed.

Lemma broken_insert w i l l' c pub dr ak rp :
  broken_ok w → lanes w !! i = Some l → (backpressured l → backpressured l') → c = coordinator w →
  broken_ok (mkWorld (<[i := l']> (lanes w)) dr ak rp c pub).
Proof using.
  intros Hb Hl Hp ->. unfold broken_ok in *. cbn [coordinator lanes]. destruct (coordinator w) as [| | | | | | |[]]; try done.
  destruct Hb as (j & lj & Hj & Hbj). destruct (decide (i = j)) as [<-|].
  - exists i, l'. rewrite list_lookup_insert_eq by by eapply lookup_lt_Some. split; [done|]. apply Hp. congruence.
  - exists j, lj. by rewrite list_lookup_insert_ne.
Qed.

Lemma phase_at_pause (c : Coordinator (S := S)) i : phase_at c i Asked → phase_at c i Held.
Proof using. clear -c. unfold phase_at. intros H; repeat case_match; naive_solver. Qed.
Lemma phase_at_answer (c : Coordinator (S := S)) i : phase_at c i Told → phase_at c i Answered.
Proof using. clear -c. unfold phase_at. intros H; repeat case_match; naive_solver. Qed.

Lemma drain_sent_closed i (x : LaneG) : data_open x.1 = false ↔ is_Some (drain_sent i x).
Proof using. unfold drain_sent. destruct (data_open x.1); split; [done|by intros []|eauto|done]. Qed.

(** What is in the channels after a worker's step. *)
Lemma drained_deliver W w i l g l' g' out :
  W !! i = Some (l, g) → drained_ok W w → (data_open l = false → data_open l' = false) →
  (if out is Drained a then drain_sent i (l, g) = None ∧ drain_sent i (l', g') = Some a
   else drain_sent i (l, g) = drain_sent i (l', g')) →
  drained_ok (<[i := (l', g')]> W) (deliver (set_lane w i l') out).
Proof using.
  intros Hi Hd Hdat Hout. set (W' := <[i := (l', g')]> W).
  set (new := if out is Drained a then [a] else []).
  assert (drained (deliver (set_lane w i l') out) = drained w ++ new) as Hdr by (by destruct out; cbn; rewrite ?app_nil_r).
  assert (coordinator (deliver (set_lane w i l') out) = coordinator w) as Hco by by destruct out.
  assert (gather drain_sent W' ≡ₚ gather drain_sent W ++ new) as Hg.
  { destruct out; [|by eapply gather_new; [exact Hi|apply Hout..]| |];
      (unfold new; rewrite app_nil_r; unfold W'; by erewrite gather_same). }
  assert ((∀ j x, W !! j = Some x → data_open x.1 = false) →
    new = [] ∧ ∀ j x, W' !! j = Some x → data_open x.1 = false) as Hcl.
  { intros H. pose proof (H _ _ Hi) as Hl. cbn [fst] in Hl. split.
    - unfold new. destruct out as [|a| |]; try done. destruct Hout as [Hn _]. unfold drain_sent in Hn. cbn [fst] in Hn. by rewrite Hl in Hn.
    - apply (insert_each (λ j x, data_open x.1 = false)); auto. }
  unfold drained_ok in *. rewrite Hdr, Hco. destruct (coordinator w); cbn [final] in *;
    rewrite ?Hg, ?app_assoc, ?Hd; try done.
  all: try (destruct finish; [|by rewrite Hg, Hd]); destruct Hd as [-> Hd]; destruct (Hcl Hd) as [-> ?]; done.
Qed.

Lemma acks_deliver W w i l g l' g' out :
  W !! i = Some (l, g) → phase_at (coordinator w) i (phase g) → acks_ok W w →
  (if out is Acknowledged a then phase g = Asked ∧ ack_sent i (l', g') = Some a
   else ack_sent i (l, g) = ack_sent i (l', g')) →
  acks_ok (<[i := (l', g')]> W) (deliver (set_lane w i l') out).
Proof using S eng0 mem.
  intros Hi Hph Ha Hout. set (W' := <[i := (l', g')]> W).
  set (new := if out is Acknowledged a then [a] else []).
  assert (acks (deliver (set_lane w i l') out) = acks w ++ new) as Hdr by (by destruct out; cbn; rewrite ?app_nil_r).
  assert (coordinator (deliver (set_lane w i l') out) = coordinator w) as Hco by by destruct out.
  assert (gather ack_sent W' ≡ₚ gather ack_sent W ++ new) as Hg.
  { destruct out as [| |a|]; try (unfold new; rewrite app_nil_r; unfold W'; by erewrite gather_same).
    destruct Hout as [Hp Hout]. eapply gather_new; [exact Hi| |exact Hout]. unfold ack_sent. cbn [snd]. by rewrite Hp. }
  unfold acks_ok in *. rewrite Hdr, Hco. unfold phase_at in Hph. destruct (coordinator w);
    rewrite ?Hg, ?app_assoc, ?Ha; try done.
  all: unfold new; destruct out as [| |a|]; try done; destruct Hout as [Hp _]; rewrite Hp in Hph;
    try case_match; naive_solver.
Qed.

Lemma replies_deliver W o w i l g l' g' out :
  W !! i = Some (l, g) → phase_at (coordinator w) i (phase g) → replies_ok W o w →
  (if out is Replied r then phase g = Told ∧ reply_sent o i (l', g') = Some r
   else reply_sent o i (l, g) = reply_sent o i (l', g')) →
  replies_ok (<[i := (l', g')]> W) o (deliver (set_lane w i l') out).
Proof using.
  intros Hi Hph Ha Hout. set (W' := <[i := (l', g')]> W).
  set (new := if out is Replied r then [r] else []).
  assert (replies (deliver (set_lane w i l') out) = replies w ++ new) as Hdr by (by destruct out; cbn; rewrite ?app_nil_r).
  assert (coordinator (deliver (set_lane w i l') out) = coordinator w) as Hco by by destruct out.
  assert (gather (reply_sent o) W' ≡ₚ gather (reply_sent o) W ++ new) as Hg.
  { destruct out as [| | |r]; try (unfold new; rewrite app_nil_r; unfold W'; by erewrite gather_same).
    destruct Hout as [Hp Hout]. eapply gather_new; [exact Hi| |exact Hout]. unfold LanesSpec.reply_sent. cbn [snd]. by rewrite Hp. }
  unfold replies_ok in *. rewrite Hdr, Hco. unfold phase_at in Hph. destruct (coordinator w);
    rewrite ?Hg, ?app_assoc, ?Ha; try done.
  all: unfold new; destruct out as [| | |r]; try done; destruct Hout as [Hp _]; rewrite Hp in Hph;
    try case_match; naive_solver.
Qed.

(** A worker's step keeps the invariant. *)
Lemma worker_ok W o log w i l l' out :
  world_ok W o log w → lanes w !! i = Some l → worker_step mem batch_size i l = Some (l', out) →
  ∃ W', world_ok W' o log (deliver (set_lane w i l') out).
Proof using LW Hnames Hnew Hplans.
  intros Hw Hl Hst. destruct (world_lane _ _ _ _ _ _ Hw Hl) as [g Hi].
  destruct (worker_step_ok h plans Hnames Hplans eng0 Hnew mem batch_size init o i l g l' out
    (wo_each _ _ _ _ Hw _ _ _ Hi) Hst) as [g' [Hok Hsent (r & Hr & Hadv) Hbase Hout Hdat]].
  pose proof (wo_phase _ _ _ _ Hw _ _ _ Hi) as Hph.
  assert (∀ ts, OpAdvance ts ∈ r → seen_upto W ts) as Hadv' by (intros ts Hts; by eapply order_seen, Hadv).
  destruct (lane_frame W o log w i l g l' g' Hw Hi Hok) as (F1 & F2 & F3 & F4); [by exists r|by auto|].
  assert (coordinator (deliver (set_lane w i l') out) = coordinator w) as Hco by by destruct out.
  assert (lanes (deliver (set_lane w i l') out) = <[i := l']> (lanes w)) as Hla by by destruct out.
  assert (published (deliver (set_lane w i l') out) = published w) as Hpu by by destruct out.
  exists (<[i := (l', g')]> W). destruct Hw as [_ _ Hlog Hphase _ Ho Hcnt Hd Ha Hrep Hb _].
  split; rewrite ?Hco, ?Hla, ?Hpu, ?length_insert; try done.
  - intros j lj gj Hj. refine (insert_each (λ j x, sent x.2 = lane_log j log) W i (l', g') _ _ j (lj, gj) Hj).
    + intros k [lk gk]. apply Hlog.
    + cbn [snd]. rewrite Hsent. by eapply Hlog.
  - intros j lj gj Hj. refine (insert_each (λ j x, phase_at (coordinator w) j (phase x.2)) W i (l', g') _ _ j (lj, gj) Hj).
    + intros k [lk gk]. apply Hphase.
    + cbn [snd]. destruct out; cbn [sends snd] in Hout.
      * destruct Hout as (_ & <- & _). done.
      * destruct Hout as (_ & _ & <- & _). done.
      * destruct Hout as (_ & Hp & -> & _). apply phase_at_pause. by rewrite <- Hp.
      * destruct Hout as (_ & Hp & -> & _). apply phase_at_answer. by rewrite <- Hp.
  - eapply order_insert; [exact Hi| |exact Hph| |exact Ho].
    + intros t. by eapply seen_insert.
    + intros Hp. cbn [snd]. apply Hbase. intros E. rewrite E in Hp. by destruct Hp as [|[|]].
  - eapply drained_deliver; [exact Hi|exact Hd|exact Hdat|]. destruct out; cbn [sends] in Hout; tauto.
  - eapply acks_deliver; [exact Hi|exact Hph|exact Ha|]. destruct out; cbn [sends snd] in Hout; [tauto..|].
    destruct Hout as (_ & Hp & Hp' & _). unfold ack_sent. cbn [snd]. by rewrite Hp, Hp'.
  - eapply replies_deliver; [exact Hi|exact Hph|exact Hrep|]. destruct out; cbn [sends snd] in Hout; [tauto..| |tauto].
    destruct Hout as (_ & Hp & Hp' & _). unfold LanesSpec.reply_sent. cbn [snd]. by rewrite Hp, Hp'.
  - assert (∃ pub dr ak rp, deliver (set_lane w i l') out = mkWorld (<[i := l']> (lanes w)) dr ak rp (coordinator w) pub)
      as (pub & dr & ak & rp & ->) by (destruct out; cbn; do 4 eexists; reflexivity).
    eapply broken_insert; [exact Hb|exact Hl| |done]. intros [msg Hm]. unfold worker_step in Hst. by rewrite Hm in Hst.
Qed.

(** ** Capture *)

Lemma lane_log_app i a b : lane_log i (a ++ b) = lane_log i a ++ lane_log i b.
Proof using. apply omap_app. Qed.

(** A change that neither runs an engine operation nor sends anything. *)
Lemma quiet_ok W o log log' w i l g l' sent' :
  world_ok W o log w → W !! i = Some (l, g) →
  let g' := mkGhost (phase g) (ops g) (base g) sent' in
  lane_ok o i l' g' → data_open l' = data_open l → (data_open l = false → sent' = sent g) →
  position l' = position l →
  (∀ j, lane_log j log' = if decide (j = i) then sent' else lane_log j log) →
  world_ok (<[i := (l', g')]> W) o log' (set_lane w i l').
Proof using.
  intros Hw Hi g' Hok Hdat Hsent Hpos Hlog'. pose proof (wo_phase _ _ _ _ Hw _ _ _ Hi) as Hph.
  destruct (lane_frame W o log w i l g l' g' Hw Hi Hok) as (F1 & F2 & F3 & F4).
  { exists []. split; [by rewrite app_nil_r|]. by intros ts ?%elem_of_nil. }
  { intros Hd. split; [congruence|by apply Hsent]. }
  assert (lanes w !! i = Some l) as Hl by (rewrite (wo_lanes _ _ _ _ Hw), list_lookup_fmap, Hi; done).
  destruct Hw as [_ _ Hlog Hphase _ Ho Hcnt Hd Ha Hrep Hb _]. split; rewrite ?length_insert; try done.
  - intros j lj gj Hj. rewrite Hlog'. apply list_lookup_insert_Some in Hj as [(<- & [= <- <-] & _)|[Hne Hj]].
    + by rewrite decide_True.
    + rewrite decide_False by done. by eapply Hlog.
  - intros j lj gj Hj. refine (insert_each (λ j x, phase_at (coordinator w) j (phase x.2)) W i (l', g') _ Hph j (lj, gj) Hj).
    intros k [lk gk]. apply Hphase.
  - eapply order_insert; [exact Hi| |exact Hph|done|exact Ho]. intros t.
    eapply (seen_insert W i _ _ []); [exact Hi|]. by rewrite app_nil_r.
  - apply (drained_deliver W w i l g l' g' Silent Hi Hd); [congruence|]. unfold drain_sent. cbn [fst snd]. by rewrite Hdat.
  - apply (acks_deliver W w i l g l' g' Silent Hi Hph Ha). done.
  - apply (replies_deliver W o w i l g l' g' Silent Hi Hph Hrep). done.
  - eapply broken_insert; [exact Hb|exact Hl| |done]. intros [msg Hm]. exists msg. by rewrite Hpos.
Qed.

Lemma capture_ok W o log w i l e :
  world_ok W o log w → lanes w !! i = Some l → sender_open l = true → alive l = true → event_ok e →
  ∃ W', world_ok W' o (log ++ option_list (if has_slot l then Some (i, e) else None)) (set_lane w i (offer_event e l)).
Proof using.
  intros Hw Hl Hso Hal He. destruct (world_lane _ _ _ _ _ _ Hw Hl) as [g Hi].
  pose proof (wo_each _ _ _ _ Hw _ _ _ Hi) as Hok. pose proof (wo_log _ _ _ _ Hw _ _ _ Hi) as Hlog.
  assert (data_open l = true) as Hd.
  { destruct (data_open l) eqn:E; [done|]. destruct (lo_closed _ _ _ _ _ _ _ Hok E) as [? _]. congruence. }
  destruct Hok as [Ho Hop Hse Hev Hsn Hcl Hp Hor Hb].
  unfold offer_event. destruct (has_slot l); cbn [option_list]; eexists;
    [apply (quiet_ok W o log _ w i l g _ (sent g ++ [e])) | apply (quiet_ok W o log _ w i l g _ (sent g))]; try done.
  - split; try done; cbn [sent ops].
    + split; [apply Hop|]. apply prefix_app_r, Hop.
    + intros Hf. change (sent g ++ [e] = events_of (ops g) ++ inflight l ++ channel l ++ [e]).
      change (¬ failed l) in Hf. by rewrite (Hse Hf), <- !app_assoc.
    + change (Forall event_ok (inflight l ++ channel l ++ [e])). rewrite app_assoc. apply Forall_app. split; [done|by constructor].
    + intros H. change (data_open l = false) in H. congruence.
  - congruence.
  - intros j. rewrite lane_log_app. cbn. destruct (decide (j = i)) as [->|Hne].
    + rewrite Nat.eqb_refl. by rewrite <- Hlog.
    + rewrite (proj2 (Nat.eqb_neq i j)) by done. by rewrite app_nil_r.
  - intros j. cbn [option_list]; rewrite app_nil_r. case_decide; [by subst|done].
Qed.

Lemma close_ok W o log w i l :
  world_ok W o log w → lanes w !! i = Some l → ∃ W', world_ok W' o log (set_lane w i (close_sender l)).
Proof using.
  intros Hw Hl. destruct (world_lane _ _ _ _ _ _ Hw Hl) as [g Hi].
  pose proof (wo_each _ _ _ _ Hw _ _ _ Hi) as [Ho Hop Hse Hev Hsn Hcl Hp Hor Hb].
  pose proof (wo_log _ _ _ _ Hw _ _ _ Hi) as Hlog. eexists.
  eapply quiet_ok; [exact Hw|exact Hi| |done| |done|].
  - split; try done. intros H. destruct (Hcl H) as (? & ? & ?). done.
  - done.
  - intros j. case_decide; [by subst|done].
Qed.

(** ** The coordinator *)

Lemma break_ok W o log w e dr ak rp :
  world_ok W o log w → broken_ok (mkWorld (lanes w) dr ak rp (Broken e) (published w)) →
  world_ok W o log (mkWorld (lanes w) dr ak rp (Broken e) (published w)).
Proof using.
  intros Hw Hb. pose proof (λ t, order_seen W o log w t Hw) as Hseen. destruct Hw as [Hl He Hlog _ Ha _ _ _ _ _ _ Hp].
  by split.
Qed.

(** A worker that stopped while it was working stopped for lack of room. *)
Lemma stopped l : working l → alive l = false → backpressured l.
Proof using. unfold working, alive, backpressured. destruct (position l); try done. intros [msg ->]. by exists msg. Qed.

(** A message to the worker of the next lane leaves the histories alone. *)
Lemma tell_frame W o log w k l g cs p' :
  world_ok W o log w → W !! k = Some (l, g) →
  let x' := (set_controls l cs, mkGhost p' (ops g) (base g) (sent g)) in
  lane_ok o k x'.1 x'.2 →
  let W' := <[k := x']> W in
  (<[k := set_controls l cs]> (lanes w) = W'.*1 ∧
   (∀ j lj gj, W' !! j = Some (lj, gj) → lane_ok o j lj gj) ∧
   (∀ j x ts, W' !! j = Some x → OpAdvance ts ∈ tail (ops x.2) → seen_upto W' ts) ∧
   Forall (published_ok W') (published w)) ∧
  (∀ j lj gj, W' !! j = Some (lj, gj) → sent gj = lane_log j log) ∧
  gather drain_sent W' = gather drain_sent W ∧ bases W' = bases W ∧
  ((∀ j x, W !! j = Some x → data_open x.1 = false) → ∀ j x, W' !! j = Some x → data_open x.1 = false).
Proof using.
  intros Hw Hi x' Hok W'. split; [|split_and!].
  - apply (lane_frame W o log w k l g _ _ Hw Hi Hok); [|done].
    exists []. split; [by rewrite app_nil_r|]. by intros ts ?%elem_of_nil.
  - intros j lj gj Hj. refine (insert_each (λ j x, sent x.2 = lane_log j log) W k x' _ _ j (lj, gj) Hj).
    + intros n [ln gn]. apply (wo_log _ _ _ _ Hw).
    + exact (wo_log _ _ _ _ Hw _ _ _ Hi).
  - by eapply gather_same.
  - by eapply bases_same.
  - intros H. apply (insert_each (λ j x, data_open x.1 = false)); [done|]. by apply (H _ _ Hi).
Qed.

(** The phases of the lanes once lane [k] has been told. *)
Lemma phase_next W k x' (c c' : Coordinator (S := S)) :
  (∀ j l g, W !! j = Some (l, g) → phase_at c j (phase g)) →
  (∀ j p, j ≠ k → phase_at c j p → phase_at c' j p) → phase_at c' k (phase x'.2) →
  ∀ j l g, <[k := x']> W !! j = Some (l, g) → phase_at c' j (phase g).
Proof using.
  intros HW Hc Hx j l g [(<- & -> & _)|[Hne Hj]]%list_lookup_insert_Some; [done|].
  apply Hc; [done|]. by eapply HW.
Qed.

Lemma ltb_next j k : j ≠ k → (j <? Datatypes.S k)%nat = (j <? k)%nat.
Proof using. intros H. apply eq_true_iff_eq. rewrite !Nat.ltb_lt. lia. Qed.

Lemma ltb_last k : (k <? Datatypes.S k)%nat = true.
Proof using. apply Nat.ltb_lt. lia. Qed.

Lemma send_pause_ok W o log w fin k :
  world_ok W o log w → coordinator w = Pausing fin k → k ≠ length W →
  ∃ W', world_ok W' o log (send_control w k Pause (Pausing fin (Datatypes.S k))).
Proof using.
  intros Hw Hc Hk. pose proof (wo_count _ _ _ _ Hw) as Hle. rewrite Hc in Hle.
  destruct (lookup_lt_is_Some_2 W k) as [[l g] Hi]; [lia|].
  assert (lanes w !! k = Some l) as Hl by (rewrite (wo_lanes _ _ _ _ Hw), list_lookup_fmap, Hi; done).
  pose proof (wo_phase _ _ _ _ Hw _ _ _ Hi) as Hph. rewrite Hc in Hph. cbn [phase_at] in Hph. rewrite Nat.ltb_irrefl in Hph.
  pose proof (wo_each _ _ _ _ Hw _ _ _ Hi) as [H1 H2 H3 H4 H5 H6 Hp H7 H8]. rewrite Hph in Hp. destruct Hp as [Hcs Hwk].
  unfold send_control. rewrite Hl. destruct (alive l) eqn:Hal.
  2: { exists W. apply break_ok; [done|]. exists k, l. split; [done|]. by apply stopped. }
  rewrite Hcs. cbn [app]. destruct (tell_frame W o log w k l g [Pause] Asked Hw Hi) as ((F1 & F2 & F3 & F4) & Hlog & Hdr & Hbs & Hcl).
  { split; try done. split; [by intros [|]|done]. }
  exists (<[k := (set_controls l [Pause], mkGhost Asked (ops g) (base g) (sent g))]> W).
  destruct Hw as [_ _ _ Hphase _ Ho _ Hd Ha Hrep _ _].
  unfold order_ok, drained_ok, acks_ok, replies_ok in *. rewrite Hc in *.
  split; unfold order_ok, drained_ok, acks_ok, replies_ok; rewrite ?length_insert; try done;
    cbn [set_coordinator set_lane coordinator drained acks replies] in *.
  - eapply phase_next; [exact Hphase| |cbn [phase_at]; rewrite ltb_last; by left].
    intros j p Hne. cbn [phase_at]. by rewrite ltb_next.
  - lia.
  - cbn [final] in *. destruct fin; [|by rewrite Hdr]. destruct Hd as [? Hd]. split; [done|]. by apply Hcl.
  - erewrite gather_same; [done|exact Hi|]. unfold ack_sent. cbn [snd phase]. by rewrite Hph.
Qed.

Lemma send_checkpoint_ok W o log w fin inc wm k :
  world_ok W o log w → coordinator w = Ordering fin inc wm k → k ≠ length W →
  ∃ W', world_ok W' o log (send_control w k (Checkpoint wm inc fin) (Ordering fin inc wm (Datatypes.S k))).
Proof using.
  intros Hw Hc Hk. pose proof (wo_count _ _ _ _ Hw) as Hle. rewrite Hc in Hle.
  destruct (lookup_lt_is_Some_2 W k) as [[l g] Hi]; [lia|].
  assert (lanes w !! k = Some l) as Hl by (rewrite (wo_lanes _ _ _ _ Hw), list_lookup_fmap, Hi; done).
  pose proof (wo_phase _ _ _ _ Hw _ _ _ Hi) as Hph. rewrite Hc in Hph. cbn [phase_at] in Hph. rewrite Nat.ltb_irrefl in Hph.
  pose proof (wo_order _ _ _ _ Hw) as Ho. unfold order_ok in Ho. rewrite Hc in Ho. destruct Ho as [-> Hal'].
  pose proof (wo_each _ _ _ _ Hw _ _ _ Hi) as [H1 H2 H3 H4 H5 H6 Hp H7 [H8 H9]]. rewrite Hph in Hp. destruct Hp as [Hcs Hwk].
  unfold send_control. rewrite Hl. unfold alive. rewrite Hwk, Hcs. cbn [app].
  destruct (tell_frame W _ log w k l g [Checkpoint wm inc fin] Told Hw Hi) as ((F1 & F2 & F3 & F4) & Hlog & Hdr & Hbs & Hcl).
  { split; try done. cbn [phase snd base ops]. split; [|done]. intros _. apply H8. by left. }
  exists (<[k := (set_controls l [Checkpoint wm inc fin], mkGhost Told (ops g) (base g) (sent g))]> W).
  destruct Hw as [_ _ _ Hphase _ _ _ Hd Ha Hrep _ _].
  unfold drained_ok, acks_ok, replies_ok in *. rewrite Hc in *.
  split; unfold order_ok, drained_ok, acks_ok, replies_ok; rewrite ?length_insert; try done;
    cbn [set_coordinator set_lane coordinator drained acks replies] in *.
  - eapply phase_next; [exact Hphase| |cbn [phase_at]; rewrite ltb_last; by left].
    intros j p Hne. cbn [phase_at]. by rewrite ltb_next.
  - split; [done|]. unfold aligned. by rewrite Hbs.
  - lia.
  - cbn [final] in *. destruct fin; [|by rewrite Hdr]. destruct Hd as [? Hd]. split; [done|]. by apply Hcl.
  - erewrite gather_same; [done|exact Hi|]. unfold LanesSpec.reply_sent. cbn [snd phase]. by rewrite Hph.
Qed.

(** *** Draining *)

Lemma in_lanes_imap {A B} (lane : B → nat) (f : nat → A → B) (l : list A) :
  (∀ i x, l !! i = Some x → lane (f i x) = i) → in_lanes lane 0 (imap f l).
Proof using.
  intros H i y Hy. rewrite list_lookup_imap in Hy. destruct (l !! i) as [x|] eqn:E; [|done].
  injection Hy as <-. by apply H.
Qed.

(** A full set of acknowledgements passes the check, in lane order. *)
Lemma acks_checked W (f : nat → LaneG → option PauseAck) got :
  (∀ i x, W !! i = Some x → f i x = Some (mkAck i (max_of (ops x.2)))) → got ≡ₚ gather f W →
  by_lane ack_lane got = imap (λ i (x : LaneG), mkAck i (max_of (ops x.2))) W ∧
  check_lanes ack_lane 0 (by_lane ack_lane got) = Ok tt.
Proof using.
  intros Hf Hg. rewrite (gather_all f _ _ Hf) in Hg.
  assert (in_lanes ack_lane 0 (imap (λ i (x : LaneG), mkAck i (max_of (ops x.2))) W)) as Hin by by apply in_lanes_imap.
  assert (by_lane ack_lane got = imap (λ i (x : LaneG), mkAck i (max_of (ops x.2))) W) as E by by apply by_lane_exact.
  split; [done|]. rewrite E. by apply check_lanes_ok.
Qed.

(** A change of the coordinator and the channels only. *)
Lemma coordinator_ok W o log w dr ak rp (c : Coordinator (S := S)) :
  world_ok W o log w →
  let w' := mkWorld (lanes w) dr ak rp c (published w) in
  (∀ i l g, W !! i = Some (l, g) → phase_at c i (phase g)) → order_ok W o c →
  match c with Pausing _ k | Ordering _ _ _ k => (k <= length W)%nat | _ => True end →
  drained_ok W w' → acks_ok W w' → replies_ok W o w' → broken_ok w' → world_ok W o log w'.
Proof using. intros [Hl He Hlog _ Ha _ _ _ _ _ _ Hp] w' ???????. by split. Qed.

Lemma drained_full_ok W o log w got :
  world_ok W o log w → coordinator w = Draining got → length got = length W →
  check_lanes ack_lane 0 (by_lane ack_lane got) = Ok tt ∧ world_ok W o log (set_coordinator w (Pausing true 0)).
Proof using.
  intros Hw Hc Hlen. pose proof Hw as [_ _ _ Hphase _ Ho _ Hd Ha Hrep Hb _].
  unfold order_ok, drained_ok, acks_ok, replies_ok in *. rewrite Hc in *.
  destruct (gather_received _ _ _ _ Hd Hlen) as (Hdr & Hg & Hall).
  assert (∀ i x, W !! i = Some x → data_open x.1 = false) as Hcl by (intros i x Hi; by apply (drain_sent_closed i), Hall).
  split.
  - apply (acks_checked W drain_sent got); [|done]. intros i x Hi. unfold drain_sent. by rewrite (Hcl _ _ Hi).
  - apply coordinator_ok; [done|..]; try done; cbn [drained].
    lia.
Qed.

(** *** Collecting the acknowledgements *)

Lemma latest_max W t : seen_upto W t → ∃ m, latest ((λ x : LaneG, ops x.2) <$> W) = Some m ∧ t <= m.
Proof using.
  intros (i & x & m & Hi & Hm & Ht). unfold latest.
  assert (m ∈ omap max_of ((λ x : LaneG, ops x.2) <$> W)) as Hin.
  { apply list_elem_of_omap. exists (ops x.2). split; [|done]. apply list_elem_of_fmap. exists x.
    split; [done|]. by eapply list_elem_of_lookup_2. }
  pose proof (ts_max_spec (omap max_of ((λ x : LaneG, ops x.2) <$> W))) as Hs. destruct (ts_max _) as [m'|].
  - exists m'. split; [done|]. etrans; [exact Ht|]. by apply Hs.
  - rewrite Hs in Hin. by apply elem_of_nil in Hin.
Qed.

(** No history goes beyond the largest time stamp of all lanes. *)
Lemma paced_all W o log w : world_ok W o log w →
  Forall (paced init (latest ((λ x : LaneG, ops x.2) <$> W))) ((λ x : LaneG, ops x.2) <$> W).
Proof using.
  intros Hw. apply Forall_fmap, Forall_forall. intros [l g] [i Hi]%list_elem_of_lookup. cbn [compose snd].
  destruct (lo_open _ _ _ _ _ _ _ (wo_each _ _ _ _ Hw _ _ _ Hi)) as [[rest Ho] _]. exists rest. split; [done|].
  apply Forall_forall. intros op Hop ts Hts. apply latest_max. destruct op as [e|t| |]; try done; injection Hts as <-.
  - assert (ts_nanos e ∈ ts_nanos <$> events_of (ops g)) as Hin.
    { apply list_elem_of_fmap_2, list_elem_of_omap. exists (OpEvent e). split; [|done]. rewrite Ho. by right. }
    pose proof (ts_max_spec (ts_nanos <$> events_of (ops g))) as Hs. fold (max_of (ops g)) in Hs.
    destruct (max_of (ops g)) as [m|] eqn:Em; [|by rewrite Hs in Hin; apply elem_of_nil in Hin].
    exists i, (l, g), m. split_and!; [done|done|]. by apply Hs.
  - apply (wo_adv _ _ _ _ Hw i (l, g)); [done|]. cbn [snd]. by rewrite Ho.
Qed.

Lemma watermark_of_acks W :
  watermark_of (imap (λ i (x : LaneG), mkAck i (max_of (ops x.2))) W) = latest ((λ x : LaneG, ops x.2) <$> W).
Proof using.
  unfold watermark_of, latest. f_equal.
  enough (∀ f : nat → nat, omap max_timestamp_nanos (imap (λ i (x : LaneG), mkAck (f i) (max_of (ops x.2))) W) =
    omap max_of ((λ x : LaneG, ops x.2) <$> W)) as H by apply (H id).
  induction W as [|x W IH]; intros f; [done|]. cbn [imap omap list_omap fmap list_fmap max_timestamp_nanos].
  destruct (max_of (ops x.2)); [f_equal|]; apply (IH (f ∘ Datatypes.S)).
Qed.

Lemma held_bases W : (∀ i l g, W !! i = Some (l, g) → base g = ops g) → bases W = (λ x : LaneG, ops x.2) <$> W.
Proof using. intros H. unfold bases. apply list_fmap_ext. intros i [l g] Hi. by eapply H. Qed.

Lemma latest_u64 W o log w t : world_ok W o log w → latest ((λ x : LaneG, ops x.2) <$> W) = Some t → u64_ok t.
Proof using.
  intros Hw Ht. pose proof (ts_max_spec (omap max_of ((λ x : LaneG, ops x.2) <$> W))) as Hs. unfold latest in Ht.
  rewrite Ht in Hs. destruct Hs as [(b & Hb & Hm)%list_elem_of_omap _].
  apply list_elem_of_fmap in Hb as ([l g] & -> & [i Hi]%list_elem_of_lookup). cbn [snd] in Hm.
  pose proof (ts_max_spec (ts_nanos <$> events_of (ops g))) as Hs. fold (max_of (ops g)) in Hs. rewrite Hm in Hs.
  destruct Hs as [(e & -> & He)%list_elem_of_fmap _]. apply list_elem_of_omap in He as (op & Hop & Heq).
  destruct (lo_ops _ _ _ _ _ _ _ (wo_each _ _ _ _ Hw _ _ _ Hi)) as [[Hops _] _].
  rewrite Forall_forall in Hops. specialize (Hops op Hop). destruct op; try done. injection Heq as ->. apply Hops.
Qed.

(** All lanes are paused: the order they get. *)
Lemma collected_ok W o log w fin due got :
  world_ok W o log w → coordinator w = Collecting fin got → length got = length W →
  check_lanes ack_lane 0 (by_lane ack_lane got) = Ok tt ∧
  ∃ o', world_ok W o' log (set_coordinator w (Ordering fin due (watermark_of (by_lane ack_lane got)) 0)).
Proof using.
  intros Hw Hc Hlen. pose proof Hw as [Hl He Hlog Hphase Hadv Ho _ Hd Ha Hrep Hb Hp].
  unfold order_ok, drained_ok, acks_ok, replies_ok in *. rewrite Hc in *.
  destruct (gather_received _ _ _ _ Ha Hlen) as (Hak & Hg & Hall).
  assert (∀ i l g, W !! i = Some (l, g) → phase g = Held) as Hheld.
  { intros i l g Hi. destruct (Hall i _ Hi) as [a Ha']. unfold ack_sent in Ha'. cbn [snd] in Ha'. by case_decide. }
  destruct (acks_checked W ack_sent got) as [E Hchk]; [|done|].
  { intros i [l g] Hi. unfold ack_sent. cbn [snd]. by rewrite decide_True by by eapply Hheld. }
  split; [done|]. rewrite E, watermark_of_acks. set (wm := latest _).
  assert (∀ t, wm = Some t → u64_ok t) as Hu by (intros t; by eapply latest_u64).
  exists (wm, due, fin). split; try done.
  - intros i l g Hi. pose proof (Hheld _ _ _ Hi) as Hph. destruct (He _ _ _ Hi) as [? ? ? ? ? ? Hpo ? [Hb1 _]]. rewrite Hph in *.
    split; try done; rewrite Hph; [by destruct Hpo|]. split; [by auto|done].
  - assert (bases W = (λ x : LaneG, ops x.2) <$> W) as Hbs.
    { apply held_bases. intros i l g Hi. apply (lo_base _ _ _ _ _ _ _ (He _ _ _ Hi)). left. by eapply Hheld. }
    split; [done|]. unfold aligned. rewrite Hbs. split; [done|]. by eapply paced_all.
  - cbn. lia.
  - unfold replies_ok. cbn. rewrite Hrep, gather_none; [done|]. intros i [l g] Hi. unfold LanesSpec.reply_sent. cbn [snd].
    by rewrite (Hheld _ _ _ Hi).
Qed.

(** *** The reports *)

Abbreviation reported := (reported (like := like) h plans eng0).

Lemma reply_cases W o log w i l g r :
  world_ok W o log w → W !! i = Some (l, g) → reply_sent o i (l, g) = Some r →
  phase g = Answered ∧ r = report_of o i (base g) ∧
  ((∃ rep, r = Ok rep ∧ reported i (base g) o.1.1 o.1.2 o.2 rep) ∨ ∃ d, r = Err d ∧ refused d).
Proof using LW Hnames Hnew Hplans.
  intros Hw Hi Hr. unfold LanesSpec.reply_sent in Hr. cbn [snd] in Hr. case_decide as Hp; [|done]. injection Hr as <-.
  split; [done|]. split; [done|].
  destruct (wo_each _ _ _ _ Hw _ _ _ Hi) as [_ _ _ _ _ _ _ Hor [_ Hb]]. destruct (Hb Hp) as [Hs _].
  unfold LanesSpec.report_of. destruct (build_report_spec h plans Hnames Hplans eng0 Hnew mem i (base g) o.1.1 o.1.2 o.2 Hs Hor)
    as [(rep & -> & Hrep)|[(d & -> & Hd)|(d & -> & _ & Hd)]]; cbn [fst]; [left|right..]; by eexists.
Qed.

(** What the coordinator received is what the lanes reported. *)
Lemma reports_checked W o log w got :
  world_ok W o log w → (Ok (E := Detail) <$> got) ≡ₚ gather (reply_sent o) W →
  (∀ i x, W !! i = Some x → is_Some (reply_sent o i x)) →
  check_lanes report_lane 0 (by_lane report_lane got) = Ok tt ∧
  Forall2 (λ r b, ∃ lane, reported lane b o.1.1 o.1.2 o.2 r) (by_lane report_lane got) (bases W) ∧
  ∀ i l g, W !! i = Some (l, g) → phase g = Answered ∧ is_ok (report_of o i (base g)) = true.
Proof using LW Hnames Hnew Hplans.
  intros Hw Hg Hall.
  assert (∀ i x, W !! i = Some x → reply_sent o i x = Some (report_of o i (base x.2))) as Hf.
  { intros i [l g] Hi. destruct (Hall i _ Hi) as [r Hr]. rewrite Hr. destruct (reply_cases _ _ _ _ _ _ _ _ Hw Hi Hr) as (_ & -> & _). done. }
  rewrite (gather_all _ _ _ Hf) in Hg. symmetry in Hg. apply Permutation_map_inv in Hg as (rs & Hrs & Hp).
  assert (∀ i l g, W !! i = Some (l, g) → ∃ r, rs !! i = Some r ∧ report_of o i (base g) = Ok r ∧ reported i (base g) o.1.1 o.1.2 o.2 r) as Hlane.
  { intros i l g Hi. assert (imap (λ i (x : LaneG), report_of o i (base x.2)) W !! i = Some (report_of o i (base g))) as H
      by (by rewrite list_lookup_imap, Hi).
    rewrite Hrs in H. change (map Ok rs) with (Ok (E := Detail) <$> rs) in H. rewrite list_lookup_fmap in H.
    destruct (rs !! i) as [r|]; [|done]. injection H as H. exists r. split; [done|]. split; [done|].
    destruct (reply_cases _ _ _ _ _ _ _ _ Hw Hi (Hf _ _ Hi)) as (_ & _ & [(rep & Hrep & Hr)|(d & Hd & _)]); cbn [snd] in *;
      rewrite <- H in *; [|done]. by injection Hrep as ->. }
  assert (length rs = length W) as Hlen by (rewrite <- (length_map (Ok (E := Detail)) rs), <- Hrs; apply length_imap).
  assert (in_lanes report_lane 0 rs) as Hin.
  { intros i r Hi. destruct (lookup_lt_is_Some_2 W i) as [[l g] HW]; [rewrite <- Hlen; by eapply lookup_lt_Some|].
    destruct (Hlane _ _ _ HW) as (r' & Hi' & _ & Hrep). rewrite Hi in Hi'. injection Hi' as <-. apply Hrep. }
  assert (by_lane report_lane got = rs) as E by by apply by_lane_exact.
  rewrite E. split_and!.
  - by apply check_lanes_ok.
  - apply Forall2_same_length_lookup. unfold bases. rewrite length_fmap. split; [done|]. intros i r b Hi Hb.
    rewrite list_lookup_fmap in Hb. destruct (W !! i) as [[l g]|] eqn:HW; [|done]. injection Hb as <-.
    destruct (Hlane _ _ _ HW) as (r' & Hi' & _ & Hrep). rewrite Hi in Hi'. injection Hi' as <-. by exists i.
  - intros i l g Hi. destruct (reply_cases _ _ _ _ _ _ _ _ Hw Hi (Hf _ _ Hi)) as (Hph & _). split; [done|].
    destruct (Hlane _ _ _ Hi) as (r & _ & -> & _). done.
Qed.

(** The lane is free again. *)
Definition release (x : LaneG) : LaneG := (x.1, mkGhost Free (ops x.2) (base x.2) (sent x.2)).

Lemma release_ok o i l g : lane_ok o i l g → phase g = Answered → o.2 = false →
  lane_ok (None, false, false) i (release (l, g)).1 (release (l, g)).2.
Proof using.
  intros [Ho Hop Hse Hev Hsn Hcl Hp Hor Hb] Hph Hf. rewrite Hph in Hp. cbn [phase_ok] in Hp. rewrite Hf in Hp.
  split; try done. by split; [intros [|]|].
Qed.

Lemma release_world W o log w pb :
  world_ok W o log w → (∀ i l g, W !! i = Some (l, g) → phase g = Answered) → o.2 = false →
  drained w ≡ₚ gather drain_sent W → acks w = [] → replies w = [] → published_ok W pb →
  world_ok (release <$> W) (None, false, false) log
    (mkWorld (lanes w) (drained w) (acks w) (replies w) Idle (published w ++ [pb])).
Proof using.
  intros Hw Hph Hf Hd Ha Hr Hpb. destruct Hw as [Hl He Hlog _ Hadv _ _ _ _ _ _ Hp].
  assert (∀ i l' g', (release <$> W) !! i = Some (l', g') → ∃ l g, W !! i = Some (l, g) ∧ (l', g') = release (l, g)) as Hrel.
  { intros i l' g' Hi. rewrite list_lookup_fmap in Hi. destruct (W !! i) as [[l g]|]; [|done].
    exists l, g. split; [done|]. by injection Hi as <- <-. }
  assert (∀ t, seen_upto W t → seen_upto (release <$> W) t) as Hseen.
  { intros t (i & x & m & Hi & Hm & Ht). exists i, (release x), m. by rewrite list_lookup_fmap, Hi. }
  assert (∀ pb, published_ok W pb → published_ok (release <$> W) pb) as Hpub.
  { intros pb' (bs & inc & fin & Hpb' & Hpc & Hpre & Hfin). exists bs, inc, fin. split; [done|]. split; [done|]. split; [by apply Forall2_fmap_r|].
    intros Hq. apply Forall2_fmap_r. by apply Hfin. }
  assert (gather drain_sent (release <$> W) = gather drain_sent W) as Hdr.
  { unfold gather. f_equal. rewrite imap_fmap. by apply imap_ext. }
  split; try done; cbn [lanes published].
  - rewrite Hl, <- list_fmap_compose. by apply list_fmap_ext.
  - intros i l' g' Hi. destruct (Hrel _ _ _ Hi) as (l & g & HW & E). pose proof (release_ok o i l g (He _ _ _ HW) (Hph _ _ _ HW) Hf) as Hok.
    rewrite <- E in Hok. done.
  - intros i l' g' Hi. destruct (Hrel _ _ _ Hi) as (l & g & HW & [= -> ->]). exact (Hlog _ _ _ HW).
  - intros i l' g' Hi. by destruct (Hrel _ _ _ Hi) as (l & g & HW & [= -> ->]).
  - intros i [l' g'] ts Hi. destruct (Hrel _ _ _ Hi) as (l & g & HW & [= -> ->]). intros Hts. by apply Hseen, (Hadv _ _ _ HW).
  - unfold drained_ok. cbn. by rewrite Hdr.
  - unfold acks_ok. cbn. rewrite Ha, gather_none; [done|]. intros i [l' g'] Hi. by destruct (Hrel _ _ _ Hi) as (l & g & HW & [= -> ->]).
  - apply Forall_app. split; [by eapply Forall_impl|]. constructor; [by apply Hpub|done].
Qed.

(** What is published at the end of a checkpoint. *)
Lemma publication_ok W o log w fin inc got :
  world_ok W o log w → coordinator w = Reporting fin inc got → length got = length W →
  ∃ pb W' o', (_ ← check_lanes report_lane 0 (by_lane report_lane got); publish_reports (by_lane report_lane got) inc) = Ok pb ∧
    world_ok W' o' log (mkWorld (lanes w) (drained w) (acks w) (replies w) (if fin then Finished else Idle) (published w ++ [pb])).
Proof using LW Hnames Hnew Hplans.
  intros Hw Hc Hlen. pose proof Hw as [_ He Hlog Hphase Hadv Ho _ Hd Ha Hrep Hb _].
  pose proof (λ t, order_seen W o log w t Hw) as Hseen.
  unfold order_ok, drained_ok, acks_ok, replies_ok in *. rewrite Hc in *.
  destruct (gather_received _ _ _ _ Hrep) as (Hre & Hg & Hall); [by rewrite length_fmap|].
  destruct (reports_checked W o log w got Hw Hg Hall) as (Hchk & Hreps & Hans).
  destruct Ho as (<- & <- & Hlat & Hpaced). destruct o as [[wm inc] fin]. cbn [fst snd] in *.
  destruct (publish_reports_spec h plans Hnames Hplans eng0 init wm inc fin _ _ Hpaced Hreps) as (pb & Hpub & Hpbs).
  exists pb. rewrite Hchk. ostep. rewrite Hpub.
  assert (published_ok W pb) as Hok.
  { exists (bases W), inc, fin. cbv zeta. rewrite <- Hlat. split; [done|]. split; [done|]. unfold bases. split.
    - apply Forall2_fmap_l, Forall2_same_length_lookup. split; [done|]. intros i [l g] y Hi Hi'. rewrite Hi in Hi'. injection Hi' as <-. cbn [snd].
      destruct (Hans _ _ _ Hi) as [Hph Hrok]. destruct (lo_base _ _ _ _ _ _ _ (He _ _ _ Hi)) as [_ Hb'].
      destruct (Hb' Hph) as (_ & rest & Hr & Hpre & _). specialize (Hpre Hrok).
      change (base g ++ checkpoint_ops wm fin `prefix_of` ops g). rewrite Hr. by apply prefix_app.
    - intros Hf. apply Forall2_fmap_l, Forall2_same_length_lookup. split; [done|]. intros i [l g] y Hi Hi'. rewrite Hi in Hi'. injection Hi' as <-. cbn [snd fst].
      rewrite Hf in *. destruct Hd as [_ Hd]. pose proof (Hd _ _ Hi) as Hcl. cbn [fst] in Hcl. split; [done|].
      destruct (Hans _ _ _ Hi) as [Hph _]. pose proof (He _ _ _ Hi) as [_ _ Hse _ _ Hcl' Hpo _ [_ Hb']].
      destruct (Hb' Hph) as (_ & rest & Hr & _ & Hsil). rewrite Hph in Hpo. destruct Hpo as [_ Hpo]. cbn [snd] in Hpo.
      destruct (Hcl' Hcl) as (_ & Hch & Hin). change (events_of (base g) = sent g).
      rewrite Hse by (unfold failed; rewrite Hpo; tauto). by rewrite Hin, Hch, !app_nil_r, Hr, events_of_app, Hsil, app_nil_r. }
  destruct fin.
  - exists W, (wm, inc, true). split; [done|]. destruct Hw as [H1 H2 H3 _ H5 _ _ _ _ _ _ H12]. split; try done.
    + intros i l g Hi. by apply (Hans i l g).
    + cbn [published]. apply Forall_app. split; [done|]. by constructor.
  - exists (release <$> W), (None, false, false). split; [done|]. eapply release_world; try done. intros i l g Hi. by apply (Hans i l g).
Qed.

(** *** All steps of the coordinator *)

Lemma recv_drained_ok W o log w got a rest :
  world_ok W o log w → coordinator w = Draining got → drained w = a :: rest →
  world_ok W o log (mkWorld (lanes w) rest (acks w) (replies w) (Draining (got ++ [a])) (published w)).
Proof using.
  intros Hw Hc Hq. pose proof Hw as [_ _ _ Hphase _ Ho _ Hd Ha Hrep Hb _].
  unfold order_ok, drained_ok, acks_ok, replies_ok in *. rewrite Hc in *. apply coordinator_ok; try done.
  unfold drained_ok. cbn. rewrite <- app_assoc. cbn. by rewrite <- Hq.
Qed.

Lemma recv_ack_ok W o log w fin got a rest :
  world_ok W o log w → coordinator w = Collecting fin got → acks w = a :: rest →
  world_ok W o log (mkWorld (lanes w) (drained w) rest (replies w) (Collecting fin (got ++ [a])) (published w)).
Proof using.
  intros Hw Hc Hq. pose proof Hw as [_ _ _ Hphase _ Ho _ Hd Ha Hrep Hb _].
  unfold order_ok, drained_ok, acks_ok, replies_ok in *. rewrite Hc in *. apply coordinator_ok; try done.
  unfold acks_ok. cbn. rewrite <- app_assoc. cbn. by rewrite <- Hq.
Qed.

Lemma recv_report_ok W o log w fin inc got x rest :
  world_ok W o log w → coordinator w = Reporting fin inc got → replies w = x :: rest →
  match x with
  | Ok r => world_ok W o log (mkWorld (lanes w) (drained w) (acks w) rest (Reporting fin inc (got ++ [r])) (published w))
  | Err d => world_ok W o log (mkWorld (lanes w) (drained w) (acks w) rest (Broken (ReportFailed d)) (published w))
  | Panic => False
  end.
Proof using LW Hnames Hnew Hplans.
  intros Hw Hc Hq. pose proof Hw as [_ _ _ Hphase _ Ho _ Hd Ha Hrep Hb _].
  unfold order_ok, drained_ok, acks_ok, replies_ok in *. rewrite Hc in *.
  assert (x ∈ gather (reply_sent o) W) as Hin by (rewrite <- Hrep, Hq; apply elem_of_app; right; left).
  apply gather_insert_elem in Hin as (i & [l g] & Hi & Hx).
  destruct (reply_cases _ _ _ _ _ _ _ _ Hw Hi Hx) as (_ & _ & [(r & -> & _)|(d & -> & Hr)]).
  - apply coordinator_ok; try done. unfold replies_ok. cbn [coordinator replies].
    rewrite fmap_app, <- app_assoc. cbn. by rewrite <- Hq.
  - by apply break_ok.
Qed.

Lemma coordinator_step_ok W o log w due w' :
  world_ok W o log w → coordinator_step due w = Some w' → ∃ W' o', world_ok W' o' log w'.
Proof using LW Hnames Hnew Hplans.
  intros Hw. assert (lane_count w = length W) as Hn by (unfold lane_count; by rewrite (wo_lanes _ _ _ _ Hw), length_fmap).
  unfold coordinator_step. rewrite Hn. destruct (coordinator w) as [|got|fin k|fin got|fin inc wm k|fin inc got| |e] eqn:Hc; try done.
  - destruct (Nat.eqb_spec (length got) (length W)) as [Hl|_].
    + destruct (drained_full_ok _ _ _ _ _ Hw Hc Hl) as [-> H]. intros [= <-]. by exists W, o.
    + destruct (drained w) eqn:Hq; [done|]. intros [= <-]. exists W, o. by apply recv_drained_ok.
  - destruct (Nat.eqb_spec k (length W)) as [->|Hl].
    + intros [= <-]. exists W, o. pose proof Hw as [_ _ _ Hphase _ Ho _ Hd Ha Hrep Hb _].
      unfold order_ok, drained_ok, acks_ok, replies_ok in *. rewrite Hc in *. apply coordinator_ok; try done.
      intros i l g Hi. specialize (Hphase _ _ _ Hi). cbn [phase_at] in *.
      by rewrite (proj2 (Nat.ltb_lt _ _) (lookup_lt_Some _ _ _ Hi)) in Hphase.
    + intros [= <-]. destruct (send_pause_ok _ _ _ _ _ _ Hw Hc Hl) as [W' H]. by exists W', o.
  - destruct (Nat.eqb_spec (length got) (length W)) as [Hl|_].
    + destruct (collected_ok _ _ _ _ _ due _ Hw Hc Hl) as [-> [o' H]]. intros [= <-]. by exists W, o'.
    + destruct (acks w) eqn:Hq; [done|]. intros [= <-]. exists W, o. by apply recv_ack_ok.
  - destruct (Nat.eqb_spec k (length W)) as [->|Hl].
    + intros [= <-]. exists W, o. pose proof Hw as [_ _ _ Hphase _ Ho _ Hd Ha Hrep Hb _].
      unfold order_ok, drained_ok, acks_ok, replies_ok in *. rewrite Hc in *. destruct Ho as [-> Ho]. apply coordinator_ok; try done.
      intros i l g Hi. specialize (Hphase _ _ _ Hi). cbn [phase_at] in *.
      by rewrite (proj2 (Nat.ltb_lt _ _) (lookup_lt_Some _ _ _ Hi)) in Hphase.
    + intros [= <-]. destruct (send_checkpoint_ok _ _ _ _ _ _ _ _ Hw Hc Hl) as [W' H]. by exists W', o.
  - destruct (Nat.eqb_spec (length got) (length W)) as [Hl|_].
    + destruct (publication_ok _ _ _ _ _ _ _ Hw Hc Hl) as (pb & W' & o' & -> & H). intros [= <-]. by exists W', o'.
    + destruct (replies w) as [|x rest] eqn:Hq; [done|]. pose proof (recv_report_ok _ _ _ _ _ _ _ _ _ Hw Hc Hq) as H.
      destruct x; [| |done]; intros [= <-]; by exists W, o.
Qed.

(** ** Every step *)

Lemma failure_some w e : failure w = Some e → ∃ i l d, lanes w !! i = Some l ∧ position l = Failed d ∧ e = LaneFailed i d.
Proof using.
  intros Hf. unfold failure in Hf. apply head_Some in Hf as [rest Hf].
  assert (e ∈ e :: rest) as He by left. rewrite <- Hf in He. apply list_elem_of_omap in He as ([i l] & Hin & He).
  cbn [fst snd] in He. destruct (position l) eqn:Hp; try done. injection He as <-.
  apply list_elem_of_lookup in Hin as [j Hj]. rewrite list_lookup_imap in Hj. destruct (lanes w !! j) eqn:E; [|done].
  injection Hj as -> ->. by exists i, l, detail.
Qed.

(** A lane that failed was refused an event. *)
Lemma failed_lane W o log w i l d : world_ok W o log w → lanes w !! i = Some l → position l = Failed d →
  ∃ msg, d = CannotProcess (Backpressure msg).
Proof using.
  intros Hw Hl Hd. destruct (world_lane _ _ _ _ _ _ Hw Hl) as [g Hi].
  pose proof (lo_phase _ _ _ _ _ _ _ (wo_each _ _ _ _ Hw _ _ _ Hi)) as Hp.
  assert (working l → ∃ msg, d = CannotProcess (Backpressure msg)) as Hwk by (unfold working; by rewrite Hd).
  destruct (phase g); cbn [phase_ok] in Hp; destruct Hp as [_ Hp]; auto; try congruence.
  destruct (o.2); [congruence|auto].
Qed.

Lemma begin_ok W o log w (finish : bool) : world_ok W o log w → coordinator w = Idle →
  world_ok W o log (set_coordinator w (if finish then Draining [] else Pausing false 0)).
Proof using.
  intros Hw Hc. pose proof Hw as [_ _ _ Hphase _ Ho _ Hd Ha Hrep Hb _].
  unfold order_ok, drained_ok, acks_ok, replies_ok in *. rewrite Hc in *. apply coordinator_ok; try done; destruct finish; try done.
  cbn. lia.
Qed.

Lemma step_ok W o log w label w' :
  world_ok W o log w → Step mem batch_size w label w' → ∃ W' o', world_ok W' o' (log ++ option_list label) w'.
Proof using LW Hnames Hnew Hplans.
  intros Hw Hs. destruct Hs as [i l e Hl Hso Hal He|i l Hl|i l l' out Hl Hst|fin Hc _|due w' Hst|e Hf Hc]; cbn [option_list]; rewrite ?app_nil_r.
  - destruct (capture_ok _ _ _ _ _ _ _ Hw Hl Hso Hal He) as [W' H]. by exists W', o.
  - destruct (close_ok _ _ _ _ _ _ Hw Hl) as [W' H]. by exists W', o.
  - destruct (worker_ok _ _ _ _ _ _ _ _ Hw Hl Hst) as [W' H]. by exists W', o.
  - exists W, o. by apply begin_ok.
  - by eapply coordinator_step_ok.
  - exists W, o. apply break_ok; [done|]. apply failure_some in Hf as (i & l & d & Hl & Hd & ->).
    by eapply failed_lane.
Qed.
End barrier.
