(* ===== verification/Checkpoints.v ===== *)
(** * What checkpoints guarantee

    The consequences of the barrier's invariant for a run of the queue-local
    runtime from its start: the protocol fails only when an engine is out of
    room, what is published is the merge of all lanes at one watermark, nothing
    accepted is lost, and a checkpoint ends. *)
From stdpp Require Import relations.
From S2P Require Import Prelude Bytes Maps Hash Sketch F64 Event Ir Planner QueryState Emit Window.
From S2P Require Import Engine Sharded WindowSpec Sliding Restore EngineSpec ShardedSpec Lanes LaneReports LanesSpec Barrier.

Section start.
Context {S : Type} `{WS : !WindowSketch S} {supported : PhysicalSketch → Prop}
  {like : S → S → Prop} {LW : LawfulWindow S supported like}.
Context (h : HashSpec) (plans : list Plan) (Hnames : NoDup ((λ p, q_name (query p)) <$> plans)).
Context (Hplans : Forall (plan_ok supported) plans).
Context (mem : QueryEngine S → Z) (batch_size init : Z) (Hinit : u64_ok init).

(** The runtime before any thread has run. *)
Definition at_start (ls : list (Lane (S := S))) : World (S := S) := mkWorld ls [] [] [] Idle [].

Lemma engines_new_loop n (engines acc : list (QueryEngine S)) :
  foldM (E := AgentError) (λ l _, eng ← map_err Engine (engine_new plans h); Ok (l ++ [eng])) acc (replicate n tt) = Ok engines →
  (0 < n)%nat → ∃ eng0, engine_new plans h = Ok eng0 ∧ engines = acc ++ replicate n eng0.
Proof using.
  revert acc. induction n as [|n IH]; intros acc H Hn; [lia|]. cbn [replicate foldM] in H.
  destruct (engine_new plans h) as [eng| |] eqn:E; try done. cbn [map_err] in H.
  destruct n as [|n].
  - cbn in H. injection H as <-. by exists eng.
  - destruct (IH _ H ltac:(lia)) as (eng0 & H0 & ->). injection H0 as <-. exists eng. split; [done|]. by rewrite <- app_assoc.
Qed.

Lemma engines_advance_loop eng0 n (engines acc : list (QueryEngine S)) :
  engine_new plans h = Ok eng0 →
  foldM (E := AgentError) (λ l eng, match engine_advance_to init eng with
                 | (Ok _, eng) => Ok (l ++ [eng]) | (Err e, _) => Err (Engine e) | (Panic, _) => Panic end)
    acc (replicate n eng0) = Ok engines →
  engines = acc ++ replicate n (after eng0 [OpAdvance init]) ∧ ((0 < n)%nat → succeed eng0 [OpAdvance init]).
Proof using LW Hinit Hplans.
  intros Hnew. revert acc. induction n as [|n IH]; intros acc H; cbn [replicate foldM] in H.
  - injection H as <-. split; [by rewrite app_nil_r|lia].
  - destruct (after_op h plans Hplans eng0 Hnew [] (OpAdvance init)) as [[E Hs]|E]; [by split|done| |];
      cbn [run_engine_op] in E; change (after eng0 []) with eng0 in E; rewrite E in H; [|done].
    cbn [mbind outcome_bind] in H. destruct (IH _ H) as [-> _]. split; [|done]. by rewrite <- app_assoc.
Qed.

(** The lanes a new runtime starts with. *)
Lemma new_lanes count bs cpus cap ls :
  0 <= count → new_with_options plans h count bs cpus cap init = Ok ls →
  ∃ eng0, engine_new plans h = Ok eng0 ∧ succeed eng0 [OpAdvance init] ∧ length ls = Z.to_nat count ∧
    ∀ i l, ls !! i = Some l → ∃ c, l = new_lane (after eng0 [OpAdvance init]) c.
Proof using LW Hinit Hplans.
  unfold new_with_options. intros Hc H. apply bind_ok in H as ([] & Hslots & H). apply bind_ok in H as ([] & Hbs & H).
  apply bind_ok in H as ([] & _ & H). apply bind_ok in H as (engines0 & H0 & H). apply bind_ok in H as (engines & H1 & H).
  apply ok_inj in H. subst ls. apply fail_if_ok in Hslots. apply orb_false_iff in Hslots as [Hz _].
  apply Z.eqb_neq in Hz. assert (0 < Z.to_nat count)%nat as Hn by lia.
  destruct (engines_new_loop _ _ _ H0 Hn) as (eng0 & Hnew & ->). cbn [app] in H1.
  destruct (engines_advance_loop eng0 _ _ _ Hnew H1) as [-> Hs]. exists eng0. split_and!; [done|auto| |].
  - cbn [app]. by rewrite length_imap, length_replicate.
  - intros i l Hi. cbn [app] in Hi. rewrite list_lookup_imap in Hi. 
    destruct (replicate _ _ !! i) as [eng|] eqn:E; [|done]. injection Hi as <-. apply lookup_replicate in E as [-> _]. by eexists.
Qed.

Lemma start_ok eng0 ls :
  engine_new plans h = Ok eng0 → succeed eng0 [OpAdvance init] →
  (∀ i l, ls !! i = Some l → ∃ c, l = new_lane (after eng0 [OpAdvance init]) c) →
  ∃ W o, world_ok (like := like) h plans eng0 mem init W o [] (at_start ls).
Proof using.
  intros Hnew Hs Hls. exists ((λ l, (l, mkGhost Free [OpAdvance init] [] [])) <$> ls), (None, false, false).
  assert (∀ i l g, ((λ l, (l, mkGhost Free [OpAdvance init] [] [])) <$> ls) !! i = Some (l, g) →
    g = mkGhost Free [OpAdvance init] [] [] ∧ ∃ c, l = new_lane (after eng0 [OpAdvance init]) c) as H.
  { intros i l g Hi. rewrite list_lookup_fmap in Hi. destruct (ls !! i) as [l0|] eqn:E; [|done].
    injection Hi as <- <-. split; [done|]. by eapply Hls. }
  split; try done.
  - cbn. rewrite <- list_fmap_compose. symmetry. apply list_fmap_id.
  - intros i l g Hi. destruct (H _ _ _ Hi) as [-> [c ->]]. split; try done.
    + split; [by exists []|done].
    + by split; [intros [|]|].
  - intros i l g Hi. by destruct (H _ _ _ Hi) as [-> _].
  - intros i l g Hi. by destruct (H _ _ _ Hi) as [-> _].
  - intros i [l g] ts Hi Hts. destruct (H _ _ _ Hi) as [-> _]. by apply elem_of_nil in Hts.
  - unfold drained_ok. cbn. rewrite gather_none; [done|]. intros i [l g] Hi. by destruct (H _ _ _ Hi) as [_ [c ->]].
  - unfold acks_ok. cbn. rewrite gather_none; [done|]. intros i [l g] Hi. by destruct (H _ _ _ Hi) as [-> _].
Qed.

(** The invariant holds throughout a run. *)
Lemma run_ok count bs cpus cap ls log w :
  0 <= count → new_with_options plans h count bs cpus cap init = Ok ls →
  Run mem batch_size (at_start ls) log w →
  ∃ eng0 W o, engine_new plans h = Ok eng0 ∧ length W = Z.to_nat count ∧
    world_ok (like := like) h plans eng0 mem init W o log w.
Proof using LW Hinit Hplans Hnames.
  intros Hc Hnew Hrun. destruct (new_lanes _ _ _ _ _ Hc Hnew) as (eng0 & Heng & Hs & Hlen & Hls). exists eng0.
  enough (length (lanes w) = Z.to_nat count ∧ ∃ W o, world_ok (like := like) h plans eng0 mem init W o log w) as (Hl & W & o & H).
  { exists W, o. split_and!; [done| |done]. by rewrite <- Hl, (wo_lanes _ _ _ _ _ _ _ _ _ H), length_fmap. }
  induction Hrun as [|log w label w' Hrun [Hl (W & o & IH)] Hst].
  - split; [done|]. by apply start_ok.
  - split; [|by eapply step_ok].
    rewrite <- Hl. clear -Hst.
    assert (∀ out (w : World (S := S)), length (lanes (deliver w out)) = length (lanes w)) as Hd by (by intros []).
    destruct Hst as [| |? ? ? out| |due w' Hst|]; rewrite ?Hd; cbn [lanes set_lane set_coordinator]; rewrite ?length_insert; try done.
    unfold coordinator_step, send_control in Hst. repeat case_match; simplify_eq; cbn; by rewrite ?length_insert.
Qed.

(** ** A checkpoint ends *)

(** What a lane still has to do, and how far the coordinator is from the end. *)
Definition lane_load (l : Lane (S := S)) : nat :=
  3 * length (channel l) + (if position l is InBatch _ _ then 2 else 0) + (if data_open l then 1 else 0) + length (controls l).
Definition coordinator_load (n : nat) (c : Coordinator (S := S)) : nat :=
  match c with
  | Idle | Finished | Broken _ => 0
  | Reporting _ _ got => 1 + (n - length got)
  | Ordering _ _ _ k => 2 + n + 2 * (n - k)
  | Collecting _ got => 3 + 3 * n + (n - length got)
  | Pausing _ k => 4 + 4 * n + 2 * (n - k)
  | Draining got => 5 + 6 * n + (n - length got)
  end.
Definition load (w : World (S := S)) : nat :=
  sum_list (lane_load <$> lanes w) + coordinator_load (lane_count w) (coordinator w).

(** A step of a worker or of the coordinator. *)
Inductive Turn (w : World (S := S)) : World (S := S) → Prop :=
  | turn_worker i l l' out :
      lanes w !! i = Some l → worker_step mem batch_size i l = Some (l', out) → Turn w (deliver (set_lane w i l') out)
  | turn_coordinator due w' : coordinator_step due w = Some w' → Turn w w'.

Lemma batch_turn_load i n e l l' out :
  position l = InBatch n e → batch_turn batch_size i n e l = (l', out) → (lane_load l' < lane_load l)%nat.
Proof using.
  intros Hp. unfold batch_turn, drain_ended, lane_load. rewrite Hp.
  destruct (engine_process e (engine l)) as [[r|r|] eng]; [|intros [= <- <-]; cbn; lia..].
  destruct (n +ʷ 1 =? batch_size); [intros [= <- <-]; cbn; lia|].
  cbn [channel sender_open see set_engine]. destruct (channel l) eqn:Hc; [destruct (sender_open l)|];
    intros [= <- <-]; cbn; rewrite ?Hc; cbn; destruct (data_open l); lia.
Qed.

Lemma worker_load i l l' out : worker_step mem batch_size i l = Some (l', out) → (lane_load l' < lane_load l)%nat.
Proof using.
  unfold worker_step. destruct (position l) as [|n e| | |] eqn:Hp; try done.
  - intros H. destruct (controls l) as [|c cs] eqn:Hc.
    + unfold lane_load. rewrite Hp, Hc. destruct (data_open l) eqn:Hd; [|done]. destruct (channel l) as [|e rest] eqn:Hch.
      * destruct (sender_open l); [done|]. injection H as <- <-. cbn. rewrite Hp, Hc, Hch. cbn. lia.
      * injection H as <- <-. cbn. rewrite Hd, Hc. cbn. lia.
    + injection H as H. unfold lane_load. rewrite Hp, Hc. unfold handle_control in H.
      destruct c; injection H as <- <-; cbn; lia.
  - intros [= H]. by eapply batch_turn_load.
  - destruct (controls l) as [|c cs] eqn:Hc; [done|]. intros [= H]. unfold lane_load. rewrite Hp, Hc. unfold handle_paused in H.
    destruct c as [|wm inc fin|]; [injection H as <- <-; cbn; lia| |injection H as <- <-; cbn; lia].
    destruct (build_report _ _ _ _ _ _) as [r eng]. destruct r; injection H as <- <-; cbn; try destruct fin; cbn; lia.
Qed.

Lemma sum_list_insert (l : list nat) i x y : l !! i = Some x → (sum_list (<[i := y]> l) + x = sum_list l + y)%nat.
Proof using.
  revert i. induction l as [|z l IH]; intros [|i] H; [done..| |].
  - injection H as ->. cbn. lia.
  - specialize (IH i H). change (z + sum_list (<[i := y]> l) + x = z + sum_list l + y)%nat. lia.
Qed.

Lemma load_set_lane (w : World (S := S)) i l l' c dr ak rp pub :
  lanes w !! i = Some l →
  (load (mkWorld (<[i := l']> (lanes w)) dr ak rp c pub) + lane_load l + coordinator_load (lane_count w) (coordinator w) =
   load w + lane_load l' + coordinator_load (lane_count w) c)%nat.
Proof using.
  intros Hl. unfold load, lane_count. cbn [lanes coordinator]. rewrite length_insert, list_fmap_insert.
  pose proof (sum_list_insert (lane_load <$> lanes w) i (lane_load l) (lane_load l')) as H.
  rewrite list_lookup_fmap, Hl in H. specialize (H eq_refl). lia.
Qed.

Lemma received_room {A B} (f : nat → A → option B) (l : list A) got x rest :
  got ++ x :: rest ≡ₚ gather f l → (length got < length l)%nat.
Proof using.
  intros H%Permutation_length. pose proof (length_gather f l). rewrite length_app in H. cbn in H. lia.
Qed.

Section reachable.
Context (eng0 : QueryEngine S) (Hnew : engine_new plans h = Ok eng0).
Abbreviation world_ok := (world_ok (like := like) h plans eng0 mem init).

Lemma coordinator_turn_load W o log w due w' :
  world_ok W o log w → coordinator_step due w = Some w' → (load w' < load w)%nat.
Proof using LW Hnew Hplans Hnames.
  intros Hw. assert (lane_count w = length W) as Hn by (unfold lane_count; by rewrite (wo_lanes _ _ _ _ _ _ _ _ _ Hw), length_fmap).
  assert (∀ dr ak rp c pub, (coordinator_load (length W) c < coordinator_load (length W) (coordinator w))%nat →
    (load (mkWorld (lanes w) dr ak rp c pub) < load w)%nat) as Hsame
    by (intros; unfold load; cbn [lanes coordinator]; unfold lane_count in *; cbn [lanes]; rewrite Hn; lia).
  assert (∀ k c next, (k < length W)%nat → (coordinator_load (length W) next + 1 < coordinator_load (length W) (coordinator w))%nat →
    (load (send_control w k c next) < load w)%nat) as Hsend.
  { intros k c next Hk Hnext. unfold send_control. destruct (lanes w !! k) as [l|] eqn:Hl.
    - destruct (alive l); [|apply Hsame; cbn; lia].
      pose proof (load_set_lane w k l (set_controls l (controls l ++ [c])) next (drained w) (acks w) (replies w) (published w) Hl) as H.
      rewrite Hn in H. unfold lane_load in H. cbn [channel position data_open controls set_controls] in H.
      rewrite length_app in H. cbn [length] in H. unfold set_coordinator, set_lane. cbn [lanes drained acks replies published]. lia.
    - apply lookup_ge_None in Hl. unfold lane_count in Hn. lia. }
  pose proof (wo_count _ _ _ _ _ _ _ _ _ Hw) as Hcnt. pose proof (wo_drained _ _ _ _ _ _ _ _ _ Hw) as Hd.
  pose proof (wo_acks _ _ _ _ _ _ _ _ _ Hw) as Ha. pose proof (wo_replies _ _ _ _ _ _ _ _ _ Hw) as Hr.
  unfold coordinator_step, drained_ok, acks_ok, replies_ok in *. rewrite Hn.
  destruct (coordinator w) as [|got|fin k|fin got|fin inc wm k|fin inc got| |e] eqn:Hc; try done.
  - destruct (Nat.eqb_spec (length got) (length W)) as [Hl|_].
    + intros [= <-]. apply Hsame. cbn. repeat case_match; cbn; lia.
    + destruct (drained w); [done|]. intros [= <-]. apply Hsame. apply received_room in Hd. cbn. rewrite length_app. cbn. lia.
  - destruct (Nat.eqb_spec k (length W)) as [->|Hl]; intros [= <-]; [apply Hsame|apply Hsend]; cbn; lia.
  - destruct (Nat.eqb_spec (length got) (length W)) as [Hl|_].
    + intros [= <-]. apply Hsame. cbn. repeat case_match; cbn; lia.
    + destruct (acks w); [done|]. intros [= <-]. apply Hsame. apply received_room in Ha. cbn. rewrite length_app. cbn. lia.
  - destruct (Nat.eqb_spec k (length W)) as [->|Hl]; intros [= <-]; [apply Hsame|apply Hsend]; cbn; lia.
  - destruct (Nat.eqb_spec (length got) (length W)) as [Hl|_].
    + intros [= <-]. repeat case_match; apply Hsame; cbn; lia.
    + destruct (replies w) as [|x rest]; [done|]. apply received_room in Hr. rewrite length_fmap in Hr.
      destruct x; intros [= <-]; apply Hsame; cbn; rewrite ?length_app; cbn; lia.
Qed.

Lemma turn_load W o log w w' : world_ok W o log w → Turn w w' → (load w' < load w)%nat.
Proof using LW Hnew Hplans Hnames.
  intros Hw [i l l' out Hl Hst|due w2 Hst]; [|by eapply coordinator_turn_load].
  apply worker_load in Hst.
  assert (∃ dr ak rp, deliver (set_lane w i l') out = mkWorld (<[i := l']> (lanes w)) dr ak rp (coordinator w) (published w))
    as (dr & ak & rp & ->) by (destruct out; cbn; do 3 eexists; reflexivity).
  pose proof (load_set_lane w i l l' (coordinator w) dr ak rp (published w) Hl). lia.
Qed.

(** Nothing is in the way of the checkpoint: no worker failed, and a final
    checkpoint begins when capture has closed its channels. *)
Definition running (w : World (S := S)) : Prop :=
  match coordinator w with Idle | Finished | Broken _ => False | _ => True end.
Definition can_end (w : World (S := S)) : Prop :=
  match coordinator w with Draining _ => Forall (λ l, sender_open l = false) (lanes w) | _ => True end.

Lemma gather_missing {A B} (f : nat → A → option B) (l : list A) :
  (length (gather f l) < length l)%nat → ∃ i x, l !! i = Some x ∧ f i x = None.
Proof using.
  revert f. induction l as [|x l IH]; intros f H; [cbn in H; lia|]. unfold gather in H. cbn [imap omap list_omap id length] in H.
  destruct (f 0%nat x) as [b|] eqn:E; [|by exists 0%nat, x]. cbn [length] in H.
  destruct (IH (f ∘ Datatypes.S)) as (i & y & Hi & Hf); [unfold gather; lia|]. by exists (Datatypes.S i), y.
Qed.

Lemma lane_turns (w : World (S := S)) i l : lanes w !! i = Some l → (∃ l' out, worker_step mem batch_size i l = Some (l', out)) → ∃ w', Turn w w'.
Proof using. intros Hl (l' & out & Hst). eexists. by eapply turn_worker. Qed.

Section in_checkpoint.
Context (W : list (Lane (S := S) * Ghost)) (o : Order) (log : list (nat * FlowEvent)) (w : World (S := S)).
Context (Hw : world_ok W o log w) (Hf : failure w = None).

Lemma lane_here i l g : W !! i = Some (l, g) → lanes w !! i = Some l.
Proof using Hw. intros Hi. by rewrite (wo_lanes _ _ _ _ _ _ _ _ _ Hw), list_lookup_fmap, Hi. Qed.

Lemma working_position i l g : W !! i = Some (l, g) → working l → position l = AtLoop ∨ ∃ n e, position l = InBatch n e.
Proof using Hw Hf.
  intros Hi. unfold working. destruct (position l) as [|n e| | |d] eqn:Hp; try done; [by left|right; by do 2 eexists|].
  intros _. exfalso. unfold failure in Hf. apply head_None in Hf.
  assert (LaneFailed i d ∈ omap (λ x : nat * Lane (S := S), match position x.2 with
    Failed d => Some (LaneFailed x.1 d) | _ => None end) (imap pair (lanes w))) as Hin.
  { apply list_elem_of_omap. exists (i, l). cbn [fst snd]. rewrite Hp. split; [|done].
    apply list_elem_of_lookup_2 with i. by rewrite list_lookup_imap, (lane_here _ _ _ Hi). }
  rewrite Hf in Hin. by apply elem_of_nil in Hin.
Qed.

(** A working lane with a message, or whose channel was closed, has a turn. *)
Lemma working_turns i l g : W !! i = Some (l, g) → working l →
  (controls l ≠ [] ∨ sender_open l = false ∧ data_open l = true) → ∃ w', Turn w w'.
Proof using Hw Hf.
  intros Hi Hp%(working_position i l g Hi) Hc. apply (lane_turns w i l); [by eapply lane_here|]. unfold worker_step.
  destruct Hp as [-> |(n & e & ->)]; [|destruct (batch_turn batch_size i n e l); by do 2 eexists].
  destruct (controls l) as [|c cs]; [|destruct (handle_control i c _); by do 2 eexists].
  destruct Hc as [?|[-> ->]]; [done|]. destruct (channel l); destruct (drain_ended i l); by do 2 eexists.
Qed.

(** A lane that has not contributed to a channel has a turn. *)
Lemma missing_drain got : coordinator w = Draining got → can_end w → length got ≠ length W → drained w = [] → ∃ w', Turn w w'.
Proof using Hw Hf.
  intros Hc Hend Hne Hq. pose proof (wo_drained _ _ _ _ _ _ _ _ _ Hw) as Hd. pose proof (wo_phase _ _ _ _ _ _ _ _ _ Hw) as Hph.
  unfold drained_ok, can_end in *. rewrite Hc, ?Hq, ?app_nil_r in *.
  destruct (gather_missing drain_sent W) as (i & [l g] & Hi & Hnone).
  { pose proof (length_gather drain_sent W). rewrite <- Hd in *. lia. }
  pose proof (lo_phase _ _ _ _ _ _ _ (wo_each _ _ _ _ _ _ _ _ _ Hw _ _ _ Hi)) as Hp. rewrite (Hph _ _ _ Hi) in Hp. destruct Hp as [_ Hp].
  apply (working_turns i l g Hi); [done|]. right. rewrite Forall_forall in Hend. split.
  - apply Hend. eapply list_elem_of_lookup_2. by eapply lane_here.
  - unfold drain_sent in Hnone. cbn [fst] in Hnone. by destruct (data_open l).
Qed.

Lemma missing_ack fin got : coordinator w = Collecting fin got → length got ≠ length W → acks w = [] → ∃ w', Turn w w'.
Proof using Hw Hf.
  intros Hc Hne Hq. pose proof (wo_acks _ _ _ _ _ _ _ _ _ Hw) as Ha. pose proof (wo_phase _ _ _ _ _ _ _ _ _ Hw) as Hph.
  unfold acks_ok in *. rewrite Hc, ?Hq, ?app_nil_r in *.
  destruct (gather_missing ack_sent W) as (i & [l g] & Hi & Hnone).
  { pose proof (length_gather ack_sent W). rewrite <- Ha in *. lia. }
  pose proof (lo_phase _ _ _ _ _ _ _ (wo_each _ _ _ _ _ _ _ _ _ Hw _ _ _ Hi)) as Hp.
  unfold ack_sent in Hnone. cbn [snd] in Hnone. destruct (Hph _ _ _ Hi) as [E|E]; rewrite E in *; [|done]. destruct Hp as [Hcs Hp].
  apply (working_turns i l g Hi); [done|]. left. by rewrite Hcs.
Qed.

Lemma missing_reply fin inc got : coordinator w = Reporting fin inc got → length got ≠ length W → replies w = [] → ∃ w', Turn w w'.
Proof using Hw.
  intros Hc Hne Hq. pose proof (wo_replies _ _ _ _ _ _ _ _ _ Hw) as Hr. pose proof (wo_phase _ _ _ _ _ _ _ _ _ Hw) as Hph.
  unfold replies_ok in *. rewrite Hc, ?Hq, ?app_nil_r in *.
  destruct (gather_missing (reply_sent eng0 mem o) W) as (i & [l g] & Hi & Hnone).
  { pose proof (length_gather (reply_sent eng0 mem o) W). rewrite <- Hr in *. rewrite length_fmap in *. lia. }
  pose proof (lo_phase _ _ _ _ _ _ _ (wo_each _ _ _ _ _ _ _ _ _ Hw _ _ _ Hi)) as Hp.
  unfold reply_sent in Hnone. cbn [snd] in Hnone. destruct (Hph _ _ _ Hi) as [E|E]; rewrite E in *; [|done]. destruct Hp as [Hcs Hp].
  apply (lane_turns w i l); [by eapply lane_here|]. unfold worker_step. rewrite Hp, Hcs.
  destruct (handle_paused _ _ _ _); by do 2 eexists.
Qed.

(** No deadlock: while a checkpoint runs and no worker has failed, a worker or
    the coordinator can take a turn. *)
Lemma no_deadlock : running w → can_end w → ∃ w', Turn w w'.
Proof using Hw Hf.
  intros Hrun Hend. assert (lane_count w = length W) as Hn by (unfold lane_count; by rewrite (wo_lanes _ _ _ _ _ _ _ _ _ Hw), length_fmap).
  assert (∀ due w', coordinator_step due w = Some w' → ∃ w', Turn w w') as Hco by (intros; eexists; by eapply turn_coordinator).
  specialize (Hco false). unfold coordinator_step in Hco. rewrite Hn in Hco. unfold running in Hrun.
  destruct (coordinator w) as [|got|fin k|fin got|fin inc wm k|fin inc got| |e] eqn:Hc; try done.
  - destruct (Nat.eqb_spec (length got) (length W)); [by eapply Hco|].
    destruct (drained w) eqn:Hq; [by eapply missing_drain|by eapply Hco].
  - destruct (Nat.eqb_spec k (length W)); by eapply Hco.
  - destruct (Nat.eqb_spec (length got) (length W)); [by eapply Hco|].
    destruct (acks w) eqn:Hq; [by eapply missing_ack|by eapply Hco].
  - destruct (Nat.eqb_spec k (length W)); by eapply Hco.
  - destruct (Nat.eqb_spec (length got) (length W)); [by eapply Hco|].
    destruct (replies w) as [|[]] eqn:Hq; [by eapply missing_reply|by eapply Hco..].
Qed.
End in_checkpoint.
End reachable.

(** ** The guarantees *)

Lemma turn_step w w' : Turn w w' → Step mem batch_size w None w'.
Proof using. intros []; [by eapply step_worker|by eapply step_coordinator]. Qed.

Lemma worker_sender i l l' out : worker_step mem batch_size i l = Some (l', out) → sender_open l' = sender_open l.
Proof using.
  unfold worker_step, batch_turn, handle_control, handle_paused, drain_ended. intros H.
  repeat case_match; simplify_eq; done.
Qed.

Lemma turn_can_end w w' : Turn w w' → can_end w → can_end w'.
Proof using.
  intros [i l l' out Hl Hst|due w2 Hst]; unfold can_end.
  - assert (coordinator (deliver (set_lane w i l') out) = coordinator w) as -> by by destruct out.
    assert (lanes (deliver (set_lane w i l') out) = <[i := l']> (lanes w)) as -> by by destruct out.
    destruct (coordinator w); try done. intros H. apply Forall_insert; [done|]. rewrite (worker_sender _ _ _ _ Hst).
    rewrite Forall_forall in H. apply H. by eapply list_elem_of_lookup_2.
  - unfold coordinator_step, send_control in Hst. intros H. repeat case_match; simplify_eq; cbn in *; simplify_eq; done || congruence.
Qed.

(** The ways a checkpoint can fail, all of them for lack of room in an engine. *)
Definition out_of_room (e : AgentError) (w : World (S := S)) : Prop :=
  (∃ i msg, e = LaneFailed i (CannotProcess (Backpressure msg))) ∨
  (∃ msg, e = ReportFailed (CannotAdvance (Backpressure msg)) ∨ e = ReportFailed (CannotFinish (Backpressure msg))) ∨
  (e = Disconnected ∧ ∃ i l msg, lanes w !! i = Some l ∧ position l = Failed (CannotProcess (Backpressure msg))).

Lemma broken_room w e : broken_ok w → coordinator w = Broken e → out_of_room e w.
Proof using.
  unfold broken_ok, out_of_room. intros H E. rewrite E in H. destruct e; try done.
  - destruct H as [msg ->]. left. by do 2 eexists.
  - destruct H as (msg & [-> | ->]); right; left; exists msg; auto.
  - destruct H as (i & l & Hl & msg & Hm). right; right. split; [done|]. by do 3 eexists.
Qed.

(** What was published, of the lanes' share of the captured events [log]. *)
Definition complete_publication (count : Z) (log : list (nat * FlowEvent)) (pb : Publication (S := S)) : Prop :=
  ∃ bs inc (fin : bool), length bs = Z.to_nat count ∧
    publishes (like := like) h plans (latest bs) inc fin bs pb ∧
    Forall (paced init (latest bs)) bs ∧
    (∀ i b, bs !! i = Some b → events_of b `prefix_of` lane_log i log) ∧
    (fin = true → ∀ i b, bs !! i = Some b → events_of b = lane_log i log).

Lemma published_complete eng0 W o log w pb count :
  world_ok (like := like) h plans eng0 mem init W o log w → length W = Z.to_nat count → pb ∈ published w →
  complete_publication count log pb.
Proof using.
  intros Hw Hlen Hpb. pose proof (wo_published _ _ _ _ _ _ _ _ _ Hw) as Hp. rewrite Forall_forall in Hp.
  destruct (Hp _ Hpb) as (bs & inc & fin & Hpub & Hpc & Hpre & Hfin). exists bs, inc, fin.
  split; [by rewrite (Forall2_length _ _ _ Hpre)|]. split; [done|]. split; [done|]. split.
  - intros i b Hi. destruct (Forall2_lookup_l _ _ _ _ _ Hpre Hi) as ([l g] & HW & Hb). cbn [snd] in Hb.
    rewrite <- (wo_log _ _ _ _ _ _ _ _ _ Hw _ _ _ HW).
    etrans; [|apply (lo_open _ _ _ _ _ _ _ (wo_each _ _ _ _ _ _ _ _ _ Hw _ _ _ HW))].
    destruct Hb as [r ->]. rewrite !events_of_app, <- app_assoc. by apply prefix_app_r.
  - intros Hf i b Hi. destruct (Forall2_lookup_l _ _ _ _ _ (Hfin Hf) Hi) as ([l g] & HW & _ & ->). cbn [snd].
    by eapply (wo_log _ _ _ _ _ _ _ _ _ Hw).
Qed.

(** Turns end. *)
Lemma turns_bounded eng0 (Hnew : engine_new plans h = Ok eng0) k w w' :
  nsteps Turn k w w' → ∀ W o log, world_ok (like := like) h plans eng0 mem init W o log w → (k + load w' <= load w)%nat.
Proof using LW Hplans Hnames.
  induction 1 as [w|k w w1 w' Hst _ IH]; intros W o log Hw; [done|].
  pose proof (turn_load eng0 Hnew W o log w w1 Hw Hst).
  destruct (step_ok h plans Hnames Hplans eng0 Hnew mem batch_size init W o log w None w1 Hw (turn_step _ _ Hst)) as (W' & o' & Hw').
  specialize (IH _ _ _ Hw'). lia.
Qed.

Lemma turns_end eng0 (Hnew : engine_new plans h = Ok eng0) W o log w :
  world_ok (like := like) h plans eng0 mem init W o log w → can_end w →
  ∃ k w', nsteps Turn k w w' ∧ (running w' → failure w' ≠ None).
Proof using LW Hplans Hnames.
  remember (load w) as n eqn:En. revert W o log w En. induction (lt_wf n) as [n _ IH]. intros W o log w En Hw Hend.
  destruct (failure w) as [e|] eqn:Hf; [exists 0%nat, w; split; [constructor|by rewrite Hf]|].
  assert (running w ∨ ¬ running w) as [Hr|Hr] by (unfold running; destruct (coordinator w); tauto).
  - destruct (no_deadlock eng0 W o log w Hw Hf Hr Hend) as [w1 Ht].
    pose proof (turn_load eng0 Hnew _ _ _ _ _ Hw Ht) as Hl.
    destruct (step_ok h plans Hnames Hplans eng0 Hnew mem batch_size init W o log w None w1 Hw (turn_step _ _ Ht)) as (W' & o' & Hw').
    destruct (IH (load w1) ltac:(lia) W' o' _ w1 eq_refl Hw' (turn_can_end _ _ Ht Hend)) as (k & w' & Hk & Hw2).
    exists (Datatypes.S k), w'. split; [by econstructor|done].
  - exists 0%nat, w. split; [constructor|done].
Qed.

(** [C9] The two-phase barrier of the queue-local runtime cannot go wrong: in every
    run from a new runtime, whatever the interleaving of capture, workers and
    coordinator, a checkpoint fails only because an engine refused an
    operation for lack of room; no lane is acknowledged twice or missing, no
    control message arrives out of order, no thread panics and no windows of
    different lanes fail to align or to merge. *)
Theorem barrier_fails_only_for_room count bs cpus cap ls log w e :
  0 <= count → new_with_options plans h count bs cpus cap init = Ok ls →
  Run mem batch_size (at_start ls) log w → coordinator w = Broken e → out_of_room e w.
Proof using LW Hinit Hplans Hnames.
  intros Hc Hnew Hrun. destruct (run_ok _ _ _ _ _ _ _ Hc Hnew Hrun) as (eng0 & W & o & _ & _ & Hw).
  apply broken_room, (wo_broken _ _ _ _ _ _ _ _ _ Hw).
Qed.


(** [C10] A checkpoint ends: in a reachable state, workers and coordinator can take
    only finitely many turns without new events, at most [load w]; and they can
    always take one until the checkpoint is over or a worker has failed (a
    final checkpoint waits for capture to close its channels first). *)
Theorem checkpoint_ends count bs cpus cap ls log w :
  0 <= count → new_with_options plans h count bs cpus cap init = Ok ls →
  Run mem batch_size (at_start ls) log w → can_end w →
  (∀ k w', nsteps Turn k w w' → (k <= load w)%nat) ∧
  ∃ k w', nsteps Turn k w w' ∧ (running w' → failure w' ≠ None).
Proof using LW Hinit Hplans Hnames.
  intros Hc Hnew Hrun Hend. destruct (run_ok _ _ _ _ _ _ _ Hc Hnew Hrun) as (eng0 & W & o & Heng & _ & Hw). split.
  - intros k w' Hk. pose proof (turns_bounded eng0 Heng k w w' Hk W o log Hw). lia.
  - by eapply turns_end.
Qed.
End start.

(** ** Schedules

    A scheduler that carries out a list of actions, skipping those that are not
    enabled, for concrete runs. *)

Section schedule.
Context {S : Type} `{WS : !WindowSketch S} (mem : QueryEngine S → Z) (batch_size : Z).

Inductive Action :=
  | ACapture (i : nat) (e : FlowEvent)
  | AClose (i : nat)
  | AWorker (i : nat)
  | ABegin (finish : bool)
  | ACoordinator (due : bool)
  | ANotice.

Definition act (a : Action) (w : World (S := S)) : option (option (nat * FlowEvent) * World (S := S)) :=
  match a with
  | ACapture i e =>
      l ← lanes w !! i;
      if sender_open l && alive l
      then Some (if has_slot l then Some (i, e) else None, set_lane w i (offer_event e l)) else None
  | AClose i => l ← lanes w !! i; Some (None, set_lane w i (close_sender l))
  | AWorker i =>
      l ← lanes w !! i; x ← worker_step mem batch_size i l; Some (None, deliver (set_lane w i x.1) x.2)
  | ABegin finish =>
      match coordinator w, failure w with
      | Idle, None => Some (None, set_coordinator w (if finish then Draining [] else Pausing false 0))
      | _, _ => None
      end
  | ACoordinator due => w' ← coordinator_step due w; Some (None, w')
  | ANotice =>
      match coordinator w, failure w with
      | Finished, _ | _, None => None
      | _, Some e => Some (None, set_coordinator w (Broken e))
      end
  end.

Definition act_ok (a : Action) : Prop := match a with ACapture _ e => event_ok e | _ => True end.

Lemma act_step a w label w' : act_ok a → act a w = Some (label, w') → Step mem batch_size w label w'.
Proof using.
  intros Hok. destruct a as [i e|i|i|finish|due|]; cbn [act].
  - destruct (lanes w !! i) as [l|] eqn:Hl; [|done]. cbn. destruct (sender_open l && alive l) eqn:Hb; [|done].
    apply andb_true_iff in Hb as [? ?]. intros [= <- <-]. by apply step_capture.
  - destruct (lanes w !! i) as [l|] eqn:Hl; [|done]. intros [= <- <-]. by apply step_close.
  - destruct (lanes w !! i) as [l|] eqn:Hl; [|done]. cbn. destruct (worker_step mem batch_size i l) as [[l' out]|] eqn:Hs; [|done].
    intros [= <- <-]. by eapply step_worker.
  - destruct (coordinator w) eqn:Hc; try done. destruct (failure w) eqn:Hf; [done|]. intros [= <- <-]. by apply step_begin.
  - destruct (coordinator_step due w) eqn:Hs; [|done]. intros [= <- <-]. by eapply step_coordinator.
  - intros H. assert (∃ e, failure w = Some e ∧ coordinator w ≠ Finished ∧ label = None ∧ w' = set_coordinator w (Broken e))
      as (e & Hf & Hc & -> & ->) by (repeat case_match; simplify_eq; eauto).
    by apply step_notice.
Qed.

Fixpoint exec (actions : list Action) (x : list (nat * FlowEvent) * World (S := S)) : list (nat * FlowEvent) * World (S := S) :=
  match actions with
  | [] => x
  | a :: actions =>
      exec actions match act a x.2 with Some (label, w') => (x.1 ++ option_list label, w') | None => x end
  end.

Lemma exec_run w0 actions x :
  Forall act_ok actions → Run mem batch_size w0 x.1 x.2 → Run mem batch_size w0 (exec actions x).1 (exec actions x).2.
Proof using.
  intros Hok. revert x. induction Hok as [|a actions Ha _ IH]; intros x Hx; [done|]. cbn [exec]. apply IH.
  destruct (act a x.2) as [[label w']|] eqn:E; [|done]. cbn [fst snd]. eapply run_step; [done|]. by apply act_step in E.
Qed.
End schedule.

Definition sample_lanes : list (Lane (S := QueryState)) :=
  run_or [] (new_with_options (WS := QueryState_Window 0) two_plans HashSpec_default 2 4 None 8 0).
Lemma sample_lanes_new :
  new_with_options (WS := QueryState_Window 0) two_plans HashSpec_default 2 4 None 8 0 = Ok sample_lanes.
Proof. vm_compute. reflexivity. Qed.

Abbreviation sample_exec actions :=
  (exec (WS := QueryState_Window 0) (λ _, 0) 4 actions ([], at_start sample_lanes)).
Lemma scheduled_run actions : Forall act_ok actions →
  Run (WS := QueryState_Window 0) (λ _, 0) 4 (at_start sample_lanes) (sample_exec actions).1 (sample_exec actions).2.
Proof. intros H. apply exec_run; [done|]. constructor. Qed.

(** Two lanes that each process events, until they are flushed. *)
Definition flushed : list Action :=
  [ACapture 0 (event_at 5); ACapture 1 (event_at 7); ACapture 1 (event_at 9); AClose 0; AClose 1; ABegin true] ++
  concat (replicate 20 [AWorker 0; ACoordinator true; AWorker 1]).
(** One lane gets more than its tumbling query has room for. *)
Definition overrun : list Action :=
  [ACapture 0 (event_at 5); ACapture 0 (event_at 12); ACapture 0 (event_at 23)] ++ replicate 5 (AWorker 0) ++ [ANotice].
(** A checkpoint under way. *)
Definition begun : list Action := [ACapture 0 (event_at 5); ABegin false; ACoordinator true].

Ltac actions_tac :=
  repeat (apply Forall_cons; split; [first [exact I|apply event_at_ok; by range_tac]|]); constructor.

Lemma barrier_fails_only_for_room_witness :
  let w := (sample_exec overrun).2 in
  ∃ msg, coordinator w = Broken (LaneFailed 0 (CannotProcess (Backpressure msg))) ∧
    out_of_room (LaneFailed 0 (CannotProcess (Backpressure msg))) w.
Proof.
  eexists. split; [vm_compute; reflexivity|].
  apply (barrier_fails_only_for_room (LW := QueryState_Lawful 0) HashSpec_default two_plans two_plans_names two_plans_ok
    (λ _, 0) 4 0 ltac:(by range_tac) 2 4 None 8 sample_lanes (sample_exec overrun).1 (sample_exec overrun).2);
    [lia|exact sample_lanes_new|apply scheduled_run; actions_tac|vm_compute; reflexivity].
Defined.


Lemma checkpoint_ends_witness :
  let w := (sample_exec begun).2 in
  running w ∧ load w = 20%nat ∧
  ∃ k w', nsteps (Turn (WS := QueryState_Window 0) (λ _, 0) 4) k w w' ∧ (running w' → failure w' ≠ None).
Proof.
  intros w. split; [vm_compute; exact I|]. split; [vm_compute; reflexivity|].
  apply (checkpoint_ends (LW := QueryState_Lawful 0) HashSpec_default two_plans two_plans_names two_plans_ok
    (λ _, 0) 4 0 ltac:(by range_tac) 2 4 None 8 sample_lanes (sample_exec begun).1 w);
    [lia|exact sample_lanes_new|apply scheduled_run; actions_tac|vm_compute; exact I].
Defined.
