(* ===== verification/Shipping.v ===== *)
(** * Shipping a window  (export on an agent, restore on the gateway)

    [QueryState.to_snapshots] on the agent and [Restore.from_components] on the
    gateway, composed: the window that arrives summarises the items the window
    that left did. *)
From S2P Require Import Prelude Bytes Maps Hash Sketch Snapshot F64 Event Ir Planner.
From S2P Require Import CountMin CountSketch MisraGries SpaceSaving Hll HllMap Kll QueryState Window WindowSpec Guarantees.
From S2P Require Import Restore Sliding.

(** What the wire format has room for. *)
Definition shippable (s : QueryState) : Prop :=
  match s with
  | QHeavyHitters ss => exportable ss
  | QCounter cm keys =>
      hash_spec_ok (CountMin.cm_hash cm) ∧ u32_ok (CountMin.cm_width cm) ∧
      u32_ok (CountMin.cm_depth cm) ∧ u32_ok (16 + 8 * zlen (CountMin.cm_table cm)) ∧
      exportable keys
  | QDistinctPerKey _ => False
  | QDistinctGlobal hll => hash_spec_ok (Hll.hl_hash hll) ∧ u64_ok (Hll.hl_updates hll)
  | QQuantile kll => Kll.snapshot_ok kll
  | QEntropy ss hll =>
      exportable ss ∧ hash_spec_ok (Hll.hl_hash hll) ∧ u64_ok (Hll.hl_updates hll)
  end.

Section shipping.
Context (fuel : nat) (ws we : Z) (Hws : u64_ok ws) (Hwe : u64_ok we).

(** The bytes hold a snapshot of the window. *)
Definition covers (b : bytes) : Prop :=
  ∃ hd ps pl, read_snapshot b = Ok (hd, ps, pl) ∧
    sh_window_start_nanos hd = ws ∧ sh_window_end_nanos hd = we.

Lemma written_covers hd ps pl x :
  header_ok hd → sh_window_start_nanos hd = ws → sh_window_end_nanos hd = we →
  read_snapshot (write_snapshot hd ps pl) = Ok x → covers (write_snapshot hd ps pl).
Proof using.
  intros Hh Hs He H. destruct x as [[hd' ps'] pl']. exists hd', ps', pl'. split; [done|].
  by rewrite (written_header _ _ _ _ _ _ Hh H).
Qed.

(** A parsed snapshot was read first. *)
Ltac covers_tac Hr :=
  apply bind_ok in Hr as ([[hd ps] pl] & Hr & _);
  unfold SpaceSaving.to_snapshot, CountMin.to_snapshot, Hll.to_snapshot, Kll.to_snapshot in *;
  cbv zeta in *; eapply written_covers; [|reflexivity|reflexivity|exact Hr];
  split_and!; done.

Lemma ship_ss c h s l a :
  sums c h s l → exportable s → alike SpaceSaving.wf a s →
  ∃ s', SpaceSaving.from_snapshot (SpaceSaving.to_snapshot s ws we) = Ok s' ∧
    sums c h s' l ∧ alike SpaceSaving.wf a s' ∧ covers (SpaceSaving.to_snapshot s ws we).
Proof using Hws Hwe.
  intros Hs Hx [_ Ha]. destruct (sums_restore c h s l ws we Hs Hx Hws Hwe) as (s' & Hr & Hs').
  exists s'. split_and!; [done|done| |].
  - split; [apply Hs'|]. rewrite <- Ha. cbn. destruct Hs, Hs'.
    apply ss_compatibility_same; congruence.
  - pose proof (ex_hash s Hx) as Hh. clear Hs Hx Ha Hs'. covers_tac Hr.
Qed.

Lemma ship_cm s :
  CountMin.wf s → hash_spec_ok (CountMin.cm_hash s) → u32_ok (CountMin.cm_width s) →
  u32_ok (CountMin.cm_depth s) → u32_ok (16 + 8 * zlen (CountMin.cm_table s)) →
  CountMin.from_snapshot (CountMin.to_snapshot s ws we) = Ok s ∧
  covers (CountMin.to_snapshot s ws we).
Proof using Hws Hwe.
  intros Hs Hh Hw Hd Hz.
  pose proof (cm_snapshot_round_trip s ws we Hs Hh Hws Hwe Hw Hd Hz) as Hr. split; [done|].
  clear Hs Hw Hd Hz. covers_tac Hr.
Qed.

Lemma ship_hll p h s l a :
  registers_of h p s l → hash_spec_ok (Hll.hl_hash s) → u64_ok (Hll.hl_updates s) →
  alike Hll.valid a s →
  Hll.from_snapshot (Hll.to_snapshot s ws we) = Ok s ∧ covers (Hll.to_snapshot s ws we).
Proof using Hws Hwe.
  intros (l' & _ & Hb) Hh Hu _.
  pose proof (hll_snapshot_round_trip s ws we (hl_built_wf p h _ _ Hb) Hh Hu Hws Hwe) as Hr.
  split; [done|]. clear Hb Hu. covers_tac Hr.
Qed.

Lemma ship_kll s :
  Kll.snapshot_ok s →
  Kll.from_snapshot (Kll.to_snapshot s ws we) = Ok s ∧ covers (Kll.to_snapshot s ws we).
Proof using Hws Hwe.
  intros Hs. pose proof (kll_snapshot_round_trip s ws we Hs Hws Hwe) as Hr. split; [done|].
  pose proof (so_hash s Hs) as Hh. clear Hs. covers_tac Hr.
Qed.

(** The loop over the components accepts a covering one. *)
Lemma step_covers expected window by_name name b :
  covers b → name ∈ expected → by_name !! name = None → (window = None ∨ window = Some (ws, we)) →
  component_step expected (window, by_name) (name, b) = Ok (Some (ws, we), <[name := b]> by_name).
Proof using.
  intros (hd & ps & pl & Hr & Hs & He) Hin Hn Hw. unfold component_step.
  rewrite (bool_decide_true (name ∈ expected)) by done. ostep. rewrite Hn.
  rewrite bool_decide_false by (by intros []). ostep. rewrite Hr. ostep. rewrite Hs, He. unfold check_window.
  destruct Hw as [->| ->]; [|rewrite decide_False by auto]; by ostep.
Qed.

Lemma one_component (name : string) b :
  covers b →
  foldM (component_step [name]) (None, ∅) [(name, b)] = Ok (Some (ws, we), <[name := b]> ∅).
Proof using.
  intros Hb. cbn [foldM]. rewrite step_covers; [by ostep|done|by left|done|by left].
Qed.

Lemma two_components (n1 n2 : string) b1 b2 :
  covers b1 → covers b2 → n2 ≠ n1 →
  foldM (component_step [n1; n2]) (None, ∅) [(n1, b1); (n2, b2)] =
    Ok (Some (ws, we), <[n2 := b2]> (<[n1 := b1]> ∅)).
Proof using.
  intros H1 H2 Hne. cbn [foldM].
  rewrite step_covers; [ostep|done|by left|done|by left].
  rewrite step_covers; [by ostep|done|by right; left| |by right].
  rewrite lookup_insert_ne by auto. apply lookup_empty.
Qed.

(** What is parsed, before it is merged into a fresh state. *)
Lemma ship_parsed sk h r s items :
  supported fuel sk → QueryState.build sk h = Ok r → like fuel r s → summary h sk s items →
  shippable s →
  ∃ names by_name parsed,
    component_names sk = Ok names ∧
    foldM (component_step names) (None, ∅) (QueryState.to_snapshots s ws we) =
      Ok (Some (ws, we), by_name) ∧
    from_snapshots fuel sk by_name = Ok parsed ∧ like fuel r parsed ∧ summary h sk parsed items.
Proof using Hws Hwe.
  intros Hsup Hr Hl Hs Hx. unfold summary in *.
  destruct sk as [| |c| |pr|mk pr|k|st]; try done; cbn [supported QueryState.build component_names] in *;
    [| | | |destruct st as [|[] [|[] [|]]]; try done].
  - apply bind_ok in Hr as (a & _ & <-%ok_inj). destruct s as [ss| | | | |]; try done.
    destruct (ship_ss c h ss _ a Hs Hx Hl) as (ss' & Hp & Hs' & Ha & Hc).
    eexists _, _, (QHeavyHitters ss'). split; [done|]. split; [by apply one_component|].
    split; [|done]. cbn [from_snapshots]. unfold get_component. rewrite lookup_insert_eq. ostep.
    rewrite Hp. by ostep.
  - apply bind_ok in Hr as (a & _ & <-%ok_inj). destruct s as [| | |hll| |]; try done.
    destruct Hx as [Hh Hu]. destruct (ship_hll pr h hll _ a Hs Hh Hu Hl) as [Hp Hc].
    eexists _, _, (QDistinctGlobal hll). split; [done|]. split; [by apply one_component|].
    split; [|done]. cbn [from_snapshots]. unfold get_component. rewrite lookup_insert_eq. ostep.
    rewrite Hp. by ostep.
  - by destruct s.
  - apply bind_ok in Hr as (a & _ & <-%ok_inj). destruct s as [| | | |kll|]; try done.
    destruct (ship_kll kll Hx) as [Hp Hc].
    eexists _, _, (QQuantile kll). split; [done|]. split; [by apply one_component|].
    split; [|done]. cbn [from_snapshots]. unfold get_component. rewrite lookup_insert_eq. ostep.
    rewrite Hp. by ostep.
  - apply bind_ok in Hr as (a & _ & Hr). apply bind_ok in Hr as (ka & _ & <-%ok_inj).
    destruct s as [|cm keys| | | |]; try done. destruct Hs as [Hs Hk], Hl as [Hl Hlk].
    destruct Hx as (Hh & Hw & Hd & Hz & Hx). destruct (ship_cm cm (proj1 Hl) Hh Hw Hd Hz) as [Hp Hc].
    destruct (ship_ss _ h keys _ ka Hk Hx Hlk) as (keys' & Hpk & Hk' & Hlk' & Hck).
    eexists _, _, (QCounter cm keys'). split; [done|]. split; [by refine (two_components _ _ _ _ _ _ _)|].
    split; [|by split_and!]. cbn [from_snapshots]. unfold get_component.
    rewrite (lookup_insert_ne _ KEYS_SPACESAVING COUNT_MIN), !lookup_insert_eq by discriminate. ostep. rewrite Hp. ostep.
    rewrite Hpk. by ostep.
  - apply bind_ok in Hr as (a & _ & Hr). apply bind_ok in Hr as (ka & _ & <-%ok_inj).
    destruct s as [| | | | |ss hll]; try done. destruct Hs as [Hs Hk], Hl as [Hl Hlk].
    destruct Hx as (Hx & Hh & Hu).
    destruct (ship_hll _ h hll _ ka Hk Hh Hu Hlk) as [Hp Hc].
    destruct (ship_ss _ h ss _ a Hs Hx Hl) as (ss' & Hps & Hs' & Hl' & Hcs).
    eexists _, _, (QEntropy ss' hll). split; [done|]. split; [by refine (two_components _ _ _ _ _ _ _)|].
    split; [|by split_and!]. cbn [from_snapshots]. unfold get_component.
    rewrite (lookup_insert_ne _ TAIL_HLL HEAD_SPACESAVING), !lookup_insert_eq by discriminate. ostep. rewrite Hps. ostep.
    rewrite Hp. by ostep.
Qed.

Lemma ship plan h r s items :
  supported fuel (sketch (physical plan)) → QueryState.build (sketch (physical plan)) h = Ok r →
  like fuel r s → summary h (sketch (physical plan)) s items → shippable s →
  ∃ s', from_components fuel plan h (QueryState.to_snapshots s ws we) = Ok (mkWindowState s' ws we) ∧
    like fuel r s' ∧ summary h (sketch (physical plan)) s' items.
Proof using Hws Hwe.
  intros Hsup Hr Hl Hs Hx.
  destruct (ship_parsed _ h r s items Hsup Hr Hl Hs Hx)
    as (names & by_name & parsed & Hn & Hloop & Hp & Hlp & Hsp).
  destruct (new_alike fuel _ h r Hsup Hr) as [Hlr _].
  destruct (like_merge fuel r r parsed Hlr Hlp) as (s' & Hm & Hl' & _).
  exists s'. unfold from_components. rewrite Hn. ostep. rewrite Hloop. ostep.
  rewrite Hp. ostep. rewrite Hr. ostep. unfold run_merge. cbn [ws_merge_from QueryState_Window].
  rewrite Hm. ostep. split_and!; [done|done|].
  change items with ([] ++ items). eapply summary_merge; [|exact Hsp|exact Hm].
  by eapply summary_new.
Qed.
End shipping.

(** ** Every sketch's snapshot *)





(** ** What arrives *)


(** Shipping keeps the answers.  Two nodes hold windows of one query over the
    same period, each the sketch of its own events.  If the states fit the wire
    format, both snapshots are accepted by the gateway's plan with the period
    they were written with, the two restored windows merge, and the result
    answers, within the sketch's error bounds, for the events of both nodes. *)
Lemma shipped_windows (fuel : nat) p h r s1 s2 items1 items2 ws we :
  supported fuel (sketch (physical p)) → QueryState.build (sketch (physical p)) h = Ok r →
  good (WS := QueryState_Window fuel) (like := like fuel) p h r s1 items1 →
  good (WS := QueryState_Window fuel) (like := like fuel) p h r s2 items2 →
  shippable s1 → shippable s2 → u64_ok ws → u64_ok we →
  ∃ w1 w2 w, from_components fuel p h (QueryState.to_snapshots s1 ws we) = Ok w1 ∧
    from_components fuel p h (QueryState.to_snapshots s2 ws we) = Ok w2 ∧
    merge_window (WS := QueryState_Window fuel) w1 w2 = (Ok tt, w) ∧
    window_start_nanos w = ws ∧ window_end_nanos w = we ∧
    answers fuel h (sketch (physical p)) (w_state w) (items1 ++ items2).
Proof.
  intros Hsup Hr Hg1 Hg2 Hx1 Hx2 Hws Hwe.
  destruct (ship fuel ws we Hws Hwe p h r s1 items1 Hsup Hr (proj1 Hg1)) as (t1 & H1 & Hl1 & Hs1);
    [by eapply good_summary|done|].
  destruct (ship fuel ws we Hws Hwe p h r s2 items2 Hsup Hr (proj1 Hg2)) as (t2 & H2 & Hl2 & Hs2);
    [by eapply good_summary|done|].
  destruct (like_merge fuel r t1 t2 Hl1 Hl2) as (t & Hm & Hl & _).
  exists (mkWindowState t1 ws we), (mkWindowState t2 ws we), (mkWindowState t ws we).
  split; [exact H1|]. split; [exact H2|]. split.
  { unfold merge_window. cbn [window_start_nanos window_end_nanos w_state ws_merge_from QueryState_Window].
    rewrite decide_False by auto. by rewrite Hm. }
  split; [done|]. split; [done|]. cbn [w_state].
  apply (summary_answers _ _ _ r); [done|done|done|]. by eapply summary_merge.
Qed.

(** ** A concrete window *)

Definition sample_item : Item := ([10; 0; 0; 2], 100, []).
Definition sample_one : QueryState :=
  run_or sample_state (QueryState.update 0 sample_state sample_item.1.1 sample_item.1.2 sample_item.2).

Lemma sample_one_update :
  QueryState.update 0 sample_state sample_item.1.1 sample_item.1.2 sample_item.2 = Ok sample_one.
Proof. vm_compute. reflexivity. Qed.

Lemma sample_one_good :
  good (WS := QueryState_Window 0) (like := like 0) sample_plan HashSpec_default sample_state sample_one
    [sample_item].
Proof.
  assert (u64_ok sample_item.1.2) as Hw by by range_tac.
  destruct (new_alike 0 _ _ _ (po_supported _ _ sample_plan_ok) sample_build) as [Hl _].
  split.
  - destruct (like_update 0 _ _ sample_item.1.1 _ sample_item.2 Hl Hw) as (s' & Hu & Hl' & _).
    rewrite sample_one_update in Hu. apply ok_inj in Hu as <-. exact Hl'.
  - exists [sample_item]. split; [done|].
    apply (built_upd _ _ _ sample_state [] sample_item sample_one);
      [apply built_init; exact sample_build|]. split; [exact Hw|exact sample_one_update].
Qed.

Lemma sample_one_shippable : shippable sample_one.
Proof.
  set (ss := match sample_one with QHeavyHitters ss => ss | _ => SpaceSaving.blank end).
  assert (sample_one = QHeavyHitters ss) as E by (vm_compute; reflexivity).
  rewrite E.
  assert (map_to_list (map_of ss) = [([10; 0; 0; 2], mkEntry 100 0)]) as Em by (vm_compute; reflexivity).
  assert (ss_hash ss = HashSpec_default) as Eh by (vm_compute; reflexivity).
  assert (ss_capacity ss = 1000) as Ec by (vm_compute; reflexivity).
  assert (ss_total_weight ss = 100) as Et by (vm_compute; reflexivity).
  assert (ss_updates ss = 1) as Eu by (vm_compute; reflexivity).
  assert (payload_len ss = 44) as Ep by (vm_compute; reflexivity).
  clearbody ss. clear E.
  split; [rewrite Eh|rewrite Ec|rewrite Et|rewrite Eu| |rewrite Ep]; [by range_tac..| |by range_tac].
  intros k e He%elem_of_map_to_list. rewrite Em in He. apply list_elem_of_singleton in He as [= -> ->].
  by range_tac.
Qed.

Lemma shipped_windows_witness :
  ∃ w, answers 0 HashSpec_default (sketch (physical sample_plan)) (w_state w) [sample_item; sample_item].
Proof.
  destruct (shipped_windows 0 sample_plan HashSpec_default sample_state sample_one sample_one
    [sample_item] [sample_item] 0 20 (po_supported _ _ sample_plan_ok) sample_build
    sample_one_good sample_one_good sample_one_shippable sample_one_shippable)
    as (w1 & w2 & w & _ & _ & _ & _ & _ & H); [by range_tac..|]. exists w. exact H.
Defined.

