(* ===== verification/Batch.v ===== *)
(** * The push-batch envelope  (crates/flowsketch-gateway/src/batch.rs)

    One round of component snapshots, shipped from an agent to the gateway in one
    request.

    Proved: decoding inverts encoding, and decoding accepts only the encodings of
    batches within the declared limits, whatever the bytes. *)
From S2P Require Import Prelude Bytes Utf8 Hash Sketch Snapshot.

(** ** The envelope *)

Definition MAGIC : list Z := bytes_of_string "FSKB".
Definition BATCH_VERSION : Z := 1.
Definition MAX_ENTRIES : Z := 4096.
Definition MAX_NODE_NAME_BYTES : Z := 253.
Definition MAX_QUERY_NAME_BYTES : Z := 256.
Definition MAX_COMPONENT_NAME_BYTES : Z := 128.

Record PushEntry := mkPushEntry { query_name : string; component : string; snapshot : bytes }.
Record PushBatch := mkPushBatch { node : string; entries : list PushEntry }.

#[export] Instance PushEntry_eq_dec : EqDecision PushEntry.
Proof. solve_decision. Defined.
#[export] Instance PushBatch_eq_dec : EqDecision PushBatch.
Proof. solve_decision. Defined.

Definition w_push_entry (w : Writer) (e : PushEntry) : Writer :=
  let w := w_lp_bytes w (bytes_of_string (query_name e)) in
  let w := w_lp_bytes w (bytes_of_string (component e)) in
  w_lp_bytes w (snapshot e).

Definition encode (b : PushBatch) : bytes :=
  let w := Writer_new in
  let w := w_bytes w MAGIC in
  let w := w_u16 w BATCH_VERSION in
  let w := w_lp_bytes w (bytes_of_string (node b)) in
  let w := w_u32 w (as_u32 (zlen (entries b))) in
  let w := foldl w_push_entry w (entries b) in
  w_u64 w (hash64 w 0).

Definition utf8_bounded (b : bytes) (what : string) (max_bytes : Z) : res string :=
  _ ← fail_if (zlen b =? 0) (SnapshotError ("push batch " +:+ what +:+ " must not be empty"));
  _ ← fail_if (max_bytes <? zlen b) (SnapshotError ("push batch " +:+ what +:+ " is too long"));
  chars ← ok_or (utf8_chars b) (SnapshotError ("push batch " +:+ what +:+ " is not UTF-8"));
  _ ← fail_if (is_blank chars) (SnapshotError ("push batch " +:+ what +:+ " must not be blank"));
  Ok (string_of_bytes b).

Definition r_push_entry (r : Reader) : res (PushEntry * Reader) :=
  '(b, r) ← r_lp_bytes r;
  query_name ← utf8_bounded b "query name" MAX_QUERY_NAME_BYTES;
  '(b, r) ← r_lp_bytes r;
  component ← utf8_bounded b "component" MAX_COMPONENT_NAME_BYTES;
  '(snapshot, r) ← r_lp_bytes r;
  Ok (mkPushEntry query_name component snapshot, r).

Definition decode (b : bytes) : res PushBatch :=
  _ ← fail_if (zlen b <? 4 + 2 + 4 + 4 + 8) (SnapshotError "push batch too short");
  let body := take (length b - 8) b in
  let tail := drop (length b - 8) b in
  let expected := le_val tail in
  _ ← fail_if (negb (hash64 body 0 =? expected)) (SnapshotError "push batch checksum mismatch");
  let r := Reader_new body in
  '(magic, r) ← r_take 4 r;
  _ ← fail_if (negb (bool_decide (magic = MAGIC))) (SnapshotError "bad magic (expected FSKB)");
  '(version, r) ← r_u16 r;
  _ ← fail_if (negb (version =? BATCH_VERSION)) (SnapshotError "unsupported push batch version");
  '(b, r) ← r_lp_bytes r;
  node ← utf8_bounded b "node" MAX_NODE_NAME_BYTES;
  '(count, r) ← r_u32 r;
  _ ← fail_if (MAX_ENTRIES <? count) (SnapshotError "push batch declares too many entries");
  '(entries, r) ← read_n (Z.to_nat count) r_push_entry r;
  _ ← fail_if (negb (remaining r =? 0)) (SnapshotError "trailing bytes after push batch entries");
  Ok (mkPushBatch node entries).

(** ** Well-formed batches *)

(** A non-blank UTF-8 string of at most [max] bytes. *)
Definition name_ok (max : Z) (s : string) : Prop :=
  0 < zlen (bytes_of_string s) <= max ∧
  ∃ chars, utf8_chars (bytes_of_string s) = Some chars ∧ is_blank chars = false.
Definition entry_ok (e : PushEntry) : Prop :=
  name_ok MAX_QUERY_NAME_BYTES (query_name e) ∧ name_ok MAX_COMPONENT_NAME_BYTES (component e) ∧
  u32_ok (zlen (snapshot e)).
Definition batch_ok (b : PushBatch) : Prop :=
  name_ok MAX_NODE_NAME_BYTES (node b) ∧ zlen (entries b) <= MAX_ENTRIES ∧
  Forall entry_ok (entries b).

Lemma utf8_bounded_ok s what max :
  name_ok max s → utf8_bounded (bytes_of_string s) what max = Ok s.
Proof.
  intros (Hlen & chars & Hc & Hb). unfold utf8_bounded.
  rewrite (proj2 (Z.eqb_neq _ _)), (proj2 (Z.ltb_ge _ _)) by lia. ostep.
  rewrite Hc. ostep. rewrite Hb. ostep. by rewrite string_of_bytes_of_string.
Qed.

Lemma utf8_bounded_inv b what max s :
  bytes_ok b → utf8_bounded b what max = Ok s → bytes_of_string s = b ∧ name_ok max s.
Proof.
  intros Hb H. unfold utf8_bounded in H.
  apply bind_ok in H as ([] & H1%fail_if_ok%Z.eqb_neq & H).
  apply bind_ok in H as ([] & H2%fail_if_ok%Z.ltb_ge & H).
  apply bind_ok in H as (chars & Hc & H).
  apply bind_ok in H as ([] & H3%fail_if_ok & H). apply ok_inj in H as <-.
  rewrite bytes_of_string_of_bytes by done. split; [done|]. unfold name_ok.
  rewrite bytes_of_string_of_bytes by done. pose proof (zlen_nonneg b). split; [lia|].
  destruct (utf8_chars b) as [cs|]; [|done]. apply ok_inj in Hc as ->. by exists chars.
Qed.

Lemma utf8_bounded_no_panic b what max : no_panic (utf8_bounded b what max).
Proof.
  unfold utf8_bounded. apply bind_no_panic; [auto with outcome|intros _ _].
  apply bind_no_panic; [auto with outcome|intros _ _].
  apply bind_no_panic; [by destruct (utf8_chars b)|intros cs _].
  apply bind_no_panic; [auto with outcome|intros _ _]. done.
Qed.
#[export] Hint Resolve utf8_bounded_no_panic : outcome.

(** The bytes of a length-prefixed block and of an entry. *)
Definition lp (b : bytes) : bytes := le_bytes 4 (zlen b) ++ b.
Definition enc_entry (e : PushEntry) : bytes :=
  lp (bytes_of_string (query_name e)) ++ lp (bytes_of_string (component e)) ++ lp (snapshot e).
Definition enc_body (b : PushBatch) : bytes :=
  MAGIC ++ le_bytes 2 BATCH_VERSION ++ lp (bytes_of_string (node b)) ++
  le_bytes 4 (zlen (entries b)) ++ encode_all enc_entry (entries b).

Lemma r_lp_rd a pre suf :
  u32_ok (zlen a) → r_lp_bytes (rd pre (lp a ++ suf)) = Ok (a, rd (pre ++ lp a) suf).
Proof.
  intros Ha. unfold lp. rewrite <- app_assoc, r_lp_bytes_rd by done. by rewrite app_assoc.
Qed.
Lemma r_lp_inv pre suf a r :
  bytes_ok suf → r_lp_bytes (rd pre suf) = Ok (a, r) →
  ∃ suf', suf = lp a ++ suf' ∧ bytes_ok suf' ∧ bytes_ok a ∧ r = rd (pre ++ lp a) suf' ∧
    u32_ok (zlen a).
Proof.
  intros Hs H. apply r_lp_bytes_inv in H as (suf' & -> & Hs' & Ha & -> & Hl); [|done].
  exists suf'. unfold lp. rewrite <- !app_assoc. done.
Qed.
Lemma w_lp_eq w a : u32_ok (zlen a) → w_lp_bytes w a = w ++ lp a.
Proof.
  intros Ha. unfold w_lp_bytes, w_bytes, w_u32, as_u32, lp. rewrite Z.mod_small by done.
  by rewrite <- app_assoc.
Qed.

Lemma name_len max s : name_ok max s → max <= 256 → u32_ok (zlen (bytes_of_string s)).
Proof. intros [H _] ?. unfold u32_ok. lia. Qed.

Lemma r_push_entry_rd e pre suf :
  entry_ok e → r_push_entry (rd pre (enc_entry e ++ suf)) = Ok (e, rd (pre ++ enc_entry e) suf).
Proof.
  intros (Hq & Hc & Hs). pose proof (name_len _ _ Hq ltac:(done)) as Hql.
  pose proof (name_len _ _ Hc ltac:(done)) as Hcl. unfold r_push_entry, enc_entry.
  rewrite <- !app_assoc. rewrite r_lp_rd by done. ostep. rewrite utf8_bounded_ok by done. ostep.
  rewrite r_lp_rd by done. ostep. rewrite utf8_bounded_ok by done. ostep.
  rewrite r_lp_rd by done. ostep. rewrite !app_assoc. by destruct e.
Qed.

Lemma r_push_entry_inv pre suf e r :
  bytes_ok suf → r_push_entry (rd pre suf) = Ok (e, r) →
  ∃ suf', suf = enc_entry e ++ suf' ∧ bytes_ok suf' ∧ r = rd (pre ++ enc_entry e) suf' ∧ entry_ok e.
Proof.
  intros Hs H. unfold r_push_entry in H.
  apply bind_ok in H as ([a r1] & H1 & H). apply r_lp_inv in H1 as (s1 & -> & Hs1 & Ha & -> & _); [|done].
  apply bind_ok in H as (q & Hq%utf8_bounded_inv & H); [|done].
  apply bind_ok in H as ([b r2] & H2 & H). apply r_lp_inv in H2 as (s2 & -> & Hs2 & Hb & -> & _); [|done].
  apply bind_ok in H as (c & Hc%utf8_bounded_inv & H); [|done].
  apply bind_ok in H as ([d r3] & H3 & H). apply r_lp_inv in H3 as (s3 & -> & Hs3 & Hd & -> & Hl); [|done].
  apply ok_inj in H as [= <- <-]. destruct Hq as [<- Hq], Hc as [<- Hc].
  exists s3. unfold enc_entry. cbn [query_name component snapshot]. rewrite <- !app_assoc. done.
Qed.

Lemma r_push_entry_no_panic r : no_panic (r_push_entry r).
Proof. unfold r_push_entry. no_panic_tac. Qed.

Lemma encode_eq b : batch_ok b → encode b = seal (enc_body b).
Proof.
  intros (Hn & Hc & He). pose proof (name_len _ _ Hn ltac:(done)) as Hnl.
  unfold encode. cbv zeta. rewrite w_lp_eq by done.
  assert (∀ es w, Forall entry_ok es → foldl w_push_entry w es = w ++ encode_all enc_entry es) as Hw.
  { induction es as [|e es IH]; intros w; cbn [foldl]; [by rewrite app_nil_r|].
    intros [(Hq & Hk & Hs) Hes]%Forall_cons. rewrite IH by done. rewrite encode_all_cons.
    unfold w_push_entry. cbv zeta.
    rewrite !w_lp_eq by (done || by eapply name_len). unfold enc_entry. by rewrite <- !app_assoc. }
  rewrite Hw by done. unfold w_u64, w_u32, w_u16, w_bytes, Writer_new, as_u32, seal, enc_body.
  rewrite Z.mod_small by (pose proof (zlen_nonneg (entries b)); unfold MAX_ENTRIES in *; lia).
  by rewrite <- !app_assoc.
Qed.

Lemma lp_min a : 4 <= zlen (lp a).
Proof. unfold lp. rewrite zlen_app, zlen_le_bytes. pose proof (zlen_nonneg a). lia. Qed.

Lemma zlen_enc_body b : 14 <= zlen (enc_body b).
Proof.
  unfold enc_body. rewrite !zlen_app, !zlen_le_bytes. pose proof (lp_min (bytes_of_string (node b))).
  pose proof (zlen_nonneg (encode_all enc_entry (entries b))).
  change (zlen MAGIC) with 4. lia.
Qed.

Lemma decode_seal body :
  14 <= zlen body →
  decode (seal body) =
    (let r := rd [] body in
     '(magic, r) ← r_take 4 r;
     _ ← fail_if (negb (bool_decide (magic = MAGIC))) (SnapshotError "bad magic (expected FSKB)");
     '(version, r) ← r_u16 r;
     _ ← fail_if (negb (version =? BATCH_VERSION)) (SnapshotError "unsupported push batch version");
     '(b, r) ← r_lp_bytes r;
     node ← utf8_bounded b "node" MAX_NODE_NAME_BYTES;
     '(count, r) ← r_u32 r;
     _ ← fail_if (MAX_ENTRIES <? count) (SnapshotError "push batch declares too many entries");
     '(entries, r) ← read_n (Z.to_nat count) r_push_entry r;
     _ ← fail_if (negb (remaining r =? 0)) (SnapshotError "trailing bytes after push batch entries");
     Ok (mkPushBatch node entries)).
Proof.
  intros Hl. unfold decode. rewrite zlen_seal, (proj2 (Z.ltb_ge _ _)) by lia. ostep.
  cbv zeta. rewrite take_seal, drop_seal, seal_checksum, Z.eqb_refl. by ostep.
Qed.

Lemma decode_encode b : batch_ok b → decode (encode b) = Ok b.
Proof.
  intros Hb. rewrite encode_eq by done. rewrite decode_seal by apply zlen_enc_body.
  destruct Hb as (Hn & Hc & He). cbv zeta. unfold enc_body.
  rewrite r_take_rd by done. ostep. rewrite bool_decide_true by done. ostep.
  rewrite r_u16_rd by done. ostep. rewrite Z.eqb_refl. ostep.
  rewrite r_lp_rd by by apply (name_len _ _ Hn). ostep. rewrite utf8_bounded_ok by done. ostep.
  pose proof (zlen_nonneg (entries b)). unfold MAX_ENTRIES in *.
  rewrite r_u32_rd by (unfold u32_ok; lia). ostep. rewrite (proj2 (Z.ltb_ge _ _)) by lia. ostep.
  unfold zlen at 1. rewrite Nat2Z.id.
  rewrite <- (app_nil_r (encode_all enc_entry (entries b))).
  rewrite (read_n_rd r_push_entry enc_entry).
  - ostep. rewrite remaining_rd. change (zlen (@nil Z) =? 0) with true. ostep. by destruct b.
  - intros x pre suf Hx. apply r_push_entry_rd. rewrite Forall_forall in He. by apply He.
Qed.

Lemma decode_inv x b : bytes_ok x → decode x = Ok b → batch_ok b ∧ encode b = x.
Proof.
  intros Hx H. assert (22 <= zlen x ∧
    hash64 (take (length x - 8) x) 0 = le_val (drop (length x - 8) x)) as [Hlen Hsum].
  { unfold decode in H. apply bind_ok in H as ([] & Hl%fail_if_ok%Z.ltb_ge & H).
    apply bind_ok in H as ([] & Hs%fail_if_ok%negb_false_iff%Z.eqb_eq & _). split; [lia|done]. }
  pose proof (seal_of_checksum x Hx ltac:(lia) Hsum) as E. set (body := take (length x - 8) x) in *.
  assert (bytes_ok body) as Hbody by by apply Forall_take.
  rewrite E, decode_seal in H by (rewrite E, zlen_seal in Hlen; lia).
  clearbody body. clear Hsum Hlen. cbv zeta in H.
  apply bind_ok in H as ([magic r] & Ht & H). apply r_take_inv in Ht as (s1 & -> & _ & ->); [|lia].
  apply Forall_app in Hbody as [Hmg Hs1].
  apply bind_ok in H as ([] & ->%fail_if_ok%negb_false_iff%bool_decide_eq_true & H).
  apply bind_ok in H as ([v r] & Hv & H). apply r_u16_inv in Hv as (s2 & -> & Hs2 & -> & _); [|done].
  apply bind_ok in H as ([] & ->%fail_if_ok%negb_false_iff%Z.eqb_eq & H).
  apply bind_ok in H as ([a r] & Ha & H). apply r_lp_inv in Ha as (s3 & -> & Hs3 & Hab & -> & _); [|done].
  apply bind_ok in H as (n & [<- Hn]%utf8_bounded_inv & H); [|done].
  apply bind_ok in H as ([c r] & Hc & H). apply r_u32_inv in Hc as (s4 & -> & Hs4 & -> & Hcr); [|done].
  apply bind_ok in H as ([] & Hmax%fail_if_ok%Z.ltb_ge & H).
  apply bind_ok in H as ([es r] & He & H).
  apply (read_n_inv r_push_entry enc_entry entry_ok) in He as (s5 & -> & Hs5 & -> & Hles & Hes);
    [|intros; by apply r_push_entry_inv|done].
  apply bind_ok in H as ([] & Hrem%fail_if_ok%negb_false_iff%Z.eqb_eq & H).
  apply ok_inj in H as <-. rewrite remaining_rd in Hrem.
  assert (s5 = []) as -> by (destruct s5; [done|rewrite zlen_cons in Hrem; pose proof (zlen_nonneg s5); lia]).
  assert (zlen es = c) as Ec by (unfold zlen; rewrite Hles; unfold u32_ok in *; lia).
  assert (batch_ok (mkPushBatch n es)) as Hok by (split_and!; cbn; [done|lia|done]).
  split; [done|]. rewrite E, encode_eq by done. unfold enc_body. cbn [node entries].
  by rewrite Ec, app_nil_r.
Qed.

Lemma decode_no_panic x : bytes_ok x → no_panic (decode x).
Proof.
  intros Hx. unfold decode. assert (bytes_ok (take (length x - 8) x)) as Hbody by by apply Forall_take.
  apply bind_no_panic; [auto with outcome|intros _ _].
  apply bind_no_panic; [auto with outcome|intros _ _]. cbv zeta. change Reader_new with (rd []).
  apply bind_no_panic; [auto with outcome|]. intros [magic r] Ht.
  apply r_take_inv in Ht as (s1 & E & _ & ->); [|lia]. rewrite E in Hbody.
  apply Forall_app in Hbody as [_ Hs1]. apply bind_no_panic; [auto with outcome|intros _ _].
  apply bind_no_panic; [auto with outcome|]. intros [v r] Hv.
  apply r_u16_inv in Hv as (s2 & -> & Hs2 & -> & _); [|done].
  apply bind_no_panic; [auto with outcome|intros _ _].
  apply bind_no_panic; [auto with outcome|]. intros [a r] Ha.
  apply r_lp_inv in Ha as (s3 & -> & Hs3 & _ & -> & _); [|done].
  apply bind_no_panic; [auto with outcome|intros n _].
  apply bind_no_panic; [auto with outcome|]. intros [c r] Hc.
  apply r_u32_inv in Hc as (s4 & -> & Hs4 & -> & _); [|done].
  apply bind_no_panic; [auto with outcome|intros _ _].
  apply bind_no_panic; [|intros [es r] _; no_panic_tac].
  apply read_n_no_panic; [intros; apply r_push_entry_no_panic| |done].
  intros p q e r Hq H. apply r_push_entry_inv in H as (q' & -> & ? & -> & _); eauto.
Qed.

(** [C31] Push batches round-trip, and decoding is strict.  Every batch within the
    limits decodes from its encoding; on arbitrary bytes decoding never panics,
    and what it accepts is a batch within the limits whose encoding is exactly
    those bytes, so that no two requests denote one batch. *)
Theorem batch_codec :
  (∀ b, batch_ok b → decode (encode b) = Ok b) ∧
  ∀ x, bytes_ok x → no_panic (decode x) ∧ ∀ b, decode x = Ok b → batch_ok b ∧ encode b = x.
Proof.
  split; [apply decode_encode|]. intros x Hx. split; [by apply decode_no_panic|].
  intros b. by apply decode_inv.
Qed.

(** A node name in two alphabets; one entry. *)
Definition sample_batch : PushBatch :=
  mkPushBatch (string_of_bytes [110; 195; 164]) [mkPushEntry "hot" "spacesaving" [1; 2; 3]].

Lemma sample_batch_ok : batch_ok sample_batch.
Proof.
  split_and!; [|by vm_compute|apply Forall_singleton; split_and!; [| |by vm_compute]];
    (split; [by vm_compute|eexists; split; [vm_compute; reflexivity|vm_compute; reflexivity]]).
Qed.

Lemma batch_codec_witness :
  decode (encode sample_batch) = Ok sample_batch ∧ encode sample_batch = encode sample_batch.
Proof.
  destruct batch_codec as [H1 H2]. pose proof (H1 sample_batch sample_batch_ok) as E.
  split; [exact E|]. refine (proj2 (proj2 (H2 _ _) sample_batch E)).
  apply (bool_decide_unpack _). vm_compute. exact I.
Defined.
