(* ===== verification/Gateway.v ===== *)
(** * The gateway's window store  (crates/flowsketch-gateway/src/state.rs)

    The latest window of every node for every query, the per-query merge cache,
    and the operations of the service: applying a push batch, evicting silent
    nodes, refreshing the cache and reading the merged windows.

    An [Instant] is a [Z] of nanoseconds and every operation is given the clock
    readings it makes.  The data are behind a mutex, so each operation is one
    transition; a panic inside one poisons the mutex. *)
From S2P Require Import Prelude Bytes Maps Hash Sketch Snapshot F64 Event Ir Planner.
From S2P Require Import QueryState Emit Window Restore Batch.

(** ** State *)

Record NodeWindow := mkNodeWindow { received : Z; nw_state : WindowState QueryState }.

Definition MERGE_CACHE_SHARDS : nat := 16.

Record QueryMergeCache := mkCache {
  target : option (Z * Z);
  shard_states : list (option (WindowState QueryState));
  shard_nodes : list Z;
  final_state : option (WindowState QueryState);
}.
Definition QueryMergeCache_default : QueryMergeCache := mkCache None [] [] None.

Record GatewayData := mkData {
  nodes : gmap string (gmap string NodeWindow);
  merge_cache : gmap string QueryMergeCache;
  retained_sketch_bytes : Z;
}.
Definition GatewayData_default : GatewayData := mkData ∅ ∅ 0.

(** What a push is told: how many states were accepted, why the others were not. *)
Inductive Rejection :=
  | NotConfigured (q : string)
  | Unacceptable (q : string) (e : SketchError)
  | NodesFull (q : string)
  | AccountingOverflow (q : string)
  | BudgetExceeded (q : string) (projected : Z).
Record ApplyResult := mkApplyResult { accepted : Z; rejected : list Rejection }.

Record Counters := mkCounters {
  pushes_total : Z;
  snapshots_accepted : Z;
  snapshots_rejected : Z;
  node_admission_rejections : Z;
  sketch_budget_rejections : Z;
  body_budget_rejections : Z;
  merge_cache_shard_rebuilds : Z;
}.

Record GatewayState := mkGateway {
  plans : list Plan;
  g_hash : HashSpec;
  stale_after : Z;
  max_nodes : Z;
  max_retained_sketch_bytes : Z;
  data : GatewayData;
  counters : Counters;
}.

Record MergedQuery := mkMerged {
  m_query_name : string;
  nodes_known : Z;
  nodes_merged : Z;
  m_window_end_nanos : Z;
  estimates : list SketchEstimate;
}.

Definition GatewayState_new (plans : list Plan) (hash : HashSpec)
    (stale_after max_nodes max_retained_sketch_bytes : Z) : res GatewayState :=
  if (0 <? max_nodes) && (0 <? max_retained_sketch_bytes)
  then Ok (mkGateway plans hash stale_after max_nodes max_retained_sketch_bytes GatewayData_default
             (mkCounters 0 0 0 0 0 0 0))
  else Panic.

Definition with_data (g : GatewayState) (d : GatewayData) : GatewayState :=
  mkGateway (plans g) (g_hash g) (stale_after g) (max_nodes g) (max_retained_sketch_bytes g) d
    (counters g).
Definition with_counters (g : GatewayState) (c : Counters) : GatewayState :=
  mkGateway (plans g) (g_hash g) (stale_after g) (max_nodes g) (max_retained_sketch_bytes g) (data g) c.
Definition with_nodes (d : GatewayData) (ns : gmap string (gmap string NodeWindow)) (retained : Z)
    : GatewayData :=
  mkData ns (merge_cache d) retained.
Definition with_cache (d : GatewayData) (c : gmap string QueryMergeCache) : GatewayData :=
  mkData (nodes d) c (retained_sketch_bytes d).

Section gateway.
Context (exp log2 : f64 → f64) (fuel : nat) (fp : Footprint).

(** [WindowState::memory_bytes], [WindowState::estimates], the bounds compared. *)
Definition mem (w : WindowState QueryState) : Z := memory_bytes fp (w_state w).
Definition window_estimates (plan : Plan) (w : WindowState QueryState) : res (list SketchEstimate) :=
  emit_estimates exp log2 fuel fp plan (w_state w) (window_start_nanos w) (window_end_nanos w).
Definition bounds (w : WindowState QueryState) : Z * Z :=
  (window_start_nanos w, window_end_nanos w).

Definition merge_shard (node : string) : nat :=
  Z.to_nat (hash64 (bytes_of_string node) 0 mod Z.of_nat MERGE_CACHE_SHARDS).

(** ** Eviction *)

Abbreviation changes := (gmap string (gset nat)).
Definition mark (changed : changes) (q : string) (shard : nat) : changes :=
  <[q := {[shard]} ∪ default ∅ (changed !! q)]> changed.

(** [window.received.elapsed() >= cutoff] with the clock at [now]. *)
Definition is_stale (now cutoff : Z) (w : NodeWindow) : bool :=
  cutoff <=? sat_sub64 now (received w).

(** One stale node of query [q]: its window, its bytes, its shard. *)
Definition evict_node (q : string) (acc : GatewayData * changes) (node : string)
    : GatewayData * changes :=
  let '(d, changed) := acc in
  let per_node := default ∅ (nodes d !! q) in
  let d := match per_node !! node with
           | Some w => with_nodes d (<[q := delete node per_node]> (nodes d))
                         (sat_sub64 (retained_sketch_bytes d) (mem (nw_state w)))
           | None => d
           end in
  (d, mark changed q (merge_shard node)).

(** [clock q n] is the reading made for node [n] of query [q]. *)
Definition stale_nodes (clock : string → string → Z) (cutoff : Z) (q : string)
    (per_node : gmap string NodeWindow) : list string :=
  fst <$> base.filter (λ x, is_stale (clock q x.1) cutoff x.2 = true) (in_order per_node).

Definition evict_query (clock : string → string → Z) (cutoff : Z) (acc : GatewayData * changes)
    (x : string * gmap string NodeWindow) : GatewayData * changes :=
  foldl (evict_node x.1) acc (stale_nodes clock cutoff x.1 x.2).

Definition evict_stale (clock : string → string → Z) (cutoff : Z) (d : GatewayData)
    : GatewayData * changes :=
  let '(d, changed) := foldl (evict_query clock cutoff) (d, ∅) (in_order (nodes d)) in
  (with_nodes d (base.filter (λ x, x.2 ≠ ∅) (nodes d)) (retained_sketch_bytes d), changed).

Definition unique_node_count (ns : gmap string (gmap string NodeWindow)) : Z :=
  Z.of_nat (size (⋃ ((λ x, dom x.2) <$> map_to_list ns) : gset string)).

(** ** The merge cache *)

(** [max]: the greatest end. *)
Definition max_end (per_node : gmap string NodeWindow) : option Z :=
  match (λ x, window_end_nanos (nw_state x.2)) <$> in_order per_node with
  | [] => None
  | e :: es => Some (foldl Z.max e es)
  end.

Definition count_start (stop : Z) (votes : gmap Z Z) (x : string * NodeWindow) : gmap Z Z :=
  let w := nw_state x.2 in
  if window_end_nanos w =? stop
  then <[window_start_nanos w := default 0 (votes !! window_start_nanos w) + 1]> votes
  else votes.

(** [Iterator::max_by]: the last of the greatest. *)
Definition vote_cmp (a b : Z * Z) : comparison := then_with (a.2 ?= b.2) (b.1 ?= a.1).
Definition max_by (best : option (Z * Z)) (x : Z * Z) : option (Z * Z) :=
  match best with
  | None => Some x
  | Some b => match vote_cmp b x with Gt => Some b | _ => Some x end
  end.

Definition selected_window (per_node : gmap string NodeWindow) : option (Z * Z) :=
  match max_end per_node with
  | None => None
  | Some stop =>
      let start_votes := foldl (count_start stop) ∅ (in_order per_node) in
      let sorted := sort_by (λ a b, a.1 ?= b.1) (map_to_list start_votes) in
      (λ x, (x.1, stop)) <$> foldl max_by None sorted
  end.

(** A failed merge leaves what it left and is not counted. *)
Definition merge_into (acc : option (WindowState QueryState) * Z) (w : WindowState QueryState)
    : res (option (WindowState QueryState) * Z) :=
  match acc with
  | (None, _) => Ok (Some w, 1)
  | (Some state, n) =>
      match merge_window (WS := QueryState_Window fuel) state w with
      | (Ok _, state) => Ok (Some state, n + 1)
      | (Err _, state) => Ok (Some state, n)
      | (Panic, _) => Panic
      end
  end.

Definition in_shard (tgt : Z * Z) (shard : nat) (x : string * NodeWindow) : Prop :=
  merge_shard x.1 = shard ∧ bounds (nw_state x.2) = tgt.
#[export] Instance in_shard_dec tgt shard x : Decision (in_shard tgt shard x).
Proof using. unfold in_shard. apply _. Defined.

Definition merge_cache_shard (per_node : gmap string NodeWindow) (tgt : Z * Z) (shard : nat)
    : res (option (WindowState QueryState) * Z) :=
  foldM (λ acc x, merge_into acc (nw_state x.2)) (None, 0)
    (base.filter (in_shard tgt shard) (in_order per_node)).

Definition rebuild_shard (per_node : gmap string NodeWindow) (tgt : Z * Z)
    (c : QueryMergeCache) (shard : nat) : res QueryMergeCache :=
  '(state, count) ← merge_cache_shard per_node tgt shard;
  states ← vec_set (shard_states c) (Z.of_nat shard) state;
  counts ← vec_set (shard_nodes c) (Z.of_nat shard) count;
  Ok (mkCache (target c) states counts (final_state c)).

(** [changed_shards.iter()] *)
Definition shards_in_order (s : gset nat) : list nat :=
  sort_by (λ a b, Z.of_nat a ?= Z.of_nat b) (elements s).

Definition refresh_query_cache (d : GatewayData) (q : string) (changed_shards : gset nat)
    : res (GatewayData * Z) :=
  match nodes d !! q with
  | None => Ok (with_cache d (delete q (merge_cache d)), 0)
  | Some per_node =>
      match selected_window per_node with
      | None => Ok (with_cache d (delete q (merge_cache d)), 0)
      | Some tgt =>
          let c := default QueryMergeCache_default (merge_cache d !! q) in
          let rebuild_all := negb (bool_decide (target c = Some tgt)) ||
            negb (bool_decide (length (shard_states c) = MERGE_CACHE_SHARDS)) ||
            negb (bool_decide (length (shard_nodes c) = MERGE_CACHE_SHARDS)) in
          let c := if rebuild_all
                   then mkCache (Some tgt) (replicate MERGE_CACHE_SHARDS None)
                          (replicate MERGE_CACHE_SHARDS 0) (final_state c)
                   else c in
          let shards := if rebuild_all then seq 0 MERGE_CACHE_SHARDS
                        else shards_in_order changed_shards in
          c ← foldM (rebuild_shard per_node tgt) c shards;
          let c := match shards with
                   | [] => c
                   | _ => mkCache (target c) (shard_states c) (shard_nodes c) None
                   end in
          Ok (with_cache d (<[q := c]> (merge_cache d)), zlen shards)
      end
  end.

Definition refresh_step (acc : GatewayData * Z) (x : string * gset nat) : res (GatewayData * Z) :=
  '(d, n) ← refresh_query_cache acc.1 x.1 x.2; Ok (d, acc.2 +ʷ n).
Definition refresh_changed_caches (d : GatewayData) (changed : changes) : res (GatewayData * Z) :=
  foldM refresh_step (d, 0) (in_order changed).

(** ** Applying a push *)

Definition add_component (m : gmap string (list (string * bytes))) (e : PushEntry)
    : gmap string (list (string * bytes)) :=
  <[query_name e := default [] (m !! query_name e) ++ [(component e, snapshot e)]]> m.
Definition by_query (entries : list PushEntry) : gmap string (list (string * bytes)) :=
  foldl add_component ∅ entries.

Definition find_plan (plans : list Plan) (q : string) : option Plan :=
  List.find (λ p, String.eqb (q_name (query p)) q) plans.

Definition validated := list (string * WindowState QueryState).

Definition validate (plans : list Plan) (hash : HashSpec) (acc : validated * list Rejection)
    (x : string * list (string * bytes)) : res (validated * list Rejection) :=
  let '(valid, rejected) := acc in
  match find_plan plans x.1 with
  | None => Ok (valid, rejected ++ [NotConfigured x.1])
  | Some plan =>
      match from_components fuel plan hash x.2 with
      | Ok w => Ok (valid ++ [(x.1, w)], rejected)
      | Err e => Ok (valid, rejected ++ [Unacceptable x.1 e])
      | Panic => Panic
      end
  end.

Record Applied := mkApplied {
  ap_data : GatewayData;
  ap_changed : changes;
  ap_accepted : Z;
  ap_budget : Z;
  ap_rejected : list Rejection;
}.

Definition lookup_node (d : GatewayData) (q node : string) : option NodeWindow :=
  per_node ← nodes d !! q; per_node !! node.
Definition insert_node (d : GatewayData) (q node : string) (w : NodeWindow) (retained : Z)
    : GatewayData :=
  with_nodes d (<[q := <[node := w]> (default ∅ (nodes d !! q))]> (nodes d)) retained.

Definition refuse (a : Applied) (why : Rejection) : Applied :=
  mkApplied (ap_data a) (ap_changed a) (ap_accepted a) (ap_budget a +ʷ 1) (ap_rejected a ++ [why]).

(** [checked_sub(old).and_then(|bytes| bytes.checked_add(new))] *)
Definition projected_bytes (retained old new : Z) : option Z :=
  if retained <? old then None
  else if u64_max <? retained - old + new then None else Some (retained - old + new).

(** A window that is not older than the stored one, whose size is [old]. *)
Definition replace_window (max_bytes : Z) (node : string) (now : Z) (a : Applied) (q : string)
    (w : WindowState QueryState) (old : Z) : Applied :=
  let d := ap_data a in
  match projected_bytes (retained_sketch_bytes d) old (mem w) with
  | None => refuse a (AccountingOverflow q)
  | Some projected =>
      if max_bytes <? projected then refuse a (BudgetExceeded q projected)
      else mkApplied (insert_node d q node (mkNodeWindow now w) projected)
             (mark (ap_changed a) q (merge_shard node)) (ap_accepted a +ʷ 1) (ap_budget a)
             (ap_rejected a)
  end.

(** One validated window of the batch. *)
Definition apply_window (max_bytes : Z) (node : string) (now : Z) (a : Applied)
    (x : string * WindowState QueryState) : Applied :=
  let '(q, w) := x in
  let d := ap_data a in
  let previous := lookup_node d q node in
  match previous with
  | Some old =>
      if window_end_nanos w <? window_end_nanos (nw_state old)
      then mkApplied (insert_node d q node (mkNodeWindow now (nw_state old)) (retained_sketch_bytes d))
             (ap_changed a) (ap_accepted a +ʷ 1) (ap_budget a) (ap_rejected a)
      else replace_window max_bytes node now a q w (mem (nw_state old))
  | None => replace_window max_bytes node now a q w 0
  end.

Definition counted (c : Counters) (pushes accepted rejected nodes_full budget rebuilds : Z) : Counters :=
  mkCounters (pushes_total c +ʷ pushes) (snapshots_accepted c +ʷ accepted)
    (snapshots_rejected c +ʷ rejected) (node_admission_rejections c +ʷ nodes_full)
    (sketch_budget_rejections c +ʷ budget) (body_budget_rejections c)
    (merge_cache_shard_rebuilds c +ʷ rebuilds).

(** [known_node] *)
Definition known_node (d : GatewayData) (node : string) : bool :=
  existsb (λ x, bool_decide (is_Some (x.2 !! node))) (in_order (nodes d)).

Definition apply_batch (clock : string → string → Z) (now : Z) (g : GatewayState) (b : PushBatch)
    : res (ApplyResult * GatewayState) :=
  '(valid, rejected) ← foldM (validate (plans g) (g_hash g)) ([], []) (in_order (by_query (entries b)));
  match valid with
  | [] =>
      Ok (mkApplyResult 0 rejected,
          with_counters g (counted (counters g) 1 0 (zlen rejected) 0 0 0))
  | _ =>
      let '(d, changed) := evict_stale clock (stale_after g) (data g) in
      '(d, rebuilds) ← refresh_changed_caches d changed;
      if negb (known_node d (node b)) && (max_nodes g <=? unique_node_count (nodes d)) then
        let rejected := rejected ++ ((λ x, NodesFull x.1) <$> valid) in
        Ok (mkApplyResult 0 rejected,
            with_counters (with_data g d)
              (counted (counters g) 1 0 (zlen rejected) 1 0 rebuilds))
      else
        let a := foldl (apply_window (max_retained_sketch_bytes g) (node b) now)
                   (mkApplied d ∅ 0 0 rejected) valid in
        '(d, more) ← refresh_changed_caches (ap_data a) (ap_changed a);
        Ok (mkApplyResult (ap_accepted a) (ap_rejected a),
            with_counters (with_data g d)
              (counted (counters g) 1 (ap_accepted a) (zlen (ap_rejected a)) 0 (ap_budget a)
                 (rebuilds +ʷ more)))
  end.

(** ** Reading the merged windows *)

(** The loop over the shard summaries; a merge that fails drops the result. *)
Fixpoint merge_summaries (acc : option (WindowState QueryState))
    (shards : list (WindowState QueryState)) : res (option (WindowState QueryState)) :=
  match shards with
  | [] => Ok acc
  | w :: shards =>
      match acc with
      | None => merge_summaries (Some w) shards
      | Some state =>
          match merge_window (WS := QueryState_Window fuel) state w with
          | (Ok _, state) => merge_summaries (Some state) shards
          | (Err _, _) => Ok None
          | (Panic, _) => Panic
          end
      end
  end.

Definition merged_query (acc : GatewayData * list MergedQuery) (plan : Plan)
    : res (GatewayData * list MergedQuery) :=
  let '(d, out) := acc in
  let q := q_name (query plan) in
  match nodes d !! q, merge_cache d !! q with
  | Some per_node, Some c =>
      match target c with
      | None => Ok (d, out)
      | Some (_, window_end_nanos) =>
          let known := Z.of_nat (size per_node) in
          let merged := foldl Z.add 0 (shard_nodes c) in
          c ← (if (merged =? known) && bool_decide (final_state c = None)
               then final ← merge_summaries None (omap id (shard_states c));
                    Ok (mkCache (target c) (shard_states c) (shard_nodes c) final)
               else Ok c);
          ests ← (if merged =? known
                  then match final_state c with
                       | Some w => window_estimates plan w
                       | None => Ok []
                       end
                  else Ok []);
          Ok (with_cache d (<[q := c]> (merge_cache d)),
              out ++ [mkMerged q known merged window_end_nanos ests])
      end
  | _, _ => Ok (d, out)
  end.

Definition merged (clock : string → string → Z) (g : GatewayState)
    : res (list MergedQuery * GatewayState) :=
  let '(d, changed) := evict_stale clock (stale_after g) (data g) in
  '(d, rebuilds) ← refresh_changed_caches d changed;
  '(d, out) ← foldM merged_query (d, []) (plans g);
  Ok (out, with_counters (with_data g d) (counted (counters g) 0 0 0 0 0 rebuilds)).

(** What [render_metrics] publishes: the estimates of complete merges only, and
    the gauges of the store. *)
Definition exported_estimates (ms : list MergedQuery) : list SketchEstimate :=
  concat (estimates <$> base.filter (λ m, nodes_merged m = nodes_known m) ms).

Definition shards_bytes (c : QueryMergeCache) : Z :=
  foldl (λ bytes w, sat_add64 bytes (mem w)) 0 (omap id (shard_states c)).
Definition merge_cache_sketch_bytes (d : GatewayData) : Z :=
  foldl (λ total x, sat_add64 (sat_add64 total (shards_bytes x.2))
      (default 0 (mem <$> final_state x.2))) 0 (in_order (merge_cache d)).

(** [nodes_json]: for every query its nodes with their window and its size. *)
Record NodeView := mkNodeView {
  nv_node : string;
  nv_window : Z * Z;
  nv_sketch_bytes : Z;
  nv_update_count : Z;
  nv_age_seconds : Z;
}.
Definition node_view (clock : string → string → Z) (q : string) (x : string * NodeWindow) : NodeView :=
  mkNodeView x.1 (bounds (nw_state x.2)) (mem (nw_state x.2))
    (update_count (w_state (nw_state x.2)))
    (sat_sub64 (clock q x.1) (received x.2) / 1000000000).
Definition nodes_json (clock age_clock : string → string → Z) (g : GatewayState)
    : res (list (string * list NodeView) * GatewayState) :=
  let '(d, changed) := evict_stale clock (stale_after g) (data g) in
  '(d, rebuilds) ← refresh_changed_caches d changed;
  Ok ((λ x, (x.1, node_view age_clock x.1 <$> in_order x.2)) <$> in_order (nodes d),
      with_counters (with_data g d) (counted (counters g) 0 0 0 0 0 rebuilds)).
End gateway.
