(* ===== verification/GatewaySpec.v ===== *)
(** * What the gateway's store guarantees

    The store's invariant, kept by every operation, and the merge cache's
    refinement of the specification that has no cache. *)
From S2P Require Import Prelude Bytes Maps Hash Sketch Snapshot F64 Event Ir Planner.
From S2P Require Import QueryState Emit Window WindowSpec Guarantees Restore Shipping Batch Gateway.

Abbreviation WS := (WindowState QueryState).

(** ** Windows without their arrival times *)

Definition states (pn : gmap string NodeWindow) : gmap string WS := nw_state <$> pn.
Definition windows (pn : gmap string NodeWindow) : list WS := (in_order (states pn)).*2.

Lemma windows_eq pn : windows pn = (λ x, nw_state x.2) <$> in_order pn.
Proof. unfold windows, states. rewrite in_order_fmap, <- list_fmap_compose. done. Qed.

Lemma elem_of_windows pn w : w ∈ windows pn ↔ ∃ n nw, pn !! n = Some nw ∧ nw_state nw = w.
Proof.
  unfold windows. rewrite list_elem_of_fmap. split.
  - intros ([n x] & -> & H%elem_of_in_order). unfold states in H.
    apply lookup_fmap_Some in H as (nw & <- & H). eauto.
  - intros (n & nw & H & <-). exists (n, nw_state nw). split; [done|].
    apply elem_of_in_order. unfold states. by rewrite lookup_fmap, H.
Qed.

Lemma windows_nil pn : windows pn = [] ↔ pn = ∅.
Proof.
  split; [|by intros ->]. intros H. apply map_empty. intros n. apply eq_None_not_Some.
  intros [nw Hn]. assert (nw_state nw ∈ windows pn) as Hin by (apply elem_of_windows; eauto).
  rewrite H in Hin. by apply elem_of_nil in Hin.
Qed.

Lemma filter_fmap {A B} (f : A → B) (P : B → Prop) `{!∀ x, Decision (P x)} (l : list A) :
  base.filter P (f <$> l) = f <$> base.filter (λ x, P (f x)) l.
Proof.
  induction l as [|x l IH]; [done|]. rewrite fmap_cons, !filter_cons. case_decide; by rewrite IH.
Qed.
Lemma foldM_fmap {E A B C} (f : A → B → outcome E A) (g : C → B) (l : list C) a :
  foldM f a (g <$> l) = foldM (λ a x, f a (g x)) a l.
Proof. revert a. induction l as [|x l IH]; intros a; [done|]. cbn. by destruct (f a (g x)); cbn. Qed.
Lemma foldl_map {A B C} (f : A → B → A) (g : C → B) (l : list C) a :
  foldl f a (g <$> l) = foldl (λ a x, f a (g x)) a l.
Proof. revert a. induction l as [|x l IH]; intros a; [done|]. cbn. by rewrite IH. Qed.

(** ** The selected window *)

Definition latest (ws : list WS) : option Z :=
  match window_end_nanos <$> ws with [] => None | e :: es => Some (foldl Z.max e es) end.
Definition vote (stop : Z) (votes : gmap Z Z) (w : WS) : gmap Z Z :=
  if window_end_nanos w =? stop
  then <[window_start_nanos w := default 0 (votes !! window_start_nanos w) + 1]> votes
  else votes.
(** How many windows have these bounds. *)
Definition supporters (b : Z * Z) (ws : list WS) : Z := zlen (base.filter (λ w, bounds w = b) ws).

Lemma foldl_max_spec e es :
  foldl Z.max e es ∈ e :: es ∧ ∀ x, x ∈ e :: es → x <= foldl Z.max e es.
Proof.
  revert e. induction es as [|y es IH]; intros e; cbn [foldl].
  - split; [by left|]. intros x ->%list_elem_of_singleton. lia.
  - destruct (IH (Z.max e y)) as [H1 H2]. split.
    + apply elem_of_cons in H1 as [H1|H1]; [|set_solver].
      rewrite H1. destruct (Z.max_spec e y) as [[_ ->]|[_ ->]]; set_solver.
    + pose proof (H2 (Z.max e y) ltac:(by left)) as Hm.
      intros x [->|[->|Hx]%elem_of_cons]%elem_of_cons; [lia|lia|]. apply H2. by right.
Qed.

Lemma votes_spec stop ws s :
  default 0 (foldl (vote stop) ∅ ws !! s) = supporters (s, stop) ws ∧
  (is_Some (foldl (vote stop) ∅ ws !! s) ↔ 0 < supporters (s, stop) ws).
Proof.
  induction ws as [|w ws [IH1 IH2]] using rev_ind.
  - cbn. rewrite lookup_empty. split; [done|]. split; [by intros []|done].
  - rewrite foldl_app. cbn [foldl]. unfold supporters in *. rewrite filter_app, zlen_app.
    set (m := foldl (vote stop) ∅ ws) in *. pose proof (zlen_nonneg (base.filter (λ w, bounds w = (s, stop)) ws)).
    unfold vote. rewrite filter_cons, filter_nil.
    destruct (Z.eqb_spec (window_end_nanos w) stop) as [He|He].
    + destruct (decide (window_start_nanos w = s)) as [<-|Hs].
      * rewrite !decide_True by (unfold bounds; congruence). rewrite lookup_insert_eq. cbn [default from_option id].
        change (zlen [w]) with 1. rewrite IH1. split; [lia|]. split; [intros _; lia|by eexists].
      * rewrite !decide_False by (unfold bounds; congruence). rewrite lookup_insert_ne by done.
        change (zlen (@nil WS)) with 0. rewrite IH1. split; [lia|]. rewrite IH2. lia.
    + rewrite !decide_False by (unfold bounds; congruence). change (zlen (@nil WS)) with 0. rewrite IH1, IH2.
      split; lia.
Qed.

#[export] Instance vote_cmp_ord : CmpOrd vote_cmp.
Proof.
  apply (cmp_then (λ a b : Z * Z, a.2 ?= b.2) (λ a b : Z * Z, b.1 ?= a.1)).
  - apply (cmp_on (λ a : Z * Z, a.2) Z.compare).
  - apply (cmp_flip (λ a b : Z * Z, a.1 ?= b.1)). apply (cmp_on (λ a : Z * Z, a.1) Z.compare).
Qed.

Lemma max_by_spec l :
  match foldl max_by None l with
  | None => l = []
  | Some b => b ∈ l ∧ ∀ x, x ∈ l → vote_cmp x b ≠ Gt
  end.
Proof.
  induction l as [|x l IH] using rev_ind; [done|]. rewrite foldl_app. cbn [foldl].
  destruct (foldl max_by None l) as [b|]; cbn [max_by].
  - destruct IH as [Hb Hle]. destruct (vote_cmp b x) eqn:E.
    1-2: split; [set_solver|]; intros y [Hy| ->%list_elem_of_singleton]%elem_of_app;
      [eapply (cmp_le_trans vote_cmp); [by apply Hle|by rewrite E]|by rewrite (cmp_refl vote_cmp)].
    split; [set_solver|]. intros y [Hy| ->%list_elem_of_singleton]%elem_of_app; [by apply Hle|].
    by rewrite (cmp_opp vote_cmp b x), E.
  - rewrite IH. split; [by left|]. intros y ->%list_elem_of_singleton. by rewrite (cmp_refl vote_cmp).
Qed.

Definition select (ws : list WS) : option (Z * Z) :=
  match latest ws with
  | None => None
  | Some stop =>
      (λ x, (x.1, stop)) <$>
        foldl max_by None (sort_by (λ a b, a.1 ?= b.1) (map_to_list (foldl (vote stop) ∅ ws)))
  end.

Lemma selected_window_eq pn : selected_window pn = select (windows pn).
Proof.
  unfold selected_window, select, max_end, latest. rewrite windows_eq, <- list_fmap_compose.
  unfold compose. cbn [fmap].
  destruct ((λ x : string * NodeWindow, window_end_nanos (nw_state x.2)) <$> in_order pn) as [|e es] ; [done|].
  by rewrite foldl_map.
Qed.

(** The greatest end, and for it the start most nodes agree on, the earliest of
    those in a tie. *)
Lemma select_spec ws :
  match select ws with
  | None => ws = []
  | Some (start, stop) =>
      (∀ w, w ∈ ws → window_end_nanos w <= stop) ∧
      (∃ w, w ∈ ws ∧ bounds w = (start, stop)) ∧
      ∀ s, supporters (s, stop) ws < supporters (start, stop) ws ∨
        supporters (s, stop) ws = supporters (start, stop) ws ∧ start <= s
  end.
Proof.
  unfold select, latest. destruct (window_end_nanos <$> ws) as [|e es] eqn:E.
  { by apply fmap_nil_inv in E. }
  set (stop := foldl Z.max e es). pose proof (foldl_max_spec e es) as [Hin Hle]. fold stop in Hin, Hle.
  rewrite <- E in Hin, Hle. apply list_elem_of_fmap in Hin as (w0 & Hw0 & Hin).
  pose proof (max_by_spec (sort_by (λ a b, a.1 ?= b.1) (map_to_list (foldl (vote stop) ∅ ws)))) as Hm.
  assert (∀ s, 0 < supporters (s, stop) ws ↔ ∃ w, w ∈ ws ∧ bounds w = (s, stop)) as Hsup.
  { intros s. unfold supporters. split.
    - intros H. destruct (base.filter _ ws) as [|w l] eqn:Ef; [done|].
      exists w. assert (w ∈ base.filter (λ w, bounds w = (s, stop)) ws) as Hw by (rewrite Ef; by left).
      apply list_elem_of_filter in Hw. naive_solver.
    - intros (w & Hw & Hb). assert (w ∈ base.filter (λ w, bounds w = (s, stop)) ws) as Hf
        by by apply list_elem_of_filter.
      destruct (base.filter _ ws); [by apply elem_of_nil in Hf|]. rewrite zlen_cons.
      pose proof (zlen_nonneg l). lia. }
  destruct (foldl max_by None _) as [[start votes]|]; cbn [fmap option_fmap option_map fst].
  - destruct Hm as [Hb Hall]. rewrite elem_of_sort_by, elem_of_map_to_list in Hb.
    destruct (votes_spec stop ws start) as [V1 V2]. rewrite Hb in V1, V2. cbn [default from_option id] in V1.
    split; [|split].
    + intros w Hw. apply Hle. by apply list_elem_of_fmap_2.
    + apply Hsup, V2. by eexists.
    + intros s. destruct (votes_spec stop ws s) as [S1 S2].
      destruct (foldl (vote stop) ∅ ws !! s) as [v|] eqn:Es; cbn [default from_option id] in S1.
      * assert (vote_cmp (s, v) (start, votes) ≠ Gt) as Hc.
        { apply Hall. by rewrite elem_of_sort_by, elem_of_map_to_list. }
        unfold vote_cmp, then_with in Hc. cbn [fst snd] in Hc.
        destruct (Z.compare_spec v votes) as [Hv|Hv|Hv]; [|left; lia|done].
        right. split; [lia|]. destruct (Z.compare_spec start s); [lia|lia|done].
      * assert (0 < supporters (start, stop) ws) by (apply V2; by eexists). left. lia.
  - exfalso. assert (0 < supporters (window_start_nanos w0, stop) ws) as Hp.
    { apply Hsup. exists w0. split; [done|]. unfold bounds. by rewrite <- Hw0. }
    apply votes_spec in Hp as [v Hv]. apply (f_equal length) in Hm. rewrite length_sort_by in Hm.
    assert ((window_start_nanos w0, v) ∈ map_to_list (foldl (vote stop) ∅ ws)) as Hx
      by by apply elem_of_map_to_list.
    destruct (map_to_list _); [by apply elem_of_nil in Hx|done].
Qed.

(** ** Shards *)

Definition on_shard (tgt : Z * Z) (shard : nat) (x : string * WS) : Prop :=
  merge_shard x.1 = shard ∧ bounds x.2 = tgt.
#[export] Instance on_shard_dec tgt shard x : Decision (on_shard tgt shard x).
Proof. unfold on_shard. apply _. Defined.

(** The entries a shard summary merges, in the order it merges them. *)
Definition shard_entries (pn : gmap string NodeWindow) (tgt : Z * Z) (shard : nat)
    : list (string * WS) :=
  in_order (base.filter (on_shard tgt shard) (states pn)).

Lemma merge_shard_lt n : (merge_shard n < MERGE_CACHE_SHARDS)%nat.
Proof.
  unfold merge_shard. set (x := hash64 _ _). clearbody x.
  pose proof (Z.mod_pos_bound x (Z.of_nat MERGE_CACHE_SHARDS) ltac:(done)). lia.
Qed.

(** Changing one node's window leaves the other shards alone. *)
Lemma shard_entries_change pn pn' n tgt s :
  (∀ n', n' ≠ n → states pn' !! n' = states pn !! n') → s ≠ merge_shard n →
  shard_entries pn' tgt s = shard_entries pn tgt s.
Proof.
  intros Hn Hs. unfold shard_entries. f_equal. apply map_eq. intros n'.
  destruct (decide (n' = n)) as [->|Hne].
  - apply option_eq. intros w. rewrite !map_lookup_filter_Some. unfold on_shard. cbn [fst snd]. naive_solver.
  - apply option_eq. intros w. rewrite !map_lookup_filter_Some. by rewrite Hn.
Qed.

(** All the shards together hold the windows with the target's bounds. *)
Lemma partition_below {A} (f : A → nat) (l : list A) (k : nat) :
  concat ((λ s, base.filter (λ x, f x = s) l) <$> seq 0 k) ≡ₚ base.filter (λ x, (f x < k)%nat) l.
Proof.
  induction k as [|k IH].
  - cbn. induction l as [|x l IHl]; [done|]. rewrite filter_cons, decide_False by lia. done.
  - rewrite seq_S, fmap_app, concat_app, IH. cbn. rewrite app_nil_r. clear IH.
    induction l as [|x l IHl]; [done|]. rewrite !filter_cons.
    destruct (decide (f x < k)%nat), (decide (f x = k)), (decide (f x < S k)%nat); try lia.
    + cbn. by rewrite IHl.
    + rewrite <- Permutation_middle. by rewrite IHl.
    + done.
Qed.

Lemma filter_true {A} (P : A → Prop) `{!∀ x, Decision (P x)} (l : list A) :
  (∀ x, x ∈ l → P x) → base.filter P l = l.
Proof.
  induction l as [|x l IH]; intros Hall; [done|].
  rewrite filter_cons, decide_True by (apply Hall; by left).
  f_equal. apply IH. intros y Hy. apply Hall. by right.
Qed.

Definition on_target (tgt : Z * Z) (pn : gmap string NodeWindow) : list (string * WS) :=
  base.filter (λ x, bounds x.2 = tgt) (in_order (states pn)).

Lemma shards_partition pn tgt :
  concat (shard_entries pn tgt <$> seq 0 MERGE_CACHE_SHARDS) ≡ₚ on_target tgt pn.
Proof.
  transitivity (concat ((λ s, base.filter (λ x, merge_shard x.1 = s) (on_target tgt pn)) <$>
    seq 0 MERGE_CACHE_SHARDS)).
  - apply reflexive_eq. f_equal. apply list_fmap_ext. intros i s _. unfold shard_entries, on_target.
    rewrite in_order_filter, list_filter_filter.
    by apply list_filter_iff.
  - rewrite (partition_below (λ x : string * WS, merge_shard x.1)). rewrite filter_true; [done|].
    intros x _. apply merge_shard_lt.
Qed.

(** ** Merging a shard *)

Section merging.
Context (fuel : nat) (h : HashSpec) (sk : PhysicalSketch) (r : QueryState).

(** A window of the query's parameters with the bounds [b]. *)
Definition fits (b : Z * Z) (w : WS) : Prop := like fuel r (w_state w) ∧ bounds w = b.

(** The merge of [ws]: it summarises what they summarise together. *)
Definition joins (b : Z * Z) (ws : list WS) (m : option WS) : Prop :=
  match m with
  | None => ws = []
  | Some w => ws ≠ [] ∧ fits b w ∧
      ∀ ls, Forall2 (λ w l, summary h sk (w_state w) l) ws ls → summary h sk (w_state w) (concat ls)
  end.

Lemma merge_window_fits b w w' :
  fits b w → fits b w' →
  ∃ m, merge_window (WS := QueryState_Window fuel) w w' = (Ok tt, m) ∧ fits b m ∧
    ∀ l l', summary h sk (w_state w) l → summary h sk (w_state w') l' →
      summary h sk (w_state m) (l ++ l').
Proof using.
  intros [Hl Hb] [Hl' Hb']. destruct (like_merge fuel r _ _ Hl Hl') as (s & Hm & Hs & _).
  exists (mkWindowState s (window_start_nanos w) (window_end_nanos w)).
  unfold merge_window. rewrite decide_False by (unfold bounds in *; congruence).
  cbn [ws_merge_from QueryState_Window]. rewrite Hm. split; [done|]. split; [by split|].
  intros l l' H1 H2. by eapply summary_merge.
Qed.

Lemma joins_one b w : fits b w → joins b [w] (Some w).
Proof using.
  intros Hw. split; [done|]. split; [done|]. intros ls H.
  apply Forall2_cons_inv_l in H as (l & ls' & Hl & H & ->). apply Forall2_nil_inv_l in H as ->.
  cbn. by rewrite app_nil_r.
Qed.

Lemma joins_snoc b ws w w' m :
  joins b ws (Some w) → fits b w' →
  (∀ l l', summary h sk (w_state w) l → summary h sk (w_state w') l' →
      summary h sk (w_state m) (l ++ l')) → fits b m → joins b (ws ++ [w']) (Some m).
Proof using.
  intros (Hne & Hw & Hs) Hw' Hm Hf. split; [by destruct ws|]. split; [done|]. intros ls H.
  apply Forall2_app_inv_l in H as (l1 & l2 & H1 & H2 & ->).
  apply Forall2_cons_inv_l in H2 as (l & ls' & Hl & H & ->). apply Forall2_nil_inv_l in H as ->.
  rewrite concat_app. cbn. rewrite app_nil_r. apply Hm; [by apply Hs|done].
Qed.

(** [merge_cache_shard]'s loop over a list of windows. *)
Definition tally (ws : list WS) : res (option WS * Z) := foldM (merge_into fuel) (None, 0) ws.

Lemma tally_spec b ws :
  Forall (fits b) ws → ∃ m, tally ws = Ok (m, zlen ws) ∧ joins b ws m.
Proof using.
  unfold tally. induction ws as [|w ws IH] using rev_ind; intros Hws.
  - by exists None.
  - apply Forall_app in Hws as [Hws [Hw _]%Forall_cons]. destruct (IH Hws) as (m & Ht & Hj).
    rewrite foldM_app, Ht. cbn [foldM]. ostep. rewrite zlen_app. change (zlen [w]) with 1.
    destruct m as [s|]; cbn [merge_into].
    + destruct (merge_window_fits b s w (proj1 (proj2 Hj)) Hw) as (m & -> & Hf & Hs). ostep.
      exists (Some m). split; [done|]. by eapply joins_snoc.
    + cbn [joins] in Hj. subst ws. ostep. exists (Some w). split; [done|]. by apply joins_one.
Qed.

(** The loop over the shards' summaries is the same merge. *)
Lemma merge_summaries_spec b ws : 
  Forall (fits b) ws → ∃ m, merge_summaries fuel None ws = Ok m ∧ joins b ws m.
Proof using.
  enough (∀ rest done acc, Forall (fits b) rest → joins b done acc →
    ∃ m, merge_summaries fuel acc rest = Ok m ∧ joins b (done ++ rest) m) as H
    by (intros Hws; by apply (H ws [] None)).
  clear ws. intros rest. induction rest as [|w rest IH]; intros dn acc Hr Hj; cbn [merge_summaries].
  - exists acc. by rewrite app_nil_r.
  - apply Forall_cons in Hr as [Hw Hr]. destruct acc as [s|].
    + destruct (merge_window_fits b s w (proj1 (proj2 Hj)) Hw) as (m & -> & Hf & Hs).
      destruct (IH (dn ++ [w]) (Some m) Hr) as (m' & Hm' & Hj'); [by eapply joins_snoc|].
      exists m'. split; [done|]. by rewrite <- app_assoc in Hj'.
    + cbn [joins] in Hj. subst dn. destruct (IH [w] (Some w) Hr) as (m' & Hm' & Hj'); [by apply joins_one|].
      by exists m'.
Qed.

(** Merging the merges of groups merges the groups. *)
Lemma joins_join b groups vs m :
  Forall2 (joins b) groups vs → joins b (omap id vs) m → joins b (concat groups) m.
Proof using.
  intros HF Hm.
  assert (omap id vs = [] ↔ concat groups = []) as Hnil.
  { clear Hm. induction HF as [|ws v groups vs Hv HF IH]; [done|]. cbn. destruct v as [v|]; cbn.
    - destruct Hv as (Hne & _). split; [done|]. by intros [? _]%app_nil.
    - cbn [joins] in Hv. by subst ws. }
  destruct m as [m|]; cbn [joins] in *; [|by apply Hnil].
  destruct Hm as (Hne & Hf & Hs). split; [by rewrite <- Hnil|]. split; [done|].
  intros ls Hls. clear Hne Hnil Hf.
  assert (∃ gs, Forall2 (λ w l, summary h sk (w_state w) l) (omap id vs) gs ∧ concat ls = concat gs)
    as (gs & Hgs & ->); [|by apply Hs].
  clear Hs. revert ls Hls. induction HF as [|ws v groups vs Hv HF IH]; intros ls Hls.
  - apply Forall2_nil_inv_l in Hls as ->. exists []. by split; [constructor|].
  - cbn in Hls. apply Forall2_app_inv_l in Hls as (l1 & l2 & H1 & H2 & ->).
    destruct (IH l2 H2) as (gs & Hgs & E). rewrite concat_app, E. cbn. destruct v as [v|]; cbn.
    + destruct Hv as (_ & _ & Hv). exists (concat l1 :: gs). split; [|done]. constructor; [by apply Hv|done].
    + cbn [joins] in Hv. subst ws. apply Forall2_nil_inv_l in H1 as ->. by exists gs.
Qed.
End merging.

Lemma merge_cache_shard_eq fuel pn tgt s :
  merge_cache_shard fuel pn tgt s = tally fuel (shard_entries pn tgt s).*2.
Proof.
  unfold merge_cache_shard, tally, shard_entries, states.
  rewrite in_order_filter, in_order_fmap, (filter_fmap (prod_map id nw_state)).
  rewrite <- list_fmap_compose. symmetry.
  etrans; [apply (foldM_fmap (merge_into fuel) (snd ∘ prod_map id nw_state))|]. done.
Qed.

(** ** The cache *)

Section store.
Context (fuel : nat) (fp : Footprint) (plans : list Plan) (h : HashSpec).

(** The plan of a query and the parameters of its states. *)
Definition serves (q : string) (p : Plan) (r : QueryState) : Prop :=
  find_plan plans q = Some p ∧ QueryState.build (sketch (physical p)) h = Ok r.
Definition acceptable (q : string) (w : WS) : Prop :=
  ∃ p r, serves q p r ∧ like fuel r (w_state w).

Lemma serves_unique q p r p' r' : serves q p r → serves q p' r' → p = p' ∧ r = r'.
Proof using. intros [H1 H2] [H3 H4]. rewrite H1 in H3. injection H3 as <-. rewrite H2 in H4. by apply ok_inj in H4. Qed.

Definition stored_ok (d : GatewayData) : Prop :=
  (∀ q pn, nodes d !! q = Some pn → pn ≠ ∅) ∧
  ∀ q n w, lookup_node d q n = Some w → acceptable q (nw_state w).

(** Entry [s] of the cache is what the windows [pn] give. *)
Definition shard_right (pn : gmap string NodeWindow) (tgt : Z * Z) (c : QueryMergeCache) (s : nat)
    : Prop :=
  ∃ m n, merge_cache_shard fuel pn tgt s = Ok (m, n) ∧
    shard_states c !! s = Some m ∧ shard_nodes c !! s = Some n.
Definition full (c : QueryMergeCache) : Prop :=
  length (shard_states c) = MERGE_CACHE_SHARDS ∧ length (shard_nodes c) = MERGE_CACHE_SHARDS.

Record coherent (pn : gmap string NodeWindow) (c : QueryMergeCache) : Prop := {
  co_full : full c;
  co_target : ∃ tgt, selected_window pn = Some tgt ∧ target c = Some tgt ∧
    ∀ s, (s < MERGE_CACHE_SHARDS)%nat → shard_right pn tgt c s;
  co_final : final_state c = None ∨
    merge_summaries fuel None (omap id (shard_states c)) = Ok (final_state c);
}.

(** All but the shards [ms] are right for the cache's target. *)
Definition right_but (ms : gset nat) (pn : gmap string NodeWindow) (c : QueryMergeCache) : Prop :=
  full c → ∀ tgt, target c = Some tgt → ∀ s, (s < MERGE_CACHE_SHARDS)%nat → s ∉ ms → shard_right pn tgt c s.

Definition shards_ok (ms : gset nat) : Prop := ms ≠ ∅ ∧ ∀ s, s ∈ ms → (s < MERGE_CACHE_SHARDS)%nat.

(** The nodes of a query. *)
Definition nodes_of (d : GatewayData) (q : string) : gmap string NodeWindow :=
  default ∅ (nodes d !! q).

(** The cache up to the changes that have not been refreshed yet. *)
Definition pending_query (d : GatewayData) (changed : gmap string (gset nat)) (q : string) : Prop :=
  match changed !! q with
  | Some ms => shards_ok ms ∧ ∀ c, merge_cache d !! q = Some c → right_but ms (nodes_of d q) c
  | None =>
      match nodes d !! q with
      | None => merge_cache d !! q = None
      | Some pn => ∃ c, merge_cache d !! q = Some c ∧ coherent pn c
      end
  end.
Definition pending (d : GatewayData) (changed : gmap string (gset nat)) : Prop := ∀ q, pending_query d changed q.

Lemma selected_None pn : selected_window pn = None ↔ pn = ∅.
Proof using.
  rewrite selected_window_eq, <- windows_nil. pose proof (select_spec (windows pn)) as H.
  destruct (select (windows pn)) as [[a b]|]; [|done]. split; [done|]. intros E. rewrite E in H.
  destruct H as (_ & (w & Hw & _) & _). by apply elem_of_nil in Hw.
Qed.

Lemma shard_fits d q p r pn tgt s :
  stored_ok d → serves q p r → nodes d !! q = Some pn →
  Forall (fits fuel r tgt) (shard_entries pn tgt s).*2.
Proof using.
  intros [_ Hd] Hs Hpn. apply Forall_fmap, Forall_forall. intros [n w] Hw%elem_of_in_order.
  apply map_lookup_filter_Some in Hw as [Hw [_ Hb]]. apply lookup_fmap_Some in Hw as (nw & <- & Hn).
  split; [|done]. destruct (Hd q n nw) as (p' & r' & Hs' & Hl).
  - unfold lookup_node. rewrite Hpn. done.
  - by destruct (serves_unique _ _ _ _ _ Hs Hs') as [-> ->].
Qed.

Lemma stored_serves d q pn :
  stored_ok d → nodes d !! q = Some pn → ∃ p r, serves q p r.
Proof using.
  intros [Hne Hd] Hpn. pose proof (Hne q pn Hpn) as Hpn'.
  apply map_choose in Hpn' as (n & w & Hn). destruct (Hd q n w) as (p & r & Hs & _); [|eauto].
  unfold lookup_node. by rewrite Hpn.
Qed.

Lemma rebuild_shards pn tgt c (shards : list nat) :
  (∀ s, s ∈ shards → (s < MERGE_CACHE_SHARDS)%nat) → full c →
  (∀ s, ∃ m n, merge_cache_shard fuel pn tgt s = Ok (m, n)) →
  ∃ c', foldM (rebuild_shard fuel pn tgt) c shards = Ok c' ∧ full c' ∧ target c' = target c ∧
    final_state c' = final_state c ∧
    ∀ s, (s < MERGE_CACHE_SHARDS)%nat → s ∈ shards ∨ shard_right pn tgt c s → shard_right pn tgt c' s.
Proof using.
  intros Hlt Hf Hok.
  destruct (foldM_inv (λ dn c', full c' ∧ target c' = target c ∧ final_state c' = final_state c ∧
    ∀ s, (s < MERGE_CACHE_SHARDS)%nat → s ∈ dn ∨ shard_right pn tgt c s → shard_right pn tgt c' s)
    (rebuild_shard fuel pn tgt) c shards) as (c' & H1 & H2); [| |by exists c'].
  - split_and!; [done..|]. by intros s _ [?%elem_of_nil|].
  - intros dn s rest c1 E ([F1 F2] & Ht & Hfin & Hr). destruct (Hok s) as (m & n & Hm).
    assert (s < MERGE_CACHE_SHARDS)%nat as Hs by (apply Hlt; rewrite E; set_solver).
    unfold rebuild_shard. rewrite Hm. ostep.
    rewrite vec_set_ok by (unfold zlen; lia). ostep. rewrite vec_set_ok by (unfold zlen; lia). ostep.
    rewrite Nat2Z.id. eexists. split; [done|]. unfold full. cbn [shard_states shard_nodes target final_state].
    rewrite !length_insert. split_and!; [done..|]. intros s' Hs' Hin.
    destruct (decide (s' = s)) as [->|Hne].
    + exists m, n. cbn [shard_states shard_nodes]. split_and!; [done|..]; apply list_lookup_insert_eq; lia.
    + destruct (Hr s' Hs') as (m' & n' & Hm' & G1 & G2); [set_solver|].
      exists m', n'. cbn [shard_states shard_nodes]. by rewrite !list_lookup_insert_ne by done.
Qed.

Lemma shards_in_order_elem ms s : s ∈ shards_in_order ms ↔ s ∈ ms.
Proof using. unfold shards_in_order. rewrite elem_of_sort_by. apply elem_of_elements. Qed.

Lemma refresh_query_spec d q ms :
  stored_ok d → shards_ok ms →
  (∀ c, merge_cache d !! q = Some c → right_but ms (nodes_of d q) c) →
  ∃ mc n, refresh_query_cache fuel d q ms = Ok (with_cache d mc, n) ∧
    (∀ q', q' ≠ q → mc !! q' = merge_cache d !! q') ∧
    pending_query (with_cache d mc) ∅ q.
Proof using.
  intros Hd [HS Hlt] Hc. unfold refresh_query_cache, pending_query, nodes_of in *.
  rewrite lookup_empty.
  cbn [nodes merge_cache with_cache].
  destruct (nodes d !! q) as [pn|] eqn:Hpn.
  2:{ eexists _, _. split; [done|]. split; [intros; by rewrite lookup_delete_ne|apply lookup_delete_eq]. }
  destruct (selected_window pn) as [tgt|] eqn:Hsel.
  2:{ apply selected_None in Hsel. by destruct (proj1 Hd q pn Hpn). }
  destruct (stored_serves d q pn Hd Hpn) as (p & r & Hs).
  assert (∀ s, ∃ m n, merge_cache_shard fuel pn tgt s = Ok (m, n)) as Hok.
  { intros s. rewrite merge_cache_shard_eq.
    destruct (tally_spec fuel h (sketch (physical p)) r tgt _ (shard_fits d q p r pn tgt s Hd Hs Hpn))
      as (m & Hm & _). eauto. }
  set (c0 := default QueryMergeCache_default (merge_cache d !! q)).
  set (rebuild_all := negb (bool_decide (target c0 = Some tgt)) || _ || _).
  set (c1 := if rebuild_all then _ else c0).
  set (shards := if rebuild_all then _ else _).
  assert (full c1 ∧ target c1 = Some tgt ∧ shards ≠ [] ∧ (∀ s, s ∈ shards → (s < MERGE_CACHE_SHARDS)%nat) ∧
    ∀ s, (s < MERGE_CACHE_SHARDS)%nat → s ∈ shards ∨ shard_right pn tgt c1 s)
    as (Hf & Ht & Hne & Hin & Hright).
  { subst shards c1. destruct rebuild_all eqn:Er.
    - split_and!; [by split|done|done|..].
      + intros s. rewrite elem_of_seq. lia.
      + intros s Hs'. left. rewrite elem_of_seq. lia.
    - subst rebuild_all. rewrite !orb_false_iff, !negb_false_iff, !bool_decide_eq_true in Er.
      destruct Er as [[E1 E2] E3]. assert (full c0) as Hf by by split.
      split_and!; [done|done|..].
      + intros E. apply HS, set_eq. intros s. rewrite <- shards_in_order_elem, E. set_solver.
      + intros s. rewrite shards_in_order_elem. apply Hlt.
      + intros s Hs'. rewrite shards_in_order_elem. destruct (decide (s ∈ ms)) as [|Hn]; [by left|]. right.
        unfold c0 in *. destruct (merge_cache d !! q) as [c|]; [|done].
        by apply (Hc c). }
  clearbody c0 shards c1. clear rebuild_all.
  destruct (rebuild_shards pn tgt c1 shards Hin Hf Hok) as (c2 & -> & Hf2 & Ht2 & _ & Hr2). ostep.
  destruct shards as [|s0 shards]; [done|].
  eexists _, _. split; [done|]. split; [intros; by rewrite lookup_insert_ne|].
  eexists. split; [apply lookup_insert_eq|]. split; [done| |by left].
  exists tgt. cbn [target]. split; [done|]. split; [congruence|]. intros s Hs'.
  destruct (Hr2 s Hs' (Hright s Hs')) as (m & n & Hm). by exists m, n.
Qed.

Lemma with_cache_twice d mc mc' : with_cache (with_cache d mc) mc' = with_cache d mc'.
Proof using. done. Qed.

Lemma refresh_all (l : list (string * gset nat)) d m :
  NoDup l.*1 → stored_ok d → pending d (list_to_map l) →
  ∃ mc n, foldM (refresh_step fuel) (d, m) l = Ok (with_cache d mc, n) ∧ pending (with_cache d mc) ∅.
Proof using.
  revert d m. induction l as [|[q ms] l IH]; intros d m Hnd Hd Hp.
  - exists (merge_cache d), m. by destruct d.
  - apply NoDup_cons in Hnd as [Hq Hnd]. cbn [fst] in Hq.
    pose proof (Hp q) as Hpq. unfold pending_query in Hpq. cbn [list_to_map foldr uncurry fst snd] in Hpq.
    rewrite lookup_insert_eq in Hpq. destruct Hpq as [Hms Hc].
    destruct (refresh_query_spec d q ms Hd Hms Hc) as (mc & n & Hr & Hother & Hmine).
    assert (refresh_step fuel (d, m) (q, ms) = Ok (with_cache d mc, m +ʷ n)) as Hstep
      by (unfold refresh_step; cbn [fst snd]; rewrite Hr; by ostep).
    cbn [foldM]. rewrite Hstep. ostep.
    destruct (IH (with_cache d mc) (m +ʷ n) Hnd Hd) as (mc' & n' & Hl & Hp'); [|by exists mc', n'].
    intros q'. destruct (decide (q' = q)) as [->|Hne].
    + unfold pending_query in *. rewrite lookup_empty in Hmine.
      by rewrite (not_elem_of_list_to_map_1 l q Hq).
    + specialize (Hp q'). unfold pending_query in *. cbn [list_to_map foldr uncurry fst snd] in Hp.
      rewrite lookup_insert_ne in Hp by done.
      cbn [merge_cache with_cache]. by rewrite Hother.
Qed.

Lemma refresh_changed_spec d changed :
  stored_ok d → pending d changed →
  ∃ mc n, refresh_changed_caches fuel d changed = Ok (with_cache d mc, n) ∧
    pending (with_cache d mc) ∅.
Proof using.
  intros Hd Hp. apply refresh_all; [apply NoDup_in_order|done|]. by rewrite list_to_map_in_order.
Qed.

(** ** One node's window changes *)

Lemma lookup_node_eq d q n : lookup_node d q n = nodes_of d q !! n.
Proof using. unfold lookup_node, nodes_of. by destruct (nodes d !! q). Qed.

Lemma shard_right_change pn pn' n tgt c s :
  (∀ n', n' ≠ n → states pn' !! n' = states pn !! n') → s ≠ merge_shard n →
  shard_right pn tgt c s → shard_right pn' tgt c s.
Proof using.
  intros Hn Hs (m & k & Hm & H). exists m, k. rewrite merge_cache_shard_eq in *.
  by rewrite (shard_entries_change pn pn' n).
Qed.

Lemma pending_mark d d' changed q n :
  pending d changed → merge_cache d' = merge_cache d →
  (∀ q', q' ≠ q → nodes d' !! q' = nodes d !! q') →
  (∀ n', n' ≠ n → states (nodes_of d' q) !! n' = states (nodes_of d q) !! n') →
  pending d' (mark changed q (merge_shard n)).
Proof using.
  intros Hp Hc Ho Hn q'. specialize (Hp q'). unfold pending_query, mark in *.
  destruct (decide (q' = q)) as [->|Hne].
  - rewrite lookup_insert_eq. split.
    + split; [set_solver|]. pose proof (merge_shard_lt n).
      intros s [->%elem_of_singleton|Hs]%elem_of_union; [done|].
      destruct (changed !! q) as [ms|]; [|by apply elem_of_empty in Hs].
      destruct Hp as [[_ Hms] _]. by apply Hms.
    + intros c Hcache. rewrite Hc in Hcache. intros Hf tgt Ht s Hs Hin.
      apply not_elem_of_union in Hin as [Hsh%not_elem_of_singleton Hin].
      apply (shard_right_change (nodes_of d q) _ n); [done|done|].
      destruct (changed !! q) as [ms|]; cbn [default from_option id] in Hin.
      * destruct Hp as [_ Hp]. by apply (Hp c Hcache).
      * unfold nodes_of. destruct (nodes d !! q) as [pn|]; [|congruence].
        destruct Hp as (c' & Hc' & [_ (tgt' & _ & Ht' & Hr) _]).
        assert (c' = c) as -> by congruence. assert (tgt' = tgt) as -> by congruence. by apply Hr.
  - rewrite lookup_insert_ne by done. rewrite Hc. unfold nodes_of. by rewrite Ho.
Qed.

(** ** Accounting

    A state's size is a [u64], as [memory_bytes] returns it. *)
Context (Hmem : ∀ w, u64_ok (mem fp w)).

Definition bytes_of (pn : gmap string NodeWindow) : Z := msum (λ _ nw, mem fp (nw_state nw)) pn.
Definition total (ns : gmap string (gmap string NodeWindow)) : Z := msum (λ _ pn, bytes_of pn) ns.

Lemma total_set ns q pn :
  total (<[q := pn]> ns) = total ns - bytes_of (default ∅ (ns !! q)) + bytes_of pn.
Proof using.
  unfold total. destruct (ns !! q) as [old|] eqn:E; cbn [default from_option id].
  - rewrite (msum_insert _ ns q old pn E). lia.
  - rewrite msum_insert_new by done. unfold bytes_of. rewrite msum_empty. lia.
Qed.

Lemma bytes_set pn n w :
  bytes_of (<[n := w]> pn) =
    bytes_of pn - match pn !! n with Some old => mem fp (nw_state old) | None => 0 end +
    mem fp (nw_state w).
Proof using.
  unfold bytes_of. destruct (pn !! n) as [old|] eqn:E.
  - rewrite (msum_insert _ pn n old w E). lia.
  - rewrite msum_insert_new by done. lia.
Qed.

Lemma bytes_remove pn n w :
  pn !! n = Some w → bytes_of (delete n pn) = bytes_of pn - mem fp (nw_state w).
Proof using. intros E. unfold bytes_of. rewrite (msum_delete _ pn n w E). lia. Qed.

Lemma bytes_nonneg pn : 0 <= bytes_of pn.
Proof using Hmem. apply msum_nonneg. intros k x _. apply Hmem. Qed.

Lemma mem_le_total d q n w :
  lookup_node d q n = Some w → mem fp (nw_state w) <= total (nodes d).
Proof using Hmem.
  intros H. unfold lookup_node in H. destruct (nodes d !! q) as [pn|] eqn:E; [|done].
  transitivity (bytes_of pn).
  - apply (msum_elem_le (λ _ nw, mem fp (nw_state nw)) pn n w); [intros; apply Hmem|done].
  - apply (msum_elem_le (λ _ pn, bytes_of pn) (nodes d) q pn); [intros; apply bytes_nonneg|done].
Qed.

(** ** Eviction *)

(** What the loops of an operation keep between refreshes. *)
Record loop_inv (d : GatewayData) (changed : gmap string (gset nat)) : Prop := {
  li_ok : ∀ q n w, lookup_node d q n = Some w → acceptable q (nw_state w);
  li_bytes : retained_sketch_bytes d = total (nodes d);
  li_pending : pending d changed;
  li_empty : ∀ q, nodes d !! q = Some ∅ → is_Some (changed !! q);
}.

Lemma mark_lookup changed q s q' : is_Some (changed !! q') ∨ q' = q → is_Some (mark changed q s !! q').
Proof using.
  unfold mark. destruct (decide (q' = q)) as [->|Hne]; [rewrite lookup_insert_eq; by eexists|].
  rewrite lookup_insert_ne by done. by intros [?|?].
Qed.

Lemma evict_node_spec d changed q n :
  loop_inv d changed →
  let '(d', changed') := evict_node fp q (d, changed) n in
  loop_inv d' changed' ∧
  (∀ q', q' ≠ q → nodes d' !! q' = nodes d !! q') ∧
  ∀ n', lookup_node d' q n' = if decide (n' = n) then None else lookup_node d q n'.
Proof using Hmem.
  intros [Hok Hb Hp He]. unfold evict_node. fold (nodes_of d q).
  destruct (nodes_of d q !! n) as [w|] eqn:Hw.
  - assert (∀ n', lookup_node (with_nodes d (<[q := delete n (nodes_of d q)]> (nodes d))
      (sat_sub64 (retained_sketch_bytes d) (mem fp (nw_state w)))) q n' =
        if decide (n' = n) then None else lookup_node d q n') as Hl.
    { intros n'. rewrite !lookup_node_eq. unfold nodes_of at 1. cbn [nodes with_nodes].
      rewrite lookup_insert_eq. cbn [default from_option id]. case_decide as E.
      - subst. apply lookup_delete_eq.
      - by rewrite lookup_delete_ne. }
    assert (∀ q', q' ≠ q → <[q := delete n (nodes_of d q)]> (nodes d) !! q' = nodes d !! q') as Ho
      by (intros; by rewrite lookup_insert_ne).
    split_and!; [|done|done]. split.
    + intros q' n' w' H. destruct (decide (q' = q)) as [->|Hne].
      * rewrite Hl in H. case_decide; [done|]. by apply (Hok q n').
      * apply (Hok q' n'). rewrite <- H. unfold lookup_node. cbn [nodes with_nodes]. by rewrite Ho.
    + cbn [retained_sketch_bytes nodes with_nodes]. rewrite total_set, (bytes_remove _ n w) by done.
      fold (nodes_of d q). rewrite Hb. unfold sat_sub64.
      pose proof (mem_le_total d q n w ltac:(by rewrite lookup_node_eq)). lia.
    + eapply pending_mark; [done|done|done|]. intros n' Hne.
      unfold nodes_of at 1. cbn [nodes with_nodes]. rewrite lookup_insert_eq. cbn [default from_option id].
      unfold states. by rewrite !lookup_fmap, lookup_delete_ne.
    + intros q' H. apply mark_lookup. destruct (decide (q' = q)); [by right|left].
      apply He. by rewrite <- Ho.
  - split_and!; [|done|].
    + split; [done|done| |].
      * by eapply pending_mark.
      * intros q' H. apply mark_lookup. left. by apply He.
    + intros n'. case_decide as E; [|done]. subst. by rewrite lookup_node_eq.
Qed.

Lemma evict_nodes_spec q ns d changed :
  loop_inv d changed →
  let '(d', changed') := foldl (evict_node fp q) (d, changed) ns in
  loop_inv d' changed' ∧
  (∀ q', q' ≠ q → nodes d' !! q' = nodes d !! q') ∧
  ∀ n', lookup_node d' q n' = if decide (n' ∈ ns) then None else lookup_node d q n'.
Proof using Hmem.
  revert d changed. induction ns as [|n ns IH]; intros d changed H.
  - cbn [foldl]. split_and!; [done|done|]. intros n'. by rewrite decide_False by apply not_elem_of_nil.
  - cbn [foldl]. pose proof (evict_node_spec d changed q n H) as H1.
    destruct (evict_node fp q (d, changed) n) as [d1 changed1]. destruct H1 as (H1 & Ho1 & Hl1).
    pose proof (IH d1 changed1 H1) as H2.
    destruct (foldl (evict_node fp q) (d1, changed1) ns) as [d2 changed2].
    destruct H2 as (H2 & Ho2 & Hl2). split_and!; [done|intros; by rewrite Ho2, Ho1|].
    intros n'. rewrite Hl2, Hl1. destruct (decide (n' ∈ ns)) as [Hin|Hin].
    + by rewrite decide_True by by right.
    + destruct (decide (n' = n)) as [->|Hne]; [by rewrite decide_True by by left|].
      by rewrite decide_False by (by intros [?|?]%elem_of_cons).
Qed.

(** The windows that are still fresh at the clock's readings. *)
Definition fresh_node (clock : string → string → Z) (cutoff : Z) (d : GatewayData) (q n : string)
    : option NodeWindow :=
  match lookup_node d q n with
  | Some w => if is_stale (clock q n) cutoff w then None else Some w
  | None => None
  end.

Lemma elem_of_stale clock cutoff q pn n :
  n ∈ stale_nodes clock cutoff q pn ↔ ∃ w, pn !! n = Some w ∧ is_stale (clock q n) cutoff w = true.
Proof using.
  unfold stale_nodes. rewrite list_elem_of_fmap. split.
  - intros ([n' w] & -> & [Hs Hn]%list_elem_of_filter). apply elem_of_in_order in Hn. eauto.
  - intros (w & Hn & Hs). exists (n, w). split; [done|]. apply list_elem_of_filter.
    split; [done|]. by apply elem_of_in_order.
Qed.

Lemma evict_query_spec clock cutoff q pn d changed :
  loop_inv d changed → nodes d !! q = Some pn →
  let '(d', changed') := evict_query fp clock cutoff (d, changed) (q, pn) in
  loop_inv d' changed' ∧
  (∀ q', q' ≠ q → nodes d' !! q' = nodes d !! q') ∧
  ∀ n, lookup_node d' q n = fresh_node clock cutoff d q n.
Proof using Hmem.
  intros H Hpn. unfold evict_query. cbn [fst snd].
  pose proof (evict_nodes_spec q (stale_nodes clock cutoff q pn) d changed H) as He.
  destruct (foldl _ _ _) as [d' changed']. destruct He as (H' & Ho & Hl). split_and!; [done|done|].
  intros n. rewrite Hl. unfold fresh_node.
  assert (lookup_node d q n = pn !! n) as -> by (unfold lookup_node; by rewrite Hpn).
  destruct (pn !! n) as [w|] eqn:E; [|by case_decide].
  destruct (is_stale (clock q n) cutoff w) eqn:Es.
  - rewrite decide_True; [done|]. apply elem_of_stale. by exists w.
  - rewrite decide_False; [done|]. rewrite elem_of_stale. intros (w' & E' & Es'). congruence.
Qed.

Lemma evict_queries_spec clock cutoff (l : list (string * gmap string NodeWindow)) d changed :
  loop_inv d changed → NoDup l.*1 → (∀ q pn, (q, pn) ∈ l → nodes d !! q = Some pn) →
  let '(d', changed') := foldl (evict_query fp clock cutoff) (d, changed) l in
  loop_inv d' changed' ∧
  ∀ q n, lookup_node d' q n =
    if decide (q ∈ l.*1) then fresh_node clock cutoff d q n else lookup_node d q n.
Proof using Hmem.
  revert d changed. induction l as [|[q0 pn0] l IH]; intros d changed H Hnd Hl; cbn [foldl].
  - split; [done|]. intros q n. by rewrite decide_False by apply not_elem_of_nil.
  - apply NoDup_cons in Hnd as [Hq0 Hnd]. cbn [fst] in Hq0.
    pose proof (evict_query_spec clock cutoff q0 pn0 d changed H (Hl q0 pn0 ltac:(by left))) as H1.
    destruct (evict_query fp clock cutoff (d, changed) (q0, pn0)) as [d1 changed1].
    destruct H1 as (H1 & Ho1 & Hl1). pose proof (IH d1 changed1 H1 Hnd) as H2.
    destruct (foldl (evict_query fp clock cutoff) (d1, changed1) l) as [d2 changed2].
    destruct H2 as [H2 Hl2].
    { intros q pn Hin. rewrite Ho1; [apply Hl; by right|]. intros ->. apply Hq0. by apply (list_elem_of_fmap_2 fst l (q0, pn)). }
    split; [done|]. intros q n. rewrite Hl2. cbn [fmap list_fmap fst].
    destruct (decide (q = q0)) as [->|Hne].
    + rewrite decide_False by done. rewrite decide_True by by left. apply Hl1.
    + assert (∀ n, lookup_node d1 q n = lookup_node d q n) as E
        by (intros n'; unfold lookup_node; by rewrite Ho1).
      destruct (decide (q ∈ l.*1)) as [Hin|Hin].
      * rewrite decide_True by by right. unfold fresh_node. by rewrite E.
      * rewrite decide_False by (by intros [?|?]%elem_of_cons). apply E.
Qed.

(** The store after an operation: what its invariant says of the data. *)
Record data_inv (d : GatewayData) : Prop := {
  di_ok : stored_ok d;
  di_bytes : retained_sketch_bytes d = total (nodes d);
  di_cache : pending d ∅;
}.

Lemma data_inv_new : data_inv GatewayData_default.
Proof using.
  split.
  - split; intros q; cbn; [by intros pn|]. intros n w. unfold lookup_node. cbn. by rewrite lookup_empty.
  - unfold total. cbn. by rewrite msum_empty.
  - intros q. unfold pending_query. cbn. by rewrite !lookup_empty.
Qed.

Lemma data_inv_loop d : data_inv d → loop_inv d ∅.
Proof using.
  intros [[Hne Hok] Hb Hp]. split; [done|done|done|]. intros q H. by apply Hne in H.
Qed.

Lemma evict_stale_spec clock cutoff d :
  data_inv d →
  let '(d', changed) := evict_stale fp clock cutoff d in
  loop_inv d' changed ∧ stored_ok d' ∧
  ∀ q n, lookup_node d' q n = fresh_node clock cutoff d q n.
Proof using Hmem.
  intros Hd. unfold evict_stale.
  pose proof (evict_queries_spec clock cutoff (in_order (nodes d)) d ∅ (data_inv_loop d Hd)
    (NoDup_in_order _) ltac:(intros q pn; apply elem_of_in_order)) as H.
  destruct (foldl _ _ _) as [d1 changed]. destruct H as [[Hok Hb Hp He] Hl].
  set (ns := base.filter (λ x : string * gmap string NodeWindow, x.2 ≠ ∅) (nodes d1)).
  assert (∀ q, default ∅ (ns !! q) = nodes_of d1 q) as Hns.
  { intros q. unfold ns, nodes_of. destruct (nodes d1 !! q) as [pn|] eqn:E.
    - destruct (decide (pn = ∅)) as [->|Hpn].
      + by rewrite map_lookup_filter_None_2 by (right; intros x; rewrite E; intros [= <-]; cbn; auto).
      + by rewrite (map_lookup_filter_Some_2 _ _ q pn) by done.
    - by rewrite map_lookup_filter_None_2 by by left. }
  set (d2 := with_nodes d1 ns (retained_sketch_bytes d1)).
  assert (∀ q n, lookup_node d2 q n = lookup_node d1 q n) as Hl2.
  { intros q n. rewrite !lookup_node_eq. unfold nodes_of at 1, d2. cbn [nodes with_nodes]. by rewrite Hns. }
  assert (∀ q pn, ns !! q = Some pn → pn ≠ ∅) as Hne.
  { intros q pn Hpn. by apply map_lookup_filter_Some in Hpn as [_ Hpn]. }
  assert (∀ q n, lookup_node d2 q n = fresh_node clock cutoff d q n) as Hfresh.
  { intros q n. rewrite Hl2, Hl. case_decide as E; [done|]. unfold fresh_node.
    destruct (lookup_node d q n) as [w|] eqn:Ew; [|done]. exfalso. apply E.
    unfold lookup_node in Ew. destruct (nodes d !! q) as [pn|] eqn:Eq; [|done].
    apply (list_elem_of_fmap_2 fst (in_order (nodes d)) (q, pn)). by apply elem_of_in_order. }
  split_and!; [|split; [exact Hne|intros q n w; rewrite Hl2; apply Hok]|done].
  split.
  - intros q n w. rewrite Hl2. apply Hok.
  - cbn [retained_sketch_bytes nodes with_nodes d2]. rewrite Hb. unfold total, ns. symmetry. apply msum_filter.
    intros q pn _ Hn. cbn in Hn. apply dec_stable in Hn. rewrite Hn. apply msum_empty.
  - intros q. specialize (Hp q). unfold pending_query in *. cbn [nodes merge_cache with_nodes d2].
    destruct (changed !! q) as [ms|] eqn:Ec.
    + destruct Hp as [Hms Hp]. split; [done|]. unfold nodes_of at 1, d2. cbn [nodes with_nodes]. by rewrite Hns.
    + unfold ns. destruct (nodes d1 !! q) as [pn|] eqn:E.
      * destruct (decide (pn = ∅)) as [->|Hpn].
        -- apply He in E as [ms E]. congruence.
        -- by rewrite (map_lookup_filter_Some_2 _ _ q pn) by done.
      * by rewrite map_lookup_filter_None_2 by by left.
  - intros q H. cbn [nodes with_nodes d2] in H. by apply Hne in H.
Qed.

(** Eviction and the refresh that follows it. *)
Lemma sweep_spec clock cutoff d :
  data_inv d → ∃ d' rebuilds,
    (let '(d1, changed) := evict_stale fp clock cutoff d in
     refresh_changed_caches fuel d1 changed) = Ok (d', rebuilds) ∧
    data_inv d' ∧ ∀ q n, lookup_node d' q n = fresh_node clock cutoff d q n.
Proof using Hmem.
  intros Hd. pose proof (evict_stale_spec clock cutoff d Hd) as H.
  destruct (evict_stale fp clock cutoff d) as [d1 changed]. destruct H as ([Hok Hb Hp _] & Hs & Hl).
  destruct (refresh_changed_spec d1 changed Hs Hp) as (mc & n & Hr & Hp').
  exists (with_cache d1 mc), n. split; [done|]. split; [by split|]. intros q n'. by rewrite <- Hl.
Qed.

(** ** Storing a window *)

Lemma shard_entries_states pn pn' tgt s :
  states pn' = states pn → shard_entries pn' tgt s = shard_entries pn tgt s.
Proof using. intros E. unfold shard_entries. by rewrite E. Qed.

(** Arrival times do not matter to the cache. *)
Lemma pending_touch d d' changed :
  pending d changed → merge_cache d' = merge_cache d →
  (∀ q, states <$> nodes d' !! q = states <$> nodes d !! q) → pending d' changed.
Proof using.
  intros Hp Hc Hn q. specialize (Hp q). specialize (Hn q). unfold pending_query in *. rewrite Hc.
  assert (∀ pn pn' tgt c s, states pn' = states pn → shard_right pn tgt c s → shard_right pn' tgt c s) as Hr.
  { intros pn pn' tgt c s E (m & n & Hm & H). exists m, n. rewrite merge_cache_shard_eq in *.
    by rewrite (shard_entries_states pn pn'). }
  assert (states (nodes_of d' q) = states (nodes_of d q)) as En.
  { unfold nodes_of. destruct (nodes d !! q), (nodes d' !! q);
      cbn [fmap option_fmap option_map default from_option id] in *; congruence. }
  destruct (changed !! q) as [ms|].
  - destruct Hp as [Hms Hp]. split; [done|]. intros c Hcache Hf tgt Ht s Hs Hin.
    apply (Hr (nodes_of d q)); [done|]. by apply (Hp c).
  - destruct (nodes d' !! q) as [pn'|], (nodes d !! q) as [pn|];
      cbn [fmap option_fmap option_map] in Hn; try done.
    injection Hn as Hn. destruct Hp as (c & Hcache & [Hf (tgt & Hsel & Ht & Hs) Hfin]).
    exists c. split; [done|]. split; [done| |done]. exists tgt. split; [|split; [done|]].
    + rewrite <- Hsel, !selected_window_eq. unfold windows. by rewrite Hn.
    + intros s Hlt. apply (Hr pn); [done|]. by apply Hs.
Qed.

Lemma lookup_insert_node d q n w b q' n' :
  lookup_node (insert_node d q n w b) q' n' =
    if decide (q' = q ∧ n' = n) then Some w else lookup_node d q' n'.
Proof using.
  unfold lookup_node, insert_node. cbn [nodes with_nodes].
  destruct (decide (q' = q)) as [->|Hq].
  - rewrite lookup_insert_eq. cbn. destruct (decide (n' = n)) as [->|Hn].
    + rewrite decide_True by done. apply lookup_insert_eq.
    + rewrite decide_False by naive_solver. rewrite lookup_insert_ne by done.
      destruct (nodes d !! q); [done|]. cbn. by rewrite lookup_empty.
  - rewrite decide_False by naive_solver. by rewrite lookup_insert_ne.
Qed.

(** The loop of [apply_batch] between two windows. *)
Record batch_inv (max : Z) (a : Applied) : Prop := {
  bi_loop : loop_inv (ap_data a) (ap_changed a);
  bi_stored : stored_ok (ap_data a);
  bi_max : retained_sketch_bytes (ap_data a) <= max;
}.

(** The bytes [w] would replace. *)
Definition held (d : GatewayData) (q n : string) : Z :=
  match lookup_node d q n with Some o => mem fp (nw_state o) | None => 0 end.
Definition has_room (max : Z) (d : GatewayData) (q n : string) (w : WS) : bool :=
  retained_sketch_bytes d - held d q n + mem fp w <=? max.

Lemma insert_stored d q n w b :
  stored_ok d → acceptable q (nw_state w) → stored_ok (insert_node d q n w b).
Proof using.
  intros [Hne Hok] Hw. split.
  - intros q' pn H. unfold insert_node in H. cbn [nodes with_nodes] in H.
    apply lookup_insert_Some in H as [[<- <-]|[_ H]]; [apply insert_non_empty|by apply Hne in H].
  - intros q' n' w' H. rewrite lookup_insert_node in H. case_decide as E; [|by apply (Hok q' n')].
    injection H as <-. by destruct E as [-> _].
Qed.

Lemma insert_total d q n w b :
  total (nodes (insert_node d q n w b)) = total (nodes d) - held d q n + mem fp (nw_state w).
Proof using.
  unfold insert_node, held. cbn [nodes with_nodes]. rewrite total_set, bytes_set, lookup_node_eq.
  unfold nodes_of. lia.
Qed.

Lemma stored_not_empty d q : stored_ok d → nodes d !! q ≠ Some ∅.
Proof using. intros [Hne _] H. by apply Hne in H. Qed.

(** What happens to the entry of the pushing node. *)
Definition stored_after (max now : Z) (d : GatewayData) (q n : string) (w : WS) : option NodeWindow :=
  match lookup_node d q n with
  | Some o =>
      if window_end_nanos w <? window_end_nanos (nw_state o)
      then Some (mkNodeWindow now (nw_state o))
      else if has_room max d q n w then Some (mkNodeWindow now w) else Some o
  | None => if has_room max d q n w then Some (mkNodeWindow now w) else None
  end.

Lemma replace_window_spec max node now a q w :
  batch_inv max a → max <= u64_max → acceptable q w →
  let a' := replace_window fp max node now a q w (held (ap_data a) q node) in
  batch_inv max a' ∧
  ∀ q' n', lookup_node (ap_data a') q' n' =
    if decide (q' = q ∧ n' = node ∧ has_room max (ap_data a) q node w = true)
    then Some (mkNodeWindow now w) else lookup_node (ap_data a) q' n'.
Proof using Hmem.
  intros [Hl Hs Hm] Hmax Hw. set (d := ap_data a) in *. pose proof (li_bytes _ _ Hl) as Hb.
  pose proof (Hmem w) as Hmw.
  assert (held d q node <= retained_sketch_bytes d) as Hheld.
  { rewrite Hb. unfold held. destruct (lookup_node d q node) as [o|] eqn:E; [by eapply mem_le_total|].
    apply msum_nonneg. intros; apply bytes_nonneg. }
  assert (has_room max d q node w = true → replace_window fp max node now a q w (held d q node) =
    mkApplied (insert_node d q node (mkNodeWindow now w) (retained_sketch_bytes d - held d q node + mem fp w))
      (mark (ap_changed a) q (merge_shard node)) (ap_accepted a +ʷ 1) (ap_budget a) (ap_rejected a)) as Hyes.
  { intros Hr%Z.leb_le. unfold replace_window, projected_bytes. fold d.
    rewrite (proj2 (Z.ltb_ge _ _)) by lia. rewrite (proj2 (Z.ltb_ge _ _)) by lia.
    by rewrite (proj2 (Z.ltb_ge _ _)) by lia. }
  assert (has_room max d q node w = false → ∃ why,
    replace_window fp max node now a q w (held d q node) = refuse a why) as Hno.
  { intros Hr%Z.leb_gt. unfold replace_window, projected_bytes. fold d.
    rewrite (proj2 (Z.ltb_ge _ _)) by lia.
    destruct (u64_max <? _); [by eexists|]. rewrite (proj2 (Z.ltb_lt max _)) by lia. by eexists. }
  cbv zeta. destruct (has_room max d q node w) eqn:Hroom.
  - rewrite Hyes by done. clear Hyes Hno. cbn [ap_data]. apply Z.leb_le in Hroom. split.
    + split; cbn [ap_data ap_changed].
      * split.
        -- by apply insert_stored.
        -- rewrite insert_total. cbn [insert_node with_nodes retained_sketch_bytes nw_state]. lia.
        -- eapply pending_mark; [apply Hl|done|intros; by apply lookup_insert_ne|].
           intros n' Hne. unfold nodes_of at 1, insert_node. cbn [nodes with_nodes].
           rewrite lookup_insert_eq. cbn [default from_option id]. unfold states.
           by rewrite !lookup_fmap, lookup_insert_ne.
        -- intros q' H. destruct (stored_not_empty (insert_node d q node (mkNodeWindow now w)
             (retained_sketch_bytes d - held d q node + mem fp w)) q'); [by apply insert_stored|done].
      * by apply insert_stored.
      * cbn. lia.
    + intros q' n'. rewrite lookup_insert_node. repeat case_decide; naive_solver.
  - destruct (Hno eq_refl) as [why ->]. split; [by split|].
    intros q' n'. rewrite decide_False by naive_solver. done.
Qed.

Lemma apply_window_spec max node now a q w :
  batch_inv max a → max <= u64_max → acceptable q w →
  let a' := apply_window fp max node now a (q, w) in
  batch_inv max a' ∧
  ∀ q' n', lookup_node (ap_data a') q' n' =
    if decide (q' = q ∧ n' = node) then stored_after max now (ap_data a) q node w
    else lookup_node (ap_data a) q' n'.
Proof using Hmem.
  intros Ha Hmax Hw. pose proof (replace_window_spec max node now a q w Ha Hmax Hw) as Hrep.
  unfold apply_window, stored_after in *. cbv zeta in *. set (d := ap_data a) in *.
  unfold held in Hrep at 1 2.
  destruct (lookup_node d q node) as [o|] eqn:Eo.
  - destruct (Z.ltb_spec (window_end_nanos w) (window_end_nanos (nw_state o))) as [Hlt|Hge].
    + destruct Ha as [[Hok Hb Hp He] Hs Hm]. cbn [ap_data]. split.
      * assert (stored_ok (insert_node d q node (mkNodeWindow now (nw_state o)) (retained_sketch_bytes d))) as Hs'.
        { apply insert_stored; [done|]. exact (Hok q node o Eo). }
        split; [|exact Hs'|exact Hm]. cbn [ap_data ap_changed]. split.
        -- apply Hs'.
        -- rewrite insert_total. unfold held. rewrite Eo. cbn [nw_state insert_node with_nodes retained_sketch_bytes].
           fold d in Hb. lia.
        -- eapply pending_touch; [exact Hp|done|]. intros q'. unfold insert_node. cbn [nodes with_nodes].
           destruct (decide (q' = q)) as [->|Hne]; [|by rewrite lookup_insert_ne].
           rewrite lookup_insert_eq. unfold lookup_node in Eo. fold d.
           destruct (nodes d !! q) as [pn|]; [|done]. cbn in Eo. cbn [default from_option id fmap option_fmap option_map].
           f_equal. unfold states. rewrite fmap_insert. cbn [nw_state]. apply insert_id.
           by rewrite lookup_fmap, Eo.
        -- intros q' H. by destruct (stored_not_empty _ q' Hs').
      * intros q' n'. by rewrite lookup_insert_node.
    + destruct Hrep as [H1 H2]. split; [exact H1|]. intros q' n'. rewrite H2.
      destruct (decide (q' = q ∧ n' = node)) as [[-> ->]|Hne].
      * destruct (has_room max d q node w); [by rewrite decide_True|rewrite decide_False by naive_solver; done].
      * by rewrite decide_False by naive_solver.
  - destruct Hrep as [H1 H2]. split; [exact H1|]. intros q' n'. rewrite H2.
    destruct (decide (q' = q ∧ n' = node)) as [[-> ->]|Hne].
    + destruct (has_room max d q node w); [by rewrite decide_True|rewrite decide_False by naive_solver; done].
    + by rewrite decide_False by naive_solver.
Qed.

(** ** Nodes *)

Definition tracked (d : GatewayData) : gset string :=
  ⋃ ((λ x : string * gmap string NodeWindow, dom x.2) <$> map_to_list (nodes d)).

Lemma elem_of_tracked d n : n ∈ tracked d ↔ ∃ q, is_Some (lookup_node d q n).
Proof using.
  unfold tracked. rewrite elem_of_union_list. split.
  - intros (x & Hx & Hn). apply list_elem_of_fmap in Hx as ([q pn] & -> & Hq%elem_of_map_to_list).
    exists q. unfold lookup_node. rewrite Hq. by apply elem_of_dom in Hn.
  - intros [q Hn]. unfold lookup_node in Hn. destruct (nodes d !! q) as [pn|] eqn:E; [|by destruct Hn].
    exists (dom pn). split; [|by apply elem_of_dom].
    apply list_elem_of_fmap. exists (q, pn). split; [done|]. by apply elem_of_map_to_list.
Qed.

Lemma known_node_spec d n : known_node d n = true ↔ n ∈ tracked d.
Proof using.
  unfold known_node. rewrite existsb_exists, elem_of_tracked. split.
  - intros ([q pn] & Hq & Hn%bool_decide_eq_true). apply list_elem_of_In, elem_of_in_order in Hq.
    exists q. unfold lookup_node. by rewrite Hq.
  - intros [q Hn]. unfold lookup_node in Hn. destruct (nodes d !! q) as [pn|] eqn:E; [|by destruct Hn].
    exists (q, pn). split; [by apply list_elem_of_In, elem_of_in_order|by apply bool_decide_eq_true].
Qed.

(** ** Validating a batch *)

(** The components of a query, in the order of the batch. *)
Definition components_of (q : string) (es : list PushEntry) : list (string * bytes) :=
  (λ e, (component e, snapshot e)) <$> base.filter (λ e, query_name e = q) es.

Lemma by_query_spec es q :
  by_query es !! q = match components_of q es with [] => None | l => Some l end.
Proof using.
  unfold by_query. induction es as [|e es IH] using rev_ind; [cbn [foldl]; by rewrite lookup_empty|].
  rewrite foldl_app. cbn [foldl]. unfold add_component, components_of in *.
  rewrite filter_app, fmap_app, filter_cons, filter_nil.
  destruct (decide (query_name e = q)) as [<-|Hne].
  - rewrite lookup_insert_eq. unfold components_of in IH. rewrite IH. cbn [fmap list_fmap].
    by destruct ((λ e0, (component e0, snapshot e0)) <$> base.filter (λ e0, query_name e0 = query_name e) es).
  - rewrite lookup_insert_ne by done. rewrite IH. cbn [fmap list_fmap]. by rewrite app_nil_r.
Qed.

Lemma by_query_size es : Z.of_nat (size (by_query es)) <= zlen es.
Proof using.
  unfold by_query. induction es as [|e es IH] using rev_ind; [done|].
  rewrite foldl_app. cbn [foldl]. unfold add_component at 1. rewrite map_size_insert, zlen_app.
  change (zlen [e]) with 1. case_match; cbn; lia.
Qed.

(** What the theorems ask of the plans and of a batch: the plans are ones the
    runtime executes; the snapshots are bytes; the descriptors of keyed maps do
    not collide. *)
Definition plans_ok : Prop := Forall (λ p, supported fuel (sketch (physical p))) plans.
Definition batch_trusted (b : PushBatch) : Prop :=
  Forall (λ e, bytes_ok (snapshot e)) (entries b) ∧
  ∀ q p, find_plan plans q = Some p → no_collision fuel p h (components_of q (entries b)).

Lemma find_plan_spec q p : find_plan plans q = Some p → p ∈ plans ∧ q_name (query p) = q.
Proof using.
  intros H. unfold find_plan in H. apply find_some in H as [H1 H2%String.eqb_eq].
  by apply list_elem_of_In in H1.
Qed.

(** What [apply_batch] does with one query's components. *)
Definition validates (es : list PushEntry) (q : string) (w : WS) : Prop :=
  ∃ p, find_plan plans q = Some p ∧ from_components fuel p h (components_of q es) = Ok w.

Lemma validate_spec b :
  plans_ok → batch_trusted b →
  ∃ valid rejected, foldM (validate fuel plans h) ([], []) (in_order (by_query (entries b))) =
      Ok (valid, rejected) ∧
    Forall (λ x, acceptable x.1 x.2) valid ∧ Forall (λ x, validates (entries b) x.1 x.2) valid ∧
    zlen valid + zlen rejected = Z.of_nat (size (by_query (entries b))).
Proof using.
  clear Hmem fp. intros Hp [Hb Hc].
  destruct (foldM_inv (λ dn acc, Forall (λ x, acceptable x.1 x.2) acc.1 ∧
      Forall (λ x, validates (entries b) x.1 x.2) acc.1 ∧ zlen acc.1 + zlen acc.2 = zlen dn)
    (validate fuel plans h) ([], []) (in_order (by_query (entries b))))
    as ([valid rej] & H1 & H2 & H3 & H4); [by split_and!| |].
  2:{ exists valid, rej. split_and!; [done..|]. cbn [fst snd] in H4. rewrite H4. unfold zlen. by rewrite length_in_order. }
  intros dn [q comps] rest [valid rej] E (Hv1 & Hv2 & Hn). cbn [fst snd] in Hn.
  unfold validate. cbn [fst snd].
  assert (comps = components_of q (entries b)) as ->.
  { assert ((q, comps) ∈ in_order (by_query (entries b))) as Hin by (rewrite E; set_solver).
    apply elem_of_in_order in Hin. rewrite by_query_spec in Hin.
    destruct (components_of q (entries b)); [done|by injection Hin]. }
  destruct (find_plan plans q) as [p|] eqn:Ep.
  2:{ eexists. split; [done|]. cbn [fst snd]. split_and!; [done..|]. rewrite !zlen_app. change (zlen [_]) with 1. lia. }
  destruct (find_plan_spec q p Ep) as [Hin _].
  assert (supported fuel (sketch (physical p))) as Hsup by (unfold plans_ok in Hp; rewrite Forall_forall in Hp; auto).
  assert (Forall (λ x, bytes_ok x.2) (components_of q (entries b))) as Hcb.
  { unfold components_of. apply Forall_fmap, Forall_forall. intros e [_ He]%list_elem_of_filter.
    rewrite Forall_forall in Hb. by apply Hb. }
  destruct (restore_spec fuel p h (components_of q (entries b)) Hsup Hcb (Hc q p Ep)) as [Hnp Hok].
  destruct (from_components fuel p h (components_of q (entries b))) as [w|e|] eqn:Ew; [| |done].
  2:{ eexists. split; [done|]. cbn [fst snd]. split_and!; [done..|]. rewrite !zlen_app. change (zlen [_]) with 1. lia. }
  eexists. split; [done|]. cbn [fst snd]. rewrite !Forall_app, !Forall_singleton. split_and!; try done.
  - destruct (Hok w eq_refl) as (r & Hr & Hl). by exists p, r.
  - by exists p.
  - rewrite !zlen_app. change (zlen [_]) with 1. lia.
Qed.

(** ** The service's operations *)

Record inv (g : GatewayState) : Prop := {
  iv_plans : Gateway.plans g = plans ∧ g_hash g = h;
  iv_data : data_inv (data g);
  iv_limits : max_retained_sketch_bytes g <= u64_max;
  iv_bytes : retained_sketch_bytes (data g) <= max_retained_sketch_bytes g;
  iv_nodes : unique_node_count (nodes (data g)) <= max_nodes g;
}.

Lemma fresh_tracked clock cutoff d d' :
  (∀ q n, lookup_node d' q n = fresh_node clock cutoff d q n) → tracked d' ⊆ tracked d.
Proof using.
  intros Hl n. rewrite !elem_of_tracked. intros [q [w Hw]]. exists q. rewrite Hl in Hw.
  unfold fresh_node in Hw. destruct (lookup_node d q n); [by eexists|done].
Qed.

Lemma fresh_total clock cutoff d d' :
  data_inv d → data_inv d' → (∀ q n, lookup_node d' q n = fresh_node clock cutoff d q n) →
  retained_sketch_bytes d' <= retained_sketch_bytes d.
Proof using Hmem.
  intros Hd Hd' Hl. rewrite (di_bytes _ Hd), (di_bytes _ Hd'). unfold total.
  transitivity (msum (λ q _, bytes_of (nodes_of d q)) (nodes d')).
  - apply msum_le. intros q pn Hpn. unfold bytes_of.
    transitivity (msum (λ n _, default 0 (mem fp ∘ nw_state <$> nodes_of d q !! n)) pn).
    + apply Z.eq_le_incl, msum_ext. intros n w Hn. rewrite <- lookup_node_eq.
      assert (lookup_node d' q n = Some w) as Hw by (unfold lookup_node; by rewrite Hpn).
      rewrite Hl in Hw. unfold fresh_node in Hw. destruct (lookup_node d q n) as [w'|]; [|done].
      destruct (is_stale _ _ _) in Hw; [done|]. by injection Hw as ->.
    + etrans; [|apply (msum_keys_le (λ nw, mem fp (nw_state nw)) (nodes_of d q) pn); intros; apply Hmem].
      apply Z.eq_le_incl. unfold msum. f_equal. apply list_fmap_ext. intros i [n w] _. cbn.
      by destruct (nodes_of d q !! n).
  - etrans; [|apply (msum_keys_le bytes_of (nodes d) (nodes d')); intros; apply bytes_nonneg].
    apply Z.eq_le_incl. unfold msum. f_equal. apply list_fmap_ext. intros i [q pn] _. cbn.
    unfold nodes_of. destruct (nodes d !! q); [done|]. cbn. unfold bytes_of. by rewrite msum_empty.
Qed.

(** Eviction and refresh keep the invariant. *)
Lemma sweep_inv clock cutoff g :
  inv g → ∃ d rebuilds,
    (let '(d1, changed) := evict_stale fp clock cutoff (data g) in
     refresh_changed_caches fuel d1 changed) = Ok (d, rebuilds) ∧
    data_inv d ∧ retained_sketch_bytes d <= max_retained_sketch_bytes g ∧
    unique_node_count (nodes d) <= max_nodes g ∧
    ∀ q n, lookup_node d q n = fresh_node clock cutoff (data g) q n.
Proof using Hmem.
  intros [_ Hd _ Hb Hn]. destruct (sweep_spec clock cutoff (data g) Hd) as (d & n & Hs & Hd' & Hl).
  exists d, n. split_and!; [done|done| | |done].
  - pose proof (fresh_total clock cutoff (data g) d Hd Hd' Hl). lia.
  - pose proof (subseteq_size _ _ (fresh_tracked clock cutoff (data g) d Hl)) as Hsz.
    unfold unique_node_count in *. fold (tracked d). fold (tracked (data g)) in Hn. lia.
Qed.

(** Where a stored window comes from: it was there, its liveness was refreshed,
    or it is one of the batch's. *)
Definition explained (node : string) (now : Z) (d d' : GatewayData) (valid : validated) : Prop :=
  ∀ q n w', lookup_node d' q n = Some w' →
    lookup_node d q n = Some w' ∨
    n = node ∧ ((∃ old, lookup_node d q n = Some old ∧ w' = mkNodeWindow now (nw_state old)) ∨
                ∃ w, (q, w) ∈ valid ∧ w' = mkNodeWindow now w).
(** No stored window is dropped or replaced by one that ends earlier. *)
Definition no_rollback (d d' : GatewayData) : Prop :=
  ∀ q n w, lookup_node d q n = Some w →
    ∃ w', lookup_node d' q n = Some w' ∧ window_end_nanos (nw_state w) <= window_end_nanos (nw_state w').

Lemma apply_window_effect max node now a q w :
  batch_inv max a → max <= u64_max → acceptable q w →
  let a' := apply_window fp max node now a (q, w) in
  batch_inv max a' ∧ explained node now (ap_data a) (ap_data a') [(q, w)] ∧
  no_rollback (ap_data a) (ap_data a').
Proof using Hmem.
  intros Ha Hmax Hw. destruct (apply_window_spec max node now a q w Ha Hmax Hw) as [H1 H2].
  split; [done|]. split.
  - intros q' n' w' Hw'. rewrite H2 in Hw'. case_decide as E; [|by left]. destruct E as [-> ->].
    unfold stored_after in Hw'. destruct (lookup_node (ap_data a) q node) as [o|].
    + destruct (_ <? _); [|destruct (has_room _ _ _ _ _)].
      * injection Hw' as <-. right. split; [done|]. left. by exists o.
      * injection Hw' as <-. right. split; [done|]. right. exists w. split; [by left|done].
      * by left.
    + destruct (has_room _ _ _ _ _); [|done]. injection Hw' as <-. right. split; [done|].
      right. exists w. split; [by left|done].
  - intros q' n' o Ho. rewrite H2. case_decide as E; [|by exists o]. destruct E as [-> ->].
    unfold stored_after. rewrite Ho. destruct (Z.ltb_spec (window_end_nanos w) (window_end_nanos (nw_state o))).
    + eexists. split; [done|]. cbn. lia.
    + destruct (has_room _ _ _ _ _); eexists; (split; [done|]); cbn; lia.
Qed.

Lemma explained_trans node now d d1 d2 l1 l2 :
  explained node now d d1 l1 → explained node now d1 d2 l2 → explained node now d d2 (l1 ++ l2).
Proof using Hmem.
  intros H1 H2 q n w' Hw'. destruct (H2 q n w' Hw') as [Hw1|[-> [(o & Ho & ->)|(w & Hin & ->)]]].
  - destruct (H1 q n w' Hw1) as [?|[-> [?|(w & Hin & ->)]]]; [by left|by right; auto|].
    right. split; [done|]. right. exists w. set_solver.
  - right. split; [done|]. destruct (H1 q node o Ho) as [?|[_ [(o' & Ho' & ->)|(w & Hin & ->)]]].
    + left. by exists o.
    + left. by exists o'.
    + right. exists w. set_solver.
  - right. split; [done|]. right. exists w. set_solver.
Qed.

Lemma no_rollback_trans d d1 d2 : no_rollback d d1 → no_rollback d1 d2 → no_rollback d d2.
Proof using.
  intros H1 H2 q n w Hw. destruct (H1 q n w Hw) as (w1 & Hw1 & ?).
  destruct (H2 q n w1 Hw1) as (w2 & ? & ?). exists w2. split; [done|lia].
Qed.

(** Every window handed to the loop is accepted or refused. *)
Lemma apply_window_counts max node now a x :
  0 <= ap_accepted a < u64_max →
  let a' := apply_window fp max node now a x in
  ap_accepted a' + zlen (ap_rejected a') = ap_accepted a + zlen (ap_rejected a) + 1 ∧
  ap_accepted a <= ap_accepted a' <= ap_accepted a + 1.
Proof using Hmem.
  intros Hk. destruct x as [q w]. cbv zeta. assert (ap_accepted a +ʷ 1 = ap_accepted a + 1) as E
    by (apply wadd64_small; unfold u64_ok; lia).
  assert (∀ why, zlen (ap_rejected (refuse a why)) = zlen (ap_rejected a) + 1) as Er
    by (intros; cbn; rewrite zlen_app; done).
  unfold apply_window, replace_window.
  repeat case_match; rewrite ?Er; cbn [ap_accepted ap_rejected refuse]; rewrite ?E; lia.
Qed.

Lemma apply_windows_spec max node now (valid : validated) a :
  batch_inv max a → max <= u64_max → Forall (λ x, acceptable x.1 x.2) valid →
  0 <= ap_accepted a → ap_accepted a + zlen valid <= u64_max →
  let a' := foldl (apply_window fp max node now) a valid in
  batch_inv max a' ∧ explained node now (ap_data a) (ap_data a') valid ∧
  no_rollback (ap_data a) (ap_data a') ∧
  ap_accepted a' + zlen (ap_rejected a') = ap_accepted a + zlen (ap_rejected a) + zlen valid.
Proof using Hmem.
  revert a. induction valid as [|[q w] valid IH]; intros a Ha Hmax Hv Hk Hsum; cbn [foldl].
  - split_and!; [done| | |rewrite zlen_nil; lia].
    + intros q n w' H. by left.
    + intros q n w H. exists w. split; [done|lia].
  - apply Forall_cons in Hv as [Hw Hv]. rewrite zlen_cons in Hsum. pose proof (zlen_nonneg valid).
    destruct (apply_window_effect max node now a q w Ha Hmax Hw) as (H1 & E1 & R1).
    destruct (apply_window_counts max node now a (q, w)) as [C1 C2]; [lia|].
    destruct (IH (apply_window fp max node now a (q, w)) H1 Hmax Hv) as (H2 & E2 & R2 & C3); [lia|lia|].
    split_and!; [done| |by eapply no_rollback_trans|rewrite zlen_cons; lia].
    exact (explained_trans _ _ _ _ _ [(q, w)] valid E1 E2).
Qed.

Lemma explained_tracked node now d d' valid :
  explained node now d d' valid → tracked d' ⊆ {[node]} ∪ tracked d.
Proof using.
  intros He n. rewrite elem_of_union, elem_of_singleton, !elem_of_tracked. intros [q [w Hw]].
  destruct (He q n w Hw) as [?|[-> _]]; [|by left]. right. exists q. by eexists.
Qed.

(** One push. *)
Lemma apply_batch_spec clock now g b :
  plans_ok → inv g → batch_trusted b → zlen (entries b) <= u64_max →
  ∃ res g' valid, apply_batch fuel fp clock now g b = Ok (res, g') ∧ inv g' ∧
    Forall (λ x, validates (entries b) x.1 x.2) valid ∧
    accepted res + zlen (rejected res) = Z.of_nat (size (by_query (entries b))) ∧
    (valid = [] ∧ data g' = data g ∨
     ∃ d, (∀ q n, lookup_node d q n = fresh_node clock (stale_after g) (data g) q n) ∧
       explained (node b) now d (data g') valid ∧ no_rollback d (data g')).
Proof using Hmem.
  intros Hp Hg Ht Hlen. destruct (validate_spec b Hp Ht) as (valid & rej & Hv & Hacc & Hval & Hcount).
  unfold apply_batch. destruct (iv_plans g Hg) as [-> ->]. rewrite Hv. ostep.
  assert (zlen valid <= u64_max) as Hmany.
  { pose proof (by_query_size (entries b)). pose proof (zlen_nonneg rej). unfold zlen in *. lia. }
  destruct valid as [|x valid].
  { eexists _, _, []. split; [done|]. split; [by destruct Hg|]. split; [done|]. split; [|by left].
    cbn [accepted rejected]. rewrite <- Hcount. done. }
  destruct (sweep_inv clock (stale_after g) g Hg) as (d & rebuilds & Hs & Hd & Hb & Hn & Hl).
  destruct (evict_stale fp clock (stale_after g) (data g)) as [d1 changed]. rewrite Hs. ostep.
  destruct (negb (known_node d (node b)) && (max_nodes g <=? unique_node_count (nodes d))) eqn:Efull.
  - eexists _, _, (x :: valid). split; [done|]. split; [|split; [done|split]].
    + destruct Hg. by split.
    + cbn [accepted rejected]. rewrite zlen_app. unfold zlen at 2. rewrite length_fmap.
      fold (zlen (x :: valid)). lia.
    + right. exists d. split; [done|]. split; intros q n w H; [by left|exists w; split; [done|lia]].
  - destruct Hg as [Hplans _ Hmax _ _]. destruct Hd as [Hok Hbytes Hcache].
    set (a0 := mkApplied d ∅ 0 0 rej).
    assert (batch_inv (max_retained_sketch_bytes g) a0) as Ha.
    { split; [|done|done]. by apply data_inv_loop. }
    destruct (apply_windows_spec (max_retained_sketch_bytes g) (node b) now (x :: valid) a0 Ha Hmax Hacc)
      as ([Hloop Hst Hb'] & He & Hr & Hc); [cbn; lia|cbn [ap_accepted a0]; lia|].
    set (a := foldl _ a0 (x :: valid)) in *. cbn [a0 ap_accepted ap_rejected ap_data] in He, Hr, Hc.
    destruct (refresh_changed_spec (ap_data a) (ap_changed a) Hst (li_pending _ _ Hloop))
      as (mc & more & Href & Hpend). rewrite Href. ostep.
    eexists _, _, (x :: valid). split; [done|]. split; [|split; [done|split]].
    + split; [done| |done|done|].
      * split; [done|apply (li_bytes _ _ Hloop)|done].
      * cbn [data with_counters with_data max_nodes nodes with_cache].
        pose proof (explained_tracked _ _ _ _ _ He) as Hsub.
        unfold unique_node_count in *. fold (tracked (ap_data a)). fold (tracked d) in Efull, Hn.
        apply andb_false_iff in Efull as [Hk%negb_false_iff%known_node_spec|Hk%Z.leb_gt].
        -- assert (tracked (ap_data a) ⊆ tracked d) as Hs'%subseteq_size by set_solver. lia.
        -- apply subseteq_size in Hsub. pose proof (size_union_alt ({[node b]} : gset string) (tracked d)) as Hu.
           assert (size (tracked d ∖ {[node b]}) <= size (tracked d))%nat by (apply subseteq_size; set_solver).
           rewrite size_singleton in Hu. lia.
    + cbn [accepted rejected]. lia.
    + right. exists d. split; [done|]. split; [exact He|exact Hr].
Qed.

(** ** Reading without a cache

    The reference: merge every shard from the stored windows, then the shards,
    each time anew. *)
Context (exp log2 : f64 → f64).

Definition uncached (d : GatewayData) (plan : Plan) : res (list MergedQuery) :=
  let q := q_name (query plan) in
  match nodes d !! q with
  | None => Ok []
  | Some pn =>
      match selected_window pn with
      | None => Ok []
      | Some tgt =>
          shards ← mapM (merge_cache_shard fuel pn tgt) (seq 0 MERGE_CACHE_SHARDS);
          let known := Z.of_nat (size pn) in
          let merged := foldl Z.add 0 shards.*2 in
          ests ← (if merged =? known
                  then final ← merge_summaries fuel None (omap id shards.*1);
                       match final with
                       | Some w => window_estimates exp log2 fuel fp plan w
                       | None => Ok []
                       end
                  else Ok []);
          Ok [mkMerged q known merged tgt.2 ests]
      end
  end.

Lemma mapM_Forall2 {A B} (f : A → res B) l ys :
  Forall2 (λ x y, f x = Ok y) l ys → mapM f l = Ok ys.
Proof using.
  clear. induction 1 as [|x y l ys Hx _ IH]; [done|]. cbn [mapM]. rewrite Hx. ostep. rewrite IH. by ostep.
Qed.

Lemma merged_query_eq d out plan :
  data_inv d →
  ∃ mc, merged_query exp log2 fuel fp (d, out) plan =
      (outs ← uncached d plan; Ok (with_cache d mc, out ++ outs)) ∧ pending (with_cache d mc) ∅.
Proof using.
  intros [Hok _ Hp]. unfold merged_query, uncached. set (q := q_name (query plan)).
  pose proof (Hp q) as Hq. unfold pending_query in Hq. rewrite lookup_empty in Hq.
  assert (with_cache d (merge_cache d) = d) as Hid by by destruct d.
  destruct (nodes d !! q) as [pn|] eqn:Hpn.
  2:{ exists (merge_cache d). ostep. rewrite app_nil_r. rewrite Hid. done. }
  destruct Hq as (c & Hc & [[Hf1 Hf2] (tgt & Hsel & Ht & Hs) Hfin]). rewrite Hc, Ht, Hsel.
  destruct tgt as [start stop].
  assert (mapM (merge_cache_shard fuel pn (start, stop)) (seq 0 MERGE_CACHE_SHARDS) =
    Ok (zip (shard_states c) (shard_nodes c))) as Hm.
  { apply mapM_Forall2, Forall2_same_length_lookup_2; [by rewrite length_seq, length_zip_with, Hf1, Hf2|].
    intros i s [m n] Hi Hz. apply lookup_seq in Hi as [-> Hi].
    destruct (Hs (0 + i)%nat Hi) as (m' & n' & Hm' & L1 & L2).
    apply lookup_zip_with_Some in Hz as (m'' & n'' & [= -> ->] & L3 & L4). cbn in *. by simplify_eq. }
  rewrite Hm. ostep. rewrite fst_zip, snd_zip by lia. cbn [snd].
  set (known := Z.of_nat (size pn)). set (merged := foldl Z.add 0 (shard_nodes c)).
  set (final := merge_summaries fuel None (omap id (shard_states c))) in *.
  assert (∀ fs, (fs = None ∨ final = Ok fs) → pending (with_cache d
    (<[q := mkCache (target c) (shard_states c) (shard_nodes c) fs]> (merge_cache d))) ∅) as Hpend.
  { intros fs Hfs q'. specialize (Hp q'). unfold pending_query in *. rewrite lookup_empty in *.
    cbn [nodes merge_cache with_cache]. destruct (decide (q' = q)) as [->|Hne].
    - rewrite Hpn. eexists. split; [apply lookup_insert_eq|]. split; [done| |done].
      exists (start, stop). split; [done|]. split; [done|]. intros s Hlt.
      destruct (Hs s Hlt) as (m & n & ?). by exists m, n.
    - by rewrite lookup_insert_ne. }
  destruct (Z.eqb_spec merged known) as [Hall|Hpart]; cbn [andb].
  - destruct (bool_decide_reflect (final_state c = None)) as [Hnone|Hsome].
    + destruct final as [fs|e|] eqn:Efinal; ostep.
      * exists (<[q := mkCache (target c) (shard_states c) (shard_nodes c) fs]> (merge_cache d)).
        split; [|apply Hpend; by right]. cbn [final_state]. rewrite Ht.
        destruct fs as [w|]; [destruct (window_estimates exp log2 fuel fp plan w)|]; by ostep.
      * exists (merge_cache d). by rewrite Hid.
      * exists (merge_cache d). by rewrite Hid.
    + destruct Hfin as [?|Hfin]; [done|]. rewrite Hfin. ostep.
      exists (<[q := c]> (merge_cache d)). split; [|destruct c; apply Hpend; by right].
      destruct (final_state c) as [w|]; [|done].
      destruct (window_estimates exp log2 fuel fp plan w); by ostep.
  - ostep. exists (<[q := c]> (merge_cache d)). split; [done|]. destruct c. by apply Hpend.
Qed.

(** The estimates of a window with the plan's parameters can be computed. *)
Definition estimates_total : Prop :=
  ∀ p r w, p ∈ plans → QueryState.build (sketch (physical p)) h = Ok r → like fuel r (w_state w) →
    ∃ es, window_estimates exp log2 fuel fp p w = Ok es.

(** The stored windows of [q] summarise what [I] says of their nodes. *)
Definition told (d : GatewayData) (p : Plan) (I : string → list Item) : Prop :=
  ∀ n nw, lookup_node d (q_name (query p)) n = Some nw →
    summary h (sketch (physical p)) (w_state (nw_state nw)) (I n).
Definition names_of (d : GatewayData) (q : string) : list string := (in_order (nodes_of d q)).*1.

(** What a merged query reports: the newest window most nodes agree on, how many
    nodes cover it and, when all do, the estimates of their merge. *)
Definition reports (d : GatewayData) (p : Plan) (m : MergedQuery) : Prop :=
  let q := q_name (query p) in
  m_query_name m = q ∧ nodes_known m = Z.of_nat (size (nodes_of d q)) ∧
  ∃ start, selected_window (nodes_of d q) = Some (start, m_window_end_nanos m) ∧
    nodes_merged m = zlen (on_target (start, m_window_end_nanos m) (nodes_of d q)) ∧
    if decide (nodes_merged m = nodes_known m)
    then ∃ w r, serves q p r ∧ fits fuel r (start, m_window_end_nanos m) w ∧
           window_estimates exp log2 fuel fp p w = Ok (estimates m) ∧
           ∀ I, told d p I → summary h (sketch (physical p)) (w_state w) (concat (I <$> names_of d q))
    else estimates m = [].

Lemma zlen_concat {A} (ls : list (list A)) : zlen (concat ls) = foldr Z.add 0 (zlen <$> ls).
Proof using. clear. induction ls as [|l ls IH]; [done|]. cbn. by rewrite zlen_app, IH. Qed.
Lemma foldl_add l a : foldl Z.add a l = a + foldr Z.add 0 l.
Proof using. clear. revert a. induction l as [|x l IH]; intros a; cbn; [lia|]. rewrite IH. lia. Qed.

Lemma fold_Permutation_concat {A B} (f : A → list B) l l' :
  l ≡ₚ l' → concat (f <$> l) ≡ₚ concat (f <$> l').
Proof using.
  clear. induction 1 as [|x l l' _ IH|x y l|l1 l2 l3 _ IH1 _ IH2]; cbn; [done|by rewrite IH| |by rewrite IH1].
  rewrite !app_assoc. f_equiv. apply Permutation_app_comm.
Qed.

(** All windows have the target's bounds when their number says so. *)
Lemma on_target_all pn tgt :
  zlen (on_target tgt pn) = Z.of_nat (size pn) → on_target tgt pn = in_order (states pn).
Proof using.
  clear. intros H. unfold on_target in *. apply filter_true. intros x Hx.
  destruct (decide (bounds x.2 = tgt)) as [|Hn]; [done|]. exfalso.
  pose proof (length_filter_lt (λ x : string * WS, bounds x.2 = tgt) (in_order (states pn)) x Hx Hn) as Hlt.
  rewrite length_in_order in Hlt. unfold states in Hlt. rewrite map_size_fmap in Hlt.
  unfold zlen in H. fold (states pn) in Hlt. lia.
Qed.

Lemma shard_tallies d q p r pn tgt :
  stored_ok d → serves q p r → nodes d !! q = Some pn →
  ∃ ms, mapM (merge_cache_shard fuel pn tgt) (seq 0 MERGE_CACHE_SHARDS) =
      Ok (zip ms ((λ s, zlen (shard_entries pn tgt s)) <$> seq 0 MERGE_CACHE_SHARDS)) ∧
    Forall2 (joins fuel h (sketch (physical p)) r tgt)
      ((λ s, (shard_entries pn tgt s).*2) <$> seq 0 MERGE_CACHE_SHARDS) ms.
Proof using.
  clear Hmem. intros Hd Hs Hpn. generalize (seq 0 MERGE_CACHE_SHARDS) as l. intros l.
  induction l as [|s l (ms & Hm & Hj)]; [by exists []|].
  destruct (tally_spec fuel h (sketch (physical p)) r tgt _ (shard_fits d q p r pn tgt s Hd Hs Hpn))
    as (m & Ht & Hjm).
  exists (m :: ms). split; [|by constructor]. cbn [mapM]. rewrite merge_cache_shard_eq, Ht. ostep.
  rewrite Hm. ostep. cbn. do 3 f_equal. unfold zlen. by rewrite length_fmap.
Qed.

(** The merge of all shards merges every window on the target. *)
Lemma cluster_joins d p r pn tgt ms final :
  Forall2 (joins fuel h (sketch (physical p)) r tgt)
    ((λ s, (shard_entries pn tgt s).*2) <$> seq 0 MERGE_CACHE_SHARDS) ms →
  joins fuel h (sketch (physical p)) r tgt (omap id ms) final →
  on_target tgt pn = in_order (states pn) → nodes d !! q_name (query p) = Some pn → pn ≠ ∅ →
  ∃ w, final = Some w ∧ fits fuel r tgt w ∧
    ∀ I, told d p I →
      summary h (sketch (physical p)) (w_state w) (concat (I <$> names_of d (q_name (query p)))).
Proof using.
  clear Hmem. intros HF Hj Hall Hpn Hne. pose proof (joins_join _ _ _ _ _ _ _ _ HF Hj) as Hjoin.
  set (es := concat (shard_entries pn tgt <$> seq 0 MERGE_CACHE_SHARDS)).
  assert (concat ((λ s, (shard_entries pn tgt s).*2) <$> seq 0 MERGE_CACHE_SHARDS) = es.*2) as Ees.
  { unfold es. generalize (seq 0 MERGE_CACHE_SHARDS) as l. induction l as [|s l IH]; [done|].
    cbn. by rewrite fmap_app, IH. }
  rewrite Ees in Hjoin. assert (es ≡ₚ in_order (states pn)) as Hp
    by (unfold es; rewrite shards_partition; by rewrite Hall).
  destruct final as [w|].
  - destruct Hjoin as (_ & Hf & Hsum). exists w. split; [done|]. split; [done|]. intros I HI.
    apply (summary_Permutation _ _ _ (concat ((λ x : string * WS, I x.1) <$> es))).
    + rewrite (fold_Permutation_concat _ _ _ Hp). unfold names_of, nodes_of. rewrite Hpn.
      cbn [default from_option id]. unfold states. rewrite in_order_fmap, <- !list_fmap_compose. done.
    + apply Hsum. apply Forall2_fmap. apply Forall_Forall2_diag. apply Forall_forall. intros [n w'] Hin.
      rewrite Hp in Hin. apply elem_of_in_order, lookup_fmap_Some in Hin as (nw & <- & Hn).
      cbn [snd fst]. apply (HI n nw). unfold lookup_node. by rewrite Hpn.
  - cbn [joins] in Hjoin. exfalso. apply Hne. apply map_size_empty_iff.
    rewrite Hjoin in *. apply (f_equal length) in Hjoin. rewrite length_fmap, Hp, length_in_order in Hjoin.
    unfold states in Hjoin. by rewrite map_size_fmap in Hjoin.
Qed.

Lemma uncached_spec d p r :
  stored_ok d → p ∈ plans → serves (q_name (query p)) p r → estimates_total →
  ∃ ms, uncached d p = Ok ms ∧
    match nodes d !! q_name (query p) with
    | None => ms = []
    | Some _ => ∃ m, ms = [m] ∧ reports d p m
    end.
Proof using.
  intros Hd Hin Hs Hest. unfold uncached. set (q := q_name (query p)) in *.
  destruct (nodes d !! q) as [pn|] eqn:Hpn; [|by exists []].
  pose proof (proj1 Hd q pn Hpn) as Hne.
  destruct (selected_window pn) as [tgt|] eqn:Hsel; [|by apply selected_None in Hsel].
  destruct (shard_tallies d q p r pn tgt Hd Hs Hpn) as (ms & -> & HF). ostep.
  pose proof (Forall2_length _ _ _ HF) as Hlen. rewrite !length_fmap in Hlen.
  rewrite fst_zip, snd_zip by (rewrite length_fmap; lia).
  assert (foldl Z.add 0 ((λ s, zlen (shard_entries pn tgt s)) <$> seq 0 MERGE_CACHE_SHARDS) =
    zlen (on_target tgt pn)) as ->.
  { rewrite foldl_add. transitivity (zlen (concat (shard_entries pn tgt <$> seq 0 MERGE_CACHE_SHARDS))).
    - rewrite zlen_concat, <- list_fmap_compose. done.
    - unfold zlen. by rewrite shards_partition. }
  assert (nodes_of d q = pn) as Epn by (unfold nodes_of; by rewrite Hpn).
  destruct tgt as [start stop]. cbn [snd].
  assert (∀ es, (if decide (zlen (on_target (start, stop) pn) = Z.of_nat (size pn))
    then ∃ w r', serves q p r' ∧ fits fuel r' (start, stop) w ∧
           window_estimates exp log2 fuel fp p w = Ok es ∧
           ∀ I, told d p I → summary h (sketch (physical p)) (w_state w) (concat (I <$> names_of d q))
    else es = []) →
    reports d p (mkMerged q (Z.of_nat (size pn)) (zlen (on_target (start, stop) pn)) stop es)) as Hrep.
  { intros es Hes. split; [done|]. cbn [nodes_known nodes_merged m_window_end_nanos estimates]. fold q. rewrite Epn.
    split; [done|]. exists start. split; [done|]. split; [done|]. exact Hes. }
  destruct (Z.eqb_spec (zlen (on_target (start, stop) pn)) (Z.of_nat (size pn))) as [Hall|Hpart].
  - apply on_target_all in Hall as Hin_order.
    destruct (merge_summaries_spec fuel h (sketch (physical p)) r (start, stop) (omap id ms)) as (final & -> & Hj).
    { clear Hlen. induction HF as [|ws m groups ms' Hm _ IH]; [done|]. cbn. destruct m as [w|]; cbn; [|done].
      constructor; [apply Hm|done]. }
    destruct (cluster_joins d p r pn (start, stop) ms final HF Hj Hin_order Hpn Hne) as (w & -> & Hw & Hsum).
    ostep. destruct (Hest p r w Hin (proj2 Hs) (proj1 Hw)) as [es Hes]. rewrite Hes. ostep.
    eexists. split; [done|]. eexists. split; [done|]. apply Hrep. rewrite decide_True by done.
    exists w, r. by split_and!.
  - ostep. eexists. split; [done|]. eexists. split; [done|]. apply Hrep. by rewrite decide_False.
Qed.

(** Every plan's report, in the order of the plans. *)
Definition all_uncached (d : GatewayData) : res (list MergedQuery) :=
  foldM (λ out p, outs ← uncached d p; Ok (out ++ outs)) [] plans.

Lemma uncached_with_cache d mc p : uncached (with_cache d mc) p = uncached d p.
Proof using. done. Qed.
Lemma with_cache_inv d mc : data_inv d → pending (with_cache d mc) ∅ → data_inv (with_cache d mc).
Proof using. intros [H1 H2 _] Hp. by split. Qed.

Lemma merged_loop l d out out' :
  data_inv d → foldM (λ out p, outs ← uncached d p; Ok (out ++ outs)) out l = Ok out' →
  ∃ mc, foldM (merged_query exp log2 fuel fp) (d, out) l = Ok (with_cache d mc, out') ∧
    data_inv (with_cache d mc).
Proof using.
  revert d out. induction l as [|p l IH]; intros d out Hd H; cbn [foldM] in *.
  - apply ok_inj in H as ->. exists (merge_cache d). by destruct d.
  - destruct (merged_query_eq d out p Hd) as (mc & Hm & Hp).
    apply bind_ok in H as (out1 & H1 & H). apply bind_ok in H1 as (outs & Hu & <-%ok_inj).
    rewrite Hu in Hm. revert Hm. ostep. intros ->. ostep.
    pose proof (with_cache_inv d mc Hd Hp) as Hd'.
    destruct (IH (with_cache d mc) (out ++ outs) Hd') as (mc' & Hm' & Hd''); [exact H|].
    exists mc'. by rewrite with_cache_twice in *.
Qed.
End store.

(** ** Estimates can always be computed *)

(** The sketches whose estimate runs the HyperLogLog estimator. *)
Definition estimated (sk : PhysicalSketch) : Prop :=
  match sk with
  | PHyperLogLog _ | PComposite [PSpaceSaving _; PHyperLogLog _] => True
  | _ => False
  end.

Lemma foldM_total {E A B} (f : A → B → outcome E A) (P : B → Prop) l a :
  Forall P l → (∀ a b, P b → ∃ a', f a b = Ok a') → ∃ a', foldM f a l = Ok a'.
Proof.
  intros Hl Hf. revert a. induction Hl as [|b l Hb _ IH]; intros a; [by exists a|].
  cbn [foldM]. destruct (Hf a b Hb) as [a' ->]. apply IH.
Qed.

Lemma window_estimates_ok exp log2 (fuel : nat) fp (p : Plan) (h : HashSpec) r (w : WS) :
  supported fuel (sketch (physical p)) →
  (estimated (sketch (physical p)) → HllMap.converges fuel) →
  QueryState.build (sketch (physical p)) h = Ok r → like fuel r (w_state w) →
  ∃ es, window_estimates exp log2 fuel fp p w = Ok es.
Proof.
  intros Hsup Hest Hr Hl. unfold window_estimates, emit_estimates.
  destruct (update_count (w_state w) =? 0); [by eexists|].
  enough (∃ es, state_estimates exp log2 fuel fp p (w_state w) (window_start_nanos w) (window_end_nanos w) = Ok es)
    as [es ->] by (ostep; by eexists).
  destruct (sketch (physical p)) as [| |c| |pr|mk pr|k|st] eqn:Esk; try done;
    cbn [QueryState.build supported estimated] in *.
  - apply bind_ok in Hr as (a & _ & <-%ok_inj). destruct (w_state w); try done. by eexists.
  - apply bind_ok in Hr as (a & _ & <-%ok_inj). destruct (w_state w) as [| | |hll| |]; try done.
    cbn [state_estimates]. destruct (Hest I hll (proj1 Hl)) as [c ->]. ostep. by eexists.
  - apply bind_ok in Hr as (a & _ & <-%ok_inj). destruct (w_state w) as [| |m| | |]; try done.
    cbn [state_estimates]. destruct Hl as (Hw & _ & _ & Hc). unfold HllMap.entries, HllMap.map_foldM.
    destruct (foldM_total (λ all (x : bytes * HllMap.Slot), c ← HllMap.card fuel (HllMap.sl_hll x.2); Ok (all ++ [(x.1, c)]))
      (λ x, Hll.valid (HllMap.sl_hll x.2)) (map_to_list (HllMap.hm_map m)) []) as [l Hll].
    + apply Forall_forall. intros [k sl] Hk%elem_of_map_to_list. by apply (HllMap.wf_slots _ _ Hw) in Hk as [? _].
    + intros acc x Hx. destruct (Hc _ Hx) as [c ->]. by eexists.
    + rewrite Hll. ostep. by eexists.
  - apply bind_ok in Hr as (a & _ & <-%ok_inj). destruct (w_state w) as [| | | |kll|]; try done.
    cbn [state_estimates]. repeat case_match; by eexists.
  - destruct st as [|[] [|[] [|]]]; try done; apply bind_ok in Hr as (a & _ & Hr);
      apply bind_ok in Hr as (b & _ & <-%ok_inj); destruct (w_state w) as [|cm keys| | | |ss hll]; try done;
      cbn [state_estimates]; destruct Hl as [Hl1 Hl2].
    + apply (foldM_total _ (λ _, True)); [by apply Forall_true|]. intros acc x _. unfold counter_estimate.
      destruct (CountMin.min_rows_spec cm x.1 (proj1 Hl1)) as (e & He & _).
      unfold CountMin.estimate_u64. rewrite He. ostep. by eexists.
    + unfold estimate_entropy_bits. destruct (f_leb _ _); [by eexists|].
      destruct (foldl _ _ _) as [entropy mass]. destruct (f_ltb _ _); [|by eexists].
      destruct (Hest I hll (proj1 Hl2)) as [c ->]. ostep. by eexists.
Qed.
