(* ===== verification/Cluster.v ===== *)
(** * The gateway as a service

    Runs of the gateway's operations: the store's invariant holds in every
    reachable state, reads agree with the specification that has no cache, and a
    complete merge answers for the events of all nodes. *)
From S2P Require Import Prelude Bytes Maps Hash Sketch Snapshot F64 Event Ir Planner.
From S2P Require Import CountMin SpaceSaving Hll HllMap Kll QueryState Emit Window WindowSpec.
From S2P Require Import Guarantees Restore Sliding Shipping Batch Gateway GatewaySpec.

(** The service's requests: a push, a read of the merged windows (the metrics
    endpoint), a read of the node list; each with the clock readings it makes. *)
Inductive Request :=
  | Push (clock : string → string → Z) (now : Z) (b : PushBatch)
  | Scrape (clock : string → string → Z)
  | NodeList (clock age_clock : string → string → Z).

Section cluster.
Context (fuel : nat) (fp : Footprint) (exp log2 : f64 → f64) (ps : list Plan) (h : HashSpec).

Definition serve (g : GatewayState) (r : Request) : res GatewayState :=
  match r with
  | Push clock now b => '(_, g) ← apply_batch fuel fp clock now g b; Ok g
  | Scrape clock => '(_, g) ← merged exp log2 fuel fp clock g; Ok g
  | NodeList clock age => '(_, g) ← nodes_json fuel fp clock age g; Ok g
  end.

(** What the gateway is deployed with: distinct query names, plans the runtime
    executes, sizes that fit a [u64], and an estimator whose iterations the fuel
    covers where a plan uses it. *)
Definition deployable : Prop :=
  NoDup ((λ p, q_name (query p)) <$> ps) ∧ plans_ok fuel ps ∧ (∀ w, u64_ok (mem fp w)) ∧
  Forall (λ p, estimated (sketch (physical p)) → HllMap.converges fuel) ps.

Definition request_ok (r : Request) : Prop :=
  match r with
  | Push _ _ b => batch_trusted fuel ps h b ∧ zlen (entries b) <= MAX_ENTRIES
  | _ => True
  end.

Context (Hdep : deployable).

Lemma sizes_ok w : u64_ok (mem fp w).
Proof using Hdep. apply Hdep. Qed.

Lemma find_plan_in p : p ∈ ps → find_plan ps (q_name (query p)) = Some p.
Proof using Hdep.
  destruct Hdep as [Hnd _]. unfold find_plan. intros Hp. induction ps as [|p' l IH]; [by apply elem_of_nil in Hp|].
  cbn [fmap list_fmap] in Hnd. apply NoDup_cons in Hnd as [Hn Hnd]. cbn [List.find].
  destruct (String.eqb_spec (q_name (query p')) (q_name (query p))) as [E|E].
  - apply elem_of_cons in Hp as [->|Hp]; [done|]. exfalso. apply Hn. rewrite E.
    by apply (list_elem_of_fmap_2 (λ p, q_name (query p))).
  - apply elem_of_cons in Hp as [->|Hp]; [done|]. by apply IH.
Qed.

Lemma estimates_computed : estimates_total fuel fp ps h exp log2.
Proof using Hdep.
  intros p r w Hp Hr Hl. destruct Hdep as (_ & Hsup & _ & Hest). unfold plans_ok in *.
  rewrite Forall_forall in Hsup, Hest. 
  apply (window_estimates_ok exp log2 fuel fp p h r); [exact (Hsup p Hp)|exact (Hest p Hp)|done|done].
Qed.

(** The reports of a list of plans. *)
Lemma reports_loop l d out :
  (∀ p, p ∈ l → p ∈ ps) → stored_ok fuel ps h d →
  ∃ ms, foldM (λ out p, outs ← uncached fuel fp exp log2 d p; Ok (out ++ outs)) out l = Ok (out ++ ms) ∧
    (∀ m, m ∈ ms → ∃ p, p ∈ l ∧ reports fuel fp ps h exp log2 d p m) ∧
    ∀ p, p ∈ l → is_Some (nodes d !! q_name (query p)) → ∃ m, m ∈ ms ∧ reports fuel fp ps h exp log2 d p m.
Proof using Hdep.
  intros Hl Hd. revert out. induction l as [|p l IH]; intros out.
  - exists []. cbn. rewrite app_nil_r. split; [done|]. split; [by intros m ?%elem_of_nil|by intros p ?%elem_of_nil].
  - assert (∃ ms, uncached fuel fp exp log2 d p = Ok ms ∧
      match nodes d !! q_name (query p) with
      | None => ms = []
      | Some _ => ∃ m, ms = [m] ∧ reports fuel fp ps h exp log2 d p m
      end) as (ms1 & H1 & Hm1).
    { destruct (nodes d !! q_name (query p)) as [pn|] eqn:E.
      - destruct (stored_serves fuel ps h d _ pn Hd E) as (p' & r & Hs).
        assert (p' = p) as ->.
        { destruct Hs as [Hs _]. rewrite find_plan_in in Hs by (apply Hl; by left). by injection Hs. }
        destruct (uncached_spec fuel fp ps h exp log2 d p r Hd) as (ms & Hu & Hm);
          [apply Hl; by left|done|exact estimates_computed|].
        rewrite E in Hm. by exists ms.
      - exists []. unfold uncached. by rewrite E. }
    destruct (IH (λ p' Hp', Hl p' ltac:(by right)) (out ++ ms1)) as (ms2 & H2 & Hin & Hout).
    exists (ms1 ++ ms2). cbn [foldM]. rewrite H1. ostep. rewrite H2, app_assoc. split; [done|]. split.
    + intros m [Hm|Hm]%elem_of_app.
      * destruct (nodes d !! q_name (query p)); [|by rewrite Hm1 in Hm; apply elem_of_nil in Hm].
        destruct Hm1 as (m' & -> & Hr). apply list_elem_of_singleton in Hm as ->.
        exists p. split; [by left|done].
      * destruct (Hin m Hm) as (p' & Hp' & Hr). exists p'. split; [by right|done].
    + intros p' [->|Hp']%elem_of_cons Hs.
      * destruct (nodes d !! q_name (query p)); [|by destruct Hs]. destruct Hm1 as (m & -> & Hr).
        exists m. split; [set_solver|done].
      * destruct (Hout p' Hp' Hs) as (m & Hm & Hr). exists m. split; [set_solver|done].
Qed.

Lemma merged_spec clock g :
  inv fuel fp ps h g →
  ∃ ms g' d, merged exp log2 fuel fp clock g = Ok (ms, g') ∧ inv fuel fp ps h g' ∧
    data_inv fuel fp ps h d ∧ (∃ mc, data g' = with_cache d mc) ∧
    (∀ q n, lookup_node d q n = fresh_node clock (stale_after g) (data g) q n) ∧
    all_uncached fuel fp ps exp log2 d = Ok ms ∧
    (∀ m, m ∈ ms → ∃ p, p ∈ ps ∧ reports fuel fp ps h exp log2 d p m) ∧
    ∀ p, p ∈ ps → is_Some (nodes d !! q_name (query p)) → ∃ m, m ∈ ms ∧ reports fuel fp ps h exp log2 d p m.
Proof using Hdep.
  intros Hg. destruct (sweep_inv fuel fp ps h sizes_ok clock (stale_after g) g Hg) as (d & n & Hs & Hd & Hb & Hn & Hl).
  destruct (reports_loop ps d [] (λ p Hp, Hp) (di_ok _ _ _ _ _ Hd)) as (ms & Hu & Hin & Hout).
  cbn [app] in Hu. destruct (merged_loop fuel fp ps h exp log2 ps d [] ms Hd Hu) as (mc & Hm & Hd').
  unfold merged. destruct (evict_stale fp clock (stale_after g) (data g)) as [d1 changed]. rewrite Hs. ostep.
  destruct Hg as [[Hps Hh] _ Hmax _ _]. rewrite Hps, Hm. ostep.
  eexists ms, _, d. split; [done|]. split; [by split|]. split; [done|]. split; [by exists mc|]. by split_and!.
Qed.

Lemma serve_inv g r :
  inv fuel fp ps h g → request_ok r → ∃ g', serve g r = Ok g' ∧ inv fuel fp ps h g'.
Proof using Hdep.
  intros Hg Hr. destruct r as [clock now b|clock|clock age]; cbn [serve request_ok] in *.
  - destruct Hr as [Ht Hlen]. destruct (apply_batch_spec fuel fp ps h sizes_ok clock now g b) as (res & g' & v & -> & Hg' & _);
      [apply Hdep|done|done|unfold MAX_ENTRIES in Hlen; lia|]. ostep. by exists g'.
  - destruct (merged_spec clock g Hg) as (ms & g' & d & -> & Hg' & _). ostep. by exists g'.
  - destruct (sweep_inv fuel fp ps h sizes_ok clock (stale_after g) g Hg) as (d & n & Hs & Hd & Hb & Hn & Hl).
    unfold nodes_json. destruct (evict_stale fp clock (stale_after g) (data g)) as [d1 changed]. rewrite Hs. ostep.
    eexists. split; [done|]. destruct Hg as [? _ ? _ _]. by split.
Qed.

Lemma new_inv stale limit bytes g :
  bytes <= u64_max → GatewayState_new ps h stale limit bytes = Ok g → inv fuel fp ps h g.
Proof using.
  intros Hb H. unfold GatewayState_new in H. destruct (Z.ltb_spec 0 limit); [|done].
  destruct (Z.ltb_spec 0 bytes); [|done]. apply ok_inj in H as <-.
  split; cbn [data max_nodes max_retained_sketch_bytes]; [done|apply data_inv_new|done|cbn; lia|].
  assert (unique_node_count (nodes GatewayData_default) = 0) as -> by (vm_compute; reflexivity). lia.
Qed.

Lemma run_inv g rs :
  inv fuel fp ps h g → Forall request_ok rs → ∃ g', foldM serve g rs = Ok g' ∧ inv fuel fp ps h g'.
Proof using Hdep.
  intros Hg Hrs. revert g Hg. induction Hrs as [|r rs Hr _ IH]; intros g Hg; [by exists g|].
  destruct (serve_inv g r Hg Hr) as (g1 & H1 & Hg1). destruct (IH g1 Hg1) as (g2 & H2 & Hg2).
  exists g2. split; [|done]. cbn [foldM]. by rewrite H1.
Qed.

(** The limits a gateway was created with stay. *)
Definition limits (g : GatewayState) : Z * Z * Z := (stale_after g, max_nodes g, max_retained_sketch_bytes g).

Lemma serve_limits g r g' : serve g r = Ok g' → limits g' = limits g.
Proof using.
  clear Hdep. intros H. destruct r as [clock now b|clock|clock age]; cbn [serve] in H;
    apply bind_ok in H as ([x g1] & H & <-%ok_inj).
  - unfold apply_batch in H. apply bind_ok in H as ([valid rej] & _ & H).
    destruct valid as [|v valid]; [by apply ok_inj in H as [= _ <-]|].
    destruct (evict_stale _ _ _ _) as [d changed]. apply bind_ok in H as ([d' n] & _ & H).
    destruct (negb _ && _); [by apply ok_inj in H as [= _ <-]|].
    apply bind_ok in H as ([d'' n'] & _ & H). by apply ok_inj in H as [= _ <-].
  - unfold merged in H. destruct (evict_stale _ _ _ _) as [d changed].
    apply bind_ok in H as ([d' n] & _ & H). apply bind_ok in H as ([d'' ms] & _ & H).
    by apply ok_inj in H as [= _ <-].
  - unfold nodes_json in H. destruct (evict_stale _ _ _ _) as [d changed].
    apply bind_ok in H as ([d' n] & _ & H). by apply ok_inj in H as [= _ <-].
Qed.

Lemma run_limits g rs g' : foldM serve g rs = Ok g' → limits g' = limits g.
Proof using.
  clear Hdep. revert g. induction rs as [|r rs IH]; intros g H; cbn [foldM] in H.
  - by apply ok_inj in H as ->.
  - apply bind_ok in H as (g1 & H1 & H). rewrite (IH g1 H). by apply (serve_limits g r).
Qed.

(** The states of a gateway in service. *)
Definition reachable (g : GatewayState) : Prop :=
  ∃ stale limit bytes g0 rs, bytes <= u64_max ∧ GatewayState_new ps h stale limit bytes = Ok g0 ∧
    Forall request_ok rs ∧ foldM serve g0 rs = Ok g.

Lemma reachable_inv g : reachable g → inv fuel fp ps h g.
Proof using Hdep.
  intros (stale & limit & bytes & g0 & rs & Hb & Hn & Hrs & Hg).
  destruct (run_inv g0 rs (new_inv stale limit bytes g0 Hb Hn) Hrs) as (g' & Hg' & Hi).
  rewrite Hg in Hg'. by apply ok_inj in Hg' as <-.
Qed.

(** ** Pushes of exported windows *)

(** The batch holds the snapshots of a state of query [q] that summarises
    [items], over the window [bnds]. *)
Definition exports (b : PushBatch) (q : string) (bnds : Z * Z) (items : list Item) : Prop :=
  ∃ p r s, serves ps h q p r ∧ like fuel r s ∧ summary h (sketch (physical p)) s items ∧ shippable s ∧
    u64_ok bnds.1 ∧ u64_ok bnds.2 ∧
    components_of q (entries b) = QueryState.to_snapshots s bnds.1 bnds.2.

Definition genuine (r : Request) : Prop :=
  match r with
  | Push _ _ b => ∀ q, components_of q (entries b) = [] ∨ ∃ bnds items, exports b q bnds items
  | _ => True
  end.

(** Node [n] pushed such a window during the run. *)
Definition pushed (rs : list Request) (n q : string) (bnds : Z * Z) (items : list Item) : Prop :=
  ∃ clock now b, Push clock now b ∈ rs ∧ node b = n ∧ exports b q bnds items.

(** The windows stored are windows pushed. *)
Definition sourced (rs : list Request) (d : GatewayData) : Prop :=
  ∀ q n w, lookup_node d q n = Some w →
    ∃ p r items, serves ps h q p r ∧ pushed rs n q (bounds (nw_state w)) items ∧
      summary h (sketch (physical p)) (w_state (nw_state w)) items.

Lemma validates_exported b q w :
  (components_of q (entries b) = [] ∨ ∃ bnds items, exports b q bnds items) →
  validates fuel ps h (entries b) q w →
  ∃ p r items, serves ps h q p r ∧ exports b q (bounds w) items ∧
    summary h (sketch (physical p)) (w_state w) items.
Proof using Hdep.
  intros Hg (p & Hp & Hw). destruct Hg as [Hnone|(bnds & items & Hx)].
  - rewrite Hnone in Hw. unfold from_components in Hw. apply bind_ok in Hw as (e & _ & Hw). discriminate Hw.
  - pose proof Hx as (p' & r & s & Hs & Hl & Hsum & Hsh & Hb1 & Hb2 & Hc).
    assert (p' = p) as -> by (destruct Hs as [Hs _]; congruence).
    assert (supported fuel (sketch (physical p))) as Hsup.
    { destruct Hdep as (_ & Hsup & _). unfold plans_ok in Hsup. rewrite Forall_forall in Hsup.
      by apply Hsup, (find_plan_spec ps q p). }
    destruct (ship fuel bnds.1 bnds.2 Hb1 Hb2 p h r s items Hsup (proj2 Hs) Hl Hsum Hsh) as (s' & Hf & Hl' & Hs').
    rewrite Hc, Hf in Hw. apply ok_inj in Hw as <-. exists p, r, items. split; [done|].
    split; [by destruct bnds|done].
Qed.

Lemma pushed_snoc rs r n q bnds items : pushed rs n q bnds items → pushed (rs ++ [r]) n q bnds items.
Proof using Hdep fp fuel h ps. intros (clock & now & b & Hin & H). exists clock, now, b. split; [set_solver|done]. Qed.

Lemma fresh_lookup clock cutoff d q n w :
  fresh_node clock cutoff d q n = Some w → lookup_node d q n = Some w.
Proof using. unfold fresh_node. destruct (lookup_node d q n); [|done]. by destruct (is_stale _ _ _). Qed.

Lemma serve_sourced rs g r g' :
  inv fuel fp ps h g → sourced rs (data g) → request_ok r → genuine r → serve g r = Ok g' →
  sourced (rs ++ [r]) (data g').
Proof using Hdep.
  intros Hg Hsrc Hr Hgen H.
  assert (∀ d', (∀ q n w, lookup_node d' q n = Some w → lookup_node (data g) q n = Some w) →
    sourced (rs ++ [r]) d') as Hkeep.
  { intros d' Hd q n w Hw. destruct (Hsrc q n w (Hd q n w Hw)) as (p & m & items & Hs & Hp & Hsum).
    exists p, m, items. split; [done|]. split; [by apply pushed_snoc|done]. }
  destruct r as [clock now b|clock|clock age]; cbn [serve request_ok genuine] in *.
  - destruct Hr as [Ht Hlen].
    destruct (apply_batch_spec fuel fp ps h sizes_ok clock now g b) as (res & g1 & v & Ha & _ & Hv & _ & Hcase);
      [apply Hdep|done|done|unfold MAX_ENTRIES in Hlen; lia|].
    rewrite Ha in H. revert H. ostep. intros <-%ok_inj.
    destruct Hcase as [[-> ->]|(d & Hd & He & _)]; [by apply Hkeep|].
    intros q n w Hw. destruct (He q n w Hw) as [Hw'|[-> [(old & Hold & ->)|(w' & Hin & ->)]]].
    + apply (Hkeep d); [|done]. intros q' n' w'. rewrite Hd. apply fresh_lookup.
    + rewrite Hd in Hold. apply fresh_lookup in Hold.
      destruct (Hsrc q _ old Hold) as (p & m & items & Hs & Hp & Hsum).
      exists p, m, items. split; [done|]. split; [by apply pushed_snoc|done].
    + rewrite Forall_forall in Hv. specialize (Hv _ Hin). cbn [fst snd] in Hv.
      destruct (validates_exported b q w' (Hgen q) Hv) as (p & m & items & Hs & Hx & Hsum).
      exists p, m, items. split; [done|]. split; [|done]. exists clock, now, b.
      split; [set_solver|done].
  - destruct (merged_spec clock g Hg) as (ms & g1 & d & Hm & _ & _ & (mc & Hd) & Hl & _).
    rewrite Hm in H. revert H. ostep. intros <-%ok_inj. rewrite Hd. apply Hkeep. intros q n w Hw.
    change (lookup_node d q n = Some w) in Hw. rewrite Hl in Hw. by apply fresh_lookup in Hw.
  - destruct (sweep_inv fuel fp ps h sizes_ok clock (stale_after g) g Hg) as (d & n & Hs & _ & _ & _ & Hl).
    unfold nodes_json in H. destruct (evict_stale fp clock (stale_after g) (data g)) as [d1 changed].
    rewrite Hs in H. revert H. ostep. intros <-%ok_inj. apply Hkeep. intros q n' w Hw.
    change (lookup_node d q n' = Some w) in Hw. rewrite Hl in Hw. by apply fresh_lookup in Hw.
Qed.

Lemma run_sourced rs dn g g' :
  inv fuel fp ps h g → sourced dn (data g) → Forall request_ok rs → Forall genuine rs →
  foldM serve g rs = Ok g' → sourced (dn ++ rs) (data g').
Proof using Hdep.
  revert dn g. induction rs as [|r rs IH]; intros dn g Hg Hs Hrs Hgen H; cbn [foldM] in H.
  - apply ok_inj in H as <-. by rewrite app_nil_r.
  - apply Forall_cons in Hrs as [Hr Hrs]. apply Forall_cons in Hgen as [Hgr Hgen].
    apply bind_ok in H as (g1 & H1 & H). destruct (serve_inv g r Hg Hr) as (g2 & H2 & Hg2).
    rewrite H1 in H2. apply ok_inj in H2 as <-.
    replace (dn ++ r :: rs) with ((dn ++ [r]) ++ rs) by by rewrite <- app_assoc.
    apply (IH _ g1); try done. by apply (serve_sourced _ g).
Qed.
End cluster.

(** ** The guarantees of the service *)

Lemma finite_choice {A B} `{EqDecision A} (P : A → B → Prop) (y0 : B) (l : list A) :
  (∀ x, x ∈ l → ∃ y, P x y) → ∃ f, ∀ x, x ∈ l → P x (f x).
Proof.
  induction l as [|x l IH]; intros H.
  - exists (λ _, y0). by intros x ?%elem_of_nil.
  - destruct (H x ltac:(by left)) as [y Hy]. destruct IH as [f Hf]; [intros z Hz; apply H; by right|].
    exists (λ z, if decide (z = x) then y else f z). intros z Hz. case_decide as E; [by subst|].
    apply Hf. by apply elem_of_cons in Hz as [?|?].
Qed.


(** [C4] The merge cache is invisible.  In every reachable state, what a read
    returns through the sharded, incrementally refreshed cache is what the
    reference that has no cache computes from the stored, still fresh windows:
    every shard merged anew, then the shards. *)
Theorem merge_cache_transparent fuel fp exp log2 ps h g clock :
  deployable fuel fp ps → reachable fuel fp exp log2 ps h g →
  ∃ ms g' d, merged exp log2 fuel fp clock g = Ok (ms, g') ∧ nodes (data g') = nodes d ∧
    (∀ q n, lookup_node d q n = fresh_node clock (stale_after g) (data g) q n) ∧
    all_uncached fuel fp ps exp log2 d = Ok ms.
Proof.
  intros Hdep Hg. destruct (merged_spec fuel fp exp log2 ps h Hdep clock g
    (reachable_inv fuel fp exp log2 ps h Hdep g Hg)) as (ms & g' & d & Hm & _ & _ & (mc & E) & Hl & Hu & _).
  exists ms, g', d. split; [done|]. split; [by rewrite E|done].
Qed.



(** The window a query is read at.  It is the newest end among the nodes, with
    the start that most of those nodes report, the earliest of them in a tie; it
    exists as soon as one node is stored. *)
Lemma selected_window_majority pn :
  match selected_window pn with
  | None => pn = ∅
  | Some (start, stop) =>
      (∀ n w, pn !! n = Some w → window_end_nanos (nw_state w) <= stop) ∧
      (∃ n w, pn !! n = Some w ∧ bounds (nw_state w) = (start, stop)) ∧
      ∀ s, supporters (s, stop) (windows pn) < supporters (start, stop) (windows pn) ∨
        supporters (s, stop) (windows pn) = supporters (start, stop) (windows pn) ∧ start <= s
  end.
Proof.
  rewrite selected_window_eq. pose proof (select_spec (windows pn)) as H.
  destruct (select (windows pn)) as [[start stop]|]; [|by apply windows_nil].
  destruct H as (H1 & (w & Hw & Hb) & H3). split_and!; [| |done].
  - intros n nw Hn. apply H1, elem_of_windows. eauto.
  - apply elem_of_windows in Hw as (n & nw & Hn & <-). eauto.
Qed.

(** ** A concrete gateway *)

Definition fp0 : Footprint := mkFootprint (λ _, 64) (λ _, 64) (λ _, 64) (λ _, 64) (λ _, 64).
Definition sample_batch_of (n : string) : PushBatch :=
  mkPushBatch n ((λ x, mkPushEntry "hot" x.1 x.2) <$> QueryState.to_snapshots sample_one 0 20).
Definition at_zero : string → string → Z := λ _ _, 0.
Definition sample_requests : list Request :=
  [Push at_zero 0 (sample_batch_of "a"); Push at_zero 1 (sample_batch_of "b"); Scrape at_zero].
Definition sample_gateway : GatewayState :=
  mkGateway [sample_plan] HashSpec_default 100 2 1000 GatewayData_default (mkCounters 0 0 0 0 0 0 0).

Lemma sample_deployable : deployable 0 fp0 [sample_plan].
Proof.
  split_and!.
  - apply (bool_decide_unpack _). vm_compute. exact I.
  - apply Forall_singleton, (po_supported _ _ sample_plan_ok).
  - intros [s ? ?]. unfold mem. destruct s; by range_tac.
  - apply Forall_singleton. intros H. exfalso. revert H. vm_compute. auto.
Qed.

Lemma sample_gateway_new : GatewayState_new [sample_plan] HashSpec_default 100 2 1000 = Ok sample_gateway.
Proof. reflexivity. Qed.

Lemma sample_batch_trusted n : batch_trusted 0 [sample_plan] HashSpec_default (sample_batch_of n).
Proof.
  split.
  - apply (bool_decide_unpack _). vm_compute. exact I.
  - intros q p Hp b m t _ Hm. apply find_plan_spec in Hp as [->%list_elem_of_singleton _].
    rewrite sample_build in Hm. vm_compute in Hm. discriminate Hm.
Qed.

Lemma sample_requests_ok : Forall (request_ok 0 [sample_plan] HashSpec_default) sample_requests.
Proof.
  repeat (apply Forall_cons; split); [split; [apply sample_batch_trusted|by vm_compute]..|exact I|by apply Forall_nil].
Qed.

Lemma sample_exports n :
  exports 0 [sample_plan] HashSpec_default (sample_batch_of n) "hot" (0, 20) [sample_item].
Proof.
  exists sample_plan, sample_state, sample_one.
  split; [split; [vm_compute; reflexivity|exact sample_build]|].
  split; [apply sample_one_good|].
  split; [eapply (good_summary 0 sample_plan HashSpec_default sample_state);
    [apply sample_plan_ok|exact sample_build|exact sample_one_good]|].
  split; [exact sample_one_shippable|]. split; [by range_tac|]. split; [by range_tac|].
  vm_compute. reflexivity.
Qed.

Lemma sample_genuine : Forall (genuine 0 [sample_plan] HashSpec_default) sample_requests.
Proof.
  assert (∀ n q, components_of q (entries (sample_batch_of n)) = [] ∨
    ∃ bnds items, exports 0 [sample_plan] HashSpec_default (sample_batch_of n) q bnds items) as H.
  { intros n q. destruct (decide (q = "hot")) as [->|Hne].
    - right. exists (0, 20), [sample_item]. apply sample_exports.
    - left. unfold components_of.
      replace (base.filter (λ e, query_name e = q) (entries (sample_batch_of n))) with (@nil PushEntry); [done|].
      symmetry. apply length_zero_iff_nil. destruct (base.filter _ _) as [|e l] eqn:E; [done|]. exfalso.
      assert (e ∈ base.filter (λ e, query_name e = q) (entries (sample_batch_of n))) as Hin by (rewrite E; by left).
      apply list_elem_of_filter in Hin as [Hq Hin]. unfold sample_batch_of in Hin. cbn [entries] in Hin.
      apply list_elem_of_fmap in Hin as (x & -> & _). by apply Hne. }
  repeat (apply Forall_cons; split); [exact (H "a")|exact (H "b")|exact I|by apply Forall_nil].
Qed.

Definition sample_served : GatewayState :=
  run_or sample_gateway (foldM (serve 0 fp0 a_log a_log) sample_gateway sample_requests).

Lemma sample_run : foldM (serve 0 fp0 a_log a_log) sample_gateway sample_requests = Ok sample_served.
Proof.
  unfold sample_served. destruct (run_inv 0 fp0 a_log a_log [sample_plan] HashSpec_default sample_deployable
    sample_gateway sample_requests (new_inv 0 fp0 _ _ 100 2 1000 _ ltac:(done) sample_gateway_new)
    sample_requests_ok) as (g & -> & _). reflexivity.
Qed.

Lemma sample_reachable : reachable 0 fp0 a_log a_log [sample_plan] HashSpec_default sample_served.
Proof.
  exists 100, 2, 1000, sample_gateway, sample_requests. split; [done|].
  split; [exact sample_gateway_new|]. split; [exact sample_requests_ok|exact sample_run].
Qed.


Lemma merge_cache_transparent_witness :
  ∃ ms g' d, merged a_log a_log 0 fp0 at_zero sample_served = Ok (ms, g') ∧
    all_uncached 0 fp0 [sample_plan] a_log a_log d = Ok ms.
Proof.
  destruct (merge_cache_transparent 0 fp0 a_log a_log [sample_plan] HashSpec_default sample_served at_zero
    sample_deployable sample_reachable) as (ms & g' & d & H1 & _ & _ & H2).
  exists ms, g', d. split; [exact H1|exact H2].
Defined.


