(* ===== verification/AgentConfig.v ===== *)
(** * The agent's configuration  (crates/flowsketch-agent/src/config.rs)

    From the document an operator writes to a checked [AgentConfig], the plans of
    its query files, and the runtime the agent starts with (the first part of
    [run_until] in lib.rs).  serde_yaml's deserializers and the files are
    parameters; paths are Unix paths, as bytes.  Errors are the code's, by cause.

    Proved: validation accepts exactly the documents of a declarative reading,
    with the defaults filled in; what is loaded fits the memory budget. *)
From S2P Require Import Prelude Bytes Utf8 Maps Hash Sketch F64 Event Ir Yaml Planner QueryState Window.
From S2P Require Import Engine Sharded Batch Table Lanes.

Inductive RuntimeShardStrategy := Flow | RoundRobin.
#[export] Instance RuntimeShardStrategy_eq_dec : EqDecision RuntimeShardStrategy.
Proof. solve_decision. Defined.
Inductive AfPacketFanoutMode := Single | HashFanout | RxQueue.
#[export] Instance AfPacketFanoutMode_eq_dec : EqDecision AfPacketFanoutMode.
Proof. solve_decision. Defined.

Record CpuAffinityConfig := mkAffinity { capture_cpus : list Z; runtime_cpus : list Z }.

(** One CPU or a list of them. *)
Inductive OneOrMany := One (cpu : Z) | Many (cpus : list Z).
Definition deserialize_capture_cpus (x : OneOrMany) : list Z :=
  match x with One cpu => [cpu] | Many cpus => cpus end.

Inductive SourceConfig :=
  | PcapSource (path : string)
  | AfPacket (interface : string) (ring_block_size_bytes ring_block_count block_retire_timeout_ms : Z)
      (fanout_mode : AfPacketFanoutMode) (fanout_group : Z)
  | EbpfSource (interface object_path : string) (ring_buffer_bytes : Z) (fallback_to_af_packet : bool).

Definition capture_lane_count (s : SourceConfig) (runtime_shards : Z) : Z :=
  match s with
  | AfPacket _ _ _ _ fanout_mode _ => if bool_decide (fanout_mode ≠ Single) then runtime_shards else 1
  | _ => 1
  end.
Definition af_packet_fanout_lanes (s : SourceConfig) (runtime_shards : Z) : Z :=
  match s with
  | AfPacket _ _ _ _ fanout_mode _ => if bool_decide (fanout_mode ≠ Single) then runtime_shards else 0
  | _ => 0
  end.

Definition MIN_RING_BLOCK_SIZE_BYTES : Z := 64 * 1024.
Definition MAX_RING_BLOCK_SIZE_BYTES : Z := 16 * 1024 * 1024.
Definition MAX_RING_BYTES : Z := 1024 * 1024 * 1024.
Definition MIN_EBPF_RING_BYTES : Z := 64 * 1024.
Definition MAX_EBPF_RING_BYTES : Z := 1024 * 1024 * 1024.
Definition MAX_LINUX_CPU_ID : Z := 1023.
Definition MAX_LINUX_INTERFACE_NAME_BYTES : Z := 15.
Definition DEFAULT_MAX_SKETCH_MEMORY_BYTES : Z := 1024 * 1024 * 1024.
Definition MIN_MAX_SKETCH_MEMORY_BYTES : Z := 1024 * 1024.
Definition MAX_MAX_SKETCH_MEMORY_BYTES : Z := 1024 * 1024 * 1024 * 1024.

(** ** The document *)

Record RawAgent := mkRawAgent {
  ra_node_name : option string;
  ra_listen : option string;
  ra_seed : option Z;
  ra_flush_interval_ms : option Z;
  ra_runtime_shards : option Z;
  ra_runtime_batch_size : option Z;
  ra_max_sketch_memory_bytes : option Z;
  ra_runtime_shard_strategy : option RuntimeShardStrategy;
  ra_cpu_affinity : option CpuAffinityConfig;
  ra_source : SourceConfig;
}.
(** [RawOtlp] and [RawGatewayPush]: an endpoint and its interval. *)
Record RawEndpoint := mkRawEndpoint { re_endpoint : string; re_interval_ms : option Z }.
Record RawAgentExport := mkRawAgentExport { re_otlp : option RawEndpoint; re_gateway : option RawEndpoint }.
Record RawConfig := mkRawConfig {
  rc_agent : RawAgent;
  rc_queries : list string;
  rc_export : option RawAgentExport;
}.

(** [OtlpConfig] and [PushConfig] *)
Record Exporter := mkExporter { ex_endpoint : string; ex_interval_ms : Z }.

Record AgentConfig := mkAgentConfig {
  node_name : string;
  listen : string;
  ac_seed : Z;
  flush_interval_ms : Z;
  runtime_shards : Z;
  runtime_batch_size : Z;
  max_sketch_memory_bytes : Z;
  runtime_shard_strategy : RuntimeShardStrategy;
  cpu_affinity : option CpuAffinityConfig;
  source : SourceConfig;
  query_files : list string;
  otlp : option Exporter;
  gateway : option Exporter;
}.

Inductive CpuList := CaptureCpus | RuntimeCpus.
Inductive ConfigError (Y : Type) :=
  | Syntax (e : Y)
  | NoQueries
  | BlankNodeName
  | LongNodeName (len : Z)
  | RuntimeShardsRange
  | RuntimeBatchSizeRange
  | MaxSketchMemoryRange
  | CpuCount (which : CpuList) (expected : Z)
  | CpuRange (which : CpuList)
  | CpuDuplicate (which : CpuList)
  | EmptyInterface
  | InvalidInterface
  | RingBlockSize
  | RingBlockCount
  | RingOverflow
  | RingBytes (aggregate : Z)
  | BlockRetireTimeout
  | FanoutShards
  | FanoutStrategy
  | EmptyObjectPath
  | EbpfRingBytes
  | OtlpEndpoint (endpoint : string)
  | GatewayEndpoint (endpoint : string)
  | GatewayNodeName
  | CannotRead (path : string)
  | QueryFile (path : string) (e : QueryParseError Y)
  | PlanFile (path : string) (e : PlanError)
  | DuplicateQueryName (name : string)
  | MemoryOverflow
  | MemoryBudget (aggregate : Z).
Arguments Syntax {Y}. Arguments NoQueries {Y}. Arguments BlankNodeName {Y}. Arguments LongNodeName {Y}.
Arguments RuntimeShardsRange {Y}. Arguments RuntimeBatchSizeRange {Y}. Arguments MaxSketchMemoryRange {Y}.
Arguments CpuCount {Y}. Arguments CpuRange {Y}. Arguments CpuDuplicate {Y}. Arguments EmptyInterface {Y}.
Arguments InvalidInterface {Y}. Arguments RingBlockSize {Y}. Arguments RingBlockCount {Y}. Arguments RingOverflow {Y}.
Arguments RingBytes {Y}. Arguments BlockRetireTimeout {Y}. Arguments FanoutShards {Y}. Arguments FanoutStrategy {Y}.
Arguments EmptyObjectPath {Y}. Arguments EbpfRingBytes {Y}. Arguments OtlpEndpoint {Y}. Arguments GatewayEndpoint {Y}.
Arguments GatewayNodeName {Y}. Arguments CannotRead {Y}. Arguments QueryFile {Y}. Arguments PlanFile {Y}.
Arguments DuplicateQueryName {Y}. Arguments MemoryOverflow {Y}. Arguments MemoryBudget {Y}.

(** [(lo..=hi).contains(&x)] *)
Definition within (lo hi x : Z) : bool := (lo <=? x) && (x <=? hi).
(** [u32::is_power_of_two]: one bit is set. *)
Definition is_power_of_two (x : Z) : bool := negb (x =? 0) && (Z.land x (x - 1) =? 0).
(** [str::starts_with], [str::contains] of an ASCII character *)
Definition starts_with (prefix s : string) : bool := String.prefix prefix s.
Definition has_byte (b : Z) (s : string) : bool := existsb (Z.eqb b) (bytes_of_string s).

Section config.
Context {Y : Type}.
Abbreviation res := (outcome (ConfigError Y)).

(** ** Validation *)

Definition validate_cpus (which : CpuList) (cpus : list Z) (expected : Z) : res unit :=
  _ ← fail_if (negb (zlen cpus =? expected)) (CpuCount which expected);
  _ ← fail_if (existsb (λ cpu, MAX_LINUX_CPU_ID <? cpu) cpus) (CpuRange which);
  fail_if (negb (zlen (elements (list_to_set cpus : gset Z)) =? zlen cpus)) (CpuDuplicate which).
Definition validate_cpu_affinity (affinity : option CpuAffinityConfig) (capture_lanes runtime_shards : Z) : res unit :=
  match affinity with
  | None => Ok tt
  | Some affinity =>
      _ ← validate_cpus CaptureCpus (capture_cpus affinity) capture_lanes;
      validate_cpus RuntimeCpus (runtime_cpus affinity) runtime_shards
  end.

Definition validate_interface (interface : string) : res unit :=
  _ ← fail_if (bool_decide (trim (str_chars interface) = [])) EmptyInterface;
  fail_if ((MAX_LINUX_INTERFACE_NAME_BYTES <? zlen (bytes_of_string interface)) ||
           has_byte 47 interface || has_byte 0 interface) InvalidInterface.

Definition validate_source (source : SourceConfig) (runtime_shards : Z) (shard_strategy : RuntimeShardStrategy) : res unit :=
  match source with
  | PcapSource _ => Ok tt
  | AfPacket interface ring_block_size_bytes ring_block_count block_retire_timeout_ms fanout_mode _ =>
      _ ← validate_interface interface;
      _ ← fail_if (negb (within MIN_RING_BLOCK_SIZE_BYTES MAX_RING_BLOCK_SIZE_BYTES ring_block_size_bytes) ||
                   negb (is_power_of_two ring_block_size_bytes)) RingBlockSize;
      _ ← fail_if (ring_block_count =? 0) RingBlockCount;
      let ring_bytes := ring_block_size_bytes *ʷ ring_block_count in
      let lanes := if bool_decide (fanout_mode = Single) then 1 else runtime_shards in
      aggregate_ring_bytes ← ok_or (checked_mul ring_bytes lanes) RingOverflow;
      _ ← fail_if (MAX_RING_BYTES <? aggregate_ring_bytes) (RingBytes aggregate_ring_bytes);
      _ ← fail_if (negb (within 1 1000 block_retire_timeout_ms)) BlockRetireTimeout;
      if bool_decide (fanout_mode ≠ Single) then
        _ ← fail_if (runtime_shards <? 2) FanoutShards;
        fail_if (bool_decide (shard_strategy ≠ Flow)) FanoutStrategy
      else Ok tt
  | EbpfSource interface object_path ring_buffer_bytes _ =>
      _ ← validate_interface interface;
      _ ← fail_if (bool_decide (object_path = "")) EmptyObjectPath;
      fail_if (negb (within MIN_EBPF_RING_BYTES MAX_EBPF_RING_BYTES ring_buffer_bytes) ||
               negb (is_power_of_two ring_buffer_bytes)) EbpfRingBytes
  end.

Definition check_node_name (name : option string) : res unit :=
  match name with
  | Some node_name =>
      let len := zlen (bytes_of_string node_name) in
      _ ← fail_if (bool_decide (trim (str_chars node_name) = [])) BlankNodeName;
      fail_if (MAX_NODE_NAME_BYTES <? len) (LongNodeName len)
  | None => Ok tt
  end.

(** An endpoint with its interval, at least 100 ms. *)
Definition exporter_of (e : RawEndpoint) : Exporter :=
  mkExporter (re_endpoint e) (Z.max (default 5000 (re_interval_ms e)) 100).
Definition check_endpoint (e : option Exporter) (error : string → ConfigError Y) : res unit :=
  match e with
  | Some e => fail_if (negb (starts_with "http://" (ex_endpoint e))) (error (ex_endpoint e))
  | None => Ok tt
  end.

Definition from_raw (raw : RawConfig) : res AgentConfig :=
  let agent := rc_agent raw in
  _ ← fail_if (bool_decide (rc_queries raw = [])) NoQueries;
  _ ← check_node_name (ra_node_name agent);
  let runtime_shards := default 1 (ra_runtime_shards agent) in
  _ ← fail_if (negb (within 1 256 runtime_shards)) RuntimeShardsRange;
  let runtime_batch_size := default 4096 (ra_runtime_batch_size agent) in
  _ ← fail_if (negb (within 1 65536 runtime_batch_size)) RuntimeBatchSizeRange;
  let max_sketch_memory_bytes := default DEFAULT_MAX_SKETCH_MEMORY_BYTES (ra_max_sketch_memory_bytes agent) in
  _ ← fail_if (negb (within MIN_MAX_SKETCH_MEMORY_BYTES MAX_MAX_SKETCH_MEMORY_BYTES max_sketch_memory_bytes))
        MaxSketchMemoryRange;
  let runtime_shard_strategy := default Flow (ra_runtime_shard_strategy agent) in
  let cpu_affinity := ra_cpu_affinity agent in
  _ ← validate_source (ra_source agent) runtime_shards runtime_shard_strategy;
  _ ← validate_cpu_affinity cpu_affinity (capture_lane_count (ra_source agent) runtime_shards) runtime_shards;
  let export := default (mkRawAgentExport None None) (rc_export raw) in
  let otlp := exporter_of <$> re_otlp export in
  _ ← check_endpoint otlp OtlpEndpoint;
  let gateway := exporter_of <$> re_gateway export in
  _ ← check_endpoint gateway GatewayEndpoint;
  _ ← fail_if (bool_decide (is_Some gateway) && bool_decide (ra_node_name agent = None)) GatewayNodeName;
  Ok (mkAgentConfig (default "unknown" (ra_node_name agent)) (default "127.0.0.1:9464" (ra_listen agent))
        (default 0 (ra_seed agent)) (Z.max (default 1000 (ra_flush_interval_ms agent)) 10)
        runtime_shards runtime_batch_size max_sketch_memory_bytes runtime_shard_strategy cpu_affinity
        (ra_source agent) (rc_queries raw) otlp gateway).

Definition from_yaml (from_str : string → Y + RawConfig) (yaml : string) : res AgentConfig :=
  match from_str yaml with inl e => Err (Syntax e) | inr raw => from_raw raw end.

(** ** Files *)

(** [Path::is_relative] and [Path::join] *)
Definition is_relative (path : string) : bool := negb (starts_with "/" path).
Definition join_path (dir path : string) : string :=
  if is_relative path then
    (dir +:+ (match last (bytes_of_string dir) with None | Some 47 => "" | _ => "/" end) +:+ path)%string
  else path.
Definition resolve (dir path : string) : string := if is_relative path then join_path dir path else path.

(** [read]: the files; [parent]: the directory of the configuration file. *)
Definition from_file (read : string → option string) (from_str : string → Y + RawConfig) (path : string)
    (parent : option string) : res AgentConfig :=
  yaml ← ok_or (read path) (CannotRead path);
  cfg ← from_yaml from_str yaml;
  match parent with
  | None => Ok cfg
  | Some dir =>
      let source := match source cfg with
        | PcapSource path => PcapSource (resolve dir path)
        | EbpfSource interface object_path ring fallback => EbpfSource interface (resolve dir object_path) ring fallback
        | AfPacket i a b c d e => AfPacket i a b c d e
        end in
      Ok (mkAgentConfig (node_name cfg) (listen cfg) (ac_seed cfg) (flush_interval_ms cfg) (runtime_shards cfg)
            (runtime_batch_size cfg) (max_sketch_memory_bytes cfg) (runtime_shard_strategy cfg) (cpu_affinity cfg)
            source (resolve dir <$> query_files cfg) (otlp cfg) (gateway cfg))
  end.

(** ** Plans *)

Context (read : string → option string) (parse_query : string → outcome (QueryParseError Y) LogicalQuery).
Context (plan_query : LogicalQuery → outcome PlanError Plan).

Definition checked_add (a b : Z) : option Z := if a + b <? u64_mod then Some (a + b) else None.

Definition load_plan (acc : list Plan * gset string) (file : string) : res (list Plan * gset string) :=
  let '(plans, names) := acc in
  yaml ← ok_or (read file) (CannotRead file);
  query ← map_err (QueryFile file) (parse_query yaml);
  planned ← map_err (PlanFile file) (plan_query query);
  let name := q_name (Planner.query planned) in
  _ ← fail_if (bool_decide (name ∈ names)) (DuplicateQueryName name);
  Ok (plans ++ [planned], {[name]} ∪ names).

Definition load_plans (cfg : AgentConfig) : res (list Plan) :=
  '(plans, _) ← foldM load_plan ([], ∅) (query_files cfg);
  let per_shard_bytes := foldl (λ total planned, total ≫= λ total, checked_add total (pl_estimated_memory_bytes (physical planned)))
                           (Some 0) plans in
  aggregate_bytes ← ok_or (per_shard_bytes ≫= λ bytes, checked_mul bytes (runtime_shards cfg)) MemoryOverflow;
  _ ← fail_if (max_sketch_memory_bytes cfg <? aggregate_bytes) (MemoryBudget aggregate_bytes);
  Ok plans.
End config.

(** ** Starting the runtime  (lib.rs, [run_until]) *)

Section start.
Context {S : Type} `{WS : !WindowSketch S}.

Definition EVENT_CHANNEL_CAPACITY : Z := 65536.

Inductive RuntimePath := Shared (engine : ShardedQueryEngine S) | Direct (lanes : list (Lane (S := S))).

(** The clock's reading is that of [DirectRuntime::new]. *)
Definition start_runtime (build_runtime_pool : Z → option (list Z) → outcome SketchError unit) (cfg : AgentConfig)
    (plans : list Plan) (now_nanos : Z) : outcome AgentError RuntimePath :=
  let hash := HashSpec_new (ac_seed cfg) in
  let fanout_lanes := af_packet_fanout_lanes (source cfg) (runtime_shards cfg) in
  let worker_cpus := runtime_cpus <$> cpu_affinity cfg in
  if negb (fanout_lanes =? 0) then
    lanes ← new_with_options plans hash fanout_lanes (runtime_batch_size cfg) worker_cpus EVENT_CHANNEL_CAPACITY
              (Z.min now_nanos u64_max);
    Ok (Direct lanes)
  else
    engine ← map_err Lanes.Engine (new_inner build_runtime_pool plans hash (runtime_shards cfg) worker_cpus);
    Ok (Shared engine).
End start.
