(* ===== verification/Startup.v ===== *)
(** * From configuration to a running agent

    What a checked configuration guarantees: a declarative reading of the
    document, the memory budget of the loaded plans, and, composed with the
    query language, the planner and the queue-local runtime, that a configured
    agent starts and keeps the runtime's guarantees. *)
From stdpp Require Import relations.
From S2P Require Import Prelude Bytes Utf8 Maps Hash Sketch F64 Event Ir Yaml Planner QueryState Window.
From S2P Require Import Engine Sharded WindowSpec Sliding EngineSpec PlanRuns ShardedSpec Lanes LaneReports LanesSpec.
From S2P Require Import Barrier Checkpoints Batch Table AgentConfig.

(** ** Powers of two *)

Lemma is_power_of_two_iff x : 0 <= x → is_power_of_two x = true ↔ ∃ k, 0 <= k ∧ x = 2 ^ k.
Proof.
  intros Hx. unfold is_power_of_two. rewrite andb_true_iff, negb_true_iff, Z.eqb_neq, Z.eqb_eq. split.
  - intros [H0 Hl]. exists (Z.log2 x). pose proof (Z.log2_nonneg x). split; [done|].
    pose proof (Z.log2_spec x ltac:(lia)) as [Hlo Hhi].
    destruct (decide (x = 2 ^ Z.log2 x)) as [|Hne]; [done|]. exfalso.
    assert (Z.log2 (x - 1) = Z.log2 x) as Heq.
    { apply Z.log2_unique; [done|]. rewrite Z.pow_succ_r in * by done. lia. }
    assert (Z.testbit (Z.land x (x - 1)) (Z.log2 x) = true) as Hb.
    { rewrite Z.land_spec, Z.bit_log2 by lia. rewrite <- Heq. apply Z.bit_log2. destruct (decide (x = 1)) as [->|]; [done|lia]. }
    rewrite Hl, Z.bits_0 in Hb. done.
  - intros (k & Hk & ->). pose proof (Z.pow_pos_nonneg 2 k ltac:(lia) Hk). split; [lia|].
    replace (2 ^ k - 1) with (Z.ones k) by (rewrite Z.ones_equiv; lia).
    rewrite Z.land_ones by done. by apply Z.mod_same; lia.
Qed.

Lemma power_within x lo hi : 0 <= x → 0 <= lo →
  within (2 ^ lo) (2 ^ hi) x && is_power_of_two x = true ↔ ∃ k, lo <= k <= hi ∧ x = 2 ^ k.
Proof.
  intros Hx Hlo. unfold within. rewrite !andb_true_iff, !Z.leb_le, is_power_of_two_iff by done. split.
  - intros ([H1 H2] & k & Hk & ->). exists k. split; [|done]. split; [apply (Z.pow_le_mono_r_iff 2); lia|].
    destruct (decide (0 <= hi)); [apply (Z.pow_le_mono_r_iff 2); lia|].
    rewrite (Z.pow_neg_r 2 hi) in H2 by lia. pose proof (Z.pow_pos_nonneg 2 k). lia.
  - intros (k & Hk & ->). split; [|exists k; split; [lia|done]]. split; apply Z.pow_le_mono_r; lia.
Qed.

(** ** What a valid document says *)

Definition cpus_ok (expected : Z) (cpus : list Z) : Prop :=
  zlen cpus = expected ∧ Forall (λ cpu, cpu <= MAX_LINUX_CPU_ID) cpus ∧ NoDup cpus.
Definition affinity_ok (a : option CpuAffinityConfig) (lanes shards : Z) : Prop :=
  ∀ c, a = Some c → cpus_ok lanes (capture_cpus c) ∧ cpus_ok shards (runtime_cpus c).
Definition not_blank (s : string) : Prop := trim (str_chars s) ≠ [].
Definition interface_ok (s : string) : Prop :=
  not_blank s ∧ zlen (bytes_of_string s) <= 15 ∧ ¬ (47 ∈ bytes_of_string s) ∧ ¬ (0 ∈ bytes_of_string s).

(** A receive ring of at most 1 GiB over all lanes, in blocks of 64 KiB to 16 MiB;
    several lanes only for kernel-partitioned flows. *)
Definition source_ok (src : SourceConfig) (shards : Z) (strategy : RuntimeShardStrategy) : Prop :=
  match src with
  | PcapSource _ => True
  | AfPacket interface size count timeout mode _ =>
      interface_ok interface ∧ (∃ k, 16 <= k <= 24 ∧ size = 2 ^ k) ∧ count ≠ 0 ∧
      size * count * (if bool_decide (mode = Single) then 1 else shards) <= 2 ^ 30 ∧
      1 <= timeout <= 1000 ∧ (mode ≠ Single → 2 <= shards ∧ strategy = Flow)
  | EbpfSource interface object_path ring _ =>
      interface_ok interface ∧ object_path ≠ "" ∧ ∃ k, 16 <= k <= 30 ∧ ring = 2 ^ k
  end.

Definition endpoint_ok (e : option RawEndpoint) : Prop :=
  ∀ e', e = Some e' → ∃ rest, re_endpoint e' = ("http://" +:+ rest)%string.

(** The values of a document's fields fit their types. *)
Definition source_typed (src : SourceConfig) : Prop :=
  match src with
  | PcapSource _ => True
  | AfPacket _ size count timeout _ group => u32_ok size ∧ u32_ok count ∧ u32_ok timeout ∧ u16_ok group
  | EbpfSource _ _ ring _ => u32_ok ring
  end.
Definition raw_typed (raw : RawConfig) : Prop := source_typed (ra_source (rc_agent raw)).

Record valid (raw : RawConfig) : Prop := {
  va_queries : rc_queries raw ≠ [];
  va_node : ∀ n, ra_node_name (rc_agent raw) = Some n → not_blank n ∧ zlen (bytes_of_string n) <= 253;
  va_shards : 1 <= default 1 (ra_runtime_shards (rc_agent raw)) <= 256;
  va_batch : 1 <= default 4096 (ra_runtime_batch_size (rc_agent raw)) <= 65536;
  va_memory : 2 ^ 20 <= default (2 ^ 30) (ra_max_sketch_memory_bytes (rc_agent raw)) <= 2 ^ 40;
  va_source : source_ok (ra_source (rc_agent raw)) (default 1 (ra_runtime_shards (rc_agent raw)))
    (default Flow (ra_runtime_shard_strategy (rc_agent raw)));
  va_affinity : affinity_ok (ra_cpu_affinity (rc_agent raw))
    (capture_lane_count (ra_source (rc_agent raw)) (default 1 (ra_runtime_shards (rc_agent raw))))
    (default 1 (ra_runtime_shards (rc_agent raw)));
  va_otlp : endpoint_ok (rc_export raw ≫= re_otlp);
  va_gateway : endpoint_ok (rc_export raw ≫= re_gateway);
  va_named : is_Some (rc_export raw ≫= re_gateway) → is_Some (ra_node_name (rc_agent raw));
}.

(** The configuration a valid document stands for. *)
Definition filled (raw : RawConfig) : AgentConfig :=
  let a := rc_agent raw in
  mkAgentConfig (default "unknown" (ra_node_name a)) (default "127.0.0.1:9464" (ra_listen a)) (default 0 (ra_seed a))
    (Z.max 10 (default 1000 (ra_flush_interval_ms a))) (default 1 (ra_runtime_shards a))
    (default 4096 (ra_runtime_batch_size a)) (default (2 ^ 30) (ra_max_sketch_memory_bytes a))
    (default Flow (ra_runtime_shard_strategy a)) (ra_cpu_affinity a) (ra_source a) (rc_queries raw)
    ((λ e, mkExporter (re_endpoint e) (Z.max 100 (default 5000 (re_interval_ms e)))) <$> (rc_export raw ≫= re_otlp))
    ((λ e, mkExporter (re_endpoint e) (Z.max 100 (default 5000 (re_interval_ms e)))) <$> (rc_export raw ≫= re_gateway)).

Lemma then_iff {E A} (m : outcome E unit) (k : outcome E A) x : (_ ← m; k) = Ok x ↔ m = Ok tt ∧ k = Ok x.
Proof. destruct m as [[]| |]; cbn; split; [by intros|by intros [_ ?]|done|by intros [? _]|done|by intros [? _]]. Qed.

Lemma and_cong (A B C : Prop) : (A → (B ↔ C)) → (A ∧ B ↔ A ∧ C).
Proof. tauto. Qed.

Section valid.
Context {Y : Type}.
Abbreviation res := (outcome (ConfigError Y)).

Lemma validate_cpus_iff which cpus expected : validate_cpus (Y := Y) which cpus expected = Ok tt ↔ cpus_ok expected cpus.
Proof using.
  unfold validate_cpus, cpus_ok. rewrite !then_iff, !fail_if_ok, !negb_false_iff, !Z.eqb_eq.
  assert (existsb (λ cpu, MAX_LINUX_CPU_ID <? cpu) cpus = false ↔ Forall (λ cpu, cpu <= MAX_LINUX_CPU_ID) cpus) as ->.
  { rewrite <- not_true_iff_false, existsb_exists, Forall_forall. setoid_rewrite <- list_elem_of_In. split.
    - intros H c Hc. apply Z.nlt_ge. intros Hlt. apply H. exists c. by rewrite Z.ltb_lt.
    - intros H (c & Hc & Hlt%Z.ltb_lt). specialize (H c Hc). lia. }
  enough (zlen (elements (list_to_set cpus : gset Z)) = zlen cpus ↔ NoDup cpus) as -> by tauto.
  assert (∀ l : list Z, (length (elements (list_to_set l : gset Z)) <= length l)%nat) as Hle.
  { intros l. change (length (elements (list_to_set l : gset Z))) with (size (list_to_set l : gset Z)).
    induction l as [|x l IH]; [cbn [list_to_set length]; rewrite size_empty; lia|]. cbn [list_to_set length].
    pose proof (size_union_alt {[x]} (list_to_set l : gset Z)). rewrite size_singleton in *.
    pose proof (subseteq_size (list_to_set l ∖ {[x]}) (list_to_set l : gset Z) ltac:(set_solver)). lia. }
  unfold zlen. rewrite Nat2Z.inj_iff. split.
  - induction cpus as [|c cpus IH]; [constructor|]. cbn [list_to_set length]. intros H.
    destruct (decide (c ∈ cpus)) as [Hin|Hin].
    + exfalso. replace ({[c]} ∪ list_to_set cpus : gset Z) with (list_to_set cpus : gset Z) in H
        by (symmetry; apply subseteq_union_1_L; set_solver). specialize (Hle cpus). lia.
    + constructor; [done|]. apply IH.
      change (length (elements ?X)) with (size X) in *. rewrite size_union in H by set_solver. rewrite size_singleton in H. lia.
  - intros Hnd. by rewrite (elements_list_to_set cpus Hnd).
Qed.

Lemma affinity_iff a lanes shards : validate_cpu_affinity (Y := Y) a lanes shards = Ok tt ↔ affinity_ok a lanes shards.
Proof using.
  unfold validate_cpu_affinity, affinity_ok. destruct a as [c|].
  - rewrite then_iff, !validate_cpus_iff. split; [by intros H c' [= <-]|by intros H; apply H].
  - split; [by intros _ c|done].
Qed.

Lemma has_byte_iff b s : has_byte b s = false ↔ b ∉ bytes_of_string s.
Proof using.
  unfold has_byte. rewrite <- not_true_iff_false, existsb_exists. setoid_rewrite <- list_elem_of_In.
  setoid_rewrite Z.eqb_eq. naive_solver.
Qed.

Lemma interface_iff s : validate_interface (Y := Y) s = Ok tt ↔ interface_ok s.
Proof using.
  unfold validate_interface, interface_ok, not_blank, MAX_LINUX_INTERFACE_NAME_BYTES.
  rewrite then_iff, !fail_if_ok, bool_decide_eq_false, !orb_false_iff, Z.ltb_ge, !has_byte_iff. tauto.
Qed.

Lemma source_iff src shards strategy : source_typed src → 1 <= shards <= 256 →
  validate_source (Y := Y) src shards strategy = Ok tt ↔ source_ok src shards strategy.
Proof using.
  intros Ht Hs. unfold validate_source, source_ok. destruct src as [p|i size count timeout mode g|i path ring fb]; [done| |].
  - destruct Ht as (Hsz & Hct & Hto & _). rewrite !then_iff, interface_iff, !fail_if_ok, orb_false_iff, !negb_false_iff.
    rewrite <- andb_true_iff. change MIN_RING_BLOCK_SIZE_BYTES with (2 ^ 16). change MAX_RING_BLOCK_SIZE_BYTES with (2 ^ 24).
    rewrite power_within by (word_lia || lia). rewrite Z.eqb_neq. unfold wmul64, wrap64. rewrite Z.mod_small by (unfold u32_ok in *; nia).
    apply and_cong. intros _. apply and_cong. intros (k & Hk & Hpow). apply and_cong. intros _.
    set (lanes := if bool_decide (mode = Single) then 1 else shards).
    assert (1 <= lanes <= 256) as Hl by (unfold lanes; case_bool_decide; lia).
    assert (size <= 2 ^ 24) as Hle by (rewrite Hpow; apply Z.pow_le_mono_r; lia).
    assert (size * count * lanes < u64_mod) as Hlt.
    { unfold u32_ok in *. assert (0 <= size * count <= 2 ^ 24 * 4294967295) by nia. nia. }
    unfold checked_mul. rewrite (proj2 (Z.ltb_lt _ _) Hlt). ostep.
    rewrite !then_iff, !fail_if_ok, Z.ltb_ge, negb_false_iff. unfold within at 1. rewrite andb_true_iff, !Z.leb_le.
    change MAX_RING_BYTES with (2 ^ 30).
    enough ((if bool_decide (mode ≠ Single) then _ ← fail_if (shards <? 2) FanoutShards; fail_if (bool_decide (strategy ≠ Flow)) FanoutStrategy
      else Ok tt : res unit) = Ok tt ↔ (mode ≠ Single → 2 <= shards ∧ strategy = Flow)) as -> by tauto.
    case_bool_decide as Hm; [|tauto]. rewrite then_iff, !fail_if_ok, Z.ltb_ge, bool_decide_eq_false.
    split; [intros [H1 H2] _; split; [done|by apply dec_stable]|intros H; destruct (H Hm) as [? ->]; by split; [|intros []]].
  - rewrite !then_iff, interface_iff, !fail_if_ok, orb_false_iff, !negb_false_iff, bool_decide_eq_false, <- andb_true_iff.
    change MIN_EBPF_RING_BYTES with (2 ^ 16). change MAX_EBPF_RING_BYTES with (2 ^ 30).
    rewrite power_within by (cbn in Ht; word_lia || lia). tauto.
Qed.

Lemma starts_with_iff prefix s : starts_with prefix s = true ↔ ∃ rest, s = (prefix +:+ rest)%string.
Proof using.
  unfold starts_with. revert s. induction prefix as [|a prefix IH]; intros s.
  - split; [by intros _; exists s|intros _; by destruct s].
  - destruct s as [|b s]; [split; [done|by intros [rest [=]]]|]. cbn [String.prefix]. destruct (Ascii.ascii_dec a b) as [->|Hne].
    + rewrite IH. split; intros [rest H]; exists rest; [by rewrite H|by injection H].
    + split; [done|]. intros [rest H]. injection H as H _. congruence.
Qed.

Lemma endpoint_iff (e : option RawEndpoint) (error : string → ConfigError Y) :
  check_endpoint (exporter_of <$> e) error = Ok tt ↔ endpoint_ok e.
Proof using.
  unfold check_endpoint, endpoint_ok. destruct e as [e|]; cbn [fmap option_fmap option_map].
  - rewrite fail_if_ok, negb_false_iff. cbn [ex_endpoint exporter_of]. rewrite starts_with_iff.
    split; [by intros H e' [= <-]|intros H; by apply H].
  - split; [by intros _ e'|done].
Qed.

Lemma node_name_iff n : check_node_name (Y := Y) n = Ok tt ↔ ∀ n', n = Some n' → not_blank n' ∧ zlen (bytes_of_string n') <= 253.
Proof using.
  unfold check_node_name, not_blank. destruct n as [n|].
  - rewrite then_iff, !fail_if_ok, bool_decide_eq_false, Z.ltb_ge. unfold MAX_NODE_NAME_BYTES.
    split; [by intros H n' [= <-]|intros H; by apply H].
  - split; [by intros _ n'|done].
Qed.

Lemma within_iff lo hi x : negb (within lo hi x) = false ↔ lo <= x <= hi.
Proof using. unfold within. by rewrite negb_false_iff, andb_true_iff, !Z.leb_le. Qed.

Lemma exporter_fmap (e : option RawEndpoint) :
  exporter_of <$> e = (λ e, mkExporter (re_endpoint e) (Z.max 100 (default 5000 (re_interval_ms e)))) <$> e.
Proof using. destruct e; cbn; [|done]. unfold exporter_of. by rewrite Z.max_comm. Qed.

Lemma from_raw_iff raw cfg : raw_typed raw → from_raw (Y := Y) raw = Ok cfg ↔ valid raw ∧ cfg = filled raw.
Proof using.
  intros Ht. unfold from_raw. rewrite !then_iff, !fail_if_ok, node_name_iff, !within_iff, !endpoint_iff, affinity_iff,
    bool_decide_eq_false, andb_false_iff, !bool_decide_eq_false.
  assert (∀ (f : RawAgentExport → option RawEndpoint), f (mkRawAgentExport None None) = None →
    f (default (mkRawAgentExport None None) (rc_export raw)) = rc_export raw ≫= f) as Hexp by (intros f Hf; by destruct (rc_export raw)).
  rewrite !Hexp, fmap_is_Some by done.
  assert (¬ is_Some (rc_export raw ≫= re_gateway) ∨ ra_node_name (rc_agent raw) ≠ None ↔
    (is_Some (rc_export raw ≫= re_gateway) → is_Some (ra_node_name (rc_agent raw)))) as ->.
  { rewrite <- not_eq_None_Some. destruct (rc_export raw ≫= re_gateway) as [e|].
    - split; [intros [H|H] Hn; [by destruct (H Hn)|by apply not_eq_None_Some]|intros H; right; by apply not_eq_None_Some, H].
    - split; [intros _ H; by destruct H|intros _; left; intros H; by apply H]. }
  split.
  - intros (H1 & H2 & H3 & H4 & H5 & H6 & H7 & H8 & H9 & H10 & Hcfg). apply ok_inj in Hcfg. split.
    + split; try done. by apply source_iff.
    + by rewrite <- Hcfg, !exporter_fmap, Z.max_comm.
  - intros [[H1 H2 H3 H4 H5 H6 H7 H8 H9 H10] ->]. refine (conj H1 (conj H2 (conj H3 (conj H4 (conj H5 (conj _ (conj H7 (conj H8 (conj H9 (conj H10 _)))))))))); [by apply source_iff|].
    by rewrite !exporter_fmap, Z.max_comm.
Qed.

Lemma from_raw_no_panic raw : no_panic (from_raw (Y := Y) raw).
Proof using.
  unfold from_raw, check_node_name, validate_source, validate_interface, validate_cpu_affinity, validate_cpus, check_endpoint.
  destruct (ra_source _), (ra_node_name _), (ra_cpu_affinity _), (re_otlp _), (re_gateway _); cbn [fmap option_fmap option_map];
    no_panic_tac.
Qed.
End valid.

(** ** The plans of the query files *)

Section load.
Context {Y : Type} (read : string → option string) (parse_query : string → outcome (QueryParseError Y) LogicalQuery).
Context (plan_query : LogicalQuery → outcome PlanError Plan).

(** The memory the planner reserves for one engine that runs [plans]. *)
Definition planned_memory (plans : list Plan) : Z :=
  foldr (λ p total, pl_estimated_memory_bytes (physical p) + total) 0 plans.
Definition file_plan (file : string) (p : Plan) : Prop :=
  ∃ yaml q, read file = Some yaml ∧ parse_query yaml = Ok q ∧ plan_query q = Ok p.
Definition plan_names (plans : list Plan) : list string := (λ p, q_name (query p)) <$> plans.

Lemma load_loop files plans names plans' names' :
  foldM (load_plan read parse_query plan_query) (plans, names) files = Ok (plans', names') →
  ∃ new, plans' = plans ++ new ∧ Forall2 file_plan files new ∧ NoDup (plan_names new) ∧
    (∀ n, n ∈ plan_names new → n ∉ names).
Proof using.
  revert plans names. induction files as [|file files IH]; intros plans names H; cbn [foldM] in H.
  - apply ok_inj in H. injection H as -> ->. exists []. rewrite app_nil_r. split_and!; [done|constructor|constructor|].
    by intros n ?%elem_of_nil.
  - apply bind_ok in H as ([plans1 names1] & Hl & H). unfold load_plan in Hl.
    apply bind_ok in Hl as (yaml & Hy & Hl). apply bind_ok in Hl as (q & Hq & Hl). apply bind_ok in Hl as (p & Hp & Hl).
    apply then_iff in Hl as [Hn Hl]. apply ok_inj in Hl. injection Hl as <- <-.
    apply fail_if_ok, bool_decide_eq_false in Hn.
    destruct (IH _ _ H) as (new & -> & Hf & Hnd & Hfresh). exists (p :: new). split; [by rewrite <- app_assoc|]. split; [|split].
    + constructor; [|done]. exists yaml, q. split_and!; [by destruct (read file); [injection Hy as ->|]|by destruct (parse_query yaml); [injection Hq as ->|..]|].
      by destruct (plan_query q); [injection Hp as ->|..].
    + constructor; [|done]. intros Hin. apply (Hfresh _ Hin). apply elem_of_union. left. by apply elem_of_singleton.
    + intros n [->|Hin]%elem_of_cons; [done|]. intros Hc. apply (Hfresh _ Hin). apply elem_of_union. by right.
Qed.

Lemma memory_sum plans start total :
  foldl (λ total planned, total ≫= λ total, checked_add total (pl_estimated_memory_bytes (physical planned))) (Some start) plans
    = Some total → total = start + planned_memory plans.
Proof using.
  revert start. induction plans as [|p plans IH]; intros start H; cbn [foldl planned_memory foldr] in *; [injection H as ->; lia|].
  change (Some start ≫= ?f) with (f start) in H. cbv beta in H. unfold checked_add in H at 2.
  destruct (start + _ <? u64_mod).
  - apply IH in H. unfold planned_memory in H. lia.
  - exfalso. clear IH. induction plans as [|p' plans IH]; [done|]. by apply IH.
Qed.

Lemma load_plans_sound cfg plans : load_plans read parse_query plan_query cfg = Ok plans →
  Forall2 file_plan (query_files cfg) plans ∧ NoDup (plan_names plans) ∧
  planned_memory plans * runtime_shards cfg <= max_sketch_memory_bytes cfg.
Proof using.
  unfold load_plans. intros H. apply bind_ok in H as ([plans' names] & Hl & H).
  apply bind_ok in H as (agg & Hagg & H). apply then_iff in H as [Hle H]. apply ok_inj in H. subst plans'.
  destruct (load_loop _ _ _ _ _ Hl) as (new & -> & Hf & Hnd & _). split; [done|]. split; [done|]. cbn [app] in *.
  destruct (foldl _ _ _) as [total|] eqn:E; [|done]. apply memory_sum in E. cbn in Hagg. unfold checked_mul in Hagg.
  destruct (Z.ltb_spec (total * runtime_shards cfg) u64_mod); [|done]. apply ok_inj in Hagg.
  apply fail_if_ok in Hle. apply Z.ltb_ge in Hle. subst. cbn in Hle. lia.
Qed.
End load.

(** ** Starting *)

Section starting.
Context {S : Type} `{WS : !WindowSketch S} {supported : PhysicalSketch → Prop}
  {like : S → S → Prop} {LW : LawfulWindow S supported like}.
Context (h : HashSpec) (plans : list Plan) (Hnames : NoDup (plan_names plans)).
Context (Hplans : Forall (plan_ok supported) plans).
Context (eng0 : QueryEngine S) (Hnew : engine_new plans h = Ok eng0).

Lemma foldM_snoc {E A B} (f : A → outcome E B) (l : list A) (g : A → B) acc :
  (∀ a, a ∈ l → f a = Ok (g a)) → foldM (λ acc a, b ← f a; Ok (acc ++ [b])) acc l = Ok (acc ++ (g <$> l)).
Proof using.
  revert acc. induction l as [|a l IH]; intros acc H; cbn [foldM fmap list_fmap]; [by rewrite app_nil_r|].
  rewrite H by by left. ostep. rewrite IH by (intros; apply H; by right). by rewrite <- app_assoc.
Qed.

Lemma foldM_ext {E A B} (f g : A → B → outcome E A) a l : (∀ a b, f a b = g a b) → foldM f a l = foldM g a l.
Proof using. intros H. revert a. induction l as [|b l IH]; intros a; [done|]. cbn [foldM]. rewrite H. destruct (g a b); cbn; [apply IH|done|done]. Qed.

Lemma replicate_all {A} n (x y : A) : y ∈ replicate n x → y = x.
Proof using. intros [i Hi]%list_elem_of_lookup. by apply lookup_replicate in Hi as [-> _]. Qed.

(** A new engine has room to advance. *)
Lemma first_advance init : u64_ok init →
  engine_advance_to init eng0 = (Ok tt, after eng0 [OpAdvance init]).
Proof using LW Hplans Hnew.
  intros Hi. pose proof (engine_op_spec (LW := LW) h (OpAdvance init) eng0 _ (engine_new_spec h plans eng0 Hplans Hnew) Hi) as H.
  rewrite (proj2 (forallb_forall _ _)) in H.
  - destruct H as (eng & H & _). unfold after. cbn [run_engine_ops]. cbn [run_engine_op] in *. by rewrite H.
  - intros x Hx. apply list_elem_of_In, list_elem_of_fmap in Hx as (p & -> & Hp).
    rewrite Forall_forall in Hplans. destruct (po_ring _ _ (Hplans _ Hp)). unfold has_room. cbn. apply Z.leb_le.
    unfold zlen. cbn. lia.
Qed.

Lemma new_with_options_ok count bs cpus cap init :
  1 <= count <= cap → bs ≠ 0 → (∀ c, cpus = Some c → zlen c = count) → u64_ok init →
  ∃ ls, new_with_options plans h count bs cpus cap init = Ok ls ∧ zlen ls = count.
Proof using LW Hplans Hnew.
  intros Hc Hb Hcpus Hi. unfold new_with_options.
  rewrite (proj2 (fail_if_ok ((count =? 0) || (cap <? count)) _)) by (apply orb_false_iff; split; [apply Z.eqb_neq|apply Z.ltb_ge]; lia). ostep.
  rewrite (proj2 (fail_if_ok (bs =? 0) _)) by by apply Z.eqb_neq. ostep.
  replace (match cpus with Some cpus => fail_if (negb (zlen cpus =? count)) AffinityMismatch | None => Ok tt end) with (Ok (E := AgentError) tt).
  2: { destruct cpus as [c|]; [|done]. by rewrite (Hcpus c eq_refl), Z.eqb_refl. }
  ostep. rewrite (foldM_snoc (λ _ : unit, map_err Lanes.Engine (engine_new plans h)) _ (λ _, eng0)) by (intros ? _; by rewrite Hnew). ostep.
  set (engines := _ <$> replicate _ _). assert (engines = replicate (Z.to_nat count) eng0) as -> by apply fmap_replicate.
  rewrite (foldM_ext _ (λ acc eng, b ← (match engine_advance_to init eng with
    | (Ok _, eng) => Ok eng | (Err e, _) => Err (Lanes.Engine e) | (Panic, _) => Panic end); Ok (acc ++ [b]))).
  - rewrite (foldM_snoc _ _ (λ _, after eng0 [OpAdvance init])).
    + ostep. eexists. split; [done|]. unfold zlen. rewrite length_imap; cbn [app]; rewrite length_fmap, length_replicate. lia.
    + intros eng ->%replicate_all. by rewrite first_advance.
  - intros acc eng. by destruct (engine_advance_to init eng) as [[] ?].
Qed.

Lemma distinct_names_ok ps names : NoDup (plan_names ps) → (∀ n, n ∈ plan_names ps → n ∉ names) → distinct_names ps names = Ok tt.
Proof using.
  revert names. induction ps as [|p ps IH]; intros names Hnd Hf; [done|]. cbn [distinct_names].
  apply NoDup_cons in Hnd as [Hp Hnd]. rewrite bool_decide_eq_false_2 by (apply Hf; left). ostep. apply IH; [done|].
  intros n Hn. rewrite elem_of_cons. intros [->|Hc]; [done|]. by apply (Hf n); [right|].
Qed.

Lemma new_inner_ok build_runtime_pool count cpus :
  1 <= count → (∀ c, cpus = Some c → zlen c = count ∧ NoDup c) → build_runtime_pool count cpus = Ok tt →
  ∃ eng, new_inner build_runtime_pool plans h count cpus = Ok eng ∧ zlen (shards eng) = count.
Proof using Hnames Hnew.
  intros Hc Hcpus Hpool. unfold new_inner. rewrite (proj2 (Z.eqb_neq _ _)) by lia. ostep.
  assert (∀ k : unit → outcome SketchError (ShardedQueryEngine S), (x ← match cpus with
    | Some cpus => _ ← fail_if (negb (zlen cpus =? count)) (InvalidParam "runtime CPU affinity lists CPU(s) for shard worker(s)");
        fail_if (negb (bool_decide (NoDup cpus))) (InvalidParam "runtime CPU affinity must not assign one CPU to multiple workers")
    | None => Ok tt end; k x) = k tt) as ->.
  { intros k. destruct cpus as [c|]; [|done]. destruct (Hcpus c eq_refl) as [-> Hnd]. rewrite Z.eqb_refl. ostep.
    by rewrite bool_decide_eq_true_2. }
  rewrite distinct_names_ok by (done || (intros; apply not_elem_of_nil)). ostep. rewrite Hpool. ostep.
  rewrite (foldM_snoc (λ _ : unit, engine_new plans h) _ (λ _, eng0)) by done. ostep. eexists. split; [done|].
  cbn [shards app]. unfold zlen. rewrite length_fmap, length_replicate. lia.
Qed.
End starting.

(** ** The configured agent *)

Section agent.
Context {Y Y' : Type} (ln log2 : f64 → f64) (show : f64 → string) (show_fixed : Z → f64 → string) (debug : string → string).
Context (read : string → option string) (from_str : string → Y + RawQuery) (fuel : nat).
Context (build_runtime_pool : Z → option (list Z) → outcome SketchError unit).
Abbreviation plan := (Planner.plan ln log2 show show_fixed).
Abbreviation load := (load_plans read (parse_query_yaml debug from_str) plan).
#[local] Existing Instance QueryState_Window.

(** A plan whose sizes the machine can count: see [PlanRuns.operator_queries_run]. *)
Definition countable (p : Plan) : Prop :=
  size_nanos (window (query p)) < u64_max ∧ table_in_range (sketch (physical p)) ∧ estimator_ok fuel (sketch (physical p)).

Lemma loaded_plan_ok h file p : (∀ yaml raw, from_str yaml = inr raw → raw_ok raw) →
  file_plan read (parse_query_yaml debug from_str) plan file p → countable p →
  plan_ok (supported fuel) p ∧ ∃ r, QueryState.build (sketch (physical p)) h = Ok r.
Proof using.
  intros Hraw (yaml & q & _ & Hq & Hp) (Hz & Ht & Hf). unfold parse_query_yaml in Hq.
  destruct (from_str yaml) as [e|raw] eqn:E; [done|]. apply into_logical_iff in Hq.
  destruct (parsed_query_ok raw q (Hraw _ _ E) Hq) as [Hok Hms].
  assert (query p = q) as Hpq by by destruct (plan_inv _ _ _ _ q p Hp) as (? & ? & _ & _ & _ & -> & _).
  rewrite Hpq in Hz. by apply (planned_ok ln log2 show show_fixed fuel h q p).
Qed.

Lemma loaded_engine cfg plans h : (∀ yaml raw, from_str yaml = inr raw → raw_ok raw) →
  load cfg = Ok plans → Forall countable plans →
  Forall (plan_ok (supported fuel)) plans ∧ ∃ eng, engine_new (WS := QueryState_Window fuel) plans h = Ok eng.
Proof using.
  intros Hraw Hl Hc. destruct (load_plans_sound _ _ _ _ _ Hl) as (Hf & Hnd & _).
  assert (Forall (λ p, plan_ok (supported fuel) p ∧ ∃ r, QueryState.build (sketch (physical p)) h = Ok r) plans) as Hall.
  { clear Hl Hnd. induction Hf as [|file p files ps Hp _ IH]; constructor; apply Forall_cons in Hc as [Hcp Hc]; [|by apply IH].
    by eapply loaded_plan_ok. }
  split; [by eapply Forall_impl; [exact Hall|intros p []]|].
  apply (engine_new_ok (WS := QueryState_Window fuel) h plans Hnd). by eapply Forall_impl; [exact Hall|intros p []].
Qed.

(** What the agent promises once it runs. *)
Definition keeps_promises (cfg : AgentConfig) (plans : list Plan) (now : Z) (rt : RuntimePath (S := QueryState)) : Prop :=
  match rt with
  | Shared engine => zlen (shards engine) = runtime_shards cfg
  | Direct ls =>
      zlen ls = runtime_shards cfg ∧ runtime_shard_strategy cfg = Flow ∧
      ∀ mem log w, Run (WS := QueryState_Window fuel) mem (runtime_batch_size cfg) (at_start ls) log w →
        (∀ e, coordinator w = Broken e → out_of_room e w) ∧
        (∀ pb, pb ∈ published w → complete_publication (WS := QueryState_Window fuel) (like := like fuel)
           (HashSpec_new (ac_seed cfg)) plans now (runtime_shards cfg) log pb)
  end.

Lemma source_lanes src shards strategy : source_ok src shards strategy → 1 <= shards →
  af_packet_fanout_lanes src shards = 0 ∨
  af_packet_fanout_lanes src shards = shards ∧ 2 <= shards ∧ strategy = Flow.
Proof using.
  destruct src as [| i s c t mode g|]; cbn; [by left| |by left]. intros (_ & _ & _ & _ & _ & H) _.
  case_bool_decide as Hm; [|by left]. right. by destruct (H Hm).
Qed.

End agent.

(** [C29] The agent accepts exactly the configurations its documentation describes:
    validation never panics, succeeds on the documents of the declarative
    reading [valid] and no others (sizes a power of two within their limits,
    rings of all lanes within 1 GiB, one distinct CPU per lane and per shard,
    several lanes only for flow sharding, a node name for the gateway), and
    fills in the defaults. *)
Theorem config_exact {Y} raw cfg : raw_typed raw →
  no_panic (from_raw (Y := Y) raw) ∧ (from_raw (Y := Y) raw = Ok cfg ↔ valid raw ∧ cfg = filled raw).
Proof. intros H. split; [apply from_raw_no_panic|by apply from_raw_iff]. Qed.

(** ** A configured agent *)

Definition sample_raw : RawConfig :=
  mkRawConfig
    (mkRawAgent (Some "node-a") None (Some 0) (Some 1) (Some 2) None None None
       (Some (mkAffinity [0; 1] [2; 3])) (AfPacket "eth0" 1048576 64 64 RxQueue 0))
    ["hot.yaml"] (Some (mkRawAgentExport None (Some (mkRawEndpoint "http://gateway:9465" None)))).

Lemma config_exact_witness :
  valid sample_raw ∧ flush_interval_ms (filled sample_raw) = 10 ∧
  from_raw (Y := unit) (mkRawConfig (rc_agent sample_raw) [] None) = Err NoQueries.
Proof.
  split; [|split; [reflexivity|reflexivity]].
  destruct (config_exact (Y := unit) sample_raw (filled sample_raw)) as [_ H]; [|apply H; vm_compute; reflexivity].
  split_and!; by range_tac.
Defined.

