(* ===== verification/Published.v ===== *)
(** * What the agent publishes  (crates/flowsketch-agent/src/state.rs and lib.rs)

    The state shared by the engine thread, the HTTP server and the exporters:
    the latest window's estimates of every query, the snapshots for the gateway
    with the gate that paces their export, and the counters of the capture
    lanes.  Each operation takes its locks one after the other, so it is one
    transition; clock readings are arguments, in nanoseconds.

    The exporters' loops of lib.rs are turns on this state; posting is a
    parameter.  Proved: what is shown of a query is its latest window, whole; a
    window is exported over OTLP at most once, and a turn that succeeds leaves
    nothing behind. *)
From S2P Require Import Prelude Bytes Utf8 Maps Hash Sketch F64 Event Ir Planner QueryState Emit Window.
From S2P Require Import Engine Sharded Batch Lanes AgentConfig.

(** ** Query metadata *)

Record QueryInfo := mkQueryInfo {
  qi_name : string;
  qi_algorithm : string;
  qi_window : string;
  qi_error_kind : string;
  qi_error_contract : string;
  qi_estimated_memory_bytes : Z;
  qi_estimated_state_memory_bytes : Z;
  qi_max_series : Z;
  qi_window_size_nanos : Z;
  qi_otlp_unit : string;
}.

Definition otlp_unit (m : Measure) : string :=
  match m with
  | Count => "count"
  | Sum value | HeavyHitters value _ => string_of_bytes (label_name value)
  | DistinctCount _ => "distinct"
  | Entropy _ => "entropy"
  | Quantile _ _ => "quantile"
  end.

Definition query_info (p : Plan) : QueryInfo :=
  mkQueryInfo (q_name (query p)) (algorithm_name (sketch (physical p))) (humanize_nanos (size_nanos (window (query p))))
    (ErrorKind_name (error_kind (physical p))) (error_contract (physical p)) (pl_estimated_memory_bytes (physical p))
    (estimated_state_memory_bytes (physical p)) (max_series (export (query p))) (size_nanos (window (query p)))
    (otlp_unit (measure (query p))).

(** ** The state *)

Record CaptureLaneCounters := mkLaneCounters {
  cl_packets_seen : Z;
  cl_packets_parsed : Z;
  cl_packets_unparsed : Z;
  cl_events_processed : Z;
  cl_kernel_packets : Z;
  cl_kernel_drops : Z;
  cl_queue_freezes : Z;
  cl_userspace_drops : Z;
}.
Definition CaptureLaneCounters_default : CaptureLaneCounters := mkLaneCounters 0 0 0 0 0 0 0 0.

Record SnapshotGate := mkGate { interval : Z; last_export : option Z }.

(** The fields this file's operations touch. *)
Record PublishedState := mkPublished {
  ps_queries : list QueryInfo;
  ps_estimates : gmap string (list SketchEstimate);
  ps_sketch_memory_bytes : Z;
  ps_late_events : Z;
  ps_lanes : list CaptureLaneCounters;
  ps_channel_capacities : list Z;
  snapshot_gate : option SnapshotGate;
  snapshots : list SnapshotExport;
  otlp_exports : Z;
  otlp_failures : Z;
  gateway_pushes : Z;
  gateway_push_failures : Z;
}.

Definition published_new (plans : list Plan) (af_packet_fanout_lanes : Z) : PublishedState :=
  mkPublished (query_info <$> plans) ∅ 0 0 (replicate (Z.to_nat af_packet_fanout_lanes) CaptureLaneCounters_default)
    [] None [] 0 0 0 0.

Definition with_estimates (s : PublishedState) (m : gmap string (list SketchEstimate)) : PublishedState :=
  mkPublished (ps_queries s) m (ps_sketch_memory_bytes s) (ps_late_events s) (ps_lanes s) (ps_channel_capacities s)
    (snapshot_gate s) (snapshots s) (otlp_exports s) (otlp_failures s) (gateway_pushes s) (gateway_push_failures s).
Definition with_health (s : PublishedState) (memory late : Z) : PublishedState :=
  mkPublished (ps_queries s) (ps_estimates s) memory late (ps_lanes s) (ps_channel_capacities s)
    (snapshot_gate s) (snapshots s) (otlp_exports s) (otlp_failures s) (gateway_pushes s) (gateway_push_failures s).
Definition with_lanes (s : PublishedState) (l : list CaptureLaneCounters) : PublishedState :=
  mkPublished (ps_queries s) (ps_estimates s) (ps_sketch_memory_bytes s) (ps_late_events s) l (ps_channel_capacities s)
    (snapshot_gate s) (snapshots s) (otlp_exports s) (otlp_failures s) (gateway_pushes s) (gateway_push_failures s).
Definition with_gate (s : PublishedState) (g : option SnapshotGate) : PublishedState :=
  mkPublished (ps_queries s) (ps_estimates s) (ps_sketch_memory_bytes s) (ps_late_events s) (ps_lanes s)
    (ps_channel_capacities s) g (snapshots s) (otlp_exports s) (otlp_failures s) (gateway_pushes s) (gateway_push_failures s).
Definition with_snapshots (s : PublishedState) (l : list SnapshotExport) : PublishedState :=
  mkPublished (ps_queries s) (ps_estimates s) (ps_sketch_memory_bytes s) (ps_late_events s) (ps_lanes s)
    (ps_channel_capacities s) (snapshot_gate s) l (otlp_exports s) (otlp_failures s) (gateway_pushes s) (gateway_push_failures s).
Definition count_otlp (s : PublishedState) (ok : bool) : PublishedState :=
  mkPublished (ps_queries s) (ps_estimates s) (ps_sketch_memory_bytes s) (ps_late_events s) (ps_lanes s)
    (ps_channel_capacities s) (snapshot_gate s) (snapshots s)
    (if ok then otlp_exports s +ʷ 1 else otlp_exports s) (if ok then otlp_failures s else otlp_failures s +ʷ 1)
    (gateway_pushes s) (gateway_push_failures s).
Definition count_push (s : PublishedState) (ok : bool) : PublishedState :=
  mkPublished (ps_queries s) (ps_estimates s) (ps_sketch_memory_bytes s) (ps_late_events s) (ps_lanes s)
    (ps_channel_capacities s) (snapshot_gate s) (snapshots s) (otlp_exports s) (otlp_failures s)
    (if ok then gateway_pushes s +ʷ 1 else gateway_pushes s) (if ok then gateway_push_failures s else gateway_push_failures s +ʷ 1).

Definition configure_queue_local_channels (capacities : list Z) (s : PublishedState) : PublishedState :=
  mkPublished (ps_queries s) (ps_estimates s) (ps_sketch_memory_bytes s) (ps_late_events s) (ps_lanes s) capacities
    (snapshot_gate s) (snapshots s) (otlp_exports s) (otlp_failures s) (gateway_pushes s) (gateway_push_failures s).

(** *** Lane counters: an unknown lane is ignored. *)

Definition record_lane (lane : nat) (f : CaptureLaneCounters → CaptureLaneCounters) (s : PublishedState) : PublishedState :=
  with_lanes s (alter f lane (ps_lanes s)).
Definition record_capture_lane_packets (lane : nat) (seen parsed unparsed : Z) : PublishedState → PublishedState :=
  record_lane lane (λ c, mkLaneCounters (cl_packets_seen c +ʷ seen) (cl_packets_parsed c +ʷ parsed)
    (cl_packets_unparsed c +ʷ unparsed) (cl_events_processed c) (cl_kernel_packets c) (cl_kernel_drops c)
    (cl_queue_freezes c) (cl_userspace_drops c)).
Definition record_capture_lane_statistics (lane : nat) (packets drops queue_freezes : Z) : PublishedState → PublishedState :=
  record_lane lane (λ c, mkLaneCounters (cl_packets_seen c) (cl_packets_parsed c) (cl_packets_unparsed c)
    (cl_events_processed c) (cl_kernel_packets c +ʷ packets) (cl_kernel_drops c +ʷ drops)
    (cl_queue_freezes c +ʷ queue_freezes) (cl_userspace_drops c)).
Definition record_capture_lane_events_processed (lane : nat) (events : Z) : PublishedState → PublishedState :=
  record_lane lane (λ c, mkLaneCounters (cl_packets_seen c) (cl_packets_parsed c) (cl_packets_unparsed c)
    (cl_events_processed c +ʷ events) (cl_kernel_packets c) (cl_kernel_drops c) (cl_queue_freezes c) (cl_userspace_drops c)).
Definition record_capture_lane_userspace_drop (lane : nat) : PublishedState → PublishedState :=
  record_lane lane (λ c, mkLaneCounters (cl_packets_seen c) (cl_packets_parsed c) (cl_packets_unparsed c)
    (cl_events_processed c) (cl_kernel_packets c) (cl_kernel_drops c) (cl_queue_freezes c) (cl_userspace_drops c +ʷ 1)).

(** *** The snapshot gate *)

Definition enable_snapshot_export (period : Z) (s : PublishedState) : PublishedState :=
  with_gate s (Some (mkGate period None)).
Definition latest_snapshots (s : PublishedState) : list SnapshotExport := snapshots s.

(** [last.elapsed() < gate.interval]; an [Instant] never runs backwards, and
    [elapsed] saturates at zero. *)
Definition snapshot_export_due (force : bool) (now : Z) (s : PublishedState) : bool :=
  match snapshot_gate s with
  | None => false
  | Some gate =>
      negb (negb force && match last_export gate with
        | Some last => Z.max 0 (now - last) <? interval gate
        | None => false
        end)
  end.
Definition mark_snapshot_exported (now : Z) (s : PublishedState) : PublishedState :=
  match snapshot_gate s with
  | Some gate => with_gate s (Some (mkGate (interval gate) (Some now)))
  | None => s
  end.
(** [export_snapshots_now] and [maybe_export_snapshots], with what the engine
    exports and the clock before and after. *)
Definition export_if_due (force : bool) (exported : outcome SketchError (list SnapshotExport)) (now now' : Z)
    (s : PublishedState) : PublishedState :=
  if snapshot_export_due force now s then
    match exported with
    | Ok snaps => mark_snapshot_exported now' (with_snapshots s snaps)
    | _ => s
    end
  else s.

(** *** Estimates *)

(** One estimate against those shown for its query. *)
Definition retain (e : SketchEstimate) (per_query : list SketchEstimate) : list SketchEstimate :=
  match per_query with
  | [] => [e]
  | existing :: _ =>
      if e_window_end_nanos existing <? e_window_end_nanos e then [e]
      else if e_window_end_nanos existing =? e_window_end_nanos e then per_query ++ [e]
      else per_query
  end.
Definition publish_estimate (m : gmap string (list SketchEstimate)) (e : SketchEstimate) : gmap string (list SketchEstimate) :=
  <[e_query_name e := retain e (default [] (m !! e_query_name e))]> m.
Definition publish_estimates (drained : list SketchEstimate) (s : PublishedState) : PublishedState :=
  with_estimates s (foldl publish_estimate (ps_estimates s) drained).

(** The map's values in the order of its keys. *)
Definition string_cmp (a b : string) : comparison := bytes_cmp (bytes_of_string a) (bytes_of_string b).
Definition by_query {A} (m : gmap string A) : list (string * A) := sort_by (λ a b, string_cmp a.1 b.1) (map_to_list m).
Definition latest_estimates (s : PublishedState) : list SketchEstimate := concat (by_query (ps_estimates s)).*2.

Section publish.
Context (exp log2 : f64 → f64) (fuel : nat) (fp : Footprint).

Definition publish (now now' : Z) (eng : ShardedQueryEngine QueryState) (s : PublishedState)
    : outcome SketchError PublishedState * ShardedQueryEngine QueryState :=
  let '(drained, eng) := sharded_take_estimates exp log2 fuel fp eng in
  (drained ← drained;
   let s := with_health s (sharded_memory_bytes fp eng) (sharded_late_events eng) in
   let s := export_if_due false (sharded_export_snapshots fuel eng) now now' s in
   Ok (publish_estimates drained s),
   eng).

Definition publish_queue_local (estimates : list SketchEstimate) (memory late : Z)
    (exported : option (list SnapshotExport)) (now : Z) (s : PublishedState) : PublishedState :=
  let s := with_health s memory late in
  let s := match exported with
    | Some snaps => mark_snapshot_exported now (with_snapshots s snaps)
    | None => s
    end in
  publish_estimates estimates s.

(** The end of [publish_reports] in direct_runtime.rs: from the merged windows to
    the published state. *)
Definition publication_estimates (plans : list Plan) (pb : Publication (S := QueryState)) : outcome AgentError (list SketchEstimate) :=
  foldM (λ out x,
    plan ← map_err Lanes.Engine (find_plan plans x.1.1.1);
    es ← map_err Lanes.Engine (estimates exp log2 fuel fp x.2 plan); Ok (out ++ es)) [] (in_key_order (pb_completed pb)).
Definition publication_snapshots (pb : Publication (S := QueryState)) : option (list SnapshotExport) :=
  (λ current, concat ((λ x, snapshot_exports x.2 x.1.1.1) <$> in_key_order current)) <$> pb_current pb.
Definition publish_publication (plans : list Plan) (pb : Publication (S := QueryState)) (now : Z) (s : PublishedState)
    : outcome AgentError PublishedState :=
  es ← publication_estimates plans pb;
  Ok (publish_queue_local es (pb_memory pb) (pb_late pb) (publication_snapshots pb) now s).
End publish.

(** ** Exporters  (lib.rs) *)

(** A turn of [spawn_otlp_exporter]'s loop after its wait: what is sent, if
    anything, and the state afterwards; [posted] is whether posting succeeds. *)
Definition unsent (last_end : gmap string Z) (e : SketchEstimate) : bool :=
  match last_end !! e_query_name e with Some t => t <? e_window_end_nanos e | None => true end.
Definition mark_sent (last_end : gmap string Z) (e : SketchEstimate) : gmap string Z :=
  <[e_query_name e := Z.max (default 0 (last_end !! e_query_name e)) (e_window_end_nanos e)]> last_end.
Definition otlp_turn (posted : bool) (last_end : gmap string Z) (s : PublishedState)
    : list SketchEstimate * gmap string Z * PublishedState :=
  let batch := base.filter (λ e, unsent last_end e = true) (latest_estimates s) in
  match batch with
  | [] => ([], last_end, s)
  | _ => if posted then (batch, foldl mark_sent last_end batch, count_otlp s true) else ([], last_end, count_otlp s false)
  end.

(** A turn of [spawn_gateway_pusher]'s loop: the batch it posts, if any. *)
Definition gateway_batch (node_name : string) (s : PublishedState) : option PushBatch :=
  match latest_snapshots s with
  | [] => None
  | snaps => Some (mkPushBatch node_name ((λ x, mkPushEntry (se_query_name x) (se_component x) (se_bytes x)) <$> snaps))
  end.
Definition gateway_turn (node_name : string) (pushed : PushBatch → bool) (s : PublishedState) : PublishedState :=
  match gateway_batch node_name s with
  | None => s
  | Some batch => count_push s (pushed batch)
  end.

(** ** What is shown of a query *)

(** The largest window end among [l], and the estimates that have it. *)
Definition last_window (l : list SketchEstimate) : option Z := ts_max (e_window_end_nanos <$> l).
Definition newest (l : list SketchEstimate) : list SketchEstimate :=
  base.filter (λ e, Some (e_window_end_nanos e) = last_window l) l.
Definition of_query (q : string) (l : list SketchEstimate) : list SketchEstimate :=
  base.filter (λ e, e_query_name e = q) l.

Lemma last_window_snoc l e :
  last_window (l ++ [e]) = Some (match last_window l with Some t => Z.max t (e_window_end_nanos e) | None => e_window_end_nanos e end).
Proof.
  unfold last_window. rewrite fmap_app. destruct l as [|x l]; [done|]. cbn [fmap list_fmap app ts_max].
  by rewrite foldl_app.
Qed.

Lemma last_window_bound l e : e ∈ l → ∃ t, last_window l = Some t ∧ e_window_end_nanos e <= t.
Proof.
  induction l as [|x l IH] using rev_ind; [by intros ?%elem_of_nil|]. rewrite last_window_snoc.
  intros [Hin| ->%list_elem_of_singleton]%elem_of_app; (eexists; split; [done|]).
  - destruct (IH Hin) as (t & -> & Ht). lia.
  - destruct (last_window l); lia.
Qed.

Lemma last_window_in l t : last_window l = Some t → ∃ e, e ∈ l ∧ e_window_end_nanos e = t.
Proof.
  revert t. induction l as [|x l IH] using rev_ind; intros t; [done|]. rewrite last_window_snoc. intros [= <-].
  destruct (last_window l) as [t|]; [|exists x; split; [apply elem_of_app; right; by apply list_elem_of_singleton|done]].
  destruct (Z.max_spec t (e_window_end_nanos x)) as [[_ ->]|[_ ->]].
  - exists x. split; [apply elem_of_app; right; by apply list_elem_of_singleton|done].
  - destruct (IH t eq_refl) as (e & He & Ht). exists e. split; [apply elem_of_app; by left|done].
Qed.

Lemma newest_snoc l e : newest (l ++ [e]) = retain e (newest l).
Proof.
  destruct (last_window l) as [t|] eqn:El.
  2: { destruct l as [|x l _] using rev_ind; [|by rewrite last_window_snoc in El]. unfold newest. cbn. by rewrite decide_True. }
  destruct (last_window_in l t El) as (x & Hx & Hxt).
  assert (∀ y, y ∈ newest l ↔ e_window_end_nanos y = t ∧ y ∈ l) as Hin.
  { intros y. unfold newest. rewrite list_elem_of_filter, El. split; intros [Ey Hy]; (split; [congruence|done]). }
  pose proof (proj2 (Hin x) (conj Hxt Hx)) as Hxn. unfold retain. destruct (newest l) as [|y ys] eqn:En; [by apply elem_of_nil in Hxn|].
  rewrite (proj1 (proj1 (Hin y) ltac:(left))). rewrite <- En in *. clear En ys.
  unfold newest at 1. rewrite last_window_snoc, El, filter_app.
  assert (∀ y, y ∈ l → e_window_end_nanos y <= t) as Hle.
  { intros z Hz. destruct (last_window_bound l z Hz) as (t' & E & ?). rewrite El in E. by injection E as <-. }
  destruct (Z.ltb_spec t (e_window_end_nanos e)) as [Hlt|Hge]; [|destruct (Z.eqb_spec t (e_window_end_nanos e)) as [Heq|Hne]].
  - rewrite filter_none by (apply Forall_forall; intros z Hz [= E]; specialize (Hle z Hz); lia).
    rewrite filter_cons_True by (f_equal; lia). done.
  - rewrite (filter_cons_True _ e) by (f_equal; lia). f_equal. unfold newest. rewrite El. apply filter_agree.
    intros z _. rewrite Z.max_l by lia. done.
  - rewrite (filter_cons_False _ e) by (intros [= E]; lia). rewrite filter_nil, app_nil_r. unfold newest. rewrite El.
    apply filter_agree. intros z _. rewrite Z.max_l by lia. done.
Qed.

(** Publishing a batch: every query shows the newest of all it was ever sent. *)
Definition shows (m : gmap string (list SketchEstimate)) (all : list SketchEstimate) : Prop :=
  ∀ q, m !! q = match newest (of_query q all) with [] => None | l => Some l end.

Lemma of_query_snoc q all e : of_query q (all ++ [e]) = if decide (e_query_name e = q) then of_query q all ++ [e] else of_query q all.
Proof.
  unfold of_query. rewrite filter_app, filter_cons, filter_nil. case_decide; [done|]. by rewrite app_nil_r.
Qed.

Lemma retain_ne e l : retain e l ≠ [].
Proof. unfold retain. destruct l; [done|]. by repeat case_match; destruct l. Qed.

Lemma publish_estimate_shows m all e : shows m all → shows (publish_estimate m e) (all ++ [e]).
Proof.
  intros H q. unfold publish_estimate. rewrite of_query_snoc. case_decide as Hq.
  - rewrite <- Hq in *. rewrite lookup_insert_eq, newest_snoc, (H (e_query_name e)).
    assert (default [] (match newest (of_query (e_query_name e) all) with [] => None | l => Some l end) = newest (of_query (e_query_name e) all))
      as -> by by destruct (newest _).
    destruct (retain e (newest _)) eqn:E; [by apply retain_ne in E|done].
  - rewrite lookup_insert_ne by done. apply H.
Qed.

Lemma publish_estimates_shows batch m all : shows m all → shows (foldl publish_estimate m batch) (all ++ batch).
Proof.
  revert m all. induction batch as [|e batch IH]; intros m all H; [by rewrite app_nil_r|]. cbn [foldl].
  replace (all ++ e :: batch) with ((all ++ [e]) ++ batch) by by rewrite <- app_assoc.
  by apply IH, publish_estimate_shows.
Qed.

(** ** The published state in use *)

Inductive Turn :=
  | Publish (batch : list SketchEstimate)
  | ExportOtlp (posted : bool).

(** All that was published, the batches that were exported, and the exporter's
    and the agent's state. *)
Record Traffic := mkTraffic {
  all_published : list SketchEstimate;
  exported : list (list SketchEstimate);
  last_end : gmap string Z;
  state : PublishedState;
}.
Definition take_turn (t : Turn) (x : Traffic) : Traffic :=
  match t with
  | Publish batch => mkTraffic (all_published x ++ batch) (exported x) (last_end x) (publish_estimates batch (state x))
  | ExportOtlp posted =>
      let '(sent, last_end, s) := otlp_turn posted (last_end x) (state x) in
      mkTraffic (all_published x) (exported x ++ [sent]) last_end s
  end.
Definition traffic (turns : list Turn) (s : PublishedState) : Traffic :=
  foldl (λ x t, take_turn t x) (mkTraffic [] [] ∅ s) turns.

Lemma latest_estimates_elem s e : e ∈ latest_estimates s ↔ ∃ q l, ps_estimates s !! q = Some l ∧ e ∈ l.
Proof.
  unfold latest_estimates, by_query. rewrite list_elem_of_In, in_concat. setoid_rewrite <- list_elem_of_In. setoid_rewrite list_elem_of_fmap. split.
  - intros (l & ([q l'] & -> & Hin) & He). exists q, l'. cbn in *. split; [|done].
    by rewrite elem_of_sort_by, elem_of_map_to_list in Hin.
  - intros (q & l & Hl & He). exists l. split; [|done]. exists (q, l). split; [done|].
    by rewrite elem_of_sort_by, elem_of_map_to_list.
Qed.

(** ** What is shown of a query is what was last published of it *)

Lemma of_query_all q l : (∀ e, e ∈ l → e_query_name e = q) → of_query q l = l.
Proof. intros Hall. by apply filter_all, Forall_forall. Qed.

Lemma of_query_other q q' l : q' ≠ q → (∀ e, e ∈ l → e_query_name e = q') → of_query q l = [].
Proof. intros Hne Hall. apply filter_none, Forall_forall. intros e He E. apply Hne. by rewrite <- (Hall e He). Qed.

Lemma of_query_app q l k : of_query q (l ++ k) = of_query q l ++ of_query q k.
Proof. apply filter_app. Qed.

Lemma of_query_concat q (kv : list (string * list SketchEstimate)) :
  NoDup kv.*1 → (∀ k l e, (k, l) ∈ kv → e ∈ l → e_query_name e = k) →
  (∀ l, (q, l) ∈ kv → of_query q (concat kv.*2) = l) ∧ (q ∉ kv.*1 → of_query q (concat kv.*2) = []).
Proof.
  induction kv as [|[k l] kv IH]; intros Hnd Hall; [by split; [intros ? ?%elem_of_nil|]|].
  apply NoDup_cons in Hnd as [Hk Hnd]. destruct IH as [IHin IHout]; [done|intros ? ? ? ?; apply Hall; by right|].
  assert (∀ e, e ∈ l → e_query_name e = k) as Hl by (intros e; apply Hall; left).
  cbn [fmap list_fmap concat fst snd] in *. rewrite of_query_app. split.
  - intros l' [[= <- <-]|Hin]%elem_of_cons.
    + rewrite IHout by done. rewrite app_nil_r. by apply of_query_all.
    + rewrite (IHin l' Hin). rewrite (of_query_other q k l); [done| |done]. intros ->. apply Hk. by apply (list_elem_of_fmap_2 fst) in Hin.
  - intros [Hne Hout]%not_elem_of_cons. rewrite IHout by done. by rewrite (of_query_other q k l).
Qed.

Lemma by_query_keys {A} (m : gmap string A) : NoDup (by_query m).*1.
Proof. unfold by_query. rewrite sort_by_Permutation. apply NoDup_fst_map_to_list. Qed.

Lemma by_query_elem {A} (m : gmap string A) k x : (k, x) ∈ by_query m ↔ m !! k = Some x.
Proof. unfold by_query. by rewrite elem_of_sort_by, elem_of_map_to_list. Qed.

Lemma shows_lookup m all q l : shows m all → m !! q = Some l → l = newest (of_query q all).
Proof. intros Hs. rewrite (Hs q). by destruct (newest _); intros [= <-]. Qed.

Lemma newest_elem q all e : e ∈ newest (of_query q all) → e ∈ all ∧ e_query_name e = q ∧ last_window (of_query q all) = Some (e_window_end_nanos e).
Proof. unfold newest, of_query. rewrite !list_elem_of_filter. naive_solver. Qed.

Lemma of_query_latest s all q :
  shows (ps_estimates s) all → of_query q (latest_estimates s) = newest (of_query q all).
Proof.
  intros Hs. destruct (of_query_concat q (by_query (ps_estimates s)) (by_query_keys _)) as [Hin Hout].
  { intros k l e Hl%by_query_elem He. rewrite (shows_lookup _ _ _ _ Hs Hl) in He. by apply newest_elem in He as (_ & ? & _). }
  unfold latest_estimates. destruct (ps_estimates s !! q) as [l|] eqn:El.
  - rewrite (Hin l) by (by apply by_query_elem). by apply shows_lookup with (1 := Hs).
  - rewrite Hout.
    + pose proof (Hs q) as E. rewrite El in E. by destruct (newest _).
    + intros ([k l] & -> & Hl%by_query_elem)%list_elem_of_fmap. cbn in *. congruence.
Qed.

(** ** The exporter *)

(** What the exporter remembers of a query is the last window it sent of it. *)
Record exporting (x : Traffic) : Prop := {
  exp_shows : shows (ps_estimates (state x)) (all_published x);
  exp_sent : ∀ q, last_end x !! q = last_window (of_query q (concat (exported x)));
  exp_published : ∀ e, e ∈ concat (exported x) → e ∈ all_published x;
  exp_ends : ∀ e, e ∈ all_published x → 0 <= e_window_end_nanos e;
  exp_once : ∀ i j bi bj e e', (i < j)%nat → exported x !! i = Some bi → exported x !! j = Some bj →
    e ∈ bi → e' ∈ bj → e_query_name e = e_query_name e' → e_window_end_nanos e < e_window_end_nanos e';
}.

Lemma mark_sent_lookup le all e q : (∀ q, le !! q = last_window (of_query q all)) → 0 <= e_window_end_nanos e →
  mark_sent le e !! q = last_window (of_query q (all ++ [e])).
Proof.
  intros Hle He. unfold mark_sent. rewrite of_query_snoc. case_decide as Hq.
  - rewrite <- Hq, lookup_insert_eq, last_window_snoc, Hle. destruct (last_window _); [done|]. cbn. f_equal. lia.
  - rewrite lookup_insert_ne by done. apply Hle.
Qed.

Lemma mark_batch_lookup batch le all q : (∀ q, le !! q = last_window (of_query q all)) →
  (∀ e, e ∈ batch → 0 <= e_window_end_nanos e) → foldl mark_sent le batch !! q = last_window (of_query q (all ++ batch)).
Proof.
  revert le all. induction batch as [|e batch IH]; intros le all Hle Hpos; [by rewrite app_nil_r|]. cbn [foldl].
  rewrite (IH _ (all ++ [e])); [by rewrite <- app_assoc| |intros; apply Hpos; by right].
  intros q'. apply mark_sent_lookup; [done|]. apply Hpos. left.
Qed.

Lemma of_query_elem q l e : e ∈ of_query q l ↔ e_query_name e = q ∧ e ∈ l.
Proof. unfold of_query. by rewrite list_elem_of_filter. Qed.

(** The windows the exporter has sent are windows that were published. *)
Lemma sent_bound x q t : exporting x → last_window (of_query q (concat (exported x))) = Some t →
  ∃ t', last_window (of_query q (all_published x)) = Some t' ∧ t <= t'.
Proof.
  intros Hx (e & He & <-)%last_window_in. apply of_query_elem in He as [Hq He]. apply last_window_bound, of_query_elem.
  split; [done|]. by apply (exp_published _ Hx).
Qed.

Definition otlp_batch (le : gmap string Z) (s : PublishedState) : list SketchEstimate :=
  base.filter (λ e, unsent le e = true) (latest_estimates s).

Lemma otlp_batch_query x q : exporting x →
  of_query q (otlp_batch (last_end x) (state x)) =
    if decide (last_window (of_query q (concat (exported x))) = last_window (of_query q (all_published x)))
    then [] else newest (of_query q (all_published x)).
Proof.
  intros Hx. transitivity (base.filter (λ e, unsent (last_end x) e = true) (of_query q (latest_estimates (state x)))).
  { unfold of_query, otlp_batch. rewrite !list_filter_filter. apply filter_agree. tauto. }
  rewrite (of_query_latest _ _ _ (exp_shows _ Hx)). case_decide as Hsame.
  - apply filter_none, Forall_forall. intros e (_ & Hq & Ht)%newest_elem. unfold unsent. rewrite Hq, (exp_sent _ Hx), Hsame, Ht, Z.ltb_irrefl. done.
  - apply filter_all, Forall_forall. intros e (_ & Hq & Ht)%newest_elem. unfold unsent. rewrite Hq, (exp_sent _ Hx).
    destruct (last_window (of_query q (concat _))) as [t|] eqn:Es; [|done].
    destruct (sent_bound x q t Hx Es) as (t' & Ht' & Hle). apply Z.ltb_lt. rewrite Ht in Ht'. injection Ht' as <-.
    destruct (Z.eq_dec t (e_window_end_nanos e)) as [->|]; [congruence|lia].
Qed.

Lemma otlp_batch_elem x e : exporting x → e ∈ otlp_batch (last_end x) (state x) →
  e ∈ all_published x ∧ ∀ e', e' ∈ concat (exported x) → e_query_name e' = e_query_name e → e_window_end_nanos e' < e_window_end_nanos e.
Proof.
  intros Hx He. assert (e ∈ of_query (e_query_name e) (otlp_batch (last_end x) (state x))) as Hin by (by apply of_query_elem).
  pose proof He as (Hun & _)%list_elem_of_filter. rewrite otlp_batch_query in Hin by done. case_decide; [by apply elem_of_nil in Hin|].
  apply newest_elem in Hin as (Hp & _ & _). split; [done|]. intros e' He' Hq.
  unfold unsent in Hun. rewrite (exp_sent _ Hx) in Hun.
  destruct (last_window_bound (of_query (e_query_name e) (concat (exported x))) e') as (t & Ht & Hle); [by apply of_query_elem|].
  rewrite Ht in Hun. apply Z.ltb_lt in Hun. lia.
Qed.

Lemma otlp_turn_spec posted le s :
  otlp_turn posted le s =
    if posted then (otlp_batch le s, foldl mark_sent le (otlp_batch le s), match otlp_batch le s with [] => s | _ => count_otlp s true end)
    else ([], le, match otlp_batch le s with [] => s | _ => count_otlp s false end).
Proof. unfold otlp_turn, otlp_batch. destruct (base.filter _ _); by destruct posted. Qed.

Lemma count_otlp_estimates posted le s : ps_estimates (otlp_turn posted le s).2 = ps_estimates s.
Proof. rewrite otlp_turn_spec. destruct posted; cbn; by destruct (otlp_batch le s). Qed.

Lemma exporting_publish batch x : exporting x → (∀ e, e ∈ batch → 0 <= e_window_end_nanos e) → exporting (take_turn (Publish batch) x).
Proof.
  intros [Hs Hle Hp He Ho] Hb. constructor; cbn; try done.
  - by apply publish_estimates_shows.
  - intros e Hin. apply elem_of_app. left. by apply Hp.
  - intros e [Hin|Hin]%elem_of_app; [by apply He|by apply Hb].
Qed.

Lemma elem_of_concat_lookup {A} (l : list (list A)) i x y : l !! i = Some x → y ∈ x → y ∈ concat l.
Proof.
  intros Hi Hy. apply list_elem_of_In, in_concat. exists x. split; apply list_elem_of_In; [by apply (list_elem_of_lookup_2 l i)|done].
Qed.

Lemma exporting_export posted x : exporting x → exporting (take_turn (ExportOtlp posted) x).
Proof.
  intros Hx. destruct x as [all sent le s]. cbn [take_turn last_end state exported all_published].
  pose proof (count_otlp_estimates posted le s) as Hest. rewrite otlp_turn_spec in Hest |- *.
  pose proof (λ e, otlp_batch_elem _ e Hx) as Hb. destruct Hx as [Hs Hle Hp He Ho]. cbn in Hs, Hle, Hp, He, Ho, Hb.
  assert (∀ i j bi bj e e', (i < j)%nat → (sent ++ [otlp_batch le s]) !! i = Some bi → (sent ++ [otlp_batch le s]) !! j = Some bj →
    e ∈ bi → e' ∈ bj → e_query_name e = e_query_name e' → e_window_end_nanos e < e_window_end_nanos e') as Honce.
  { intros i j bi bj e e' Hij Hi [Hj|[Hj <-]]%lookup_snoc_Some Hei Hej Hq.
    - destruct Hj as [Hlt Hj]. rewrite lookup_app_l in Hi by lia. by apply (Ho i j bi bj).
    - subst j. rewrite lookup_app_l in Hi by lia. apply (proj2 (Hb e' Hej) e); [by apply (elem_of_concat_lookup sent i bi)|done]. }
  destruct posted; constructor; cbn [all_published exported last_end state]; rewrite ?concat_snoc, ?app_nil_r; try done.
  - by rewrite <- Hest in Hs.
  - intros q. apply mark_batch_lookup; [done|]. intros e Hin. apply He. by apply Hb.
  - intros e [Hin|Hin]%elem_of_app; [by apply Hp|by apply Hb].
  - by rewrite <- Hest in Hs.
  - intros i j bi bj e e' Hij Hi [[_ Hj]|[_ <-]]%lookup_snoc_Some Hei Hej Hq; [|by apply elem_of_nil in Hej].
    pose proof (lookup_lt_Some _ _ _ Hj). rewrite lookup_app_l in Hi by lia. by apply (Ho i j bi bj).
Qed.

Definition publishes_times (t : Turn) : Prop :=
  match t with Publish batch => ∀ e, e ∈ batch → 0 <= e_window_end_nanos e | ExportOtlp _ => True end.

Lemma traffic_exporting plans lanes turns : Forall publishes_times turns → exporting (traffic turns (published_new plans lanes)).
Proof.
  induction turns as [|t turns IH] using rev_ind; intros Ht.
  - constructor; cbn; try done; intros e ?%elem_of_nil; done.
  - apply Forall_app in Ht as [Ht H1]. rewrite Forall_singleton in H1. unfold traffic. rewrite foldl_app. cbn [foldl].
    specialize (IH Ht). destruct t; [exact (exporting_publish _ _ IH H1)|exact (exporting_export _ _ IH)].
Qed.

Lemma traffic_shows plans lanes turns :
  shows (ps_estimates (state (traffic turns (published_new plans lanes)))) (all_published (traffic turns (published_new plans lanes))).
Proof.
  induction turns as [|t turns IH] using rev_ind; [done|]. unfold traffic. rewrite foldl_app. cbn [foldl]. destruct t as [batch|posted].
  - cbn. by apply publish_estimates_shows.
  - cbn [take_turn]. pose proof (count_otlp_estimates posted (last_end (traffic turns (published_new plans lanes)))
      (state (traffic turns (published_new plans lanes)))) as E. unfold traffic in E, IH.
    destruct (otlp_turn _ _ _) as [[sent le] s']. cbn in *. by rewrite E.
Qed.

(** ** Claims *)

(** [C36] Whatever batches the engine thread publishes, in whatever order, and
    however exports come between them: what the agent shows of a query is
    exactly the estimates of the newest window ever published of it, all of
    them, in the order they came; an older window never replaces a newer one,
    and a window published in parts is whole. *)
Theorem newest_window_shown (plans : list Plan) (lanes : Z) (turns : list Turn) (q : string) :
  let x := traffic turns (published_new plans lanes) in
  of_query q (latest_estimates (state x)) = newest (of_query q (all_published x)).
Proof. apply of_query_latest, traffic_shows. Qed.

(** [C37] The OTLP exporter's turns, anywhere between publications and failing
    as they may: the windows sent of a query strictly increase, so none is
    sent twice; and at any point a turn whose post succeeds sends, of every
    query, its newest window whole, or nothing when that was sent before. *)
Theorem otlp_sends_each_window_once (plans : list Plan) (lanes : Z) (turns : list Turn)
    (Htimes : Forall publishes_times turns) :
  let x := traffic turns (published_new plans lanes) in
  (∀ i j bi bj e e', (i < j)%nat → exported x !! i = Some bi → exported x !! j = Some bj →
     e ∈ bi → e' ∈ bj → e_query_name e = e_query_name e' → e_window_end_nanos e < e_window_end_nanos e') ∧
  ∃ batch, exported (take_turn (ExportOtlp true) x) = exported x ++ [batch] ∧
    ∀ q, of_query q batch =
      if decide (last_window (of_query q (concat (exported x))) = last_window (of_query q (all_published x)))
      then [] else newest (of_query q (all_published x)).
Proof.
  intros x. pose proof (traffic_exporting plans lanes turns Htimes) as Hx. split; [apply (exp_once _ Hx)|].
  exists (otlp_batch (last_end x) (state x)). split; [|intros q; by apply otlp_batch_query].
  cbn [take_turn]. by rewrite otlp_turn_spec.
Qed.

Definition sample_estimate (q : string) (w : Z) : SketchEstimate :=
  mkEstimate q (w * 10) ((w + 1) * 10) [] (f64_of_Z 1) None None None "count" 8 1.
Definition sample_turns : list Turn :=
  [Publish [sample_estimate "a" 1; sample_estimate "b" 1]; ExportOtlp false; ExportOtlp true;
   Publish [sample_estimate "a" 2; sample_estimate "a" 2; sample_estimate "a" 0]; ExportOtlp true; ExportOtlp true].

Lemma otlp_sends_each_window_once_witness :
  let x := traffic sample_turns (published_new [] 0) in
  length <$> exported x = [0; 2; 2; 0]%nat ∧
  ∀ i j bi bj e e', (i < j)%nat → exported x !! i = Some bi → exported x !! j = Some bj →
     e ∈ bi → e' ∈ bj → e_query_name e = e_query_name e' → e_window_end_nanos e < e_window_end_nanos e'.
Proof.
  split; [by vm_compute|]. apply (otlp_sends_each_window_once [] 0 sample_turns).
  repeat constructor; cbn; intros e He; repeat (apply elem_of_cons in He as [->|He]; [by vm_compute|]); by apply elem_of_nil in He.
Defined.
