(* ===== verification/Exposition.v ===== *)
(** * The metrics page  (crates/flowsketch-prometheus/src/lib.rs)

    The Prometheus text a set of estimates is rendered to, within each query's
    series budget.  How Rust prints a fraction is a parameter.

    The page is checked against a reader of the text format that shares no code
    with the writer: it finds in the page exactly the samples it was made for,
    whatever the label values hold.  The budget is exact and keeps the largest
    estimates. *)
From S2P Require Import Prelude Bytes Utf8 Maps F64 Event Ir Emit Published.

#[local] Abbreviation txt := bytes_of_string.

(** ** Labels and values *)

Definition is_ascii_alphanumeric (c : Z) : bool := in_range 48 57 c || in_range 65 90 c || in_range 97 122 c.

Definition sanitize_label_name (name : string) : bytes :=
  let s := (λ c, if is_ascii_alphanumeric c || (c =? 95) then c else 95) <$> str_chars name in
  match s with
  | c :: _ => if is_ascii_digit c then 95 :: s else s
  | [] => s
  end.

(** [v.replace(c, by)], for one ASCII character *)
Definition replace (c : Z) (by_ : bytes) (v : bytes) : bytes := concat ((λ b, if b =? c then by_ else [b]) <$> v).
Definition escape_label_value (v : bytes) : bytes :=
  replace 10 [92; 110] (replace 34 [92; 34] (replace 92 [92; 92] v)).

Section render.
(** [format!("{v}")] *)
Context (show : f64 → bytes).

Definition i64_to_string (n : Z) : bytes := if n <? 0 then 45 :: to_string (- n) else to_string n.

Definition format_value (v : f64) : bytes :=
  if f_is_integral v && f_ltb (f_abs v) (f64_of_Z (10 ^ 15))
  then i64_to_string (default 0 (f_trunc_Z v))
  else show v.

(** ** The page *)

Record QueryExportInfo := mkExportInfo {
  xi_error_kind : string;
  xi_max_series : Z;
  xi_window_size_nanos : Z;
}.
Definition default_info : QueryExportInfo := mkExportInfo "unknown" 1000 0.

Definition group_by_query (es : list SketchEstimate) : gmap string (list SketchEstimate) :=
  foldl (λ m e, <[e_query_name e := default [] (m !! e_query_name e) ++ [e]]> m) ∅ es.

(** The largest first; ties keep their order.  (A NaN, which no query yields,
    would leave the order open.) *)
Definition by_estimate (a b : SketchEstimate) : comparison := f_partial_cmp_or_eq (e_estimate b) (e_estimate a).
(** A query's series within its budget, and how many are left out. *)
Definition within_budget (qi : QueryExportInfo) (es : list SketchEstimate) : list SketchEstimate * option Z :=
  let es := sort_by by_estimate es in
  if xi_max_series qi <? zlen es
  then (take (Z.to_nat (xi_max_series qi)) es, Some (zlen es - xi_max_series qi))
  else (es, None).

Definition estimate_labels (qi : QueryExportInfo) (e : SketchEstimate) : list (bytes * bytes) :=
  [(txt "query", txt (e_query_name e)); (txt "algorithm", txt (e_algorithm e)); (txt "error_kind", txt (xi_error_kind qi))] ++
  (if 0 <? xi_window_size_nanos qi then [(txt "window", txt (humanize_nanos (xi_window_size_nanos qi)))] else []) ++
  ((λ g, (sanitize_label_name g.1, g.2)) <$> e_group e).

Definition render_label (i : nat) (kv : bytes * bytes) : bytes :=
  (if (0 <? i)%nat then [44] else []) ++ kv.1 ++ [61; 34] ++ escape_label_value kv.2 ++ [34].
Definition render_estimate (qi : QueryExportInfo) (e : SketchEstimate) : bytes :=
  txt "flowsketch_estimate{" ++ concat (imap render_label (estimate_labels qi e)) ++ txt "} " ++
  format_value (e_estimate e) ++ [10].
Definition render_dropped (q : string) (n : Z) : bytes :=
  txt "flowsketch_export_series_dropped{query=" ++ [34] ++ escape_label_value (txt q) ++ [34] ++ txt "} " ++ to_string n ++ [10].

Definition estimate_header : bytes :=
  txt "# HELP flowsketch_estimate Approximate query result from a bounded-memory sketch." ++ [10] ++
  txt "# TYPE flowsketch_estimate gauge" ++ [10].
Definition dropped_header : bytes :=
  txt "# HELP flowsketch_export_series_dropped Series dropped by the per-query export cap in this exposition." ++ [10] ++
  txt "# TYPE flowsketch_export_series_dropped gauge" ++ [10].

(** One query's turn of [render]'s loop. *)
Definition render_query (info : gmap string QueryExportInfo) (st : bytes * gmap string Z) (x : string * list SketchEstimate)
    : bytes * gmap string Z :=
  let '(out, dropped) := st in
  let qi := default default_info (info !! x.1) in
  let '(es, left_out) := within_budget qi x.2 in
  let dropped := match left_out with Some n => <[x.1 := n]> dropped | None => dropped end in
  (out ++ concat (render_estimate qi <$> es), dropped).

Definition render (estimates : list SketchEstimate) (info : gmap string QueryExportInfo) : bytes * gmap string Z :=
  let '(out, dropped) := foldl (render_query info) (estimate_header, ∅) (by_query (group_by_query estimates)) in
  (out ++ dropped_header ++ concat ((λ x, render_dropped x.1 x.2) <$> by_query dropped), dropped).
End render.

(** [PublishedState::export_info] *)
Definition export_info (queries : list QueryInfo) : gmap string QueryExportInfo :=
  foldl (λ m q, <[qi_name q := mkExportInfo (qi_error_kind q) (qi_max_series q) (qi_window_size_nanos q)]> m) ∅ queries.

(** ** A reader of the text format (version 0.0.4) *)

Record Sample := mkSample { s_metric : bytes; s_labels : list (bytes * bytes); s_value : bytes }.
#[export] Instance Sample_eq_dec : EqDecision Sample.
Proof. solve_decision. Defined.

(** Lines, each ended by a newline; what follows the last one is left over. *)
Fixpoint split_lines (text : bytes) : list bytes * bytes :=
  match text with
  | [] => ([], [])
  | c :: rest =>
      let '(ls, tail) := split_lines rest in
      if c =? 10 then ([] :: ls, tail)
      else match ls with [] => ([], c :: tail) | l :: ls => ((c :: l) :: ls, tail) end
  end.

Definition name_char (c : Z) : bool := is_ascii_alphanumeric c || (c =? 95).
Fixpoint read_name (l : bytes) : bytes * bytes :=
  match l with
  | c :: rest => if name_char c then let '(n, r) := read_name rest in (c :: n, r) else ([], l)
  | [] => ([], [])
  end.

(** A quoted value after its opening quote, with its escapes undone. *)
Fixpoint read_value (l : bytes) : option (bytes * bytes) :=
  match l with
  | [] => None
  | c :: rest =>
      if c =? 34 then Some ([], rest)
      else if c =? 92 then
        match rest with
        | d :: rest =>
            d ← (if d =? 92 then Some 92 else if d =? 34 then Some 34 else if d =? 110 then Some 10 else None);
            '(v, r) ← read_value rest; Some (d :: v, r)
        | [] => None
        end
      else '(v, r) ← read_value rest; Some (c :: v, r)
  end.

(** Labels after the opening brace, or after a comma. *)
Fixpoint read_labels (fuel : nat) (l : bytes) : option (list (bytes * bytes) * bytes) :=
  match fuel with
  | O => None
  | S fuel =>
      let '(k, r) := read_name l in
      match k, r with
      | _ :: _, 61 :: 34 :: r =>
          '(v, r) ← read_value r;
          match r with
          | 44 :: r => '(kvs, r) ← read_labels fuel r; Some ((k, v) :: kvs, r)
          | 125 :: r => Some ([(k, v)], r)
          | _ => None
          end
      | _, _ => None
      end
  end.

Definition read_sample (line : bytes) : option Sample :=
  let '(metric, r) := read_name line in
  _ ← guard (metric ≠ []);
  '(labels, r) ← match r with 123 :: r => read_labels (length r) r | _ => Some ([], r) end;
  match r with
  | 32 :: value => _ ← guard (value ≠ [] ∧ Forall (λ c, c ≠ 32) value); Some (mkSample metric labels value)
  | _ => None
  end.

(** The samples of a page; a line that starts with a number sign is a comment. *)
Definition read_line (line : bytes) : option (list Sample) :=
  match line with 35 :: _ => Some [] | _ => s ← read_sample line; Some [s] end.
Definition read_page (text : bytes) : option (list Sample) :=
  let '(ls, tail) := split_lines text in
  _ ← guard (tail = []);
  (λ l, concat l) <$> mapM read_line ls.

Definition sample_info : gmap string QueryExportInfo := {["q" := mkExportInfo "candidate-upper-bound" 2 60000000000]}.
Definition sample_series (src : string) (v : Z) : SketchEstimate :=
  mkEstimate "q" 0 60000000000 [("src.ip", txt src)] (f64_of_Z v) None None None "spacesaving" 1024 10.

Example render_example :
  read_page (render (λ _, txt "0.5") [sample_series "10.0.0.1" 5; sample_series "a\b" 123; sample_series "x" 7] sample_info).1 =
  let labels src := [(txt "query", txt "q"); (txt "algorithm", txt "spacesaving"); (txt "error_kind", txt "candidate-upper-bound");
    (txt "window", txt "60s"); (txt "src_ip", txt src)] in
  Some [mkSample (txt "flowsketch_estimate") (labels "a\b") (txt "123");
        mkSample (txt "flowsketch_estimate") (labels "x") (txt "7");
        mkSample (txt "flowsketch_export_series_dropped") [(txt "query", txt "q")] (txt "1")].
Proof. by vm_compute. Qed.

(** ** The reader undoes the writer *)

Lemma replace_app c by_ u v : replace c by_ (u ++ v) = replace c by_ u ++ replace c by_ v.
Proof. unfold replace. by rewrite fmap_app, concat_app. Qed.

Definition escape_byte (b : Z) : bytes :=
  if b =? 92 then [92; 92] else if b =? 34 then [92; 34] else if b =? 10 then [92; 110] else [b].

Lemma escape_cons b v : escape_label_value (b :: v) = escape_byte b ++ escape_label_value v.
Proof.
  unfold escape_label_value. change (b :: v) with ([b] ++ v). rewrite !replace_app. f_equal. unfold replace, escape_byte. cbn.
  destruct (b =? 92); [done|]. cbn. destruct (b =? 34); [done|]. cbn. by destruct (b =? 10).
Qed.

Lemma read_value_escape v r : read_value (escape_label_value v ++ 34 :: r) = Some (v, r).
Proof.
  induction v as [|b v IH]; [done|]. rewrite escape_cons, <- app_assoc. unfold escape_byte.
  destruct (Z.eqb_spec b 92) as [->|H92]; [cbn; by rewrite IH|].
  destruct (Z.eqb_spec b 34) as [->|H34]; [cbn; by rewrite IH|].
  destruct (Z.eqb_spec b 10) as [->|H10]; [cbn; by rewrite IH|].
  cbn. apply Z.eqb_neq in H92, H34. by rewrite H92, H34, IH.
Qed.

Definition one_line (l : bytes) : Prop := Forall (λ c, c ≠ 10) l.

Lemma escape_one_line v : one_line (escape_label_value v).
Proof.
  induction v as [|b v IH]; [constructor|]. rewrite escape_cons. apply Forall_app. split; [|done]. unfold escape_byte.
  repeat case_match; repeat constructor; lia.
Qed.

Definition no_name_start (r : bytes) : Prop := match r with c :: _ => name_char c = false | [] => True end.

Lemma read_name_app n r : Forall (λ c, name_char c = true) n → no_name_start r → read_name (n ++ r) = (n, r).
Proof.
  intros Hn Hr. induction Hn as [|c n Hc _ IH]; [|cbn; by rewrite Hc, IH].
  destruct r as [|c r]; [done|]. cbn in *. by rewrite Hr.
Qed.

Definition label_name_ok (n : bytes) : Prop := n ≠ [] ∧ Forall (λ c, name_char c = true) n.

Lemma sanitize_label_name_ok name : name ≠ "" → label_name_ok (sanitize_label_name name).
Proof.
  intros Hne. unfold sanitize_label_name. set (s := _ <$> str_chars name).
  assert (Forall (λ c, name_char c = true) s) as Hs.
  { apply Forall_fmap, Forall_forall. intros c _. unfold compose. fold (name_char c).
    by destruct (name_char c) eqn:E. }
  assert (s ≠ []) as Hs0.
  { intros E%fmap_nil_inv. unfold str_chars in E. assert (bytes_of_string name = []) as E0.
    { destruct (utf8_chars (bytes_of_string name)) as [cs|] eqn:Eu; [|done]. cbn in E. subst cs.
      by rewrite <- (encode_utf8_chars _ _ (bytes_of_string_ok name) Eu). }
    apply Hne. by rewrite <- (string_of_bytes_of_string name), E0. }
  destruct s as [|c s]; [done|]. split; [by case_match|]. case_match; [|done]. by constructor.
Qed.

(** *** Labels *)

Definition label_text (kv : bytes * bytes) : bytes := kv.1 ++ [61; 34] ++ escape_label_value kv.2 ++ [34].

Lemma render_labels_cons kv kvs :
  concat (imap render_label (kv :: kvs)) = label_text kv ++ concat ((λ kv, 44 :: label_text kv) <$> kvs).
Proof.
  rewrite imap_cons. cbn [concat]. f_equal. f_equal. rewrite imap_ext with (g := const (λ kv, 44 :: label_text kv)) by done.
  by rewrite imap_const.
Qed.

Lemma read_labels_text kv kvs fuel r :
  Forall (λ kv, label_name_ok kv.1) (kv :: kvs) → (length kvs < fuel)%nat →
  read_labels fuel (label_text kv ++ concat ((λ kv, 44 :: label_text kv) <$> kvs) ++ 125 :: r) = Some (kv :: kvs, r).
Proof.
  revert kv fuel. induction kvs as [|kv' kvs IH]; intros [k v] [|fuel] [[Hk Hn] Hkvs]%Forall_cons Hf; cbn [length] in Hf; try lia;
    cbn [read_labels]; unfold label_text at 1; cbn [fst snd]; rewrite <- !app_assoc; rewrite read_name_app by done;
    (destruct k as [|c k]; [done|]); cbn [app]; rewrite read_value_escape; [done|].
  cbn [fmap list_fmap concat app mbind option_bind]. rewrite <- app_assoc. rewrite IH; [done|done|lia].
Qed.

Lemma render_labels_length kvs : (length kvs <= length (concat (imap render_label kvs)))%nat.
Proof.
  destruct kvs as [|kv kvs]; [done|]. rewrite render_labels_cons, length_app. unfold label_text at 1. rewrite !length_app. cbn [length].
  induction kvs as [|x kvs IH]; cbn in *; rewrite ?length_app in *; lia.
Qed.

(** *** Pages, composed of the samples they hold *)

Definition value_text (v : bytes) : Prop := v ≠ [] ∧ Forall (λ c, c ≠ 32) v ∧ one_line v.

Lemma to_string_value n : 0 <= n → value_text (to_string n).
Proof.
  intros Hn. pose proof (decimal_digits 20 n Hn) as Hd. split; [apply to_string_nonempty|].
  split; (eapply Forall_impl; [exact Hd|]); unfold digit; intros c Hc; cbn in *; lia.
Qed.

Lemma format_value_text show v : (∀ x, value_text (show x)) → value_text (format_value show v).
Proof.
  intros Hs. unfold format_value. case_match; [|done]. unfold i64_to_string. destruct (Z.ltb_spec (default 0 (f_trunc_Z v)) 0).
  - destruct (to_string_value (- default 0 (f_trunc_Z v)) ltac:(lia)) as (_ & Hb & Hl). by split; [|split; constructor].
  - by apply to_string_value.
Qed.

(** A text that contributes the samples [ss] to a page that goes on after it. *)
Definition page_of (text : bytes) (ss : list Sample) : Prop :=
  ∀ rest, read_page (text ++ rest) = (λ l, ss ++ l) <$> read_page rest.

Lemma page_of_read text ss : page_of text ss → read_page text = Some ss.
Proof. intros H. rewrite <- (app_nil_r text), H. change (Some (ss ++ []) = Some ss). by rewrite app_nil_r. Qed.

Lemma page_of_nil : page_of [] [].
Proof. intros rest. cbn. by destruct (read_page rest). Qed.

Lemma page_of_app t1 t2 s1 s2 : page_of t1 s1 → page_of t2 s2 → page_of (t1 ++ t2) (s1 ++ s2).
Proof.
  intros H1 H2 rest. rewrite <- app_assoc, H1, H2. destruct (read_page rest); cbn; [|done]. by rewrite <- app_assoc.
Qed.

Lemma page_of_concat ts ss : Forall2 page_of ts ss → page_of (concat ts) (concat ss).
Proof. induction 1; [apply page_of_nil|by apply page_of_app]. Qed.

Lemma split_line l rest : one_line l →
  split_lines (l ++ 10 :: rest) = (l :: (split_lines rest).1, (split_lines rest).2).
Proof.
  induction 1 as [|c l Hc _ IH]; [cbn; by destruct (split_lines rest)|]. cbn. rewrite IH. apply Z.eqb_neq in Hc. by rewrite Hc.
Qed.

Lemma page_of_line l ss : one_line l → read_line l = Some ss → page_of (l ++ [10]) ss.
Proof.
  intros Hl Hs rest. rewrite <- app_assoc. cbn [app]. unfold read_page. rewrite split_line by done.
  destruct (split_lines rest) as [ls tail]. cbn [fst snd]. case_guard; [|done].
  cbn [mapM mbind option_bind]. rewrite Hs. cbn. by destruct (mapM read_line ls).
Qed.

Lemma page_of_comment l : one_line l → page_of (35 :: l ++ [10]) [].
Proof. intros Hl. apply (page_of_line (35 :: l) []); [by constructor|done]. Qed.

(** A sample's line. *)
Lemma read_sample_labels metric kvs value :
  label_name_ok metric → kvs ≠ [] → Forall (λ kv, label_name_ok kv.1) kvs → value_text value →
  read_line (metric ++ 123 :: concat (imap render_label kvs) ++ 125 :: 32 :: value) = Some [mkSample metric kvs value].
Proof.
  intros [Hm Hn] Hkvs Hnames (Hv0 & Hv & _). destruct kvs as [|kv kvs]; [done|]. clear Hkvs.
  assert (read_sample (metric ++ 123 :: concat (imap render_label (kv :: kvs)) ++ 125 :: 32 :: value) = Some (mkSample metric (kv :: kvs) value)) as E.
  { unfold read_sample. rewrite read_name_app by done. case_guard; [|done]. cbn [mbind option_bind].
    rewrite render_labels_cons, <- app_assoc, read_labels_text; [|done|].
    - cbn [mbind option_bind]. case_guard as Hg; [done|]. by destruct Hg.
    - pose proof (render_labels_length (kv :: kvs)) as Hl. rewrite render_labels_cons, length_app in Hl.
      rewrite !length_app. cbn [length] in *. lia. }
  destruct metric as [|c metric]; [done|]. unfold read_line. rewrite E. apply Forall_cons in Hn as [Hc _].
  change ((c :: metric) ++ ?x) with (c :: (metric ++ x)). destruct (decide (c = 35)) as [->|Hne]; [done|].
  cbn [mbind option_bind]. by repeat (case_match; try done).
Qed.

Lemma name_one_line n : Forall (λ c, name_char c = true) n → one_line n.
Proof. intros Hn. eapply Forall_impl; [exact Hn|]. by intros c Hc ->. Qed.

Lemma labels_one_line kvs : Forall (λ kv, label_name_ok kv.1) kvs → one_line (concat (imap render_label kvs)).
Proof.
  destruct kvs as [|kv kvs]; [constructor|]. rewrite render_labels_cons.
  assert (∀ kv, label_name_ok kv.1 → one_line (label_text kv)) as Hone.
  { intros [k v] [_ Hk]. apply Forall_app. split; [by apply name_one_line|]. repeat constructor; try lia.
    apply Forall_app. split; [apply escape_one_line|]. repeat constructor. lia. }
  intros [Hkv Hkvs]%Forall_cons. apply Forall_app. split; [by apply Hone|].
  apply Forall_concat, Forall_fmap. eapply Forall_impl; [exact Hkvs|]. intros x Hx. constructor; [lia|]. by apply Hone.
Qed.

Lemma page_of_sample metric kvs value :
  label_name_ok metric → kvs ≠ [] → Forall (λ kv, label_name_ok kv.1) kvs → value_text value →
  page_of (metric ++ 123 :: concat (imap render_label kvs) ++ 125 :: 32 :: value ++ [10]) [mkSample metric kvs value].
Proof.
  intros Hm Hkvs Hn Hv. replace (metric ++ _) with ((metric ++ 123 :: concat (imap render_label kvs) ++ 125 :: 32 :: value) ++ [10])
    by (rewrite <- !app_assoc; cbn [app]; by rewrite <- app_assoc).
  apply page_of_line; [|by apply read_sample_labels].
  apply Forall_app. split; [by apply name_one_line, Hm|]. constructor; [lia|]. apply Forall_app. split; [by apply labels_one_line|].
  constructor; [lia|]. constructor; [lia|]. apply Hv.
Qed.

Lemma page_of_plain metric value :
  label_name_ok metric → value_text value → page_of (metric ++ 32 :: value ++ [10]) [mkSample metric [] value].
Proof.
  intros [Hm Hn] (Hv0 & Hv & Hvl). change (32 :: value ++ [10]) with ((32 :: value) ++ [10]). rewrite app_assoc.
  apply page_of_line; [by apply Forall_app; split; [apply name_one_line|constructor]|].
  assert (read_sample (metric ++ 32 :: value) = Some (mkSample metric [] value)) as E.
  { unfold read_sample. rewrite read_name_app by done. case_guard; [|done]. cbn [mbind option_bind].
    case_guard as Hg; [done|]. by destruct Hg. }
  destruct metric as [|c metric]; [done|]. unfold read_line. rewrite E. apply Forall_cons in Hn as [Hc _].
  change ((c :: metric) ++ ?x) with (c :: (metric ++ x)). destruct (decide (c = 35)) as [->|Hne]; [done|].
  cbn [mbind option_bind]. by repeat (case_match; try done).
Qed.

Ltac name_tac := split; [done|]; apply (bool_decide_unpack _); by vm_compute.
Ltac labels_tac := repeat (apply Forall_cons_2; [name_tac|]); apply Forall_nil_2.

(** ** The page of a set of estimates *)

Section page.
Context (show : f64 → bytes) (Hshow : ∀ v, value_text (show v)).

Definition estimate_sample (qi : QueryExportInfo) (e : SketchEstimate) : Sample :=
  mkSample (txt "flowsketch_estimate") (estimate_labels qi e) (format_value show (e_estimate e)).
Definition dropped_sample (q : string) (n : Z) : Sample :=
  mkSample (txt "flowsketch_export_series_dropped") [(txt "query", txt q)] (to_string n).

Definition groups_named (e : SketchEstimate) : Prop := Forall (λ g, g.1 ≠ "") (e_group e).

Lemma estimate_page qi e : groups_named e → page_of (render_estimate show qi e) [estimate_sample qi e].
Proof using Hshow.
  intros Hg. assert (Forall (λ kv, label_name_ok kv.1) (estimate_labels qi e)) as Hl.
  { unfold estimate_labels. apply Forall_app. split; [labels_tac|]. apply Forall_app. split.
    - case_match; labels_tac.
    - apply Forall_fmap. eapply Forall_impl; [exact Hg|]. intros g. apply sanitize_label_name_ok. }
  unfold render_estimate. replace (txt "flowsketch_estimate{") with (txt "flowsketch_estimate" ++ [123]) by done.
  rewrite <- app_assoc. apply (page_of_sample (txt "flowsketch_estimate")); [name_tac|done|done|by apply format_value_text].
Qed.

Lemma dropped_page q n : 0 <= n → page_of (render_dropped q n) [dropped_sample q n].
Proof using.
  intros Hn. unfold render_dropped.
  assert (Forall (λ kv : bytes * bytes, label_name_ok kv.1) [(txt "query", txt q)]) as Hl by labels_tac.
  pose proof (page_of_sample (txt "flowsketch_export_series_dropped") [(txt "query", txt q)] (to_string n) ltac:(name_tac) ltac:(done) Hl (to_string_value n Hn)) as H.
  replace (txt "flowsketch_export_series_dropped{query=") with (txt "flowsketch_export_series_dropped" ++ [123] ++ txt "query" ++ [61]) by done.
  rewrite render_labels_cons in H. cbn [fmap list_fmap concat] in H. rewrite app_nil_r in H. unfold label_text in H. cbn [fst snd] in H.
  rewrite <- !app_assoc in H. rewrite <- !app_assoc. exact H.
Qed.

Lemma estimate_header_page : page_of estimate_header [].
Proof using.
  unfold estimate_header. rewrite app_assoc. apply (page_of_app _ _ [] []); apply page_of_line; try done; apply (bool_decide_unpack _); by vm_compute.
Qed.
Lemma dropped_header_page : page_of dropped_header [].
Proof using.
  unfold dropped_header. rewrite app_assoc. apply (page_of_app _ _ [] []); apply page_of_line; try done; apply (bool_decide_unpack _); by vm_compute.
Qed.
End page.

(** ** The whole page *)

Definition info_of (info : gmap string QueryExportInfo) (q : string) : QueryExportInfo := default default_info (info !! q).
Definition kept (info : gmap string QueryExportInfo) (x : string * list SketchEstimate) : list SketchEstimate :=
  (within_budget (info_of info x.1) x.2).1.
Definition left_out (info : gmap string QueryExportInfo) (x : string * list SketchEstimate) : option Z :=
  (within_budget (info_of info x.1) x.2).2.
(** The estimates on the page, in its order. *)
Definition exported_estimates (info : gmap string QueryExportInfo) (es : list SketchEstimate) : list SketchEstimate :=
  concat (kept info <$> by_query (group_by_query es)).

Definition note_left_out (info : gmap string QueryExportInfo) (m : gmap string Z) (x : string * list SketchEstimate) : gmap string Z :=
  match left_out info x with Some n => <[x.1 := n]> m | None => m end.

Lemma render_queries show info qs out dropped :
  foldl (render_query show info) (out, dropped) qs =
    (out ++ concat ((λ x, concat (render_estimate show (info_of info x.1) <$> kept info x)) <$> qs),
     foldl (note_left_out info) dropped qs).
Proof.
  revert out dropped. induction qs as [|x qs IH]; intros out dropped; [cbn; by rewrite app_nil_r|].
  cbn [foldl fmap list_fmap concat]. unfold render_query at 2. fold (info_of info x.1).
  unfold note_left_out at 2, left_out, kept. destruct (within_budget (info_of info x.1) x.2) as [es lo]. cbn [fst snd].
  rewrite IH. by rewrite <- app_assoc.
Qed.

Lemma group_by_query_lookup es q :
  group_by_query es !! q = match of_query q es with [] => None | l => Some l end.
Proof.
  induction es as [|e es IH] using rev_ind; [done|]. unfold group_by_query in *. rewrite foldl_app, of_query_snoc. cbn [foldl].
  case_decide as Hq.
  - subst q. rewrite lookup_insert_eq, IH. by destruct (of_query _ es).
  - by rewrite lookup_insert_ne.
Qed.

Lemma group_elem es q l : (q, l) ∈ by_query (group_by_query es) → l = of_query q es ∧ l ≠ [].
Proof. rewrite by_query_elem, group_by_query_lookup. destruct (of_query q es); naive_solver. Qed.

Lemma within_budget_spec qi es : 0 <= xi_max_series qi →
  ∃ rest, sort_by by_estimate es = (within_budget qi es).1 ++ rest ∧
    zlen (within_budget qi es).1 = Z.min (xi_max_series qi) (zlen es) ∧
    (within_budget qi es).2 = match rest with [] => None | _ => Some (zlen rest) end.
Proof.
  intros Hm. unfold within_budget. assert (zlen (sort_by by_estimate es) = zlen es) as El.
  { unfold zlen. unfold sort_by. by rewrite merge_sort_Permutation. }
  rewrite El. destruct (Z.ltb_spec (xi_max_series qi) (zlen es)) as [Hlt|Hge]; cbn [fst snd].
  - exists (drop (Z.to_nat (xi_max_series qi)) (sort_by by_estimate es)). rewrite take_drop. split; [done|].
    unfold zlen in *. rewrite length_take. split; [lia|].
    assert (length (drop (Z.to_nat (xi_max_series qi)) (sort_by by_estimate es)) = (length es - Z.to_nat (xi_max_series qi))%nat) as Ed
      by (rewrite length_drop; lia).
    destruct (drop _ _); cbn [length] in *; [lia|]. f_equal. lia.
  - exists []. rewrite app_nil_r. split; [done|]. split; [lia|done].
Qed.

Lemma kept_elem info x e : e ∈ kept info x → e ∈ x.2.
Proof.
  unfold kept, within_budget. intros He. rewrite <- (merge_sort_Permutation (cmp_le by_estimate) x.2).
  case_match; [|done]. cbn in He. by apply (subseteq_take _ _ _ He).
Qed.

Lemma note_left_out_lookup info qs m q : NoDup qs.*1 →
  foldl (note_left_out info) m qs !! q =
    match (list_to_map qs : gmap string (list SketchEstimate)) !! q with
    | Some l => match left_out info (q, l) with Some n => Some n | None => m !! q end
    | None => m !! q
    end.
Proof.
  revert m. induction qs as [|[k l] qs IH]; intros m Hnd; [done|]. apply NoDup_cons in Hnd as [Hk Hnd].
  rewrite list_to_map_cons. cbn [foldl]. rewrite IH by done. unfold note_left_out at 1 2. cbn [fst] in *.
  destruct (decide (q = k)) as [->|Hne].
  - rewrite not_elem_of_list_to_map_1 by done. rewrite lookup_insert_eq. destruct (left_out info (k, l)); [by rewrite lookup_insert_eq|done].
  - rewrite lookup_insert_ne by done. destruct (left_out info (k, l)); [by rewrite lookup_insert_ne|done].
Qed.

Lemma by_query_map {A} (m : gmap string A) : list_to_map (by_query m) = m.
Proof.
  unfold by_query. rewrite <- (list_to_map_to_list m) at 2. apply list_to_map_proper; [|by rewrite sort_by_Permutation].
  apply (by_query_keys m).
Qed.

Lemma render_eq show es info :
  render show es info =
    (estimate_header ++ concat ((λ x, concat (render_estimate show (info_of info x.1) <$> kept info x)) <$> by_query (group_by_query es)) ++
       dropped_header ++ concat ((λ x, render_dropped x.1 x.2) <$> by_query (foldl (note_left_out info) ∅ (by_query (group_by_query es)))),
     foldl (note_left_out info) ∅ (by_query (group_by_query es))).
Proof. unfold render. rewrite render_queries. by rewrite <- app_assoc. Qed.

Lemma dropped_lookup show es info q :
  (render show es info).2 !! q =
    match of_query q es with [] => None | l => left_out info (q, l) end.
Proof.
  rewrite render_eq. cbn [snd]. rewrite note_left_out_lookup by apply by_query_keys. rewrite by_query_map, group_by_query_lookup.
  destruct (of_query q es); [done|]. cbv beta iota. by destruct (left_out _ _).
Qed.

Lemma left_out_nonneg info x n : left_out info x = Some n → 0 <= n.
Proof. unfold left_out, within_budget. case_match eqn:E; [|done]. cbn. intros [= <-]. lia. Qed.

Lemma kept_names info es q l e : (q, l) ∈ by_query (group_by_query es) → e ∈ kept info (q, l) → e_query_name e = q ∧ e ∈ es.
Proof. intros [-> _]%group_elem He%kept_elem. by apply of_query_elem in He. Qed.

Lemma exported_of_query info es q : 
  of_query q (exported_estimates info es) = match of_query q es with [] => [] | l => kept info (q, l) end.
Proof.
  unfold exported_estimates.
  replace (kept info <$> by_query (group_by_query es)) with ((λ x, (x.1, kept info x)) <$> by_query (group_by_query es)).*2
    by (rewrite <- list_fmap_compose; by apply list_fmap_ext).
  destruct (of_query_concat q ((λ x, (x.1, kept info x)) <$> by_query (group_by_query es))) as [Hin Hout].
  - rewrite <- list_fmap_compose. apply (by_query_keys (group_by_query es)).
  - intros k l e ([k' l'] & [= -> ->] & Hx)%list_elem_of_fmap He. by apply (kept_names info es k' l' e Hx).
  - destruct (of_query q es) as [|e l] eqn:Eq.
    + apply Hout. rewrite <- list_fmap_compose. intros ([k l'] & -> & Hx)%list_elem_of_fmap. cbn in Eq.
      apply group_elem in Hx as [-> Hx]. done.
    + apply Hin. apply list_elem_of_fmap. exists (q, e :: l). split; [done|]. by rewrite by_query_elem, group_by_query_lookup, Eq.
Qed.

(** The samples a page is made for. *)
Definition page_samples (show : f64 → bytes) (es : list SketchEstimate) (info : gmap string QueryExportInfo) : list Sample :=
  ((λ e, estimate_sample show (info_of info (e_query_name e)) e) <$> exported_estimates info es) ++
  ((λ x, dropped_sample x.1 x.2) <$> by_query (render show es info).2).

Lemma concat_singletons {A B} (f : A → B) l : concat ((λ x, [f x]) <$> l) = f <$> l.
Proof. induction l as [|x l IH]; [done|]. cbn. by f_equal. Qed.

Lemma fmap_concat {A B} (f : A → B) (l : list (list A)) : f <$> (concat l : list A) = concat (((λ x : list A, f <$> x) <$> l) : list (list B)).
Proof. induction l as [|x l IH]; [done|]. cbn [concat]. rewrite fmap_app, IH. done. Qed.

Lemma render_page show es info :
  (∀ v, value_text (show v)) → Forall groups_named es → page_of (render show es info).1 (page_samples show es info).
Proof.
  intros Hshow Hes. unfold page_samples. rewrite (render_eq show es info). cbn [fst snd].
  apply (page_of_app _ _ []); [apply estimate_header_page|]. apply page_of_app.
  - unfold exported_estimates. rewrite fmap_concat, <- list_fmap_compose. apply page_of_concat, Forall2_fmap, Forall_Forall2_diag, Forall_forall.
    intros [q l] Hx. unfold compose. cbn [fst].
    rewrite <- (concat_singletons (λ e, estimate_sample show (info_of info (e_query_name e)) e)). apply page_of_concat, Forall2_fmap, Forall_Forall2_diag, Forall_forall.
    intros e He. apply (kept_names _ _ _ _ _ Hx) in He as [<- He]. apply estimate_page; [done|]. by apply (Forall_forall groups_named es).
  - apply (page_of_app _ _ []); [apply dropped_header_page|].
    rewrite <- (concat_singletons (λ x : string * Z, dropped_sample x.1 x.2)).
    apply page_of_concat, Forall2_fmap, Forall_Forall2_diag, Forall_forall. intros [q n] Hx. apply dropped_page. cbn.
    apply by_query_elem in Hx. rewrite note_left_out_lookup, by_query_map, group_by_query_lookup in Hx by apply by_query_keys.
    destruct (of_query q es); [done|]. cbv beta iota in Hx. destruct (left_out _ _) eqn:E; [|done]. injection Hx as <-.
    by apply left_out_nonneg in E.
Qed.

(** *** The largest first *)

Definition at_least (a b : SketchEstimate) : Prop := f_leb (e_estimate b) (e_estimate a) = true.
#[export] Instance at_least_transitive : Transitive at_least.
Proof. intros a b c Hab Hbc. by apply (f_leb_trans _ (e_estimate b)). Qed.
#[export] Instance by_estimate_total : Total (cmp_le by_estimate).
Proof. intros a b. apply f_compare_or_eq_total. Qed.

Definition a_number (e : SketchEstimate) : Prop := f_is_nan (e_estimate e) = false.

Lemma by_estimate_at_least a b : a_number a → a_number b → cmp_le by_estimate a b → at_least a b.
Proof.
  unfold a_number, cmp_le, by_estimate, at_least, f_partial_cmp_or_eq, f_leb, SFleb. intros Ha Hb.
  destruct (SFcompare (e_estimate b) (e_estimate a)) as [[]|] eqn:E; try done.
  by destruct (e_estimate a) as [|[]| |[]], (e_estimate b) as [|[]| |[]].
Qed.

Lemma sorted_at_least l : Forall a_number l → Sorted (cmp_le by_estimate) l → StronglySorted at_least l.
Proof.
  intros Hl Hs. apply Sorted_StronglySorted; [apply _|]. induction Hs as [|a l Hs IH Hd]; [constructor|].
  apply Forall_cons in Hl as [Ha Hl]. constructor; [by apply IH|]. destruct Hd as [|b l Hab]; constructor.
  apply Forall_cons in Hl as [Hb _]. by apply by_estimate_at_least.
Qed.

Lemma kept_largest info q es rest :
  Forall a_number es → sort_by by_estimate es = kept info (q, es) ++ rest → ∀ a b, a ∈ kept info (q, es) → b ∈ rest → at_least a b.
Proof.
  intros Hn E a b Ha Hb. apply (StronglySorted_app_1_elem_of _ (kept info (q, es)) rest); [|done|done]. rewrite <- E.
  apply sorted_at_least; [|apply Sorted_merge_sort; apply _]. unfold sort_by. by rewrite (merge_sort_Permutation (cmp_le by_estimate) es).
Qed.

(** ** Claims *)

(** The page rendered for a set of estimates reads back, under the rules of
    the text format, as exactly the samples it is made for: one for every
    estimate within its query's budget, with the query's labels and the group's
    fields and their values unchanged, whatever characters these hold, and one
    for every query that left series out. *)
Lemma metrics_page_reads_back (show : f64 → bytes) (es : list SketchEstimate) (info : gmap string QueryExportInfo)
    (Hshow : ∀ v, value_text (show v)) (Hgroups : Forall groups_named es) :
  read_page (render show es info).1 = Some (page_samples show es info).
Proof. by apply page_of_read, render_page. Qed.

Lemma metrics_page_reads_back_witness :
  let show := λ _, txt "0.5" in
  (∀ v, value_text (show v)) ∧
  read_page (render show [sample_series "10.0.0.1" 5; sample_series "a\b" 123; sample_series "x" 7] sample_info).1 =
    Some (page_samples show [sample_series "10.0.0.1" 5; sample_series "a\b" 123; sample_series "x" 7] sample_info).
Proof.
  intros show. assert (∀ v, value_text (show v)) as Hshow.
  { intros v. split; [done|]. by split; apply (bool_decide_unpack _); vm_compute. }
  split; [done|]. apply metrics_page_reads_back; [done|]. repeat constructor; done.
Defined.

(** The series budget is exact for every query: the page holds as many of
    its estimates as there are, or as the budget allows, those left out are
    counted as dropped, and none of them is larger than one that is shown. *)
Lemma series_budget_exact (show : f64 → bytes) (es : list SketchEstimate) (info : gmap string QueryExportInfo) (q : string)
    (Hcap : 0 <= xi_max_series (info_of info q)) :
  let mine := of_query q es in
  let shown := of_query q (exported_estimates info es) in
  ∃ rest, mine ≡ₚ shown ++ rest ∧
    zlen shown = Z.min (xi_max_series (info_of info q)) (zlen mine) ∧
    (render show es info).2 !! q = (match rest with [] => None | _ => Some (zlen rest) end) ∧
    (Forall a_number mine → ∀ a b, a ∈ shown → b ∈ rest → at_least a b).
Proof.
  intros mine shown. subst mine shown. rewrite exported_of_query, dropped_lookup. destruct (of_query q es) as [|e l] eqn:Eq.
  { exists []. split; [done|]. split; [unfold zlen; cbn; lia|]. split; [done|]. by intros _ a b ?%elem_of_nil. }
  destruct (within_budget_spec (info_of info q) (e :: l) Hcap) as (rest & Hsort & Hlen & Hout). exists rest.
  split; [|split; [done|split; [done|]]].
  - etransitivity; [|exact (eq_ind _ (λ x, sort_by by_estimate (e :: l) ≡ₚ x) (Permutation_refl _) _ Hsort)].
    symmetry. apply merge_sort_Permutation.
  - intros Hn. by apply kept_largest.
Qed.

Lemma series_budget_exact_witness :
  let es := [sample_series "10.0.0.1" 5; sample_series "a\b" 123; sample_series "x" 7] in
  0 <= xi_max_series (info_of sample_info "q") ∧
  ∃ rest, of_query "q" es ≡ₚ of_query "q" (exported_estimates sample_info es) ++ rest ∧
    zlen (of_query "q" (exported_estimates sample_info es)) = Z.min (xi_max_series (info_of sample_info "q")) (zlen (of_query "q" es)) ∧
    (render (λ _, []) es sample_info).2 !! "q" = (match rest with [] => None | _ => Some (zlen rest) end) ∧
    (Forall a_number (of_query "q" es) → ∀ a b, a ∈ of_query "q" (exported_estimates sample_info es) → b ∈ rest → at_least a b).
Proof.
  assert (0 <= xi_max_series (info_of sample_info "q")) as Hcap by by vm_compute.
  split; [done|]. by apply (series_budget_exact (λ _, [])).
Defined.
