(* ===== verification/MetricsPages.v ===== *)
(** * The agent's metrics page  (crates/flowsketch-agent/src/state.rs and http.rs)

    The counters the agent keeps about itself, the health families appended to
    the estimates, and the page served on /metrics.

    Every format string of the health page has one shape, a family: a help line,
    a type line and its samples.  The page reads back as the samples of the
    estimates and the families, in order, none lost and none run together. *)
From S2P Require Import Prelude Bytes Utf8 Maps Sketch F64 Event Ir Planner QueryState Emit AgentConfig Published Exposition.

#[local] Abbreviation txt := bytes_of_string.

(** ** Families *)

Record Family := mkFamily {
  f_name : string;
  f_help : string;
  f_kind : string;
  f_samples : list (list (string * bytes) * Z);
}.

(** A label as the format strings write it: its value is not escaped. *)
Definition raw_label (i : nat) (kv : string * bytes) : bytes :=
  (if (0 <? i)%nat then [44] else []) ++ txt kv.1 ++ [61; 34] ++ kv.2 ++ [34].
Definition render_point (name : string) (x : list (string * bytes) * Z) : bytes :=
  txt name ++ (match x.1 with [] => [] | ls => [123] ++ concat (imap raw_label ls) ++ [125] end) ++ [32] ++ to_string x.2 ++ [10].
Definition render_family (f : Family) : bytes :=
  txt "# HELP " ++ txt (f_name f) ++ [32] ++ txt (f_help f) ++ [10] ++
  txt "# TYPE " ++ txt (f_name f) ++ [32] ++ txt (f_kind f) ++ [10] ++
  concat (render_point (f_name f) <$> f_samples f).
Definition scalar (name help kind : string) (v : Z) : Family := mkFamily name help kind [([], v)].

Definition flag (b : bool) : Z := if b then 1 else 0.
(** [for (i, x) in xs.iter().enumerate()] *)
Definition enumerate {A} (xs : list A) : list (Z * A) := imap (λ i x, (Z.of_nat i, x)) xs.

(** ** The agent's counters *)

Record Health := mkHealth {
  h_events_processed : Z;
  h_packets_seen : Z;
  h_packets_parsed : Z;
  h_packets_unparsed : Z;
  h_invalid_timestamps : Z;
  h_kernel_packets : Z;
  h_kernel_dropped_packets : Z;
  h_kernel_queue_freezes : Z;
  h_ebpf_packets : Z;
  h_ebpf_events_emitted : Z;
  h_ebpf_ring_dropped_events : Z;
  h_ebpf_parse_errors : Z;
  h_ebpf_unsupported_packets : Z;
  h_ebpf_fallbacks : Z;
  h_dropped_events : Z;
  h_runtime_batches : Z;
  h_capture_ring_bytes : Z;
  h_capture_ring_blocks : Z;
  h_capture_block_size_bytes : Z;
  h_ebpf_ring_bytes : Z;
  h_runtime_shards : Z;
  h_sketch_memory_capacity_bytes : Z;
  h_capture_cpu_affinity : list Z;
  h_runtime_cpu_affinity : list Z;
  h_ready : bool;
  h_capture_ready : bool;
  h_source_done : bool;
  h_source_error : option string;
}.

(** [PublishedState::new] *)
Definition health_new (runtime_shards max_sketch_memory_bytes : Z) (cpu_affinity : option CpuAffinityConfig) : Health :=
  mkHealth 0 0 0 0 0 0 0 0 0 0 0 0 0 0 0 0 0 0 0 0 runtime_shards max_sketch_memory_bytes
    (default [] (capture_cpus <$> cpu_affinity)) (default [] (runtime_cpus <$> cpu_affinity)) false false false None.

(** ** The health page *)

Definition health_counters (h : Health) (s : PublishedState) : list (string * string * Z) :=
  [("flowsketch_agent_events_processed_total", "Flow events processed by the sketch engine.",
      h_events_processed h);
   ("flowsketch_agent_packets_seen_total", "Packets observed by the capture source.",
      h_packets_seen h);
   ("flowsketch_agent_packets_parsed_total", "Captured packets successfully converted into flow events.",
      h_packets_parsed h);
   ("flowsketch_agent_packets_unparsed_total", "Captured packets skipped because they are unsupported or malformed.",
      h_packets_unparsed h);
   ("flowsketch_agent_invalid_timestamps_total", "Live capture events quarantined because their timestamp was outside the trusted wall-clock range.",
      h_invalid_timestamps h);
   ("flowsketch_agent_kernel_packets_total", "Packets accepted by the Linux AF_PACKET socket, including packets later dropped from the receive ring.",
      h_kernel_packets h);
   ("flowsketch_agent_kernel_dropped_packets_total", "Packets dropped by the Linux AF_PACKET receive ring before userspace consumed them.",
      h_kernel_dropped_packets h);
   ("flowsketch_agent_kernel_queue_freezes_total", "Times the Linux TPACKET_V3 receive queue froze because no ring block was available.",
      h_kernel_queue_freezes h);
   ("flowsketch_agent_ebpf_packets_total", "Packets presented to the FlowSketch tc eBPF program.",
      h_ebpf_packets h);
   ("flowsketch_agent_ebpf_events_emitted_total", "Flow events successfully submitted to the eBPF ring buffer.",
      h_ebpf_events_emitted h);
   ("flowsketch_agent_ebpf_ring_dropped_events_total", "Flow events dropped because the eBPF ring buffer had no space.",
      h_ebpf_ring_dropped_events h);
   ("flowsketch_agent_ebpf_parse_errors_total", "Malformed or truncated packets rejected by the tc eBPF parser.",
      h_ebpf_parse_errors h);
   ("flowsketch_agent_ebpf_unsupported_packets_total", "Packets intentionally skipped by the tc eBPF parser.",
      h_ebpf_unsupported_packets h);
   ("flowsketch_agent_ebpf_fallbacks_total", "Explicit transitions from failed eBPF capture to AF_PACKET fallback.",
      h_ebpf_fallbacks h);
   ("flowsketch_agent_dropped_events_total", "Parsed events dropped in userspace because the engine channel was full.",
      h_dropped_events h);
   ("flowsketch_agent_late_events_total", "Events older than the earliest open window bucket.",
      ps_late_events s);
   ("flowsketch_agent_sketch_memory_bytes", "Bytes held by sketches across all queries and buckets.",
      ps_sketch_memory_bytes s);
   ("flowsketch_agent_otlp_exports_total", "Successful OTLP metric exports.",
      otlp_exports s);
   ("flowsketch_agent_otlp_export_failures_total", "OTLP exports that failed after retries.",
      otlp_failures s);
   ("flowsketch_agent_gateway_pushes_total", "Successful snapshot pushes to the gateway.",
      gateway_pushes s);
   ("flowsketch_agent_gateway_push_failures_total", "Snapshot pushes that failed after retries.",
      gateway_push_failures s);
   ("flowsketch_agent_runtime_batches_total", "Event batches completed by runtime workers.",
      h_runtime_batches h)].

Definition lane_counters : list (string * string * (CaptureLaneCounters → Z)) :=
  [("flowsketch_agent_af_packet_lane_packets_seen_total", "Packets observed by an AF_PACKET fan-out capture lane.",
      cl_packets_seen);
   ("flowsketch_agent_af_packet_lane_packets_parsed_total", "Packets converted into flow events by an AF_PACKET fan-out capture lane.",
      cl_packets_parsed);
   ("flowsketch_agent_af_packet_lane_packets_unparsed_total", "Unsupported or malformed packets skipped by an AF_PACKET fan-out capture lane.",
      cl_packets_unparsed);
   ("flowsketch_agent_af_packet_lane_events_processed_total", "Kernel-partitioned events processed by the matching runtime shard.",
      cl_events_processed);
   ("flowsketch_agent_af_packet_lane_kernel_packets_total", "Packets accepted by an AF_PACKET fan-out lane socket, including receive-ring drops.",
      cl_kernel_packets);
   ("flowsketch_agent_af_packet_lane_kernel_dropped_packets_total", "Packets dropped from an AF_PACKET fan-out lane receive ring before userspace consumed them.",
      cl_kernel_drops);
   ("flowsketch_agent_af_packet_lane_kernel_queue_freezes_total", "Receive-queue freezes reported by an AF_PACKET fan-out lane.",
      cl_queue_freezes);
   ("flowsketch_agent_af_packet_lane_userspace_dropped_events_total", "Parsed events dropped by an AF_PACKET fan-out lane because its dedicated runtime channel was full.",
      cl_userspace_drops)].

(** [if name.ends_with("_total") { "counter" } else { "gauge" }] *)
Definition ends_with (suffix s : bytes) : bool :=
  (length suffix <=? length s)%nat && bool_decide (drop (length s - length suffix) s = suffix).
Definition kind_of (name : string) : string := if ends_with (txt "_total") (txt name) then "counter" else "gauge".

Definition lane_label (lane : Z) : string * bytes := ("lane", to_string lane).
Definition lane_family (lanes : list CaptureLaneCounters) (x : string * string * (CaptureLaneCounters → Z)) : Family :=
  mkFamily x.1.1 x.1.2 "counter" ((λ l, ([lane_label l.1], x.2 l.2)) <$> enumerate lanes).
Definition cpu_family (name help who : string) (cpus : list Z) : Family :=
  mkFamily name help "gauge" ((λ x, ([(who, to_string x.1); ("cpu", to_string x.2)], 1)) <$> enumerate cpus).

Definition health_families (h : Health) (s : PublishedState) (uptime : Z) : list Family :=
  ((λ x, scalar x.1.1 x.1.2 (kind_of x.1.1) x.2) <$> health_counters h s) ++
  [scalar "flowsketch_agent_capture_ring_bytes" "Aggregate bytes configured across Linux TPACKET_V3 receive rings." "gauge"
     (h_capture_ring_bytes h);
   scalar "flowsketch_agent_capture_ring_blocks" "Aggregate blocks configured across Linux TPACKET_V3 receive rings." "gauge"
     (h_capture_ring_blocks h);
   scalar "flowsketch_agent_capture_block_size_bytes" "Bytes in each Linux TPACKET_V3 receive-ring block." "gauge"
     (h_capture_block_size_bytes h);
   scalar "flowsketch_agent_ebpf_ring_bytes" "Bytes configured for the tc eBPF event ring buffer." "gauge" (h_ebpf_ring_bytes h);
   scalar "flowsketch_agent_runtime_shards" "Configured parallel runtime shards." "gauge" (h_runtime_shards h);
   scalar "flowsketch_agent_sketch_memory_capacity_bytes"
     "Configured aggregate planner-memory ceiling across all queries and runtime shards." "gauge" (h_sketch_memory_capacity_bytes h);
   scalar "flowsketch_agent_af_packet_fanout_lanes" "Active Linux AF_PACKET kernel fan-out lanes." "gauge" (zlen (ps_lanes s));
   scalar "flowsketch_agent_af_packet_queue_local_handoff"
     "Whether fan-out capture lanes feed dedicated runtime workers without a shared event receiver." "gauge"
     (flag (negb (bool_decide (ps_channel_capacities s = []))));
   mkFamily "flowsketch_agent_af_packet_lane_channel_capacity" "Event slots reserved for each queue-local AF_PACKET lane." "gauge"
     ((λ x, ([lane_label x.1], x.2)) <$> enumerate (ps_channel_capacities s))] ++
  (lane_family (ps_lanes s) <$> lane_counters) ++
  [scalar "flowsketch_agent_cpu_affinity_enabled" "Whether explicit Linux capture/runtime CPU affinity is configured." "gauge"
     (flag (negb (bool_decide (h_capture_cpu_affinity h = []))));
   cpu_family "flowsketch_agent_capture_cpu_affinity" "Configured Linux logical CPU for each capture lane." "lane" (h_capture_cpu_affinity h);
   cpu_family "flowsketch_agent_runtime_cpu_affinity" "Configured Linux logical CPU for each runtime worker." "worker" (h_runtime_cpu_affinity h);
   scalar "flowsketch_agent_queries_active" "Queries this agent is executing." "gauge" (zlen (ps_queries s));
   scalar "flowsketch_agent_capture_ready" "Whether the configured capture source completed initialization." "gauge" (flag (h_capture_ready h));
   scalar "flowsketch_agent_ready" "Whether both the capture source and runtime engine are ready." "gauge"
     (flag (h_ready h && h_capture_ready h));
   scalar "flowsketch_agent_source_done" "Whether the configured capture source has completed." "gauge" (flag (h_source_done h));
   scalar "flowsketch_agent_uptime_seconds" "Seconds since agent start." "gauge" uptime].

Definition render_health_metrics (h : Health) (s : PublishedState) (uptime : Z) : bytes :=
  concat (render_family <$> health_families h s uptime).

(** The body of GET /metrics. *)
Definition agent_metrics (show : f64 → bytes) (h : Health) (s : PublishedState) (uptime : Z) : bytes :=
  (render show (latest_estimates s) (export_info (ps_queries s))).1 ++ render_health_metrics h s uptime.

(** ** Reading families *)

Definition family_samples (f : Family) : list Sample :=
  (λ x, mkSample (txt (f_name f)) ((λ kv, (txt kv.1, kv.2)) <$> x.1) (to_string x.2)) <$> f_samples f.

(** A label value that needs no escape. *)
Definition unescaped (v : bytes) : Prop := Forall (λ c, c ≠ 10 ∧ c ≠ 34 ∧ c ≠ 92) v.
Definition point_ok (x : list (string * bytes) * Z) : Prop :=
  0 <= x.2 ∧ Forall (λ kv, label_name_ok (txt kv.1) ∧ unescaped kv.2) x.1.
Definition family_ok (f : Family) : Prop :=
  label_name_ok (txt (f_name f)) ∧ one_line (txt (f_help f)) ∧ one_line (txt (f_kind f)) ∧ Forall point_ok (f_samples f).

Lemma escape_unescaped v : unescaped v → escape_label_value v = v.
Proof.
  induction 1 as [|c v (H10 & H34 & H92) _ IH]; [done|]. rewrite escape_cons, IH. unfold escape_byte.
  apply Z.eqb_neq in H10, H34, H92. by rewrite H92, H34, H10.
Qed.

Lemma to_string_unescaped n : 0 <= n → unescaped (to_string n).
Proof. intros Hn. eapply Forall_impl; [by apply (decimal_digits 20)|]. unfold digit. intros c Hc. cbn in *. lia. Qed.

Lemma raw_labels_eq ls : Forall (λ kv, label_name_ok (txt kv.1) ∧ unescaped kv.2) ls →
  concat (imap raw_label ls) = concat (imap render_label ((λ kv, (txt kv.1, kv.2)) <$> ls)).
Proof.
  intros Hls. rewrite imap_fmap. f_equal. apply imap_ext. intros i [k v] Hi. unfold compose, raw_label, render_label. cbn [fst snd].
  apply (Forall_lookup_1 _ _ _ _ Hls) in Hi as [_ Hv]. by rewrite escape_unescaped.
Qed.

Lemma point_page name x : label_name_ok (txt name) → point_ok x →
  page_of (render_point name x) [mkSample (txt name) ((λ kv, (txt kv.1, kv.2)) <$> x.1) (to_string x.2)].
Proof.
  intros Hn [Hv Hls]. destruct x as [[|kv ls] v]; unfold render_point; cbn [fst snd] in *.
  - by apply page_of_plain, to_string_value.
  - rewrite raw_labels_eq by done. rewrite <- !app_assoc. apply page_of_sample; [done|done| |by apply to_string_value].
    apply Forall_fmap. eapply Forall_impl; [exact Hls|]. by intros y [].
Qed.

Ltac text_tac := apply (bool_decide_unpack _); by vm_compute.

Definition comment (keyword : string) (name text : bytes) : bytes := 35 :: (txt " " ++ txt keyword ++ txt " " ++ name ++ [32] ++ text) ++ [10].

Lemma comment_page keyword name text : one_line name → one_line text →
  one_line (txt keyword) → page_of (comment keyword name text) [].
Proof.
  intros Hn Ht Hk. apply page_of_comment. repeat (apply Forall_app; split); try done; apply (bool_decide_unpack _); by vm_compute.
Qed.

Lemma render_family_eq f :
  render_family f = comment "HELP" (txt (f_name f)) (txt (f_help f)) ++ comment "TYPE" (txt (f_name f)) (txt (f_kind f)) ++
    concat (render_point (f_name f) <$> f_samples f).
Proof. unfold render_family, comment. repeat (rewrite <- !app_assoc; cbn [app]). done. Qed.

Lemma family_page f : family_ok f → page_of (render_family f) (family_samples f).
Proof.
  intros (Hn & Hh & Hk & Hs). rewrite render_family_eq. pose proof (name_one_line _ (proj2 Hn)) as Hl.
  change (family_samples f) with ([] ++ [] ++ family_samples f).
  apply page_of_app; [apply comment_page; [done|done|text_tac]|]. apply page_of_app; [apply comment_page; [done|done|text_tac]|].
  unfold family_samples.
  rewrite <- (concat_singletons (λ x : list (string * bytes) * Z, mkSample (txt (f_name f)) ((λ kv, (txt kv.1, kv.2)) <$> x.1) (to_string x.2))).
  apply page_of_concat, Forall2_fmap, Forall_Forall2_diag. eapply Forall_impl; [exact Hs|]. intros x. by apply point_page.
Qed.

Lemma families_page fs : Forall family_ok fs → page_of (concat (render_family <$> fs)) (concat (family_samples <$> fs)).
Proof.
  intros Hfs. apply page_of_concat, Forall2_fmap, Forall_Forall2_diag. eapply Forall_impl; [exact Hfs|]. apply family_page.
Qed.

Definition head_ok (f : Family) : bool :=
  forallb name_char (txt (f_name f)) && negb (bool_decide (txt (f_name f) = [])) &&
  forallb (λ c, negb (c =? 10)) (txt (f_help f)) && forallb (λ c, negb (c =? 10)) (txt (f_kind f)).

Lemma head_ok_family f : head_ok f = true → Forall point_ok (f_samples f) → family_ok f.
Proof.
  unfold head_ok. rewrite !andb_true_iff. intros (((Hn & Hne) & Hh) & Hk) Hs.
  apply negb_true_iff, bool_decide_eq_false in Hne.
  assert (∀ l, forallb (λ c, negb (c =? 10)) l = true → one_line l) as Hone.
  { intros l Hl. apply Forall_forall. intros c Hc.
    pose proof (proj1 (forallb_forall _ _) Hl c (proj1 (list_elem_of_In _ _) Hc)) as E. by apply negb_true_iff, Z.eqb_neq in E. }
  split; [split; [done|]|split; [by apply Hone|split; [by apply Hone|done]]].
  apply Forall_forall. intros c Hc. exact (proj1 (forallb_forall _ _) Hn c (proj1 (list_elem_of_In _ _) Hc)).
Qed.

Lemma enumerate_ok {A} (f : Z * A → list (string * bytes) * Z) (xs : list A) :
  (∀ i x, 0 <= i → x ∈ xs → point_ok (f (i, x))) → Forall point_ok (f <$> enumerate xs).
Proof.
  intros H. apply Forall_fmap, Forall_forall. intros y Hy. unfold enumerate in Hy.
  apply elem_of_lookup_imap in Hy as (i & x & -> & Hx). apply H; [lia|]. by apply (list_elem_of_lookup_2 _ i).
Qed.

(** *** The agent's page *)

Record health_ok (h : Health) (s : PublishedState) (uptime : Z) : Prop := {
  ok_counters : Forall (λ x, 0 <= x.2) (health_counters h s);
  ok_rings : Forall (λ x, 0 <= x) [h_capture_ring_bytes h; h_capture_ring_blocks h; h_capture_block_size_bytes h; h_ebpf_ring_bytes h;
    h_runtime_shards h; h_sketch_memory_capacity_bytes h; uptime];
  ok_capacities : Forall (λ x, 0 <= x) (ps_channel_capacities s);
  ok_lanes : Forall (λ l, Forall (λ c, 0 <= c.2 l) lane_counters) (ps_lanes s);
  ok_cpus : Forall (λ x, 0 <= x) (h_capture_cpu_affinity h ++ h_runtime_cpu_affinity h);
}.

Lemma scalar_ok name help kind v : head_ok (scalar name help kind v) = true → 0 <= v → family_ok (scalar name help kind v).
Proof. intros Hh Hv. apply head_ok_family; [done|]. by repeat constructor. Qed.

Lemma numbers_ok (l : list (string * Z)) : Forall (λ x, label_name_ok (txt x.1) ∧ 0 <= x.2) l →
  Forall (λ kv : string * bytes, label_name_ok (txt kv.1) ∧ unescaped kv.2) ((λ x, (x.1, to_string x.2)) <$> l).
Proof. intros Hl. apply Forall_fmap. eapply Forall_impl; [exact Hl|]. intros x [Hx Hv]. split; [done|by apply to_string_unescaped]. Qed.

Lemma lane_point_ok i v : 0 <= i → 0 <= v → point_ok ([lane_label i], v).
Proof. intros Hi Hv. split; [done|]. apply (numbers_ok [("lane", i)]).
  apply Forall_cons_2; [|apply Forall_nil_2]. split; [|done]. split; [done|text_tac].
Qed.

Lemma cpu_family_ok name help who cpus : head_ok (cpu_family name help who []) = true → label_name_ok (txt who) →
  Forall (λ x, 0 <= x) cpus → family_ok (cpu_family name help who cpus).
Proof.
  intros Hh Hw Hc. apply head_ok_family; [exact Hh|]. apply enumerate_ok. intros i x Hi Hx. split; [done|].
  pose proof (proj1 (Forall_forall _ _) Hc x Hx). apply (numbers_ok [(who, i); ("cpu", x)]).
  apply Forall_cons_2; [done|]. apply Forall_cons_2; [|apply Forall_nil_2]. split; [|done]. split; [done|text_tac].
Qed.

Lemma flag_nonneg b : 0 <= flag b.
Proof. by destruct b. Qed.

Lemma counters_heads h s : Forall (λ x, head_ok (scalar x.1.1 x.1.2 (kind_of x.1.1) 0) = true) (health_counters h s).
Proof. unfold health_counters. repeat (apply Forall_cons_2; [by vm_compute|]). apply Forall_nil_2. Qed.

Lemma lane_heads : Forall (λ x, head_ok (lane_family [] x) = true) lane_counters.
Proof. unfold lane_counters. repeat (apply Forall_cons_2; [by vm_compute|]). apply Forall_nil_2. Qed.

Lemma health_families_ok h s uptime : health_ok h s uptime → Forall family_ok (health_families h s uptime).
Proof.
  intros [Hc Hr Hcap Hl Hcpu]. rewrite !Forall_cons in Hr. destruct Hr as (R1 & R2 & R3 & R4 & R5 & R6 & R7 & _).
  apply Forall_app in Hcpu as [Hcap' Hrun]. unfold health_families.
  apply Forall_app. split; [|apply Forall_app; split; [|apply Forall_app; split]].
  - apply Forall_fmap, Forall_forall. intros x Hx. apply scalar_ok; [|exact (proj1 (Forall_forall _ _) Hc x Hx)].
    exact (proj1 (Forall_forall _ _) (counters_heads h s) x Hx).
  - repeat (apply Forall_cons_2; [apply scalar_ok; [by vm_compute|first [done|apply flag_nonneg|unfold zlen; lia]]|]).
    apply Forall_cons_2; [|apply Forall_nil_2]. apply head_ok_family; [by vm_compute|]. apply enumerate_ok.
    intros i x Hi Hx. apply lane_point_ok; [done|]. exact (proj1 (Forall_forall _ _) Hcap x Hx).
  - apply Forall_fmap, Forall_forall. intros x Hx. apply head_ok_family; [exact (proj1 (Forall_forall _ _) lane_heads x Hx)|].
    apply enumerate_ok. intros i l Hi Hin. apply lane_point_ok; [done|].
    exact (proj1 (Forall_forall _ _) (proj1 (Forall_forall _ _) Hl l Hin) x Hx).
  - apply Forall_cons_2; [apply scalar_ok; [by vm_compute|apply flag_nonneg]|].
    apply Forall_cons_2; [apply cpu_family_ok; [by vm_compute|split; [done|text_tac]|done]|].
    apply Forall_cons_2; [apply cpu_family_ok; [by vm_compute|split; [done|text_tac]|done]|].
    repeat (apply Forall_cons_2; [apply scalar_ok; [by vm_compute|first [done|apply flag_nonneg|unfold zlen; lia]]|]). apply Forall_nil_2.
Qed.

Lemma agent_page show h s uptime :
  (∀ v, value_text (show v)) → Forall groups_named (latest_estimates s) → health_ok h s uptime →
  page_of (agent_metrics show h s uptime)
    (page_samples show (latest_estimates s) (export_info (ps_queries s)) ++ concat (family_samples <$> health_families h s uptime)).
Proof. intros Hs Hg Hh. apply page_of_app; [by apply render_page|]. by apply families_page, health_families_ok. Qed.

(** ** The groups the queries report *)

Lemma make_group_named q key : Forall (λ g : string * bytes, g.1 ≠ "") (make_group q key).
Proof.
  unfold make_group. generalize (split_group_key key). induction (group_by q) as [|f l IH]; intros [|k ks]; try constructor; [|apply IH].
  by destruct f.
Qed.

Lemma emit_groups_named exp log2 fuel fp plan st ws we es :
  emit_estimates exp log2 fuel fp plan st ws we = Ok es → Forall groups_named es.
Proof. apply emit_forall. intros g v l u c [->|[key ->]]; [by constructor|apply make_group_named]. Qed.

Lemma latest_was_published plans lanes turns e :
  e ∈ latest_estimates (state (traffic turns (published_new plans lanes))) → e ∈ all_published (traffic turns (published_new plans lanes)).
Proof.
  intros (q & l & Hl & He)%latest_estimates_elem. rewrite (shows_lookup _ _ _ _ (traffic_shows plans lanes turns) Hl) in He.
  exact (proj1 (newest_elem _ _ _ He)).
Qed.

(** ** Claims *)

(** [C38] The agent's metrics page, at any moment of its life: read under the rules
    of the text format, it is exactly the samples of the newest windows within
    their budgets, followed by one sample for every point of the health families
    in their order; no label value, counter or lane can break a line. *)
Theorem agent_metrics_page (show : f64 → bytes) (plans : list Plan) (lanes : Z) (turns : list Turn) (h : Health) (uptime : Z)
    (Hshow : ∀ v, value_text (show v))
    (Hgroups : Forall groups_named (all_published (traffic turns (published_new plans lanes))))
    (Hhealth : health_ok h (state (traffic turns (published_new plans lanes))) uptime) :
  let s := state (traffic turns (published_new plans lanes)) in
  read_page (agent_metrics show h s uptime) =
    Some (page_samples show (latest_estimates s) (export_info (ps_queries s)) ++
          concat (family_samples <$> health_families h s uptime)).
Proof.
  intros s. apply page_of_read, agent_page; [done| |done]. apply Forall_forall. intros e He%latest_was_published.
  exact (proj1 (Forall_forall _ _) Hgroups e He).
Qed.

Definition sample_health : Health := health_new 2 1000 (Some (mkAffinity [0; 1] [2; 3])).

Lemma agent_metrics_page_witness :
  let s := state (traffic sample_turns (published_new [] 2)) in
  length (health_families sample_health s 5) = 47%nat ∧
  read_page (agent_metrics (λ _, txt "0.5") sample_health s 5) =
    Some (page_samples (λ _, txt "0.5") (latest_estimates s) (export_info (ps_queries s)) ++
          concat (family_samples <$> health_families sample_health s 5)).
Proof.
  split; [by vm_compute|]. apply (agent_metrics_page (λ _, txt "0.5") [] 2 sample_turns sample_health 5).
  - intros v. split; [done|]. by split; text_tac.
  - apply (bool_decide_unpack _). by vm_compute.
  - constructor; apply (bool_decide_unpack _); by vm_compute.
Defined.
