(* ===== verification/GatewayPage.v ===== *)
(** * The gateway's metrics page  (crates/flowsketch-gateway/src/state.rs)

    [render_metrics]: the estimates of complete merges, rendered like the
    agent's, and the gateway's own families.  The data are read twice, for the
    merge and for the gauges; the model's page takes both readings, which in a
    gateway that serves nothing else in between are the same state.

    In every reachable state a scrape succeeds, and its page reads back as the
    estimates of the queries whose live nodes all agree and the families'
    samples.  The families write query names unescaped: the page holds because
    the query parser admits only names that need no escape. *)
From S2P Require Import Prelude Bytes Utf8 Maps Hash Sketch F64 Event Ir Planner QueryState Emit Window Yaml.
From S2P Require Import Guarantees Sliding Shipping Published Exposition MetricsPages Restore Batch Gateway GatewaySpec Cluster.

#[local] Abbreviation txt := bytes_of_string.

Definition gateway_counters (c : Counters) : list (string * string * Z) :=
  [("flowsketch_gateway_pushes_total", "Snapshot push requests received.",
      pushes_total c);
   ("flowsketch_gateway_snapshots_accepted_total", "Per-query window states accepted from pushes.",
      snapshots_accepted c);
   ("flowsketch_gateway_snapshots_rejected_total", "Per-query window states rejected because they were unknown, incompatible, or exceeded an admission limit.",
      snapshots_rejected c);
   ("flowsketch_gateway_node_admission_rejections_total", "New-node push batches rejected because gateway node capacity was full.",
      node_admission_rejections c);
   ("flowsketch_gateway_sketch_budget_rejections_total", "Per-query window states rejected because the retained sketch-byte budget was full.",
      sketch_budget_rejections c);
   ("flowsketch_gateway_body_budget_rejections_total", "Snapshot pushes rejected before allocation by the in-flight HTTP body budget.",
      body_budget_rejections c);
   ("flowsketch_gateway_merge_cache_shard_rebuilds_total", "Fixed merge-cache shards rebuilt after accepted node updates or expiry.",
      merge_cache_shard_rebuilds c)].

(** The families that have one sample for every merged query. *)
Definition query_family (name help : string) (value : MergedQuery → Z) (ms : list MergedQuery) : Family :=
  mkFamily name help "gauge" ((λ m, ([("query", txt (m_query_name m))], value m)) <$> ms).

Section page.
Context (exp log2 : f64 → f64) (fuel : nat) (fp : Footprint).

Definition gateway_families (ms : list MergedQuery) (g : GatewayState) (uptime : Z) : list Family :=
  ((λ x, scalar x.1.1 x.1.2 "counter" x.2) <$> gateway_counters (counters g)) ++
  [query_family "flowsketch_gateway_nodes_known" "Nodes with a live snapshot for this query." nodes_known ms;
   scalar "flowsketch_gateway_nodes_tracked" "Unique live node identities retained by the gateway." "gauge"
     (unique_node_count (nodes (data g)));
   scalar "flowsketch_gateway_nodes_capacity" "Configured hard limit on live node identities." "gauge" (max_nodes g);
   scalar "flowsketch_gateway_retained_sketch_bytes" "Actual sketch-owned bytes retained across per-node window states." "gauge"
     (retained_sketch_bytes (data g));
   scalar "flowsketch_gateway_retained_sketch_capacity_bytes" "Configured hard limit on retained per-node sketch state." "gauge"
     (max_retained_sketch_bytes g);
   scalar "flowsketch_gateway_merge_cache_sketch_bytes"
     "Actual sketch-owned bytes in fixed-shard merge summaries and the final cached merge." "gauge"
     (merge_cache_sketch_bytes fp (data g));
   scalar "flowsketch_gateway_merge_cache_shards"
     "Fixed upper bound on sketch states merged after a cache miss, independent of node count." "gauge" (Z.of_nat MERGE_CACHE_SHARDS);
   query_family "flowsketch_gateway_merge_complete"
     "Whether every live node was included in the exported window; incomplete merges suppress cluster estimates."
     (λ m, flag (nodes_merged m =? nodes_known m)) ms;
   query_family "flowsketch_gateway_nodes_merged"
     "Nodes merged into this query's newest window (nodes on other window boundaries are excluded)." nodes_merged ms;
   scalar "flowsketch_gateway_queries_active" "Queries this gateway merges." "gauge" (zlen (plans g));
   scalar "flowsketch_gateway_uptime_seconds" "Seconds since gateway start." "gauge" uptime].

Definition gateway_info (ps : list Plan) : gmap string QueryExportInfo :=
  foldl (λ m p, <[q_name (query p) := mkExportInfo (ErrorKind_name (error_kind (physical p))) (max_series (export (query p)))
    (size_nanos (window (query p)))]> m) ∅ ps.

Definition gateway_page (show : f64 → bytes) (uptime : Z) (ms : list MergedQuery) (g : GatewayState) : bytes :=
  (render show (Gateway.exported_estimates ms) (gateway_info (plans g))).1 ++ concat (render_family <$> gateway_families ms g uptime).
Definition render_metrics (show : f64 → bytes) (uptime : Z) (clock : string → string → Z) (g : GatewayState)
    : res (bytes * GatewayState) :=
  '(ms, g) ← merged exp log2 fuel fp clock g;
  Ok (gateway_page show uptime ms g, g).
End page.

(** ** Reading the page *)

Lemma well_named_unescaped q : well_named q → unescaped (txt q).
Proof.
  intros [_ Hq]. eapply Forall_impl; [exact Hq|]. intros c Hc. unfold Yaml.name_char in Hc. rewrite !orb_true_iff, !in_range_iff in Hc. lia.
Qed.

Lemma query_family_ok name help value ms :
  head_ok (query_family name help value []) = true → Forall (λ m, well_named (m_query_name m) ∧ 0 <= value m) ms →
  family_ok (query_family name help value ms).
Proof.
  intros Hh Hms. apply head_ok_family; [exact Hh|]. apply Forall_fmap. eapply Forall_impl; [exact Hms|]. intros m [Hw Hv].
  split; [exact Hv|]. apply Forall_cons_2; [|apply Forall_nil_2]. split; [split; [done|text_tac]|by apply well_named_unescaped].
Qed.

Lemma gateway_heads c : Forall (λ x, head_ok (scalar x.1.1 x.1.2 "counter" 0) = true) (gateway_counters c).
Proof. unfold gateway_counters. repeat (apply Forall_cons_2; [by vm_compute|]). apply Forall_nil_2. Qed.

Lemma sat_add64_nonneg a b : 0 <= a → 0 <= b → 0 <= sat_add64 a b.
Proof. unfold sat_add64. lia. Qed.

Lemma cache_bytes_nonneg fp d : (∀ w, u64_ok (mem fp w)) → 0 <= merge_cache_sketch_bytes fp d.
Proof.
  intros Hm. assert (∀ ws n, 0 <= n → 0 <= foldl (λ bytes w, sat_add64 bytes (mem fp w)) n ws) as Hs.
  { induction ws as [|w ws IH]; intros n Hn; [done|]. cbn. apply IH, sat_add64_nonneg; [done|]. apply Hm. }
  assert (∀ l n, 0 <= n → 0 <= foldl (λ total (x : string * QueryMergeCache), sat_add64 (sat_add64 total (shards_bytes fp x.2))
      (default 0 (mem fp <$> final_state x.2))) n l) as Hl; [|by apply Hl].
  induction l as [|x l IH]; intros n Hn; [done|]. cbn. apply IH, sat_add64_nonneg.
  - apply sat_add64_nonneg; [done|]. by apply Hs.
  - destruct (final_state x.2); cbn; [apply Hm|done].
Qed.

Lemma merged_counters exp log2 fuel fp clock g ms g' :
  merged exp log2 fuel fp clock g = Ok (ms, g') → 0 <= body_budget_rejections (counters g) →
  Forall (λ x, 0 <= x.2) (gateway_counters (counters g')).
Proof.
  unfold merged. destruct (evict_stale fp clock (stale_after g) (data g)) as [d changed].
  destruct (refresh_changed_caches fuel d changed) as [[d1 n]| |]; cbn [mbind outcome_bind]; try done.
  destruct (foldM _ _ _) as [[d2 out]| |]; cbn [mbind outcome_bind]; try done. intros [= <- <-] Hb.
  unfold gateway_counters. cbn [counters with_counters counted with_data].
  repeat (apply Forall_cons_2; [cbn; first [done|apply Z.mod_pos_bound; done]|]). apply Forall_nil_2.
Qed.

Section reading.
Context (fuel : nat) (fp : Footprint) (exp log2 : f64 → f64) (ps : list Plan) (h : HashSpec) (Hdep : deployable fuel fp ps).

Lemma reports_named d p m : reports fuel fp ps h exp log2 d p m → Forall groups_named (estimates m).
Proof using.
  intros (_ & _ & start & _ & _ & Hr). case_decide; [|by rewrite Hr; constructor]. destruct Hr as (w & r & _ & _ & He & _).
  by apply emit_groups_named in He.
Qed.

Lemma reports_counts d p m : reports fuel fp ps h exp log2 d p m → 0 <= nodes_known m ∧ 0 <= nodes_merged m.
Proof using. intros (_ & -> & start & _ & -> & _). unfold zlen. lia. Qed.

Lemma exported_named ms : Forall (λ m, Forall groups_named (estimates m)) ms → Forall groups_named (Gateway.exported_estimates ms).
Proof using.
  intros Hms. apply Forall_concat, Forall_fmap, Forall_forall. intros m [_ Hm]%list_elem_of_filter.
  exact (proj1 (Forall_forall _ _) Hms m Hm).
Qed.

Lemma gateway_families_ok ms g uptime :
  inv fuel fp ps h g → Forall (λ x, 0 <= x.2) (gateway_counters (counters g)) → 0 <= uptime →
  Forall (λ m, well_named (m_query_name m) ∧ 0 <= nodes_known m ∧ 0 <= nodes_merged m) ms →
  Forall family_ok (gateway_families fp ms g uptime).
Proof using Hdep.
  intros [_ [_ Hbytes _] _ Hmax Hnodes] Hc Hup Hms. pose proof (sizes_ok fuel fp ps Hdep) as Hsz.
  assert (0 <= total fp (nodes (data g))) as Ht by (apply msum_nonneg; intros k x _; by apply (bytes_nonneg fp)).
  assert (0 <= unique_node_count (nodes (data g))) as Hu by (unfold unique_node_count; lia).
  assert (∀ value, (∀ m, 0 <= nodes_known m → 0 <= nodes_merged m → 0 <= value m) →
    Forall (λ m, well_named (m_query_name m) ∧ 0 <= value m) ms) as Hv.
  { intros value Hvalue. eapply Forall_impl; [exact Hms|]. intros m (Hw & Hk & Hm). split; [done|]. by apply Hvalue. }
  unfold gateway_families. apply Forall_app. split.
  - apply Forall_fmap, Forall_forall. intros x Hx. apply scalar_ok; [|exact (proj1 (Forall_forall _ _) Hc x Hx)].
    exact (proj1 (Forall_forall _ _) (gateway_heads (counters g)) x Hx).
  - repeat (apply Forall_cons_2; [first
      [apply scalar_ok; [by vm_compute|first [done|by apply cache_bytes_nonneg|unfold zlen; lia]]
      |apply query_family_ok; [by vm_compute|apply Hv; intros m ??; first [done|apply flag_nonneg]]]|]).
    apply Forall_nil_2.
Qed.
End reading.

(** ** Claims *)

(** [C39] Whatever requests a deployed gateway has served, a scrape of its metrics
    succeeds, and the page, read under the rules of the text format, is exactly
    the samples of the estimates of the queries whose live nodes all agree,
    within their budgets, followed by one sample for every point of the
    gateway's families: no query name, count or estimate breaks a line. *)
Theorem gateway_metrics_page fuel fp exp log2 ps h g clock (show : f64 → bytes) uptime
    (Hdep : deployable fuel fp ps) (Hnames : Forall (λ p, well_named (q_name (query p))) ps)
    (Hg : reachable fuel fp exp log2 ps h g) (Hshow : ∀ v, value_text (show v)) (Hup : 0 <= uptime)
    (Hbudget : 0 <= body_budget_rejections (counters g)) :
  ∃ ms g' text, merged exp log2 fuel fp clock g = Ok (ms, g') ∧
    render_metrics exp log2 fuel fp show uptime clock g = Ok (text, g') ∧
    read_page text = Some (page_samples show (Gateway.exported_estimates ms) (gateway_info ps) ++
                           concat (family_samples <$> gateway_families fp ms g' uptime)).
Proof.
  destruct (merged_spec fuel fp exp log2 ps h Hdep clock g (reachable_inv fuel fp exp log2 ps h Hdep g Hg))
    as (ms & g' & d & Hm & Hinv & _ & _ & _ & _ & Hin & _).
  exists ms, g', (gateway_page fp show uptime ms g'). split; [done|]. split; [unfold render_metrics; by rewrite Hm|].
  unfold gateway_page. destruct (iv_plans _ _ _ _ _ Hinv) as [-> _]. apply page_of_read, page_of_app.
  - apply render_page; [done|]. apply exported_named, Forall_forall. intros m (p & _ & Hr)%Hin. by apply reports_named in Hr.
  - apply families_page, (gateway_families_ok fuel fp ps h Hdep); [done| |done|].
    + apply (merged_counters _ _ _ _ _ _ _ _ Hm). exact Hbudget.
    + apply Forall_forall. intros m (p & Hp & Hr)%Hin. pose proof (reports_counts _ _ _ _ _ _ _ _ _ Hr) as [Hk Hn].
      split; [|by split]. destruct Hr as [-> _]. exact (proj1 (Forall_forall _ _) Hnames p Hp).
Qed.

Lemma gateway_metrics_page_witness :
  ∃ ms g' text, merged a_log a_log 0 fp0 at_zero sample_served = Ok (ms, g') ∧
    render_metrics a_log a_log 0 fp0 (λ _, txt "0.5") 7 at_zero sample_served = Ok (text, g') ∧
    read_page text = Some (page_samples (λ _, txt "0.5") (Gateway.exported_estimates ms) (gateway_info [sample_plan]) ++
                           concat (family_samples <$> gateway_families fp0 ms g' 7)).
Proof.
  apply (gateway_metrics_page 0 fp0 a_log a_log [sample_plan] HashSpec_default sample_served at_zero (λ _, txt "0.5") 7).
  - exact sample_deployable.
  - apply Forall_singleton. split; [by vm_compute|text_tac].
  - exact sample_reachable.
  - intros v. split; [done|]. by split; text_tac.
  - done.
  - by vm_compute.
Defined.
