(* ===== verification/Http.v ===== *)
(** * The HTTP servers' wire  (crates/flowsketch-gateway/src/http.rs and crates/flowsketch-agent/src/http.rs)

    Both servers read requests with the same code: bounded lines, bounded
    headers, then a body of the announced length.  A connection is the list of
    the chunks its reads return, none empty, and whether it then ends or breaks
    (an error, a timeout).

    Proved: how the network cuts the bytes into chunks makes no difference to
    anything the servers do, and a request head is read within fixed bounds, so
    that every connection is answered or closed. *)
From S2P Require Import Prelude Bytes Utf8 Event.

#[local] Abbreviation txt := bytes_of_string.

(** ** Text *)

(** [String::from_utf8_lossy]: the longest prefix of a sequence that could still
    have become a character is replaced by one U+FFFD. *)
Definition replacement : bytes := [239; 191; 189].
Definition second_ok (a b : Z) : bool :=
  (a =? 224) && in_range 160 191 b || (in_range 225 236 a || in_range 238 239 a) && continuation b ||
  (a =? 237) && in_range 128 159 b || (a =? 240) && in_range 144 191 b ||
  in_range 241 243 a && continuation b || (a =? 244) && in_range 128 143 b.
Fixpoint lossy (l : bytes) : bytes :=
  match l with
  | [] => []
  | a :: l1 =>
      if a <? 128 then a :: lossy l1
      else match l1 with
      | [] => replacement
      | b :: l2 =>
          if in_range 194 223 a then (if continuation b then a :: b :: lossy l2 else replacement ++ lossy l1)
          else if second_ok a b then
            match l2 with
            | [] => replacement
            | c :: l3 =>
                if negb (continuation c) then replacement ++ lossy l2
                else if a <? 240 then a :: b :: c :: lossy l3
                else match l3 with
                | [] => replacement
                | d :: l4 => if continuation d then a :: b :: c :: d :: lossy l4 else replacement ++ lossy l3
                end
            end
          else replacement ++ lossy l1
      end
  end.

(** The characters of a text that is UTF-8. *)
Definition chars_of (l : bytes) : list Z := default l (utf8_chars l).

(** [str::split_whitespace]; [cur] is the word being read. *)
Fixpoint words (cur : list Z) (cs : list Z) : list (list Z) :=
  match cs with
  | [] => match cur with [] => [] | _ => [cur] end
  | c :: rest =>
      if is_whitespace c then match cur with [] => words [] rest | _ => cur :: words [] rest end
      else words (cur ++ [c]) rest
  end.
Definition split_whitespace (cs : list Z) : list (list Z) := words [] cs.

(** [str::to_ascii_lowercase], [str::strip_prefix] *)
Definition to_ascii_lowercase (l : bytes) : bytes := (λ c, if in_range 65 90 c then c + 32 else c) <$> l.
Fixpoint strip_prefix (p l : bytes) : option bytes :=
  match p, l with
  | [], _ => Some l
  | a :: p, b :: l => if a =? b then strip_prefix p l else None
  | _, [] => None
  end.

(** [str::parse::<usize>]: a sign is accepted. *)
Definition parse_usize (cs : list Z) : option Z :=
  match cs with c :: rest => if c =? 43 then parse_u64 rest else parse_u64 cs | [] => None end.

(** ** Connections *)

Record Stream := mkStream { chunks : list bytes; breaks : bool }.

Inductive LineResult :=
  | Line (line : bytes)
  | NoLine
  | TooLong
  | Failed.

(** [available.iter().position(|&b| b == b'\n').map_or(available.len(), |pos| pos + 1)] *)
Fixpoint line_in (l : bytes) : nat :=
  match l with [] => O | c :: rest => if c =? 10 then 1%nat else S (line_in rest) end.
Definition ends_with_newline (l : bytes) : bool := match last l with Some c => c =? 10 | None => false end.

(** What is left of the chunks when [n] bytes of the first are consumed. *)
Definition consume (n : nat) (available : bytes) (more : list bytes) : list bytes :=
  match drop n available with [] => more | rest => rest :: more end.

Definition at_end (broken : bool) (buf : bytes) : LineResult :=
  if broken then Failed else match buf with [] => NoLine | _ => Line (lossy buf) end.

(** An empty read is the end.  A chunk without a newline is consumed whole. *)
Fixpoint read_line_loop (max_bytes : Z) (broken : bool) (buf : bytes) (cs : list bytes) : LineResult * list bytes :=
  match cs with
  | [] | [] :: _ => (at_end broken buf, [])
  | available :: more =>
      let n := line_in available in
      if max_bytes <? zlen buf + Z.of_nat n then (TooLong, cs)
      else
        let buf := buf ++ take n available in
        if ends_with_newline buf then (Line (lossy buf), consume n available more)
        else read_line_loop max_bytes broken buf more
  end.
Definition read_line_bounded (max_bytes : Z) (s : Stream) : LineResult * Stream :=
  let '(r, cs) := read_line_loop max_bytes (breaks s) [] (chunks s) in (r, mkStream cs (breaks s)).

(** [Read::read_exact]: [None] when the connection ends or breaks first. *)
Fixpoint read_exact_loop (n : nat) (cs : list bytes) : option (bytes * list bytes) :=
  match n, cs with
  | O, _ => Some ([], cs)
  | _, [] | _, [] :: _ => None
  | _, available :: more =>
      if (n <=? length available)%nat then Some (take n available, consume n available more)
      else '(b, cs) ← read_exact_loop (n - length available) more; Some (available ++ b, cs)
  end.
Definition read_exact (n : Z) (s : Stream) : option (bytes * Stream) :=
  '(b, cs) ← read_exact_loop (Z.to_nat n) (chunks s); Some (b, mkStream cs (breaks s)).

(** ** Requests and responses *)

Definition MAX_CONCURRENT_CONNECTIONS : Z := 128.
Definition MAX_REQUEST_LINE_BYTES : Z := 8 * 1024.
Definition MAX_HEADER_LINE_BYTES : Z := 8 * 1024.
Definition MAX_HEADER_BYTES : Z := 32 * 1024.

Record Response := mkResponse { status : Z; content_type : string; body : bytes }.
Definition text (status : Z) (s : string) : Response := mkResponse status "text/plain" (txt s ++ [10]).

(** A request's head as the handler sees it, or why there is none. *)
Inductive Head :=
  | Closed
  | Refused (r : Response)
  | Request (method path : list Z) (content_length : Z) (rest : Stream).

Definition header_length (line : bytes) (content_length : Z) : Z :=
  match strip_prefix (txt "content-length:") (to_ascii_lowercase line) with
  | Some v => default 0 (parse_usize (trim (chars_of v)))
  | None => content_length
  end.

(** The header loop: each turn reads a line, so [fuel] is a bound on the bytes
    that are left. *)
Inductive Headers :=
  | HeadersDone (content_length : Z) (rest : Stream)
  | HeadersTooLarge
  | HeadersFailed.
Fixpoint read_headers (fuel : nat) (content_length header_bytes : Z) (s : Stream) : option Headers :=
  match fuel with
  | O => None
  | S fuel =>
      let '(r, s) := read_line_bounded MAX_HEADER_LINE_BYTES s in
      match r with
      | NoLine => Some (HeadersDone content_length s)
      | TooLong => Some HeadersTooLarge
      | Failed => Some HeadersFailed
      | Line line =>
          let header_bytes := header_bytes + zlen line in
          if MAX_HEADER_BYTES <? header_bytes then Some HeadersTooLarge
          else if bool_decide (line = [13; 10]) || bool_decide (line = [10]) then Some (HeadersDone content_length s)
          else read_headers fuel (header_length line content_length) header_bytes s
      end
  end.

Definition read_head (fuel : nat) (s : Stream) : option Head :=
  let '(r, s) := read_line_bounded MAX_REQUEST_LINE_BYTES s in
  match r with
  | NoLine | Failed => Some Closed
  | TooLong => Some (Refused (text 400 "bad request"))
  | Line request_line =>
      h ← read_headers fuel 0 0 s;
      Some (match h with
      | HeadersFailed => Closed
      | HeadersTooLarge => Refused (text 431 "request headers too large")
      | HeadersDone content_length rest =>
          let parts := split_whitespace (chars_of request_line) in
          Request (default [] (parts !! 0%nat)) (default [] (parts !! 1%nat)) content_length rest
      end)
  end.

Definition reason (status : Z) : string :=
  if status =? 200 then "OK" else if status =? 400 then "Bad Request" else if status =? 404 then "Not Found"
  else if status =? 405 then "Method Not Allowed" else if status =? 413 then "Payload Too Large"
  else if status =? 431 then "Request Header Fields Too Large" else if status =? 503 then "Service Unavailable" else "Unknown".

Definition crlf : bytes := [13; 10].
Definition respond (r : Response) : bytes :=
  txt "HTTP/1.1 " ++ to_string (status r) ++ [32] ++ txt (reason (status r)) ++ crlf ++
  txt "Content-Type: " ++ txt (content_type r) ++ crlf ++
  txt "Content-Length: " ++ to_string (zlen (body r)) ++ crlf ++
  txt "Connection: close" ++ crlf ++ crlf ++ body r.

(** The fuel a connection needs: its bytes, and one turn more. *)
Definition stream_fuel (s : Stream) : nat := S (length (concat (chunks s))).

(** ** Lines of the whole text *)

Definition no_newline (l : bytes) : Prop := Forall (λ c, c ≠ 10) l.

Lemma line_in_cases l :
  (∃ a b, l = a ++ 10 :: b ∧ no_newline a ∧ line_in l = S (length a)) ∨ no_newline l ∧ line_in l = length l.
Proof.
  induction l as [|c l IH]; [right; by split; [constructor|]|]. cbn [line_in]. destruct (Z.eqb_spec c 10) as [->|Hc].
  - left. exists [], l. split; [done|]. split; [constructor|done].
  - destruct IH as [(a & b & -> & Ha & ->)|[Hl ->]]; [left; exists (c :: a), b; split; [done|]; split; [by constructor|done]|right].
    split; [by constructor|done].
Qed.

Lemma line_in_no_newline a l : no_newline a → line_in (a ++ l) = (length a + line_in l)%nat.
Proof. induction 1 as [|c a Hc _ IH]; [done|]. cbn. apply Z.eqb_neq in Hc. by rewrite Hc, IH. Qed.

Lemma line_in_newline a b : no_newline a → line_in (a ++ 10 :: b) = S (length a).
Proof. intros Ha. rewrite line_in_no_newline by done. cbn. lia. Qed.

Lemma ends_with_newline_snoc a : ends_with_newline (a ++ [10]) = true.
Proof. unfold ends_with_newline. by rewrite last_snoc. Qed.

Lemma ends_with_newline_none l : no_newline l → ends_with_newline l = false.
Proof.
  intros Hl. unfold ends_with_newline. destruct (last l) as [c|] eqn:E; [|done]. apply last_Some in E as [k ->].
  apply Forall_app in Hl as [_ Hc]. rewrite Forall_singleton in Hc. by apply Z.eqb_neq.
Qed.

(** The reader on the text in one piece. *)
Definition flat_line (max : Z) (broken : bool) (l : bytes) : LineResult * bytes :=
  let n := line_in l in
  if max <? Z.of_nat n then (TooLong, l)
  else if ends_with_newline (take n l) then (Line (lossy (take n l)), drop n l)
  else (at_end broken l, []).

Definition pieces (cs : list bytes) : Prop := Forall (λ c, c ≠ []) cs.

Lemma concat_consume n available more : concat (consume n available more) = drop n available ++ concat more.
Proof. unfold consume. by destruct (drop n available). Qed.

Lemma pieces_consume n available more : pieces more → pieces (consume n available more).
Proof. unfold consume. intros H. destruct (drop n available) eqn:E; [done|by constructor]. Qed.

Lemma flat_line_newline max broken a b : no_newline a → Z.of_nat (S (length a)) <= max →
  flat_line max broken (a ++ 10 :: b) = (Line (lossy (a ++ [10])), b).
Proof.
  intros Ha Hm. unfold flat_line. rewrite line_in_newline by done. destruct (Z.ltb_spec max (Z.of_nat (S (length a)))); [lia|].
  replace (a ++ 10 :: b) with ((a ++ [10]) ++ b) by by rewrite <- app_assoc.
  rewrite take_app_length', drop_app_length' by (rewrite length_app; cbn; lia). by rewrite ends_with_newline_snoc.
Qed.

Lemma flat_line_none max broken l : no_newline l → zlen l <= max → flat_line max broken l = (at_end broken l, []).
Proof.
  intros Hl Hm. unfold flat_line. pose proof (line_in_no_newline l [] Hl) as E. rewrite app_nil_r in E. cbn in E.
  rewrite E, Nat.add_0_r, firstn_all. unfold zlen in Hm. destruct (Z.ltb_spec max (Z.of_nat (length l))); [lia|].
  by rewrite ends_with_newline_none.
Qed.

Lemma read_line_flat max broken buf cs : pieces cs → no_newline buf → zlen buf <= max →
  (read_line_loop max broken buf cs).1 = (flat_line max broken (buf ++ concat cs)).1 ∧
  ((read_line_loop max broken buf cs).1 ≠ TooLong →
   concat (read_line_loop max broken buf cs).2 = (flat_line max broken (buf ++ concat cs)).2 ∧
   pieces (read_line_loop max broken buf cs).2).
Proof.
  intros Hcs. revert buf. induction Hcs as [|available more Hne Hmore IH]; intros buf Hbuf Hmax.
  { cbn [read_line_loop concat]. rewrite app_nil_r, flat_line_none by done. repeat split. constructor. }
  cbn [concat]. destruct available as [|c available]; [done|]. cbn [read_line_loop]. set (av := c :: available) in *.
  destruct (line_in_cases av) as [(a & b & Ea & Ha & El)|[Hl El]]; rewrite El.
  - assert (no_newline (buf ++ a)) as Hba by by apply Forall_app.
    rewrite Ea, <- !app_assoc. cbn [app]. rewrite (app_assoc buf a). destruct (Z.ltb_spec max (zlen buf + Z.of_nat (S (length a)))) as [Hlt|Hge].
    + cbn [fst snd]. unfold flat_line. rewrite line_in_newline, length_app by done. unfold zlen in Hlt.
      destruct (Z.ltb_spec max (Z.of_nat (S (length buf + length a)))); [|lia]. by split.
    + rewrite flat_line_newline by (try done; rewrite length_app; unfold zlen in Hge; lia).
      replace (take (S (length a)) (a ++ 10 :: b)) with (a ++ [10])
        by (replace (a ++ 10 :: b) with ((a ++ [10]) ++ b) by (by rewrite <- app_assoc); rewrite take_app_length'; [done|rewrite length_app; cbn; lia]).
      rewrite app_assoc, ends_with_newline_snoc. cbn [fst snd]. split; [done|]. intros _. split; [|by apply pieces_consume].
      rewrite concat_consume. replace (a ++ 10 :: b) with ((a ++ [10]) ++ b) by by rewrite <- app_assoc.
      rewrite drop_app_length'; [done|rewrite length_app; cbn; lia].
  - rewrite firstn_all. assert (no_newline (buf ++ av)) as Hba by by apply Forall_app.
    destruct (Z.ltb_spec max (zlen buf + Z.of_nat (length av))) as [Hlt|Hge].
    + cbn [fst snd]. unfold flat_line. rewrite app_assoc, line_in_no_newline by done. rewrite length_app. unfold zlen in Hlt.
      destruct (Z.ltb_spec max (Z.of_nat (length buf + length av + line_in (concat more)))); [|lia]. by split.
    + rewrite ends_with_newline_none by done. rewrite app_assoc. apply IH; [done|]. unfold zlen in *. rewrite length_app. lia.
Qed.

(** ** The same text in other pieces *)

Record same_text (s t : Stream) : Prop := {
  st_bytes : concat (chunks s) = concat (chunks t);
  st_breaks : breaks s = breaks t;
  st_left : pieces (chunks s);
  st_right : pieces (chunks t);
}.

#[export] Instance same_text_symmetric : Symmetric same_text.
Proof. intros s t []. by constructor. Qed.
#[export] Instance same_text_transitive : Transitive same_text.
Proof. intros s t u [] []. constructor; congruence || done. Qed.

Lemma read_line_same max s t : 0 <= max → same_text s t →
  (read_line_bounded max s).1 = (read_line_bounded max t).1 ∧
  ((read_line_bounded max s).1 ≠ TooLong → same_text (read_line_bounded max s).2 (read_line_bounded max t).2).
Proof.
  intros Hm [Hb Hbr Hl Hr]. unfold read_line_bounded.
  destruct (read_line_flat max (breaks s) [] (chunks s) Hl (Forall_nil_2 _) Hm) as [Hs Hs'].
  destruct (read_line_flat max (breaks t) [] (chunks t) Hr (Forall_nil_2 _) Hm) as [Ht Ht'].
  cbn [app] in *. rewrite Hb, Hbr in Hs, Hs'.
  destruct (read_line_loop max (breaks s) [] (chunks s)) as [r cs] eqn:Es, (read_line_loop max (breaks t) [] (chunks t)) as [r' cs'] eqn:Et.
  rewrite Hbr in Es. rewrite Es in Hs, Hs'. cbn [fst snd] in *. rewrite Hs, Ht in *. split; [done|]. intros Hne.
  destruct (Hs' Hne) as [E Hp], (Ht' Hne) as [E' Hp']. constructor; cbn [chunks breaks]; [by rewrite E, E'|done|done|done].
Qed.

Lemma read_exact_flat n cs : pieces cs →
  match read_exact_loop n cs with
  | Some (b, cs') => (n <= length (concat cs))%nat ∧ b = take n (concat cs) ∧ concat cs' = drop n (concat cs) ∧ pieces cs'
  | None => (length (concat cs) < n)%nat
  end.
Proof.
  intros Hcs. revert n. induction Hcs as [|c more Hne Hmore IH]; intros [|n]; cbn [read_exact_loop concat].
  - repeat split; [done|constructor].
  - cbn. lia.
  - split; [lia|]. split; [done|]. split; [done|by constructor].
  - destruct c as [|x c]; [done|]. set (av := x :: c) in *. rewrite length_app. destruct (Nat.leb_spec (S n) (length av)) as [Hle|Hlt].
    + split; [lia|]. rewrite take_app_le, drop_app_le by done. rewrite concat_consume. split; [done|]. split; [done|by apply pieces_consume].
    + clearbody av. specialize (IH (S n - length av)%nat). destruct (read_exact_loop (S n - length av) more) as [[b cs']|]; cbn [mbind option_bind].
      * destruct IH as (Hl & -> & -> & Hp). split; [lia|]. rewrite take_app_ge, drop_app_ge by lia. by split_and!.
      * lia.
Qed.

Lemma read_exact_same n s t : same_text s t →
  match read_exact n s, read_exact n t with
  | Some (b, s'), Some (b', t') => b = b' ∧ same_text s' t'
  | None, None => True
  | _, _ => False
  end.
Proof.
  intros [Hb Hbr Hl Hr]. unfold read_exact. pose proof (read_exact_flat (Z.to_nat n) _ Hl) as Hs. pose proof (read_exact_flat (Z.to_nat n) _ Hr) as Ht.
  rewrite Hb in Hs. destruct (read_exact_loop (Z.to_nat n) (chunks s)) as [[b cs]|], (read_exact_loop (Z.to_nat n) (chunks t)) as [[b' cs']|];
    cbn; try done; try lia.
  destruct Hs as (_ & -> & E & Hp), Ht as (_ & -> & E' & Hp'). split; [done|]. constructor; cbn [chunks breaks]; [by rewrite E, E'|done|done|done].
Qed.

(** *** Heads *)

Inductive same_headers : Headers → Headers → Prop :=
  | sh_done n s t : same_text s t → same_headers (HeadersDone n s) (HeadersDone n t)
  | sh_large : same_headers HeadersTooLarge HeadersTooLarge
  | sh_failed : same_headers HeadersFailed HeadersFailed.
Inductive same_head : Head → Head → Prop :=
  | hd_closed : same_head Closed Closed
  | hd_refused r : same_head (Refused r) (Refused r)
  | hd_request m p n s t : same_text s t → same_head (Request m p n s) (Request m p n t).

Lemma read_headers_same fuel n b s t : same_text s t → option_Forall2 same_headers (read_headers fuel n b s) (read_headers fuel n b t).
Proof.
  revert n b s t. induction fuel as [|fuel IH]; intros n b s t Hst; [constructor|]. cbn [read_headers].
  destruct (read_line_same MAX_HEADER_LINE_BYTES s t ltac:(done) Hst) as [Hr Hs].
  destruct (read_line_bounded MAX_HEADER_LINE_BYTES s) as [r s'], (read_line_bounded MAX_HEADER_LINE_BYTES t) as [r' t']. cbn [fst snd] in *. subst r'.
  destruct r as [line| | |]; [|by constructor; constructor; apply Hs|by constructor; constructor|by constructor; constructor].
  assert (same_text s' t') as Hst' by by apply Hs. destruct (MAX_HEADER_BYTES <? _); [by constructor; constructor|].
  destruct (_ || _); [by constructor; constructor|]. by apply IH.
Qed.

Lemma read_head_same fuel s t : same_text s t → option_Forall2 same_head (read_head fuel s) (read_head fuel t).
Proof.
  intros Hst. unfold read_head. destruct (read_line_same MAX_REQUEST_LINE_BYTES s t ltac:(done) Hst) as [Hr Hs].
  destruct (read_line_bounded MAX_REQUEST_LINE_BYTES s) as [r s'], (read_line_bounded MAX_REQUEST_LINE_BYTES t) as [r' t']. cbn [fst snd] in *. subst r'.
  destruct r as [line| | |]; [|by constructor; constructor|by constructor; constructor|by constructor; constructor].
  destruct (read_headers_same fuel 0 0 s' t' ltac:(by apply Hs)) as [h h' Hh|]; cbn; [|constructor]. constructor.
  destruct Hh; by constructor.
Qed.

(** *** Bounds *)

(** One character, or one replacement. *)
Ltac take_step n out :=
  exists n, out; split; [cbn [length]; lia|]; split; [cbn; lia|]; cbn [drop]; unfold lossy at 1; fold lossy;
  repeat match goal with H : ?x = _ |- context [if ?x then _ else _] => rewrite H end; done.
Lemma lossy_step l : l ≠ [] → ∃ n out, (0 < n <= length l)%nat ∧ (n <= length out)%nat ∧ lossy l = out ++ lossy (drop n l).
Proof.
  destruct l as [|a l1]; [done|]. intros _. destruct (a <? 128) eqn:E1; [take_step 1%nat [a]|].
  destruct l1 as [|b l2]; [take_step 1%nat replacement|].
  destruct (in_range 194 223 a) eqn:E2; [destruct (continuation b) eqn:E3; [take_step 2%nat [a; b]|take_step 1%nat replacement]|].
  destruct (second_ok a b) eqn:E3; [|take_step 1%nat replacement].
  destruct l2 as [|c l3]; [take_step 2%nat replacement|].
  destruct (negb (continuation c)) eqn:E4; [take_step 2%nat replacement|].
  destruct (a <? 240) eqn:E5; [take_step 3%nat [a; b; c]|].
  destruct l3 as [|d l4]; [take_step 3%nat replacement|].
  destruct (continuation d) eqn:E6; [take_step 4%nat [a; b; c; d]|take_step 3%nat replacement].
Qed.

Lemma lossy_length l : (length l <= length (lossy l))%nat.
Proof.
  remember (length l) as n eqn:Hn. revert l Hn. induction n as [n IH] using lt_wf_ind. intros l ->.
  destruct (decide (l = [])) as [->|Hne]; [done|]. destruct (lossy_step l Hne) as (k & out & Hk & Hout & ->).
  pose proof (length_drop l k) as Hd. pose proof (IH (length (drop k l)) ltac:(lia) (drop k l) eq_refl) as H.
  rewrite length_app. lia.
Qed.

Lemma lossy_ascii l : Forall (λ c, c < 128) l → lossy l = l.
Proof. induction 1 as [|c l Hc _ IH]; [done|]. cbn. apply Z.ltb_lt in Hc. by rewrite Hc, IH. Qed.

(** A line takes bytes off the connection, and no more than it counts. *)
Lemma line_takes max s line : 0 <= max → pieces (chunks s) → (read_line_bounded max s).1 = Line line →
  ∃ used, used ≠ [] ∧ line = lossy used ∧ zlen used <= max ∧
    concat (chunks s) = used ++ concat (chunks (read_line_bounded max s).2) ∧ pieces (chunks (read_line_bounded max s).2).
Proof.
  intros Hm Hs. unfold read_line_bounded. destruct (read_line_flat max (breaks s) [] (chunks s) Hs (Forall_nil_2 _) Hm) as [Hr Hrest].
  destruct (read_line_loop max (breaks s) [] (chunks s)) as [r cs]. cbn [fst snd app chunks] in *. intros ->.
  destruct (Hrest ltac:(done)) as [E Hp]. rewrite E. clear E Hrest. revert Hr. set (l := concat (chunks s)). unfold flat_line.
  destruct (Z.ltb_spec max (Z.of_nat (line_in l))) as [|Hle]; [done|]. destruct (ends_with_newline (take (line_in l) l)) eqn:En; cbn [fst snd].
  - intros [= ->]. exists (take (line_in l) l). split; [intros E0; by rewrite E0 in En|]. split; [done|].
    split; [unfold zlen; rewrite length_take; lia|]. by rewrite take_drop.
  - unfold at_end. destruct (breaks s); [done|]. destruct l as [|c l'] eqn:El; [done|]. intros [= ->]. exists (c :: l').
    split; [done|]. split; [done|]. split; [|by rewrite app_nil_r].
    destruct (line_in_cases (c :: l')) as [(a & b & Ea & Ha & Eq)|[_ Eq]]; [|unfold zlen; by rewrite <- Eq].
    rewrite Eq, Ea in En. replace (a ++ 10 :: b) with ((a ++ [10]) ++ b) in En by by rewrite <- app_assoc.
    rewrite take_app_length' in En by (rewrite length_app; cbn; lia). by rewrite ends_with_newline_snoc in En.
Qed.

Lemma read_headers_takes fuel n b s n' rest : pieces (chunks s) → 0 <= b <= MAX_HEADER_BYTES →
  read_headers fuel n b s = Some (HeadersDone n' rest) →
  ∃ used, concat (chunks s) = used ++ concat (chunks rest) ∧ zlen used <= MAX_HEADER_BYTES - b ∧ pieces (chunks rest).
Proof.
  revert n b s. induction fuel as [|fuel IH]; intros n b s Hs Hb; [done|]. cbn [read_headers].
  pose proof (line_takes MAX_HEADER_LINE_BYTES s) as Ht.
  destruct (read_line_bounded MAX_HEADER_LINE_BYTES s) as [r s'] eqn:Er. cbn [fst snd] in Ht. destruct r as [line| | |]; try done.
  - destruct (Ht line ltac:(done) Hs eq_refl) as (used & Hne & -> & _ & E & Hp). pose proof (lossy_length used) as Hll.
    destruct (Z.ltb_spec MAX_HEADER_BYTES (b + zlen (lossy used))) as [|Hle]; [done|].
    destruct (_ || _).
    + intros [= <- <-]. exists used. split; [done|]. split; [unfold zlen in *; lia|done].
    + intros H. apply IH in H as (more & E' & Hm & Hp'); [|done|unfold zlen in *; lia]. exists (used ++ more).
      split; [by rewrite <- app_assoc, <- E'|]. split; [|done]. unfold zlen in *. rewrite length_app. lia.
  - intros [= <- <-]. unfold read_line_bounded in Er.
    destruct (read_line_flat MAX_HEADER_LINE_BYTES (breaks s) [] (chunks s) Hs (Forall_nil_2 _) ltac:(done)) as [Hr Hrest].
    destruct (read_line_loop _ _ _ _) as [r cs]. injection Er as -> <-. cbn [fst snd app chunks] in *.
    destruct (Hrest ltac:(done)) as [E Hp]. exists []. split; [|split; [unfold zlen; cbn; lia|done]]. rewrite E. cbn [app].
    revert Hr. unfold flat_line. repeat case_match; cbn; try done. unfold at_end. by destruct (breaks s), (concat (chunks s)).
Qed.

Lemma read_headers_total fuel n b s : pieces (chunks s) → (length (concat (chunks s)) < fuel)%nat → is_Some (read_headers fuel n b s).
Proof.
  revert n b s. induction fuel as [|fuel IH]; intros n b s Hs Hf; [lia|]. cbn [read_headers].
  pose proof (line_takes MAX_HEADER_LINE_BYTES s) as Ht. destruct (read_line_bounded MAX_HEADER_LINE_BYTES s) as [r s']. cbn [fst snd] in Ht.
  destruct r as [line| | |]; [|done|done|done]. destruct (Ht line ltac:(done) Hs eq_refl) as (used & Hne & -> & _ & E & Hp).
  repeat (case_match; [done|]). apply IH; [done|]. rewrite E, length_app in Hf. destruct used; [done|]. cbn in Hf. lia.
Qed.

(** *** What is left after a head *)

Lemma parse_u64_nonneg cs n : parse_u64 cs = Some n → 0 <= n.
Proof.
  unfold parse_u64. destruct cs as [|c cs]; [done|]. generalize (c :: cs) as l. clear c cs.
  assert (∀ l acc, (∀ a, acc = Some a → 0 <= a) → ∀ n, foldl u64_digit acc l = Some n → 0 <= n) as H.
  { induction l as [|c l IH]; intros acc Ha m; [apply Ha|]. cbn [foldl]. apply IH. intros a. unfold u64_digit.
    destruct acc as [b|]; cbn; [|done]. destruct (is_ascii_digit c) eqn:E; [|done]. apply in_range_iff in E.
    case_match; [|done]. intros [= <-]. specialize (Ha b eq_refl). lia. }
  intros l. apply H. by intros a [= <-].
Qed.

Lemma header_length_nonneg line n : 0 <= n → 0 <= header_length line n.
Proof.
  intros Hn. unfold header_length. destruct (strip_prefix _ _); [|done]. unfold parse_usize.
  destruct (trim _) as [|c cs]; [done|]. destruct (c =? 43).
  - destruct (parse_u64 cs) eqn:E; [by apply parse_u64_nonneg in E|done].
  - destruct (parse_u64 (c :: cs)) eqn:E; [by apply parse_u64_nonneg in E|done].
Qed.

Lemma read_headers_length fuel n b s n' rest : 0 <= n → read_headers fuel n b s = Some (HeadersDone n' rest) → 0 <= n'.
Proof.
  revert n b s. induction fuel as [|fuel IH]; intros n b s Hn; [done|]. cbn [read_headers].
  destruct (read_line_bounded MAX_HEADER_LINE_BYTES s) as [[line| | |] s']; try done; [|by intros [= <- <-]].
  case_match; [done|]. case_match; [by intros [= <- <-]|]. apply IH. by apply header_length_nonneg.
Qed.

(** What a request's head leaves is the end of what the connection sends. *)
Lemma read_head_rest s method path n rest : pieces (chunks s) →
  read_head (stream_fuel s) s = Some (Request method path n rest) →
  ∃ used, concat (chunks s) = used ++ concat (chunks rest) ∧ zlen used <= MAX_REQUEST_LINE_BYTES + MAX_HEADER_BYTES ∧
    pieces (chunks rest) ∧ 0 <= n.
Proof.
  intros Hs. unfold read_head. pose proof (line_takes MAX_REQUEST_LINE_BYTES s) as Ht.
  destruct (read_line_bounded MAX_REQUEST_LINE_BYTES s) as [[line| | |] s']; try done. cbn [fst snd] in Ht.
  destruct (Ht line ltac:(done) Hs eq_refl) as (used & _ & -> & Hu & E & Hp).
  destruct (read_headers (stream_fuel s) 0 0 s') as [[n' rest'| |]|] eqn:Eh; cbn; try done. intros [= <- <- <- <-].
  destruct (read_headers_takes _ _ _ _ _ _ Hp ltac:(done) Eh) as (more & E' & Hm & Hp'). exists (used ++ more).
  split; [by rewrite E, E', app_assoc|]. split; [rewrite zlen_app; lia|]. split; [done|]. by apply (read_headers_length _ _ _ _ _ _ ltac:(done) Eh).
Qed.

Lemma read_head_total s : pieces (chunks s) → is_Some (read_head (stream_fuel s) s).
Proof.
  intros Hs. unfold read_head. pose proof (line_takes MAX_REQUEST_LINE_BYTES s) as Ht.
  destruct (read_line_bounded MAX_REQUEST_LINE_BYTES s) as [[line| | |] s']; try done. cbn [fst snd] in Ht.
  destruct (Ht line ltac:(done) Hs eq_refl) as (used & _ & -> & _ & E & Hp).
  destruct (read_headers_total (stream_fuel s) 0 0 s' Hp) as [x ->]; [|done]. unfold stream_fuel. rewrite E, length_app. lia.
Qed.
