(* ===== verification/GatewayHttp.v ===== *)
(** * The gateway's HTTP service and its client  (crates/flowsketch-gateway/src/http.rs and client.rs)

    Connections are served side by side, each by its own thread: a server is the
    window store, the two counters the threads share, and the phase every
    connection is in.  A turn of a connection runs to its next access to what is
    shared; any interleaving of arrivals and turns is a run.  What serde_json
    and [Display] print are parameters.

    The agent's client is here too: the request it writes, the status it reads
    back and its retries. *)
From S2P Require Import Prelude Bytes Utf8 Maps Hash Sketch Snapshot F64 Event Ir Planner QueryState Emit Window.
From S2P Require Import Guarantees Restore Sliding Batch Gateway GatewaySpec Cluster Exposition GatewayPage Http.

#[local] Abbreviation txt := bytes_of_string.

(** ** The service *)

Definition MAX_BODY_BYTES : Z := 64 * 1024 * 1024.
Definition MAX_INFLIGHT_BODY_BYTES : Z := 128 * 1024 * 1024.

(** The compare-and-exchange loops come to one atomic transition. *)
Definition try_acquire_connection (active : Z) : option Z :=
  if MAX_CONCURRENT_CONNECTIONS <=? active then None else Some (active + 1).
Definition try_reserve_body_bytes (active bytes limit : Z) : option Z :=
  if u64_mod <=? active + bytes then None else if limit <? active + bytes then None else Some (active + bytes).

Section service.
Context (exp log2 : f64 → f64) (fuel : nat) (fp : Footprint).
(** What is printed: a fraction, an error, the JSON documents. *)
Context (show : f64 → bytes) (show_error : SketchError → bytes) (push_json : ApplyResult → bytes)
  (queries_json : list Plan → bytes) (nodes_text : list (string * list NodeView) → bytes).

Record Clocks := mkClocks { clock : string → string → Z; age : string → string → Z; now : Z; uptime : Z }.

Definition json (status : Z) (b : bytes) : Response := mkResponse status "application/json" b.

Definition receive_snapshots (k : Clocks) (body : bytes) (g : GatewayState) : res (Response * GatewayState) :=
  match decode body with
  | Ok batch =>
      '(result, g) ← apply_batch fuel fp (clock k) (now k) g batch;
      let status := if (accepted result =? 0) && negb (bool_decide (rejected result = [])) then 400 else 200 in
      Ok (json status (push_json result), g)
  | Err e => Ok (mkResponse 400 "text/plain" (txt "invalid push batch: " ++ show_error e ++ [10]), g)
  | Panic => Panic
  end.

Definition route_get (k : Clocks) (method path : list Z) (g : GatewayState) : res (Response * GatewayState) :=
  if negb (bool_decide (method = txt "GET")) then Ok (text 405 "method not allowed", g)
  else if bool_decide (path = txt "/healthz") then Ok (text 200 "ok", g)
  else if bool_decide (path = txt "/readyz") then Ok (text 200 "ready", g)
  else if bool_decide (path = txt "/metrics") then
    '(page, g) ← render_metrics exp log2 fuel fp show (uptime k) (clock k) g;
    Ok (mkResponse 200 "text/plain; version=0.0.4" page, g)
  else if bool_decide (path = txt "/v1/queries") then Ok (json 200 (queries_json (plans g)), g)
  else if bool_decide (path = txt "/v1/nodes") then
    '(view, g) ← nodes_json fuel fp (clock k) (age k) g; Ok (json 200 (nodes_text view), g)
  else Ok (text 404 "not found", g).

(** *** The threads *)

Inductive Phase :=
  | Reading (s : Stream)
  | Holding (bytes : Z) (rest : Stream)
  | Answering (r : option Response).

Record Server := mkServer {
  store : GatewayState;
  active_connections : Z;
  inflight_body_bytes : Z;
  workers : gmap nat Phase;
  arrivals : nat;
  sent : list (nat * bytes);
}.
Definition server_new (g : GatewayState) : Server := mkServer g 0 0 ∅ 0 [].

Definition set_phase (i : nat) (p : Phase) (v : Server) : Server :=
  mkServer (store v) (active_connections v) (inflight_body_bytes v) (<[i := p]> (workers v)) (arrivals v) (sent v).
Definition set_store (g : GatewayState) (v : Server) : Server :=
  mkServer g (active_connections v) (inflight_body_bytes v) (workers v) (arrivals v) (sent v).
Definition set_inflight (n : Z) (v : Server) : Server :=
  mkServer (store v) (active_connections v) n (workers v) (arrivals v) (sent v).
Definition budget_rejected (g : GatewayState) : GatewayState :=
  let c := counters g in
  with_counters g (mkCounters (pushes_total c) (snapshots_accepted c) (snapshots_rejected c) (node_admission_rejections c)
    (sketch_budget_rejections c) (body_budget_rejections c +ʷ 1) (merge_cache_shard_rebuilds c)).

(** A connection is accepted, and numbered: a thread of its own, or 503 at once. *)
Definition accept (s : Stream) (v : Server) : Server :=
  let i := arrivals v in
  match try_acquire_connection (active_connections v) with
  | None => mkServer (store v) (active_connections v) (inflight_body_bytes v) (workers v) (S i)
              (sent v ++ [(i, respond (text 503 "server busy"))])
  | Some active => mkServer (store v) active (inflight_body_bytes v) (<[i := Reading s]> (workers v)) (S i) (sent v)
  end.

(** [handle_connection] up to the body, or up to the answer. *)
Definition start_request (k : Clocks) (i : nat) (method path : list Z) (content_length : Z) (rest : Stream) (v : Server) : res Server :=
  let answer r := Ok (set_phase i (Answering (Some r)) v) in
  if bool_decide (method = txt "POST") && bool_decide (path = txt "/v1/snapshots") then
    if content_length =? 0 then answer (text 400 "empty body")
    else if MAX_BODY_BYTES <? content_length then answer (text 413 "body too large")
    else match try_reserve_body_bytes (inflight_body_bytes v) content_length MAX_INFLIGHT_BODY_BYTES with
    | Some reserved => Ok (set_phase i (Holding content_length rest) (set_inflight reserved v))
    | None => Ok (set_phase i (Answering (Some (text 503 "in-flight snapshot body budget exhausted")))
                    (set_store (budget_rejected (store v)) v))
    end
  else '(r, g) ← route_get k method path (store v); Ok (set_phase i (Answering (Some r)) (set_store g v)).

(** The body, then the reservation's end. *)
Definition finish_body (k : Clocks) (i : nat) (n : Z) (rest : Stream) (v : Server) : res Server :=
  '(r, g) ← match read_exact n rest with
    | Some (body, _) => receive_snapshots k body (store v)
    | None => Ok (text 400 "truncated body", store v)
    end;
  Ok (set_phase i (Answering (Some r)) (set_inflight (wsub64 (inflight_body_bytes v) n) (set_store g v))).

(** The answer, then the connection's guard. *)
Definition finish (i : nat) (r : option Response) (v : Server) : Server :=
  mkServer (store v) (wsub64 (active_connections v) 1) (inflight_body_bytes v) (delete i (workers v)) (arrivals v)
    (sent v ++ match r with Some r => [(i, respond r)] | None => [] end).

Definition turn (k : Clocks) (i : nat) (v : Server) : res Server :=
  match workers v !! i with
  | None => Ok v
  | Some (Reading s) =>
      match read_head (stream_fuel s) s with
      | None | Some Closed => Ok (set_phase i (Answering None) v)
      | Some (Refused r) => Ok (set_phase i (Answering (Some r)) v)
      | Some (Request method path content_length rest) => start_request k i method path content_length rest v
      end
  | Some (Holding n rest) => finish_body k i n rest v
  | Some (Answering r) => Ok (finish i r v)
  end.

Inductive Event :=
  | Arrives (s : Stream)
  | Turn (k : Clocks) (i : nat).
Definition step (v : Server) (e : Event) : res Server :=
  match e with
  | Arrives s => Ok (accept s v)
  | Turn k i => turn k i v
  end.
Definition run (v : Server) (es : list Event) : res Server := foldM step v es.
End service.

(** ** The client  (client.rs) *)

Definition MAX_ENDPOINT_LEN : Z := 2048.
Definition MAX_PUSH_BODY_BYTES : Z := 64 * 1024 * 1024.
Definition MAX_HTTP_RESPONSE_BYTES : nat := Z.to_nat (16 * 1024).

Inductive PushClientError :=
  | BadEndpoint
  | NoAnswer
  | Status (status : Z)
  | BodyTooLarge (bytes max : Z)
  | RetriesExhausted (attempts : nat).

(** [PushConfig::snapshots_url] *)
Fixpoint trim_start_matches (c : Z) (l : bytes) : bytes :=
  match l with x :: rest => if x =? c then trim_start_matches c rest else l | [] => [] end.
Definition trim_end_matches (c : Z) (l : bytes) : bytes := reverse (trim_start_matches c (reverse l)).
Definition ends_with (suffix l : bytes) : bool := bool_decide (strip_prefix (reverse suffix) (reverse l) ≠ None).
Definition snapshots_url (endpoint : bytes) : bytes :=
  let base := trim_end_matches 47 endpoint in
  if ends_with (txt "/v1/snapshots") base then base else base ++ txt "/v1/snapshots".

Fixpoint split_at_slash (l : bytes) : bytes * bytes :=
  match l with
  | [] => ([], txt "/")
  | c :: rest => if c =? 47 then ([], l) else let '(a, p) := split_at_slash rest in (c :: a, p)
  end.
Definition invisible (b : Z) : bool := (b <=? 32) || (b =? 127).
Definition parse_url (url : bytes) : outcome PushClientError (bytes * bytes) :=
  if MAX_ENDPOINT_LEN <? zlen url then Err BadEndpoint
  else match strip_prefix (txt "http://") url with
  | None => Err BadEndpoint
  | Some rest =>
      let '(authority, path) := split_at_slash rest in
      if bool_decide (authority = []) || existsb invisible authority || existsb invisible path then Err BadEndpoint
      else Ok (authority, path)
  end.

(** The OTLP client of flowsketch-otel posts the same way another kind of content. *)
Definition post_content (kind authority path body : bytes) : bytes :=
  txt "POST " ++ path ++ txt " HTTP/1.1" ++ crlf ++ txt "Host: " ++ authority ++ crlf ++
  (txt "Content-Type: " ++ kind) ++ crlf ++ txt "Content-Length: " ++ to_string (zlen body) ++ crlf ++
  txt "Connection: close" ++ crlf ++ crlf ++ body.

Definition octet_stream : bytes := txt "application/octet-stream".
Definition post_request (authority path body : bytes) : bytes := post_content octet_stream authority path body.

(** [response.split(|&b| b == b'\n').next()] *)
Fixpoint first_piece (l : bytes) : bytes :=
  match l with c :: rest => if c =? 10 then [] else c :: first_piece rest | [] => [] end.
(** The status of the first line of what is read back. *)
Definition read_status (response : bytes) : option Z :=
  let response := take MAX_HTTP_RESPONSE_BYTES response in
  chars ← utf8_chars (first_piece response);
  word ← split_whitespace chars !! 1%nat;
  status ← parse_usize word;
  _ ← guard (status < 65536); Some status.

(** One attempt; [answer] is what the connection reads back, if it gets that far. *)
Definition post_once (kind : bytes) (answer : bytes → option bytes) (url body : bytes) : outcome PushClientError Z :=
  '(authority, path) ← parse_url url;
  match answer (post_content kind authority path body) with
  | Some response => match read_status response with Some status => Ok status | None => Err NoAnswer end
  | None => Err NoAnswer
  end.

(** The attempts, with the pauses made between them, in milliseconds. *)
Fixpoint push_attempts (kind : bytes) (left_ : nat) (attempt : nat) (backoff : Z) (answer : nat → bytes → option bytes) (url body : bytes)
    : outcome PushClientError unit * list Z :=
  match left_ with
  | O => (Err (RetriesExhausted 3), [])
  | S left_ =>
      let '(pause, backoff) := if (0 <? attempt)%nat then ([backoff], backoff * 4) else ([], backoff) in
      let '(r, pauses) :=
        match post_once kind (answer attempt) url body with
        | Ok status =>
            if (200 <=? status) && (status <? 300) then (Ok tt, [])
            else if (status =? 429) || (status =? 502) || (status =? 503) || (status =? 504)
            then push_attempts kind left_ (S attempt) backoff answer url body
            else (Err (Status status), [])
        | Err BadEndpoint => (Err BadEndpoint, [])
        | _ => push_attempts kind left_ (S attempt) backoff answer url body
        end in
      (r, pause ++ pauses)
  end.
Definition push_batch (answer : nat → bytes → option bytes) (url body : bytes) : outcome PushClientError unit * list Z :=
  if MAX_PUSH_BODY_BYTES <? zlen body then (Err (BodyTooLarge (zlen body) MAX_PUSH_BODY_BYTES), [])
  else push_attempts octet_stream 3 0 200 answer url body.

(** ** The service keeps its bounds *)

(** The snapshots of a batch are bytes of the body it was decoded from. *)
Lemma decode_snapshots x b : bytes_ok x → decode x = Ok b → Forall (λ e, bytes_ok (snapshot e)) (entries b).
Proof.
  intros Hx Hd. destruct (decode_inv x b Hx Hd) as [Hb <-]. rewrite encode_eq in Hx by done.
  unfold seal, enc_body, bytes_ok in *. rewrite !Forall_app in Hx. destruct Hx as ((_ & _ & _ & _ & Hx) & _).
  clear Hb Hd. induction (entries b) as [|e es IH]; [constructor|]. rewrite encode_all_cons in Hx.
  apply Forall_app in Hx as [He Hes]. constructor; [|by apply IH]. unfold enc_entry, lp in He. rewrite !Forall_app in He. apply He.
Qed.

Section bounds.
Context (fuel : nat) (fp : Footprint) (exp log2 : f64 → f64) (ps : list Plan) (h : HashSpec).
Context (show : f64 → bytes) (show_error : SketchError → bytes) (push_json : ApplyResult → bytes)
  (queries_json : list Plan → bytes) (nodes_text : list (string * list NodeView) → bytes).
Context (Hdep : deployable fuel fp ps).

(** Any bytes, in any pieces; of the batches in them it is assumed that no two
    sketch parameters share their hash (see Restore.no_collision). *)
Definition stream_ok (s : Stream) : Prop :=
  pieces (chunks s) ∧ bytes_ok (concat (chunks s)) ∧
  ∀ pre b post batch q p, concat (chunks s) = pre ++ b ++ post → decode b = Ok batch → find_plan ps q = Some p →
    no_collision fuel p h (components_of q (entries batch)).

Definition reserved (p : Phase) : Z := match p with Holding n _ => n | _ => 0 end.
Definition phase_ok (p : Phase) : Prop :=
  match p with
  | Reading s => stream_ok s
  | Holding n rest => 0 < n <= MAX_BODY_BYTES ∧ stream_ok rest
  | Answering _ => True
  end.

Record server_ok (v : Server) : Prop := {
  so_store : inv fuel fp ps h (store v);
  so_active : active_connections v = Z.of_nat (size (workers v)) ∧ active_connections v <= MAX_CONCURRENT_CONNECTIONS;
  so_inflight : inflight_body_bytes v = msum (λ _ p, reserved p) (workers v) ∧ inflight_body_bytes v <= MAX_INFLIGHT_BODY_BYTES;
  so_workers : ∀ i p, workers v !! i = Some p → (i < arrivals v)%nat ∧ phase_ok p;
}.

Lemma stream_ok_rest s used rest : stream_ok s → concat (chunks s) = used ++ concat (chunks rest) → pieces (chunks rest) → stream_ok rest.
Proof using.
  intros (Hp & Hb & Ht) E Hp'. split; [done|]. rewrite E in Hb. apply Forall_app in Hb as [_ Hb]. split; [done|].
  intros pre b post batch q p Er. apply (Ht (used ++ pre) b post). by rewrite E, Er, app_assoc.
Qed.

Lemma receive_ok k body g : inv fuel fp ps h g → bytes_ok body → (∀ batch q p, decode body = Ok batch → find_plan ps q = Some p → no_collision fuel p h (components_of q (entries batch))) →
  ∃ r g', receive_snapshots fuel fp show_error push_json k body g = Ok (r, g') ∧ inv fuel fp ps h g'.
Proof using Hdep exp log2.
  intros Hg Hb Ht. unfold receive_snapshots. pose proof (decode_no_panic body Hb) as Hnp.
  destruct (decode body) as [batch|e|] eqn:E; [|by eauto|done].
  assert (batch_ok batch) as Hbatch by by apply (decode_inv body batch Hb E).
  destruct (serve_inv fuel fp exp log2 ps h Hdep g (Push (clock k) (now k) batch) Hg) as (g' & Hs & Hg').
  { split; [|apply Hbatch]. split; [by apply (decode_snapshots body)|]. intros q p. by apply Ht. }
  cbn [serve] in Hs. destruct (apply_batch fuel fp (clock k) (now k) g batch) as [[result g1]| |]; cbn in Hs |- *; try done.
  apply ok_inj in Hs as ->. by eauto.
Qed.

Lemma route_ok k method path g : inv fuel fp ps h g →
  ∃ r g', route_get exp log2 fuel fp show queries_json nodes_text k method path g = Ok (r, g') ∧ inv fuel fp ps h g'.
Proof using Hdep.
  intros Hg. unfold route_get. destruct (negb _); [by eauto|]. destruct (bool_decide _); [by eauto|].
  destruct (bool_decide _); [by eauto|]. destruct (bool_decide _).
  { destruct (merged_spec fuel fp exp log2 ps h Hdep (clock k) g Hg) as (ms & g' & d & Hm & Hg' & _).
    unfold render_metrics. rewrite Hm. cbn. by eauto. }
  destruct (bool_decide _); [by eauto|]. destruct (bool_decide _); [|by eauto].
  destruct (serve_inv fuel fp exp log2 ps h Hdep g (NodeList (clock k) (age k)) Hg I) as (g' & Hs & Hg'). cbn [serve] in Hs.
  destruct (nodes_json fuel fp (clock k) (age k) g) as [[view g1]| |]; cbn in Hs |- *; try done. apply ok_inj in Hs as ->. by eauto.
Qed.

Lemma budget_rejected_inv g : inv fuel fp ps h g → inv fuel fp ps h (budget_rejected g).
Proof using. intros []. by constructor. Qed.

(** A connection moves to another phase; what it reserves changes with it. *)
Lemma set_phase_ok i p p' g n v : server_ok v → workers v !! i = Some p → inv fuel fp ps h g → phase_ok p' →
  n = inflight_body_bytes v - reserved p + reserved p' → n <= MAX_INFLIGHT_BODY_BYTES →
  server_ok (set_phase i p' (set_inflight n (set_store g v))).
Proof using.
  intros [Hs [Ha Ha'] [Hi Hi'] Hw] Hp Hg Hp' -> Hn. constructor; cbn [set_phase set_inflight set_store store active_connections inflight_body_bytes workers arrivals].
  - done.
  - rewrite map_size_insert_Some by by eexists. done.
  - split; [|done]. rewrite (msum_insert _ _ i p p') by done. lia.
  - intros j q [[<- <-]|[_ Hj]]%lookup_insert_Some; [by split; [apply (Hw i p)|]|by apply Hw].
Qed.

Lemma inflight_room v i p : server_ok v → workers v !! i = Some p → 0 <= reserved p <= inflight_body_bytes v.
Proof using.
  intros [_ _ [-> _] Hw] Hp. assert (∀ j q, workers v !! j = Some q → 0 <= reserved q) as Hr.
  { intros j q Hq. destruct (Hw j q Hq) as [_ Hq']. destruct q; cbn in *; lia. }
  split; [by apply (Hr i)|]. by apply (msum_elem_le (λ _ p, reserved p) (workers v) i p).
Qed.

Lemma accept_ok s v : server_ok v → stream_ok s → server_ok (accept s v).
Proof using.
  intros [Hs [Ha Ha'] [Hi Hi'] Hw] Hst. assert (workers v !! arrivals v = None) as Hnew.
  { destruct (workers v !! arrivals v) as [p|] eqn:E; [|done]. destruct (Hw _ _ E). lia. }
  unfold accept, try_acquire_connection. destruct (Z.leb_spec MAX_CONCURRENT_CONNECTIONS (active_connections v)).
  - constructor; cbn; try done. intros i p Hp. destruct (Hw i p Hp). split; [lia|done].
  - constructor; cbn [store active_connections inflight_body_bytes workers arrivals]; [done| | |].
    + rewrite map_size_insert_None by done. lia.
    + rewrite msum_insert_new by done. cbn. split; [lia|done].
    + intros i p [[<- <-]|[_ Hp]]%lookup_insert_Some; [by split; [lia|]|]. destruct (Hw i p Hp). split; [lia|done].
Qed.

Lemma set_phase_store v i p : set_phase i p v = set_phase i p (set_inflight (inflight_body_bytes v) (set_store (store v) v)).
Proof using. by destruct v. Qed.

Lemma turn_ok k i v : server_ok v →
  ∃ v', turn exp log2 fuel fp show show_error push_json queries_json nodes_text k i v = Ok v' ∧ server_ok v'.
Proof using Hdep.
  intros Hv. unfold turn. destruct (workers v !! i) as [[s|n rest|r]|] eqn:Hi; [| | |by eauto].
  - destruct (so_workers _ Hv i _ Hi) as [_ Hst]. cbn in Hst.
    assert (∀ r, server_ok (set_phase i (Answering r) v)) as Hans.
    { intros r. rewrite set_phase_store. apply (set_phase_ok i (Reading s)); [done|done|apply Hv|done|cbn; lia|apply Hv]. }
    destruct (read_head (stream_fuel s) s) as [[|r|method path len rest]|] eqn:Eh; [by eauto|by eauto| |by eauto].
    destruct (read_head_rest s method path len rest (proj1 Hst) Eh) as (used & E & _ & Hp & Hlen).
    assert (stream_ok rest) as Hrest by by apply (stream_ok_rest s used).
    unfold start_request. destruct (_ && _).
    + destruct (Z.eqb_spec len 0); [by eauto|]. destruct (Z.ltb_spec MAX_BODY_BYTES len); [by eauto|].
      unfold try_reserve_body_bytes. destruct (Z.leb_spec u64_mod (inflight_body_bytes v + len)); [|destruct (Z.ltb_spec MAX_INFLIGHT_BODY_BYTES (inflight_body_bytes v + len))].
      * eexists. split; [done|]. replace (set_store _ v) with (set_inflight (inflight_body_bytes v) (set_store (budget_rejected (store v)) v)) by by destruct v.
        apply (set_phase_ok i (Reading s)); [done|done|apply budget_rejected_inv, Hv|done|cbn; lia|apply Hv].
      * eexists. split; [done|]. replace (set_store _ v) with (set_inflight (inflight_body_bytes v) (set_store (budget_rejected (store v)) v)) by by destruct v.
        apply (set_phase_ok i (Reading s)); [done|done|apply budget_rejected_inv, Hv|done|cbn; lia|apply Hv].
      * eexists. split; [done|]. replace (set_inflight _ v) with (set_inflight (inflight_body_bytes v + len) (set_store (store v) v)) by by destruct v.
        apply (set_phase_ok i (Reading s)); [done|done|apply Hv|cbn; split; [lia|done]|cbn; lia|done].
    + destruct (route_ok k method path (store v) (so_store _ Hv)) as (r & g' & -> & Hg'). cbn. eexists. split; [done|].
      replace (set_store g' v) with (set_inflight (inflight_body_bytes v) (set_store g' v)) by by destruct v.
      apply (set_phase_ok i (Reading s)); [done|done|done|done|cbn; lia|apply Hv].
  - destruct (so_workers _ Hv i _ Hi) as [_ [Hn Hst]]. unfold finish_body.
    assert (∃ r g', match read_exact n rest with
      | Some (body, _) => receive_snapshots fuel fp show_error push_json k body (store v)
      | None => Ok (text 400 "truncated body", store v) end = Ok (r, g') ∧ inv fuel fp ps h g') as (r & g' & -> & Hg').
    { unfold read_exact. pose proof (read_exact_flat (Z.to_nat n) (chunks rest) (proj1 Hst)) as Hx.
      destruct (read_exact_loop (Z.to_nat n) (chunks rest)) as [[body cs]|]; cbn; [|exists (text 400 "truncated body"), (store v); split; [done|apply Hv]].
      destruct Hx as (_ & -> & _). destruct Hst as (_ & Hb & Ht). apply receive_ok; [apply Hv|by apply Forall_take|].
      intros batch q p Hd. apply (Ht [] (take (Z.to_nat n) (concat (chunks rest))) (drop (Z.to_nat n) (concat (chunks rest))) batch q p); [|done].
      by rewrite app_nil_l, take_drop. }
    cbn [mbind outcome_bind]. eexists. split; [done|]. pose proof (inflight_room v i _ Hv Hi) as Hroom. cbn [reserved] in Hroom.
    pose proof (proj2 (so_inflight _ Hv)) as Hmax.
    assert (wsub64 (inflight_body_bytes v) n = inflight_body_bytes v - n) as -> by (unfold wsub64, wrap64; apply Z.mod_small; unfold MAX_INFLIGHT_BODY_BYTES in *; lia).
    apply (set_phase_ok i (Holding n rest)); [done|done|done|done|cbn; lia|lia].
  - eexists. split; [done|]. destruct Hv as [Hs [Ha Ha'] [Hi' Hi''] Hw]. unfold finish.
    assert (size (workers v) = S (size (delete i (workers v)))) as Hsz.
    { rewrite <- (insert_delete_id (workers v) i _ Hi) at 1. by rewrite map_size_insert_None by apply lookup_delete_eq. }
    constructor; cbn [store active_connections inflight_body_bytes workers arrivals].
    + done.
    + assert (wsub64 (active_connections v) 1 = active_connections v - 1) as -> by (unfold wsub64, wrap64; apply Z.mod_small; unfold MAX_CONCURRENT_CONNECTIONS in *; lia). lia.
    + split; [|done]. rewrite Hi', (msum_delete _ (workers v) i _ Hi). cbn. lia.
    + intros j p [_ Hj]%lookup_delete_Some. by apply Hw.
Qed.

Definition event_ok (e : Event) : Prop := match e with Arrives s => stream_ok s | Turn _ _ => True end.

Abbreviation run_server := (run exp log2 fuel fp show show_error push_json queries_json nodes_text).
Abbreviation turn_server := (turn exp log2 fuel fp show show_error push_json queries_json nodes_text).

Lemma run_server_ok es v : server_ok v → Forall event_ok es → ∃ v', run_server v es = Ok v' ∧ server_ok v'.
Proof using Hdep.
  intros Hv Hes. revert v Hv. induction Hes as [|e es He _ IH]; intros v Hv; [by exists v|]. unfold run. cbn [foldM].
  destruct e as [s|k i]; cbn [step].
  - apply IH. by apply accept_ok.
  - destruct (turn_ok k i v Hv) as (v1 & -> & Hv1). cbn. by apply IH.
Qed.

Lemma server_new_ok g : inv fuel fp ps h g → server_ok (server_new g).
Proof using. intros Hg. by constructor. Qed.

(** How many turns a connection still needs. *)
Definition turns_left (p : option Phase) : nat :=
  match p with None => 0 | Some (Answering _) => 1 | Some (Holding _ _) => 2 | Some (Reading _) => 3 end.

Lemma turn_progress k i v v' : turn_server k i v = Ok v' → (turns_left (workers v' !! i) <= turns_left (workers v !! i) - 1)%nat.
Proof using.
  unfold turn. destruct (workers v !! i) as [[s|n rest|r]|] eqn:Hi.
  - assert (∀ p u, (turns_left (Some p) <= 2)%nat → (turns_left (workers (set_phase i p u) !! i) <= 3 - 1)%nat) as Hset
      by (intros p u Hp; cbn; by rewrite lookup_insert_eq).
    destruct (read_head (stream_fuel s) s) as [[|r|method path len rest]|]; try (intros [= <-]; apply Hset; cbn; lia).
    unfold start_request. destruct (_ && _).
    + destruct (len =? 0); [intros [= <-]; apply Hset; cbn; lia|]. destruct (MAX_BODY_BYTES <? len); [intros [= <-]; apply Hset; cbn; lia|].
      destruct (try_reserve_body_bytes _ _ _); intros [= <-]; apply Hset; cbn; lia.
    + destruct (route_get _ _ _ _ _ _ _ _ _ _ _) as [[r g]| |]; cbn; try done. intros [= <-]. apply Hset. cbn. lia.
  - unfold finish_body. destruct (match read_exact n rest with Some _ => _ | None => _ end) as [[r g]| |]; cbn; try done.
    intros [= <-]. cbn. by rewrite lookup_insert_eq.
  - intros [= <-]. cbn. by rewrite lookup_delete_eq.
  - intros [= <-]. by rewrite Hi.
Qed.

Lemma three_turns i k1 k2 k3 v : server_ok v →
  ∃ v', run_server v [Turn k1 i; Turn k2 i; Turn k3 i] = Ok v' ∧ workers v' !! i = None.
Proof using Hdep.
  intros Hv. destruct (turn_ok k1 i v Hv) as (v1 & E1 & Hv1). destruct (turn_ok k2 i v1 Hv1) as (v2 & E2 & Hv2).
  destruct (turn_ok k3 i v2 Hv2) as (v3 & E3 & _). exists v3. unfold run. cbn [foldM step]. rewrite E1. cbn. rewrite E2. cbn. rewrite E3.
  split; [done|]. apply turn_progress in E1, E2, E3.
  assert (turns_left (workers v !! i) <= 3)%nat by (destruct (workers v !! i) as [[]|]; cbn; lia).
  destruct (workers v3 !! i) as [[]|]; cbn in *; (done || lia).
Qed.
End bounds.

(** ** Claims *)


Definition sample_clocks : Clocks := mkClocks at_zero at_zero 0 0.
Definition sample_get : Stream := mkStream [txt "GET /hea"; txt "lthz HTTP/1.1" ++ crlf ++ crlf] false.
Definition sample_events : list Event :=
  [Arrives sample_get; Turn sample_clocks 0; Arrives (mkStream [txt "POST "] true); Turn sample_clocks 1].

Lemma sample_stream_ok s : pieces (chunks s) → bytes_ok (concat (chunks s)) → stream_ok 0 [sample_plan] HashSpec_default s.
Proof.
  intros Hp Hb. split; [done|]. split; [done|]. intros pre b post batch q p _ _ Hq b' m t _ Hm.
  apply find_plan_spec in Hq as [->%list_elem_of_singleton _]. rewrite sample_build in Hm. vm_compute in Hm. discriminate Hm.
Qed.

