(* ===== verification/PushDelivery.v ===== *)
(** * A push, from the agent's client to the window store  (crates/flowsketch-gateway/src/client.rs and http.rs)

    The request the client writes, cut into pieces anywhere by the network, is
    the batch the gateway applies, and the client reads back what the gateway
    decided. *)
From S2P Require Import Prelude Bytes Utf8 Maps Hash Sketch Snapshot F64 Event Ir Yaml Planner QueryState Emit Window.
From S2P Require Import Guarantees Restore Sliding Shipping Batch Gateway GatewaySpec Cluster Exposition GatewayPage Http GatewayHttp.

#[local] Abbreviation txt := bytes_of_string.

(** ** Reading a head *)

Definition ascii_line (a : bytes) : Prop := Forall (λ c, 0 <= c < 128 ∧ c ≠ 10) a.

(** What is left of a connection is this text. *)
Definition holds (s : Stream) (l : bytes) : Prop := pieces (chunks s) ∧ concat (chunks s) = l.

Lemma next_line max s a b : holds s (a ++ 10 :: b) → ascii_line a → Z.of_nat (S (length a)) <= max →
  ∃ s', read_line_bounded max s = (Line (a ++ [10]), s') ∧ holds s' b.
Proof.
  intros [Hp E] Ha Hm. assert (no_newline a) as Hn by (eapply Forall_impl; [exact Ha|]; by intros c []).
  unfold read_line_bounded. destruct (read_line_flat max (breaks s) [] (chunks s) Hp (Forall_nil_2 _) ltac:(unfold zlen; cbn; lia)) as [Hr Hrest].
  cbn [app] in *. rewrite E, flat_line_newline in Hr, Hrest by done. destruct (read_line_loop max (breaks s) [] (chunks s)) as [r cs].
  cbn [fst snd] in *. rewrite lossy_ascii in Hr.
  2: { apply Forall_app. split; [eapply Forall_impl; [exact Ha|]; intros c []; lia|]. by repeat constructor. }
  subst r. destruct (Hrest ltac:(done)) as [E' Hp']. eexists. split; [done|]. by split.
Qed.

Lemma next_header fuel n b s a rest n' : holds s (a ++ crlf ++ rest) → ascii_line a → a ≠ [] → zlen a <= 4096 →
  0 <= b → b + zlen a + 2 <= MAX_HEADER_BYTES → header_length (a ++ crlf) n = n' →
  ∃ s', read_headers (S fuel) n b s = read_headers fuel n' (b + zlen a + 2) s' ∧ holds s' rest.
Proof.
  intros Hs Ha Hne Hl Hb Hmax Hlen. unfold zlen in *. assert (holds s ((a ++ [13]) ++ 10 :: rest)) as Hs' by by rewrite <- app_assoc.
  destruct (next_line MAX_HEADER_LINE_BYTES s (a ++ [13]) rest Hs') as (s' & E & Hs'').
  { apply Forall_app. split; [done|]. by repeat constructor. }
  { rewrite length_app. cbn [length]. unfold MAX_HEADER_LINE_BYTES. lia. }
  exists s'. split; [|done]. cbn [read_headers]. rewrite E. replace ((a ++ [13]) ++ [10]) with (a ++ crlf) by by rewrite <- app_assoc.
  replace (b + zlen (a ++ crlf)) with (b + Z.of_nat (length a) + 2) by (rewrite zlen_app; unfold zlen, crlf; cbn [length]; lia).
  destruct (Z.ltb_spec MAX_HEADER_BYTES (b + Z.of_nat (length a) + 2)); [lia|].
  rewrite !bool_decide_eq_false_2; [by rewrite Hlen| |];
    intros E0; apply (f_equal length) in E0; rewrite length_app in E0; destruct a; cbn in E0; (done || lia).
Qed.

Lemma last_header fuel n b s rest : holds s (crlf ++ rest) → 0 <= b → b + 2 <= MAX_HEADER_BYTES →
  ∃ s', read_headers (S fuel) n b s = Some (HeadersDone n s') ∧ holds s' rest.
Proof.
  intros Hs Hb Hmax. destruct (next_line MAX_HEADER_LINE_BYTES s [13] rest Hs ltac:(by repeat constructor) ltac:(done)) as (s' & E & Hs').
  exists s'. split; [|done]. cbn [read_headers]. rewrite E. change (zlen ([13] ++ [10])) with 2.
  destruct (Z.ltb_spec MAX_HEADER_BYTES (b + 2)); [lia|done].
Qed.

Lemma chars_of_ascii l : Forall (λ c, 0 <= c < 128) l → chars_of l = l.
Proof. intros Hl. unfold chars_of. by rewrite utf8_ascii. Qed.

Lemma trim_number n : u64_ok n → trim (32 :: to_string n ++ crlf) = to_string n.
Proof.
  intros Hn. destruct (to_string_digits n Hn) as (Hd & _ & Hne & _). apply (trim_app [32] _ crlf); [by repeat constructor|by repeat constructor| |done].
  split; intros c Hc; apply digit_not_space, (proj1 (Forall_forall _ _) Hd).
  - destruct (to_string n); [done|]. injection Hc as ->. left.
  - apply last_Some in Hc as [l ->]. apply elem_of_app. right. left.
Qed.

Lemma parse_number n : u64_ok n → parse_usize (to_string n) = Some n.
Proof.
  intros Hn. destruct (to_string_digits n Hn) as (Hd & Hv & Hne & _). assert (parse_u64 (to_string n) = Some n) as E.
  { apply parse_u64_spec; [done|]. split; [done|]. split; [done|]. apply Hn. }
  unfold parse_usize. destruct (to_string n) as [|c cs]; [done|]. apply Forall_cons in Hd as [Hc _]. apply in_range_iff in Hc.
  destruct (Z.eqb_spec c 43); [lia|done].
Qed.

Lemma lowercase_plain l : Forall (λ c, c < 65 ∨ 90 < c) l → to_ascii_lowercase l = l.
Proof.
  induction 1 as [|c l Hc _ IH]; [done|]. unfold to_ascii_lowercase in *. cbn [fmap list_fmap]. rewrite IH.
  destruct (in_range 65 90 c) eqn:E; [apply in_range_iff in E; lia|done].
Qed.

Lemma content_length_read n m : u64_ok n → header_length (txt "Content-Length: " ++ to_string n ++ crlf) m = n.
Proof.
  intros Hn. destruct (to_string_digits n Hn) as (Hd & _ & _ & Ha). unfold header_length.
  assert (to_ascii_lowercase (txt "Content-Length: " ++ to_string n ++ crlf) = txt "content-length:" ++ 32 :: to_string n ++ crlf) as ->.
  { change (txt "content-length:" ++ 32 :: to_string n ++ crlf) with (txt "content-length: " ++ to_string n ++ crlf).
    unfold to_ascii_lowercase. rewrite fmap_app. f_equal. fold (to_ascii_lowercase (to_string n ++ crlf)). apply lowercase_plain.
    apply Forall_app. split; [|repeat constructor; lia]. eapply Forall_impl; [exact Hd|]. intros c Hc%in_range_iff. lia. }
  assert (strip_prefix (txt "content-length:") (txt "content-length:" ++ 32 :: to_string n ++ crlf) = Some (32 :: to_string n ++ crlf)) as -> by done.
  rewrite chars_of_ascii; [by rewrite trim_number, parse_number|].
  constructor; [lia|]. apply Forall_app. split; [done|]. repeat constructor; lia.
Qed.

Definition snapshots_path : bytes := txt "/v1/snapshots".
Definition visible (a : bytes) : Prop := Forall (λ c, 33 <= c < 127) a.

Lemma visible_line a : visible a → ascii_line a.
Proof. intros Ha. eapply Forall_impl; [exact Ha|]. cbn. intros c Hc. lia. Qed.

Lemma ascii_line_app a b : ascii_line a → ascii_line b → ascii_line (a ++ b).
Proof. intros. by apply Forall_app. Qed.

Ltac line_tac := apply (bool_decide_unpack _); by vm_compute.

Lemma host_no_length a : visible a → ∀ n, header_length ((txt "Host: " ++ a) ++ crlf) n = n.
Proof. intros _ n. by unfold header_length. Qed.

Lemma number_line n : u64_ok n → ascii_line (to_string n) ∧ zlen (to_string n) <= 20.
Proof.
  intros Hn. destruct (to_string_digits n Hn) as (Hd & _). split.
  - eapply Forall_impl; [exact Hd|]. intros c Hc%in_range_iff. lia.
  - assert (0 <= n < 10 ^ Z.of_nat 20) as Hn' by (change (10 ^ Z.of_nat 20) with 100000000000000000000; word_lia).
    pose proof (length_decimal 19 n Hn') as Hl. unfold zlen, to_string. lia.
Qed.

Lemma post_head s authority body :
  holds s (post_request authority snapshots_path body) → visible authority → zlen authority <= MAX_ENDPOINT_LEN → u64_ok (zlen body) →
  ∃ rest, read_head (stream_fuel s) s = Some (Http.Request (txt "POST") snapshots_path (zlen body) rest) ∧ holds rest body.
Proof.
  intros Hs Hv Ha Hb. assert (∃ f, stream_fuel s = S (S (S (S (S f))))) as [f Hf].
  { destruct Hs as [_ E]. exists (stream_fuel s - 5)%nat. unfold stream_fuel. rewrite E. unfold post_request, post_content.
    rewrite length_app. change (length (txt "POST ")) with 5%nat. lia. }
  rewrite Hf. unfold read_head. pose proof (number_line _ Hb) as [Hnl Hnz].
  assert (holds s ((txt "POST /v1/snapshots HTTP/1.1" ++ [13]) ++ 10 :: (txt "Host: " ++ authority) ++ crlf ++
    (txt "Content-Type: application/octet-stream") ++ crlf ++ (txt "Content-Length: " ++ to_string (zlen body)) ++ crlf ++
    (txt "Connection: close") ++ crlf ++ crlf ++ body)) as H1.
  { destruct Hs as [Hp E]. split; [done|]. rewrite E. unfold post_request, post_content. repeat (rewrite <- !app_assoc; cbn [app]). done. }
  destruct (next_line MAX_REQUEST_LINE_BYTES s _ _ H1 ltac:(line_tac) ltac:(done)) as (s1 & -> & H2).
  destruct (next_header (S (S (S (S f)))) 0 0 s1 _ _ 0 H2) as (s2 & -> & H3);
    [apply ascii_line_app; [line_tac|by apply visible_line]|done| |done| |by apply host_no_length|].
  { rewrite zlen_app. change (zlen (txt "Host: ")) with 6. unfold MAX_ENDPOINT_LEN in Ha. lia. }
  { rewrite zlen_app. change (zlen (txt "Host: ")) with 6. unfold MAX_ENDPOINT_LEN, MAX_HEADER_BYTES in *. lia. }
  set (b1 := 0 + zlen (txt "Host: " ++ authority) + 2). assert (0 <= b1 <= 4096) as Hb1.
  { unfold b1. rewrite zlen_app. change (zlen (txt "Host: ")) with 6. unfold MAX_ENDPOINT_LEN in Ha. pose proof (zlen_nonneg authority). lia. }
  destruct (next_header (S (S (S f))) 0 b1 s2 _ _ 0 H3) as (s3 & -> & H4);
    [line_tac|done|done|lia|change (zlen _) with 38; unfold MAX_HEADER_BYTES; lia|done|].
  destruct (next_header (S (S f)) 0 (b1 + zlen (txt "Content-Type: application/octet-stream") + 2) s3 _ _ (zlen body) H4) as (s4 & -> & H5);
    [by apply ascii_line_app; [line_tac|]|done| |change (zlen _) with 38; lia| |rewrite <- app_assoc; by apply content_length_read|].
  { rewrite zlen_app. change (zlen (txt "Content-Length: ")) with 16. lia. }
  { rewrite zlen_app. change (zlen (txt "Content-Length: ")) with 16. change (zlen (txt "Content-Type: application/octet-stream")) with 38.
    unfold MAX_HEADER_BYTES. lia. }
  set (b2 := b1 + _ + 2 + _ + 2). assert (0 <= b2 <= 8192) as Hb2.
  { unfold b2. rewrite zlen_app. change (zlen (txt "Content-Length: ")) with 16. change (zlen (txt "Content-Type: application/octet-stream")) with 38.
    pose proof (zlen_nonneg (to_string (zlen body))). lia. }
  destruct (next_header (S f) (zlen body) b2 s4 _ _ (zlen body) H5) as (s5 & -> & H6);
    [line_tac|done|done|lia|change (zlen _) with 17; unfold MAX_HEADER_BYTES; lia|done|].
  destruct (last_header f (zlen body) (b2 + zlen (txt "Connection: close") + 2) s5 body H6) as (s6 & -> & H7);
    [change (zlen _) with 17; lia|change (zlen _) with 17; unfold MAX_HEADER_BYTES; lia|].
  exists s6. split; [|done]. cbn [mbind option_bind]. f_equal.
Qed.

(** ** Reading the answer *)

Lemma first_piece_app a rest n : no_newline a → (length a < n)%nat → first_piece (take n (a ++ 10 :: rest)) = a.
Proof.
  intros Ha. revert n. induction Ha as [|c a Hc _ IH]; intros [|n] Hn; cbn in Hn; try lia; [done|].
  cbn. apply Z.eqb_neq in Hc. rewrite Hc. f_equal. apply IH. lia.
Qed.

Definition status_line (r : Response) : bytes := txt "HTTP/1.1 " ++ to_string (status r) ++ [32] ++ txt (reason (status r)) ++ [13].

Lemma read_status_respond r : no_newline (status_line r) → zlen (status_line r) < 100 →
  read_status (respond r) =
    (chars ← utf8_chars (status_line r); word ← split_whitespace chars !! 1%nat; status ← parse_usize word;
     _ ← guard (status < 65536); Some status).
Proof.
  intros Hn Hl. unfold read_status. assert (∃ rest, respond r = status_line r ++ 10 :: rest) as [rest ->].
  { eexists. unfold respond, status_line, crlf. repeat (rewrite <- !app_assoc; cbn [app]). done. }
  rewrite first_piece_app; [done|done|]. unfold MAX_HTTP_RESPONSE_BYTES. unfold zlen in Hl. lia.
Qed.

Lemma status_answers r : status r ∈ [200; 400] → read_status (respond r) = Some (status r).
Proof.
  intros Hr. rewrite read_status_respond; unfold status_line;
    repeat (apply elem_of_cons in Hr as [->|Hr]; [first [by vm_compute|apply (bool_decide_unpack _); by vm_compute]|]); by apply elem_of_nil in Hr.
Qed.

(** ** Delivery *)

(** What the client is told of a push: its status. *)
Definition push_status (result : ApplyResult) : Z :=
  if (accepted result =? 0) && negb (bool_decide (rejected result = [])) then 400 else 200.

Section delivery.
Context (fuel : nat) (fp : Footprint) (exp log2 : f64 → f64) (ps : list Plan) (h : HashSpec).
Context (show : f64 → bytes) (show_error : SketchError → bytes) (push_json : ApplyResult → bytes)
  (queries_json : list Plan → bytes) (nodes_text : list (string * list NodeView) → bytes).
Context (Hdep : deployable fuel fp ps).
Abbreviation run_server := (run exp log2 fuel fp show show_error push_json queries_json nodes_text).

Lemma same_holds s t l : same_text s t → concat (chunks t) = l → holds s l.
Proof using. intros [E _ Hp _] <-. by split. Qed.

Lemma delivered k1 k2 k3 v i s authority batch :
  server_ok fuel fp ps h v → workers v !! i = Some (Reading s) →
  holds s (post_request authority snapshots_path (encode batch)) → visible authority → zlen authority <= MAX_ENDPOINT_LEN →
  batch_ok batch → zlen (encode batch) <= MAX_PUSH_BODY_BYTES →
  inflight_body_bytes v + zlen (encode batch) <= MAX_INFLIGHT_BODY_BYTES →
  ∃ result g' v', apply_batch fuel fp (clock k2) (now k2) (store v) batch = Ok (result, g') ∧
    run_server v [Turn k1 i; Turn k2 i; Turn k3 i] = Ok v' ∧ store v' = g' ∧
    sent v' = sent v ++ [(i, respond (json (push_status result) (push_json result)))].
Proof using Hdep.
  intros Hv Hi Hs Hvis Hauth Hb Hmax Hroom.
  assert (0 < zlen (encode batch)) as Hpos.
  { rewrite encode_eq by done. unfold seal. rewrite zlen_app. pose proof (zlen_enc_body batch). pose proof (zlen_nonneg (le_bytes 8 (hash64 (enc_body batch) 0))). lia. }
  unfold MAX_PUSH_BODY_BYTES, MAX_INFLIGHT_BODY_BYTES in *.
  destruct (post_head s authority (encode batch) Hs Hvis Hauth) as (rest & Hhead & Hrest); [unfold u64_ok; lia|].
  pose proof (so_inflight _ _ _ _ _ Hv) as [_ Hin]. 
  set (v1 := set_phase i (Holding (zlen (encode batch)) rest) (set_inflight (inflight_body_bytes v + zlen (encode batch)) v)).
  assert (turn exp log2 fuel fp show show_error push_json queries_json nodes_text k1 i v = Ok v1) as E1.
  { unfold turn. rewrite Hi, Hhead. unfold start_request. rewrite !bool_decide_eq_true_2 by done. cbn [andb].
    destruct (Z.eqb_spec (zlen (encode batch)) 0); [lia|]. unfold MAX_BODY_BYTES. destruct (Z.ltb_spec (64 * 1024 * 1024) (zlen (encode batch))); [lia|].
    unfold try_reserve_body_bytes, MAX_INFLIGHT_BODY_BYTES. destruct (Z.leb_spec u64_mod (inflight_body_bytes v + zlen (encode batch))); [lia|].
    destruct (Z.ltb_spec (128 * 1024 * 1024) (inflight_body_bytes v + zlen (encode batch))); [lia|done]. }
  destruct (turn_ok fuel fp exp log2 ps h show show_error push_json queries_json nodes_text Hdep k1 i v Hv) as (v1' & E1' & Hv1).
  rewrite E1 in E1'. apply ok_inj in E1' as <-.
  destruct (turn_ok fuel fp exp log2 ps h show show_error push_json queries_json nodes_text Hdep k2 i v1 Hv1) as (v2 & E2 & Hv2).
  assert (workers v1 !! i = Some (Holding (zlen (encode batch)) rest)) as Hi1 by (cbn; by rewrite lookup_insert_eq).
  pose proof E2 as E2'. unfold turn in E2'. rewrite Hi1 in E2'. unfold finish_body, read_exact in E2'.
  pose proof (read_exact_flat (Z.to_nat (zlen (encode batch))) (chunks rest) (proj1 Hrest)) as Hx.
  destruct (read_exact_loop _ _) as [[body cs]|] in E2', Hx; rewrite (proj2 Hrest) in Hx.
  2: { exfalso. unfold zlen in Hx. lia. }
  destruct Hx as (_ & -> & _). cbn [mbind option_bind] in E2'. replace (Z.to_nat (zlen (encode batch))) with (length (encode batch)) in E2' by (unfold zlen; lia).
  rewrite firstn_all in E2'. unfold receive_snapshots in E2'. rewrite decode_encode in E2' by done.
  change (store v1) with (store v) in E2'.
  destruct (apply_batch fuel fp (clock k2) (now k2) (store v) batch) as [[result g']| |] eqn:Ea; cbn in E2'; try done.
  apply ok_inj in E2'. exists result, g', (finish i (Some (json (push_status result) (push_json result))) v2). split; [done|].
  assert (workers v2 !! i = Some (Answering (Some (json (push_status result) (push_json result))))) as Hi2
    by (rewrite <- E2'; cbn; by rewrite lookup_insert_eq).
  split; [|by rewrite <- E2'].
  unfold run. cbn [foldM step]. rewrite E1. cbn [mbind outcome_bind]. rewrite E2. cbn [mbind outcome_bind].
  unfold turn. by rewrite Hi2.
Qed.
End delivery.

(** [C19] A push arrives as it was sent.  Let a gateway in service have room for the
    body, and a connection carry the request the agent's client writes for a
    batch, cut into pieces anywhere: the connection's turns apply exactly that
    batch to the window store and answer with the outcome, and the client that
    reads the answer succeeds at its first attempt exactly when something was
    accepted or nothing was refused, and reports status 400 otherwise. *)
Theorem push_arrives (fuel : nat) (fp : Footprint) (exp log2 : f64 → f64) (ps : list Plan) (h : HashSpec)
    (show : f64 → bytes) (show_error : SketchError → bytes) (push_json : ApplyResult → bytes)
    (queries_json : list Plan → bytes) (nodes_text : list (string * list NodeView) → bytes)
    (k1 k2 k3 : Clocks) (v : Server) (i : nat) (s : Stream) (url authority : bytes) (batch : PushBatch)
    (Hdep : deployable fuel fp ps) (Hv : server_ok fuel fp ps h v) (Hi : workers v !! i = Some (Reading s))
    (Hurl : parse_url url = Ok (authority, snapshots_path)) (Hhost : visible authority) (Hlen : zlen authority <= MAX_ENDPOINT_LEN)
    (Hs : same_text s (mkStream [post_request authority snapshots_path (encode batch)] (breaks s)))
    (Hb : batch_ok batch) (Hmax : zlen (encode batch) <= MAX_PUSH_BODY_BYTES)
    (Hroom : inflight_body_bytes v + zlen (encode batch) <= MAX_INFLIGHT_BODY_BYTES) :
  ∃ result g' v' reply, apply_batch fuel fp (clock k2) (now k2) (store v) batch = Ok (result, g') ∧
    run exp log2 fuel fp show show_error push_json queries_json nodes_text v [Turn k1 i; Turn k2 i; Turn k3 i] = Ok v' ∧
    store v' = g' ∧ sent v' = sent v ++ [(i, reply)] ∧
    ∀ answer, answer 0%nat (post_request authority snapshots_path (encode batch)) = Some reply →
      push_batch answer url (encode batch) = (if push_status result =? 200 then Ok tt else Err (Status 400), []).
Proof.
  destruct (delivered fuel fp exp log2 ps h show show_error push_json queries_json nodes_text Hdep k1 k2 k3 v i s authority batch Hv Hi)
    as (result & g' & v' & Ha & Hrun & Hst & Hsent); try done.
  { apply (same_holds s _ _ Hs). cbn. by rewrite app_nil_r. }
  exists result, g', v', (respond (json (push_status result) (push_json result))). split; [done|]. split; [done|]. split; [done|]. split; [done|].
  intros answer Hans. unfold push_batch. destruct (Z.ltb_spec MAX_PUSH_BODY_BYTES (zlen (encode batch))); [lia|].
  assert (push_status result = 200 ∨ push_status result = 400) as Hstatus by (unfold push_status; destruct (_ && _); auto).
  assert (post_once octet_stream (answer 0%nat) url (encode batch) = Ok (push_status result)) as Hpost.
  { unfold post_once. rewrite Hurl. cbn [mbind outcome_bind]. change (post_content octet_stream) with post_request. rewrite Hans, status_answers; [done|]. cbn [status json].
    destruct Hstatus as [-> | ->]; apply (bool_decide_unpack _); by vm_compute. }
  cbn [push_attempts]. rewrite Hpost. by destruct Hstatus as [-> | ->].
Qed.

Definition sample_request : bytes := post_request (txt "gw:9465") snapshots_path (encode sample_batch).
Definition sample_post : Stream := mkStream [take 10 sample_request; drop 10 sample_request] false.
Definition sample_server : Server := accept sample_post (server_new sample_gateway).

Lemma push_arrives_witness :
  ∃ result g' v' reply, apply_batch 0 fp0 at_zero 0 sample_gateway sample_batch = Ok (result, g') ∧
    run a_log a_log 0 fp0 (λ _, []) (λ _, []) (λ _, []) (λ _, []) (λ _, []) sample_server
      [Turn sample_clocks 0; Turn sample_clocks 0; Turn sample_clocks 0] = Ok v' ∧
    store v' = g' ∧ sent v' = [(0%nat, reply)] ∧
    ∀ answer, answer 0%nat sample_request = Some reply →
      push_batch answer (txt "http://gw:9465/v1/snapshots") (encode sample_batch) =
        (if push_status result =? 200 then Ok tt else Err (Status 400), []).
Proof.
  assert (bytes_ok sample_request) as Hok by (apply (bool_decide_unpack _); by vm_compute).
  assert (concat (chunks sample_post) = sample_request) as E by (unfold sample_post; cbn [chunks concat]; by rewrite app_nil_r, take_drop).
  assert (pieces (chunks sample_post)) as Hp by (apply (bool_decide_unpack _); by vm_compute).
  assert (server_ok 0 fp0 [sample_plan] HashSpec_default sample_server) as Hv.
  { apply accept_ok; [apply server_new_ok, (new_inv 0 fp0 [sample_plan] HashSpec_default 100 2 1000); [done|exact sample_gateway_new]|].
    apply sample_stream_ok; [done|by rewrite E]. }
  apply (push_arrives 0 fp0 a_log a_log [sample_plan] HashSpec_default (λ _, []) (λ _, []) (λ _, []) (λ _, []) (λ _, [])
    sample_clocks sample_clocks sample_clocks sample_server 0 sample_post (txt "http://gw:9465/v1/snapshots") (txt "gw:9465") sample_batch).
  - exact sample_deployable.
  - exact Hv.
  - by vm_compute.
  - by vm_compute.
  - apply (bool_decide_unpack _). by vm_compute.
  - by vm_compute.
  - constructor; [by rewrite E|done|done|apply (bool_decide_unpack _); by vm_compute].
  - exact sample_batch_ok.
  - by vm_compute.
  - by vm_compute.
Defined.

(** The documentation of both clients names a third pause, of 3200 ms; three
    attempts leave room for two. *)
Lemma push_pauses answer url body : (push_batch answer url body).2 `prefix_of` [200; 800].
Proof.
  unfold push_batch. case_match; [apply prefix_nil|]. cbn [push_attempts Nat.ltb Nat.leb].
  repeat match goal with
  | |- context [post_once octet_stream (answer ?n) url body] => destruct (post_once octet_stream (answer n) url body) as [?|[]|]
  | |- context [if ?b then _ else _] => destruct b
  end; apply (bool_decide_unpack _); vm_compute; exact I.
Qed.
