(* ===== verification/AgentHttp.v ===== *)
(** * The agent's HTTP server  (crates/flowsketch-agent/src/http.rs)

    The read-only routes, on what the agent publishes and its health.  The wire
    is Http's; the agent ignores a request's body, and its table of reasons
    lacks 413, which it never answers.  The JSON of the queries is serde_json's. *)
From S2P Require Import Prelude Bytes Utf8 F64 Event Published Exposition MetricsPages Http.

#[local] Abbreviation txt := bytes_of_string.

Section agent.
Context (show : f64 → bytes) (queries_json : list QueryInfo → bytes).

Definition route (h : Health) (s : PublishedState) (uptime : Z) (method path : list Z) : Response :=
  if negb (bool_decide (method = txt "GET")) then text 405 "method not allowed"
  else if bool_decide (path = txt "/healthz") then
    match h_source_error h with
    | Some err => mkResponse 503 "text/plain" (txt "capture source failed: " ++ txt err ++ [10])
    | None => text 200 "ok"
    end
  else if bool_decide (path = txt "/readyz") then
    match h_source_error h with
    | Some _ => text 503 "capture source failed"
    | None =>
        if h_ready h && h_capture_ready h then text 200 "ready"
        else if negb (h_capture_ready h) then text 503 "capture source starting"
        else text 503 "runtime starting"
    end
  else if bool_decide (path = txt "/metrics") then mkResponse 200 "text/plain; version=0.0.4" (agent_metrics show h s uptime)
  else if bool_decide (path = txt "/v1/queries") then mkResponse 200 "application/json" (queries_json (ps_queries s))
  else text 404 "not found".

(** [handle_connection]: the answer, if there is one. *)
Definition handle_connection (h : Health) (s : PublishedState) (uptime : Z) (c : Stream) : option Response :=
  match read_head (stream_fuel c) c with
  | None | Some Closed => None
  | Some (Refused r) => Some r
  | Some (Request method path _ _) => Some (route h s uptime method path)
  end.

Lemma ready_when h s uptime :
  status (route h s uptime (txt "GET") (txt "/readyz")) = 200 ↔
  h_source_error h = None ∧ h_ready h = true ∧ h_capture_ready h = true.
Proof.
  unfold route. rewrite bool_decide_eq_true_2 by done. cbn [negb]. rewrite bool_decide_eq_false_2, bool_decide_eq_true_2 by done.
  destruct (h_source_error h), (h_ready h), (h_capture_ready h); cbn; naive_solver.
Qed.
End agent.

(** The agent answers by what a client sends and not by how it arrives.
    However the network cuts the same bytes, the answer is the same; reading a
    request's head always comes to an end, and a head that is accepted takes at
    most 40 KiB of the connection. *)
Lemma agent_answers_text (show : f64 → bytes) (queries_json : list QueryInfo → bytes) (h : Health) (s : PublishedState) (uptime : Z)
    (c d : Stream) (Hcd : same_text c d) :
  handle_connection show queries_json h s uptime c = handle_connection show queries_json h s uptime d ∧
  is_Some (read_head (stream_fuel c) c) ∧
  ∀ method path n rest, read_head (stream_fuel c) c = Some (Request method path n rest) →
    ∃ used, concat (chunks c) = used ++ concat (chunks rest) ∧ zlen used <= 40 * 1024.
Proof.
  pose proof (st_left _ _ Hcd) as Hp. split; [|split; [by apply read_head_total|]].
  - unfold handle_connection, stream_fuel. rewrite (st_bytes _ _ Hcd). pose proof (read_head_same (S (length (concat (chunks d)))) c d Hcd) as Hh.
    destruct Hh as [x y Hxy|]; [by destruct Hxy|done].
  - intros method path n rest Hr. destruct (read_head_rest c method path n rest Hp Hr) as (used & E & Hu & _). exists used.
    split; [exact E|]. exact Hu.
Qed.

Lemma agent_answers_text_witness :
  let request := txt "GET /readyz HTTP/1.1" ++ crlf ++ crlf in
  let c := mkStream [request] false in
  let d := mkStream [take 7 request; drop 7 request] false in
  same_text c d ∧
  handle_connection (λ _, []) (λ _, []) sample_health (published_new [] 0) 0 c =
    handle_connection (λ _, []) (λ _, []) sample_health (published_new [] 0) 0 d ∧
  status <$> handle_connection (λ _, []) (λ _, []) sample_health (published_new [] 0) 0 d = Some 503.
Proof.
  intros request c d. assert (same_text c d) as Hcd by (constructor; apply (bool_decide_unpack _); by vm_compute).
  split; [exact Hcd|]. split; [|by vm_compute].
  exact (proj1 (agent_answers_text (λ _, []) (λ _, []) sample_health (published_new [] 0) 0 c d Hcd)).
Defined.
