(* ===== verification/Otlp.v ===== *)
(** * OpenTelemetry export  (crates/flowsketch-otel/src/encode.rs and client.rs)

    The OTLP document of a batch of estimates, as the JSON value it is built as,
    and its posting; how the value is printed is serde_json's.  The document is
    checked against a reader of its own: under every metric's name it holds
    exactly the points of the estimates, in their order, with their windows,
    values and attributes. *)
From S2P Require Import Prelude Bytes Utf8 Maps F64 Event Ir Yaml Emit Published Exposition Http GatewayHttp.
From S2P Require Import PushDelivery.

#[local] Abbreviation txt := bytes_of_string.

(** ** JSON values  (serde_json) *)

Inductive json :=
  | JNull
  | JString (s : bytes)
  | JNumber (v : f64)
  | JArray (l : list json)
  | JObject (l : list (string * json)).

(** A number that is not finite becomes null. *)
Definition json_f64 (v : f64) : json :=
  match v with S754_nan | S754_infinity _ => JNull | _ => JNumber v end.

(** ** The document *)

Record QueryMeta := mkMeta { qm_unit : string; qm_window : string; qm_error_kind : string }.
Record EncodeOptions := mkOptions { service_name : bytes; host_name : bytes; queries : gmap string QueryMeta }.

(** [spawn_otlp_exporter]'s options *)
Definition exporter_options (node_name : bytes) (qs : list QueryInfo) : EncodeOptions :=
  mkOptions (txt "flowsketch-agent") node_name
    (foldl (λ m q, <[qi_name q := mkMeta (qi_otlp_unit q) (qi_window q) (qi_error_kind q)]> m) ∅ qs).

Definition otel_attribute_name (field : string) : bytes :=
  if String.eqb field "src.ip" then txt "source.address"
  else if String.eqb field "dst.ip" then txt "destination.address"
  else if String.eqb field "src.port" then txt "source.port"
  else if String.eqb field "dst.port" then txt "destination.port"
  else if String.eqb field "protocol" then txt "network.protocol.name"
  else txt "flowsketch.group." ++ replace 46 [95] (txt field).

Definition kv (key value : bytes) : json :=
  JObject [("key", JString key); ("value", JObject [("stringValue", JString value)])].

Definition attributes (opts : EncodeOptions) (e : SketchEstimate) : list (bytes * bytes) :=
  [(txt "flowsketch.query.name", txt (e_query_name e)); (txt "flowsketch.algorithm", txt (e_algorithm e))] ++
  match queries opts !! e_query_name e with
  | Some m => [(txt "flowsketch.window", txt (qm_window m)); (txt "flowsketch.error.kind", txt (qm_error_kind m))]
  | None => []
  end ++
  ((λ g, (otel_attribute_name g.1, g.2)) <$> e_group e).

Definition point (opts : EncodeOptions) (e : SketchEstimate) (value : f64) : json :=
  JObject [("timeUnixNano", JString (to_string (e_window_end_nanos e)));
           ("startTimeUnixNano", JString (to_string (e_window_start_nanos e)));
           ("asDouble", json_f64 value);
           ("attributes", JArray ((λ x, kv x.1 x.2) <$> attributes opts e))].

Definition unit_of (opts : EncodeOptions) (e : SketchEstimate) : string :=
  default "value" (qm_unit <$> queries opts !! e_query_name e).
Definition base_name (opts : EncodeOptions) (e : SketchEstimate) : string :=
  ("network.flowsketch." +:+ unit_of opts e +:+ ".estimated").

(** An estimate's points: their metric's name and description, and their value. *)
Definition bound (base suffix description : string) (value : option f64) : list (string * string * f64) :=
  match value with Some v => [((base +:+ "." +:+ suffix), description, v)] | None => [] end.
Definition measurements (opts : EncodeOptions) (e : SketchEstimate) : list (string * string * f64) :=
  let base := base_name opts e in
  [(base, "Approximate telemetry estimate from a bounded-memory sketch.", e_estimate e)] ++
  bound base "lower_bound" "Lower error bound for the corresponding FlowSketch estimate." (e_lower_bound e) ++
  bound base "upper_bound" "Upper error bound for the corresponding FlowSketch estimate." (e_upper_bound e) ++
  bound base "confidence" "Confidence level for the corresponding FlowSketch error interval." (e_confidence e).

(** [by_metric.entry(name).or_insert_with(...).1.push(point)] *)
Abbreviation Metrics := (gmap string (string * list json)).
Definition push_point (m : Metrics) (x : string * string * json) : Metrics :=
  let '(description, points) := default (x.1.2, []) (m !! x.1.1) in
  <[x.1.1 := (description, points ++ [x.2])]> m.
Definition push_estimate (opts : EncodeOptions) (m : Metrics) (e : SketchEstimate) : Metrics :=
  foldl push_point m ((λ x, (x.1.1, x.1.2, point opts e x.2)) <$> measurements opts e).

Definition metric (x : string * (string * list json)) : json :=
  JObject [("name", JString (txt x.1)); ("description", JString (txt x.2.1));
           ("gauge", JObject [("dataPoints", JArray x.2.2)])].

(** [version] is the crate's. *)
Definition encode_estimates (version : bytes) (estimates : list SketchEstimate) (opts : EncodeOptions) : option json :=
  match estimates with
  | [] => None
  | _ =>
      let by_metric := foldl (push_estimate opts) ∅ estimates in
      Some (JObject [("resourceMetrics", JArray [JObject
        [("resource", JObject [("attributes", JArray [kv (txt "service.name") (service_name opts); kv (txt "host.name") (host_name opts)])]);
         ("scopeMetrics", JArray [JObject
           [("scope", JObject [("name", JString (txt "flowsketch")); ("version", JString version)]);
            ("metrics", JArray (metric <$> by_query by_metric))]])]])])
  end.

(** ** Posting  (client.rs and lib.rs) *)

Definition MAX_OTLP_BODY_BYTES : Z := 8 * 1024 * 1024.

(** [OtlpConfig::metrics_url] *)
Definition metrics_url (endpoint : bytes) : bytes :=
  let base := trim_end_matches 47 endpoint in
  if GatewayHttp.ends_with (txt "/v1/metrics") base then base else base ++ txt "/v1/metrics".

Definition post_metrics (print : json → bytes) (answer : nat → bytes → option bytes) (url : bytes) (document : json)
    : outcome PushClientError unit * list Z :=
  let body := print document in
  if MAX_OTLP_BODY_BYTES <? zlen body then (Err (BodyTooLarge (zlen body) MAX_OTLP_BODY_BYTES), [])
  else push_attempts (txt "application/json") 3 0 200 answer url body.

(** ** A reader of the document *)

Definition get (key : string) (j : json) : option json :=
  match j with JObject l => snd <$> List.find (λ x, String.eqb x.1 key) l | _ => None end.
Definition get_array (key : string) (j : json) : option (list json) :=
  match get key j with Some (JArray l) => Some l | _ => None end.
Definition get_string (key : string) (j : json) : option bytes :=
  match get key j with Some (JString s) => Some s | _ => None end.
Definition get_one (key : string) (j : json) : option json :=
  match get key j with Some (JArray [x]) => Some x | _ => None end.

Record Point := mkPoint { p_start : Z; p_end : Z; p_value : option f64; p_attributes : list (bytes * bytes) }.

Definition read_attribute (j : json) : option (bytes * bytes) :=
  k ← get_string "key" j;
  value ← get "value" j;
  v ← get_string "stringValue" value;
  Some (k, v).
Definition read_point (j : json) : option Point :=
  stop ← get_string "timeUnixNano" j;
  stop ← parse_u64 stop;
  start ← get_string "startTimeUnixNano" j;
  start ← parse_u64 start;
  value ← get "asDouble" j;
  value ← match value with JNumber v => Some (Some v) | JNull => Some None | _ => None end;
  attrs ← get_array "attributes" j;
  attrs ← mapM read_attribute attrs;
  Some (mkPoint start stop value attrs).
Definition read_metric (j : json) : option (bytes * list Point) :=
  name ← get_string "name" j;
  gauge ← get "gauge" j;
  points ← get_array "dataPoints" gauge;
  points ← mapM read_point points;
  Some (name, points).
Definition read_document (j : json) : option (list (bytes * list Point)) :=
  resource ← get_one "resourceMetrics" j;
  scope ← get_one "scopeMetrics" resource;
  metrics ← get_array "metrics" scope;
  mapM read_metric metrics.

(** The points a metric of this name holds; [None] when there is none. *)
Definition points_named (name : bytes) (ms : list (bytes * list Point)) : option (list Point) :=
  snd <$> List.find (λ x, bool_decide (x.1 = name)) ms.

(** ** The document reads back *)

Definition finite (v : f64) : option f64 := match v with S754_nan | S754_infinity _ => None | _ => Some v end.
Definition point_of (opts : EncodeOptions) (e : SketchEstimate) (v : f64) : Point :=
  mkPoint (e_window_start_nanos e) (e_window_end_nanos e) (finite v) (attributes opts e).
(** The points of an estimate that belong to the metric [name]. *)
Definition points_for (opts : EncodeOptions) (name : string) (e : SketchEstimate) : list Point :=
  (λ x, point_of opts e x.2) <$> base.filter (λ x, x.1.1 = name) (measurements opts e).

Definition times_ok (e : SketchEstimate) : Prop := u64_ok (e_window_start_nanos e) ∧ u64_ok (e_window_end_nanos e).

Lemma parse_printed n : u64_ok n → parse_u64 (to_string n) = Some n.
Proof.
  intros Hn. destruct (to_string_digits n Hn) as (Hd & Hv & Hne & _). apply parse_u64_spec; [done|]. split; [done|]. split; [done|]. apply Hn.
Qed.

Lemma mapM_fmap_all {A B C} (f : B → option C) (h : A → B) (g : A → C) (l : list A) :
  (∀ x, x ∈ l → f (h x) = Some (g x)) → mapM f (h <$> l) = Some (g <$> l).
Proof.
  induction l as [|x l IH]; intros H; [done|]. cbn. rewrite (H x) by left. cbn. by rewrite IH by (intros; apply H; by right).
Qed.

Lemma read_attributes l : mapM read_attribute ((λ x : bytes * bytes, kv x.1 x.2) <$> l) = Some l.
Proof. rewrite (mapM_fmap_all _ _ id); [by rewrite list_fmap_id|]. by intros [k v] _. Qed.

Lemma read_point_eq opts e v : times_ok e → read_point (point opts e v) = Some (point_of opts e v).
Proof.
  intros [Hs He]. unfold read_point, point, point_of. cbn -[attributes to_string parse_u64 mapM]. rewrite !parse_printed by done.
  cbn -[attributes mapM]. assert (match json_f64 v with JNumber v => Some (Some v) | JNull => Some None | _ => None end = Some (finite v)) as ->
    by (by destruct v). cbn -[attributes mapM]. by rewrite read_attributes.
Qed.

(** *** Grouping *)

Definition triples (opts : EncodeOptions) (e : SketchEstimate) : list (string * string * json) :=
  (λ x, (x.1.1, x.1.2, point opts e x.2)) <$> measurements opts e.
Definition under (name : string) (xs : list (string * string * json)) : list json :=
  snd <$> base.filter (λ x, x.1.1 = name) xs.
Definition if_any {A} (l : list A) : option (list A) := match l with [] => None | _ => Some l end.

Lemma under_app name xs ys : under name (xs ++ ys) = under name xs ++ under name ys.
Proof. unfold under. by rewrite filter_app, fmap_app. Qed.

Lemma if_any_snoc {A} (l : list A) x : if_any (l ++ [x]) = Some (l ++ [x]).
Proof. by destruct l. Qed.

Lemma push_points_lookup xs name : snd <$> foldl push_point ∅ xs !! name = if_any (under name xs).
Proof.
  induction xs as [|[[n d] p] xs IH] using rev_ind; [done|]. rewrite foldl_app, under_app. cbn [foldl].
  set (m := foldl push_point ∅ xs) in *. unfold push_point. cbn [fst snd]. unfold under at 2. rewrite filter_cons, filter_nil. cbn [fst snd].
  case_decide as Hn.
  - subst n. cbn [fmap list_fmap]. rewrite if_any_snoc. destruct (m !! name) as [[d' l]|]; cbn [default from_option id]; rewrite lookup_insert_eq; cbn in *.
    + destruct (under name xs); [done|]. by injection IH as ->.
    + by destruct (under name xs).
  - cbn [fmap list_fmap]. rewrite app_nil_r. destruct (default (d, []) (m !! n)) as [d' l]. by rewrite lookup_insert_ne.
Qed.

Lemma push_estimates_eq opts es m : foldl (push_estimate opts) m es = foldl push_point m (concat (triples opts <$> es)).
Proof. revert m. induction es as [|e es IH]; intros m; [done|]. cbn [fmap list_fmap concat foldl]. by rewrite foldl_app, <- IH. Qed.

Lemma mapM_app_some {A B} (f : A → option B) l k a b : mapM f l = Some a → mapM f k = Some b → mapM f (l ++ k) = Some (a ++ b).
Proof.
  revert a. induction l as [|x l IH]; intros a; cbn; [by intros [= <-]|]. destruct (f x); cbn; [|done].
  destruct (mapM f l) as [a'|]; cbn; [|done]. intros [= <-] Hk. by rewrite (IH a').
Qed.

Lemma mapM_some_nonempty {A B} (f : A → option B) x l k : mapM f (x :: l) = Some k → k ≠ [].
Proof. cbn. destruct (f x); cbn; [|done]. destruct (mapM f l); cbn; [|done]. by intros [= <-]. Qed.

Lemma if_any_some {A} (l : list A) : l ≠ [] → if_any l = Some l.
Proof. by destruct l. Qed.

Lemma read_under opts es name : Forall times_ok es →
  mapM read_point (under name (concat (triples opts <$> es))) = Some (concat (points_for opts name <$> es)).
Proof.
  induction 1 as [|e es He _ IH]; [done|]. cbn [fmap list_fmap concat]. rewrite under_app. apply mapM_app_some; [|exact IH].
  assert (under name (triples opts e) = point opts e <$> (snd <$> base.filter (λ x, x.1.1 = name) (measurements opts e))) as ->.
  { unfold under, triples. induction (measurements opts e) as [|[[n d] v] l IHl]; [done|]. cbn [fmap list_fmap].
    rewrite !filter_cons. cbn [fst snd]. case_decide; [|exact IHl]. cbn [fmap list_fmap]. by f_equal. }
  rewrite (mapM_fmap_all _ _ (point_of opts e)) by (intros v _; by apply read_point_eq). f_equal.
  unfold points_for. by rewrite <- list_fmap_compose.
Qed.

Lemma find_named {A} (read : string → A) (ks : list string) name :
  snd <$> List.find (λ x : bytes * A, bool_decide (x.1 = txt name)) ((λ k, (txt k, read k)) <$> ks)
  = if decide (name ∈ ks) then Some (read name) else None.
Proof.
  induction ks as [|k ks IH]; [done|]. cbn [fmap list_fmap List.find fst]. case_bool_decide as Hk.
  - apply bytes_of_string_inj in Hk as ->. rewrite decide_True by left. done.
  - rewrite IH. assert (name ≠ k) by congruence. repeat case_decide; set_solver.
Qed.

(** [C40] The OTLP document of a batch.  There is one exactly when there are
    estimates; read back, its metrics have distinct names, and under every name
    it holds exactly the points of the estimates measured under that name, in
    their order, each with its window, its value, null where that is not finite,
    and its attributes: nothing is lost, repeated or filed elsewhere. *)
Theorem otlp_document_exact (version : bytes) (es : list SketchEstimate) (opts : EncodeOptions)
    (Htimes : Forall times_ok es) :
  (encode_estimates version es opts = None ↔ es = []) ∧
  ∀ doc, encode_estimates version es opts = Some doc → ∃ ms, read_document doc = Some ms ∧ NoDup ms.*1 ∧
    ∀ name, points_named (txt name) ms = if_any (concat (points_for opts name <$> es)).
Proof.
  split; [by destruct es|]. intros doc Hdoc. set (m := foldl (push_estimate opts) ∅ es).
  set (read := λ x : string * (string * list json), (txt x.1, concat (points_for opts x.1 <$> es))).
  assert (∀ name, snd <$> m !! name = if_any (under name (concat (triples opts <$> es)))) as Hm
    by (intros name; unfold m; by rewrite push_estimates_eq, push_points_lookup).
  assert (mapM read_metric (metric <$> by_query m) = Some (read <$> by_query m)) as Hread.
  { apply mapM_fmap_all. intros [name [d l]] Hx%by_query_elem. specialize (Hm name). rewrite Hx in Hm. cbn in Hm.
    assert (l = under name (concat (triples opts <$> es))) as -> by (destruct (under name _); [done|by injection Hm]).
    unfold read_metric, read. cbn -[mapM under concat]. by rewrite read_under. }
  assert (read <$> by_query m = (λ k, (txt k, concat (points_for opts k <$> es))) <$> (by_query m).*1) as Hread'
    by (by rewrite <- list_fmap_compose).
  exists (read <$> by_query m). split; [|split].
  - destruct es as [|e es]; [done|]. injection Hdoc as <-. exact Hread.
  - rewrite Hread'. rewrite <- list_fmap_compose. apply NoDup_fmap; [intros a b; apply bytes_of_string_inj|apply by_query_keys].
  - intros name. unfold points_named. rewrite Hread', find_named. specialize (Hm name).
    pose proof (read_under opts es name Htimes) as Hu.
    destruct (decide _) as [Hin|Hout].
    + apply list_elem_of_fmap in Hin as ([k x] & -> & Hx%by_query_elem). cbn [fst] in *. rewrite Hx in Hm.
      destruct (under k _) as [|j l] eqn:Hl; [done|]. symmetry. by eapply if_any_some, mapM_some_nonempty.
    + destruct (m !! name) as [x|] eqn:Hx.
      * exfalso. apply Hout, list_elem_of_fmap. exists (name, x). split; [done|]. by apply by_query_elem.
      * destruct (under name _); [|done]. by injection Hu as <-.
Qed.

(** Three windows of two queries, of which only "flows" is described: its two
    points stand under one metric, in order. *)
Definition sample_options : EncodeOptions :=
  exporter_options (txt "node-a") [mkQueryInfo "flows" "HyperLogLog" "10s" "relative" "" 0 0 4 10 "count"].
Definition sample_estimates : list SketchEstimate :=
  [sample_estimate "flows" 1; sample_estimate "bytes" 2; sample_estimate "flows" 3].

Lemma otlp_document_exact_witness :
  ∃ doc ms, encode_estimates (txt "0.1.0") sample_estimates sample_options = Some doc ∧
    read_document doc = Some ms ∧ NoDup ms.*1 ∧
    fmap (M := list) p_end <$> points_named (txt "network.flowsketch.count.estimated") ms = Some [20; 40].
Proof.
  assert (Forall times_ok sample_estimates) as Ht by (repeat constructor; done).
  destruct (otlp_document_exact (txt "0.1.0") sample_estimates sample_options Ht) as [_ H].
  destruct (H _ eq_refl) as (ms & Hread & Hnd & Hpoints). eexists _, ms. split; [reflexivity|].
  split; [exact Hread|]. split; [exact Hnd|]. rewrite Hpoints. vm_compute. reflexivity.
Defined.
