(* ===== verification/Packet.v ===== *)
(** * Packet headers  (crates/flowsketch-pcap/src/parse.rs)

    The parser that turns captured frames into flow events, and the layout of
    frames it implements, stated independently as relations on byte strings.

    A [None] of the source is [Err tt]; an index or a slice out of range is a
    [Panic].  Proved: the parser accepts exactly the frames of the layout, with
    the layout's event, and never panics, whatever the bytes. *)
From S2P Require Import Prelude Bytes Event.

Abbreviation parse := (outcome unit).
Abbreviation none := (Err tt).

(** [&data[a..b]], [&data[a..]] *)
Definition slice {E A} (data : list A) (a b : Z) : outcome E (list A) :=
  if (0 <=? a) && (a <=? b) && (b <=? zlen data)
  then Ok (take (Z.to_nat (b - a)) (drop (Z.to_nat a) data)) else Panic.
Definition slice_from {E A} (data : list A) (a : Z) : outcome E (list A) :=
  slice data a (zlen data).

(** [checked_add], [checked_sub] and [checked_mul] of [usize], with [?]. *)
Definition checked_add (a b : Z) : parse Z := if u64_max <? a + b then none else Ok (a + b).
Definition checked_sub (a b : Z) : parse Z := if a <? b then none else Ok (a - b).
Definition checked_mul (a b : Z) : parse Z := if u64_max <? a * b then none else Ok (a * b).

(** [u16::from_be_bytes([data[i], data[i + 1]])] *)
Definition be16_at (data : bytes) (i : Z) : parse Z :=
  a ← vec_get data i; b ← vec_get data (i + 1); Ok (be_val [a; b]).

(** ** The parser *)

Definition ETHERNET : Z := 1.
Definition RAW_IP : Z := 101.
Definition LINUX_SLL : Z := 113.

Definition ETHERTYPE_IPV4 : Z := 2048.
Definition ETHERTYPE_IPV6 : Z := 34525.
Definition ETHERTYPE_VLAN : Z := 33024.
Definition ETHERTYPE_QINQ : Z := 34984.

Record L4Info := mkL4 { l4_src_port : Z; l4_dst_port : Z; l4_tcp_flags : Z }.
Definition L4Info_default : L4Info := mkL4 0 0 0.

Definition parse_l4 (protocol : Z) (data : bytes) (wire_len : Z) : parse L4Info :=
  if protocol =? 6 then
    _ ← fail_if (zlen data <? 14) tt;
    off ← vec_get data 12;
    let header_len := Z.shiftr off 4 * 4 in
    _ ← fail_if ((header_len <? 20) || (wire_len <? header_len) || (zlen data <? header_len)) tt;
    s ← be16_at data 0;
    d ← be16_at data 2;
    flags ← vec_get data 13;
    Ok (mkL4 s d flags)
  else if protocol =? 17 then
    _ ← fail_if (zlen data <? 8) tt;
    udp_len ← be16_at data 4;
    _ ← fail_if ((udp_len <? 8) || (wire_len <? udp_len)) tt;
    s ← be16_at data 0;
    d ← be16_at data 2;
    Ok (mkL4 s d 0)
  else Ok L4Info_default.

(** The event of a packet: [..FlowEvent::default()] for the rest. *)
Definition event_of (s d : IpAddr) (proto len : Z) (l4 : L4Info) : FlowEvent :=
  {| ts_nanos := 0; src_ip := s; dst_ip := d;
     src_port := l4_src_port l4; dst_port := l4_dst_port l4; protocol := proto;
     ev_bytes := len; packets := 1; direction := Unknown; tcp_flags := l4_tcp_flags l4;
     interface_index := 0; node_id := 0;
     namespace_id := None; pod_id := None; service_id := None |}.

Definition parse_ipv4 (data : bytes) (wire_len : Z) : parse FlowEvent :=
  _ ← fail_if (zlen data <? 20) tt;
  first ← vec_get data 0;
  _ ← fail_if (negb (Z.shiftr first 4 =? 4)) tt;
  let ihl := Z.land first 15 * 4 in
  _ ← fail_if ((ihl <? 20) || (zlen data <? ihl)) tt;
  total_len ← be16_at data 2;
  _ ← fail_if ((total_len <? ihl) || (wire_len <? total_len)) tt;
  proto ← vec_get data 9;
  src ← slice data 12 16;
  dst ← slice data 16 20;
  frag ← be16_at data 6;
  l4 ← (if Z.land frag 8191 =? 0
        then let captured_end := Z.min total_len (zlen data) in
             payload ← slice data ihl captured_end;
             parse_l4 proto payload (total_len - ihl)
        else Ok L4Info_default);
  Ok (event_of (V4 src) (V4 dst) proto (as_u32 total_len) l4).

(** The variables of the loop over extension headers. *)
Record V6Walk := mkWalk {
  next_header : Z;
  offset : Z;
  walk_l4 : L4Info;
  non_first_fragment : bool;
}.

Definition option_header (nh : Z) : bool := (nh =? 0) || (nh =? 43) || (nh =? 51) || (nh =? 60).

(** One turn; [false] when it breaks out of the loop. *)
Definition v6_turn (data : bytes) (packet_len : Z) (w : V6Walk) : parse (V6Walk * bool) :=
  let nh := next_header w in
  if option_header nh then
    fixed_end ← checked_add (offset w) 8;
    _ ← fail_if ((packet_len <? fixed_end) || (zlen data <? fixed_end)) tt;
    ext ← vec_get data (offset w + 1);
    len ← (if nh =? 51 then checked_mul (ext + 2) 4 else checked_add 8 (ext * 8));
    next_offset ← checked_add (offset w) len;
    _ ← fail_if ((len <? 8) || (packet_len <? next_offset) || (zlen data <? next_offset)) tt;
    nh ← vec_get data (offset w);
    Ok (mkWalk nh next_offset (walk_l4 w) (non_first_fragment w), true)
  else if nh =? 44 then
    next_offset ← checked_add (offset w) 8;
    _ ← fail_if ((packet_len <? next_offset) || (zlen data <? next_offset)) tt;
    frag ← be16_at data (offset w + 2);
    nh ← vec_get data (offset w);
    if negb (Z.shiftr frag 3 =? 0)
    then Ok (mkWalk nh next_offset (walk_l4 w) true, false)
    else Ok (mkWalk nh next_offset (walk_l4 w) (non_first_fragment w), true)
  else
    let captured_end := Z.min packet_len (zlen data) in
    payload ← (if (offset w <=? captured_end) && (captured_end <=? zlen data)
               then slice data (offset w) captured_end else none);
    rest ← checked_sub packet_len (offset w);
    l4 ← parse_l4 nh payload rest;
    Ok (mkWalk nh (offset w) l4 (non_first_fragment w), false).

Fixpoint v6_walk (turns : nat) (data : bytes) (packet_len : Z) (w : V6Walk) : parse V6Walk :=
  match turns with
  | O => Ok w
  | S turns =>
      '(w, continue) ← v6_turn data packet_len w;
      if continue : bool then v6_walk turns data packet_len w else Ok w
  end.

Definition parse_ipv6 (data : bytes) (wire_len : Z) : parse FlowEvent :=
  _ ← fail_if (zlen data <? 40) tt;
  first ← vec_get data 0;
  _ ← fail_if (negb (Z.shiftr first 4 =? 6)) tt;
  payload_len ← be16_at data 4;
  _ ← fail_if (payload_len =? 0) tt;
  packet_len ← checked_add 40 payload_len;
  _ ← fail_if (wire_len <? packet_len) tt;
  nh ← vec_get data 6;
  src ← slice data 8 24;
  dst ← slice data 24 40;
  w ← v6_walk 6 data packet_len (mkWalk nh 40 L4Info_default false);
  _ ← fail_if ((option_header (next_header w) || (next_header w =? 44)) && negb (non_first_fragment w)) tt;
  Ok (event_of (V6 src) (V6 dst) (next_header w) (as_u32 packet_len) (walk_l4 w)).

Definition parse_l3 (ethertype : Z) (data : bytes) (wire_len : Z) : parse FlowEvent :=
  if ethertype =? ETHERTYPE_IPV4 then parse_ipv4 data wire_len
  else if ethertype =? ETHERTYPE_IPV6 then parse_ipv6 data wire_len
  else none.

Definition parse_ip (data : bytes) (wire_len : Z) : parse FlowEvent :=
  first ← ok_or (head data) tt;
  if Z.shiftr first 4 =? 4 then parse_ipv4 data wire_len
  else if Z.shiftr first 4 =? 6 then parse_ipv6 data wire_len
  else none.

(** One VLAN tag, if there is one. *)
Definition vlan_tag (data : bytes) (acc : Z * Z) (_ : nat) : parse (Z * Z) :=
  let '(ethertype, offset) := acc in
  if (ethertype =? ETHERTYPE_VLAN) || (ethertype =? ETHERTYPE_QINQ) then
    _ ← fail_if (zlen data <? offset + 4) tt;
    ethertype ← be16_at data (offset + 2);
    Ok (ethertype, offset + 4)
  else Ok acc.

Definition parse_ethernet (data : bytes) (wire_len : Z) : parse FlowEvent :=
  _ ← fail_if (zlen data <? 14) tt;
  ethertype ← be16_at data 12;
  '(ethertype, offset) ← foldM (vlan_tag data) (ethertype, 14) (seq 0 2);
  payload ← slice_from data offset;
  rest ← checked_sub wire_len offset;
  parse_l3 ethertype payload rest.

Definition parse_packet_with_wire_len (link : Z) (data : bytes) (wire_len : Z) : parse FlowEvent :=
  _ ← fail_if (wire_len <? zlen data) tt;
  if link =? ETHERNET then parse_ethernet data wire_len
  else if link =? RAW_IP then parse_ip data wire_len
  else if link =? LINUX_SLL then
    _ ← fail_if (zlen data <? 16) tt;
    ethertype ← be16_at data 14;
    payload ← slice_from data 16;
    rest ← checked_sub wire_len 16;
    parse_l3 ethertype payload rest
  else none.

(** [u32::try_from(data.len()).ok()?] *)
Definition parse_packet (link : Z) (data : bytes) : parse FlowEvent :=
  if 4294967295 <? zlen data then none else parse_packet_with_wire_len link data (zlen data).

(** ** The layout of frames

    The bytes captured of a frame, the length it had on the wire, and what they
    say; lengths declared in a header are checked against the wire, and headers
    against the captured bytes. *)

(** The transport header at the front of a payload of [wire] bytes. *)
Inductive transport : Z → bytes → Z → L4Info → Prop :=
  | transport_tcp s0 s1 d0 d1 seq_ack off flags rest wire :
      length seq_ack = 8%nat →
      20 <= off / 16 * 4 <= Z.min wire (14 + zlen rest) →
      transport 6 ([s0; s1; d0; d1] ++ seq_ack ++ [off; flags] ++ rest) wire
        (mkL4 (be_val [s0; s1]) (be_val [d0; d1]) flags)
  | transport_udp s0 s1 d0 d1 l0 l1 k0 k1 rest wire :
      8 <= be_val [l0; l1] <= wire →
      transport 17 ([s0; s1; d0; d1; l0; l1; k0; k1] ++ rest) wire
        (mkL4 (be_val [s0; s1]) (be_val [d0; d1]) 0)
  | transport_other proto payload wire :
      proto ≠ 6 → proto ≠ 17 → transport proto payload wire L4Info_default.

(** An IPv4 packet: later fragments carry no transport header. *)
Inductive ipv4_packet (wire : Z) : bytes → FlowEvent → Prop :=
  | ipv4_intro ver tos t0 t1 id f0 f1 ttl proto ck src dst options payload l4 :
      length id = 2%nat → length ck = 2%nat → length src = 4%nat → length dst = 4%nat →
      ver / 16 = 4 → 20 + zlen options = ver mod 16 * 4 →
      ver mod 16 * 4 <= be_val [t0; t1] <= wire →
      (if decide (be_val [f0; f1] mod 8192 = 0)
       then transport proto (take (Z.to_nat (be_val [t0; t1] - ver mod 16 * 4)) payload)
              (be_val [t0; t1] - ver mod 16 * 4) l4
       else l4 = L4Info_default) →
      ipv4_packet wire
        ([ver; tos; t0; t1] ++ id ++ [f0; f1; ttl; proto] ++ ck ++ src ++ dst ++ options ++ payload)
        (event_of (V4 src) (V4 dst) proto (be_val [t0; t1]) l4).

Definition extension (nh : Z) : Prop := nh ∈ [0; 43; 44; 51; 60].
Definition extension_len (nh ext : Z) : Z := if decide (nh = 51) then (ext + 2) * 4 else (ext + 1) * 8.

Section layout.
(** What a transport header says that only comes after as many extension headers
    as a parser is prepared to read. *)
Context (limit : Z → bytes → Z → L4Info → Prop).

(** The chain of extension headers after an IPv6 header: [headers n nh data wire
    proto l4] reads at most [n] of them. *)
Inductive headers : nat → Z → bytes → Z → Z → L4Info → Prop :=
  | headers_transport n nh data wire l4 :
      ¬ extension nh → transport nh data wire l4 → headers (S n) nh data wire nh l4
  | headers_limit nh data wire l4 :
      ¬ extension nh → limit nh data wire l4 → headers 0 nh data wire nh l4
  | headers_option n nh next ext body data wire proto l4 :
      extension nh → nh ≠ 44 → 2 + zlen body = extension_len nh ext →
      headers n next data (wire - extension_len nh ext) proto l4 →
      headers (S n) nh ([next; ext] ++ body ++ data) wire proto l4
  | headers_first_fragment n next r f0 f1 id data wire proto l4 :
      length id = 4%nat → be_val [f0; f1] / 8 = 0 → headers n next data (wire - 8) proto l4 →
      headers (S n) 44 ([next; r; f0; f1] ++ id ++ data) wire proto l4
  | headers_later_fragment n next r f0 f1 id data wire :
      length id = 4%nat → be_val [f0; f1] / 8 ≠ 0 →
      headers (S n) 44 ([next; r; f0; f1] ++ id ++ data) wire next L4Info_default.

(** An IPv6 packet; a payload length of zero would announce a jumbogram. *)
Inductive ipv6_packet (wire : Z) : bytes → FlowEvent → Prop :=
  | ipv6_intro ver a b c p0 p1 nh hop src dst payload proto l4 :
      length src = 16%nat → length dst = 16%nat →
      ver / 16 = 6 → 0 < be_val [p0; p1] → 40 + be_val [p0; p1] <= wire →
      headers 6 nh (take (Z.to_nat (be_val [p0; p1])) payload) (be_val [p0; p1]) proto l4 →
      ipv6_packet wire ([ver; a; b; c; p0; p1; nh; hop] ++ src ++ dst ++ payload)
        (event_of (V6 src) (V6 dst) proto (40 + be_val [p0; p1]) l4).

Inductive network (wire : Z) : Z → bytes → FlowEvent → Prop :=
  | network_ipv4 data e : ipv4_packet wire data e → network wire ETHERTYPE_IPV4 data e
  | network_ipv6 data e : ipv6_packet wire data e → network wire ETHERTYPE_IPV6 data e.

(** An 802.1Q or QinQ tag. *)
Definition is_tag (tag : bytes) : Prop :=
  ∃ a b c d, tag = [a; b; c; d] ∧ be_val [a; b] ∈ [ETHERTYPE_VLAN; ETHERTYPE_QINQ].

(** A frame of each link type; Ethernet frames carry at most two tags. *)
Inductive frame (wire : Z) : Z → bytes → FlowEvent → Prop :=
  | frame_ethernet macs tags t0 t1 payload e :
      length macs = 12%nat → Forall is_tag tags → (length tags <= 2)%nat →
      network (wire - (14 + 4 * zlen tags)) (be_val [t0; t1]) payload e →
      frame wire ETHERNET (macs ++ concat tags ++ [t0; t1] ++ payload) e
  | frame_raw ethertype data e :
      network wire ethertype data e → frame wire RAW_IP data e
  | frame_sll header t0 t1 payload e :
      length header = 14%nat → network (wire - 16) (be_val [t0; t1]) payload e →
      frame wire LINUX_SLL (header ++ [t0; t1] ++ payload) e.
End layout.

(** The parser reads at most six extension headers and, after exactly six, leaves
    the transport header alone. *)
Definition skipped (nh : Z) (data : bytes) (wire : Z) (l4 : L4Info) : Prop := l4 = L4Info_default.

(** ** Byte strings *)

Lemma split_bytes (n : nat) (data : bytes) :
  Z.of_nat n <= zlen data → ∃ pre rest, data = pre ++ rest ∧ length pre = n.
Proof.
  unfold zlen. intros H. exists (take n data), (drop n data).
  rewrite take_drop, length_take. split; [done|lia].
Qed.

(** Name the elements of the lists whose length is a numeral. *)
Ltac explode l H :=
  repeat (destruct l as [|? l]; [discriminate H|apply Nat.succ_inj in H]);
  destruct l; [clear H|discriminate H].

Lemma slice_mid {E} (a b c : bytes) i j :
  i = zlen a → j = i + zlen b → slice (E := E) (a ++ b ++ c) i j = Ok b.
Proof.
  intros -> ->. unfold slice. rewrite !zlen_app.
  pose proof (zlen_nonneg a). pose proof (zlen_nonneg b). pose proof (zlen_nonneg c).
  destruct (Z.leb_spec 0 (zlen a)); [|lia]. destruct (Z.leb_spec (zlen a) (zlen a + zlen b)); [|lia].
  destruct (Z.leb_spec (zlen a + zlen b) (zlen a + (zlen b + zlen c))); [|lia]. cbn [andb].
  replace (zlen a + zlen b - zlen a) with (zlen b) by lia. by rewrite drop_zlen_app, take_zlen_app.
Qed.

Lemma slice_end {E} (a b : bytes) i :
  i = zlen a → slice_from (E := E) (a ++ b) i = Ok b.
Proof.
  intros ->. unfold slice_from. rewrite <- (app_nil_r (a ++ b)) at 1. rewrite <- app_assoc.
  apply slice_mid; [done|]. by rewrite zlen_app.
Qed.

Lemma shiftr_4 b : Z.shiftr b 4 = b / 16.
Proof. by rewrite Z.shiftr_div_pow2 by lia. Qed.
Lemma shiftr_3 b : Z.shiftr b 3 = b / 8.
Proof. by rewrite Z.shiftr_div_pow2 by lia. Qed.
Lemma land_15 b : Z.land b 15 = b mod 16.
Proof. change 15 with (Z.ones 4). by rewrite Z.land_ones by lia. Qed.
Lemma land_8191 b : Z.land b 8191 = b mod 8192.
Proof. change 8191 with (Z.ones 13). by rewrite Z.land_ones by lia. Qed.

Lemma be_val_2 a b : be_val [a; b] = a * 256 + b.
Proof. unfold be_val. change (reverse [a; b]) with [b; a]. unfold le_val. lia. Qed.

(** ** The transport header *)

(** The computation does not panic and returns exactly the values of [P]. *)
Definition accepts {E A} (m : outcome E A) (P : A → Prop) : Prop :=
  no_panic m ∧ ∀ a, m = Ok a ↔ P a.

Lemma accepts_none {E A} (e : E) (P : A → Prop) : (∀ a, ¬ P a) → accepts (Err e) P.
Proof. intros H. split; [done|]. intros a. split; [done|]. intros Ha. by apply H in Ha. Qed.

Lemma accepts_ok {E A} (a : A) (P : A → Prop) : P a → (∀ b, P b → b = a) → accepts (E := E) (Ok a) P.
Proof.
  intros Ha Hb. split; [done|]. intros b. split; [by intros <-%ok_inj|].
  intros Hp. f_equal. symmetry. by apply Hb.
Qed.

Lemma parse_l4_tcp a0 a1 a2 a3 a4 a5 a6 a7 a8 a9 a10 a11 a12 a13 rest wire :
  parse_l4 6 ([a0; a1; a2; a3; a4; a5; a6; a7; a8; a9; a10; a11; a12; a13] ++ rest) wire =
  (_ ← fail_if ((a12 / 16 * 4 <? 20) || (wire <? a12 / 16 * 4) || (14 + zlen rest <? a12 / 16 * 4)) tt;
   Ok (mkL4 (be_val [a0; a1]) (be_val [a2; a3]) a13)).
Proof.
  unfold parse_l4. cbn [Z.eqb Pos.eqb]. set (data := _ ++ rest).
  replace (zlen data) with (14 + zlen rest) by (unfold data; by rewrite zlen_app).
  pose proof (zlen_nonneg rest). rewrite (proj2 (Z.ltb_ge _ _)) by lia.
  unfold data. by rewrite <- !shiftr_4.
Qed.

Lemma parse_l4_udp a0 a1 a2 a3 a4 a5 a6 a7 rest wire :
  parse_l4 17 ([a0; a1; a2; a3; a4; a5; a6; a7] ++ rest) wire =
  (_ ← fail_if ((be_val [a4; a5] <? 8) || (wire <? be_val [a4; a5])) tt;
   Ok (mkL4 (be_val [a0; a1]) (be_val [a2; a3]) 0)).
Proof.
  unfold parse_l4. cbn [Z.eqb Pos.eqb]. set (data := _ ++ rest).
  replace (zlen data) with (8 + zlen rest) by (unfold data; by rewrite zlen_app).
  pose proof (zlen_nonneg rest). rewrite (proj2 (Z.ltb_ge _ _)) by lia. done.
Qed.

Lemma parse_l4_spec proto data wire : accepts (parse_l4 proto data wire) (transport proto data wire).
Proof.
  destruct (decide (proto = 6)) as [->|H6]; [|destruct (decide (proto = 17)) as [->|H17]].
  - destruct (Z.lt_ge_cases (zlen data) 14) as [Hs|Hl].
    + unfold parse_l4. cbn [Z.eqb Pos.eqb]. rewrite (proj2 (Z.ltb_lt _ _)) by done.
      apply accepts_none. intros l4 H. inversion H; subst; [|done].
      unfold zlen in Hs. rewrite !length_app in Hs. cbn [length] in Hs. lia.
    + destruct (split_bytes 14 data) as (pre & rest & -> & Hp); [done|].
      explode pre Hp. rewrite parse_l4_tcp. clear Hl. pose proof (zlen_nonneg rest).
      match goal with |- accepts (_ ← fail_if ?b _; _) _ => destruct b eqn:E end; ostep.
      * apply accepts_none. intros l4 H'. inversion H' as [????? off ??? Hseq Ho|?|]; [|done].
        subst. explode seq_ack Hseq. simplify_list_eq. lia.
      * apply accepts_ok.
        -- apply (transport_tcp _ _ _ _ [_; _; _; _; _; _; _; _]); [done|lia].
        -- intros l4 H'. inversion H' as [????? off ??? Hseq Ho|?|]; [|done].
           subst. explode seq_ack Hseq. by simplify_list_eq.
  - destruct (Z.lt_ge_cases (zlen data) 8) as [Hs|Hl].
    + unfold parse_l4. cbn [Z.eqb Pos.eqb]. rewrite (proj2 (Z.ltb_lt _ _)) by done.
      apply accepts_none. intros l4 H. inversion H; subst; [|done].
      unfold zlen in Hs. rewrite !length_app in Hs. cbn [length] in Hs. lia.
    + destruct (split_bytes 8 data) as (pre & rest & -> & Hp); [done|].
      explode pre Hp. rewrite parse_l4_udp. clear Hl.
      match goal with |- accepts (_ ← fail_if ?b _; _) _ => destruct b eqn:E end; ostep.
      * apply accepts_none. intros l4 H'. inversion H'; [|done]. simplify_eq. lia.
      * apply accepts_ok; [apply transport_udp; lia|]. intros l4 H'. inversion H'; [|done]. by simplify_eq.
  - unfold parse_l4. rewrite (proj2 (Z.eqb_neq _ _) H6), (proj2 (Z.eqb_neq _ _) H17).
    apply accepts_ok; [by constructor|]. intros l4 H. by inversion H.
Qed.

(** ** Extension headers *)

Lemma vec_get_mid {E} (pre rest post : bytes) i x :
  0 <= i → rest !! Z.to_nat i = Some x →
  vec_get (E := E) (pre ++ rest ++ post) (zlen pre + i) = Ok x.
Proof.
  intros Hi Hx. apply vec_get_Some; [pose proof (zlen_nonneg pre); lia|].
  unfold zlen. rewrite Z2Nat.inj_add, Nat2Z.id by lia.
  rewrite lookup_app_r by lia. replace (length pre + Z.to_nat i - length pre)%nat with (Z.to_nat i) by lia.
  by apply lookup_app_l_Some.
Qed.

Lemma checked_add_small a b : a + b <= u64_max → checked_add a b = Ok (a + b).
Proof. intros H. unfold checked_add. by rewrite (proj2 (Z.ltb_ge _ _)) by lia. Qed.

Lemma extension_spec nh : option_header nh || (nh =? 44) = bool_decide (extension nh).
Proof.
  symmetry. destruct (option_header nh || (nh =? 44)) eqn:E; unfold option_header, extension in *.
  - apply bool_decide_eq_true. rewrite !orb_true_iff, !Z.eqb_eq in E. set_solver.
  - apply bool_decide_eq_false. rewrite !orb_false_iff, !Z.eqb_neq in E. set_solver.
Qed.

Lemma option_header_spec nh : option_header nh = true ↔ extension nh ∧ nh ≠ 44.
Proof.
  unfold option_header, extension. rewrite !orb_true_iff, !Z.eqb_eq, !elem_of_cons, elem_of_nil.
  intuition (subst; lia || tauto).
Qed.

(** What the loop returns, past the check that follows it. *)
Definition v6_end (w : V6Walk) : parse (Z * L4Info) :=
  _ ← fail_if ((option_header (next_header w) || (next_header w =? 44)) && negb (non_first_fragment w)) tt;
  Ok (next_header w, walk_l4 w).

Section walk.
Context (packet_len : Z) (Hlen : packet_len <= 1048576).

(** The bytes captured of the packet from the offset on are [rest]. *)
Definition at_rest (pre rest post : bytes) : Prop :=
  bytes_ok rest ∧ zlen pre + zlen rest = Z.min packet_len (zlen (pre ++ rest ++ post)).

Lemma v6_turn_option pre rest post nh l4 f :
  at_rest pre rest post → option_header nh = true →
  v6_turn (pre ++ rest ++ post) packet_len (mkWalk nh (zlen pre) l4 f) =
  match rest with
  | next :: ext :: _ =>
      if decide (zlen rest < 8 ∨ zlen rest < extension_len nh ext) then none
      else Ok (mkWalk next (zlen pre + extension_len nh ext) l4 f, true)
  | _ => none
  end.
Proof using Hlen.
  intros [Hb Hr] Hn. unfold v6_turn. cbn [next_header offset walk_l4 non_first_fragment]. rewrite Hn.
  pose proof (zlen_nonneg pre). pose proof (zlen_nonneg rest).
  rewrite checked_add_small by lia. ostep.
  assert ((packet_len <? zlen pre + 8) || (zlen (pre ++ rest ++ post) <? zlen pre + 8) = (zlen rest <? 8)) as -> by lia.
  destruct rest as [|next [|ext rest']].
  1,2: done.
  destruct (Z.ltb_spec (zlen (next :: ext :: rest')) 8) as [Hs|Hs]; ostep; [by rewrite decide_True by (by left)|].
  rewrite (vec_get_mid pre _ post 1 ext) by done. ostep.
  assert (u8_ok ext) as He by by do 2 (apply Forall_cons in Hb as [? Hb]).
  unfold u8_ok in He. unfold extension_len.
  assert ((if nh =? 51 then checked_mul (ext + 2) 4 else checked_add 8 (ext * 8)) =
    Ok (if decide (nh = 51) then (ext + 2) * 4 else (ext + 1) * 8)) as ->.
  { destruct (Z.eqb_spec nh 51); [rewrite decide_True by done|rewrite decide_False by done].
    - unfold checked_mul. by rewrite (proj2 (Z.ltb_ge _ _)) by lia.
    - rewrite checked_add_small by lia. f_equal. lia. }
  ostep. set (len := if decide (nh = 51) then _ else _). assert (8 <= len <= 2048) as Hl by (unfold len; case_decide; lia).
  rewrite checked_add_small by lia. ostep.
  assert ((len <? 8) || (packet_len <? zlen pre + len) || (zlen (pre ++ (next :: ext :: rest') ++ post) <? zlen pre + len)
    = (zlen (next :: ext :: rest') <? len)) as -> by lia.
  destruct (Z.ltb_spec (zlen (next :: ext :: rest')) len); ostep; [by rewrite decide_True by (by right)|].
  rewrite decide_False by lia. rewrite <- (Z.add_0_r (zlen pre)) at 1. by rewrite (vec_get_mid pre _ post 0 next) by done.
Qed.

Lemma v6_turn_fragment pre rest post l4 f :
  at_rest pre rest post →
  v6_turn (pre ++ rest ++ post) packet_len (mkWalk 44 (zlen pre) l4 f) =
  match rest with
  | next :: _ :: f0 :: f1 :: _ =>
      if decide (zlen rest < 8) then none
      else if decide (be_val [f0; f1] / 8 = 0) then Ok (mkWalk next (zlen pre + 8) l4 f, true)
      else Ok (mkWalk next (zlen pre + 8) l4 true, false)
  | _ => none
  end.
Proof using Hlen.
  intros [Hb Hr]. unfold v6_turn. cbn [next_header offset walk_l4 non_first_fragment]. cbn [option_header orb Z.eqb Pos.eqb].
  pose proof (zlen_nonneg pre). pose proof (zlen_nonneg rest).
  rewrite checked_add_small by lia. ostep.
  assert ((packet_len <? zlen pre + 8) || (zlen (pre ++ rest ++ post) <? zlen pre + 8) = (zlen rest <? 8)) as -> by lia.
  destruct rest as [|next [|r [|f0 [|f1 rest']]]].
  1-4: done.
  destruct (Z.ltb_spec (zlen (next :: r :: f0 :: f1 :: rest')) 8) as [Hs|Hs]; ostep; [by rewrite decide_True by done|].
  rewrite decide_False by lia. unfold be16_at. rewrite <- Z.add_assoc.
  rewrite (vec_get_mid pre _ post 2 f0), (vec_get_mid pre _ post 3 f1) by done. ostep.
  rewrite <- (Z.add_0_r (zlen pre)) at 1. rewrite (vec_get_mid pre _ post 0 next) by done. ostep.
  rewrite shiftr_3. destruct (Z.eqb_spec (be_val [f0; f1] / 8) 0) as [E|E]; [by rewrite decide_True|by rewrite decide_False].
Qed.

Lemma v6_turn_transport pre rest post nh l4 f :
  at_rest pre rest post → ¬ extension nh →
  v6_turn (pre ++ rest ++ post) packet_len (mkWalk nh (zlen pre) l4 f) =
  (l4 ← parse_l4 nh rest (packet_len - zlen pre); Ok (mkWalk nh (zlen pre) l4 f, false)).
Proof using Hlen.
  intros [Hb Hr] Hn. unfold v6_turn. cbn [next_header offset walk_l4 non_first_fragment].
  pose proof (extension_spec nh) as He. rewrite bool_decide_eq_false_2 in He by done.
  apply orb_false_iff in He as [-> ->]. pose proof (zlen_nonneg pre). pose proof (zlen_nonneg rest).
  rewrite <- Hr. rewrite (proj2 (Z.leb_le (zlen pre) (zlen pre + zlen rest))) by lia.
  rewrite (proj2 (Z.leb_le _ (zlen (pre ++ rest ++ post)))) by lia. cbn [andb].
  rewrite (slice_mid pre rest post) by done. ostep.
  unfold checked_sub. rewrite (proj2 (Z.ltb_ge packet_len (zlen pre))) by lia. done.
Qed.
End walk.

Lemma accepts_iff {E A} (m : outcome E A) (P Q : A → Prop) : accepts m P → (∀ a, P a ↔ Q a) → accepts m Q.
Proof. intros [Hn Hm] H. split; [done|]. intros a. by rewrite Hm, H. Qed.

Lemma accepts_map {E A B} (m : outcome E A) (P : A → Prop) (g : A → B) :
  accepts m P → accepts (a ← m; Ok (g a)) (λ b, ∃ a, P a ∧ b = g a).
Proof.
  intros [Hn Hm]. split; [apply bind_no_panic; [done|]; done|]. intros b. rewrite bind_ok. split.
  - intros (a & Ha & <-%ok_inj). exists a. by rewrite <- Hm.
  - intros (a & Ha & ->). exists a. by rewrite Hm.
Qed.

Lemma extension_dec_len nh ext : 0 <= ext → 8 <= extension_len nh ext.
Proof. unfold extension_len. case_decide; lia. Qed.

Lemma at_rest_step packet_len pre mid rest post :
  at_rest packet_len pre (mid ++ rest) post → at_rest packet_len (pre ++ mid) rest post.
Proof.
  intros [Hb Hr]. apply Forall_app in Hb as [_ Hb]. split; [done|].
  rewrite <- app_assoc in Hr. rewrite <- app_assoc. rewrite zlen_app in *. lia.
Qed.

Lemma zlen_ge_app (a b : bytes) : length a = 0%nat ∨ zlen a <= zlen (a ++ b).
Proof. right. rewrite zlen_app. pose proof (zlen_nonneg b). lia. Qed.

(** Reading the relation backwards, header by header. *)
Lemma headers_long lim n nh rest wire p i :
  extension nh → bytes_ok rest → headers lim (S n) nh rest wire p i →
  ∃ next ext tl, rest = next :: ext :: tl ∧ 8 <= zlen rest ∧ (nh ≠ 44 → extension_len nh ext <= zlen rest).
Proof.
  intros He Hb H. inversion H; subst; [done| | |]; eexists _, _, _; (split; [done|]).
  - cbn [app] in Hb. do 2 (apply Forall_cons in Hb as [? Hb]). unfold u8_ok in *.
    pose proof (extension_dec_len nh ext). rewrite !zlen_app in *. pose proof (zlen_nonneg data).
    change (zlen [next; ext]) with 2. split; lia.
  - split; [|done]. unfold zlen. rewrite !length_app. cbn [length]. lia.
  - split; [|done]. unfold zlen. rewrite !length_app. cbn [length]. lia.
Qed.

Lemma headers_transport_iff lim n nh rest wire p i :
  ¬ extension nh → headers lim (S n) nh rest wire p i ↔ p = nh ∧ transport nh rest wire i.
Proof.
  intros He. split; [|intros [-> H]; by constructor].
  intros H. inversion H; subst; [done|done|..]; exfalso; apply He; unfold extension; set_solver.
Qed.

Lemma headers_option_iff lim n nh next ext body rest wire p i :
  extension nh → nh ≠ 44 → 2 + zlen body = extension_len nh ext →
  headers lim (S n) nh ([next; ext] ++ body ++ rest) wire p i ↔
  headers lim n next rest (wire - extension_len nh ext) p i.
Proof.
  intros He Hn Hl. split; [|by apply headers_option]. intros H.
  inversion H; subst; [done| |done|done]. simplify_list_eq.
  match goal with Hb : ?b ++ _ = body ++ _ |- _ =>
    apply app_inj_1 in Hb as [-> ->]; [done|unfold zlen in *; lia] end.
Qed.

Lemma headers_fragment_iff lim n next r f0 f1 a b c d rest wire p i :
  headers lim (S n) 44 ([next; r; f0; f1; a; b; c; d] ++ rest) wire p i ↔
  if decide (be_val [f0; f1] / 8 = 0) then headers lim n next rest (wire - 8) p i
  else p = next ∧ i = L4Info_default.
Proof.
  split.
  - assert (extension 44) as Hx by (unfold extension; set_solver).
    intros H. inversion H; subst; [done|done|..];
      match goal with Hid : length ?id = 4%nat |- _ => explode id Hid end; simplify_list_eq.
    + by rewrite decide_True.
    + by rewrite decide_False.
  - case_decide as E.
    + intros H. by apply (headers_first_fragment _ _ _ _ _ _ [a; b; c; d]).
    + intros [-> ->]. by apply (headers_later_fragment _ _ _ _ _ _ [a; b; c; d]).
Qed.

Lemma v6_walk_spec packet_len n pre rest post nh :
  packet_len <= 1048576 → at_rest packet_len pre rest post →
  accepts (w ← v6_walk n (pre ++ rest ++ post) packet_len (mkWalk nh (zlen pre) L4Info_default false); v6_end w)
    (λ x, headers skipped n nh rest (packet_len - zlen pre) x.1 x.2).
Proof.
  intros Hlen. revert pre rest nh. induction n as [|n IH]; intros pre rest nh Hr.
  { cbn [v6_walk]. ostep. unfold v6_end. cbn [next_header walk_l4 non_first_fragment negb].
    rewrite extension_spec, andb_true_r. case_bool_decide as He; ostep.
    - apply accepts_none. intros [p i] H. inversion H; subst. contradiction.
    - apply accepts_ok; [by constructor|]. intros [p i] H. cbn [fst snd] in H. inversion H; unfold skipped in *; by subst. }
  assert (∀ mid tl next, rest = mid ++ tl →
    accepts (w ← v6_walk n (pre ++ rest ++ post) packet_len
      (mkWalk next (zlen pre + zlen mid) L4Info_default false); v6_end w)
      (λ x, headers skipped n next tl (packet_len - zlen pre - zlen mid) x.1 x.2)) as IHn.
  { intros mid tl next ->. specialize (IH (pre ++ mid) tl next (at_rest_step _ _ _ _ _ Hr)).
    rewrite zlen_app, <- !app_assoc in IH. rewrite <- app_assoc.
    by replace (packet_len - zlen pre - zlen mid) with (packet_len - (zlen pre + zlen mid)) by lia. }
  cbn [v6_walk]. destruct (decide (extension nh)) as [He|He].
  2: { rewrite (v6_turn_transport packet_len Hlen) by done.
    destruct (parse_l4_spec nh rest (packet_len - zlen pre)) as [Hn Hl].
    destruct (parse_l4 _ _ _) as [l4|[]|] eqn:E; [| |done].
    - ostep. unfold v6_end. cbn [next_header walk_l4 non_first_fragment negb].
      rewrite extension_spec, bool_decide_eq_false_2 by done. cbn [andb]. ostep.
      apply accepts_ok; [by apply headers_transport, Hl|]. intros [p i] Hh; cbn [fst snd] in Hh; apply headers_transport_iff in Hh as [-> Hi]; [|done].
      apply Hl in Hi. apply ok_inj in Hi. by subst.
    - ostep. apply accepts_none. intros [p i] Hh; cbn [fst snd] in Hh; apply headers_transport_iff in Hh as [-> Hi]; [|done]. by apply Hl in Hi. }
  destruct (decide (nh = 44)) as [->|H44].
  - rewrite (v6_turn_fragment packet_len Hlen) by done.
    destruct (Z.lt_ge_cases (zlen rest) 8) as [Hs|Hs].
    { replace (match rest with next :: _ :: f0 :: f1 :: _ => _ | _ => none end) with (none : parse (V6Walk * bool))
        by (destruct rest as [|? [|? [|? [|? ?]]]]; try done; by rewrite decide_True).
      apply accepts_none. intros [p i] H. apply headers_long in H as (? & ? & ? & ? & ? & ?); [lia|done|apply Hr]. }
    destruct (split_bytes 8 rest) as (hd & tl & -> & Hp); [done|]. explode hd Hp.
    cbn [app]. rewrite decide_False by (cbn [app] in Hs; lia).
    case_decide as Hf; ostep.
    + eapply accepts_iff; [exact (IHn [_; _; _; _; _; _; _; _] tl _ eq_refl)|]. intros [p i]. cbn [fst snd].
      symmetry. etransitivity; [apply (headers_fragment_iff _ n _ _ _ _ _ _ _ _ tl)|by rewrite decide_True].
    + unfold v6_end. cbn [next_header walk_l4 non_first_fragment negb]. rewrite andb_false_r. ostep.
      apply accepts_ok; [by apply headers_fragment_iff; rewrite decide_False|].
      intros [p i] Hh. cbn [fst snd] in Hh. apply headers_fragment_iff in Hh. rewrite decide_False in Hh by done. by destruct Hh as [-> ->].
  - rewrite (v6_turn_option packet_len Hlen) by (done || by apply option_header_spec).
    destruct rest as [|next [|ext tl]].
    1,2: apply accepts_none; intros [p i] H; apply headers_long in H as (? & ? & ? & ? & ? & ?); [done|done|apply Hr].
    case_decide as Hs; ostep.
    + apply accepts_none; intros [p i] H; apply headers_long in H as (? & ? & ? & ? & ? & Hx); [|done|apply Hr].
      simplify_eq. specialize (Hx H44). lia.
    + destruct (split_bytes (Z.to_nat (extension_len nh ext - 2)) tl) as (body & tl' & -> & Hp).
      { rewrite !zlen_cons in Hs. pose proof (zlen_nonneg tl). lia. }
      assert (0 <= ext) as Hx by (destruct Hr as [Hb _]; do 2 (apply Forall_cons in Hb as [? Hb]); unfold u8_ok in *; lia).
      apply (extension_dec_len nh) in Hx.
      assert (2 + zlen body = extension_len nh ext) as Hl by (unfold zlen; lia).
      specialize (IHn ([next; ext] ++ body) tl' next eq_refl).
      replace (zlen ([next; ext] ++ body)) with (extension_len nh ext) in IHn by (rewrite zlen_app; done).
      eapply accepts_iff; [exact IHn|]. intros [p i]. cbn [fst snd].
      symmetry. by apply (headers_option_iff _ n nh next ext body tl').
Qed.

(** ** The IP headers *)

Lemma be_val_u16 a b : u8_ok a → u8_ok b → u16_ok (be_val [a; b]).
Proof. unfold u8_ok, u16_ok. rewrite be_val_2. lia. Qed.

Lemma slice_min {E} (pre rest : bytes) t :
  zlen pre <= t →
  slice (E := E) (pre ++ rest) (zlen pre) (Z.min t (zlen (pre ++ rest))) =
  Ok (take (Z.to_nat (t - zlen pre)) rest).
Proof.
  intros Ht. pose proof (zlen_nonneg rest). pose proof (zlen_nonneg pre).
  rewrite <- (take_drop (Z.to_nat (t - zlen pre)) rest) at 1.
  apply slice_mid; [done|]. rewrite zlen_app. unfold zlen in *. rewrite length_take. lia.
Qed.

Lemma parse_ipv4_eq b0 b1 b2 b3 b4 b5 b6 b7 b8 b9 b10 b11 b12 b13 b14 b15 b16 b17 b18 b19 rest wire :
  let data := [b0; b1; b2; b3; b4; b5; b6; b7; b8; b9; b10; b11; b12; b13; b14; b15; b16; b17; b18; b19] ++ rest in
  let ihl := b0 mod 16 * 4 in
  let total := be_val [b2; b3] in
  parse_ipv4 data wire =
  (_ ← fail_if (negb (b0 / 16 =? 4)) tt;
   _ ← fail_if ((ihl <? 20) || (20 + zlen rest <? ihl)) tt;
   _ ← fail_if ((total <? ihl) || (wire <? total)) tt;
   l4 ← (if be_val [b6; b7] mod 8192 =? 0
         then payload ← slice data ihl (Z.min total (20 + zlen rest)); parse_l4 b9 payload (total - ihl)
         else Ok L4Info_default);
   Ok (event_of (V4 [b12; b13; b14; b15]) (V4 [b16; b17; b18; b19]) b9 (as_u32 total) l4)).
Proof.
  intros data ihl total. unfold parse_ipv4.
  replace (zlen data) with (20 + zlen rest) by (unfold data; by rewrite zlen_app).
  pose proof (zlen_nonneg rest). rewrite (proj2 (Z.ltb_ge _ _)) by lia. ostep.
  assert (slice data 12 16 = Ok (E := unit) [b12; b13; b14; b15]) as ->
    by exact (slice_mid [b0; b1; b2; b3; b4; b5; b6; b7; b8; b9; b10; b11] [b12; b13; b14; b15] ([b16; b17; b18; b19] ++ rest) 12 16 eq_refl eq_refl).
  assert (slice data 16 20 = Ok (E := unit) [b16; b17; b18; b19]) as ->
    by exact (slice_mid [b0; b1; b2; b3; b4; b5; b6; b7; b8; b9; b10; b11; b12; b13; b14; b15] [b16; b17; b18; b19] rest 16 20 eq_refl eq_refl).
  unfold ihl. rewrite <- land_15, <- shiftr_4, <- land_8191. done.
Qed.

Lemma ipv4_packet_iff b0 b1 b2 b3 b4 b5 b6 b7 b8 b9 b10 b11 b12 b13 b14 b15 b16 b17 b18 b19 rest wire e :
  let ihl := b0 mod 16 * 4 in
  let total := be_val [b2; b3] in
  ipv4_packet wire
    ([b0; b1; b2; b3; b4; b5; b6; b7; b8; b9; b10; b11; b12; b13; b14; b15; b16; b17; b18; b19] ++ rest) e ↔
  b0 / 16 = 4 ∧ 20 <= ihl <= 20 + zlen rest ∧ ihl <= total <= wire ∧
  ∃ l4, (if decide (be_val [b6; b7] mod 8192 = 0)
         then transport b9 (take (Z.to_nat (total - ihl)) (drop (Z.to_nat (ihl - 20)) rest)) (total - ihl) l4
         else l4 = L4Info_default) ∧
    e = event_of (V4 [b12; b13; b14; b15]) (V4 [b16; b17; b18; b19]) b9 total l4.
Proof.
  intros ihl total. split.
  - intros H. inversion H; subst.
    repeat match goal with Hl : length ?l = S _ |- _ => explode l Hl end. simplify_list_eq.
    rewrite zlen_app. pose proof (zlen_nonneg payload). pose proof (zlen_nonneg options).
    split; [done|]. split; [subst ihl; lia|]. split; [done|]. eexists. split; [|done].
    replace (Z.to_nat (ihl - 20)) with (length options) by (unfold zlen in *; lia).
    by rewrite drop_app_length.
  - intros (Hv & Hi & Ht & l4 & Hl & ->). rewrite <- (take_drop (Z.to_nat (ihl - 20)) rest).
    apply (ipv4_intro wire b0 b1 b2 b3 [b4; b5] b6 b7 b8 b9 [b10; b11] [b12; b13; b14; b15] [b16; b17; b18; b19]);
      try done. unfold zlen in *. rewrite length_take. lia.
Qed.

Lemma parse_ipv4_spec data wire : bytes_ok data → accepts (parse_ipv4 data wire) (ipv4_packet wire data).
Proof.
  intros Hok. destruct (Z.lt_ge_cases (zlen data) 20) as [Hs|Hs].
  { unfold parse_ipv4. rewrite (proj2 (Z.ltb_lt _ _)) by done. apply accepts_none.
    intros e H. inversion H; subst. unfold zlen in Hs. rewrite !length_app in Hs. cbn [length] in Hs. lia. }
  destruct (split_bytes 20 data) as (hd & rest & -> & Hp); [done|]. explode hd Hp.
  eapply accepts_iff; [|intros e; symmetry; apply ipv4_packet_iff]. rewrite parse_ipv4_eq. cbv zeta.
  match goal with |- context [as_u32 (be_val [?a; ?b])] =>
    assert (u16_ok (be_val [a; b])) as Ht by
      (unfold bytes_ok in Hok; cbn [app] in Hok; rewrite !Forall_cons in Hok; apply be_val_u16; tauto);
    set (total := be_val [a; b]) in * end.
  match goal with |- context [negb (?b / 16 =? 4)] => set (ihl := b mod 16 * 4); set (ver := b / 16) end.
  pose proof (zlen_nonneg rest). unfold u16_ok in Ht.
  replace (as_u32 total) with total by (unfold as_u32; by rewrite Z.mod_small by lia).
  match goal with |- accepts (_ ← fail_if ?b _; _) _ => destruct b eqn:E end; ostep;
    [apply accepts_none; intros e (? & _); lia|].
  match goal with |- accepts (_ ← fail_if ?b _; _) _ => destruct b eqn:E1 end; ostep;
    [apply accepts_none; intros e (_ & ? & _); lia|].
  match goal with |- accepts (_ ← fail_if ?b _; _) _ => destruct b eqn:E2 end; ostep;
    [apply accepts_none; intros e (_ & _ & ? & _); lia|].
  match goal with |- context [if ?f mod 8192 =? 0 then _ else _] => destruct (Z.eqb_spec (f mod 8192) 0) as [Ef|Ef] end.
  - match goal with |- context [slice (?l ++ rest)] => set (pre := l ++ take (Z.to_nat (ihl - 20)) rest);
      replace (l ++ rest) with (pre ++ drop (Z.to_nat (ihl - 20)) rest)
        by (unfold pre; by rewrite <- app_assoc, take_drop) end.
    assert (zlen pre = ihl) as Hpre by (unfold pre, zlen in *; rewrite length_app, length_take; cbn [length]; lia).
    assert (zlen rest = zlen (take (Z.to_nat (ihl - 20)) rest) + zlen (drop (Z.to_nat (ihl - 20)) rest)) as Hd
      by by rewrite <- zlen_app, take_drop.
    assert (20 + zlen rest = zlen (pre ++ drop (Z.to_nat (ihl - 20)) rest)) as Hz
      by (rewrite zlen_app; unfold zlen in *; rewrite length_take in *; lia).
    rewrite Hz.
    pose proof (slice_min (E := unit) pre (drop (Z.to_nat (ihl - 20)) rest) total) as Hsl.
    rewrite Hpre in Hsl. rewrite Hsl by lia. ostep.
    eapply accepts_iff; [apply accepts_map, parse_l4_spec|]. intros e.
    split; [intros (l4 & ? & ->)|intros (_ & _ & _ & l4 & Hl & ->)].
    + split; [lia|]. split; [lia|]. split; [lia|]. exists l4. by rewrite decide_True.
    + exists l4. by rewrite decide_True in Hl.
  - ostep. apply accepts_ok.
    + repeat (split; [lia|]). eexists. rewrite decide_False by done. done.
    + intros e (_ & _ & _ & l4 & Hl & ->). rewrite decide_False in Hl by done. by subst.
Qed.

Lemma parse_ipv6_eq b0 b1 b2 b3 b4 b5 b6 b7 src dst body wire :
  length src = 16%nat → length dst = 16%nat →
  let data := [b0; b1; b2; b3; b4; b5; b6; b7] ++ src ++ dst ++ body in
  let payload_len := be_val [b4; b5] in
  parse_ipv6 data wire =
  (_ ← fail_if (negb (b0 / 16 =? 6)) tt;
   _ ← fail_if (payload_len =? 0) tt;
   packet_len ← checked_add 40 payload_len;
   _ ← fail_if (wire <? packet_len) tt;
   x ← (w ← v6_walk 6 data packet_len (mkWalk b6 40 L4Info_default false); v6_end w);
   Ok (event_of (V6 src) (V6 dst) x.1 (as_u32 packet_len) x.2)).
Proof.
  intros Hs Hd data payload_len. unfold parse_ipv6.
  replace (zlen data) with (40 + zlen body) by (unfold data, zlen; rewrite !length_app, Hs, Hd; cbn [length]; lia).
  pose proof (zlen_nonneg body). rewrite (proj2 (Z.ltb_ge _ _)) by lia. ostep.
  rewrite <- shiftr_4.
  assert (slice data 8 24 = Ok (E := unit) src) as ->
    by (apply (slice_mid [b0; b1; b2; b3; b4; b5; b6; b7] src (dst ++ body)); [done|unfold zlen; by rewrite Hs]).
  assert (slice data 24 40 = Ok (E := unit) dst) as ->.
  { replace data with (([b0; b1; b2; b3; b4; b5; b6; b7] ++ src) ++ dst ++ body) by (unfold data; by rewrite <- app_assoc).
    apply slice_mid; unfold zlen; rewrite ?length_app, ?Hs, ?Hd; done. }
  change (vec_get data 0) with (Ok (E := unit) b0). change (vec_get data 6) with (Ok (E := unit) b6).
  change (be16_at data 4) with (Ok (E := unit) payload_len). ostep.
  destruct (negb _); [done|]. ostep. destruct (payload_len =? 0); [done|]. ostep.
  destruct (checked_add 40 payload_len) as [packet_len| |]; [|done|done]. ostep.
  destruct (wire <? packet_len); [done|]. ostep.
  destruct (v6_walk _ _ _ _) as [w| |]; [|done|done]. ostep. unfold v6_end. by destruct (fail_if _ _).
Qed.

Lemma ipv6_packet_iff lim b0 b1 b2 b3 b4 b5 b6 b7 src dst body wire e :
  length src = 16%nat → length dst = 16%nat →
  let payload_len := be_val [b4; b5] in
  ipv6_packet lim wire ([b0; b1; b2; b3; b4; b5; b6; b7] ++ src ++ dst ++ body) e ↔
  b0 / 16 = 6 ∧ 0 < payload_len ∧ 40 + payload_len <= wire ∧
  ∃ x, headers lim 6 b6 (take (Z.to_nat payload_len) body) payload_len x.1 x.2 ∧
    e = event_of (V6 src) (V6 dst) x.1 (40 + payload_len) x.2.
Proof.
  intros Hs Hd payload_len. split.
  - intros H. inversion H; subst. simplify_list_eq.
    do 3 (split; [done|]). by exists (proto, l4).
  - intros (Hv & Hi & Ht & [p l4] & Hl & ->). by constructor.
Qed.

Lemma parse_ipv6_spec data wire : bytes_ok data → accepts (parse_ipv6 data wire) (ipv6_packet skipped wire data).
Proof.
  intros Hok. destruct (Z.lt_ge_cases (zlen data) 40) as [Hs|Hs].
  { unfold parse_ipv6. rewrite (proj2 (Z.ltb_lt _ _)) by done. apply accepts_none.
    intros e H. inversion H; subst. unfold zlen in Hs. rewrite !length_app in Hs. cbn [length] in Hs. lia. }
  destruct (split_bytes 8 data) as (hd & rest & -> & Hp); [lia|].
  assert (32 <= zlen rest) as Hr by (rewrite zlen_app in Hs; unfold zlen in *; lia).
  destruct (split_bytes 16 rest) as (src & rest' & -> & Hsrc); [lia|].
  destruct (split_bytes 16 rest') as (dst & body & -> & Hdst); [rewrite zlen_app in Hr; unfold zlen in *; lia|].
  explode hd Hp. eapply accepts_iff; [|intros e; symmetry; by apply ipv6_packet_iff].
  rewrite parse_ipv6_eq by done. cbv zeta.
  match goal with |- context [be_val [?a; ?b]] =>
    assert (u16_ok (be_val [a; b])) as Ht by
      (unfold bytes_ok in Hok; cbn [app] in Hok; rewrite !Forall_cons in Hok; apply be_val_u16; tauto);
    set (plen := be_val [a; b]) in * end.
  unfold u16_ok in Ht.
  match goal with |- accepts (_ ← fail_if (negb ?b) _; _) _ => destruct b eqn:E end; ostep;
    [|apply accepts_none; intros e (? & _); lia].
  destruct (Z.eqb_spec plen 0) as [E0|E0]; ostep; [apply accepts_none; intros e (_ & ? & _); lia|].
  rewrite checked_add_small by lia. ostep.
  destruct (Z.ltb_spec wire (40 + plen)) as [Hw|Hw]; ostep; [apply accepts_none; intros e (_ & _ & ? & _); lia|].
  replace (as_u32 (40 + plen)) with (40 + plen) by (unfold as_u32; by rewrite Z.mod_small by lia).
  match goal with |- context [v6_walk 6 (?l ++ src ++ dst ++ body)] => set (pre := l ++ src ++ dst);
    replace (l ++ src ++ dst ++ body) with (pre ++ take (Z.to_nat plen) body ++ drop (Z.to_nat plen) body)
      by (unfold pre; by rewrite take_drop, <- !app_assoc) end.
  assert (zlen pre = 40) as Hpre by (unfold pre, zlen; rewrite !length_app, Hsrc, Hdst; done).
  pose proof (v6_walk_spec (40 + plen) 6 pre (take (Z.to_nat plen) body) (drop (Z.to_nat plen) body)) as Hw6.
  rewrite Hpre in Hw6. replace (40 + plen - 40) with plen in Hw6 by lia.
  eapply accepts_iff; [apply accepts_map, Hw6|].
  - lia.
  - split.
    + apply Forall_take. by do 3 (apply Forall_app in Hok as [_ Hok]).
    + rewrite !zlen_app, Hpre. unfold zlen. rewrite length_take, length_drop. lia.
  - intros e. split; [|intros (_ & _ & _ & H); exact H]. intros H. split; [by apply Z.eqb_eq|]. split; [lia|]. by split.
Qed.

(** ** The link layer *)

Lemma parse_l3_spec ethertype data wire :
  bytes_ok data → accepts (parse_l3 ethertype data wire) (network skipped wire ethertype data).
Proof.
  intros Hok. unfold parse_l3. destruct (Z.eqb_spec ethertype ETHERTYPE_IPV4) as [->|H4].
  { eapply accepts_iff; [by apply parse_ipv4_spec|]. intros e.
    split; [by constructor|]. intros H. by inversion H. }
  destruct (Z.eqb_spec ethertype ETHERTYPE_IPV6) as [->|H6].
  { eapply accepts_iff; [by apply parse_ipv6_spec|]. intros e.
    split; [by constructor|]. intros H. by inversion H. }
  apply accepts_none. intros e H. by inversion H.
Qed.

Lemma parse_ip_spec data wire :
  bytes_ok data → accepts (parse_ip data wire) (λ e, ∃ ethertype, network skipped wire ethertype data e).
Proof.
  intros Hok. unfold parse_ip.
  assert (∀ e, (∃ ethertype, network skipped wire ethertype data e) ↔ ipv4_packet wire data e ∨ ipv6_packet skipped wire data e) as Hn.
  { intros e. split; [intros [? H]; inversion H; auto|].
    intros [H|H]; eexists; [by apply network_ipv4|by apply network_ipv6]. }
  assert (∀ e, ipv4_packet wire data e → ∃ v, head data = Some v ∧ v / 16 = 4) as H4
    by (intros e H; inversion H; subst; eexists; by split).
  assert (∀ e, ipv6_packet skipped wire data e → ∃ v, head data = Some v ∧ v / 16 = 6) as H6
    by (intros e H; inversion H; subst; eexists; by split).
  destruct (head data) as [v|]; ostep.
  2: { apply accepts_none. intros e [H|H]%Hn; [by apply H4 in H as (? & ? & ?)|by apply H6 in H as (? & ? & ?)]. }
  rewrite shiftr_4.
  destruct (Z.eqb_spec (v / 16) 4) as [Ev|Ev]; [|destruct (Z.eqb_spec (v / 16) 6) as [Ev'|Ev']].
  - eapply accepts_iff; [by apply parse_ipv4_spec|]. intros e. rewrite Hn. split; [auto|].
    intros [H|H]; [done|]. apply H6 in H as (? & [= <-] & ?). congruence.
  - eapply accepts_iff; [by apply parse_ipv6_spec|]. intros e. rewrite Hn. split; [auto|].
    intros [H|H]; [|done]. apply H4 in H as (? & [= <-] & ?). congruence.
  - apply accepts_none. intros e [H|H]%Hn; [apply H4 in H as (? & [= <-] & ?)|apply H6 in H as (? & [= <-] & ?)]; done.
Qed.

(** What follows the tags already unwrapped. *)
Definition tagged (lim : Z → bytes → Z → L4Info → Prop) (n : nat) (wire off : Z) (l : bytes) (e : FlowEvent) : Prop :=
  ∃ tags t0 t1 payload, l = concat tags ++ [t0; t1] ++ payload ∧ Forall is_tag tags ∧ (length tags <= n)%nat ∧
    network lim (wire - (off + 4 * zlen tags)) (be_val [t0; t1]) payload e.

Lemma tagged_untagged lim n wire off a b rest e :
  n = 0%nat ∨ be_val [a; b] ∉ [ETHERTYPE_VLAN; ETHERTYPE_QINQ] →
  tagged lim n wire off (a :: b :: rest) e ↔ network lim (wire - off) (be_val [a; b]) rest e.
Proof.
  intros Hn. split.
  - intros (tags & t0 & t1 & payload & Hl & Ht & Hlen & He). destruct tags as [|tag tags].
    + cbn in Hl. simplify_eq. by replace (wire - off) with (wire - (off + 4 * zlen (@nil bytes))) by (change (zlen (@nil bytes)) with 0; lia).
    + apply Forall_cons in Ht as [(? & ? & ? & ? & -> & Hv) _]. cbn in Hl, Hlen. simplify_eq. destruct Hn; [lia|done].
  - intros He. exists [], a, b, rest. split; [done|]. split; [done|]. split; [cbn; lia|].
    by replace (wire - (off + 4 * zlen (@nil bytes))) with (wire - off) by (change (zlen (@nil bytes)) with 0; lia).
Qed.

Lemma tagged_tagged lim n wire off a b rest e :
  be_val [a; b] ∈ [ETHERTYPE_VLAN; ETHERTYPE_QINQ] →
  tagged lim (S n) wire off (a :: b :: rest) e ↔
  ∃ c d a' b' rest', rest = c :: d :: a' :: b' :: rest' ∧ tagged lim n wire (off + 4) (a' :: b' :: rest') e.
Proof.
  intros Hv. split.
  - intros (tags & t0 & t1 & payload & Hl & Ht & Hlen & He). destruct tags as [|tag tags].
    + exfalso. cbn in Hl. simplify_eq. inversion He as [? ? ? E|? ? ? E]; rewrite <- E in Hv; set_solver.
    + apply Forall_cons in Ht as [(? & ? & c & d & -> & _) Ht]. cbn in Hl. simplify_eq.
      assert (∃ a' b' rest', concat tags ++ t0 :: t1 :: payload = a' :: b' :: rest') as (a' & b' & rest' & E).
      { destruct tags as [|tag tags]; [by exists t0, t1, payload|].
        apply Forall_cons in Ht as [(? & ? & ? & ? & -> & _) Ht]. cbn. eauto. }
      rewrite E. exists c, d, a', b', rest'. split; [done|]. exists tags, t0, t1, payload. split; [done|].
      split; [done|]. split; [cbn in Hlen; lia|]. rewrite zlen_cons in He.
      by replace (off + 4 + 4 * zlen tags) with (off + 4 * (1 + zlen tags)) by lia.
  - intros (c & d & a' & b' & rest' & -> & tags & t0 & t1 & payload & Hl & Ht & Hlen & He).
    exists ([a; b; c; d] :: tags), t0, t1, payload. split; [cbn; by rewrite Hl|].
    split; [constructor; [by exists a, b, c, d|done]|]. split; [cbn; lia|]. rewrite zlen_cons.
    by replace (off + 4 * (1 + zlen tags)) with (off + 4 + 4 * zlen tags) by lia.
Qed.

Lemma vlan_untagged data ethertype off l :
  ethertype ∉ [ETHERTYPE_VLAN; ETHERTYPE_QINQ] → foldM (vlan_tag data) (ethertype, off) l = Ok (ethertype, off).
Proof.
  intros Hn. induction l as [|i l IH]; [done|]. cbn [foldM vlan_tag].
  destruct (Z.eqb_spec ethertype ETHERTYPE_VLAN); [set_solver|].
  destruct (Z.eqb_spec ethertype ETHERTYPE_QINQ); [set_solver|]. exact IH.
Qed.

Lemma vlan_loop wire l pre a b rest :
  bytes_ok rest → zlen (pre ++ a :: b :: rest) <= wire →
  accepts
    ('(ethertype, offset) ← foldM (vlan_tag (pre ++ a :: b :: rest)) (be_val [a; b], zlen pre + 2) l;
     payload ← slice_from (pre ++ a :: b :: rest) offset;
     r ← checked_sub wire offset;
     parse_l3 ethertype payload r)
    (tagged skipped (length l) wire (zlen pre + 2) (a :: b :: rest)).
Proof.
  assert (∀ pre a b rest n, bytes_ok rest → zlen (pre ++ a :: b :: rest) <= wire →
    n = 0%nat ∨ be_val [a; b] ∉ [ETHERTYPE_VLAN; ETHERTYPE_QINQ] →
    accepts (payload ← slice_from (pre ++ a :: b :: rest) (zlen pre + 2);
             r ← checked_sub wire (zlen pre + 2); parse_l3 (be_val [a; b]) payload r)
      (tagged skipped n wire (zlen pre + 2) (a :: b :: rest))) as Hleaf.
  { clear. intros pre a b rest n Hok Hw Hn.
    rewrite zlen_app, !zlen_cons in Hw. pose proof (zlen_nonneg rest).
    replace (pre ++ a :: b :: rest) with ((pre ++ [a; b]) ++ rest) by by rewrite <- app_assoc.
    rewrite slice_end by (by rewrite zlen_app). ostep.
    unfold checked_sub. rewrite (proj2 (Z.ltb_ge _ _)) by lia. ostep.
    eapply accepts_iff; [by apply parse_l3_spec|]. intros e. symmetry. by apply tagged_untagged. }
  revert pre a b rest. induction l as [|i l IH]; intros pre a b rest Hok Hw.
  { cbn [foldM]. ostep. apply Hleaf; auto. }
  destruct (decide (be_val [a; b] ∈ [ETHERTYPE_VLAN; ETHERTYPE_QINQ])) as [Hv|Hv].
  2: { rewrite vlan_untagged by done. ostep. apply Hleaf; auto. }
  cbn [foldM vlan_tag].
  assert ((be_val [a; b] =? ETHERTYPE_VLAN) || (be_val [a; b] =? ETHERTYPE_QINQ) = true) as ->.
  { rewrite orb_true_iff, !Z.eqb_eq. set_solver. }
  rewrite zlen_app, !zlen_cons in *. cbn [length].
  destruct rest as [|c [|d [|a' [|b' rest']]]].
  1-4: rewrite ?zlen_cons, zlen_nil in *; rewrite (proj2 (Z.ltb_lt _ _)) by lia; ostep;
    apply accepts_none; intros e (? & ? & ? & ? & ? & ? & _)%tagged_tagged; done.
  rewrite !zlen_cons in *. pose proof (zlen_nonneg rest'). rewrite (proj2 (Z.ltb_ge _ _)) by lia. ostep.
  set (data := pre ++ a :: b :: c :: d :: a' :: b' :: rest').
  assert (be16_at data (zlen pre + 2 + 2) = Ok (be_val [a'; b'])) as ->.
  { unfold be16_at, data. rewrite <- (app_nil_r (a :: b :: c :: d :: a' :: b' :: rest')).
    rewrite <- !Z.add_assoc. rewrite (vec_get_mid pre _ [] (2 + 2) a'), (vec_get_mid pre _ [] (2 + (2 + 1)) b') by done. done. }
  ostep. specialize (IH (pre ++ [a; b; c; d]) a' b' rest').
  replace ((pre ++ [a; b; c; d]) ++ a' :: b' :: rest') with data in IH by (unfold data; by rewrite <- app_assoc).
  rewrite zlen_app in IH. change (zlen [a; b; c; d]) with 4 in IH.
  replace (zlen pre + 4 + 2) with (zlen pre + 2 + 4) in IH by lia.
  eapply accepts_iff; [apply IH|].
  - by do 4 (apply Forall_cons in Hok as [_ Hok]).
  - unfold data. rewrite zlen_app, !zlen_cons. lia.
  - intros e. rewrite tagged_tagged by done. split; [intros Ht; by eexists _, _, _, _, _|].
    intros (? & ? & ? & ? & ? & ? & Ht). by simplify_eq.
Qed.

Lemma frame_ethernet_iff lim wire macs l e :
  length macs = 12%nat → frame lim wire ETHERNET (macs ++ l) e ↔ tagged lim 2 wire 14 l e.
Proof.
  intros Hm. split.
  - intros H. inversion H; subst.
    match goal with Heq : ?h ++ _ = macs ++ _ |- _ => apply app_inj_1 in Heq as [_ <-]; [|congruence] end.
    by exists tags, t0, t1, payload.
  - intros (tags & t0 & t1 & payload & -> & Ht & Hl & He). by constructor.
Qed.

Lemma parse_ethernet_spec data wire :
  bytes_ok data → zlen data <= wire → accepts (parse_ethernet data wire) (frame skipped wire ETHERNET data).
Proof.
  intros Hok Hw. unfold parse_ethernet.
  destruct (Z.ltb_spec (zlen data) 14) as [Hs|Hs]; ostep.
  { apply accepts_none. intros e H. inversion H; subst.
    unfold zlen in Hs. rewrite !length_app in Hs. cbn [length] in Hs. lia. }
  destruct (split_bytes 12 data) as (macs & l & -> & Hm); [lia|].
  assert (zlen macs = 12) as Hz by (unfold zlen; by rewrite Hm).
  destruct l as [|a [|b rest]]; [rewrite app_nil_r in *; lia|rewrite zlen_app, zlen_cons, zlen_nil in Hs; lia|].
  assert (be16_at (macs ++ a :: b :: rest) 12 = Ok (be_val [a; b])) as ->.
  { unfold be16_at. rewrite <- (app_nil_r (a :: b :: rest)), <- Hz.
    rewrite <- (Z.add_0_r (zlen macs)) at 1. rewrite (vec_get_mid macs _ [] 0 a), (vec_get_mid macs _ [] 1 b) by done. done. }
  ostep. apply Forall_app in Hok as [_ Hok]. do 2 (apply Forall_cons in Hok as [_ Hok]).
  pose proof (vlan_loop wire (seq 0 2) macs a b rest Hok Hw) as H. rewrite Hz in H.
  eapply accepts_iff; [exact H|]. intros e. by rewrite frame_ethernet_iff.
Qed.

Lemma parse_packet_with_wire_len_spec link data wire :
  bytes_ok data →
  accepts (parse_packet_with_wire_len link data wire) (λ e, zlen data <= wire ∧ frame skipped wire link data e).
Proof.
  intros Hok. unfold parse_packet_with_wire_len.
  destruct (Z.ltb_spec wire (zlen data)) as [Hw|Hw]; ostep; [apply accepts_none; intros e [? _]; lia|].
  assert (∀ P : FlowEvent → Prop, (∀ m : parse FlowEvent, accepts m P → accepts m (λ e, zlen data <= wire ∧ P e))) as Hd
    by (intros P m Hm; eapply accepts_iff; [exact Hm|tauto]).
  apply Hd. destruct (Z.eqb_spec link ETHERNET) as [->|He]; [by apply parse_ethernet_spec|].
  destruct (Z.eqb_spec link RAW_IP) as [->|Hr].
  { eapply accepts_iff; [by apply parse_ip_spec|]. intros e. split.
    - intros [ty H]. by apply (frame_raw _ _ ty).
    - intros H. inversion H as [|ty|]; subst. by exists ty. }
  destruct (Z.eqb_spec link LINUX_SLL) as [->|Hl].
  2: { apply accepts_none. intros e H. inversion H; subst; done. }
  destruct (Z.ltb_spec (zlen data) 16) as [Hs|Hs]; ostep.
  { apply accepts_none. intros e H. inversion H; subst.
    unfold zlen in Hs. rewrite !length_app in Hs. cbn [length] in Hs. lia. }
  destruct (split_bytes 14 data) as (hd & l & -> & Hm); [lia|].
  assert (zlen hd = 14) as Hz by (unfold zlen; by rewrite Hm).
  destruct l as [|a [|b rest]]; [rewrite app_nil_r in *; lia|rewrite zlen_app, zlen_cons, zlen_nil in Hs; lia|].
  assert (be16_at (hd ++ a :: b :: rest) 14 = Ok (be_val [a; b])) as ->.
  { unfold be16_at. rewrite <- (app_nil_r (a :: b :: rest)), <- Hz.
    rewrite <- (Z.add_0_r (zlen hd)) at 1. rewrite (vec_get_mid hd _ [] 0 a), (vec_get_mid hd _ [] 1 b) by done. done. }
  ostep. replace (hd ++ a :: b :: rest) with ((hd ++ [a; b]) ++ rest) by by rewrite <- app_assoc.
  rewrite slice_end by (rewrite zlen_app, Hz; done). ostep.
  unfold checked_sub. rewrite (proj2 (Z.ltb_ge _ _)) by lia. ostep.
  apply Forall_app in Hok as [_ Hok]. do 2 (apply Forall_cons in Hok as [_ Hok]).
  eapply accepts_iff; [by apply parse_l3_spec|]. intros e. rewrite <- app_assoc. split.
  - intros He'. by apply (frame_sll _ wire hd a b).
  - intros H. inversion H; subst.
    match goal with Heq : ?h ++ _ = hd ++ _ |- _ => apply app_inj_1 in Heq as [_ Heq]; [by simplify_eq|congruence] end.
Qed.

(** ** What the events hold *)

Definition l4_ok (i : L4Info) : Prop :=
  u16_ok (l4_src_port i) ∧ u16_ok (l4_dst_port i) ∧ u8_ok (l4_tcp_flags i).

Lemma l4_default_ok : l4_ok L4Info_default.
Proof. split_and!; by range_tac. Qed.
#[local] Hint Resolve l4_default_ok : core.

(** Take a [bytes_ok] of appends and conses apart. *)
Ltac bytes_inv H :=
  unfold bytes_ok in H; cbn [app] in H;
  match type of H with
    | _ ∧ _ => let H' := fresh H in destruct H as [H' H]; bytes_inv H'; bytes_inv H
    | Forall _ (_ :: _) => apply Forall_cons in H; bytes_inv H
    | Forall _ (_ ++ _) => apply Forall_app in H; bytes_inv H
    | _ => idtac
    end.

Lemma transport_ok p data wire i : bytes_ok data → transport p data wire i → l4_ok i.
Proof.
  intros Hok H. destruct H; [| |done]; bytes_inv Hok; split_and!; cbn [l4_src_port l4_dst_port l4_tcp_flags];
    try (apply be_val_u16; done); [done|by range_tac].
Qed.

Definition limit_ok (lim : Z → bytes → Z → L4Info → Prop) : Prop :=
  ∀ nh data wire l4, bytes_ok data → lim nh data wire l4 → l4_ok l4.

Lemma skipped_ok : limit_ok skipped.
Proof. by intros nh data wire l4 _ ->. Qed.

Lemma headers_ok lim n nh data wire p i :
  limit_ok lim → u8_ok nh → bytes_ok data → headers lim n nh data wire p i → u8_ok p ∧ l4_ok i.
Proof.
  intros Hlim Hn Hok H. induction H as [| |n nh next ext body data wire p i _ _ _ _ IH|n next r f0 f1 id data wire p i _ _ _ IH|].
  - split; [done|by eapply transport_ok].
  - split; [done|by eapply Hlim].
  - bytes_inv Hok. apply IH; unfold bytes_ok; done.
  - bytes_inv Hok. apply IH; unfold bytes_ok; done.
  - bytes_inv Hok. split; [done|done].
Qed.

Lemma event_of_ok s d p len i :
  ip_ok s → ip_ok d → u8_ok p → 0 <= len < 65576 → l4_ok i → event_ok (event_of s d p len i).
Proof. intros ? ? ? ? (? & ? & ?).
  split; cbn [event_of ts_nanos src_ip dst_ip src_port dst_port protocol ev_bytes packets tcp_flags interface_index node_id];
    first [assumption|unfold u64_ok, u32_ok; lia].
Qed.

Lemma network_ok lim wire ty data e :
  limit_ok lim → bytes_ok data → network lim wire ty data e → event_ok e ∧ 20 <= ev_bytes e <= wire.
Proof.
  intros Hlim Hok Hn. inversion Hn as [? ? H|? ? H]; subst; inversion H; subst.
  - bytes_inv Hok. pose proof (be_val_u16 t0 t1 ltac:(done) ltac:(done)) as Hu. unfold u16_ok in Hu.
    pose proof (zlen_nonneg options). split; [|cbn; lia].
    apply event_of_ok; [split; [unfold bytes_ok; done|done]..|done|lia|].
    case_decide; [|by subst]. eapply transport_ok; [|done]. apply Forall_take. unfold bytes_ok; done.
  - bytes_inv Hok. pose proof (be_val_u16 p0 p1 ltac:(done) ltac:(done)) as Hu. unfold u16_ok in Hu.
    split; [|cbn; lia].
    match goal with Hh : headers lim _ _ _ _ _ _ |- _ =>
      apply headers_ok in Hh as [? ?]; [|done|done|apply Forall_take; unfold bytes_ok; done] end.
    apply event_of_ok; [split; [unfold bytes_ok; done|done]..|done|lia|done].
Qed.

Lemma frame_ok lim wire link data e :
  limit_ok lim → bytes_ok data → frame lim wire link data e → event_ok e ∧ 20 <= ev_bytes e <= wire.
Proof.
  intros Hlim Hok H. inversion H as [macs tags t0 t1 payload ? ? ? ? Hn|ty ? ? Hn|hd t0 t1 payload ? ? Hn]; subst.
  - bytes_inv Hok. apply network_ok in Hn as [? ?]; [|done|unfold bytes_ok; done]. pose proof (zlen_nonneg tags). split; [done|lia].
  - by apply network_ok in Hn.
  - bytes_inv Hok. apply network_ok in Hn as [? ?]; [|done|unfold bytes_ok; done]. split; [done|lia].
Qed.

Lemma packet_parser_total link data wire :
  bytes_ok data →
  no_panic (parse_packet_with_wire_len link data wire) ∧
  ∀ e, parse_packet_with_wire_len link data wire = Ok e → event_ok e ∧ 20 <= ev_bytes e <= wire.
Proof.
  intros Hok. destruct (parse_packet_with_wire_len_spec link data wire Hok) as [Hn H].
  split; [done|]. intros e [_ Hf]%H. by apply (frame_ok skipped wire link data e skipped_ok).
Qed.

(** [C24] The packet parser is exact.  On any bytes, of any link type and any wire
    length, it does not panic; it returns an event exactly when the bytes are a
    frame of the layout, and then that frame's event; and the event is well
    formed and counts no more bytes than the frame had on the wire, whatever
    lengths the headers declare. *)
Theorem packet_parser_exact link data wire :
  bytes_ok data →
  no_panic (parse_packet_with_wire_len link data wire) ∧
  ∀ e, (parse_packet_with_wire_len link data wire = Ok e ↔ zlen data <= wire ∧ frame skipped wire link data e) ∧
    (parse_packet_with_wire_len link data wire = Ok e → event_ok e ∧ ev_bytes e <= wire).
Proof.
  intros Hok. destruct (packet_parser_total link data wire Hok) as [Hn He].
  split; [done|]. intros e. split; [by apply parse_packet_with_wire_len_spec|]. intros H. apply He in H as [? ?].
  split; [done|lia].
Qed.

(** A SYN|ACK over IPv4 in a tagged frame, cut after its TCP header. *)
Definition sample_frame : bytes :=
  [0; 0; 0; 0; 0; 0; 0; 0; 0; 0; 0; 0; 129; 0; 0; 100; 8; 0;
   69; 0; 5; 220; 0; 0; 0; 0; 64; 6; 0; 0; 192; 168; 1; 2; 10; 0; 0; 9;
   48; 57; 1; 187; 0; 0; 0; 0; 0; 0; 0; 0; 80; 18; 0; 0; 0; 0; 0; 0].

Lemma packet_parser_exact_witness :
  parse_packet_with_wire_len ETHERNET sample_frame 1518 =
    Ok (event_of (V4 [192; 168; 1; 2]) (V4 [10; 0; 0; 9]) 6 1500 (mkL4 12345 443 18)) ∧
  frame skipped 1518 ETHERNET sample_frame
    (event_of (V4 [192; 168; 1; 2]) (V4 [10; 0; 0; 9]) 6 1500 (mkL4 12345 443 18)).
Proof.
  assert (parse_packet_with_wire_len ETHERNET sample_frame 1518 =
    Ok (event_of (V4 [192; 168; 1; 2]) (V4 [10; 0; 0; 9]) 6 1500 (mkL4 12345 443 18))) as E by (vm_compute; reflexivity).
  split; [exact E|].
  assert (bytes_ok sample_frame) as Hok by (apply (bool_decide_unpack _); vm_compute; exact I).
  exact (proj2 (proj1 (proj1 (proj2 (packet_parser_exact ETHERNET sample_frame 1518 Hok) _)) E)).
Defined.

(** ** Layouts that differ at the limit *)

Section limits.
Context (lim lim' : Z → bytes → Z → L4Info → Prop).

(** A derivation either carries over to another limit or rests on its own. *)
Lemma headers_change n nh data wire p i :
  headers lim n nh data wire p i →
  headers lim' n nh data wire p i ∨ ∃ nh' data' wire', lim nh' data' wire' i.
Proof.
  induction 1 as [| | ? ? ? ? ? ? ? ? ? ? ? ? ? [IH|IH]| ? ? ? ? ? ? ? ? ? ? ? ? ? [IH|IH]|];
    eauto using headers, headers_transport.
Qed.

Lemma network_change wire ty data e :
  network lim wire ty data e →
  network lim' wire ty data e ∨
  ∃ s d p len l4 nh' data' wire', e = event_of s d p len l4 ∧ lim nh' data' wire' l4.
Proof.
  intros [data' e' H|data' e' H]; [left; by constructor|]. destruct H as [? ? ? ? ? ? ? ? ? ? ? ? ? ? ? ? ? ? Hh].
  apply headers_change in Hh as [Hh|(? & ? & ? & Hh)].
  - left. constructor. by constructor.
  - right. by eexists _, _, _, _, _, _, _, _.
Qed.

Lemma frame_change wire link data e :
  frame lim wire link data e →
  frame lim' wire link data e ∨
  ∃ s d p len l4 nh' data' wire', e = event_of s d p len l4 ∧ lim nh' data' wire' l4.
Proof.
  intros [macs tags t0 t1 payload e' ? ? ? [H|H]%network_change|ty data' e' [H|H]%network_change|
    hd t0 t1 payload e' ? [H|H]%network_change]; try by right.
  - left. by constructor.
  - left. by apply (frame_raw _ _ ty).
  - left. by constructor.
Qed.
End limits.

Lemma frame_mono lim lim' wire link data e :
  (∀ nh data wire l4, lim nh data wire l4 → lim' nh data wire l4) →
  frame lim wire link data e → frame lim' wire link data e.
Proof.
  intros Hm. assert (∀ n nh data wire p i, headers lim n nh data wire p i → headers lim' n nh data wire p i) as Hh.
  { induction 1; eauto using headers, headers_transport. }
  assert (∀ wire ty data e, network lim wire ty data e → network lim' wire ty data e) as Hn.
  { intros w ty d e' [? ? H|? ? H]; [by constructor|]. constructor. destruct H. constructor; auto. }
  intros [macs tags t0 t1 payload e' ? ? ? H%Hn|ty data' e' H%Hn|hd t0 t1 payload e' ? H%Hn].
  - by constructor.
  - by apply (frame_raw _ _ ty).
  - by constructor.
Qed.

Lemma network_event lim wire ty data e :
  network lim wire ty data e → ∃ s d p len l4, e = event_of s d p len l4 ∧ (∃ o o', s = V4 o ∧ d = V4 o' ∨ s = V6 o ∧ d = V6 o').
Proof.
  intros [? ? H|? ? H]; destruct H; eexists _, _, _, _, _; (split; [done|]); eexists _, _; auto.
Qed.

Lemma frame_event lim wire link data e :
  frame lim wire link data e → ∃ s d p len l4, e = event_of s d p len l4 ∧ (∃ o o', s = V4 o ∧ d = V4 o' ∨ s = V6 o ∧ d = V6 o').
Proof. by intros [? ? ? ? ? ? ? ? ? H%network_event|? ? ? H%network_event|? ? ? ? ? ? H%network_event]. Qed.
