(* ===== verification/Pcap.v ===== *)
(** * Capture files
    (crates/flowsketch-pcap/src/lib.rs and writer.rs)

    The reader of classic pcap files, over any input: the bytes a [Read] will
    deliver and whether it then ends or fails.  The writer of synthetic traces,
    into a byte vector.

    Proved: reading terminates on every input without a panic, and reading back
    what the writer wrote returns the events of the packets, in order. *)
From S2P Require Import Prelude Bytes Event Packet.

(** ** The reader *)

Inductive PcapError :=
  | Io
  | BadMagic (m : Z)
  | Truncated
  | InvalidTimestamp.
#[export] Instance PcapError_eq_dec : EqDecision PcapError.
Proof. solve_decision. Defined.

(** What a [Read] delivers, and how it ends. *)
Inductive Ending := UnexpectedEof | IoFailure.
Record Stream := mkStream { available : bytes; ending : Ending }.

(** [read_exact]: fills the buffer or fails, the rest of the input consumed. *)
Definition read_exact (n : Z) : stm Stream Ending bytes := λ s,
  if n <=? zlen (available s)
  then (Ok (take (Z.to_nat n) (available s)),
        mkStream (drop (Z.to_nat n) (available s)) (ending s))
  else (Err (ending s), mkStream [] (ending s)).

Definition MAGIC_USEC : Z := 2712847316.
Definition MAGIC_NSEC : Z := 2712812621.

(** [u32::swap_bytes] *)
Definition swap_bytes (v : Z) : Z := be_val (le_bytes 4 v).

Record PcapReader := mkReader {
  reader : Stream;
  swapped : bool;
  subsec_to_nanos : Z;
  link_type : Z;
  packets_read : Z;
}.

(** [u32::from_le_bytes(b)], swapped in files of the other byte order. *)
Definition u32_at (swapped : bool) (b : bytes) : Z :=
  let v := le_val b in if swapped then swap_bytes v else v.

(** [b[i..i + 4]] of an array that is long enough. *)
Definition word (b : bytes) (i : Z) : bytes := take 4 (drop (Z.to_nat i) b).

Definition magic_kind (magic : Z) : outcome PcapError (bool * Z) :=
  if magic =? MAGIC_USEC then Ok (false, 1000)
  else if magic =? MAGIC_NSEC then Ok (false, 1)
  else if swap_bytes magic =? MAGIC_USEC then Ok (true, 1000)
  else if swap_bytes magic =? MAGIC_NSEC then Ok (true, 1)
  else Err (BadMagic magic).

Definition PcapReader_new (s : Stream) : outcome PcapError PcapReader :=
  match read_exact 24 s with
  | (Ok header, s) =>
      '(swapped, subsec_to_nanos) ← magic_kind (le_val (word header 0));
      Ok (mkReader s swapped subsec_to_nanos (u32_at swapped (word header 20)) 0)
  | (Err _, _) => Err Io
  | (Panic, _) => Panic
  end.

Definition with_reader (r : PcapReader) (s : Stream) : PcapReader :=
  mkReader s (swapped r) (subsec_to_nanos r) (link_type r) (packets_read r).
Definition count_packet (r : PcapReader) : PcapReader :=
  mkReader (reader r) (swapped r) (subsec_to_nanos r) (link_type r) (packets_read r +ʷ 1).

(** The fields of a record header: seconds, sub-seconds, captured and original
    length, checked. *)
Definition record_header (r : PcapReader) (rec : bytes) : outcome PcapError (Z * Z * Z) :=
  let ts_sec := u32_at (swapped r) (word rec 0) in
  let ts_subsec := u32_at (swapped r) (word rec 4) in
  let caplen := u32_at (swapped r) (word rec 8) in
  let origlen := u32_at (swapped r) (word rec 12) in
  _ ← fail_if (256 * 1024 <? caplen) Truncated;
  _ ← fail_if (origlen <? caplen) Truncated;
  _ ← fail_if (1000000000 / subsec_to_nanos r <=? ts_subsec) InvalidTimestamp;
  Ok (ts_sec *ʷ 1000000000 +ʷ ts_subsec *ʷ subsec_to_nanos r, caplen, origlen).

(** The next packet: its time, its length on the wire, the bytes captured. *)
Definition next_packet (r : PcapReader) : outcome PcapError (option (Z * Z * bytes)) * PcapReader :=
  match read_exact 16 (reader r) with
  | (Err UnexpectedEof, s) => (Ok None, with_reader r s)
  | (Err IoFailure, s) => (Err Io, with_reader r s)
  | (Panic, s) => (Panic, with_reader r s)
  | (Ok rec, s) =>
      let r := with_reader r s in
      match record_header r rec with
      | Ok (ts_nanos, caplen, origlen) =>
          match read_exact caplen s with
          | (Ok data, s) => (Ok (Some (ts_nanos, origlen, data)), count_packet (with_reader r s))
          | (Err _, s) => (Err Truncated, with_reader r s)
          | (Panic, s) => (Panic, with_reader r s)
          end
      | Err e => (Err e, r)
      | Panic => (Panic, r)
      end
  end.

(** The event of a packet that parses. *)
Definition stamp (ts_nanos origlen : Z) (ev : FlowEvent) : FlowEvent :=
  {| ts_nanos := ts_nanos; src_ip := src_ip ev; dst_ip := dst_ip ev; src_port := src_port ev;
     dst_port := dst_port ev; protocol := protocol ev;
     ev_bytes := if ev_bytes ev =? 0 then origlen else ev_bytes ev;
     packets := packets ev; direction := Unknown; tcp_flags := tcp_flags ev;
     interface_index := interface_index ev; node_id := node_id ev;
     namespace_id := namespace_id ev; pod_id := pod_id ev; service_id := service_id ev |}.

(** The loop that skips packets without an event; every turn consumes at least
    a record header, so the length of the input bounds it. *)
Fixpoint next_event_loop (turns : nat) (r : PcapReader)
    : outcome PcapError (option FlowEvent) * PcapReader :=
  match turns with
  | O => (Panic, r)
  | S turns =>
      match next_packet r with
      | (Ok None, r) => (Ok None, r)
      | (Ok (Some (ts_nanos, origlen, data)), r) =>
          match parse_packet_with_wire_len (link_type r) data origlen with
          | Ok ev => (Ok (Some (stamp ts_nanos origlen ev)), r)
          | Err _ => next_event_loop turns r
          | Panic => (Panic, r)
          end
      | (Err e, r) => (Err e, r)
      | (Panic, r) => (Panic, r)
      end
  end.
Definition next_event (r : PcapReader) : outcome PcapError (option FlowEvent) * PcapReader :=
  next_event_loop (S (length (available (reader r)))) r.

(** The whole file, as replay reads it. *)
Fixpoint events_loop (turns : nat) (r : PcapReader) : list FlowEvent * outcome PcapError unit :=
  match turns with
  | O => ([], Panic)
  | S turns =>
      match next_event r with
      | (Ok (Some e), r) => let '(es, end_) := events_loop turns r in (e :: es, end_)
      | (Ok None, _) => ([], Ok tt)
      | (Err e, _) => ([], Err e)
      | (Panic, _) => ([], Panic)
      end
  end.
Definition read_events (r : PcapReader) : list FlowEvent * outcome PcapError unit :=
  events_loop (S (length (available (reader r)))) r.

(** ** The writer *)

Record PcapWriter := mkWriter {
  written : bytes;
  packets_written : Z;
  max_written_payload : Z;
}.

Definition COMPACT_PAYLOAD_LIMIT : Z := 64.

Definition with_payload_limit (out : bytes) (max_written_payload : Z) : PcapWriter :=
  mkWriter (out ++ le_bytes 4 2712812621 ++ le_bytes 2 2 ++ le_bytes 2 4 ++ le_bytes 4 0 ++ le_bytes 4 0
              ++ le_bytes 4 65535 ++ le_bytes 4 ETHERNET) 0 max_written_payload.
Definition PcapWriter_new (out : bytes) : PcapWriter := with_payload_limit out COMPACT_PAYLOAD_LIMIT.
Definition new_full_payload (out : bytes) : PcapWriter := with_payload_limit out u64_max.

Definition write_record (w : PcapWriter) (ts_nanos original_len : Z) (frame : bytes) : PcapWriter :=
  mkWriter
    (written w ++ le_bytes 4 (as_u32 (ts_nanos / 1000000000)) ++ le_bytes 4 (as_u32 (ts_nanos mod 1000000000))
       ++ le_bytes 4 (as_u32 (zlen frame)) ++ le_bytes 4 original_len ++ frame)
    (packets_written w +ʷ 1) (max_written_payload w).

(** Both addresses IPv4, both IPv6, or neither. *)
Inductive families := Both4 (s d : list Z) | Both6 (s d : list Z) | Mixed.
Definition families_of (src dst : IpAddr) : families :=
  match src, dst with
  | V4 s, V4 d => Both4 s d
  | V6 s, V6 d => Both6 s d
  | _, _ => Mixed
  end.

Definition original_frame_len (src dst : IpAddr) (l4_len payload_len : Z) : Z :=
  as_u32 match families_of src dst with
  | Both4 _ _ => 14 + 20 + l4_len + Z.min payload_len (sat_sub64 65535 (20 + l4_len))
  | Both6 _ _ => 14 + 40 + l4_len + Z.min payload_len (sat_sub64 65535 l4_len)
  | Mixed => 14 + 20 + l4_len
  end.

Definition tcp_header (src_port dst_port flags : Z) : bytes :=
  be_bytes 2 src_port ++ be_bytes 2 dst_port ++ replicate 8 0 ++ [80] ++ [flags] ++ [255; 255] ++ replicate 4 0.
Definition udp_header (src_port dst_port payload_len : Z) : bytes :=
  be_bytes 2 src_port ++ be_bytes 2 dst_port ++ be_bytes 2 (as_u16 (8 + payload_len)) ++ replicate 2 0.

Definition build_frame (src dst : IpAddr) (protocol : Z) (l4 : bytes) (payload_len max_written_payload : Z)
    : bytes :=
  let protocol_payload_limit :=
    match families_of src dst with
    | Both6 _ _ => sat_sub64 65535 (zlen l4)
    | _ => sat_sub64 65535 (20 + zlen l4)
    end in
  let written_payload := Z.min (Z.min payload_len max_written_payload) protocol_payload_limit in
  let header :=
    match families_of src dst with
    | Both4 s d =>
        let total_len := as_u32 (as_u32 (20 + as_u32 (zlen l4)) + payload_len) in
        be_bytes 2 2048 ++ [69] ++ [0] ++ be_bytes 2 (as_u16 (Z.min total_len 65535)) ++ [0; 0; 64; 0]
          ++ [64] ++ [protocol] ++ [0; 0] ++ s ++ d
    | Both6 s d =>
        let plen := as_u16 (Z.min (as_u32 (as_u32 (zlen l4) + payload_len)) 65535) in
        be_bytes 2 34525 ++ [96] ++ [0; 0; 0] ++ be_bytes 2 plen ++ [protocol] ++ [64] ++ s ++ d
    | Mixed =>
        be_bytes 2 2048 ++ [69; 0; 0; 28; 0; 0; 0; 0; 64; protocol; 0; 0] ++ replicate 8 0
    end in
  [2; 0; 0; 0; 0; 1] ++ [2; 0; 0; 0; 0; 2] ++ header ++ l4 ++ replicate (Z.to_nat written_payload) 0.

Definition write_tcp_packet (w : PcapWriter) (ts_nanos : Z) (src dst : IpAddr)
    (src_port dst_port tcp_flags payload_len : Z) : PcapWriter :=
  let l4 := tcp_header src_port dst_port tcp_flags in
  write_record w ts_nanos (original_frame_len src dst (zlen l4) payload_len)
    (build_frame src dst 6 l4 payload_len (max_written_payload w)).

Definition write_udp_packet (w : PcapWriter) (ts_nanos : Z) (src dst : IpAddr)
    (src_port dst_port payload_len : Z) : PcapWriter :=
  let l4 := udp_header src_port dst_port (as_u16 payload_len) in
  write_record w ts_nanos (original_frame_len src dst (zlen l4) payload_len)
    (build_frame src dst 17 l4 payload_len (max_written_payload w)).

(** ** Packets to write *)

Inductive Kind := Tcp (flags : Z) | Udp.
Record Packet := mkPacket {
  pk_ts : Z;
  pk_src : IpAddr;
  pk_dst : IpAddr;
  pk_src_port : Z;
  pk_dst_port : Z;
  pk_kind : Kind;
  pk_payload : Z;
}.

Definition write_packet (w : PcapWriter) (p : Packet) : PcapWriter :=
  match pk_kind p with
  | Tcp flags => write_tcp_packet w (pk_ts p) (pk_src p) (pk_dst p) (pk_src_port p) (pk_dst_port p) flags (pk_payload p)
  | Udp => write_udp_packet w (pk_ts p) (pk_src p) (pk_dst p) (pk_src_port p) (pk_dst_port p) (pk_payload p)
  end.

Definition kind_protocol (k : Kind) : Z := match k with Tcp _ => 6 | Udp => 17 end.
Definition kind_flags (k : Kind) : Z := match k with Tcp f => f | Udp => 0 end.
Definition kind_header (k : Kind) : Z := match k with Tcp _ => 20 | Udp => 8 end.

(** The length of the IP packet, which its header cannot exceed. *)
Definition ip_len (p : Packet) : Z :=
  match pk_src p with
  | V4 _ => Z.min (20 + kind_header (pk_kind p) + pk_payload p) 65535
  | V6 _ => 40 + Z.min (kind_header (pk_kind p) + pk_payload p) 65535
  end.

Definition packet_event (p : Packet) : FlowEvent :=
  stamp (pk_ts p) 0 (event_of (pk_src p) (pk_dst p) (kind_protocol (pk_kind p)) (ip_len p)
    (mkL4 (pk_src_port p) (pk_dst_port p) (kind_flags (pk_kind p)))).

(** The packets a file can hold: one address family, seconds that fit 32 bits,
    and, for UDP, a payload its length field can declare. *)
Record writable (p : Packet) : Prop := {
  wr_src : ip_ok (pk_src p);
  wr_dst : ip_ok (pk_dst p);
  wr_family : families_of (pk_src p) (pk_dst p) ≠ Mixed;
  wr_ts : 0 <= pk_ts p < 4294967296 * 1000000000;
  wr_ports : u16_ok (pk_src_port p) ∧ u16_ok (pk_dst_port p);
  wr_payload : 0 <= pk_payload p < 4294967296 - 40;
  wr_kind : match pk_kind p with
            | Tcp flags => u8_ok flags
            | Udp => 8 + pk_payload p <= match pk_src p with V4 _ => 65515 | V6 _ => 65535 end
            end;
}.

(** ** Bytes of headers *)

Lemma be_bytes_2 v : be_bytes 2 v = [v / 256 mod 256; v mod 256].
Proof. done. Qed.

Lemma be_val_bytes v : u16_ok v → be_val [v / 256 mod 256; v mod 256] = v.
Proof. intros H. rewrite <- be_bytes_2. apply be_val_be_bytes. unfold u16_ok in H. lia. Qed.

Lemma transport_tcp_header s d flags rest wire :
  u16_ok s → u16_ok d → 20 <= wire →
  transport 6 (tcp_header s d flags ++ rest) wire (mkL4 s d flags).
Proof.
  intros Hs Hd Hw. pose proof (be_val_bytes s Hs) as Es. pose proof (be_val_bytes d Hd) as Ed.
  pose proof (zlen_nonneg rest).
  pose proof (transport_tcp (s / 256 mod 256) (s mod 256) (d / 256 mod 256) (d mod 256) (replicate 8 0) 80 flags
    ([255; 255; 0; 0; 0; 0] ++ rest) wire eq_refl) as Ht.
  rewrite Es, Ed in Ht. unfold tcp_header. rewrite !be_bytes_2, <- !app_assoc. apply Ht.
  rewrite zlen_app. change (zlen [255; 255; 0; 0; 0; 0]) with 6. change (80 / 16 * 4) with 20. lia.
Qed.

Lemma transport_udp_header s d n rest wire :
  u16_ok s → u16_ok d → 0 <= n → 8 + n <= wire → 8 + n <= 65535 →
  transport 17 (udp_header s d n ++ rest) wire (mkL4 s d 0).
Proof.
  intros Hs Hd Hn Hw Hm. pose proof (be_val_bytes s Hs) as Es. pose proof (be_val_bytes d Hd) as Ed.
  assert (as_u16 (8 + n) = 8 + n) as En by (unfold as_u16; rewrite Z.mod_small; lia).
  pose proof (be_val_bytes (8 + n) ltac:(unfold u16_ok; lia)) as El.
  pose proof (transport_udp (s / 256 mod 256) (s mod 256) (d / 256 mod 256) (d mod 256)
    ((8 + n) / 256 mod 256) ((8 + n) mod 256) 0 0 rest wire) as Ht.
  rewrite Es, Ed, El in Ht. unfold udp_header. rewrite En, !be_bytes_2, <- !app_assoc. apply Ht. lia.
Qed.

Definition l4_bytes (p : Packet) : bytes :=
  match pk_kind p with
  | Tcp flags => tcp_header (pk_src_port p) (pk_dst_port p) flags
  | Udp => udp_header (pk_src_port p) (pk_dst_port p) (as_u16 (pk_payload p))
  end.
Definition frame_bytes (max : Z) (p : Packet) : bytes :=
  build_frame (pk_src p) (pk_dst p) (kind_protocol (pk_kind p)) (l4_bytes p) (pk_payload p) max.
Definition frame_len (p : Packet) : Z :=
  original_frame_len (pk_src p) (pk_dst p) (kind_header (pk_kind p)) (pk_payload p).

Lemma write_packet_eq w p :
  write_packet w p = write_record w (pk_ts p) (frame_len p) (frame_bytes (max_written_payload w) p).
Proof. by destruct p as [? ? ? ? ? [] ?]. Qed.

Lemma zlen_l4_bytes p : zlen (l4_bytes p) = kind_header (pk_kind p).
Proof. by destruct p as [? ? ? ? ? [] ?]. Qed.

Lemma kind_header_range k : 8 <= kind_header k <= 20.
Proof. destruct k; cbn; lia. Qed.

Lemma sat_sub64_pos a b : b <= a → sat_sub64 a b = a - b.
Proof. unfold sat_sub64. lia. Qed.

Lemma as_u32_id v : u32_ok v → as_u32 v = v.
Proof. unfold u32_ok, as_u32. intros. by rewrite Z.mod_small. Qed.

Lemma frame_len_eq p : writable p → frame_len p = 14 + ip_len p.
Proof.
  intros Hp. unfold frame_len, original_frame_len, ip_len. pose proof (kind_header_range (pk_kind p)).
  pose proof (wr_payload p Hp) as Hl. pose proof (wr_family p Hp) as Hf. unfold families_of in *.
  destruct (pk_src p), (pk_dst p); try done; rewrite sat_sub64_pos, as_u32_id by (unfold u32_ok; lia); lia.
Qed.

(** The transport header is followed by as much of the payload as is written. *)
Lemma transport_written p wire n zeros :
  writable p → kind_header (pk_kind p) <= n →
  match pk_src p with V4 _ => Z.min (kind_header (pk_kind p) + pk_payload p) 65515
                    | V6 _ => Z.min (kind_header (pk_kind p) + pk_payload p) 65535 end <= wire →
  transport (kind_protocol (pk_kind p)) (take (Z.to_nat n) (l4_bytes p ++ zeros)) wire
    (mkL4 (pk_src_port p) (pk_dst_port p) (kind_flags (pk_kind p))).
Proof.
  intros Hp Hn Hw. pose proof (zlen_l4_bytes p) as Hz. destruct (wr_ports p Hp) as [Hs Hd].
  pose proof (wr_payload p Hp) as Hl. pose proof (wr_kind p Hp) as Hk.
  rewrite take_app, take_ge by (unfold zlen in Hz; lia).
  unfold l4_bytes in *. destruct (pk_kind p) as [flags|]; cbn [kind_protocol kind_flags kind_header] in *.
  - apply transport_tcp_header; [done|done|]. destruct (pk_src p); lia.
  - replace (as_u16 (pk_payload p)) with (pk_payload p)
      by (unfold as_u16; rewrite Z.mod_small; destruct (pk_src p); lia).
    apply transport_udp_header; try done; destruct (pk_src p); lia.
Qed.

Lemma network_written p max :
  writable p → 0 <= max →
  ∃ t0 t1 payload, frame_bytes max p = [2; 0; 0; 0; 0; 1; 2; 0; 0; 0; 0; 2] ++ [t0; t1] ++ payload ∧
    zlen payload <= ip_len p ∧
    network skipped (ip_len p) (be_val [t0; t1]) payload
      (event_of (pk_src p) (pk_dst p) (kind_protocol (pk_kind p)) (ip_len p)
        (mkL4 (pk_src_port p) (pk_dst_port p) (kind_flags (pk_kind p)))).
Proof.
  intros Hp Hm. pose proof (kind_header_range (pk_kind p)) as Hk. pose proof (wr_payload p Hp) as Hl.
  pose proof (zlen_l4_bytes p) as Hz.
  unfold frame_bytes, build_frame. rewrite Hz. pose proof (transport_written p) as Htr.
  pose proof (wr_family p Hp) as Hf. pose proof (wr_src p Hp) as Hs. pose proof (wr_dst p Hp) as Hd.
  unfold ip_len. destruct (pk_src p) as [s|s], (pk_dst p) as [d|d]; try done;
    cbn [families_of]; destruct Hs as [Hs Hs'], Hd as [Hd Hd']; rewrite sat_sub64_pos by lia.
  - rewrite (as_u32_id (kind_header _)), (as_u32_id (20 + _)), as_u32_id by (unfold u32_ok; lia).
    set (total := Z.min (20 + kind_header (pk_kind p) + pk_payload p) 65535).
    assert (as_u16 total = total) as -> by (unfold as_u16; rewrite Z.mod_small; lia).
    rewrite (be_bytes_2 total). exists 8, 0. eexists. split; [by rewrite <- !app_assoc|].
    split; [unfold zlen in *; rewrite !length_app, length_replicate, Hs', Hd'; cbn [length]; lia|].
    apply (network_ipv4 _ total).
    pose proof (be_val_bytes total ltac:(unfold u16_ok; lia)) as Et.
    rewrite <- Et at 4.
    apply (ipv4_intro total 69 0 _ _ [0; 0] 64 0 64 _ [0; 0] s d []); try done.
    + rewrite Et. change (69 mod 16 * 4) with 20. lia.
    + rewrite Et. change (69 mod 16 * 4) with 20. rewrite decide_True by done.
      apply Htr; [done|lia|lia].
  - rewrite (as_u32_id (kind_header _)), as_u32_id by (unfold u32_ok; lia).
    set (plen := Z.min (kind_header (pk_kind p) + pk_payload p) 65535).
    assert (as_u16 plen = plen) as -> by (unfold as_u16; rewrite Z.mod_small; lia).
    rewrite (be_bytes_2 plen). exists 134, 221. eexists. split; [by rewrite <- !app_assoc|].
    split; [unfold zlen in *; rewrite !length_app, length_replicate, Hs', Hd'; cbn [length]; lia|].
    apply (network_ipv6 _ (40 + plen)).
    pose proof (be_val_bytes plen ltac:(unfold u16_ok; lia)) as Et.
    rewrite <- Et at 4.
    apply (ipv6_intro _ (40 + plen) 96 0 0 0 _ _ _ 64); try done; rewrite Et; [lia|lia|].
    apply headers_transport.
    + unfold extension. destruct (pk_kind p); cbn; set_solver.
    + apply Htr; [done|lia|lia].
Qed.

Lemma be_bytes_ok n v : bytes_ok (be_bytes n v).
Proof. unfold bytes_ok, be_bytes. rewrite Forall_reverse. apply le_bytes_ok. Qed.

Lemma zeros_ok n : bytes_ok (replicate n 0).
Proof. apply Forall_replicate. by range_tac. Qed.

Lemma literal_ok l : bool_decide (bytes_ok l) = true → bytes_ok l.
Proof. by intros ?%bool_decide_eq_true. Qed.

Lemma byte_ok b : u8_ok b → bytes_ok [b].
Proof. by constructor. Qed.

(** The bytes of headers, field by field. *)
Ltac bytes_ok_tac :=
  repeat match goal with
    | H : ?P |- ?P => exact H
    | |- Forall u8_ok ?l => change (bytes_ok l)
    | |- bytes_ok (_ ++ _) => apply Forall_app_2
    | |- bytes_ok (be_bytes _ _) => apply be_bytes_ok
    | |- bytes_ok (le_bytes _ _) => apply le_bytes_ok
    | |- bytes_ok (replicate _ 0) => apply zeros_ok
    | H : u8_ok ?b |- bytes_ok [?b] => exact (byte_ok b H)
    | |- bytes_ok (_ :: _) => apply literal_ok; vm_compute; reflexivity
    end.

Lemma frame_bytes_ok max p : writable p → bytes_ok (frame_bytes max p).
Proof.
  intros Hp. pose proof (wr_kind p Hp) as Hk. destruct (wr_ports p Hp) as [Hs Hd].
  assert (u8_ok (kind_protocol (pk_kind p))) as Hproto by (destruct (pk_kind p); by range_tac).
  assert (bytes_ok (l4_bytes p)) as Hl4.
  { unfold l4_bytes. destruct (pk_kind p); unfold tcp_header, udp_header; bytes_ok_tac. }
  pose proof (wr_src p Hp) as Hsrc. pose proof (wr_dst p Hp) as Hdst. pose proof (wr_family p Hp) as Hf.
  unfold frame_bytes, build_frame. destruct (pk_src p) as [s|s], (pk_dst p) as [d|d]; try done;
    cbn [families_of ip_ok] in *; destruct Hsrc as [Hsrc _], Hdst as [Hdst _]; bytes_ok_tac.
Qed.

Lemma frame_written max p :
  writable p → 0 <= max →
  zlen (frame_bytes max p) <= frame_len p ∧
  parse_packet_with_wire_len ETHERNET (frame_bytes max p) (frame_len p) =
    Ok (event_of (pk_src p) (pk_dst p) (kind_protocol (pk_kind p)) (ip_len p)
          (mkL4 (pk_src_port p) (pk_dst_port p) (kind_flags (pk_kind p)))).
Proof.
  intros Hp Hm. pose proof (frame_bytes_ok max p Hp) as Hok. rewrite frame_len_eq by done.
  destruct (network_written p max Hp Hm) as (t0 & t1 & payload & Hf & Hlen & Hn).
  rewrite Hf in *.
  assert (zlen ([2; 0; 0; 0; 0; 1; 2; 0; 0; 0; 0; 2] ++ [t0; t1] ++ payload) <= 14 + ip_len p) as Hz
    by (rewrite !zlen_app; change (zlen [t0; t1]) with 2; change (zlen _) with 12 at 1; lia).
  split; [done|]. apply parse_packet_with_wire_len_spec; [done|]. split; [done|].
  apply (frame_ethernet _ _ [2; 0; 0; 0; 0; 1; 2; 0; 0; 0; 0; 2] []); [done|by constructor|cbn; lia|].
  by replace (14 + ip_len p - (14 + 4 * zlen (@nil bytes))) with (ip_len p) by (change (zlen (@nil bytes)) with 0; lia).
Qed.

(** ** Reading a record *)

Definition record_bytes (max : Z) (p : Packet) : bytes :=
  le_bytes 4 (as_u32 (pk_ts p / 1000000000)) ++ le_bytes 4 (as_u32 (pk_ts p mod 1000000000))
    ++ le_bytes 4 (as_u32 (zlen (frame_bytes max p))) ++ le_bytes 4 (frame_len p) ++ frame_bytes max p.

Lemma read_exact_app (a b : bytes) e n :
  n = zlen a → read_exact n (mkStream (a ++ b) e) = (Ok a, mkStream b e).
Proof.
  intros ->. unfold read_exact. cbn [available ending]. rewrite zlen_app. pose proof (zlen_nonneg b).
  rewrite (proj2 (Z.leb_le _ _)) by lia. by rewrite take_zlen_app, drop_zlen_app.
Qed.

Lemma read_exact_short (a : bytes) e n : zlen a < n → read_exact n (mkStream a e) = (Err e, mkStream [] e).
Proof. intros H. unfold read_exact. cbn [available ending]. by rewrite (proj2 (Z.leb_gt _ _)) by lia. Qed.

Lemma ip_len_range p : writable p → 20 <= ip_len p <= 65575.
Proof.
  intros Hp. unfold ip_len. pose proof (kind_header_range (pk_kind p)). pose proof (wr_payload p Hp).
  destruct (pk_src p); lia.
Qed.

Lemma next_packet_written max p r rest e :
  writable p → 0 <= max → reader r = mkStream (record_bytes max p ++ rest) e →
  swapped r = false → subsec_to_nanos r = 1 →
  next_packet r =
  (Ok (Some (pk_ts p, frame_len p, frame_bytes max p)), count_packet (with_reader r (mkStream rest e))).
Proof.
  intros Hp Hm Hr Hsw Hsub. destruct (frame_written max p Hp Hm) as [Hz _].
  pose proof (ip_len_range p Hp) as Hl. pose proof (wr_ts p Hp) as Ht.
  rewrite frame_len_eq in Hz by done. pose proof (zlen_nonneg (frame_bytes max p)) as Hnn.
  assert (0 <= pk_ts p / 1000000000 < 4294967296) as Hq
    by (split; [apply Z.div_pos|apply Z.div_lt_upper_bound]; lia).
  pose proof (Z.mod_pos_bound (pk_ts p) 1000000000 eq_refl) as Hq'.
  pose proof (Z.div_mod (pk_ts p) 1000000000 ltac:(discriminate)) as Hdm.
  unfold next_packet. rewrite Hr. unfold record_bytes.
  set (a := as_u32 (pk_ts p / 1000000000)). set (b := as_u32 (pk_ts p mod 1000000000)).
  set (c := as_u32 (zlen (frame_bytes max p))). set (d := frame_len p).
  set (rec := le_bytes 4 a ++ le_bytes 4 b ++ le_bytes 4 c ++ le_bytes 4 d).
  replace ((le_bytes 4 a ++ le_bytes 4 b ++ le_bytes 4 c ++ le_bytes 4 d ++ frame_bytes max p) ++ rest)
    with (rec ++ frame_bytes max p ++ rest) by (unfold rec; by rewrite <- !app_assoc).
  rewrite read_exact_app by done.
  assert (a = pk_ts p / 1000000000) as Ha by (apply as_u32_id; unfold u32_ok; lia).
  assert (b = pk_ts p mod 1000000000) as Hb by (apply as_u32_id; unfold u32_ok; lia).
  assert (c = zlen (frame_bytes max p)) as Hc by (apply as_u32_id; unfold u32_ok; lia).
  assert (d = 14 + ip_len p) as Hd by by apply frame_len_eq.
  assert (record_header (with_reader r (mkStream (frame_bytes max p ++ rest) e)) rec = Ok (pk_ts p, c, d)) as ->.
  { unfold record_header. cbn [swapped with_reader subsec_to_nanos]. rewrite Hsw, Hsub.
    change (word rec 0) with (le_bytes 4 a). change (word rec 4) with (le_bytes 4 b).
    change (word rec 8) with (le_bytes 4 c). change (word rec 12) with (le_bytes 4 d).
    unfold u32_at. rewrite !le_val_le_bytes_id by lia.
    rewrite (proj2 (Z.ltb_ge (256 * 1024) c)) by lia. ostep.
    rewrite (proj2 (Z.ltb_ge d c)) by lia. ostep.
    rewrite (proj2 (Z.leb_gt _ b)) by (change (1000000000 / 1) with 1000000000; lia). ostep.
    rewrite !wmul64_small, wadd64_small by (unfold u64_ok; lia). f_equal. f_equal. f_equal. lia. }
  rewrite read_exact_app by done. done.
Qed.

Lemma next_event_written max p r rest e :
  writable p → 0 <= max → reader r = mkStream (record_bytes max p ++ rest) e →
  swapped r = false → subsec_to_nanos r = 1 → link_type r = ETHERNET →
  next_event r = (Ok (Some (packet_event p)), count_packet (with_reader r (mkStream rest e))).
Proof.
  intros Hp Hm Hr Hsw Hsub Hl. unfold next_event. cbn [next_event_loop].
  rewrite (next_packet_written max p r rest e) by done.
  cbn [link_type count_packet with_reader]. rewrite Hl.
  destruct (frame_written max p Hp Hm) as [_ ->]. f_equal. f_equal. f_equal.
  unfold packet_event, stamp. cbn [ev_bytes event_of]. pose proof (ip_len_range p Hp).
  by rewrite (proj2 (Z.eqb_neq _ _)) by lia.
Qed.

(** ** Every input *)

Definition left (r : PcapReader) : nat := length (available (reader r)).
Definition input_ok (r : PcapReader) : Prop := bytes_ok (available (reader r)).

Lemma read_exact_spec n s :
  bytes_ok (available s) → 0 <= n →
  match read_exact n s with
  | (Ok b, s') => bytes_ok b ∧ bytes_ok (available s') ∧ zlen b = n ∧
      (length (available s') + Z.to_nat n)%nat = length (available s)
  | (Err _, s') => available s' = []
  | (Panic, _) => False
  end.
Proof.
  intros Hok Hn. unfold read_exact. destruct (Z.leb_spec n (zlen (available s))); [|done].
  cbn [available]. split; [by apply Forall_take|]. split; [by apply Forall_drop|].
  unfold zlen in *. rewrite length_take, length_drop. split; lia.
Qed.

Lemma le_val_nonneg b : bytes_ok b → 0 <= le_val b.
Proof. intros H. by apply le_val_range. Qed.

Lemma u32_at_nonneg sw b : bytes_ok b → 0 <= u32_at sw b.
Proof.
  intros H. unfold u32_at. destruct sw; [|by apply le_val_nonneg].
  unfold swap_bytes, be_val. apply le_val_nonneg, Forall_reverse, le_bytes_ok.
Qed.

Lemma next_packet_spec r :
  input_ok r →
  match next_packet r with
  | (Ok (Some (ts, origlen, data)), r') =>
      bytes_ok data ∧ u64_ok ts ∧ input_ok r' ∧ (left r' + 16 <= left r)%nat
  | (Panic, _) => False
  | _ => True
  end.
Proof.
  intros Hr. unfold next_packet.
  pose proof (read_exact_spec 16 (reader r) Hr ltac:(done)) as H1.
  destruct (read_exact 16 (reader r)) as [[rec|[]|] s]; try done.
  destruct H1 as (Hrec & Hs & _ & Hlen). unfold record_header.
  set (r1 := with_reader r s).
  assert (bytes_ok (word rec 8)) as Hw by by apply Forall_take, Forall_drop.
  apply (u32_at_nonneg (swapped r1)) in Hw.
  destruct (256 * 1024 <? _); [done|]. ostep. destruct (_ <? _); [done|]. ostep. destruct (_ <=? _); [done|]. ostep.
  pose proof (read_exact_spec _ s Hs Hw) as H2.
  destruct (read_exact _ s) as [[data|e|] s']; try done. destruct H2 as (Hd & Hs' & _ & Hlen').
  split; [done|]. split; [apply wadd64_range|]. split; [done|]. unfold left. cbn [reader count_packet with_reader]. lia.
Qed.

Lemma stamp_ok ts origlen ev : u64_ok ts → event_ok ev → 0 < ev_bytes ev → event_ok (stamp ts origlen ev).
Proof.
  intros Ht He Hb. destruct He. unfold stamp. rewrite (proj2 (Z.eqb_neq (ev_bytes ev) 0)) by lia. by split.
Qed.

Lemma next_event_loop_spec turns r :
  input_ok r → (left r < turns)%nat →
  match next_event_loop turns r with
  | (Ok (Some e), r') => event_ok e ∧ input_ok r' ∧ (left r' + 16 <= left r)%nat
  | (Panic, _) => False
  | _ => True
  end.
Proof.
  revert r. induction turns as [|turns IH]; intros r Hr Hl; [lia|]. cbn [next_event_loop].
  pose proof (next_packet_spec r Hr) as H. destruct (next_packet r) as [[[[[ts origlen] data]|]|e|] r']; try done.
  destruct H as (Hd & Ht & Hr' & Hl').
  pose proof (packet_parser_total (link_type r') data origlen Hd) as [Hn He].
  destruct (parse_packet_with_wire_len _ _ _) as [ev| |] eqn:E; [| |done].
  - split; [|done]. destruct (He ev eq_refl) as [? ?]. apply stamp_ok; [done|done|lia].
  - specialize (IH r' Hr' ltac:(lia)). destruct (next_event_loop turns r') as [[[e'|]|e'|] r'']; try done.
    destruct IH as (? & ? & ?). split; [done|]. split; [done|lia].
Qed.

Lemma events_loop_spec turns r :
  input_ok r → (left r < turns)%nat →
  let '(es, end_) := events_loop turns r in
  no_panic end_ ∧ Forall event_ok es ∧ (16 * length es <= left r)%nat.
Proof.
  revert r. induction turns as [|turns IH]; intros r Hr Hl; [lia|]. cbn [events_loop].
  pose proof (next_event_loop_spec (S (left r)) r Hr ltac:(lia)) as H. change (next_event_loop _ r) with (next_event r) in H.
  destruct (next_event r) as [[[e|]|e|] r']; try (cbn; split_and!; [done|done|lia]).
  destruct H as (He & Hr' & Hl'). specialize (IH r' Hr' ltac:(lia)). destruct (events_loop turns r') as [es end_].
  destruct IH as (? & ? & ?). split; [done|]. split; [by constructor|cbn [length]; lia].
Qed.

Lemma magic_kind_no_panic m : no_panic (magic_kind m).
Proof. unfold magic_kind. no_panic_tac. Qed.

Lemma new_spec s :
  bytes_ok (available s) → no_panic (PcapReader_new s) ∧
  ∀ r, PcapReader_new s = Ok r → input_ok r ∧ (left r + 24)%nat = length (available s).
Proof.
  intros Hok. unfold PcapReader_new. pose proof (read_exact_spec 24 s Hok ltac:(done)) as H.
  destruct (read_exact 24 s) as [[header|e|] s']; [|by split|done]. destruct H as (_ & Hs & _ & Hl).
  split; [apply bind_no_panic; [apply magic_kind_no_panic|by intros [] _]|].
  intros r Hr. apply bind_ok in Hr as ([sw sub] & _ & <-%ok_inj). split; [done|]. unfold left. cbn [reader]. lia.
Qed.

(** [C27] Reading a capture terminates safely.  On any input, a valid file or not,
    ending or failing anywhere, opening it and reading its events neither
    panics nor runs forever: the loops end by themselves, every event is well
    formed, and there are no more events than the input has room for records. *)
Theorem pcap_reader_safe s :
  bytes_ok (available s) → no_panic (PcapReader_new s) ∧
  ∀ r, PcapReader_new s = Ok r →
    let '(es, end_) := read_events r in
    no_panic end_ ∧ Forall event_ok es ∧ (24 + 16 * length es <= length (available s))%nat.
Proof.
  intros Hok. destruct (new_spec s Hok) as [Hn Hr]. split; [done|]. intros r H. apply Hr in H as [Hi Hl].
  pose proof (events_loop_spec (S (left r)) r Hi ltac:(lia)) as He. change (events_loop _ r) with (read_events r) in He.
  destruct (read_events r) as [es end_]. destruct He as (? & ? & ?). split; [done|]. split; [done|lia].
Qed.

(** ** Round trip *)

Definition opened (s : Stream) : PcapReader := mkReader s false 1 ETHERNET 0.

Definition header_bytes : bytes :=
  le_bytes 4 2712812621 ++ le_bytes 2 2 ++ le_bytes 2 4 ++ le_bytes 4 0 ++ le_bytes 4 0
    ++ le_bytes 4 65535 ++ le_bytes 4 ETHERNET.

Lemma new_written rest e : PcapReader_new (mkStream (header_bytes ++ rest) e) = Ok (opened (mkStream rest e)).
Proof. unfold PcapReader_new. by rewrite read_exact_app. Qed.

Lemma written_packets out max ps :
  written (foldl write_packet (with_payload_limit out max) ps) =
    out ++ header_bytes ++ concat (record_bytes max <$> ps) ∧
  max_written_payload (foldl write_packet (with_payload_limit out max) ps) = max.
Proof.
  induction ps as [|p ps IH] using rev_ind; [by rewrite app_nil_r|].
  rewrite foldl_app. cbn [foldl]. rewrite write_packet_eq. destruct IH as [IH1 IH2]. rewrite IH2.
  cbn [write_record written max_written_payload]. rewrite IH1, IH2. split; [|done].
  rewrite fmap_app, concat_app. cbn [fmap list_fmap concat]. unfold record_bytes. by rewrite app_nil_r, <- !app_assoc.
Qed.

Lemma events_written max ps r turns :
  Forall writable ps → 0 <= max → (length ps < turns)%nat →
  reader r = mkStream (concat (record_bytes max <$> ps)) UnexpectedEof →
  swapped r = false → subsec_to_nanos r = 1 → link_type r = ETHERNET →
  events_loop turns r = (packet_event <$> ps, Ok tt).
Proof.
  intros Hps Hm. revert r turns. induction Hps as [|p ps Hp _ IH]; intros r turns Hl Hr Hsw Hsub Hlink;
    (destruct turns as [|turns]; [cbn in Hl; lia|]); cbn [events_loop].
  - unfold next_event. cbn [next_event_loop]. unfold next_packet. rewrite Hr. by rewrite read_exact_short.
  - rewrite (next_event_written max p r (concat (record_bytes max <$> ps)) UnexpectedEof) by done.
    rewrite IH; try done. cbn in Hl. lia.
Qed.

Lemma record_bytes_length max p : (16 <= length (record_bytes max p))%nat.
Proof. unfold record_bytes. rewrite !length_app, !length_le_bytes. lia. Qed.

Lemma records_length max ps : (16 * length ps <= length (concat (record_bytes max <$> ps)))%nat.
Proof.
  induction ps as [|p ps IH]; [done|]. cbn [fmap list_fmap concat length]. rewrite length_app.
  pose proof (record_bytes_length max p). unfold fmap in *. lia.
Qed.

(** [C26] Capture files round-trip.  Writing any packets a file can hold, compactly
    or with their full payload, and reading the file back returns exactly their
    events, in order, with their addresses, ports, flags, times and the length
    of the IP packet, although the compact file stores 64 payload bytes at most. *)
Theorem pcap_round_trip (full : bool) ps :
  Forall writable ps →
  let w := foldl write_packet (if full then new_full_payload [] else PcapWriter_new []) ps in
  ∃ r, PcapReader_new (mkStream (written w) UnexpectedEof) = Ok r ∧
    read_events r = (packet_event <$> ps, Ok tt).
Proof.
  intros Hps. set (max := if full then u64_max else COMPACT_PAYLOAD_LIMIT).
  replace (if full then new_full_payload [] else PcapWriter_new []) with (with_payload_limit [] max)
    by by destruct full.
  cbv zeta. destruct (written_packets [] max ps) as [-> _]. cbn [app]. rewrite new_written.
  eexists. split; [done|]. apply (events_written max); try done; [by destruct full|].
  pose proof (records_length max ps). unfold opened. cbn [reader available]. unfold fmap in *. lia.
Qed.

(** ** Concrete files *)

Definition sample_packets : list Packet :=
  [mkPacket 1700000000000000007 (V4 [10; 0; 1; 10]) (V4 [10; 0; 2; 50]) 40000 443 (Tcp 24) 1200;
   mkPacket 1700000001000000000 (V6 [32; 1; 13; 184; 0; 0; 0; 0; 0; 0; 0; 0; 0; 0; 0; 1])
     (V6 [32; 1; 13; 184; 0; 0; 0; 0; 0; 0; 0; 0; 0; 0; 0; 2]) 50000 53 Udp 300].

Lemma sample_packets_writable : Forall writable sample_packets.
Proof.
  repeat constructor; try (by range_tac); try (vm_compute; intros H; discriminate H);
    try (apply (bool_decide_unpack _); vm_compute; exact I).
Qed.

Lemma pcap_round_trip_witness :
  let w := foldl write_packet (PcapWriter_new []) sample_packets in
  zlen (written w) = 24 + (16 + 118) + (16 + 126) ∧
  ∃ r, PcapReader_new (mkStream (written w) UnexpectedEof) = Ok r ∧
    read_events r = (packet_event <$> sample_packets, Ok tt).
Proof.
  split; [vm_compute; reflexivity|]. exact (pcap_round_trip false sample_packets sample_packets_writable).
Defined.

(** The same file cut in the middle of its second packet, on a disk that fails. *)
Definition cut_file : Stream :=
  mkStream (take 200 (written (foldl write_packet (PcapWriter_new []) sample_packets))) IoFailure.
Definition cut_reader : PcapReader := run_or (opened cut_file) (PcapReader_new cut_file).

Lemma pcap_reader_safe_witness :
  length (read_events cut_reader).1 = 1%nat ∧ Forall event_ok (read_events cut_reader).1.
Proof.
  split; [vm_compute; reflexivity|].
  assert (bytes_ok (available cut_file)) as Hok by (apply (bool_decide_unpack _); vm_compute; exact I).
  pose proof (proj2 (pcap_reader_safe cut_file Hok) cut_reader ltac:(vm_compute; reflexivity)) as H.
  destruct (read_events cut_reader) as [es end_]. exact (proj1 (proj2 H)).
Defined.

Definition replay (s : Stream) : list FlowEvent * outcome PcapError unit :=
  match PcapReader_new s with
  | Ok r => read_events r
  | Err e => ([], Err e)
  | Panic => ([], Panic)
  end.
Definition sample_file : bytes := written (foldl write_packet (PcapWriter_new []) sample_packets).

Example truncated_packet :
  (replay (mkStream (take 200 sample_file) IoFailure)).2 = Err Truncated.
Proof. vm_compute. reflexivity. Qed.

(** A file that ends inside a record header reads as complete. *)
Example truncated_header :
  length (drop 158 (take 168 sample_file)) = 10%nat ∧
  replay (mkStream (take 168 sample_file) UnexpectedEof) = replay (mkStream (take 158 sample_file) UnexpectedEof) ∧
  (replay (mkStream (take 168 sample_file) UnexpectedEof)).2 = Ok tt.
Proof. split_and!; vm_compute; reflexivity. Qed.

(** The UDP length wraps at 16 bits: such a packet is written and never read. *)
Example udp_length_wraps :
  replay (mkStream (written (write_packet (PcapWriter_new [])
    (mkPacket 0 (V4 [10; 0; 0; 1]) (V4 [10; 0; 0; 2]) 1 53 Udp 65530))) UnexpectedEof) = ([], Ok tt).
Proof. vm_compute. reflexivity. Qed.
