(* ===== verification/Ebpf.v ===== *)
(** * The kernel collector and its event contract
    (crates/flowsketch-ebpf/src/lib.rs and bpf/flowsketch_tc.bpf.c)

    The record that crosses the ring buffer, its conversion to a flow event, and
    the tc program that fills it.  The program's [__u32] offsets are bounded by
    the length of the packet, checked before every addition, so they are plain
    integers here; the kernel's helpers are [bpf_skb_load_bytes] (a slice) and
    [bpf_ringbuf_output] (whether the ring has room is an input).

    Proved: the program and the userspace parser accept the same frames with the
    same events, except IPv6 packets whose transport header follows exactly six
    extension headers; and every packet is counted once. *)
From S2P Require Import Prelude Bytes Event Packet.

(** ** The record *)

Definition EBPF_FLOW_EVENT_SIZE : Z := 56.
Definition EBPF_ABI_VERSION : Z := 1.

Definition direction_UNKNOWN : Z := 0.
Definition direction_INGRESS : Z := 1.
Definition direction_EGRESS : Z := 2.

Record EbpfFlowEvent := mkEbpf {
  e_ts_nanos : Z;
  e_src_ip : list Z;
  e_dst_ip : list Z;
  e_bytes : Z;
  e_interface_index : Z;
  e_src_port : Z;
  e_dst_port : Z;
  e_protocol : Z;
  e_ip_version : Z;
  e_tcp_flags : Z;
  e_direction : Z;
}.

Inductive EbpfError :=
  | InvalidRecordSize (expected actual : Z)
  | UnsupportedIpVersion (v : Z)
  | UnsupportedDirection (d : Z)
  | TimestampOutOfRange (t : Z).
#[export] Instance EbpfError_eq_dec : EqDecision EbpfError.
Proof. solve_decision. Defined.

(** Native endian: little on the targets the agent ships for. *)
Definition encode_ne (e : EbpfFlowEvent) : bytes :=
  le_bytes 8 (e_ts_nanos e) ++ e_src_ip e ++ e_dst_ip e ++ le_bytes 4 (e_bytes e)
    ++ le_bytes 4 (e_interface_index e) ++ le_bytes 2 (e_src_port e) ++ le_bytes 2 (e_dst_port e)
    ++ [e_protocol e; e_ip_version e; e_tcp_flags e; e_direction e].

(** [from_ne_bytes(bytes[a..b])] and a copied slice. *)
Definition field (b : bytes) (i j : Z) : outcome EbpfError bytes := slice b i j.

Definition decode_ne (b : bytes) : outcome EbpfError EbpfFlowEvent :=
  _ ← fail_if (negb (zlen b =? EBPF_FLOW_EVENT_SIZE)) (InvalidRecordSize EBPF_FLOW_EVENT_SIZE (zlen b));
  src ← field b 8 24;
  dst ← field b 24 40;
  ts ← field b 0 8;
  len ← field b 40 44;
  iface ← field b 44 48;
  sport ← field b 48 50;
  dport ← field b 50 52;
  proto ← vec_get b 52;
  version ← vec_get b 53;
  flags ← vec_get b 54;
  dir ← vec_get b 55;
  Ok (mkEbpf (le_val ts) src dst (le_val len) (le_val iface) (le_val sport) (le_val dport)
        proto version flags dir).

(** [KernelClockConverter]: the offset is an [i128], which holds any sum here. *)
Record KernelClockConverter := mkClock { realtime_minus_monotonic : Z }.
Definition from_samples (monotonic_nanos realtime_nanos : Z) : KernelClockConverter :=
  mkClock (realtime_nanos - monotonic_nanos).
Definition to_unix_nanos (c : KernelClockConverter) (monotonic_nanos : Z) : outcome EbpfError Z :=
  let unix := monotonic_nanos + realtime_minus_monotonic c in
  if (0 <=? unix) && (unix <=? u64_max) then Ok unix else Err (TimestampOutOfRange monotonic_nanos).

Definition to_ip (version : Z) (octets : list Z) : outcome EbpfError IpAddr :=
  if version =? 4 then
    a ← vec_get octets 12; b ← vec_get octets 13; c ← vec_get octets 14; d ← vec_get octets 15;
    Ok (V4 [a; b; c; d])
  else if version =? 6 then Ok (V6 octets)
  else Err (UnsupportedIpVersion version).

Definition to_direction (d : Z) : outcome EbpfError Direction :=
  if d =? direction_UNKNOWN then Ok Unknown
  else if d =? direction_INGRESS then Ok Ingress
  else if d =? direction_EGRESS then Ok Egress
  else Err (UnsupportedDirection d).

Definition try_into_flow_event (e : EbpfFlowEvent) (unix_ts_nanos : Z) : outcome EbpfError FlowEvent :=
  src ← to_ip (e_ip_version e) (e_src_ip e);
  dst ← to_ip (e_ip_version e) (e_dst_ip e);
  dir ← to_direction (e_direction e);
  Ok {| ts_nanos := unix_ts_nanos; src_ip := src; dst_ip := dst;
        src_port := e_src_port e; dst_port := e_dst_port e; protocol := e_protocol e;
        ev_bytes := e_bytes e; packets := 1; direction := dir; tcp_flags := e_tcp_flags e;
        interface_index := e_interface_index e; node_id := 0;
        namespace_id := None; pod_id := None; service_id := None |}.

(** ** The tc program *)

Inductive parse_result := PARSE_ERROR | PARSE_UNSUPPORTED.
Abbreviation tc := (outcome parse_result).

Definition load_bytes (skb : bytes) (off len : Z) : tc bytes :=
  if (zlen skb <? off) || (zlen skb - off <? len) then Err PARSE_ERROR
  else Ok (take (Z.to_nat len) (drop (Z.to_nat off) skb)).

(** A field of a loaded struct. *)
Definition get (b : bytes) (i : nat) : Z := default 0 (b !! i).
Definition ntohs (b : bytes) (i : nat) : Z := be_val [get b i; get b (S i)].

Definition with_transport (e : EbpfFlowEvent) (protocol src_port dst_port flags : Z) : EbpfFlowEvent :=
  mkEbpf (e_ts_nanos e) (e_src_ip e) (e_dst_ip e) (e_bytes e) (e_interface_index e)
    src_port dst_port protocol (e_ip_version e) flags (e_direction e).
Definition with_ip (e : EbpfFlowEvent) (version len : Z) (src dst : list Z) : EbpfFlowEvent :=
  mkEbpf (e_ts_nanos e) src dst len (e_interface_index e)
    (e_src_port e) (e_dst_port e) (e_protocol e) version (e_tcp_flags e) (e_direction e).

Definition parse_transport (skb : bytes) (off stop protocol : Z) (ev : EbpfFlowEvent) : tc EbpfFlowEvent :=
  if protocol =? 6 then
    _ ← fail_if ((stop <? off) || (stop - off <? 14)) PARSE_ERROR;
    tcp ← load_bytes skb off 14;
    let header_length := Z.shiftr (get tcp 12) 4 * 4 in
    _ ← fail_if ((header_length <? 20) || (stop - off <? header_length)) PARSE_ERROR;
    Ok (with_transport ev protocol (ntohs tcp 0) (ntohs tcp 2) (get tcp 13))
  else if protocol =? 17 then
    _ ← fail_if ((stop <? off) || (stop - off <? 8)) PARSE_ERROR;
    udp ← load_bytes skb off 8;
    let udp_length := ntohs udp 4 in
    _ ← fail_if ((udp_length <? 8) || (stop - off <? udp_length)) PARSE_ERROR;
    Ok (with_transport ev protocol (ntohs udp 0) (ntohs udp 2) (e_tcp_flags ev))
  else Ok (with_transport ev protocol (e_src_port ev) (e_dst_port ev) (e_tcp_flags ev)).

Definition tc_parse_ipv4 (skb : bytes) (off : Z) (ev : EbpfFlowEvent) : tc EbpfFlowEvent :=
  ip ← load_bytes skb off 20;
  _ ← fail_if (negb (Z.shiftr (get ip 0) 4 =? 4)) PARSE_ERROR;
  let header_length := Z.land (get ip 0) 15 * 4 in
  let total_length := ntohs ip 2 in
  _ ← fail_if ((header_length <? 20) || (total_length <? header_length) ||
               (zlen skb <? off) || (zlen skb - off <? total_length)) PARSE_ERROR;
  let ev := with_ip ev 4 total_length (replicate 12 0 ++ take 4 (drop 12 ip)) (replicate 12 0 ++ drop 16 ip) in
  if negb (Z.land (ntohs ip 6) 8191 =? 0)
  then Ok (with_transport ev (get ip 9) (e_src_port ev) (e_dst_port ev) (e_tcp_flags ev))
  else parse_transport skb (off + header_length) (off + total_length) (get ip 9) ev.

Definition is_ipv6_extension (p : Z) : bool :=
  (p =? 0) || (p =? 43) || (p =? 44) || (p =? 51) || (p =? 60).

(** The loop over extension headers: the event of a later fragment, or the
    protocol and the cursor it stops at. *)
Fixpoint extension_loop (turns : nat) (skb : bytes) (stop protocol cursor : Z) (ev : EbpfFlowEvent)
    : tc (EbpfFlowEvent + Z * Z) :=
  match turns with
  | O => Ok (inr (protocol, cursor))
  | S turns =>
      if negb (is_ipv6_extension protocol) then Ok (inr (protocol, cursor))
      else if protocol =? 44 then
        _ ← fail_if ((stop <? cursor) || (stop - cursor <? 8)) PARSE_ERROR;
        fragment ← load_bytes skb cursor 8;
        let protocol := get fragment 0 in
        if negb (Z.land (ntohs fragment 2) 65528 =? 0)
        then Ok (inl (with_transport ev protocol (e_src_port ev) (e_dst_port ev) (e_tcp_flags ev)))
        else extension_loop turns skb stop protocol (cursor + 8) ev
      else
        _ ← fail_if ((stop <? cursor) || (stop - cursor <? 2)) PARSE_ERROR;
        extension ← load_bytes skb cursor 2;
        let extension_length :=
          if protocol =? 51 then (get extension 1 + 2) * 4 else (get extension 1 + 1) * 8 in
        _ ← fail_if ((extension_length <? 8) || (stop - cursor <? extension_length)) PARSE_ERROR;
        extension_loop turns skb stop (get extension 0) (cursor + extension_length) ev
  end.

(** After the loop: the transport header, unless the chain is too long. *)
Definition after_extensions (skb : bytes) (stop : Z) (ev : EbpfFlowEvent) (r : EbpfFlowEvent + Z * Z)
    : tc EbpfFlowEvent :=
  match r with
  | inl ev => Ok ev
  | inr (protocol, cursor) =>
      _ ← fail_if (is_ipv6_extension protocol) PARSE_UNSUPPORTED;
      parse_transport skb cursor stop protocol ev
  end.

Definition tc_parse_ipv6 (skb : bytes) (off : Z) (ev : EbpfFlowEvent) : tc EbpfFlowEvent :=
  ip ← load_bytes skb off 40;
  _ ← fail_if (negb (Z.shiftr (be_val (take 4 ip)) 28 =? 6)) PARSE_ERROR;
  let payload_length := ntohs ip 4 in
  _ ← fail_if (payload_length =? 0) PARSE_UNSUPPORTED;
  _ ← fail_if ((zlen skb <? off) || (zlen skb - off <? 40 + payload_length)) PARSE_ERROR;
  let stop := off + 40 + payload_length in
  let ev := with_ip ev 6 (40 + payload_length) (take 16 (drop 8 ip)) (drop 24 ip) in
  r ← extension_loop 6 skb stop (get ip 6) (off + 40) ev;
  after_extensions skb stop ev r.

(** The loop over VLAN tags, which it leaves at the first other type. *)
Fixpoint vlan_headers (turns : nat) (skb : bytes) (protocol off : Z) : tc (Z * Z) :=
  match turns with
  | O => Ok (protocol, off)
  | S turns =>
      if negb ((protocol =? ETHERTYPE_VLAN) || (protocol =? ETHERTYPE_QINQ)) then Ok (protocol, off)
      else vlan ← load_bytes skb off 4; vlan_headers turns skb (ntohs vlan 2) (off + 4)
  end.

Definition zero_event : EbpfFlowEvent :=
  mkEbpf 0 (replicate 16 0) (replicate 16 0) 0 0 0 0 0 0 0 0.

Definition start_event (now ifindex : Z) : EbpfFlowEvent :=
  mkEbpf now (e_src_ip zero_event) (e_dst_ip zero_event) 0 ifindex 0 0 0 0 0 direction_INGRESS.

Definition dispatch (skb : bytes) (ev : EbpfFlowEvent) (protocol off : Z) : tc EbpfFlowEvent :=
  if protocol =? ETHERTYPE_IPV4 then tc_parse_ipv4 skb off ev
  else if protocol =? ETHERTYPE_IPV6 then tc_parse_ipv6 skb off ev
  else Err PARSE_UNSUPPORTED.

(** What the program makes of a packet of interface [ifindex] at time [now]. *)
Definition tc_parse (skb : bytes) (now ifindex : Z) : tc EbpfFlowEvent :=
  ethernet ← load_bytes skb 0 14;
  '(protocol, off) ← vlan_headers 2 skb (ntohs ethernet 12) 14;
  dispatch skb (start_event now ifindex) protocol off.

(** [TcCollectorCounters]: the program's counters, summed over the CPUs. *)
Record TcCounters := mkTcCounters {
  tc_packets : Z;
  emitted : Z;
  ring_drops : Z;
  parse_errors : Z;
  unsupported : Z;
}.

Definition is_consistent (c : TcCounters) : bool :=
  bool_decide
    ((total ← checked_add (emitted c) (ring_drops c);
      total ← checked_add total (parse_errors c);
      checked_add total (unsupported c)) = Ok (tc_packets c)).

(** The program's effects: counters and records submitted to the ring. *)
Record TcState := mkTc { counters : TcCounters; ring : list bytes }.

Inductive bucket := Emitted | RingDrop | ParseError | Unsupported.
#[export] Instance bucket_eq_dec : EqDecision bucket.
Proof. solve_decision. Defined.

(** [increment_counter] of the packets and of one outcome. *)
Definition count (c : TcCounters) (b : bucket) : TcCounters :=
  let on b' := if decide (b = b') then 1 else 0 in
  mkTcCounters (tc_packets c +ʷ 1) (emitted c +ʷ on Emitted) (ring_drops c +ʷ on RingDrop)
    (parse_errors c +ʷ on ParseError) (unsupported c +ʷ on Unsupported).

(** One packet; [room]: the ring accepts a record. *)
Definition flowsketch_tc (abi : Z) (now ifindex : Z) (room : bool) (skb : bytes) (s : TcState) : TcState :=
  if negb (abi =? 1) then mkTc (count (counters s) Unsupported) (ring s)
  else match tc_parse skb now ifindex with
       | Ok ev =>
           if room then mkTc (count (counters s) Emitted) (ring s ++ [encode_ne ev])
           else mkTc (count (counters s) RingDrop) (ring s)
       | Err PARSE_ERROR => mkTc (count (counters s) ParseError) (ring s)
       | Err PARSE_UNSUPPORTED => mkTc (count (counters s) Unsupported) (ring s)
       | Panic => s
       end.

(** ** Loading bytes *)

Lemma load_bytes_ok pre a b len :
  len = zlen a → load_bytes (pre ++ a ++ b) (zlen pre) len = Ok a.
Proof.
  intros ->. unfold load_bytes. rewrite !zlen_app.
  pose proof (zlen_nonneg pre). pose proof (zlen_nonneg a). pose proof (zlen_nonneg b).
  rewrite (proj2 (Z.ltb_ge _ _)), (proj2 (Z.ltb_ge _ _)) by lia. cbn [orb].
  by rewrite drop_zlen_app, take_zlen_app.
Qed.

Lemma load_bytes_short pre a len :
  zlen a < len → load_bytes (pre ++ a) (zlen pre) len = Err PARSE_ERROR.
Proof.
  intros H. unfold load_bytes. rewrite zlen_app. by rewrite (proj2 (Z.ltb_lt (zlen pre + zlen a - zlen pre) len)), orb_true_r by lia.
Qed.

(** ** The transport header *)

(** The event with the transport fields of a header. *)
Definition add_l4 (ev : EbpfFlowEvent) (proto : Z) (l4 : L4Info) : EbpfFlowEvent :=
  with_transport ev proto (l4_src_port l4) (l4_dst_port l4) (l4_tcp_flags l4).

(** The transport fields are still zero. *)
Definition fresh (ev : EbpfFlowEvent) : Prop := e_src_port ev = 0 ∧ e_dst_port ev = 0 ∧ e_tcp_flags ev = 0.

Lemma parse_transport_eq pre rest post proto ev :
  fresh ev →
  parse_transport (pre ++ rest ++ post) (zlen pre) (zlen pre + zlen rest) proto ev =
  match parse_l4 proto rest (zlen rest) with
  | Ok l4 => Ok (add_l4 ev proto l4)
  | _ => Err PARSE_ERROR
  end.
Proof.
  intros (Hs & Hd & Hf). unfold parse_transport. pose proof (zlen_nonneg rest) as Hr.
  replace (zlen pre + zlen rest - zlen pre) with (zlen rest) by lia.
  rewrite (proj2 (Z.ltb_ge (zlen pre + zlen rest) (zlen pre))) by lia. cbn [orb].
  destruct (Z.eqb_spec proto 6) as [->|H6]; [|destruct (Z.eqb_spec proto 17) as [->|H17]].
  - destruct (Z.ltb_spec (zlen rest) 14) as [H|H]; ostep.
    { unfold parse_l4. cbn [Z.eqb Pos.eqb]. by rewrite (proj2 (Z.ltb_lt _ _)) by done. }
    destruct (split_bytes 14 rest) as (hd & tl & -> & Hp); [done|].
    rewrite <- app_assoc, load_bytes_ok by (unfold zlen; by rewrite Hp). ostep.
    explode hd Hp. rewrite parse_l4_tcp. unfold get at 1 2 3. cbn [lookup list_lookup default from_option id].
    rewrite shiftr_4. rewrite zlen_app. change (zlen [_; _; _; _; _; _; _; _; _; _; _; _; _; _]) with 14.
    match goal with |- context [?b <? 20] => destruct (Z.ltb_spec b 20); [done|] end. cbn [orb].
    match goal with |- context [14 + zlen tl <? ?b] => destruct (Z.ltb_spec (14 + zlen tl) b); [done|] end. done.
  - destruct (Z.ltb_spec (zlen rest) 8) as [H|H]; ostep.
    { unfold parse_l4. cbn [Z.eqb Pos.eqb]. by rewrite (proj2 (Z.ltb_lt _ _)) by done. }
    destruct (split_bytes 8 rest) as (hd & tl & -> & Hp); [done|].
    rewrite <- app_assoc, load_bytes_ok by (unfold zlen; by rewrite Hp). ostep.
    explode hd Hp. rewrite parse_l4_udp.
    match goal with |- context [ntohs ?l 4] => change (ntohs l 4) with (be_val [get l 4; get l 5]) end.
    unfold get at 1 2 3 4. cbn [lookup list_lookup default from_option id].
    match goal with |- context [fail_if ?b _] => destruct b; [done|] end. ostep. by rewrite Hf.
  - unfold parse_l4. rewrite (proj2 (Z.eqb_neq _ _) H6), (proj2 (Z.eqb_neq _ _) H17). by rewrite Hs, Hd, Hf.
Qed.

Lemma parse_transport_spec pre rest post proto ev :
  fresh ev →
  accepts (parse_transport (pre ++ rest ++ post) (zlen pre) (zlen pre + zlen rest) proto ev)
    (λ ev', ∃ l4, transport proto rest (zlen rest) l4 ∧ ev' = add_l4 ev proto l4).
Proof.
  intros Hf. rewrite parse_transport_eq by done. destruct (parse_l4_spec proto rest (zlen rest)) as [Hn H].
  destruct (parse_l4 _ _ _) as [l4|e|] eqn:E; [| |done].
  - apply accepts_ok; [exists l4; by rewrite <- H|]. intros ev' (l4' & Ht & ->). apply H in Ht. by apply ok_inj in Ht as ->.
  - apply accepts_none. intros ev' (l4 & Ht & _). by apply H in Ht.
Qed.

(** ** The IP headers *)

(** 16 octets of an address, IPv4 ones at the end. *)
Definition octets16 (ip : IpAddr) : list Z :=
  match ip with V4 o => replicate 12 0 ++ o | V6 o => o end.
Definition version_of (ip : IpAddr) : Z := match ip with V4 _ => 4 | V6 _ => 6 end.

(** The record of a packet's event. *)
Definition fill (ev : EbpfFlowEvent) (e : FlowEvent) : EbpfFlowEvent :=
  add_l4 (with_ip ev (version_of (src_ip e)) (ev_bytes e) (octets16 (src_ip e)) (octets16 (dst_ip e)))
    (protocol e) (mkL4 (src_port e) (dst_port e) (tcp_flags e)).

Lemma tc_parse_ipv4_eq pre b0 b1 b2 b3 b4 b5 b6 b7 b8 b9 b10 b11 b12 b13 b14 b15 b16 b17 b18 b19 rest ev :
  let data := [b0; b1; b2; b3; b4; b5; b6; b7; b8; b9; b10; b11; b12; b13; b14; b15; b16; b17; b18; b19] ++ rest in
  let ihl := b0 mod 16 * 4 in
  let total := be_val [b2; b3] in
  let ev' := with_ip ev 4 total (octets16 (V4 [b12; b13; b14; b15])) (octets16 (V4 [b16; b17; b18; b19])) in
  tc_parse_ipv4 (pre ++ data) (zlen pre) ev =
  (_ ← fail_if (negb (b0 / 16 =? 4)) PARSE_ERROR;
   _ ← fail_if ((ihl <? 20) || (total <? ihl) || (zlen data <? total)) PARSE_ERROR;
   if be_val [b6; b7] mod 8192 =? 0
   then parse_transport (pre ++ data) (zlen pre + ihl) (zlen pre + total) b9 ev'
   else Ok (with_transport ev' b9 (e_src_port ev) (e_dst_port ev) (e_tcp_flags ev))).
Proof.
  intros data ihl total ev'. unfold tc_parse_ipv4, data.
  rewrite load_bytes_ok by done. ostep. rewrite shiftr_4, land_15, land_8191.
  change (get _ 0) with b0. change (get _ 9) with b9. fold ihl.
  match goal with |- context [ntohs ?l 2] => change (ntohs l 2) with total; change (ntohs l 6) with (be_val [b6; b7]) end.
  rewrite !zlen_app. pose proof (zlen_nonneg pre). pose proof (zlen_nonneg rest).
  change (zlen [_; _; _; _; _; _; _; _; _; _; _; _; _; _; _; _; _; _; _; _]) with 20.
  replace (zlen pre + (20 + zlen rest) - zlen pre) with (20 + zlen rest) by lia.
  rewrite (proj2 (Z.ltb_ge (zlen pre + (20 + zlen rest)) (zlen pre))) by lia. rewrite orb_false_r.
  destruct (fail_if _ _); [|done|done]. ostep. destruct (fail_if _ _); [|done|done]. ostep.
  by destruct (be_val [b6; b7] mod 8192 =? 0).
Qed.

Lemma tc_ipv4_iff b0 b1 b2 b3 b4 b5 b6 b7 b8 b9 b10 b11 b12 b13 b14 b15 b16 b17 b18 b19 rest wire ev ev0 :
  let ihl := b0 mod 16 * 4 in
  let total := be_val [b2; b3] in
  let ev' := with_ip ev 4 total (octets16 (V4 [b12; b13; b14; b15])) (octets16 (V4 [b16; b17; b18; b19])) in
  (∃ e, ipv4_packet wire
    ([b0; b1; b2; b3; b4; b5; b6; b7; b8; b9; b10; b11; b12; b13; b14; b15; b16; b17; b18; b19] ++ rest) e ∧
    ev0 = fill ev e) ↔
  b0 / 16 = 4 ∧ 20 <= ihl <= 20 + zlen rest ∧ ihl <= total <= wire ∧
  ∃ l4, (if decide (be_val [b6; b7] mod 8192 = 0)
         then transport b9 (take (Z.to_nat (total - ihl)) (drop (Z.to_nat (ihl - 20)) rest)) (total - ihl) l4
         else l4 = L4Info_default) ∧ ev0 = add_l4 ev' b9 l4.
Proof.
  intros ihl total ev'. split.
  - intros (e & (Hv & Hi & Ht & l4 & Hl & ->)%ipv4_packet_iff & ->).
    split; [exact Hv|]. split; [exact Hi|]. split; [exact Ht|]. exists l4. by split.
  - intros (Hv & Hi & Ht & l4 & Hl & ->). exists (event_of (V4 [b12; b13; b14; b15]) (V4 [b16; b17; b18; b19]) b9 total l4). split; [|done].
    apply ipv4_packet_iff. split; [exact Hv|]. split; [exact Hi|]. split; [exact Ht|]. exists l4. by split.
Qed.

Lemma tc_parse_ipv4_spec pre data ev :
  fresh ev → bytes_ok data →
  accepts (tc_parse_ipv4 (pre ++ data) (zlen pre) ev) (λ ev', ∃ e, ipv4_packet (zlen data) data e ∧ ev' = fill ev e).
Proof.
  intros Hf Hok. destruct (Z.lt_ge_cases (zlen data) 20) as [Hs|Hs].
  { unfold tc_parse_ipv4. rewrite load_bytes_short by done. apply accepts_none. intros ev' (e & H & _).
    inversion H; subst. unfold zlen in Hs. rewrite !length_app in Hs. cbn [length] in Hs. lia. }
  destruct (split_bytes 20 data) as (hd & rest & -> & Hp); [done|]. explode hd Hp.
  eapply accepts_iff; [|intros ev'; symmetry; apply tc_ipv4_iff]. rewrite tc_parse_ipv4_eq. cbv zeta.
  match goal with |- context [be_val [?a; ?b] - _] =>
    assert (u16_ok (be_val [a; b])) as Ht by (bytes_inv Hok; by apply be_val_u16);
    set (total := be_val [a; b]) in * end.
  match goal with |- context [with_ip _ _ _ ?s ?d] => set (ev' := with_ip ev 4 total s d) end.
  match goal with |- context [negb (?b / 16 =? 4)] => set (ihl := b mod 16 * 4); set (ver := b / 16) end.
  pose proof (zlen_nonneg rest). pose proof (zlen_nonneg pre). rewrite zlen_app.
  change (zlen [_; _; _; _; _; _; _; _; _; _; _; _; _; _; _; _; _; _; _; _]) with 20.
  destruct (Z.eqb_spec ver 4) as [Ev|Ev]; ostep; [|apply accepts_none; intros e (? & _); done].
  match goal with |- accepts (_ ← fail_if ?b _; _) _ => destruct b eqn:E end; ostep;
    [apply accepts_none; intros e (_ & ? & ? & _); lia|].
  match goal with |- context [if ?f mod 8192 =? 0 then _ else _] => destruct (Z.eqb_spec (f mod 8192) 0) as [Ef|Ef] end.
  - match goal with |- context [pre ++ ?l ++ rest] => set (hd := l ++ take (Z.to_nat (ihl - 20)) rest);
      assert (pre ++ l ++ rest = (pre ++ hd) ++ take (Z.to_nat (total - ihl)) (drop (Z.to_nat (ihl - 20)) rest) ++
        drop (Z.to_nat (total - ihl)) (drop (Z.to_nat (ihl - 20)) rest)) as ->
        by (unfold hd; by rewrite take_drop, <- !app_assoc, take_drop) end.
    assert (zlen hd = ihl) as Hhd by (unfold hd, zlen in *; rewrite length_app, length_take; cbn [length]; lia).
    set (payload := take (Z.to_nat (total - ihl)) _).
    assert (zlen payload = total - ihl) as Hpay by (unfold payload, zlen in *; rewrite length_take, length_drop; lia).
    replace (zlen pre + ihl) with (zlen (pre ++ hd)) by (rewrite zlen_app; lia).
    replace (zlen pre + total) with (zlen (pre ++ hd) + zlen payload) by (rewrite zlen_app; lia).
    eapply accepts_iff; [by apply parse_transport_spec|]. intros e'. rewrite Hpay.
    split; [intros (l4 & ? & ->)|intros (_ & _ & _ & l4 & Hl & ->)].
    + split; [done|]. split; [lia|]. split; [lia|]. exists l4. by rewrite decide_True.
    + exists l4. by rewrite decide_True in Hl.
  - destruct Hf as (-> & -> & ->). apply accepts_ok.
    + split; [done|]. split; [lia|]. split; [lia|]. exists L4Info_default. by rewrite decide_False.
    + intros e' (_ & _ & _ & l4 & Hl & ->). rewrite decide_False in Hl by done. by subst.
Qed.

Lemma is_ipv6_extension_spec p : is_ipv6_extension p = bool_decide (extension p).
Proof.
  rewrite <- extension_spec. unfold is_ipv6_extension, option_header.
  destruct (p =? 0), (p =? 43), (p =? 44), (p =? 51), (p =? 60); reflexivity.
Qed.

Lemma land_65528 f : u16_ok f → (Z.land f 65528 =? 0) = bool_decide (f / 8 = 0).
Proof.
  unfold u16_ok. intros Hf. change 65528 with (Z.land (Z.ones 16) (Z.lnot (Z.ones 3))).
  rewrite Z.land_assoc, Z.land_ones by lia. rewrite Z.mod_small by lia.
  rewrite <- Z.ldiff_land, Z.ldiff_ones_r, Z.shiftl_mul_pow2, Z.shiftr_div_pow2 by lia. change (2 ^ 3) with 8.
  case_bool_decide as E; [by rewrite E|]. apply Z.eqb_neq. lia.
Qed.

(** The program reads the transport header after any number of extension headers
    up to six: [transport] is its limit. *)
Lemma extension_loop_spec n pre rest post nh ev :
  fresh ev → bytes_ok rest →
  accepts (r ← extension_loop n (pre ++ rest ++ post) (zlen pre + zlen rest) nh (zlen pre) ev;
           after_extensions (pre ++ rest ++ post) (zlen pre + zlen rest) ev r)
    (λ ev', ∃ x, headers transport n nh rest (zlen rest) x.1 x.2 ∧ ev' = add_l4 ev x.1 x.2).
Proof.
  intros Hf. revert pre rest nh. induction n as [|n IH]; intros pre rest nh Hok; pose proof (zlen_nonneg rest) as Hr.
  { cbn [extension_loop]. ostep. cbn [after_extensions]. rewrite is_ipv6_extension_spec.
    case_bool_decide as He; ostep.
    - apply accepts_none. intros ev' ([p i] & H & _). inversion H; subst. contradiction.
    - eapply accepts_iff; [by apply parse_transport_spec|]. intros ev'. split.
      + intros (l4 & ? & ->). exists (nh, l4). split; [by apply headers_limit|done].
      + intros ([p i] & H & ->). cbn [fst snd] in H. inversion H; subst. by exists i. }
  assert (∀ mid tl next, rest = mid ++ tl →
    accepts (r ← extension_loop n (pre ++ rest ++ post) (zlen pre + zlen rest) next (zlen pre + zlen mid) ev;
             after_extensions (pre ++ rest ++ post) (zlen pre + zlen rest) ev r)
      (λ ev', ∃ x, headers transport n next tl (zlen rest - zlen mid) x.1 x.2 ∧ ev' = add_l4 ev x.1 x.2)) as IHn.
  { intros mid tl next ->. apply Forall_app in Hok as [_ Hok]. specialize (IH (pre ++ mid) tl next Hok).
    rewrite zlen_app, <- !app_assoc in IH. rewrite <- app_assoc, zlen_app.
    replace (zlen mid + zlen tl - zlen mid) with (zlen tl) by lia.
    by replace (zlen pre + (zlen mid + zlen tl)) with (zlen pre + zlen mid + zlen tl) by lia. }
  cbn [extension_loop]. rewrite is_ipv6_extension_spec. destruct (decide (extension nh)) as [He|He].
  2: { rewrite bool_decide_eq_false_2 by done. cbn [negb]. ostep. cbn [after_extensions].
    rewrite is_ipv6_extension_spec, bool_decide_eq_false_2 by done. ostep.
    eapply accepts_iff; [by apply parse_transport_spec|]. intros ev'. split.
    - intros (l4 & ? & ->). exists (nh, l4). split; [by apply headers_transport|done].
    - intros ([p i] & H & ->). cbn [fst snd] in H. apply headers_transport_iff in H as [-> H]; [|done]. by exists i. }
  rewrite bool_decide_eq_true_2 by done. cbn [negb].
  replace (zlen pre + zlen rest - zlen pre) with (zlen rest) by lia.
  rewrite (proj2 (Z.ltb_ge (zlen pre + zlen rest) (zlen pre))) by lia. cbn [orb].
  destruct (Z.eqb_spec nh 44) as [->|H44].
  - destruct (Z.ltb_spec (zlen rest) 8) as [Hs|Hs]; ostep.
    { apply accepts_none. intros ev' ([p i] & H & _). apply headers_long in H as (? & ? & ? & ? & ? & ?); [lia|done|done]. }
    destruct (split_bytes 8 rest) as (hd & tl & -> & Hp); [done|].
    assert (load_bytes (pre ++ (hd ++ tl) ++ post) (zlen pre) 8 = Ok hd) as ->
      by (rewrite <- app_assoc; apply load_bytes_ok; unfold zlen; by rewrite Hp).
    ostep. explode hd Hp.
    match goal with |- context [ntohs ?l 2] => change (ntohs l 2) with (be_val [get l 2; get l 3]) end.
    unfold get. cbn [lookup list_lookup default from_option id].
    match goal with |- context [be_val [?a; ?b]] => assert (u16_ok (be_val [a; b])) as Hu by (bytes_inv Hok; by apply be_val_u16) end.
    rewrite land_65528 by done. case_bool_decide as Hfr; cbn [negb].
    + eapply accepts_iff; [exact (IHn [_; _; _; _; _; _; _; _] tl _ eq_refl)|]. intros ev'.
      apply exist_proper. intros [p i]. cbn [fst snd].
      rewrite (headers_fragment_iff _ n _ _ _ _ _ _ _ _ tl), decide_True by done. done.
    + ostep. cbn [after_extensions]. destruct Hf as (Hf1 & Hf2 & Hf3). rewrite Hf1, Hf2, Hf3. apply accepts_ok.
      * eexists (_, L4Info_default). split; [|done]. apply headers_fragment_iff. by rewrite decide_False.
      * intros ev' ([p i] & H & ->). cbn [fst snd] in H. apply headers_fragment_iff in H. rewrite decide_False in H by done.
        by destruct H as [-> ->].
  - destruct (Z.ltb_spec (zlen rest) 2) as [Hs|Hs]; ostep.
    { apply accepts_none. intros ev' ([p i] & H & _). apply headers_long in H as (? & ? & ? & ? & ? & ?); [lia|done|done]. }
    destruct rest as [|next [|ext tl]]; [done|done|].
    assert (load_bytes (pre ++ (next :: ext :: tl) ++ post) (zlen pre) 2 = Ok [next; ext]) as ->
      by (apply (load_bytes_ok pre [next; ext] (tl ++ post)); done).
    ostep. unfold get. cbn [lookup list_lookup default from_option id].
    assert ((if nh =? 51 then (ext + 2) * 4 else (ext + 1) * 8) = extension_len nh ext) as ->.
    { unfold extension_len. destruct (Z.eqb_spec nh 51); [by rewrite decide_True|by rewrite decide_False]. }
    assert (0 <= ext) as Hx by (bytes_inv Hok; unfold u8_ok in *; lia). apply (extension_dec_len nh) in Hx.
    rewrite (proj2 (Z.ltb_ge _ 8)) by lia. cbn [orb].
    destruct (Z.ltb_spec (zlen (next :: ext :: tl)) (extension_len nh ext)) as [Hl|Hl]; ostep.
    { apply accepts_none. intros ev' ([p i] & H & _). apply headers_long in H as (? & ? & ? & ? & ? & Hy); [|done|done].
      simplify_eq. specialize (Hy H44). lia. }
    destruct (split_bytes (Z.to_nat (extension_len nh ext - 2)) tl) as (body & tl' & -> & Hp).
    { rewrite !zlen_cons in Hl. pose proof (zlen_nonneg tl). lia. }
    assert (2 + zlen body = extension_len nh ext) as Hb by (unfold zlen; lia).
    specialize (IHn ([next; ext] ++ body) tl' next eq_refl).
    replace (zlen ([next; ext] ++ body)) with (extension_len nh ext) in IHn by (rewrite zlen_app; done).
    eapply accepts_iff; [exact IHn|]. intros ev'. apply exist_proper. intros [p i]. cbn [fst snd].
    by split; intros [H ->]; (split; [|done]); apply (headers_option_iff _ n nh next ext body tl').
Qed.

(** ** The IPv6 header *)

Lemma version_bits b0 b1 b2 b3 :
  u8_ok b1 → u8_ok b2 → u8_ok b3 → Z.shiftr (be_val [b0; b1; b2; b3]) 28 = b0 / 16.
Proof.
  unfold u8_ok. intros. rewrite Z.shiftr_div_pow2 by lia. change (2 ^ 28) with 268435456.
  unfold be_val. change (reverse [b0; b1; b2; b3]) with [b3; b2; b1; b0].
  pose proof (Z.div_mod b0 16 ltac:(discriminate)). pose proof (Z.mod_pos_bound b0 16 eq_refl).
  symmetry. apply (Z.div_unique _ _ _ (b0 mod 16 * 16777216 + b1 * 65536 + b2 * 256 + b3)); [lia|].
  cbn [le_val]. unfold le_val. lia.
Qed.

Lemma tc_parse_ipv6_eq pre b0 b1 b2 b3 b4 b5 b6 b7 src dst body ev :
  u8_ok b1 → u8_ok b2 → u8_ok b3 → length src = 16%nat → length dst = 16%nat →
  let data := [b0; b1; b2; b3; b4; b5; b6; b7] ++ src ++ dst ++ body in
  let payload_length := be_val [b4; b5] in
  let stop := zlen pre + 40 + payload_length in
  let ev' := with_ip ev 6 (40 + payload_length) src dst in
  tc_parse_ipv6 (pre ++ data) (zlen pre) ev =
  (_ ← fail_if (negb (b0 / 16 =? 6)) PARSE_ERROR;
   _ ← fail_if (payload_length =? 0) PARSE_UNSUPPORTED;
   _ ← fail_if (zlen data <? 40 + payload_length) PARSE_ERROR;
   r ← extension_loop 6 (pre ++ data) stop b6 (zlen pre + 40) ev';
   after_extensions (pre ++ data) stop ev' r).
Proof.
  intros H1 H2 H3 Hs Hd data payload_length stop ev'. unfold tc_parse_ipv6.
  set (ip := [b0; b1; b2; b3; b4; b5; b6; b7] ++ src ++ dst).
  assert (load_bytes (pre ++ data) (zlen pre) 40 = Ok ip) as ->.
  { replace data with (ip ++ body) by (unfold data, ip; by rewrite <- !app_assoc). apply load_bytes_ok.
    unfold ip, zlen. rewrite !length_app, Hs, Hd. done. }
  ostep. change (take 4 ip) with [b0; b1; b2; b3]. rewrite version_bits by done.
  change (ntohs ip 4) with payload_length. change (get ip 6) with b6.
  assert (take 16 (drop 8 ip) = src) as ->
    by (unfold ip; change (drop 8 _) with (src ++ dst); by rewrite take_app_length' by done).
  assert (drop 24 ip = dst) as ->.
  { unfold ip. rewrite app_assoc. apply drop_app_length'. by rewrite length_app, Hs. }
  rewrite (zlen_app pre). pose proof (zlen_nonneg pre). pose proof (zlen_nonneg data).
  replace (zlen pre + zlen data - zlen pre) with (zlen data) by lia.
  by rewrite (proj2 (Z.ltb_ge (zlen pre + zlen data) (zlen pre))) by lia.
Qed.

Lemma tc_parse_ipv6_spec pre data ev :
  fresh ev → bytes_ok data →
  accepts (tc_parse_ipv6 (pre ++ data) (zlen pre) ev)
    (λ ev', ∃ e, ipv6_packet transport (zlen data) data e ∧ ev' = fill ev e).
Proof.
  intros Hf Hok. destruct (Z.lt_ge_cases (zlen data) 40) as [Hs|Hs].
  { unfold tc_parse_ipv6. rewrite load_bytes_short by done. apply accepts_none. intros ev' (e & H & _).
    inversion H; subst. unfold zlen in Hs. rewrite !length_app in Hs. cbn [length] in Hs. lia. }
  destruct (split_bytes 8 data) as (hd & rest & -> & Hp); [lia|].
  assert (32 <= zlen rest) as Hr by (rewrite zlen_app in Hs; unfold zlen in *; lia).
  destruct (split_bytes 16 rest) as (src & rest' & -> & Hsrc); [lia|].
  destruct (split_bytes 16 rest') as (dst & body & -> & Hdst); [rewrite zlen_app in Hr; unfold zlen in *; lia|].
  explode hd Hp. bytes_inv Hok. rewrite tc_parse_ipv6_eq by done. cbv zeta.
  match goal with |- context [be_val [?a; ?b]] =>
    assert (u16_ok (be_val [a; b])) as Ht by (by apply be_val_u16); set (plen := be_val [a; b]) in * end.
  unfold u16_ok in Ht.
  match goal with |- accepts ?m (λ ev', ∃ e, ipv6_packet transport ?w (?hd ++ src ++ dst ++ body) e ∧ _) =>
    match hd with [?b0; _; _; _; _; _; ?b6; _] =>
    assert (∀ ev0, (b0 / 16 = 6 ∧ 0 < plen ∧ 40 + plen <= w ∧ ∃ x, headers transport 6 b6
        (take (Z.to_nat plen) body) plen x.1 x.2 ∧ ev0 = add_l4 (with_ip ev 6 (40 + plen) src dst) x.1 x.2) ↔
      ∃ e, ipv6_packet transport w (hd ++ src ++ dst ++ body) e ∧ ev0 = fill ev e) as Hiff end end.
  { intros ev0. split.
    - intros (Hv & H0 & Hw & x & Hx & ->).
      exists (event_of (V6 src) (V6 dst) x.1 (40 + plen) x.2). split; [|done].
      apply ipv6_packet_iff; [done|done|]. split; [done|]. split; [done|]. split; [done|]. by exists x.
    - intros (e & (Hv & H0 & Hw & x & Hx & ->)%ipv6_packet_iff & ->); [|done|done].
      split; [done|]. split; [done|]. split; [done|]. by exists x. }
  eapply accepts_iff; [|exact Hiff].
  match goal with |- context [negb (?b / 16 =? 6)] => destruct (Z.eqb_spec (b / 16) 6) end; ostep;
    [|apply accepts_none; intros ? (? & _); done].
  destruct (Z.eqb_spec plen 0) as [E0|E0]; ostep; [apply accepts_none; intros ? (_ & ? & _); lia|].
  match goal with |- context [zlen ?d <? 40 + plen] => set (data := d) in *;
    destruct (Z.ltb_spec (zlen data) (40 + plen)) as [Hw|Hw]; ostep end;
    [apply accepts_none; intros ? (_ & _ & ? & _); lia|].
  match goal with d := ?l ++ src ++ dst ++ body |- _ => set (pre' := pre ++ l ++ src ++ dst) end.
  assert (zlen pre' = zlen pre + 40) as Hpre by (unfold pre'; rewrite !zlen_app; unfold zlen; rewrite Hsrc, Hdst; done).
  assert (pre ++ data = pre' ++ take (Z.to_nat plen) body ++ drop (Z.to_nat plen) body) as ->
    by (unfold pre', data; by rewrite take_drop, <- !app_assoc).
  assert (zlen (take (Z.to_nat plen) body) = plen) as Hb.
  { assert (zlen data = 40 + zlen body) as Hd
      by (unfold data, zlen; rewrite !length_app, Hsrc, Hdst; cbn [length]; lia).
    unfold zlen in *. rewrite length_take. lia. }
  rewrite <- Hpre. replace (zlen pre' + plen) with (zlen pre' + zlen (take (Z.to_nat plen) body)) by lia.
  eapply accepts_iff; [apply (extension_loop_spec 6); [done|by apply Forall_take]|]. intros ev0. rewrite Hb.
  split; [|by intros (_ & _ & _ & H)]. intros H. split; [done|]. split; [lia|]. by split.
Qed.

(** ** The link layer *)

Lemma tc_dispatch_spec pre payload ev ty :
  fresh ev → bytes_ok payload →
  accepts (dispatch (pre ++ payload) ev ty (zlen pre))
    (λ ev', ∃ e, network transport (zlen payload) ty payload e ∧ ev' = fill ev e).
Proof.
  intros Hf Hok. unfold dispatch. destruct (Z.eqb_spec ty ETHERTYPE_IPV4) as [->|H4].
  { eapply accepts_iff; [by apply tc_parse_ipv4_spec|]. intros ev'. apply exist_proper. intros e.
    by split; intros [H ->]; (split; [|done]); [by constructor|inversion H]. }
  destruct (Z.eqb_spec ty ETHERTYPE_IPV6) as [->|H6].
  { eapply accepts_iff; [by apply tc_parse_ipv6_spec|]. intros ev'. apply exist_proper. intros e.
    by split; intros [H ->]; (split; [|done]); [by constructor|inversion H]. }
  apply accepts_none. intros ev' (e & H & _). by inversion H.
Qed.

Lemma vlan_headers_spec n pre a b rest ev :
  fresh ev → bytes_ok rest →
  accepts ('(protocol, off) ← vlan_headers n (pre ++ a :: b :: rest) (be_val [a; b]) (zlen pre + 2);
           dispatch (pre ++ a :: b :: rest) ev protocol off)
    (λ ev', ∃ e, tagged transport n (zlen (pre ++ a :: b :: rest)) (zlen pre + 2) (a :: b :: rest) e ∧
       ev' = fill ev e).
Proof.
  intros Hf.
  assert (∀ n pre a b rest, bytes_ok rest → n = 0%nat ∨ be_val [a; b] ∉ [ETHERTYPE_VLAN; ETHERTYPE_QINQ] →
    accepts (dispatch (pre ++ a :: b :: rest) ev (be_val [a; b]) (zlen pre + 2))
      (λ ev', ∃ e, tagged transport n (zlen (pre ++ a :: b :: rest)) (zlen pre + 2) (a :: b :: rest) e ∧
         ev' = fill ev e)) as Hleaf.
  { clear n pre a b rest. intros n pre a b rest Hok Hn.
    replace (pre ++ a :: b :: rest) with ((pre ++ [a; b]) ++ rest) by by rewrite <- app_assoc.
    replace (zlen pre + 2) with (zlen (pre ++ [a; b])) by by rewrite zlen_app.
    eapply accepts_iff; [by apply tc_dispatch_spec|]. intros ev'. apply exist_proper. intros e.
    rewrite tagged_untagged by done. rewrite (zlen_app (pre ++ [a; b])).
    by replace (zlen (pre ++ [a; b]) + zlen rest - zlen (pre ++ [a; b])) with (zlen rest) by lia. }
  revert pre a b rest. induction n as [|n IH]; intros pre a b rest Hok; cbn [vlan_headers].
  { ostep. apply Hleaf; auto. }
  destruct (decide (be_val [a; b] ∈ [ETHERTYPE_VLAN; ETHERTYPE_QINQ])) as [Hv|Hv].
  2: { assert ((be_val [a; b] =? ETHERTYPE_VLAN) || (be_val [a; b] =? ETHERTYPE_QINQ) = false) as ->.
    { rewrite orb_false_iff, !Z.eqb_neq. set_solver. }
    cbn [negb]. ostep. apply Hleaf; auto. }
  assert ((be_val [a; b] =? ETHERTYPE_VLAN) || (be_val [a; b] =? ETHERTYPE_QINQ) = true) as ->.
  { rewrite orb_true_iff, !Z.eqb_eq. set_solver. }
  cbn [negb].
  destruct (Z.lt_ge_cases (zlen rest) 4) as [Hs|Hs].
  { replace (pre ++ a :: b :: rest) with ((pre ++ [a; b]) ++ rest) by by rewrite <- app_assoc.
    replace (zlen pre + 2) with (zlen (pre ++ [a; b])) by by rewrite zlen_app.
    rewrite load_bytes_short by done. apply accepts_none.
    intros ev' (e & (? & ? & ? & ? & rest' & -> & _)%tagged_tagged & _); [|done].
    rewrite !zlen_cons in Hs. pose proof (zlen_nonneg rest'). lia. }
  destruct (split_bytes 4 rest) as (hd & rest' & -> & Hp); [done|].
  assert (load_bytes (pre ++ a :: b :: hd ++ rest') (zlen pre + 2) 4 = Ok hd) as ->.
  { replace (pre ++ a :: b :: hd ++ rest') with ((pre ++ [a; b]) ++ hd ++ rest') by by rewrite <- app_assoc.
    replace (zlen pre + 2) with (zlen (pre ++ [a; b])) by by rewrite zlen_app.
    apply load_bytes_ok. unfold zlen. by rewrite Hp. }
  ostep. destruct hd as [|c [|d [|a' [|b' [|]]]]]; try discriminate Hp.
  change (ntohs [c; d; a'; b'] 2) with (be_val [a'; b']). cbn [app] in *.
  do 4 (apply Forall_cons in Hok as [_ Hok]). specialize (IH (pre ++ [a; b; c; d]) a' b' rest' Hok).
  rewrite <- app_assoc in IH. cbn [app] in IH. rewrite (zlen_app pre [a; b; c; d]) in IH.
  change (zlen [a; b; c; d]) with 4 in IH. replace (zlen pre + 4 + 2) with (zlen pre + 2 + 4) in IH by lia.
  eapply accepts_iff; [exact IH|]. intros ev'. apply exist_proper. intros e. rewrite tagged_tagged by done.
  split; intros [H ->]; (split; [|done]); [by eexists _, _, _, _, _|].
  destruct H as (? & ? & ? & ? & ? & ? & H). by simplify_eq.
Qed.

(** The program accepts the frames of the layout, reading every transport header. *)
Lemma tc_parse_spec skb now ifindex :
  bytes_ok skb →
  accepts (tc_parse skb now ifindex)
    (λ ev, ∃ e, frame transport (zlen skb) ETHERNET skb e ∧ ev = fill (start_event now ifindex) e).
Proof.
  intros Hok. unfold tc_parse.
  destruct (Z.lt_ge_cases (zlen skb) 14) as [Hs|Hs].
  { assert (load_bytes skb 0 14 = Err PARSE_ERROR) as -> by exact (load_bytes_short [] skb 14 Hs).
    apply accepts_none. intros ev (e & H & _). inversion H; subst.
    unfold zlen in Hs. rewrite !length_app in Hs. cbn [length] in Hs. lia. }
  destruct (split_bytes 12 skb) as (macs & l & -> & Hm); [lia|].
  assert (zlen macs = 12) as Hz by (unfold zlen; by rewrite Hm).
  destruct l as [|a [|b rest]]; [rewrite app_nil_r in *; lia|rewrite zlen_app, zlen_cons, zlen_nil in Hs; lia|].
  assert (load_bytes (macs ++ a :: b :: rest) 0 14 = Ok (macs ++ [a; b])) as ->.
  { replace (macs ++ a :: b :: rest) with ([] ++ (macs ++ [a; b]) ++ rest) by (cbn [app]; by rewrite <- app_assoc).
    apply (load_bytes_ok []). by rewrite zlen_app, Hz. }
  ostep.
  assert (ntohs (macs ++ [a; b]) 12 = be_val [a; b]) as ->.
  { unfold ntohs, get. rewrite !lookup_app_r by lia. by rewrite Hm. }
  apply Forall_app in Hok as [_ Hok]. do 2 (apply Forall_cons in Hok as [_ Hok]).
  pose proof (vlan_headers_spec 2 macs a b rest (start_event now ifindex) ltac:(done) Hok) as Hv.
  rewrite Hz in Hv. eapply accepts_iff; [exact Hv|]. intros ev. apply exist_proper. intros e.
  by rewrite frame_ethernet_iff.
Qed.

(** ** Through the ring buffer *)

Record record_ok (e : EbpfFlowEvent) : Prop := {
  rk_ts : u64_ok (e_ts_nanos e);
  rk_src : length (e_src_ip e) = 16%nat;
  rk_dst : length (e_dst_ip e) = 16%nat;
  rk_bytes : u32_ok (e_bytes e);
  rk_interface : u32_ok (e_interface_index e);
  rk_sport : u16_ok (e_src_port e);
  rk_dport : u16_ok (e_dst_port e);
}.

Lemma field_mid (a b c : bytes) i j :
  i = zlen a → j = i + zlen b → field (a ++ b ++ c) i j = Ok b.
Proof. apply slice_mid. Qed.

Lemma record_decode_encode e : record_ok e → decode_ne (encode_ne e) = Ok e.
Proof.
  intros [Ht Hs Hd Hb Hi Hsp Hdp]. destruct e as [ts src dst len ifi sp dp p v f d].
  unfold decode_ne, encode_ne. cbn [e_ts_nanos e_src_ip e_dst_ip e_bytes e_interface_index e_src_port e_dst_port
    e_protocol e_ip_version e_tcp_flags e_direction] in *.
  set (ts' := le_bytes 8 ts). set (len' := le_bytes 4 len). set (ifi' := le_bytes 4 ifi).
  set (sp' := le_bytes 2 sp). set (dp' := le_bytes 2 dp). set (tl := [p; v; f; d]).
  set (b := ts' ++ src ++ dst ++ len' ++ ifi' ++ sp' ++ dp' ++ tl).
  assert (zlen ts' = 8) as Z1 by done. assert (zlen src = 16) as Z2 by (unfold zlen; by rewrite Hs).
  assert (zlen dst = 16) as Z3 by (unfold zlen; by rewrite Hd). assert (zlen len' = 4) as Z4 by done.
  assert (zlen ifi' = 4) as Z5 by done. assert (zlen sp' = 2) as Z6 by done. assert (zlen dp' = 2) as Z7 by done.
  assert (zlen b = 56) as Zb by (unfold b; rewrite !zlen_app, Z1, Z2, Z3, Z4, Z5, Z6, Z7; done).
  rewrite Zb. cbn [Z.eqb Pos.eqb EBPF_FLOW_EVENT_SIZE negb]. ostep.
  assert (field b 0 8 = Ok ts') as -> by (apply (field_mid [] ts' _); by rewrite ?Z1).
  assert (field b 8 24 = Ok src) as -> by (apply (field_mid ts' src _); by rewrite ?Z1, ?Z2).
  assert (field b 24 40 = Ok dst) as ->.
  { unfold b. rewrite app_assoc. apply field_mid; by rewrite ?zlen_app, ?Z1, ?Z2, ?Z3. }
  assert (field b 40 44 = Ok len') as ->.
  { unfold b. do 2 rewrite app_assoc. apply field_mid; by rewrite ?zlen_app, ?Z1, ?Z2, ?Z3, ?Z4. }
  assert (field b 44 48 = Ok ifi') as ->.
  { unfold b. do 3 rewrite app_assoc. apply field_mid; by rewrite ?zlen_app, ?Z1, ?Z2, ?Z3, ?Z4, ?Z5. }
  assert (field b 48 50 = Ok sp') as ->.
  { unfold b. do 4 rewrite app_assoc. apply field_mid; by rewrite ?zlen_app, ?Z1, ?Z2, ?Z3, ?Z4, ?Z5, ?Z6. }
  assert (field b 50 52 = Ok dp') as ->.
  { unfold b. do 5 rewrite app_assoc. apply field_mid; by rewrite ?zlen_app, ?Z1, ?Z2, ?Z3, ?Z4, ?Z5, ?Z6, ?Z7. }
  ostep.
  assert (∀ i x, tl !! i = Some x → vec_get (E := EbpfError) b (52 + Z.of_nat i) = Ok x) as Hv.
  { intros i x Hx. unfold b. do 6 rewrite app_assoc. apply vec_get_Some; [lia|].
    rewrite lookup_app_r by (rewrite !length_app, Hs, Hd; unfold ts', len', ifi', sp', dp'; rewrite !length_le_bytes; lia).
    rewrite !length_app, Hs, Hd. unfold ts', len', ifi', sp', dp'. rewrite !length_le_bytes.
    replace (Z.to_nat (52 + Z.of_nat i) - _)%nat with i by lia. done. }
  assert (vec_get b 52 = Ok (E := EbpfError) p) as -> by exact (Hv 0%nat p eq_refl).
  assert (vec_get b 53 = Ok (E := EbpfError) v) as -> by exact (Hv 1%nat v eq_refl).
  assert (vec_get b 54 = Ok (E := EbpfError) f) as -> by exact (Hv 2%nat f eq_refl).
  assert (vec_get b 55 = Ok (E := EbpfError) d) as -> by exact (Hv 3%nat d eq_refl). ostep.
  unfold u64_ok, u32_ok, u16_ok in *. unfold ts', len', ifi', sp', dp'. by rewrite !le_val_le_bytes_id by lia.
Qed.

(** The flow event the agent makes of a frame's event: with the time of the
    capture, the direction of the hook and the interface. *)
Definition seen (ts ifindex : Z) (e : FlowEvent) : FlowEvent :=
  {| ts_nanos := ts; src_ip := src_ip e; dst_ip := dst_ip e; src_port := src_port e; dst_port := dst_port e;
     protocol := protocol e; ev_bytes := ev_bytes e; packets := 1; direction := Ingress;
     tcp_flags := tcp_flags e; interface_index := ifindex; node_id := 0;
     namespace_id := None; pod_id := None; service_id := None |}.

Definition same_version (s d : IpAddr) : Prop := version_of s = version_of d.

Lemma to_ip_octets ip : ip_ok ip → to_ip (version_of ip) (octets16 ip) = Ok ip.
Proof.
  destruct ip as [o|o]; intros [_ Ho]; [|done]. destruct o as [|a [|b [|c [|d [|]]]]]; done.
Qed.

Lemma fill_seen now ifindex ts e :
  u64_ok now → u32_ok ifindex → event_ok e → same_version (src_ip e) (dst_ip e) →
  (r ← decode_ne (encode_ne (fill (start_event now ifindex) e)); try_into_flow_event r ts) =
    Ok (seen ts ifindex e).
Proof.
  intros Hn Hi He Hv. pose proof He as [? Hs Hd ? ? ? ? ? ? ? ?]. rewrite record_decode_encode.
  - ostep. unfold try_into_flow_event, fill, add_l4, with_transport, with_ip.
    cbn [e_ip_version e_src_ip e_dst_ip e_direction start_event]. rewrite to_ip_octets by done. ostep.
    rewrite Hv, to_ip_octets by done. done.
  - split; try done; cbn [fill add_l4 with_transport with_ip e_src_ip e_dst_ip];
      destruct (src_ip e), (dst_ip e); destruct Hs as [_ Hs], Hd as [_ Hd]; cbn [octets16];
      rewrite ?length_app, ?Hs, ?Hd; done.
Qed.

(** ** The two parsers *)

(** Frames on which no transport header follows six extension headers, and all
    frames whatever is made of such headers. *)
Definition shallow (skb : bytes) (e : FlowEvent) : Prop :=
  frame (λ _ _ _ _, False) (zlen skb) ETHERNET skb e.
Definition framed (skb : bytes) : Prop :=
  ∃ e, frame (λ _ _ _ _, True) (zlen skb) ETHERNET skb e.

Lemma accepts_reject {E A} (m : outcome E A) P : accepts m P → (∀ a, ¬ P a) → ∃ e, m = Err e.
Proof.
  intros [Hn H] HP. destruct m as [a|e|]; [|by exists e|done]. exfalso. apply (HP a). by apply H.
Qed.

(** [C25] Kernel and userspace parse alike.  For every whole Ethernet frame: one of
    the layout, no transport header of which hides behind six extension
    headers, is turned by the userspace parser into its event and by the tc
    program into a record that, encoded, carried through the ring buffer,
    decoded and converted, is that event with the capture's time, direction
    and interface; bytes that are no frame are rejected by both; and on the
    remaining frames the userspace parser reports no ports and no flags. *)
Theorem kernel_parser_agrees skb now ifindex ts :
  bytes_ok skb → zlen skb <= 4294967295 → u64_ok now → u32_ok ifindex →
  (∀ e, shallow skb e →
    parse_packet ETHERNET skb = Ok e ∧
    ∃ ev, tc_parse skb now ifindex = Ok ev ∧
      (r ← decode_ne (encode_ne ev); try_into_flow_event r ts) = Ok (seen ts ifindex e)) ∧
  (¬ framed skb → parse_packet ETHERNET skb = Err tt ∧ ∃ why, tc_parse skb now ifindex = Err why) ∧
  (∀ e, parse_packet ETHERNET skb = Ok e →
    shallow skb e ∨ src_port e = 0 ∧ dst_port e = 0 ∧ tcp_flags e = 0).
Proof.
  intros Hok Hlen Hn Hi. unfold parse_packet. rewrite (proj2 (Z.ltb_ge _ _)) by lia.
  pose proof (parse_packet_with_wire_len_spec ETHERNET skb (zlen skb) Hok) as Hr.
  pose proof (tc_parse_spec skb now ifindex Hok) as Hk. split; [|split].
  - intros e He. split.
    + apply Hr. split; [lia|]. by apply (frame_mono (λ _ _ _ _, False)).
    + exists (fill (start_event now ifindex) e). split.
      * apply Hk. exists e. split; [|done]. by apply (frame_mono (λ _ _ _ _, False)).
      * apply fill_seen; [done|done| |].
        -- assert (limit_ok (λ _ _ _ _, False)) as Hf by (intros nh data wire l4 _ []).
           apply (frame_ok _ _ _ _ _ Hf Hok He).
        -- apply frame_event in He as (s & d & ? & ? & ? & -> & o & o' & [[-> ->]|[-> ->]]); done.
  - intros Hf. split.
    + destruct (accepts_reject _ _ Hr) as [[] He]; [|done].
      intros e [_ He]. apply Hf. exists e. by apply (frame_mono skipped).
    + apply (accepts_reject _ _ Hk). intros ev (e & He & _). apply Hf. exists e. by apply (frame_mono transport).
  - intros e [_ He]%Hr. apply (frame_change _ (λ _ _ _ _, False)) in He as [He|He]; [by left|].
    destruct He as (? & ? & ? & ? & ? & ? & ? & ? & -> & ->). by right.
Qed.

(** The tagged IPv4 frame of [Packet], with all its payload. *)
Definition whole_frame : bytes := sample_frame ++ replicate 1460 0.

Lemma kernel_parser_agrees_witness :
  let e := event_of (V4 [192; 168; 1; 2]) (V4 [10; 0; 0; 9]) 6 1500 (mkL4 12345 443 18) in
  shallow whole_frame e ∧ parse_packet ETHERNET whole_frame = Ok e ∧
  ∃ ev, tc_parse whole_frame 5 2 = Ok ev ∧
    (r ← decode_ne (encode_ne ev); try_into_flow_event r 1700000000000000000) = Ok (seen 1700000000000000000 2 e).
Proof.
  intros e.
  assert (shallow whole_frame e) as He.
  { pose proof (proj1 (proj2 (parse_packet_with_wire_len_spec ETHERNET whole_frame (zlen whole_frame)
      ltac:(apply (bool_decide_unpack _); vm_compute; exact I)) e) ltac:(vm_compute; reflexivity)) as [_ Hf].
    apply (frame_change _ (λ _ _ _ _, False)) in Hf as [Hf|(? & ? & ? & ? & ? & ? & ? & ? & Heq & ->)];
      [exact Hf|discriminate Heq]. }
  split; [exact He|].
  exact (proj1 (kernel_parser_agrees whole_frame 5 2 1700000000000000000
    ltac:(apply (bool_decide_unpack _); vm_compute; exact I) ltac:(vm_compute; discriminate)
    ltac:(by range_tac) ltac:(by range_tac)) e He).
Defined.

(** Six destination options before TCP port 443: the program reports the port,
    the userspace parser does not. *)
Definition deep_frame : bytes :=
  replicate 12 0 ++ [134; 221] ++ [96; 0; 0; 0; 0; 68; 60; 64] ++ replicate 15 0 ++ [1] ++ replicate 15 0 ++ [2]
    ++ concat (replicate 5 [60; 0; 1; 4; 0; 0; 0; 0]) ++ [6; 0; 1; 4; 0; 0; 0; 0]
    ++ [48; 57; 1; 187; 0; 0; 0; 0; 0; 0; 0; 0; 80; 18; 0; 0; 0; 0; 0; 0].

Example parsers_differ :
  (e ← parse_packet ETHERNET deep_frame; Ok (protocol e, dst_port e)) = Ok (6, 0) ∧
  (e ← tc_parse deep_frame 0 0; Ok (e_protocol e, e_dst_port e)) = Ok (6, 443).
Proof. split; vm_compute; reflexivity. Qed.

(** ** Accounting *)

(** A packet as the hook receives it. *)
Record Hooked := mkHooked { hk_now : Z; hk_ifindex : Z; hk_room : bool; hk_skb : bytes }.

Definition run_tc (abi : Z) (s : TcState) (ps : list Hooked) : TcState :=
  foldl (λ s p, flowsketch_tc abi (hk_now p) (hk_ifindex p) (hk_room p) (hk_skb p) s) s ps.

(** Where a packet ends up, and the record it leaves in the ring. *)
Definition outcome_of (abi : Z) (p : Hooked) : bucket :=
  if decide (abi = 1) then
    match tc_parse (hk_skb p) (hk_now p) (hk_ifindex p) with
    | Ok _ => if hk_room p then Emitted else RingDrop
    | Err PARSE_ERROR => ParseError
    | _ => Unsupported
    end
  else Unsupported.
Definition record_of (abi : Z) (p : Hooked) : list bytes :=
  match outcome_of abi p, tc_parse (hk_skb p) (hk_now p) (hk_ifindex p) with
  | Emitted, Ok ev => [encode_ne ev]
  | _, _ => []
  end.
Definition tally (abi : Z) (b : bucket) (ps : list Hooked) : Z :=
  zlen (filter (λ p, outcome_of abi p = b) ps).

Lemma flowsketch_tc_eq abi p s :
  bytes_ok (hk_skb p) →
  flowsketch_tc abi (hk_now p) (hk_ifindex p) (hk_room p) (hk_skb p) s =
  mkTc (count (counters s) (outcome_of abi p)) (ring s ++ record_of abi p).
Proof.
  intros Hok. destruct (tc_parse_spec (hk_skb p) (hk_now p) (hk_ifindex p) Hok) as [Hn _].
  unfold flowsketch_tc, record_of, outcome_of.
  destruct (Z.eqb_spec abi 1) as [->|Ha]; cbn [negb].
  - rewrite decide_True by done. destruct (tc_parse _ _ _) as [ev|[]|]; [|by rewrite app_nil_r..|done].
    destruct (hk_room p); [done|by rewrite app_nil_r].
  - rewrite decide_False by done. by rewrite app_nil_r.
Qed.

Lemma tally_snoc abi b ps p :
  tally abi b (ps ++ [p]) = tally abi b ps + if decide (outcome_of abi p = b) then 1 else 0.
Proof.
  unfold tally. rewrite filter_app, zlen_app. f_equal. rewrite filter_cons, filter_nil. by case_decide.
Qed.

Lemma tally_total abi ps :
  tally abi Emitted ps + tally abi RingDrop ps + tally abi ParseError ps + tally abi Unsupported ps = zlen ps.
Proof.
  induction ps as [|p ps IH] using rev_ind; [done|]. rewrite !tally_snoc, zlen_app. change (zlen [p]) with 1.
  destruct (outcome_of abi p); repeat (case_decide; try done); lia.
Qed.

Lemma tally_nonneg abi b ps : 0 <= tally abi b ps.
Proof. apply zlen_nonneg. Qed.

Lemma records_emitted abi ps : zlen (concat (record_of abi <$> ps)) = tally abi Emitted ps.
Proof.
  induction ps as [|p ps IH] using rev_ind; [done|].
  rewrite fmap_app, concat_app, zlen_app, IH, tally_snoc. f_equal. cbn [fmap list_fmap concat]. rewrite app_nil_r.
  unfold record_of. destruct (outcome_of abi p) eqn:E; [|reflexivity..]. rewrite decide_True by done.
  unfold outcome_of in E. case_decide; [|discriminate E]. by destruct (tc_parse _ _ _) as [ev|[]|].
Qed.

Definition no_counts : TcCounters := mkTcCounters 0 0 0 0 0.

Lemma run_tc_spec abi ps :
  Forall (λ p, bytes_ok (hk_skb p)) ps → zlen ps <= u64_max →
  run_tc abi (mkTc no_counts []) ps =
  mkTc (mkTcCounters (zlen ps) (tally abi Emitted ps) (tally abi RingDrop ps) (tally abi ParseError ps)
          (tally abi Unsupported ps)) (concat (record_of abi <$> ps)).
Proof.
  unfold run_tc. induction ps as [|p ps IH] using rev_ind; intros Hok Hlen; [done|].
  apply Forall_app in Hok as [Hok Hp]. apply Forall_cons in Hp as [Hp _]. rewrite zlen_app in Hlen. change (zlen [p]) with 1 in Hlen.
  rewrite foldl_app, IH by (done || lia). cbn [foldl]. rewrite flowsketch_tc_eq by done. cbn [counters ring].
  rewrite fmap_app, concat_app. cbn [fmap list_fmap concat]. rewrite app_nil_r, !tally_snoc, zlen_app. change (zlen [p]) with 1.
  unfold count. cbn [tc_packets emitted ring_drops parse_errors unsupported].
  pose proof (tally_total abi ps). pose proof (tally_nonneg abi Emitted ps). pose proof (tally_nonneg abi RingDrop ps).
  pose proof (tally_nonneg abi ParseError ps). pose proof (tally_nonneg abi Unsupported ps).
  pose proof (zlen_nonneg ps).
  rewrite !wadd64_small by (repeat case_decide; unfold u64_ok; lia). done.
Qed.

(** The collector loses no packet unseen.  Over any sequence of packets, with a
    ring that is full at any of them, each packet is counted once, under its
    own outcome, so the agent's consistency check holds; the ring receives
    exactly the records of the parsed packets it had room for, in order; and a
    program of another ABI version emits nothing. *)
Lemma collector_accounting abi ps :
  Forall (λ p, bytes_ok (hk_skb p)) ps → zlen ps <= u64_max →
  let s := run_tc abi (mkTc no_counts []) ps in
  is_consistent (counters s) = true ∧ tc_packets (counters s) = zlen ps ∧
  ring s = concat (record_of abi <$> ps) ∧ emitted (counters s) = zlen (ring s) ∧
  parse_errors (counters s) = tally abi ParseError ps ∧ ring_drops (counters s) = tally abi RingDrop ps ∧
  (abi ≠ 1 → ring s = [] ∧ unsupported (counters s) = zlen ps).
Proof.
  intros Hok Hlen. cbv zeta. rewrite run_tc_spec by done. cbn [counters ring tc_packets emitted parse_errors ring_drops unsupported].
  pose proof (tally_total abi ps). pose proof (tally_nonneg abi Emitted ps). pose proof (tally_nonneg abi RingDrop ps).
  pose proof (tally_nonneg abi ParseError ps). pose proof (tally_nonneg abi Unsupported ps).
  split_and!; try done.
  - unfold is_consistent. apply bool_decide_eq_true. cbn [tc_packets emitted ring_drops parse_errors unsupported].
    rewrite checked_add_small by lia. ostep. rewrite checked_add_small by lia. ostep.
    rewrite checked_add_small by lia. f_equal. lia.
  - symmetry. apply records_emitted.
  - intros Ha. assert (∀ p, outcome_of abi p = Unsupported) as Ho by (intros p; unfold outcome_of; by rewrite decide_False).
    split.
    + induction ps as [|p l IH] using rev_ind; [done|]. rewrite fmap_app, concat_app. cbn [fmap list_fmap concat].
      unfold record_of at 2. rewrite Ho. clear - Ho. induction l as [|q l IH]; [done|].
      cbn [fmap list_fmap concat app]. unfold record_of at 1. by rewrite Ho.
    + induction ps as [|p l IH] using rev_ind; [done|]. rewrite tally_snoc, zlen_app, decide_True by done.
      change (zlen [p]) with 1. f_equal. clear - Ho. induction l as [|q l IH] using rev_ind; [done|].
      rewrite tally_snoc, zlen_app, IH, decide_True by done. done.
Qed.

Lemma collector_accounting_witness :
  let ps := [mkHooked 1 2 true whole_frame; mkHooked 2 2 false whole_frame; mkHooked 3 2 true (take 40 whole_frame);
             mkHooked 4 2 true deep_frame] in
  let s := run_tc 1 (mkTc no_counts []) ps in
  is_consistent (counters s) = true ∧ tc_packets (counters s) = zlen ps ∧
  ring s = concat (record_of 1 <$> ps) ∧ emitted (counters s) = zlen (ring s) ∧
  parse_errors (counters s) = tally 1 ParseError ps ∧ ring_drops (counters s) = tally 1 RingDrop ps ∧
  (1 ≠ 1 → ring s = [] ∧ unsupported (counters s) = zlen ps).
Proof.
  intros ps. apply (collector_accounting 1 ps).
  - repeat (apply Forall_cons_2; [apply (bool_decide_unpack _); vm_compute; exact I|]). apply Forall_nil_2.
  - vm_compute. discriminate.
Defined.
