(* ===== verification/Replay.v ===== *)
(** * Offline replay  (crates/flowsketch-cli/src/replay.rs)

    A capture file fed through the query engine: every event is retried after
    draining the completed windows, the open windows are flushed at the end, and
    the estimates of every window end up in one list.  The abstract counterpart
    is the machine of WindowSpec that is never drained. *)
From S2P Require Import Prelude Bytes Hash Sketch F64 Event Ir Planner QueryState Emit Window Engine WindowSpec Sliding EngineSpec Sharded ShardedSpec LaneReports GatewaySpec Cluster Published Exposition Packet Pcap.

Inductive ReplayError :=
  | Construction (e : SketchError)
  | BadHeader (e : PcapError)
  | BadRecord (e : PcapError)
  | NoDrainableWindow
  | NoDrainableFinal
  | UpdateFailed (e : SketchError)
  | FlushFailed (e : SketchError)
  | ExportFailed (e : SketchError).

Section replay.
Context (exp log2 : f64 → f64) (fuel : nat) (fp : Footprint).
#[local] Existing Instance QueryState_Window | 0.
Abbreviation Engine := (QueryEngine QueryState).
Implicit Types (eng : Engine) (ests : list SketchEstimate).

(** [take_estimates] returns a list, not a result. *)
Definition drain eng : outcome ReplayError (list SketchEstimate * Engine) :=
  match take_estimates exp log2 fuel fp eng with (Ok es, eng) => Ok (es, eng) | _ => Panic end.

(** [loop { match step { Ok => break, Err(Backpressure) => drain, Err(e) => return } }];
    the second attempt finds the windows drained. *)
Fixpoint retry (turns : nat) (step : stm Engine SketchError unit) (stuck : ReplayError) (failed : SketchError → ReplayError)
    eng ests : outcome ReplayError (Engine * list SketchEstimate) :=
  match turns with
  | O => Panic
  | S turns =>
      match step eng with
      | (Ok _, eng) => Ok (eng, ests)
      | (Err (Backpressure _), eng) =>
          '(drained, eng) ← drain eng;
          if bool_decide (drained = []) then Err stuck
          else retry turns step stuck failed eng (ests ++ drained)
      | (Err error, _) => Err (failed error)
      | (Panic, _) => Panic
      end
  end.

Definition process_event (event : FlowEvent) eng ests : outcome ReplayError (Engine * list SketchEstimate) :=
  '(eng, ests) ← retry 2 (engine_process (WS := QueryState_Window fuel) event) NoDrainableWindow UpdateFailed eng ests;
  if pending_windows_full eng
  then '(drained, eng) ← drain eng; Ok (eng, ests ++ drained)
  else Ok (eng, ests).

Definition finish_replay eng ests : outcome ReplayError (Engine * list SketchEstimate) :=
  retry 2 (engine_finish (WS := QueryState_Window fuel)) NoDrainableFinal FlushFailed eng ests.

(** [while let Some(event) = reader.next_event()? { .. }] *)
Fixpoint replay_loop (turns : nat) (r : PcapReader) eng ests (events : Z)
    : outcome ReplayError (Engine * list SketchEstimate * Z) :=
  match turns with
  | O => Panic
  | S turns =>
      match next_event r with
      | (Err e, _) => Err (BadRecord e)
      | (Panic, _) => Panic
      | (Ok None, _) => Ok (eng, ests, events)
      | (Ok (Some event), r) =>
          '(eng, ests) ← process_event event eng ests;
          replay_loop turns r eng ests (events +ʷ 1)
      end
  end.

Record Replayed := mkReplayed { rd_estimates : list SketchEstimate; rd_events : Z; rd_snapshots : list SnapshotExport }.

(** [run] up to its output; the snapshots are taken when a directory is given. *)
Definition run (plans : list Plan) (h : HashSpec) (s : Stream) (snapshot_out : bool) : outcome ReplayError Replayed :=
  eng ← map_err Construction (engine_new (WS := QueryState_Window fuel) plans h);
  r ← map_err BadHeader (PcapReader_new s);
  '(eng, ests, events) ← replay_loop (S (length (available (reader r)))) r eng [] 0;
  '(eng, ests) ← finish_replay eng ests;
  snapshots ← (if snapshot_out then map_err ExportFailed (export_snapshots fuel eng) else Ok []);
  '(drained, _) ← drain eng;
  Ok (mkReplayed (ests ++ drained) events snapshots).
End replay.

(** *** What is shown  *)

(** [last_end], and the estimates that end there. *)
Definition last_ends (ests : list SketchEstimate) : gmap string Z :=
  foldl (λ m e, <[e_query_name e := Z.max (default 0 (m !! e_query_name e)) (e_window_end_nanos e)]> m) ∅ ests.
Definition latest_window_only (ests : list SketchEstimate) : list SketchEstimate :=
  base.filter (λ e, default 0 (last_ends ests !! e_query_name e) = e_window_end_nanos e) ests.

(** [print_tables]: the rows of a query's table, [None] when it has no results;
    at most fifty are printed. *)
Definition table_rows (ests : list SketchEstimate) (query_name : string) : option (list SketchEstimate) :=
  last_end ← ts_max (e_window_end_nanos <$> of_query query_name ests);
  Some (sort_by by_estimate (base.filter (λ e, e_query_name e = query_name ∧ e_window_end_nanos e = last_end) ests)).

(** [export_info] of main.rs, and what [--format prometheus] prints. *)
Definition cli_export_info (plans : list Plan) : gmap string QueryExportInfo :=
  foldl (λ m p, <[q_name (query p) :=
    mkExportInfo (ErrorKind_name (error_kind (physical p))) (max_series (export (query p))) (size_nanos (window (query p)))]> m) ∅ plans.
Definition prometheus_output (show : f64 → bytes) (plans : list Plan) (ests : list SketchEstimate) : bytes :=
  (render show (latest_window_only ests) (cli_export_info plans)).1.

(** ** The machine that is never drained *)

Definition with_out (A : Spec) (out : list (Z * Z * list Item)) : Spec := mkSpec (sp_log A) (sp_ring A) out (sp_late A).
Definition whole (p : Plan) (ops : list Op) : Spec := foldl (λ A op, op_effect p op A) spec_new ops.

Lemma op_effect_out p op A pre : op ≠ OpDrain →
  op_effect p op (with_out A (pre ++ sp_out A)) = with_out (op_effect p op A) (pre ++ sp_out (op_effect p op A)).
Proof.
  intros Hop. unfold with_out. destruct A as [log ring out late].
  assert (∀ target, spec_advance (slide_nanos (window (query p))) (window_buckets (physical p)) target (mkSpec log ring (pre ++ out) late)
    = with_out (spec_advance (slide_nanos (window (query p))) (window_buckets (physical p)) target (mkSpec log ring out late))
        (pre ++ sp_out (spec_advance (slide_nanos (window (query p))) (window_buckets (physical p)) target (mkSpec log ring out late)))) as Hadv.
  { intros target. unfold spec_advance, spec_closed, with_out. destruct ring as [[front back0]|]; [|done]. cbn [sp_ring sp_log sp_out sp_late].
    destruct (target <=? back0); [done|]. cbn [sp_ring sp_log sp_out sp_late]. by rewrite app_assoc. }
  destruct op as [e|ts| |]; [| | |done]; cbn [op_effect sp_log sp_ring sp_out sp_late].
  - destruct (WindowSpec.accepts p e); [|done]. unfold spec_process. rewrite Hadv. destruct (spec_advance _ _ _ _) as [log' [[front back0]|] out' late']; [|done].
    unfold with_out, spec_log. cbn [sp_ring sp_log sp_out sp_late]. by destruct (_ <? _).
  - apply Hadv.
  - unfold spec_finish. cbn [sp_ring sp_log sp_out sp_late]. destruct ring as [[front back0]|]; [|done]. cbn [sp_ring sp_log sp_out sp_late]. by rewrite app_assoc.
Qed.

(** ** The loop *)

Section spec.
Context (exp log2 : f64 → f64) (fuel : nat) (fp : Footprint) (plans : list Plan) (h : HashSpec).
Abbreviation rep p r := (window_rep (WS := QueryState_Window fuel) (like := like fuel) p h r).
Abbreviation tracked := (tracks (WS := QueryState_Window fuel) (supported := supported fuel) (like := like fuel) h).
Abbreviation Engine := (QueryEngine QueryState).
Implicit Types (eng : Engine) (ests : list SketchEstimate) (ops : list Op) (x : Plan * Spec).

(** Plans as the planner makes them, under distinct names, whose sketches are
    built and whose estimates the fuel covers. *)
Record replayable : Prop := {
  names_distinct : NoDup ((λ p, q_name (query p)) <$> plans);
  plans_fine : Forall (plan_ok (supported fuel)) plans;
  sketches_built : Forall (λ p, ∃ r, QueryState.build (sketch (physical p)) h = Ok r) plans;
  estimates_covered : Forall (λ p, estimated (sketch (physical p)) → HllMap.converges fuel) plans;
}.
Context (Hplans : replayable).

Abbreviation shown p w es := (Engine.estimates exp log2 fuel fp w p = Ok es).

(** [ests] holds, for the query of [p], what its windows [outs] emit, each once and in order. *)
Definition emitted_for p r outs ests : Prop :=
  ∃ ws ess, Forall2 (rep p r) ws outs ∧ Forall2 (λ w es, shown p w es) ws ess ∧
    of_query (q_name (query p)) ests = concat ess.
Definition every_window p ops ests : Prop :=
  ∃ r, QueryState.build (sketch (physical p)) h = Ok r ∧ emitted_for p r (sp_out (whole p ops)) ests.
(** So far: the pending windows are still to come. *)
Definition so_far ops ests x : Prop :=
  ∃ r outs, QueryState.build (sketch (physical x.1)) h = Ok r ∧
    whole x.1 ops = with_out x.2 (outs ++ sp_out x.2) ∧ emitted_for x.1 r outs ests.
Definition replaying ops eng ests : Prop :=
  ∃ l, l.*1 = plans ∧ Forall2 tracked (queries eng) l ∧ Forall (so_far ops ests) l.

Lemma in_plans l x : l.*1 = plans → x ∈ l → x.1 ∈ plans.
Proof using. intros <- Hx. by apply list_elem_of_fmap_2. Qed.

Lemma so_far_op ops op ests x : op ≠ OpDrain → so_far ops ests x → so_far (ops ++ [op]) ests (x.1, op_effect x.1 op x.2).
Proof using.
  intros Hop (r & outs & Hr & Hw & He). exists r, outs. split; [done|]. split; [|done]. cbn [fst snd].
  unfold whole in *. rewrite foldl_app, Hw. cbn [foldl]. by apply op_effect_out.
Qed.

Lemma named w p es : shown p w es → ∀ q, of_query q es = if decide (q = q_name (query p)) then es else [].
Proof using.
  intros H q. assert (Forall (λ e, e_query_name e = q_name (query p)) es) as Hn by (eapply emit_forall; [|exact H]; done).
  unfold of_query. case_decide as Hq.
  - apply filter_all. eapply Forall_impl; [exact Hn|]. congruence.
  - apply filter_none. eapply Forall_impl; [exact Hn|]. congruence.
Qed.

Lemma of_query_named ws p ess : Forall2 (λ w es, shown p w es) ws ess →
  ∀ q, of_query q (concat ess) = if decide (q = q_name (query p)) then concat ess else [].
Proof using.
  intros H q. induction H as [|w es ws ess Hw _ IH]; [by case_decide|]. cbn [concat]. rewrite of_query_app, IH, (named _ _ _ Hw).
  by case_decide.
Qed.

(** Draining hands over the estimates of every pending window. *)
Lemma drain_query p r q A out : p ∈ plans → QueryState.build (sketch (physical p)) h = Ok r →
  represents (WS := QueryState_Window fuel) (like := like fuel) p h r q A → 
  ∃ ess, Forall2 (λ w es, shown p w es) (emitted q) ess ∧
    foldM (λ out w, es ← Engine.estimates exp log2 fuel fp w p; Ok (out ++ es)) out (emitted q) = Ok (out ++ concat ess).
Proof using Hplans.
  intros Hp Hr HA. pose proof (proj1 (Forall_forall _ _) (plans_fine Hplans) p Hp) as Hok.
  pose proof (proj1 (Forall_forall _ _) (estimates_covered Hplans) p Hp) as Hest.
  pose proof (rp_out _ _ _ _ _ HA) as Hout. revert out. induction Hout as [|w x ws outs Hw _ IH]; intros out.
  - exists []. cbn. by rewrite app_nil_r.
  - destruct (window_estimates_ok exp log2 fuel fp p h r w (po_supported _ _ Hok) Hest Hr (proj1 (proj2 (proj2 Hw)))) as [es Hes].
    change (shown p w es) in Hes. destruct (IH (out ++ es)) as (ess & Hess & Hf). exists (es :: ess). split; [by constructor|].
    cbn [foldM]. rewrite Hes. ostep. rewrite Hf. cbn [concat]. by rewrite app_assoc.
Qed.
(** Every pending window would emit nothing. *)
Definition silent eng : Prop := ∀ q w, q ∈ queries eng → w ∈ emitted q → shown (rq_plan q) w [].

Lemma concat_silent p ws ess : Forall2 (λ w es, shown p w es) ws ess → concat ess = [] → ∀ w, w ∈ ws → shown p w [].
Proof using.
  induction 1 as [|w es ws ess Hw _ IH]; [by intros _ w ?%elem_of_nil|]. cbn [concat]. intros [-> Hc]%app_eq_nil.
  intros w' [->|Hin]%elem_of_cons; [done|by apply IH].
Qed.

Abbreviation names l := ((λ x : Plan * Spec, q_name (query x.1)) <$> l).

Lemma take_spec qs l : Forall2 tracked qs l → (∀ x, x ∈ l → x.1 ∈ plans) → NoDup (names l) → ∀ out, ∃ drained,
  foldM (λ out q, foldM (λ out w, es ← Engine.estimates exp log2 fuel fp w (rq_plan q); Ok (out ++ es)) out (emitted q)) out qs
    = Ok (out ++ drained) ∧
  (∀ x, x ∈ l → ∃ r, QueryState.build (sketch (physical x.1)) h = Ok r ∧ emitted_for x.1 r (sp_out x.2) drained) ∧
  (∀ q, q ∉ names l → of_query q drained = []) ∧
  (drained = [] → ∀ q w, q ∈ qs → w ∈ emitted q → shown (rq_plan q) w []).
Proof using Hplans.
  induction 1 as [|q [p A] qs l (Hp & r & Hr & HA) _ IH]; intros Hin Hnd out.
  { exists []. split; [cbn; by rewrite app_nil_r|]. split; [by intros x ?%elem_of_nil|]. split; [done|]. by intros _ q w ?%elem_of_nil. }
  cbn [fst snd fmap list_fmap] in *. apply NoDup_cons in Hnd as [Hn Hnd].
  pose proof (md_plan _ _ _ (rp_made _ _ _ _ _ HA)) as Hplan.
  destruct (drain_query p r q A out ltac:(apply (Hin (p, A)); left) Hr HA) as (ess & Hess & Hf).
  destruct (IH ltac:(intros x Hx; apply Hin; by right) Hnd (out ++ concat ess)) as (drained & Hd & Hq & Hother & Hsil).
  exists (concat ess ++ drained). split; [|split; [|split]].
  - cbn [foldM]. rewrite Hplan, Hf. ostep. by rewrite Hd, app_assoc.
  - intros x [->|Hx]%elem_of_cons.
    + exists r. split; [done|]. exists (emitted q), ess. cbn [fst snd]. split; [apply (rp_out _ _ _ _ _ HA)|]. split; [done|].
      by rewrite of_query_app, (of_query_named _ _ _ Hess), decide_True, Hother, app_nil_r by done.
    + destruct (Hq x Hx) as (r' & Hr' & ws & ess' & H1 & H2 & H3). exists r'. split; [done|]. exists ws, ess'. split; [done|]. split; [done|].
      rewrite of_query_app, (of_query_named _ _ _ Hess), decide_False, H3; [done|]. intros E. apply Hn. rewrite <- E.
      by apply (list_elem_of_fmap_2 (λ x : Plan * Spec, q_name (query x.1))).
  - intros q' [Hne Ho]%not_elem_of_cons. rewrite of_query_app, (of_query_named _ _ _ Hess), decide_False by done. by apply Hother.
  - intros [Hc Hd0]%app_eq_nil q' w [->|Hq']%elem_of_cons Hw; [|by apply Hsil]. rewrite Hplan. by eapply concat_silent.
Qed.

Lemma emitted_for_app p r o1 o2 e1 e2 :
  emitted_for p r o1 e1 → emitted_for p r o2 e2 → emitted_for p r (o1 ++ o2) (e1 ++ e2).
Proof using.
  intros (w1 & s1 & H1 & H2 & H3) (w2 & s2 & H4 & H5 & H6). exists (w1 ++ w2), (s1 ++ s2).
  split; [by apply Forall2_app|]. split; [by apply Forall2_app|]. by rewrite of_query_app, H3, H6, concat_app.
Qed.

Lemma drained_tracks qs l : Forall2 tracked qs l → Forall2 tracked (drained <$> qs) ((λ x, (x.1, spec_drain x.2)) <$> l).
Proof using.
  intros H. apply Forall2_fmap. eapply Forall2_impl; [exact H|]. intros q [p A] (Hp & r & Hr & HA). split; [done|]. exists r. split; [done|].
  by apply (drain_spec p h r Hp).
Qed.

Lemma drain_replaying ops eng ests l :
  l.*1 = plans → Forall2 tracked (queries eng) l → Forall (so_far ops ests) l → ∃ drained,
    drain exp log2 fuel fp eng = Ok (drained, drain_all eng) ∧ (drained = [] → silent eng) ∧
    Forall2 tracked (queries (drain_all eng)) ((λ x, (x.1, spec_drain x.2)) <$> l) ∧
    Forall (so_far ops (ests ++ drained)) ((λ x, (x.1, spec_drain x.2)) <$> l).
Proof using Hplans.
  intros Hl Ht Hs.
  destruct (take_spec _ _ Ht (λ x, in_plans l x Hl)) with (out := @nil SketchEstimate) as (ds & Hd & Hq & _ & Hsil).
  { pose proof (names_distinct Hplans) as Hnd. rewrite <- Hl, <- list_fmap_compose in Hnd. exact Hnd. }
  exists ds. split; [|split; [|split]].
  - unfold drain, take_estimates. stm_simpl. rewrite Hd. done.
  - intros E q w. by apply Hsil.
  - by apply drained_tracks.
  - apply Forall_fmap, Forall_forall. intros [p A] Hx. destruct (proj1 (Forall_forall _ _) Hs _ Hx) as (r & outs & Hr & Hw & He).
    destruct (Hq _ Hx) as (r' & Hr' & He'). cbn [fst snd] in *. rewrite Hr in Hr'. injection Hr' as <-.
    exists r, (outs ++ sp_out A). split; [done|]. cbn [fst snd spec_drain sp_out]. rewrite app_nil_r. split; [|by apply emitted_for_app].
    cbn [compose fst]. rewrite Hw. done.
Qed.
(** A query whose pending windows are not at their limit. *)
Definition quiet eng : Prop := pending_windows_full eng = false.

Lemma quiet_room eng l x : quiet eng → Forall2 tracked (queries eng) l → x ∈ l → zlen (sp_out x.2) < window_buckets (physical x.1).
Proof using.
  unfold quiet, pending_windows_full. intros Hq Ht Hx. induction Ht as [|q y qs l Hqy _ IH]; [by apply elem_of_nil in Hx|].
  cbn [existsb] in Hq. apply orb_false_iff in Hq as [H0 Hq]. apply elem_of_cons in Hx as [->|Hx]; [|by apply IH].
  destruct y as [p A], Hqy as (Hp & r & Hr & HA). cbn [fst snd] in *. apply Z.eqb_neq in H0. unfold pending_capacity in H0.
  rewrite (md_plan _ _ _ (rp_made _ _ _ _ _ HA)), (po_capacity _ _ Hp), (rep_out_length p h r q A HA) in H0.
  pose proof (rp_room _ _ _ _ _ HA) as Hroom. rewrite (rep_out_length p h r q A HA) in Hroom. lia.
Qed.

Lemma closes_at_most p op A : plan_ok (supported fuel) p → op_closes p op A <= window_buckets (physical p).
Proof using.
  intros Hp. pose proof (po_ring _ _ Hp). destruct op as [e|ts| |]; cbn [op_closes].
  - destruct (WindowSpec.accepts p e); [eapply closed_range; exact Hp|lia].
  - eapply closed_range; exact Hp.
  - case_match; lia.
  - lia.
Qed.

Lemma has_room_drained q x op : tracked q x → EngineSpec.has_room op (x.1, spec_drain x.2) = true.
Proof using.
  intros (Hp & _). unfold EngineSpec.has_room. cbn [fst snd spec_drain sp_out]. apply Z.leb_le. change (zlen []) with 0. by apply closes_at_most.
Qed.

Lemma same_plans (f : Plan * Spec → Spec) l : ((λ x, (x.1, f x)) <$> l).*1 = l.*1.
Proof using. by rewrite <- list_fmap_compose. Qed.

(** The retried step. *)
Lemma retry_spec op stuck failed ops eng ests l :
  op ≠ OpDrain → op_ok op → l.*1 = plans → Forall2 tracked (queries eng) l → Forall (so_far ops ests) l →
  match retry exp log2 fuel fp 2 (run_engine_op (WS := QueryState_Window fuel) op) stuck failed eng ests with
  | Ok (eng', ests') => ∃ l', l'.*1 = plans ∧ Forall2 tracked (queries eng') l' ∧ Forall (so_far (ops ++ [op]) ests') l'
  | Err e => e = stuck ∧ silent eng ∧ forallb (EngineSpec.has_room op) l = false
  | Panic => False
  end.
Proof using Hplans.
  intros Hnd Hop Hl Ht Hs.
  assert (∀ eng ests l, l.*1 = plans → Forall2 tracked (queries eng) l → Forall (so_far ops ests) l → forallb (EngineSpec.has_room op) l = true →
    ∃ eng', run_engine_op (WS := QueryState_Window fuel) op eng = (Ok tt, eng') ∧
      ∃ l', l'.*1 = plans ∧ Forall2 tracked (queries eng') l' ∧ Forall (so_far (ops ++ [op]) ests) l') as Hgo.
  { clear Hl Ht Hs eng ests l. intros eng ests l Hl Ht Hs Hroom. pose proof (engine_op_spec (LW := QueryState_Lawful fuel) h op eng l Ht Hop) as H.
    rewrite Hroom in H. destruct H as (eng' & Hrun & Ht' & _). exists eng'. split; [done|]. eexists. split; [|split; [exact Ht'|]].
    - by rewrite (same_plans (λ x, op_effect x.1 op x.2)).
    - apply Forall_fmap. eapply Forall_impl; [exact Hs|]. intros x. by apply so_far_op. }
  cbn [retry]. destruct (forallb (EngineSpec.has_room op) l) eqn:Hroom.
  - destruct (Hgo eng ests l Hl Ht Hs Hroom) as (eng' & -> & H). exact H.
  - pose proof (engine_op_spec (LW := QueryState_Lawful fuel) h op eng l Ht Hop) as H. rewrite Hroom in H. rewrite H. unfold pending_full.
    destruct (drain_replaying ops eng ests l Hl Ht Hs) as (ds & -> & Hsil & Ht' & Hs'). ostep.
    case_bool_decide as Hd; [by split_and!; [|apply Hsil|]|].
    edestruct Hgo as (eng' & -> & H'); [rewrite same_plans; exact Hl|exact Ht'|exact Hs'| |exact H'].
    clear -Ht. induction Ht as [|q x qs l Hq _ IH]; [done|]. cbn [fmap list_fmap forallb]. by rewrite (has_room_drained q x op Hq).
Qed.

(** A window of a sliding query, completed by the events [evs], that emits nothing. *)
Definition suppressed_window (evs : list FlowEvent) : Prop :=
  ∃ p r w v, p ∈ plans ∧ 1 < window_buckets (physical p) ∧ QueryState.build (sketch (physical p)) h = Ok r ∧
    v ∈ sp_out (whole p (OpEvent <$> evs)) ∧ rep p r w v ∧ shown p w [].

Lemma stuck_suppressed evs eng ests l op :
  l.*1 = plans → Forall2 tracked (queries eng) l → Forall (so_far (OpEvent <$> evs) ests) l → quiet eng → silent eng →
  forallb (EngineSpec.has_room op) l = false → suppressed_window evs.
Proof using Hplans.
  intros Hl Ht Hs Hq Hsil Hroom. apply not_true_iff_false in Hroom.
  assert (∃ q x, x ∈ l ∧ q ∈ queries eng ∧ tracked q x ∧ EngineSpec.has_room op x = false) as (q & [p A] & Hx & Hqin & Htr & Hno).
  { clear Hl Hs Hq Hsil. unfold tracks_all in *. induction Ht as [|q x qs l Hqx _ IH]; [done|]. cbn [forallb] in Hroom.
    destruct (EngineSpec.has_room op x) eqn:E; [|exists q, x; split_and!; [by left|by left|done|done]].
    destruct (IH Hroom) as (q' & x' & ? & ? & ? & ?). exists q', x'. split_and!; [by right|by right|done|done]. }
  pose proof (quiet_room _ _ _ Hq Ht Hx) as Hlt. destruct Htr as (Hp & r & Hr & HA). cbn [fst snd] in *.
  pose proof (closes_at_most p op A Hp) as Hc. unfold EngineSpec.has_room in Hno. cbn [fst snd] in Hno. apply Z.leb_gt in Hno.
  destruct (proj1 (Forall_forall _ _) Hs _ Hx) as (r' & outs & Hr' & Hw & _). cbn [fst snd] in *. change (QueryState.build (sketch (physical p)) h = Ok r) in Hr. rewrite Hr in Hr'. injection Hr' as <-.
  pose proof (rp_out _ _ _ _ _ HA) as Ho. destruct (sp_out A) as [|x xs] eqn:Eo; [change (zlen []) with 0 in Hno; lia|].
  inversion Ho as [|w ? ws ? Hwx _ Ew]. subst.
  exists p, r, w, x. split; [exact (in_plans _ _ Hl Hx)|]. rewrite zlen_cons in Hlt. pose proof (zlen_nonneg xs). split; [lia|]. split; [done|].
  split; [rewrite Hw; cbn [with_out sp_out]; apply elem_of_app; right; by left|]. split; [done|].
  rewrite <- (md_plan _ _ _ (rp_made _ _ _ _ _ HA)). apply Hsil; [done|]. rewrite <- Ew. by left.
Qed.
Definition following ops eng ests : Prop :=
  ∃ l, l.*1 = plans ∧ Forall2 tracked (queries eng) l ∧ Forall (so_far ops ests) l.

Lemma drained_quiet eng l : Forall2 tracked (queries eng) l → quiet (drain_all eng).
Proof using.
  unfold quiet, pending_windows_full. cbn [queries drain_all with_queries].
  induction 1 as [|q x qs l (Hp & r & Hr & HA) _ IH]; [done|]. cbn [fmap list_fmap existsb]. rewrite IH, orb_false_r.
  unfold pending_capacity. cbn [drained with_emitted emitted rq_plan]. rewrite (md_plan _ _ _ (rp_made _ _ _ _ _ HA)), (po_capacity _ _ Hp).
  apply Z.eqb_neq. pose proof (po_ring _ _ Hp). change (zlen []) with 0. lia.
Qed.

Lemma process_event_spec evs event eng ests :
  event_ok event → quiet eng → following (OpEvent <$> evs) eng ests →
  match process_event exp log2 fuel fp event eng ests with
  | Ok (eng', ests') => quiet eng' ∧ following (OpEvent <$> (evs ++ [event])) eng' ests'
  | Err e => e = NoDrainableWindow ∧ suppressed_window evs
  | Panic => False
  end.
Proof using Hplans.
  intros Hev Hq (l & Hl & Ht & Hs). unfold process_event.
  pose proof (retry_spec (OpEvent event) NoDrainableWindow UpdateFailed _ eng ests l ltac:(done) Hev Hl Ht Hs) as H. cbn [run_engine_op] in H.
  destruct (retry _ _ _ _ _ _ _ _ _ _) as [[eng1 ests1]|e|]; [|destruct H as (-> & Hsil & Hno); split; [done|by eapply stuck_suppressed]|done].
  destruct H as (l1 & Hl1 & Ht1 & Hs1). ostep. rewrite fmap_app. destruct (pending_windows_full eng1) eqn:Hfull; [|split; [done|by exists l1]].
  destruct (drain_replaying _ _ _ _ Hl1 Ht1 Hs1) as (ds & -> & _ & Ht2 & Hs2). ostep.
  split; [by eapply drained_quiet|]. eexists. split; [|by split]. by rewrite (same_plans (λ x, spec_drain x.2)).
Qed.

(** The final flush finds room in every query. *)
Lemma finish_replay_spec ops eng ests :
  quiet eng → following ops eng ests →
  ∃ eng' ests', finish_replay exp log2 fuel fp eng ests = Ok (eng', ests') ∧ following (ops ++ [OpFinish]) eng' ests'.
Proof using Hplans.
  intros Hq (l & Hl & Ht & Hs). unfold finish_replay.
  pose proof (retry_spec OpFinish NoDrainableFinal FlushFailed ops eng ests l ltac:(done) I Hl Ht Hs) as H. cbn [run_engine_op] in H.
  destruct (retry _ _ _ _ _ _ _ _ _ _) as [[eng1 ests1]|e|]; [by exists eng1, ests1|exfalso|done].
  destruct H as (_ & _ & Hno). apply not_true_iff_false in Hno. apply Hno, forallb_forall. intros x Hx%list_elem_of_In.
  pose proof (quiet_room _ _ _ Hq Ht Hx) as Hroom. unfold EngineSpec.has_room. apply Z.leb_le. cbn [op_closes]. case_match; lia.
Qed.

Lemma replay_loop_spec turns r evs eng ests n :
  input_ok r → (left r < turns)%nat → quiet eng → following (OpEvent <$> evs) eng ests → n = zlen evs mod u64_mod →
  let '(es, end_) := events_loop turns r in
  match replay_loop exp log2 fuel fp turns r eng ests n with
  | Ok (eng', ests', n') => end_ = Ok tt ∧ quiet eng' ∧ following (OpEvent <$> (evs ++ es)) eng' ests' ∧ n' = zlen (evs ++ es) mod u64_mod
  | Err (BadRecord e) => end_ = Err e
  | Err NoDrainableWindow => ∃ k, suppressed_window (evs ++ take k es)
  | _ => False
  end.
Proof using Hplans.
  revert r evs eng ests n. induction turns as [|turns IH]; intros r evs eng ests n Hr Hleft Hq Hf ->; [lia|]. cbn [events_loop replay_loop].
  pose proof (next_event_loop_spec (Datatypes.S (left r)) r Hr ltac:(lia)) as Hne. change (next_event_loop _ r) with (next_event r) in Hne.
  destruct (next_event r) as [[[event|]|e|] r']; [|by rewrite app_nil_r|done|done]. destruct Hne as (Hev & Hr' & Hl').
  pose proof (process_event_spec evs event eng ests Hev Hq Hf) as Hp.
  destruct (process_event _ _ _ _ _ _ _) as [[eng1 ests1]|e|].
  - destruct Hp as [Hq1 Hf1]. ostep.
    assert (zlen evs mod u64_mod +ʷ 1 = zlen (evs ++ [event]) mod u64_mod) as En.
    { unfold wadd64, wrap64. by rewrite Zplus_mod_idemp_l, zlen_app. }
    specialize (IH r' (evs ++ [event]) eng1 ests1 _ Hr' ltac:(lia) Hq1 Hf1 En). destruct (events_loop turns r') as [es end_].
    rewrite <- app_assoc in IH. destruct (replay_loop _ _ _ _ _ _ _ _ _) as [[[eng2 ests2] n2]|[]|]; try done.
    destruct IH as [k Hk]. exists (Datatypes.S k). cbn [take]. by rewrite <- app_assoc in Hk.
  - destruct Hp as [-> Hsup]. destruct (events_loop turns r') as [es end_]. exists 0%nat. by rewrite app_nil_r.
  - done.
Qed.
Lemma new_following eng : engine_new (WS := QueryState_Window fuel) plans h = Ok eng → quiet eng ∧ following [] eng [].
Proof using Hplans.
  intros Hn. pose proof (engine_new_spec (WS := QueryState_Window fuel) (supported := supported fuel) (like := like fuel) h plans eng (plans_fine Hplans) Hn) as Ht. unfold tracks_all in Ht. split.
  - unfold quiet, pending_windows_full. clear Hn. assert (Forall (λ x : Plan * Spec, x.2 = spec_new) ((λ p, (p, spec_new)) <$> plans)) as Hnew
      by (apply Forall_fmap, Forall_true; done).
    induction Ht as [|q [p A] qs l (Hp & r & Hr & HA) _ IH]; [done|]. apply Forall_cons in Hnew as [E Hnew]. cbn [fst snd existsb] in *. subst A. rewrite (IH Hnew), orb_false_r.
    unfold pending_capacity. rewrite (md_plan _ _ _ (rp_made _ _ _ _ _ HA)), (rep_out_length p h r q spec_new HA), (po_capacity _ _ Hp).
    apply Z.eqb_neq. pose proof (po_ring _ _ Hp). cbn [fst snd] in *. change (zlen (sp_out spec_new)) with 0. lia.
  - exists ((λ p, (p, spec_new)) <$> plans). split; [rewrite <- list_fmap_compose; apply list_fmap_id|]. split; [done|].
    apply Forall_fmap, Forall_forall. intros p Hp. destruct (proj1 (Forall_forall _ _) (sketches_built Hplans) p Hp) as [r Hr].
    exists r, []. split; [done|]. split; [done|]. exists [], []. split; [constructor|]. by split; [constructor|].
Qed.

(** The open windows after [ops], under their queries' names. *)
Definition open_windows ops : list (string * (Z * Z * list Item)) := currents ((λ p, (p, whole p ops)) <$> plans).

Lemma currents_whole ops ests l : l.*1 = plans → Forall (so_far ops ests) l → currents l = open_windows ops.
Proof using.
  unfold open_windows, currents. intros <- Hs. rewrite <- list_fmap_compose, <- list_fmap_compose. f_equal.
  apply list_fmap_ext. intros i [p A] Hx%list_elem_of_lookup_2. destruct (proj1 (Forall_forall _ _) Hs _ Hx) as (r & outs & _ & Hw & _).
  cbn [compose fst snd] in *. rewrite Hw. done.
Qed.

Lemma export_spec ops eng ests : following ops eng ests → ∃ ws,
  export_snapshots fuel eng = Ok (concat ((λ w, snapshot_exports (qw_state w) (qw_query_name w)) <$> ws)) ∧
  Forall2 (output_rep (WS := QueryState_Window fuel) (like := like fuel) h plans) ws (open_windows ops).
Proof using Hplans.
  intros (l & Hl & Ht & Hs). destruct (current_windows_rep (LW := QueryState_Lawful fuel) h plans eng l (conj Ht Hl)) as (ws & Hw & Ho).
  exists ws. unfold export_snapshots. rewrite Hw. split; [done|]. by rewrite <- (currents_whole ops ests l).
Qed.

(** [C?] Replaying a capture gives every window's estimates exactly once.  For any
    plans the planner makes and any input: either the whole file is read, and
    then the estimates of each query are those of all the windows its events
    complete, the final flush included, in order, though they were drained in
    batches along the way, and the snapshots are those of the open windows; or
    the header or a record is broken, as the reader says; or replay gives up
    over a completed window, of a sliding query, that emits nothing.  It never
    panics, never fails otherwise, and the final flush is never refused. *)
Theorem replay_exact (s : Stream) (snapshot_out : bool) (Hs : bytes_ok (available s)) :
  match run exp log2 fuel fp plans h s snapshot_out with
  | Ok out => ∃ r evs ws, PcapReader_new s = Ok r ∧ read_events r = (evs, Ok tt) ∧ rd_events out = zlen evs mod u64_mod ∧
      (∀ p, p ∈ plans → every_window p ((OpEvent <$> evs) ++ [OpFinish]) (rd_estimates out)) ∧
      rd_snapshots out = (if snapshot_out then concat ((λ w, snapshot_exports (qw_state w) (qw_query_name w)) <$> ws) else []) ∧
      Forall2 (output_rep (WS := QueryState_Window fuel) (like := like fuel) h plans) ws (open_windows ((OpEvent <$> evs) ++ [OpFinish]))
  | Err (BadHeader e) => PcapReader_new s = Err e
  | Err (BadRecord e) => ∃ r evs, PcapReader_new s = Ok r ∧ read_events r = (evs, Err e)
  | Err NoDrainableWindow => ∃ r evs stop k, PcapReader_new s = Ok r ∧ read_events r = (evs, stop) ∧ suppressed_window (take k evs)
  | _ => False
  end.
Proof using Hplans.
  destruct (engine_new_ok (WS := QueryState_Window fuel) h plans (names_distinct Hplans) (sketches_built Hplans)) as [eng0 Hnew]. unfold run. rewrite Hnew.
  destruct (new_following eng0 Hnew) as [Hq0 Hf0]. cbn [map_err]. ostep.
  destruct (new_spec s Hs) as [Hnp Hr0]. destruct (PcapReader_new s) as [r|e|] eqn:Er; cbn [map_err]; ostep; [|done|done].
  destruct (Hr0 r eq_refl) as [Hi Hleft].
  pose proof (replay_loop_spec (Datatypes.S (left r)) r [] eng0 [] 0 Hi ltac:(lia) Hq0 Hf0 ltac:(done)) as H.
  change (events_loop _ r) with (read_events r) in H. destruct (read_events r) as [evs stop] eqn:Ee. cbn [app] in H. change (left r) with (length (available (reader r))) in H.
  destruct (replay_loop _ _ _ _ _ _ _ _ _) as [[[eng ests] n]|[]|]; try done.
  - destruct H as (-> & Hq & Hf & ->). ostep. destruct (finish_replay_spec _ _ _ Hq Hf) as (eng1 & ests1 & -> & Hf1). ostep.
    destruct (export_spec _ _ _ Hf1) as (ws & Hexp & Hws).
    assert ((if snapshot_out then map_err ExportFailed (export_snapshots fuel eng1) else Ok []) =
      Ok (if snapshot_out then concat ((λ w, snapshot_exports (qw_state w) (qw_query_name w)) <$> ws) else [])) as ->
      by (destruct snapshot_out; [by rewrite Hexp|done]).
    ostep. destruct Hf1 as (l & Hl & Ht & Hs1). destruct (drain_replaying _ _ _ _ Hl Ht Hs1) as (ds & -> & _ & Ht2 & Hs2). ostep.
    exists r, evs, ws. cbn [rd_estimates rd_events rd_snapshots]. split_and!; try done.
    intros p Hp. rewrite <- Hl in Hp. apply list_elem_of_fmap in Hp as ([p' A] & -> & Hx). cbn [fst].
    destruct (proj1 (Forall_forall _ _) Hs2 (p', spec_drain A)) as (r' & outs & Hr' & Hw & He).
    { apply (list_elem_of_fmap_2 (λ x : Plan * Spec, (x.1, spec_drain x.2)) _ _ Hx). }
    exists r'. split; [done|]. cbn [fst snd] in *. rewrite Hw. cbn [with_out sp_out spec_drain]. by rewrite app_nil_r.
  - exists r, evs. by rewrite Ee, H.
  - destruct H as [k Hk]. by exists r, evs, stop, k.
Qed.
End spec.

(** ** What is shown *)

Lemma last_ends_lookup ests q : Forall (λ e, 0 <= e_window_end_nanos e) ests →
  last_ends ests !! q = last_window (of_query q ests).
Proof.
  induction ests as [|e ests IH] using rev_ind; [done|]. intros [He [Hn _]%Forall_cons]%Forall_app. unfold last_ends in *.
  rewrite foldl_app, of_query_snoc. cbn [foldl]. set (m := foldl _ ∅ ests) in *. case_decide as Hq.
  - rewrite Hq, lookup_insert_eq, IH, last_window_snoc by done. f_equal. destruct (last_window _); [done|]. cbn. lia.
  - rewrite lookup_insert_ne by done. by apply IH.
Qed.

(** Of each query, the output shows what the newest window emitted. *)
Lemma latest_window_newest ests q : Forall (λ e, 0 <= e_window_end_nanos e) ests →
  of_query q (latest_window_only ests) = newest (of_query q ests).
Proof.
  intros Hn. unfold latest_window_only, newest. remember (last_window (of_query q ests)) as t0 eqn:Et0. unfold of_query. rewrite !list_filter_filter. apply filter_agree.
  intros e He. rewrite (last_ends_lookup _ _ Hn). split; intros [H1 H2]; subst q t0; [split; [|done]|].
  - destruct (last_window_bound (of_query (e_query_name e) ests) e) as (t & Ht & _); [by apply list_elem_of_filter|]. rewrite Ht in *. cbn in H2. congruence.
  - by rewrite <- H1.
Qed.

Lemma table_rows_newest ests q :
  table_rows ests q = match newest (of_query q ests) with [] => None | l => Some (sort_by by_estimate l) end.
Proof.
  unfold table_rows. change (ts_max _) with (last_window (of_query q ests)). destruct (last_window (of_query q ests)) as [t|] eqn:E.
  - assert (base.filter (λ e, e_query_name e = q ∧ e_window_end_nanos e = t) ests = newest (of_query q ests)) as Hf.
    { unfold newest. rewrite E. unfold of_query. rewrite list_filter_filter. apply filter_agree. intros e _. split; [intros [? ->]|intros [[= ->] ?]]; done. }
    cbn [mbind option_bind]. rewrite Hf. destruct (newest _) eqn:En; [|done]. exfalso.
    destruct (last_window_in _ _ E) as (e & He & Ht). assert (e ∈ newest (of_query q ests)) as Hin by (apply list_elem_of_filter; split; [congruence|done]).
    rewrite En in Hin. by apply elem_of_nil in Hin.
  - cbn [mbind option_bind]. unfold newest. rewrite E. by rewrite filter_none by by apply Forall_true.
Qed.

(** ** Concrete captures *)

Definition tcp_at (ts : Z) : Packet := mkPacket ts (V4 [10; 0; 1; 10]) (V4 [10; 0; 2; 50]) 40000 443 (Tcp 24) 1200.
Definition capture (stamps : list Z) : Stream := mkStream (written (foldl write_packet (PcapWriter_new []) (tcp_at <$> stamps))) UnexpectedEof.
Definition replay_capture (plans : list Plan) (stamps : list Z) : outcome ReplayError Replayed :=
  run (λ x, x) (λ x, x) 0 fp0 plans HashSpec_default (capture stamps) true.

Lemma two_plans_replayable : replayable 0 two_plans HashSpec_default.
Proof.
  split.
  - apply (bool_decide_unpack _). vm_compute. exact I.
  - exact two_plans_ok.
  - do 2 (apply Forall_cons_2; [eexists; vm_compute; reflexivity|]). apply Forall_nil_2.
  - do 2 (apply Forall_cons_2; [intros E; vm_compute in E; by destruct E|]). apply Forall_nil_2.
Qed.

(** Five windows of the sliding query and four of the tumbling one. *)
Lemma replay_exact_witness :
  ∃ out, replay_capture two_plans [5; 12; 23; 118] = Ok out ∧ rd_events out = 4 ∧
    length (of_query "hot" (rd_estimates out)) = 5%nat ∧ length (of_query "cold" (rd_estimates out)) = 4%nat ∧
    every_window (λ x, x) (λ x, x) 0 fp0 HashSpec_default sample_plan
      ((OpEvent <$> (read_events (run_or (opened (capture [])) (PcapReader_new (capture [5; 12; 23; 118])))).1) ++ [OpFinish]) (rd_estimates out).
Proof.
  assert (bytes_ok (available (capture [5; 12; 23; 118]))) as Hok by (apply (bool_decide_unpack _); vm_compute; exact I).
  pose proof (replay_exact (λ x, x) (λ x, x) 0 fp0 two_plans HashSpec_default two_plans_replayable (capture [5; 12; 23; 118]) true Hok) as H.
  destruct (replay_capture two_plans [5; 12; 23; 118]) as [out| |] eqn:E; [|vm_compute in E; discriminate E..].
  change (run _ _ _ _ _ _ _ _) with (replay_capture two_plans [5; 12; 23; 118]) in H. rewrite E in H.
  destruct H as (r & evs & ws & Hr & Hread & _ & Hall & _). rewrite Hr. cbn [run_or]. rewrite Hread. cbn [fst].
  exists out. split; [done|]. vm_compute in E. injection E as <-. do 3 (split; [vm_compute; reflexivity|]). apply Hall. left.
Defined.

(** A sliding query with an alert no event reaches: its windows emit nothing, and
    replay of a sound file gives up over the one it could have drained. *)
Definition alert_query : LogicalQuery :=
  mkQuery "hot" (mkPredicate None [] [] []) [DstIp] (HeavyHitters Bytes 2) (mkWindow 20 10)
    ErrorSpec_default (mkAlert (Some (f64_of_Z 1000000000)) None) ExportSpec_default 1073741824.
Definition alert_plan : Plan := run_or sample_plan (plan (λ x, x) (λ x, x) (λ _, "") (λ _ _, "") alert_query).

Example replay_gives_up :
  q_name (query alert_plan) = "hot" ∧ alert (query alert_plan) = mkAlert (Some (f64_of_Z 1000000000)) None ∧
  (Pcap.replay (capture [5; 15; 118])).2 = Ok tt ∧
  replay_capture [alert_plan] [5; 15; 118] = Err NoDrainableWindow ∧
  (∃ out, replay_capture [sample_plan] [5; 15; 118] = Ok out) ∧
  (∃ out, replay_capture [alert_plan] [5; 15] = Ok out).
Proof. split_and!; try (vm_compute; reflexivity); eexists; vm_compute; reflexivity. Qed.
