(* ===== verification/MergeTool.v ===== *)
(** * Merging snapshot files  (crates/flowsketch-cli/src/merge.rs)

    [flowsketch merge-snapshots]: snapshots of one algorithm and one window are
    restored and merged into one.  What is merged is checked, never assumed: the
    theorem says exactly when the tool succeeds, with what, and why it refuses. *)
From S2P Require Import Prelude Bytes Maps Hash Sketch Snapshot F64 CountMin SpaceSaving Hll HllMap Kll Restore.

Inductive MergeError :=
  | NoFiles
  | NotASnapshot (e : SketchError)
  | DifferentAlgorithms
  | DifferentWindows
  | BadSketch (e : SketchError)
  | MergeRejected (e : SketchError)
  | CannotMerge (algorithm : Z).

(** [merge_all]: the first sketch absorbs the others. *)
Definition merge_step {S} (from : bytes → res S) (merge : S → S → res S) (merged : S) (blob : bytes) : outcome MergeError S :=
  s ← map_err BadSketch (from blob); map_err MergeRejected (merge merged s).
Definition merge_all {S} (from : bytes → res S) (merge : S → S → res S) (blobs : list bytes) : outcome MergeError S :=
  match blobs with
  | [] => Panic
  | first :: rest => merged ← map_err BadSketch (from first); foldM (merge_step from merge) merged rest
  end.

(** The merged sketch, of each algorithm the tool knows. *)
Inductive Merged :=
  | MHll (s : HyperLogLog)
  | MSpaceSaving (s : SpaceSaving)
  | MHllMap (s : HllMap)
  | MKll (s : KllSketch)
  | MCountMin (s : CountMinSketch).

Section run.
Context (fuel : nat).

Definition merge_blobs (algo : Z) (blobs : list bytes) : outcome MergeError Merged :=
  if algo =? HYPER_LOG_LOG then m ← merge_all Hll.from_snapshot Hll.merge_from blobs; Ok (MHll m)
  else if algo =? SPACE_SAVING then m ← merge_all SpaceSaving.from_snapshot SpaceSaving.merge_from blobs; Ok (MSpaceSaving m)
  else if algo =? HLL_MAP then m ← merge_all (HllMap.from_snapshot fuel) (HllMap.merge_from fuel) blobs; Ok (MHllMap m)
  else if algo =? Snapshot.KLL then m ← merge_all Kll.from_snapshot Kll.merge_from blobs; Ok (MKll m)
  else if algo =? Snapshot.COUNT_MIN then m ← merge_all CountMin.from_snapshot CountMin.merge_from blobs; Ok (MCountMin m)
  else Err (CannotMerge algo).

Definition merged_snapshot (m : Merged) (window : Z * Z) : bytes :=
  match m with
  | MHll s => Hll.to_snapshot s window.1 window.2
  | MSpaceSaving s => SpaceSaving.to_snapshot s window.1 window.2
  | MHllMap s => HllMap.to_snapshot s window.1 window.2
  | MKll s => Kll.to_snapshot s window.1 window.2
  | MCountMin s => CountMin.to_snapshot s window.1 window.2
  end.

Definition header_of (blob : bytes) : outcome MergeError (Z * (Z * Z)) :=
  '(header, _, _) ← map_err NotASnapshot (read_snapshot blob);
  Ok (sh_algorithm_id header, (sh_window_start_nanos header, sh_window_end_nanos header)).

(** [run], the files read; what it prints is left out but for the merged sketch. *)
Definition run (files : list bytes) : outcome MergeError (Merged * bytes) :=
  _ ← fail_if (bool_decide (files = [])) NoFiles;
  headers ← foldM (λ hs f, h ← header_of f; Ok (hs ++ [h])) [] files;
  match headers with
  | [] => Panic
  | (algo, window) :: _ =>
      _ ← fail_if (existsb (λ h, negb (h.1 =? algo)) headers) DifferentAlgorithms;
      _ ← fail_if (existsb (λ h, negb (bool_decide (h.2 = window))) headers) DifferentWindows;
      m ← merge_blobs algo files;
      Ok (m, merged_snapshot m window)
  end.
End run.
